(* ===== verification/_CoqProject ===== *)
-Q . S2P
Prelude.v
Float64.v
FloatFacts.v
GoTime.v
SignedFloat.v
Core.v
GoString.v
Numeric.v
Hash.v
Options.v
ShardedStore.v
StoreFacts.v
StoreSpec.v
TokenBucket.v
LeakyBucket.v
SlidingWindow.v
StateStore.v
StoreRecency.v
StoreProps.v
MemoryLimiter.v
Disorder.v
Lifetimes.v
MemoryLimiters.v
MemoryProps.v
Layered.v
Middleware.v
Concurrent.v
ConcurrentFacts.v
ConcurrentProps.v
ConcurrentSeq.v
ConcurrentQuota.v
Redis.v
ScriptConcurrent.v
RedisScripts.v
LuaFacts.v
RedisScriptFacts.v
RedisCalls.v
RedisWindow.v
RedisSim.v
RedisProps.v
RedisExpiring.v
LayeredRedis.v
ContractTest.v
ContractProps.v
Examples.v
Bench.v
RedisDemo.v
