(* ===== verification/Prelude.v ===== *)
(** * Kaka: a verification development of the rate limiting library

    Kaka (src/) is a Go library that decides, request by request, whether a
    key may proceed.  This development models the library's own code and
    proves that its decisions respect the configured limits.

    ** The program and its parts

    - The root package (limiter.go, metrics.go) is the contract: [Limiter]
      with its method [Allow], the [Result] of a decision, and [MetricSink].
    - Package memory implements the contract three times: token bucket, leaky
      bucket, sliding window log.  Each is a pure decision on one key's state
      around a shared store of per-key states (sharded_store.go), which hashes
      keys to shards, bounds the number of keys, expires idle keys and either
      rejects new keys or evicts the least recently used when full.
    - Package redis implements it three times over a Redis server: the Go side
      prepares arguments, runs a Lua script through a SHA cache, decodes the
      reply, and applies an error policy when anything fails; the scripts
      (scripts/*.lua) decide inside the server, on its clock and its data.
    - Package layered puts a local limiter in front of a remote one.
    - The packages under middleware/ (http, gin, echo, fiber) turn requests
      into calls of a limiter and its results into responses.
    - internal/contracttest holds the behaviour tests that all limiters share;
      examples/ puts the packages together in five small servers, and
      benchmarks/ has a load target that serves behind any of them.

    Each layer calls the one below only through an interface, and so does the
    model: the class [Limiter] of Core.v stands between limiters and their
    clients (layered, middleware), and the classes [StateStore] and
    [StateStoreLaws] of StateStore.v between the in-memory limiters and their
    store.  Layered.v, Middleware.v, ContractTest.v and MemoryLimiter.v prove
    their theorems against the interface; StateStore.v and MemoryLimiters.v
    give the instances.  What package redis uses of its client and of the
    server are the classes [RedisClient], [RedisScripting], [RedisServer],
    [RedisServerLaws], [RedisExpiry] and [ScriptHost]; RedisSim.v instantiates
    all of them.  What the gin adapter relies on is the class [GinAborts] of
    Middleware.v.

    ** Files, and the code they model

    Foundations
    - Prelude.v (this file): notations, tactics, hint databases; outcomes of
      code that may panic; counting and list lemmas used everywhere.
    - Float64.v: Go's float64 as IEEE binary64, computable, and the functions
      of package math the code calls.
    - FloatFacts.v: the theory of rounding the limiters need.
    - GoTime.v: [time.Time] and [time.Duration] (int64 nanoseconds, saturating
      [Sub], conversions to seconds and milliseconds).
    - SignedFloat.v: sums and products that may be negative, for instants that
      go back.
    - GoString.v: [strings.TrimSpace] on UTF-8 bytes; memory/key_validation.go.
    - Core.v: limiter.go, metrics.go.

    Package memory
    - Numeric.v: numeric.go.  Hash.v: hash.go.  Options.v: options.go,
      eviction.go, clock.go.
    - ShardedStore.v: sharded_store.go and state_store.go, every operation
      with all its effects (records [shardedStore] and [shard] as in the code;
      [withState], [getOrCreateMap], [getOrCreateLRU],
      [reserveSlot], [sweepExpired], [evictFrom], [evictAnyOther],
      [cleanupMap], [cleanupLRU], [len], [drainEvictions]).
    - StoreFacts.v (one shard), StoreSpec.v (the abstract map, the
      representation invariant and the refinement), StoreRecency.v (stores
      reachable by a clock that never goes back), StoreProps.v (the theorems).
    - TokenBucket.v, LeakyBucket.v, SlidingWindow.v: [refillAndDecide],
      [leakAndDecide], [recordAndDecide] and the state each works on.
    - StateStore.v: the interface of state_store.go and its instance.
    - MemoryLimiter.v: the code of [Allow] the three limiters share, over any
      store.  Lifetimes.v: what a key experiences when its state may expire
      and begin anew between two requests.  Disorder.v: the two buckets when
      instants come in any order.  MemoryLimiters.v: the
      constructors, [Allow], and the [Limiter] instances.  MemoryProps.v: the
      end-to-end theorems.

    The store under concurrency
    - Concurrent.v: goroutines inside [withState] as program counters, one step
      per lock or atomic operation ([advance]), the relation [cstep] on
      configurations, and the atomic store [astep] they should refine.
    - ConcurrentFacts.v: the invariant of concurrent executions.
      ConcurrentProps.v: the theorems.  ConcurrentSeq.v: a call that runs alone
      is a call of ShardedStore.v.  ConcurrentQuota.v: the buckets of package
      memory over that store.

    The other packages
    - Layered.v: layered/limiter.go, layered/key_validation.go.
    - Middleware.v: the four adapters, as one [serve] over the operations an
      adapter uses of its framework, with net/http's behaviour modelled.  A
      handler that returns without having called the rest of the chain ends
      the request, except in gin, where [leave] goes on with the rest unless
      the context was aborted.
    - ContractTest.v: internal/contracttest/contracttest.go, over any limiter.
      ContractProps.v: the in-memory limiters pass the tests.
    - Examples.v: a sequence of requests through an adapter, and what the five
      programs under examples/ build, with the handlers of their net/http
      routes and the start of redis-example.
    - Bench.v: benchmarks/compare/middleware.go and
      benchmarks/cmd/bench-server/main.go: the choice of a limiter by flags,
      the key modes (with [crc32.ChecksumIEEE]), the ends of a start that
      fails, the adapter for ulule/limiter and the guard around "/metrics".
    - RedisDemo.v: redis-example at work: requests to its two routes, whose
      limiters share one server.

    Package redis
    - Redis.v: options.go, key.go, limiter.go, script.go and the three
      limiters' Go side, over the class [RedisClient].
    - ScriptConcurrent.v: concurrent calls of [Run] of script.go, one step per
      access to the guarded SHA or command on the server, in any interleaving
      with other clients and flushes; a call that runs alone is [Run] of
      Redis.v ([drive_Run]).
    - RedisScripts.v: token_bucket.lua, leaky_bucket.lua and
      sliding_window_log.lua, statement by statement, in a small monad of
      computations that call the server and may fail; the documented behaviour
      of the commands they use ([RedisServerLaws], [RedisExpiry]).
    - LuaFacts.v: the scripts' arithmetic.  RedisScriptFacts.v: how a bucket
      and a log are represented in the server's data, and one execution of
      each script.
    - RedisCalls.v: a call of [Allow] from the Go side through the script
      cache, the script and the reply ([ScriptHost]: the server runs the
      embedded files); histories of calls by any number of limiters on one
      key.  RedisWindow.v: the same for the sliding window, against
      SlidingWindow.v.
    - RedisSim.v: a small server that obeys all the laws, and runs.
      RedisProps.v: the theorems, with their witnesses on that server.
    - RedisExpiring.v: histories in which the key may expire between two calls.
    - LayeredRedis.v: histories of any number of layered limiters over Redis
      limiters on one server.

    ** What the theorems show

    Quotas, end to end (MemoryProps.v: [memory_token_bucket_quota],
    [memory_sliding_window_quota], [memory_leaky_bucket_quota]).  Through
    constructor, key validation, hashing, store and decision, each key gets no
    more than its limit, whatever the other keys do: capacity plus
    rate * elapsed for the buckets, [limit] in every interval (a, a + window]
    for the sliding window.  They hold when the clock readings do not go back
    in the order of the calls, no key is evicted (which starts it
    afresh, by design) and the TTL is off, or long enough for a bucket to fill
    up ([ttl_refills]), or not shorter than the window ([ttl_covers]): then an
    expired key has nothing left to remember.  The companion
    contracts ([memory_token_bucket_contract] and so on) hold under all options
    (for the buckets with a capacity below 2^53): every call returns, results are well formed, the only
    errors are the two documented ones, and keys are counted and bounded.

    The decisions (TokenBucket.v, LeakyBucket.v, SlidingWindow.v).  Quota and
    exact burst of one bucket; both branches of each decision; for the log,
    equivalence with the reference definition that counts the window,
    exactness of RetryAfter, sortedness and memory bound, termination of the
    binary search.  Two theorems are about limits of the code: when a denial
    asks for no wait at all ([token_bucket_zero_retry]), and, for every limit
    of at least three and every window, a run with instants out of order in
    which half as many requests again as the limit pass in one window
    ([sliding_window_out_of_order]).

    The store (StoreProps.v).  Refinement of an abstract finite map, exact
    counting, the key limit, both policies when full, least-recently-used
    eviction, placement of keys, and what lazy cleanup removes and
    ([store_cleanup_skips_tail]) leaves behind.

    The store under concurrency (ConcurrentProps.v, ConcurrentSeq.v).  Every
    interleaving refines an atomic store; no lock is held twice; the counter
    is exactly the stored keys plus the outstanding reservations, and bounded;
    the locks cannot deadlock; calls for one key are serialised; and a call
    that is not disturbed equals the sequential [withState].  On top of that
    (ConcurrentQuota.v), racing goroutines read the clock before they wait for
    the lock, so that a bucket meets instants in any order and its elapsed time
    may be negative: the quota of the token bucket and of the leaky bucket
    holds nevertheless, over the span of the instants
    ([concurrent_token_bucket_quota], [concurrent_leaky_bucket_quota]), because
    what an instant that goes back takes away is what the next one gives again.
    The price is that a request may be denied although a token is left
    ([concurrent_early_denial]); the sliding window has no such bound
    ([sliding_window_out_of_order]).  What is not
    claimed: that a call returns under every schedule.  The loop of
    [reserveSlot] is lock-free, not wait-free, so other goroutines can make
    one repeat it.

    Layered and middleware.  The layered limiter lets pass exactly what its
    remote layer let pass; a denied request never reaches the next handler,
    neither through an adapter nor, in gin, because nothing aborted the context
    ([configured_stops]: gin's default denial aborts, and a handler of the
    user's must); what the client sees of a denial; Retry-After is the exact
    ceiling.

    Package redis (RedisProps.v, RedisWindow.v, Redis.v).  Through the Go side,
    the script cache, the Lua script and the server's data: the quotas of the
    two buckets over any history of calls on a key, whoever makes them and
    even if the server's clock goes back ([redis_token_bucket_quota],
    [redis_leaky_bucket_quota]); exact bursts ([redis_bucket_burst]); the
    sliding window returns what the in-memory one returns on the same instants
    ([redis_sliding_window_matches_memory]); the same when the key may expire
    between calls, if the TTL lets a bucket fill up or covers the window
    ([redis_expiring_quota], [redis_expiring_window]); every call answers with a
    well-formed result, and keeps its key's value well-formed and all other
    keys untouched ([redis_calls_well_typed]); members of the log are unique
    ([redis_member_roundtrip]); how long a key lives
    ([redis_window_lifetime]).  For any server at all: a Redis limiter never
    returns an error for a key that is not blank, and each failure is reported
    once ([redis_error_policy]); a script's body is executed exactly once on a
    reachable server ([redis_script_runs_once]), and at most once per call
    when calls run concurrently and scripts are flushed
    ([redis_script_concurrent]).  Three theorems are about
    limits of the code: [redis_window_submillisecond], [redis_retry_overflow]
    (for a class of very low rates, on any server that obeys the laws) and
    [redis_window_lifetime].

    Compositions (LayeredRedis.v, ContractProps.v, Examples.v, Bench.v).  A fleet of
    layered limiters over Redis buckets, or windows, on one server keeps the
    quota of the server's one bucket or window, whatever the local layers do
    ([layered_redis_quota], [layered_redis_window]; with keys that expire,
    [layered_expiring_quota]).  The in-memory limiters pass
    the shared behaviour tests, whatever the order in which the workers get
    the locks and read the clock ([memory_limiters_shared_behavior]); behind
    each of the four adapters over a token bucket no client gets more requests to the next
    handler than its quota ([middleware_token_bucket_quota]), and what that
    means for the http-example ([http_example_quota]) and for the load target
    ([bench_fixed_quota]), which starts exactly when its flags and its
    connection allow it ([bench_startup]) and spreads any number of clients
    over at most 10000 stored keys ([bench_many_footprint]).  The two limiters
    of redis-example work on one server, and each bucket there lets in two
    requests and one for every second, whatever the other route and the local
    layer do ([redis_example_quota]).

    ** Numbers, bounds and fuel

    - Floats are not idealised.  [fval] maps a finite float to an exact
      integer in units of 2^-2200, [unit_sc] being the image of 1, so that
      theorems about floats are inequalities on integers.  The quota of the
      buckets therefore carries explicit rounding terms: a factor
      1 + 6 * 2^-52 on the accrual and [step_error] per request.
    - The bucket theorems ask for capacity < 2^53, where adding or taking one
      token is exact; above it a float64 cannot hold a count of tokens.
    - [GoArch] is the conversion of an out-of-range float to an integer, which
      Go leaves to the implementation; theorems hold for every choice.
    - Durations are int64 and saturate or wrap as in Go.  Instants are
      unbounded: a [time.Time] spans far more than any [Duration].
    - [reserve_fuel] = 4 bounds the loop of [reserveSlot] run by one
      goroutine: an iteration that evicts, one that sweeps, one that takes
      the slot, and one to spare;
      [store_refinement] proves the loop always returns within it.
    - A call of [Run] takes at most nine steps of its own, whatever others do
      ([redis_script_concurrent]); it has no loop.
    - The binary search gets len + 1 iterations, enough by
      [sliding_window_search_terminates].
    - [ord], the order in which Go's [range] visits a map, is a parameter;
      theorems hold for every order that visits each key once.
    - A clock reading is an argument of each call; "a clock that never goes
      back" is the hypothesis [nondecreasing].  Where instants come in any
      order (Disorder.v) they lie in a span of at most 292 years (an int64 of
      nanoseconds) that accrues at most 2^53 tokens, and a key is asked for at
      most 2^40 times; [Disorder.step_error] grows with what the span accrues.
    - Numbers of a Lua script are floats as well.  The theorems on the scripts
      ask for a server clock below 2^60 microseconds ([clock_ok]: times in
      milliseconds are exact), a capacity and a limit below 2^53, and for the
      buckets a rate of at least 10^-9 per second, so that a delay in
      milliseconds fits into a [time.Duration].  The rounding of a bucket is a
      factor 1 + 3 * 2^-52 on the accrual and [LuaFacts.step_error] per call.
    - A window of the Redis limiter counts in whole milliseconds.

    ** What is not modelled

    - Third-party code: go-redis and the Redis server ([RedisClient] and
      [RedisServer], with the documented behaviour of EVALSHA, SCRIPT LOAD and
      the data commands as laws), gin, echo and fiber (the record of operations
      [serve] takes, and the law [GinAborts]).  Scripts are atomic, as Redis
      documents.  A denied or error handler is a function on the context: one
      that calls the rest of the chain by itself is outside the model.
    - The Go scheduler and memory model: mutexes exclude each other and atomic
      operations are indivisible, and code between two of them is one step.
    - The limiters that the benchmarks compare with (golang.org/x/time/rate,
      ulule/limiter): parameters of Bench.v.
    - [getOrCreate], which only tests call; of the examples and the load
      target, the parsing of flags, the choice of a route ([http.ServeMux] and
      the routers of the frameworks; the theorems hold for any handler behind
      the middleware), the handlers of the framework examples and of
      "/metrics", and the listening.
    - The shared behaviour tests for the Redis and the layered limiters: their
      server's time must pass between calls, which ContractTest.v leaves to
      the limiter's environment.  Keys of redis-example that expire between
      two requests (RedisExpiring.v has the theorem for one key).
*)

From Stdlib Require Import ZArith Lia.
From stdpp Require Import base gmap strings list sorting.

Create HintDb kaka.
Create Rewrite HintDb kaka.
Declare Scope kaka_scope.
Delimit Scope kaka_scope with kaka.

#[local] Open Scope Z_scope.

(** ** Tactics *)

(** Split every boolean test of the goal or the context into its proposition. *)
Ltac zbool :=
  repeat match goal with
  | H : context [Z.leb ?a ?b] |- _ => destruct (Z.leb_spec a b)
  | H : context [Z.ltb ?a ?b] |- _ => destruct (Z.ltb_spec a b)
  | H : context [Z.eqb ?a ?b] |- _ => destruct (Z.eqb_spec a b)
  | |- context [Z.leb ?a ?b] => destruct (Z.leb_spec a b)
  | |- context [Z.ltb ?a ?b] => destruct (Z.ltb_spec a b)
  | |- context [Z.eqb ?a ?b] => destruct (Z.eqb_spec a b)
  end.

(** ** Outcomes of code that may panic *)

Inductive outcome (A : Type) : Type :=
| Returns (a : A)
| Panics (msg : string).
Arguments Returns {A} a.
Arguments Panics {A} msg.

Definition obind {A B} (m : outcome A) (k : A → outcome B) : outcome B :=
  match m with
  | Returns a => k a
  | Panics s => Panics s
  end.

Notation "'let!' x ':=' m 'in' k" := (obind m (fun x => k))
  (at level 10, x pattern, m at level 100, k at level 200) : kaka_scope.

(** [panic_if b msg k]: the guard [if b { panic(msg) }] followed by [k]. *)
Definition panic_if {A} (b : bool) (msg : string) (k : outcome A) : outcome A :=
  if b then Panics msg else k.

Lemma panic_if_Returns {A} b msg (k : outcome A) a :
  panic_if b msg k = Returns a ↔ b = false ∧ k = Returns a.
Proof. destruct b; simpl; naive_solver. Qed.

#[export] Hint Rewrite @panic_if_Returns : kaka.

(** ** Instants that never go back *)

Fixpoint nondecreasing (t : Z) (l : list Z) : Prop :=
  match l with
  | [] => True
  | u :: l => t <= u ∧ nondecreasing u l
  end.

Definition final (t : Z) (l : list Z) : Z := default t (last l).

Lemma nondecreasing_replicate t n : nondecreasing t (replicate n t).
Proof. induction n; simpl; [done|]. split; [lia|done]. Qed.

Lemma final_cons t u l : final t (u :: l) = final u l.
Proof. unfold final. destruct l as [|v l]; [done|]. rewrite last_cons_cons.
  destruct (last (v :: l)) eqn:E; [done|]. apply last_None in E. done.
Qed.

Lemma final_ge t l : nondecreasing t l → t <= final t l.
Proof.
  revert t. induction l as [|u l IH]; intros t; [simpl; unfold final; simpl; lia|].
  rewrite final_cons. intros [Ht Hl]. specialize (IH u Hl). lia.
Qed.

(** ** Sorted lists of integers *)

Lemma sorted_lookup l i j x y :
  StronglySorted Z.le l → l !! i = Some x → l !! j = Some y → (i <= j)%nat → x <= y.
Proof.
  intros Hs. revert i j. induction Hs as [|z l Hs IH Hz]; intros [|i] [|j] Hi Hj Hij; simplify_eq/=; try lia.
  - rewrite Forall_lookup in Hz. eauto.
  - apply (IH i j); [done|done|lia].
Qed.

Lemma sorted_snoc l x :
  StronglySorted Z.le l → Forall (fun y => y <= x) l → StronglySorted Z.le (l ++ [x]).
Proof.
  intros Hs. induction Hs as [|z l Hs IH Hz]; intros Hf; simpl; [by repeat constructor|].
  apply Forall_cons in Hf as [Hzx Hf]. constructor; [by apply IH|].
  rewrite Forall_app. split; [done|]. by repeat constructor.
Qed.

Lemma sorted_drop n l : StronglySorted Z.le l → StronglySorted Z.le (drop n l).
Proof.
  intros Hs. revert n. induction Hs as [|z l Hs IH Hz]; intros [|n]; simpl; try by constructor. apply IH.
Qed.

(** The part above a bound of a sorted list is a suffix of it. *)
Lemma filter_cut (P : Z → Prop) `{!∀ x, Decision (P x)} l n :
  (n <= length l)%nat → (∀ j t, l !! j = Some t → P t ↔ (n <= j)%nat) → filter P l = drop n l.
Proof.
  revert n. induction l as [|x l IH]; intros n Hn Hc; [by rewrite drop_nil|].
  rewrite filter_cons. pose proof (Hc 0%nat x eq_refl) as H0. destruct n as [|n].
  - rewrite decide_True by (apply H0; lia). rewrite drop_0. f_equal.
    rewrite (IH 0%nat), drop_0; [done|lia|]. intros j t Hj. rewrite (Hc (S j) t Hj). lia.
  - rewrite decide_False by (rewrite H0; lia). simpl. apply IH; [simpl in Hn; lia|].
    intros j t Hj. rewrite (Hc (S j) t Hj). lia.
Qed.

Lemma filter_length_mono {A} (P Q : A → Prop) `{!∀ x, Decision (P x), !∀ x, Decision (Q x)} l :
  (∀ x, P x → Q x) → (length (filter P l) <= length (filter Q l))%nat.
Proof.
  intros HPQ. induction l as [|x l IH]; [done|]. rewrite !filter_cons.
  repeat case_decide; simpl; try lia. naive_solver.
Qed.

Lemma filter_all {A} (P : A → Prop) `{!∀ x, Decision (P x)} (l : list A) :
  (∀ (i : nat) x, l !! i = Some x → P x) → filter P l = l.
Proof.
  induction l as [|x l IH]; intros HP; [done|]. rewrite filter_cons, decide_True by by apply (HP 0%nat).
  f_equal. apply IH. intros i. apply (HP (S i)).
Qed.

Lemma filter_none {A} (P : A → Prop) `{!∀ x, Decision (P x)} l : Forall (fun x => ¬ P x) l → filter P l = [].
Proof. induction 1 as [|x l Hx _ IH]; [done|]. by rewrite filter_cons, decide_False. Qed.

Lemma nondecreasing_weaken t u l : t <= u → nondecreasing u l → nondecreasing t l.
Proof. destruct l as [|v l]; [done|]. simpl. intros ? [? ?]. split; [lia|done]. Qed.

Lemma nondecreasing_sublist t l l' : sublist l' l → nondecreasing t l → nondecreasing t l'.
Proof.
  intros Hs. revert t. induction Hs as [|x l1 l2 Hs IH|x l1 l2 Hs IH]; intros t; [done| |].
  - intros [? ?]. split; [done|]. by apply IH.
  - intros [? ?]. eapply nondecreasing_weaken; [done|]. by apply IH.
Qed.

(** A list that starts at its own first instant. *)
Lemma nondecreasing_self t u l : nondecreasing t (u :: l) → nondecreasing u (u :: l).
Proof. intros [_ H]. split; [lia|done]. Qed.

Lemma Forall_sublist {A} (P : A → Prop) l l' : sublist l' l → Forall P l → Forall P l'.
Proof.
  intros Hs. induction Hs as [|x l1 l2 Hs IH|x l1 l2 Hs IH]; [done| |];
    intros [? ?]%Forall_cons; [constructor|]; auto.
Qed.
