(* ===== verification/Float64.v ===== *)
(** * Float64: Go's [float64] and the functions of package [math] the code uses

    A [float64] is a [spec_float] of the Standard Library with 53 bits of
    precision and exponents below 1024 (IEEE 754 binary64); the arithmetic is
    the Standard Library's [SF*] operations, which round to nearest, ties to
    even, as Go's do.  The file also models the conversions between integers
    and floats and [math.Ceil], [math.Round], [math.Abs], [math.IsNaN] and
    [math.IsInf].  All definitions compute. *)

From Stdlib Require Import ZArith Lia Bool.
From Stdlib Require Export SpecFloat.
From stdpp Require Import base.
From S2P Require Import Prelude.

#[local] Open Scope Z_scope.

Module F64.

Definition prec : Z := 53.
Definition emax : Z := 1024.

(** Arithmetic: [x + y], [x - y], [x * y], [x / y]. *)
Definition add (x y : spec_float) : spec_float := SFadd prec emax x y.
Definition sub (x y : spec_float) : spec_float := SFsub prec emax x y.
Definition mul (x y : spec_float) : spec_float := SFmul prec emax x y.
Definition div (x y : spec_float) : spec_float := SFdiv prec emax x y.

(** Comparisons: every one of them is false when an operand is NaN. *)
Definition lt (x y : spec_float) : bool := SFltb x y.
Definition le (x y : spec_float) : bool := SFleb x y.
Definition gt (x y : spec_float) : bool := SFltb y x.
Definition ge (x y : spec_float) : bool := SFleb y x.

(** The values a variable of type [float64] can hold. *)
Definition valid (x : spec_float) : bool := valid_binary prec emax x.

Definition is_nan (x : spec_float) : bool :=
  match x with S754_nan => true | _ => false end.

(** [math.IsInf(x, 0)]: either infinity. *)
Definition is_inf (x : spec_float) : bool :=
  match x with S754_infinity _ => true | _ => false end.

Definition abs (x : spec_float) : spec_float := SFabs x.

(** [float64(z)] for an integer [z], rounded to nearest even. *)
Definition of_int (z : Z) : spec_float := binary_normalize prec emax z 0 false.

(** The integer part of a finite non-negative magnitude [m * 2^e]. *)
Definition mag_floor (m : positive) (e : Z) : Z :=
  if 0 <=? e then Z.pos m * 2 ^ e else Z.pos m / 2 ^ (- e).

(** Whether [m * 2^e] has a fractional part. *)
Definition mag_frac (m : positive) (e : Z) : bool :=
  if 0 <=? e then false else negb (Z.pos m mod 2 ^ (- e) =? 0).

(** Truncation towards zero of a finite float. *)
Definition trunc (x : spec_float) : Z :=
  match x with
  | S754_finite s m e => cond_Zopp s (mag_floor m e)
  | _ => 0
  end.

(** [math.Ceil]: floats without fractional part, infinities and NaN are
    returned as they are; [Ceil(-0.5)] is [-0]. *)
Definition ceil (x : spec_float) : spec_float :=
  match x with
  | S754_finite s m e =>
      if mag_frac m e then
        binary_normalize prec emax
          (if s then - mag_floor m e else mag_floor m e + 1) 0 s
      else x
  | _ => x
  end.

(** [math.Round]: to the nearest integer, halves away from zero. *)
Definition round (x : spec_float) : spec_float :=
  match x with
  | S754_finite s m e =>
      if 0 <=? e then x
      else
        binary_normalize prec emax
          (cond_Zopp s ((2 * Z.pos m + 2 ^ (- e)) / (2 * 2 ^ (- e)))) 0 s
  | _ => x
  end.

End F64.

Definition int64_min : Z := - 2 ^ 63.
Definition int64_max : Z := 2 ^ 63 - 1.

(** The Go specification leaves the conversion of a float whose truncation
    does not fit the integer type to the implementation; the function that
    decides it is a parameter of everything that converts. *)
Class GoArch := { int64_of_unrepresentable : spec_float → Z }.

(** amd64's CVTTSD2SI returns the integer indefinite value. *)
Definition amd64 : GoArch := {| int64_of_unrepresentable := fun _ => int64_min |}.

(** [int64(x)]. *)
Definition int64_of_float `{GoArch} (x : spec_float) : Z :=
  match x with
  | S754_zero _ | S754_finite _ _ _ =>
      let z := F64.trunc x in
      if (int64_min <=? z) && (z <=? int64_max) then z
      else int64_of_unrepresentable x
  | _ => int64_of_unrepresentable x
  end.
