(* ===== verification/FloatFacts.v ===== *)
(** * FloatFacts: what rounding to nearest guarantees

    The Standard Library gives the IEEE operations as executable functions and
    no theory about them.  This file supplies the part the limiters need, with
    integers only.  A finite float [± m * 2^e] is mapped to the integer
    [fval = ± m * 2^(e + 2200)], an exact image of its value in units of
    2^-2200 (products and quotients of binary64 numbers have exponents above
    that bound).  The central facts, proved for +, -, * and /, say that
    rounding never crosses a representable number: if the exact result is at
    most (at least) a float [z], so is the computed one.  Signs, bounds,
    monotonicity and exactness of representable results all follow. *)

From Stdlib Require Import ZArith Lia Bool.
From stdpp Require Import base tactics.
From S2P Require Import Prelude Float64.

#[local] Open Scope Z_scope.

(** ** Scaling *)

Definition sc (e : Z) : Z := 2 ^ (e + 2200).
Definition unit_sc : Z := sc 0.

Lemma sc_pos e : -2200 <= e → 0 < sc e.
Proof. intros. unfold sc. apply Z.pow_pos_nonneg; lia. Qed.

Lemma sc_add e k : -2200 <= e → 0 <= k → sc (e + k) = sc e * 2 ^ k.
Proof. intros. unfold sc. rewrite <- Z.pow_add_r by lia. f_equal; lia. Qed.

Lemma sc_mono e e' : e <= e' → sc e <= sc e'.
Proof. intros. unfold sc. apply Z.pow_le_mono_r; lia. Qed.

Lemma sc_mul e e' :
  -2200 <= e → -2200 <= e' → -2200 <= e + e' → sc e * sc e' = sc (e + e') * unit_sc.
Proof. intros. unfold sc, unit_sc, sc. rewrite <- !Z.pow_add_r by lia. f_equal; lia. Qed.

Lemma unit_sc_pos : 0 < unit_sc.
Proof. apply sc_pos; lia. Qed.

Lemma unit_sc_even : ∃ h, 0 < h ∧ unit_sc = 2 * h.
Proof.
  exists (sc (-1)). split; [apply sc_pos; lia|].
  unfold unit_sc. change 0 with (-1 + 1) at 1. rewrite sc_add by lia. lia.
Qed.

Lemma sc_pow e : sc e = 2 ^ (e + 2200).
Proof. reflexivity. Qed.

#[global] Opaque sc unit_sc.

(** The image of infinity: 2^1024, above every finite value. *)
Definition inf_sc : Z := 2 ^ 53 * sc 971.

Definition fval (x : spec_float) : Z :=
  match x with
  | S754_finite s m e => cond_Zopp s (Z.pos m * sc e)
  | S754_infinity s => cond_Zopp s inf_sc
  | _ => 0
  end.

(** Finite: neither NaN nor infinite, and representable. *)
Definition fin (x : spec_float) : Prop :=
  match x with
  | S754_zero _ => True
  | S754_finite _ m e => bounded F64.prec F64.emax m e = true
  | _ => False
  end.

(** Anything but NaN. *)
Definition num (x : spec_float) : Prop := F64.valid x = true ∧ F64.is_nan x = false.

Lemma fin_num x : fin x → num x.
Proof. by destruct x. Qed.

(** ** Digits *)

Definition fexp64 (e : Z) : Z := Z.max (e - 53) (-1074).

Lemma fexp_64 e : fexp F64.prec F64.emax e = fexp64 e.
Proof. reflexivity. Qed.

Lemma digits2_pos_bound m :
  2 ^ (Z.pos (digits2_pos m) - 1) <= Z.pos m < 2 ^ Z.pos (digits2_pos m).
Proof.
  induction m as [p IH|p IH|]; simpl digits2_pos; [| |by vm_compute].
  all: rewrite Pos2Z.inj_succ;
    replace (Z.succ (Z.pos (digits2_pos p)) - 1)
      with (Z.succ (Z.pos (digits2_pos p) - 1)) by lia;
    rewrite !Z.pow_succ_r by lia; lia.
Qed.

Lemma Zdigits2_bound m :
  0 < m → 1 <= Zdigits2 m ∧ 2 ^ (Zdigits2 m - 1) <= m < 2 ^ Zdigits2 m.
Proof. destruct m; try lia. intros _. simpl. split; [lia|apply digits2_pos_bound]. Qed.

Lemma Zdigits2_le_of_lt m d : 0 <= m → 0 <= d → m < 2 ^ d → Zdigits2 m <= d.
Proof.
  intros H0 Hd Hm. destruct (decide (m = 0)) as [->|]; [simpl; lia|].
  destruct (Zdigits2_bound m) as [? [H _]]; [lia|].
  destruct (Z.le_gt_cases (Zdigits2 m) d); [done|].
  assert (2 ^ d <= 2 ^ (Zdigits2 m - 1)) by (apply Z.pow_le_mono_r; lia). lia.
Qed.

Lemma Zdigits2_ge_of_le m d : 0 <= d → 2 ^ d <= m → d + 1 <= Zdigits2 m.
Proof.
  intros Hd Hm. assert (0 < 2 ^ d) by (apply Z.pow_pos_nonneg; lia).
  destruct (Zdigits2_bound m) as [? [_ H']]; [lia|].
  destruct (Z.le_gt_cases (d + 1) (Zdigits2 m)); [done|].
  assert (2 ^ Zdigits2 m <= 2 ^ d) by (apply Z.pow_le_mono_r; lia). lia.
Qed.

Lemma bounded_spec m e :
  bounded F64.prec F64.emax m e = true ↔
  fexp64 (Z.pos (digits2_pos m) + e) = e ∧ e <= 971.
Proof.
  unfold bounded, canonical_mantissa. rewrite fexp_64, andb_true_iff, Z.eqb_eq, Z.leb_le.
  done.
Qed.

(** Canonical pairs: either 53 digits, or the least exponent. *)
Lemma bounded_cases m e :
  bounded F64.prec F64.emax m e = true →
  -1074 <= e <= 971 ∧ Z.pos m < 2 ^ 53 ∧
  (2 ^ 52 <= Z.pos m ∨ e = -1074).
Proof.
  rewrite bounded_spec. unfold fexp64. intros [H1 H2].
  pose proof (digits2_pos_bound m) as [Hl Hu].
  assert (Z.pos (digits2_pos m) <= 53) by lia.
  assert (2 ^ Z.pos (digits2_pos m) <= 2 ^ 53) by (apply Z.pow_le_mono_r; lia).
  split_and!; [lia|lia|lia|].
  destruct (decide (e = -1074)); [by right|left].
  assert (Z.pos (digits2_pos m) = 53) as Hd by lia. rewrite Hd in Hl. exact Hl.
Qed.

(** ** The shifter *)

(** [rec_ok N D mrs]: the record holds the integer part of [N / D], its first
    fractional bit and whether anything follows it. *)
Definition rec_ok (N D : Z) (mrs : shr_record) : Prop :=
  ∃ ρ, N = shr_m mrs * D + ρ ∧ 0 <= ρ < D ∧ 0 <= shr_m mrs ∧
    match shr_r mrs, shr_s mrs with
    | false, false => ρ = 0
    | false, true => 0 < ρ ∧ 2 * ρ < D
    | true, false => 2 * ρ = D
    | true, true => D < 2 * ρ
    end.

Lemma shr_1_ok N D mrs : rec_ok N D mrs → rec_ok N (D * 2) (shr_1 mrs).
Proof.
  destruct mrs as [m r s]. intros (ρ & HN & Hρ & Hm & Hc). simpl in *.
  destruct m as [|[p|p|]|p]; simpl in *; try lia.
  - exists ρ. simpl. destruct r, s; simpl in *; lia.
  - exists (D + ρ). simpl. destruct r, s; simpl in *; lia.
  - exists ρ. simpl. destruct r, s; simpl in *; lia.
  - exists (D + ρ). simpl. destruct r, s; simpl in *; lia.
Qed.

Lemma iter_shr_ok p N D mrs :
  rec_ok N D mrs → rec_ok N (D * 2 ^ Z.pos p) (iter_pos shr_1 p mrs).
Proof.
  revert D mrs. induction p as [p IH|p IH|]; intros D mrs H; simpl iter_pos.
  - replace (D * 2 ^ Z.pos p~1) with (D * 2 * 2 ^ Z.pos p * 2 ^ Z.pos p).
    + by apply IH, IH, shr_1_ok.
    + replace (Z.pos p~1) with (1 + Z.pos p + Z.pos p) by lia.
      rewrite !Z.pow_add_r by lia. ring.
  - replace (D * 2 ^ Z.pos p~0) with (D * 2 ^ Z.pos p * 2 ^ Z.pos p).
    + by apply IH, IH.
    + replace (Z.pos p~0) with (Z.pos p + Z.pos p) by lia.
      rewrite !Z.pow_add_r by lia. ring.
  - by apply shr_1_ok.
Qed.

Lemma shr_ok N D mrs e n :
  0 <= n → rec_ok N D mrs →
  rec_ok N (D * 2 ^ n) (fst (shr mrs e n)) ∧ snd (shr mrs e n) = e + n.
Proof.
  intros Hn H. destruct n as [|p|p]; simpl; [|split; [by apply iter_shr_ok|lia]|lia].
  rewrite Z.mul_1_r. split; [done|lia].
Qed.

(** The integer nearest to [N / D], whichever way a tie goes. *)
Definition nearest (N D r : Z) : Prop := 2 * N - D <= 2 * r * D <= 2 * N + D.

Lemma round_nearest_ok N D mrs :
  0 < D → rec_ok N D mrs →
  nearest N D (round_nearest_even (shr_m mrs) (loc_of_shr_record mrs)) ∧
  shr_m mrs <= round_nearest_even (shr_m mrs) (loc_of_shr_record mrs) <= shr_m mrs + 1.
Proof.
  intros HD (ρ & -> & Hρ & Hm & Hc). unfold nearest. destruct mrs as [m [] []]; simpl in *;
    try destruct (Z.even m); nia.
Qed.

Lemma nearest_le N D r W : 0 < D → nearest N D r → N <= W * D → r <= W.
Proof. unfold nearest. intros. assert (2 * r * D <= (2 * W + 1) * D) by lia. nia. Qed.

Lemma nearest_ge N D r W : 0 < D → nearest N D r → W * D <= N → W <= r.
Proof. unfold nearest. intros. assert ((2 * W - 1) * D <= 2 * r * D) by lia. nia. Qed.

(** ** Rounding *)

(** Locations, as the inputs of [binary_round_aux] carry them. *)
Definition loc_ok (N D m : Z) (l : location) : Prop :=
  rec_ok N D (shr_record_of_loc m l).

Lemma loc_ok_exact m : 0 <= m → loc_ok m 1 m loc_Exact.
Proof. intros. exists 0. simpl. lia. Qed.

(** A second normalisation leaves the value alone. *)
Lemma shr_fexp_exact r e :
  0 <= r <= 2 ^ 53 → -1074 <= e → (2 ^ 52 <= r ∨ e = -1074) →
  ∃ m' e', shr_fexp F64.prec F64.emax r e loc_Exact = (Build_shr_record m' false false, e') ∧
    m' * sc e' = r * sc e ∧ 0 <= m' < 2 ^ 53 ∧ e <= e' <= e + 1 ∧ (r = 0 ↔ m' = 0) ∧
    (0 < m' → fexp64 (Zdigits2 m' + e') = e').
Proof.
  intros Hr He Hc. unfold shr_fexp. rewrite fexp_64. simpl shr_record_of_loc.
  destruct (decide (r = 2 ^ 53)) as [->|Hne].
  { exists (2 ^ 52), (e + 1).
    replace (fexp64 (Zdigits2 (2 ^ 53) + e) - e) with 1 by (simpl; unfold fexp64; lia).
    split; [reflexivity|].
    rewrite sc_add by lia. split_and!; try lia.
    intros _. simpl. unfold fexp64. lia. }
  exists r, e. assert (r < 2 ^ 53) by lia.
  assert (Zdigits2 r <= 53) by (apply Zdigits2_le_of_lt; lia).
  assert (fexp64 (Zdigits2 r + e) - e <= 0) as Hz by (unfold fexp64; lia).
  split_and!; try lia.
  - destruct (fexp64 (Zdigits2 r + e) - e); [done|lia|done].
  - intros Hpos. unfold fexp64. destruct Hc as [Hc| ->]; [|lia].
    assert (52 + 1 <= Zdigits2 r) by (apply Zdigits2_ge_of_le; lia). lia.
Qed.

(** The result of rounding [N / D * 2^e], and what is known about it. *)
Definition rounded (s : bool) (r e1 : Z) (f : spec_float) : Prop :=
  match f with
  | S754_zero s' => s' = s ∧ r = 0
  | S754_finite s' m' e' =>
      s' = s ∧ bounded F64.prec F64.emax m' e' = true ∧ Z.pos m' * sc e' = r * sc e1
  | S754_infinity s' => s' = s ∧ inf_sc <= r * sc e1
  | S754_nan => False
  end.

Lemma rounded_mantissa s r e1 :
  0 <= r <= 2 ^ 53 → -1074 <= e1 → (2 ^ 52 <= r ∨ e1 = -1074) →
  let '(mrs, e2) := shr_fexp F64.prec F64.emax r e1 loc_Exact in
  rounded s r e1
    match shr_m mrs with
    | Z0 => S754_zero s
    | Zpos m => if e2 <=? F64.emax - F64.prec then S754_finite s m e2 else S754_infinity s
    | Zneg _ => S754_nan
    end.
Proof.
  intros Hr He Hc.
  destruct (shr_fexp_exact r e1 Hr He Hc) as (m' & e' & -> & Hv & Hm & Hee & H0 & Hd).
  simpl. destruct m' as [|m'|m']; simpl; [|change (F64.emax - F64.prec) with 971; destruct (Z.leb_spec e' 971); simpl|]; try lia.
  - split; [done|]. by apply H0.
  - split_and!; [done| |done]. apply bounded_spec. split; [apply Hd; lia|lia].
  - split; [done|]. unfold inf_sc. rewrite <- Hv.
    assert (2 ^ 52 <= Z.pos m').
    { specialize (Hd ltac:(lia)). unfold fexp64 in Hd. simpl Zdigits2 in Hd.
      pose proof (digits2_pos_bound m') as [Hl _].
      assert (Z.pos (digits2_pos m') = 53) as Hx by lia. by rewrite Hx in Hl. }
    replace e' with (972 + (e' - 972)) by lia. rewrite sc_add by lia.
    change 972 with (971 + 1). rewrite sc_add by lia. change (2 ^ 1) with 2.
    pose proof (sc_pos 971 ltac:(lia)).
    assert (1 <= 2 ^ (e' - (971 + 1))) by (pose proof (Z.pow_pos_nonneg 2 (e' - (971 + 1))); lia).
    change (2 ^ 53) with (2 ^ 52 * 2).
    assert (2 ^ 52 * 1 <= Z.pos m' * 2 ^ (e' - (971 + 1))) by (apply Z.mul_le_mono_nonneg; lia).
    nia.
Qed.

Lemma round_aux_spec s m e l N D :
  0 < D → loc_ok N D m l → 0 <= m → e <= fexp64 (Zdigits2 m + e) →
  ∃ r, nearest N (D * 2 ^ (fexp64 (Zdigits2 m + e) - e)) r ∧ 0 <= r <= 2 ^ 53 ∧
    (2 ^ 52 <= r ∨ fexp64 (Zdigits2 m + e) = -1074) ∧
    rounded s r (fexp64 (Zdigits2 m + e)) (binary_round_aux F64.prec F64.emax s m e l).
Proof.
  intros HD Hl Hm Hle. set (e1 := fexp64 (Zdigits2 m + e)) in *.
  assert (-1074 <= e1) as He1 by (unfold e1, fexp64; lia).
  destruct (shr_ok N D (shr_record_of_loc m l) e (e1 - e)) as [Hrec Hexp]; [lia|done|].
  set (mrs' := fst (shr (shr_record_of_loc m l) e (e1 - e))) in *.
  set (D' := D * 2 ^ (e1 - e)) in *.
  assert (0 < 2 ^ (e1 - e)) as Hp by (apply Z.pow_pos_nonneg; lia).
  assert (0 < D') as HD' by (unfold D'; nia).
  destruct (round_nearest_ok N D' mrs' HD' Hrec) as [Hnear Hrange].
  set (r := round_nearest_even (shr_m mrs') (loc_of_shr_record mrs')) in *.
  assert (m * D <= N < (m + 1) * D) as HN.
  { destruct Hl as (ρ & -> & ? & _).
    assert (shr_m (shr_record_of_loc m l) = m) as -> by by destruct l as [|[]]. lia. }
  assert (m < 2 ^ (53 + (e1 - e))) as Hbig.
  { destruct (decide (m = 0)) as [->|]; [apply Z.pow_pos_nonneg; lia|].
    destruct (Zdigits2_bound m) as [? [_ Hu]]; [lia|].
    assert (2 ^ Zdigits2 m <= 2 ^ (53 + (e1 - e)))
      by (apply Z.pow_le_mono_r; [lia|unfold e1, fexp64; lia]). lia. }
  rewrite Z.pow_add_r in Hbig by lia.
  assert (0 <= r <= 2 ^ 53) as Hr.
  { split; [eapply nearest_ge; [exact HD'|exact Hnear|nia]|].
    eapply nearest_le; [exact HD'|exact Hnear|unfold D'; nia]. }
  assert (2 ^ 52 <= r ∨ e1 = -1074) as Hc.
  { destruct (decide (e1 = -1074)); [by right|left].
    assert (e1 = Zdigits2 m + e - 53) as Hx by (unfold e1, fexp64 in *; lia).
    destruct (Zdigits2_bound m) as [? [Hlo _]].
    { destruct (decide (m = 0)) as [->|]; [simpl in *|]; lia. }
    replace (Zdigits2 m - 1) with (52 + (e1 - e)) in Hlo by lia.
    rewrite Z.pow_add_r in Hlo by lia.
    eapply nearest_ge; [exact HD'|exact Hnear|unfold D'; nia]. }
  exists r. split_and!; try done; try lia.
  pose proof (rounded_mantissa s r e1 Hr He1 Hc) as Hres.
  unfold binary_round_aux. unfold shr_fexp at 1. rewrite fexp_64. fold e1.
  destruct (shr (shr_record_of_loc m l) e (e1 - e)) as [mrs0 e0] eqn:Es.
  simpl in Hexp. subst mrs'. simpl in r. subst r. replace e0 with e1 by lia.
  destruct (shr_fexp F64.prec F64.emax _ e1 loc_Exact) as [mrs'' e'']. exact Hres.
Qed.

Lemma rounded_num s r e1 f : rounded s r e1 f → num f.
Proof. destruct f; simpl; try done. intros (_ & ? & _). by split. Qed.

(** ** Order: comparisons of floats are comparisons of their images *)

Lemma inf_sc_pos : 0 < inf_sc.
Proof. unfold inf_sc. pose proof (sc_pos 971). lia. Qed.

Lemma mag_lt_inf m e : bounded F64.prec F64.emax m e = true → Z.pos m * sc e < inf_sc.
Proof.
  intros (He & Hm & _)%bounded_cases. unfold inf_sc.
  pose proof (sc_mono e 971 ltac:(lia)). pose proof (sc_pos e ltac:(lia)).
  assert (Z.pos m * sc e < 2 ^ 53 * sc e) by (apply Z.mul_lt_mono_pos_r; lia).
  assert (2 ^ 53 * sc e <= 2 ^ 53 * sc 971) by (apply Z.mul_le_mono_nonneg_l; lia). lia.
Qed.

Lemma mag_lt_exp m1 e1 m2 e2 :
  bounded F64.prec F64.emax m1 e1 = true → bounded F64.prec F64.emax m2 e2 = true →
  e1 < e2 → Z.pos m1 * sc e1 < Z.pos m2 * sc e2.
Proof.
  intros (He1 & Hm1 & _)%bounded_cases (He2 & Hm2 & Hc)%bounded_cases Hlt.
  assert (2 ^ 52 <= Z.pos m2) by lia.
  pose proof (sc_mono (e1 + 1) e2 ltac:(lia)) as Hmono. rewrite sc_add in Hmono by lia.
  change (2 ^ 1) with 2 in Hmono. pose proof (sc_pos e1 ltac:(lia)).
  assert (Z.pos m1 * sc e1 < 2 ^ 53 * sc e1) by (apply Z.mul_lt_mono_pos_r; lia).
  assert (2 ^ 52 * (sc e1 * 2) <= Z.pos m2 * sc e2) by (apply Z.mul_le_mono_nonneg; lia).
  lia.
Qed.

Lemma mag_compare m1 e1 m2 e2 :
  bounded F64.prec F64.emax m1 e1 = true → bounded F64.prec F64.emax m2 e2 = true →
  match Z.compare e1 e2 with
  | Lt => Lt
  | Gt => Gt
  | Eq => Pos.compare_cont Eq m1 m2
  end = Z.compare (Z.pos m1 * sc e1) (Z.pos m2 * sc e2).
Proof.
  intros H1 H2. destruct (Z.compare_spec e1 e2) as [->|Hlt|Hlt]; symmetry.
  - apply bounded_cases in H2. pose proof (sc_pos e2 ltac:(lia)).
    change (Pos.compare_cont Eq m1 m2) with (Z.pos m1 ?= Z.pos m2).
    destruct (Z.compare_spec (Z.pos m1) (Z.pos m2)) as [->| |].
    + apply Z.compare_refl.
    + apply Z.compare_lt_iff, Z.mul_lt_mono_pos_r; lia.
    + apply Z.compare_gt_iff, Z.mul_lt_mono_pos_r; lia.
  - by apply mag_lt_exp.
  - by apply Z.lt_gt, mag_lt_exp.
Qed.

Lemma mag_compare_opp m1 e1 m2 e2 :
  bounded F64.prec F64.emax m1 e1 = true → bounded F64.prec F64.emax m2 e2 = true →
  match Z.compare e1 e2 with
  | Lt => Gt
  | Gt => Lt
  | Eq => CompOpp (Pos.compare_cont Eq m1 m2)
  end = Z.compare (- (Z.pos m1 * sc e1)) (- (Z.pos m2 * sc e2)).
Proof.
  intros H1 H2. rewrite Z.compare_opp, (Z.compare_antisym (Z.pos m1 * sc e1)), <- mag_compare by done.
  by destruct (Z.compare e1 e2).
Qed.

Lemma mag_pos m e : bounded F64.prec F64.emax m e = true → 0 < Z.pos m * sc e.
Proof. intros (He & _)%bounded_cases. pose proof (sc_pos e ltac:(lia)). lia. Qed.

Lemma compare_fval x y : num x → num y → SFcompare x y = Some (Z.compare (fval x) (fval y)).
Proof.
  intros [Hx Hnx] [Hy Hny]. pose proof inf_sc_pos as Hi.
  destruct x as [s|s| |s m e], y as [s'|s'| |s' m' e']; try done; unfold F64.valid in *; simpl in Hx, Hy;
    try (pose proof (mag_pos _ _ Hx)); try (pose proof (mag_pos _ _ Hy));
    try (pose proof (mag_lt_inf _ _ Hx)); try (pose proof (mag_lt_inf _ _ Hy));
    try destruct s; try destruct s'; unfold SFcompare, fval, cond_Zopp; f_equal;
    try (by apply mag_compare); try (by apply mag_compare_opp); symmetry;
    try (apply Z.compare_refl); try (apply Z.compare_lt_iff; lia); try (apply Z.compare_gt_iff; lia).
Qed.

Lemma le_fval x y : num x → num y → F64.le x y = true ↔ fval x <= fval y.
Proof.
  intros Hx Hy. unfold F64.le, SFleb. rewrite compare_fval by done.
  destruct (Z.compare_spec (fval x) (fval y)); split; intros; try done; lia.
Qed.

Lemma lt_fval x y : num x → num y → F64.lt x y = true ↔ fval x < fval y.
Proof.
  intros Hx Hy. unfold F64.lt, SFltb. rewrite compare_fval by done.
  destruct (Z.compare_spec (fval x) (fval y)); split; intros; try done; lia.
Qed.

Lemma le_false_fval x y : num x → num y → F64.le x y = false ↔ fval y < fval x.
Proof. intros Hx Hy. rewrite <- not_true_iff_false, le_fval by done. lia. Qed.

Lemma lt_false_fval x y : num x → num y → F64.lt x y = false ↔ fval y <= fval x.
Proof. intros Hx Hy. rewrite <- not_true_iff_false, lt_fval by done. lia. Qed.

Lemma fin_bound x : fin x → - inf_sc < fval x < inf_sc.
Proof.
  pose proof inf_sc_pos. destruct x as [| | |s m e]; simpl; try lia. intros Hb.
  pose proof (mag_lt_inf _ _ Hb). pose proof (mag_pos _ _ Hb). destruct s; simpl; lia.
Qed.

Lemma num_fin x : num x → - inf_sc < fval x < inf_sc → fin x.
Proof.
  pose proof inf_sc_pos. intros [Hv Hn] Hb. destruct x as [|[]| |]; simpl in *; try done; lia.
Qed.

Lemma num_nan : num S754_nan → False.
Proof. intros [_ H]. discriminate H. Qed.

Lemma abs_spec x : num x → num (F64.abs x) ∧ fval (F64.abs x) = Z.abs (fval x).
Proof.
  intros Hx. pose proof inf_sc_pos as Hi. destruct x as [s|s| |s m e].
  - split; [split; reflexivity|reflexivity].
  - split; [split; reflexivity|]. destruct s; simpl; lia.
  - by apply num_nan in Hx.
  - destruct Hx as [Hv Hn]. pose proof (mag_pos m e Hv).
    split; [split; [exact Hv|reflexivity]|]. destruct s; simpl; lia.
Qed.

Lemma opp_spec x : num x → num (SFopp x) ∧ fval (SFopp x) = - fval x.
Proof.
  intros Hx. destruct x as [s|s| |s m e].
  - split; [split; reflexivity|reflexivity].
  - split; [split; reflexivity|]. destruct s; simpl; lia.
  - by apply num_nan in Hx.
  - destruct Hx as [Hv Hn]. split; [split; [exact Hv|reflexivity]|]. destruct s; simpl; lia.
Qed.

(** A comparison that succeeds rules out NaN. *)
Lemma le_num x y : F64.le x y = true → F64.is_nan x = false ∧ F64.is_nan y = false.
Proof. by destruct x, y. Qed.

(** ** Rounding never crosses a representable number *)

(** [f] is a rounding of the exact value [X / D] (in units of 2^-2200). *)
Definition rnds (X D : Z) (f : spec_float) : Prop :=
  num f ∧
  (∀ z, num z → X <= fval z * D → fval f <= fval z) ∧
  (∀ z, num z → fval z * D <= X → fval z <= fval f).

Lemma rnds_exact X D f : 0 < D → num f → fval f * D = X → rnds X D f.
Proof. intros HD Hf <-. split_and!; [done|intros z Hz ?; nia..]. Qed.

(** Magnitudes of representable numbers, infinity included. *)
Definition repr (V : Z) : Prop :=
  V = 0 ∨ V = inf_sc ∨ ∃ m e, bounded F64.prec F64.emax m e = true ∧ V = Z.pos m * sc e.

Lemma repr_abs z : num z → repr (Z.abs (fval z)).
Proof.
  intros [Hv Hn]. pose proof inf_sc_pos.
  destruct z as [s|s| |s m e]; simpl in *; try done; [by left|right;left;destruct s; simpl; lia|].
  right; right. exists m, e. split; [done|]. pose proof (mag_pos m e Hv). destruct s; simpl; lia.
Qed.

Section RoundBounds.
Context (s : bool) (m e : Z) (l : location) (N D : Z).
Hypothesis HD : 0 < D.
Hypothesis Hl : loc_ok N D m l.
Hypothesis Hm : 0 <= m.
Hypothesis He : -2200 <= e.
Hypothesis Hle : e <= fexp64 (Zdigits2 m + e).

Lemma loc_bounds : m * D <= N < (m + 1) * D.
Proof.
  destruct Hl as (ρ & -> & ? & _).
  assert (shr_m (shr_record_of_loc m l) = m) as -> by by destruct l as [|[]]. lia.
Qed.

(** The working exponent does not exceed that of an upper bound. *)
Lemma exp_le_upper mv ev :
  bounded F64.prec F64.emax mv ev = true → N * sc e <= Z.pos mv * sc ev * D →
  fexp64 (Zdigits2 m + e) <= ev.
Proof.
  intros Hb Hx. pose proof loc_bounds as HN. pose proof (bounded_cases _ _ Hb) as (Hev & _).
  apply bounded_spec in Hb as [Hb _]. rewrite <- Hb.
  destruct (decide (m = 0)) as [->|]; [simpl in *; unfold fexp64 in *; lia|].
  destruct (Zdigits2_bound m) as [Hd1 [Hlo _]]; [lia|].
  pose proof (digits2_pos_bound mv) as [_ Hhi].
  set (d := Zdigits2 m) in *. set (dv := Z.pos (digits2_pos mv)) in *.
  assert (d + e <= dv + ev) as Hde.
  { destruct (Z.le_gt_cases (d + e) (dv + ev)); [done|exfalso].
    pose proof (sc_pos e ltac:(lia)) as Hse. pose proof (sc_pos ev ltac:(lia)).
    assert (Z.pos mv * sc ev < 2 ^ dv * sc ev) by (apply Z.mul_lt_mono_pos_r; lia).
    assert (2 ^ dv * sc ev = sc (ev + dv)) as Hsv by (rewrite sc_add by lia; ring).
    assert (2 ^ (d - 1) * sc e = sc (e + (d - 1))) as Hsx by (rewrite sc_add by lia; ring).
    pose proof (sc_mono (ev + dv) (e + (d - 1)) ltac:(lia)).
    assert (2 ^ (d - 1) * sc e <= m * sc e) by (apply Z.mul_le_mono_nonneg_r; lia).
    assert (m * sc e * D <= N * sc e) by nia.
    assert (m * sc e <= Z.pos mv * sc ev) by nia. lia. }
  unfold fexp64. lia.
Qed.

Lemma sc_split ev : fexp64 (Zdigits2 m + e) <= ev →
  sc ev = 2 ^ (ev - fexp64 (Zdigits2 m + e)) * sc (fexp64 (Zdigits2 m + e)).
Proof.
  intros. assert (-1074 <= fexp64 (Zdigits2 m + e)) by (unfold fexp64; lia).
  set (e1 := fexp64 (Zdigits2 m + e)) in *.
  replace ev with (e1 + (ev - e1)) at 1 by lia. rewrite sc_add by lia. ring.
Qed.

(** [N / D * 2^e] in units of the working exponent. *)
Lemma sc_unit : sc (fexp64 (Zdigits2 m + e)) = sc e * 2 ^ (fexp64 (Zdigits2 m + e) - e).
Proof. rewrite <- sc_add by lia. f_equal; lia. Qed.

Lemma round_upper r V :
  nearest N (D * 2 ^ (fexp64 (Zdigits2 m + e) - e)) r → 0 <= r →
  (∃ mv ev, bounded F64.prec F64.emax mv ev = true ∧ V = Z.pos mv * sc ev) ∨ V = 0 →
  N * sc e <= V * D → r * sc (fexp64 (Zdigits2 m + e)) <= V.
Proof.
  intros Hn Hr HV Hx. pose proof (sc_pos e He) as Hse. pose proof sc_unit as Hu.
  set (e1 := fexp64 (Zdigits2 m + e)) in *.
  assert (0 < 2 ^ (e1 - e)) as Hp by (apply Z.pow_pos_nonneg; lia).
  assert (0 < D * 2 ^ (e1 - e)) by nia. assert (0 < sc e1) by nia.
  destruct HV as [(mv & ev & Hb & ->)| ->].
  - pose proof (exp_le_upper mv ev Hb Hx) as Hee. fold e1 in Hee.
    pose proof (sc_split ev Hee) as Hs. fold e1 in Hs. rewrite Hs in *.
    assert (r <= Z.pos mv * 2 ^ (ev - e1)); [|nia].
    eapply nearest_le; [|exact Hn|]; [done|]. rewrite Hu in Hx.
    apply (Z.mul_le_mono_pos_r _ _ (sc e) Hse).
    etransitivity; [exact Hx|]. apply Z.eq_le_incl. ring.
  - assert (r <= 0); [|nia]. eapply nearest_le; [|exact Hn|]; [done|nia].
Qed.

Lemma round_lower r mv ev :
  nearest N (D * 2 ^ (fexp64 (Zdigits2 m + e) - e)) r → 0 <= r →
  (2 ^ 52 <= r ∨ fexp64 (Zdigits2 m + e) = -1074) →
  0 <= mv <= 2 ^ 53 → -1074 <= ev → mv * sc ev * D <= N * sc e →
  mv * sc ev <= r * sc (fexp64 (Zdigits2 m + e)).
Proof.
  intros Hn Hr Hc Hmv Hev Hx. pose proof (sc_pos e He) as Hse. pose proof sc_unit as Hu.
  set (e1 := fexp64 (Zdigits2 m + e)) in *.
  assert (0 < 2 ^ (e1 - e)) as Hp by (apply Z.pow_pos_nonneg; lia).
  assert (0 < D * 2 ^ (e1 - e)) by nia. assert (0 < sc e1) by nia.
  destruct (Z.le_gt_cases e1 ev) as [Hee|Hee].
  - pose proof (sc_split ev Hee) as Hs. fold e1 in Hs. rewrite Hs in *.
    assert (mv * 2 ^ (ev - e1) <= r); [|nia].
    eapply nearest_ge; [|exact Hn|]; [done|]. rewrite Hu in Hx.
    apply (Z.mul_le_mono_pos_r _ _ (sc e) Hse).
    etransitivity; [|exact Hx]. apply Z.eq_le_incl. ring.
  - assert (2 ^ 52 <= r) by lia.
    pose proof (sc_mono (ev + 1) e1 ltac:(lia)) as Hmono. rewrite sc_add in Hmono by lia.
    change (2 ^ 1) with 2 in Hmono. pose proof (sc_pos ev ltac:(lia)).
    assert (mv * sc ev <= 2 ^ 53 * sc ev) by (apply Z.mul_le_mono_nonneg_r; lia).
    assert (2 ^ 52 * (sc ev * 2) <= r * sc e1) by (apply Z.mul_le_mono_nonneg; lia). lia.
Qed.

End RoundBounds.

Lemma rounded_fval s r e1 f :
  rounded s r e1 f → 0 <= r → -2200 <= e1 →
  ∃ M, fval f = cond_Zopp s M ∧ 0 <= M <= inf_sc ∧ M <= r * sc e1 ∧
    (M = r * sc e1 ∨ M = inf_sc).
Proof.
  intros Hf Hr He. pose proof inf_sc_pos. pose proof (sc_pos e1 He).
  destruct f as [s'|s'| |s' m' e']; simpl in Hf; [..|destruct Hf as (-> & Hb & Heq)].
  - destruct Hf as [-> ->]. exists 0. destruct s; simpl; lia.
  - destruct Hf as [-> Hinf]. exists inf_sc. simpl. lia.
  - done.
  - exists (Z.pos m' * sc e'). pose proof (mag_pos _ _ Hb). pose proof (mag_lt_inf _ _ Hb).
    simpl. lia.
Qed.

Lemma round_aux_rnds s m e l N D :
  0 < D → loc_ok N D m l → 0 <= m → -2200 <= e → e <= fexp64 (Zdigits2 m + e) →
  rnds (cond_Zopp s (N * sc e)) D (binary_round_aux F64.prec F64.emax s m e l).
Proof.
  intros HD Hl Hm He Hle.
  destruct (round_aux_spec s m e l N D HD Hl Hm Hle) as (r & Hnear & Hr & Hc & Hround).
  pose proof (rounded_num _ _ _ _ Hround) as Hnum.
  assert (-1074 <= fexp64 (Zdigits2 m + e)) as He1 by (unfold fexp64; lia).
  destruct (rounded_fval _ _ _ _ Hround ltac:(lia) ltac:(lia)) as (M & Hf & HM & HMle & HMc).
  pose proof (sc_pos e He) as Hse. pose proof inf_sc_pos as Hinf.
  assert (0 <= N * sc e) as HN0 by (pose proof (loc_bounds m l N D Hl); nia).
  assert (∀ V, repr V → N * sc e <= V * D → M <= V) as Hup.
  { intros V [-> |[-> |HV]] HX; [|lia|]; (etransitivity; [exact HMle|]).
    - eapply (round_upper m e l N D); eauto; lia.
    - eapply (round_upper m e l N D); eauto; lia. }
  assert (∀ V, repr V → V * D <= N * sc e → V <= M) as Hlo.
  { intros V HV HX. destruct HMc as [-> | ->].
    - destruct HV as [-> |[-> |(mv & ev & Hb & ->)]].
      + lia.
      + eapply (round_lower m e N D); unfold inf_sc in *; eauto; lia.
      + apply bounded_cases in Hb. eapply (round_lower m e N D); unfold inf_sc in *; eauto; lia.
    - destruct HV as [-> |[-> |(mv & ev & Hb & ->)]]; [lia..|].
      pose proof (mag_lt_inf _ _ Hb). lia. }
  clear Hround Hnear.
  split_and!; [done|intros z Hz HX; rewrite Hf..];
    pose proof (repr_abs z Hz) as Hrz; specialize (Hup _ Hrz); specialize (Hlo _ Hrz);
    destruct s; simpl in *; destruct (Z.abs_spec (fval z)) as [[? Ha]|[? Ha]]; rewrite Ha in *; nia.
Qed.

(** ** The operations *)

Lemma iter_xO_mul d m : Z.pos (Pos.iter xO m d) = Z.pos m * 2 ^ Z.pos d.
Proof.
  induction d as [|d IH] using Pos.peano_ind; [simpl; lia|].
  rewrite Pos.iter_succ, Pos2Z.inj_xO, IH, Pos2Z.inj_succ, Z.pow_succ_r by lia. ring.
Qed.

Lemma shl_align_ok m e e' :
  let '(m', e'') := shl_align m e e' in
  e'' = Z.min e e' ∧ Z.pos m' = Z.pos m * 2 ^ (e - e'').
Proof.
  unfold shl_align. destruct (e' - e) as [|d|d] eqn:Ed.
  - split; [lia|]. rewrite Z.sub_diag. simpl. lia.
  - split; [lia|]. rewrite Z.sub_diag. simpl. lia.
  - split; [lia|]. rewrite iter_xO_mul. do 2 f_equal. lia.
Qed.

Lemma digits_shift m k :
  0 <= k → 0 < m → Zdigits2 (m * 2 ^ k) = Zdigits2 m + k.
Proof.
  intros Hk Hm. destruct (Zdigits2_bound m Hm) as [Hd [Hl Hu]].
  assert (0 < 2 ^ k) by (apply Z.pow_pos_nonneg; lia).
  assert (2 ^ (Zdigits2 m + k - 1) <= m * 2 ^ k).
  { replace (Zdigits2 m + k - 1) with (Zdigits2 m - 1 + k) by lia.
    rewrite Z.pow_add_r by lia. nia. }
  assert (m * 2 ^ k < 2 ^ (Zdigits2 m + k)) by (rewrite Z.pow_add_r by lia; nia).
  pose proof (Zdigits2_ge_of_le (m * 2 ^ k) (Zdigits2 m + k - 1)).
  pose proof (Zdigits2_le_of_lt (m * 2 ^ k) (Zdigits2 m + k)). nia.
Qed.

Lemma binary_round_rnds s m e :
  -2148 <= e → rnds (cond_Zopp s (Z.pos m * sc e)) 1 (binary_round F64.prec F64.emax s m e).
Proof.
  intros He. unfold binary_round. rewrite fexp_64.
  pose proof (shl_align_ok m e (fexp64 (Z.pos (digits2_pos m) + e))) as Ha.
  destruct (shl_align m e _) as [m' e'']. destruct Ha as [He'' Hm'].
  assert (-2148 <= e'' <= e) by (unfold fexp64 in *; lia).
  replace (Z.pos m * sc e) with (Z.pos m' * sc e'').
  2: { rewrite Hm'. replace e with (e'' + (e - e'')) at 2 by lia. rewrite sc_add by lia. ring. }
  apply round_aux_rnds; [lia|apply loc_ok_exact; lia|lia|lia|].
  rewrite Hm', digits_shift by lia. simpl Zdigits2. rewrite He''.
  replace (Z.pos (digits2_pos m) + (e - Z.min e (fexp64 (Z.pos (digits2_pos m) + e)))
           + Z.min e (fexp64 (Z.pos (digits2_pos m) + e)))
    with (Z.pos (digits2_pos m) + e) by lia. lia.
Qed.

Lemma binary_normalize_rnds m e s :
  -2148 <= e → rnds (m * sc e) 1 (binary_normalize F64.prec F64.emax m e s).
Proof.
  intros He. destruct m as [|m|m]; simpl binary_normalize.
  - apply rnds_exact; [lia|by split|simpl; lia].
  - exact (binary_round_rnds false m e He).
  - replace (Z.neg m * sc e) with (cond_Zopp true (Z.pos m * sc e)) by (simpl; lia).
    by apply binary_round_rnds.
Qed.

Lemma rnds_scale k X D f : 0 < k → rnds X D f → rnds (X * k) (D * k) f.
Proof.
  intros Hk (Hn & Hu & Hl). split_and!; [done|intros z Hz HX..].
  - apply Hu; [done|]. apply (Z.mul_le_mono_pos_r _ _ k Hk). lia.
  - apply Hl; [done|]. apply (Z.mul_le_mono_pos_r _ _ k Hk). lia.
Qed.

Lemma shl_align_fst m e e' :
  e' <= e → Z.pos (fst (shl_align m e e')) = Z.pos m * 2 ^ (e - e').
Proof.
  intros. pose proof (shl_align_ok m e e') as Ha. destruct (shl_align m e e') as [m' e''].
  destruct Ha as [He Hm]. simpl. rewrite Hm, He. do 2 f_equal. lia.
Qed.

Lemma align_fval s m e e' :
  -2200 <= e' <= e →
  cond_Zopp s (Z.pos (fst (shl_align m e e'))) * sc e' = fval (S754_finite s m e).
Proof.
  intros. rewrite shl_align_fst by lia. simpl fval.
  replace (sc e) with (sc e' * 2 ^ (e - e')) by (rewrite <- sc_add by lia; f_equal; lia).
  destruct s; simpl; ring.
Qed.

Lemma add_rnds x y : fin x → fin y → rnds (fval x + fval y) 1 (F64.add x y).
Proof.
  destruct x as [s|s| |s m e], y as [s'|s'| |s' m' e']; try done; intros Hx Hy.
  - apply rnds_exact; [lia|destruct s, s'; done|destruct s, s'; simpl; lia].
  - apply rnds_exact; [lia|by split|unfold F64.add, SFadd; simpl fval; lia].
  - apply rnds_exact; [lia|by split|unfold F64.add, SFadd; simpl fval; lia].
  - pose proof (bounded_cases _ _ Hx) as (? & _). pose proof (bounded_cases _ _ Hy) as (? & _).
    rewrite <- (align_fval s m e (Z.min e e')), <- (align_fval s' m' e' (Z.min e e')) by lia.
    rewrite <- Z.mul_add_distr_r. apply binary_normalize_rnds. lia.
Qed.

Lemma sub_rnds x y : fin x → fin y → rnds (fval x - fval y) 1 (F64.sub x y).
Proof.
  destruct x as [s|s| |s m e], y as [s'|s'| |s' m' e']; try done; intros Hx Hy.
  - apply rnds_exact; [lia|destruct s, s'; done|destruct s, s'; simpl; lia].
  - apply rnds_exact; [lia|by split|destruct s'; unfold F64.sub, SFsub; simpl fval; lia].
  - apply rnds_exact; [lia|by split|unfold F64.sub, SFsub; simpl fval; lia].
  - pose proof (bounded_cases _ _ Hx) as (? & _). pose proof (bounded_cases _ _ Hy) as (? & _).
    rewrite <- (align_fval s m e (Z.min e e')), <- (align_fval s' m' e' (Z.min e e')) by lia.
    rewrite <- Z.mul_sub_distr_r. apply binary_normalize_rnds. lia.
Qed.

Lemma mul_exp_ok m e m' e' :
  bounded F64.prec F64.emax m e = true → bounded F64.prec F64.emax m' e' = true →
  e + e' <= fexp64 (Zdigits2 (Z.pos (m * m')) + (e + e')).
Proof.
  intros (He & _ & Hc)%bounded_cases (He' & _ & Hc')%bounded_cases. unfold fexp64.
  assert (2 ^ 52 <= Z.pos (m * m') → 53 <= Zdigits2 (Z.pos (m * m'))) as Hd.
  { intros. apply (Zdigits2_ge_of_le _ 52); lia. }
  destruct Hc as [Hc| ->], Hc' as [Hc'| ->]; try lia; specialize (Hd ltac:(nia)); lia.
Qed.

Lemma mul_rnds x y : fin x → fin y → rnds (fval x * fval y) unit_sc (F64.mul x y).
Proof.
  pose proof unit_sc_pos as Hu.
  destruct x as [s|s| |s m e], y as [s'|s'| |s' m' e']; try done; intros Hx Hy.
  1-3: apply rnds_exact; [done|by split|unfold F64.mul, SFmul; simpl fval; lia].
  pose proof (bounded_cases _ _ Hx) as (? & _). pose proof (bounded_cases _ _ Hy) as (? & _).
  replace (fval (S754_finite s m e) * fval (S754_finite s' m' e'))
    with (cond_Zopp (xorb s s') (Z.pos (m * m') * sc (e + e')) * unit_sc).
  2: { simpl fval. rewrite Pos2Z.inj_mul.
       transitivity (cond_Zopp (xorb s s') (Z.pos m * Z.pos m' * (sc (e + e') * unit_sc)));
         [destruct s, s'; simpl; ring|].
       rewrite <- sc_mul by lia. destruct s, s'; simpl; ring. }
  rewrite <- (Z.mul_1_l unit_sc) at 2. apply rnds_scale; [done|].
  apply round_aux_rnds; [lia|apply loc_ok_exact; lia|lia|lia|by apply mul_exp_ok].
Qed.

Lemma new_location_ok N D :
  0 < D → 0 <= N → loc_ok N D (N / D) (new_location D (N mod D)).
Proof.
  intros HD HN. exists (N mod D).
  assert (0 <= N / D) by (apply Z.div_pos; lia).
  assert (N = N / D * D + N mod D) as Heq by (pose proof (Z.div_mod N D); lia).
  pose proof (Z.mod_pos_bound N D HD) as Hm. set (ρ := N mod D) in *. set (q := N / D) in *.
  clearbody ρ q. unfold new_location, new_location_even, new_location_odd.
  destruct (Z.even D) eqn:Ev; cbv beta; destruct (Z.eqb_spec ρ 0) as [->|Hρ]; try (simpl; lia).
  - destruct (Z.compare_spec (2 * ρ) D); cbn [shr_m shr_r shr_s shr_record_of_loc]; lia.
  - assert (D ≠ 2 * ρ) by (intros ->; rewrite Z.even_mul in Ev; done).
    destruct (Z.compare_spec (2 * ρ + 1) D); cbn [shr_m shr_r shr_s shr_record_of_loc]; lia.
Qed.

(** The quotient keeps enough digits for its exponent. *)
Lemma div_exp_ok m1 e1 m2 e2 :
  0 < m1 → 0 < m2 →
  let D := Zdigits2 m1 + e1 - (Zdigits2 m2 + e2) in
  let e' := Z.min (fexp64 D) (e1 - e2) in
  e' <= fexp64 (Zdigits2 (m1 * 2 ^ (e1 - e2 - e') / m2) + e').
Proof.
  intros H1 H2 D e'. destruct (Zdigits2_bound m1 H1) as [Hd1 [Hl1 _]].
  destruct (Zdigits2_bound m2 H2) as [Hd2 [_ Hu2]].
  set (d1 := Zdigits2 m1) in *. set (d2 := Zdigits2 m2) in *.
  assert (0 <= e1 - e2 - e') as Hs by lia. set (s := e1 - e2 - e') in *.
  assert (D = d1 + s - d2 + e') as HD by lia.
  destruct (Z.le_gt_cases 0 (d1 + s - 1 - d2)) as [Hpos|Hneg].
  - assert (2 ^ (d1 + s - 1 - d2) <= m1 * 2 ^ s / m2) as Hq.
    { apply Z.div_le_lower_bound; [lia|].
      assert (0 < 2 ^ (d1 + s - 1 - d2)) by (apply Z.pow_pos_nonneg; lia).
      assert (0 < 2 ^ s) by (apply Z.pow_pos_nonneg; lia).
      assert (2 ^ d2 * 2 ^ (d1 + s - 1 - d2) = 2 ^ (d1 - 1) * 2 ^ s)
        by (rewrite <- !Z.pow_add_r by lia; f_equal; lia). nia. }
    apply Zdigits2_ge_of_le in Hq; [|lia].
    assert (fexp64 D <= fexp64 (Zdigits2 (m1 * 2 ^ s / m2) + e')) by (unfold fexp64; lia). lia.
  - assert (e' <= -1074) by (unfold fexp64 in *; lia). unfold fexp64. lia.
Qed.

Lemma div_core_rnds s m1 e1 m2 e2 :
  bounded F64.prec F64.emax m1 e1 = true → bounded F64.prec F64.emax m2 e2 = true →
  rnds (cond_Zopp s (Z.pos m1 * sc (e1 - e2))) (Z.pos m2)
    (let '(mz, ez, lz) := SFdiv_core_binary F64.prec F64.emax (Z.pos m1) e1 (Z.pos m2) e2 in
     binary_round_aux F64.prec F64.emax s mz ez lz).
Proof.
  intros (He1 & _)%bounded_cases (He2 & _)%bounded_cases.
  pose proof (div_exp_ok (Z.pos m1) e1 (Z.pos m2) e2 ltac:(lia) ltac:(lia)) as Hok.
  unfold SFdiv_core_binary. rewrite fexp_64. cbv zeta in Hok.
  set (e' := Z.min _ (e1 - e2)) in *.
  assert (-2045 <= e' <= e1 - e2) as He' by (unfold e', fexp64; lia).
  replace (match e1 - e2 - e' with
           | 0 => Z.pos m1
           | Z.pos _ => Z.shiftl (Z.pos m1) (e1 - e2 - e')
           | Z.neg _ => 0 end) with (Z.pos m1 * 2 ^ (e1 - e2 - e')).
  2: { destruct (e1 - e2 - e') as [|k|k] eqn:Ek; [simpl; lia| |lia].
       rewrite Z.shiftl_mul_pow2 by lia. done. }
  set (N := Z.pos m1 * 2 ^ (e1 - e2 - e')) in *.
  assert (0 <= N) by (unfold N; pose proof (Z.pow_pos_nonneg 2 (e1 - e2 - e')); lia).
  replace (Z.div_eucl N (Z.pos m2)) with (N / Z.pos m2, N mod Z.pos m2)
    by (unfold Z.div, Z.modulo; by destruct (Z.div_eucl _ _)).
  replace (Z.pos m1 * sc (e1 - e2)) with (N * sc e').
  2: { unfold N. rewrite <- Z.mul_assoc, (Z.mul_comm (2 ^ _)), <- sc_add by lia. do 2 f_equal. lia. }
  apply round_aux_rnds; [lia|apply new_location_ok; lia|apply Z.div_pos; lia|lia|exact Hok].
Qed.

Lemma div_rnds x y :
  fin x → fin y → 0 < fval y → rnds (fval x * unit_sc) (fval y) (F64.div x y).
Proof.
  destruct x as [s|s| |s m e], y as [s'|s'| |s' m' e']; try done; intros Hx Hy Hpos;
    try (simpl in Hpos; lia); [apply rnds_exact; [done|by split|simpl; lia]|].
  pose proof (bounded_cases _ _ Hx) as (? & _). pose proof (bounded_cases _ _ Hy) as (? & _).
  pose proof (mag_pos _ _ Hy). destruct s'; [simpl in Hpos; lia|].
  pose proof (div_core_rnds (xorb s false) m e m' e' Hx Hy) as Hr.
  apply (rnds_scale (sc e')) in Hr; [|apply sc_pos; lia].
  replace (fval (S754_finite s m e) * unit_sc)
    with (cond_Zopp (xorb s false) (Z.pos m * sc (e - e')) * sc e'); [exact Hr|].
  pose proof (sc_mul (e - e') e' ltac:(lia) ltac:(lia) ltac:(lia)) as Hs.
  replace (e - e' + e') with e in Hs by lia. simpl fval.
  destruct s; simpl; rewrite ?Z.mul_opp_l, <- !Z.mul_assoc, Hs; done.
Qed.

(** ** Consequences in the form the limiters use them *)

Section Bounds.
Context (x y z : spec_float).
Hypotheses (Hx : fin x) (Hy : fin y) (Hz : num z).

Lemma add_num : num (F64.add x y).
Proof. by apply add_rnds. Qed.
Lemma add_le : fval x + fval y <= fval z → fval (F64.add x y) <= fval z.
Proof. intros. apply (add_rnds x y); [done..|lia]. Qed.
Lemma add_ge : fval z <= fval x + fval y → fval z <= fval (F64.add x y).
Proof. intros. apply (add_rnds x y); [done..|lia]. Qed.

Lemma sub_num : num (F64.sub x y).
Proof. by apply sub_rnds. Qed.
Lemma sub_le : fval x - fval y <= fval z → fval (F64.sub x y) <= fval z.
Proof. intros. apply (sub_rnds x y); [done..|lia]. Qed.
Lemma sub_ge : fval z <= fval x - fval y → fval z <= fval (F64.sub x y).
Proof. intros. apply (sub_rnds x y); [done..|lia]. Qed.

Lemma mul_num : num (F64.mul x y).
Proof. by apply mul_rnds. Qed.
Lemma mul_le : fval x * fval y <= fval z * unit_sc → fval (F64.mul x y) <= fval z.
Proof. intros. by apply (mul_rnds x y). Qed.
Lemma mul_ge : fval z * unit_sc <= fval x * fval y → fval z <= fval (F64.mul x y).
Proof. intros. by apply (mul_rnds x y). Qed.

Hypothesis Hpos : 0 < fval y.
Lemma div_num : num (F64.div x y).
Proof. by apply div_rnds. Qed.
Lemma div_le : fval x * unit_sc <= fval z * fval y → fval (F64.div x y) <= fval z.
Proof. intros. by apply (div_rnds x y). Qed.
Lemma div_ge : fval z * fval y <= fval x * unit_sc → fval z <= fval (F64.div x y).
Proof. intros. by apply (div_rnds x y). Qed.
End Bounds.

(** A rounding of a representable value is that value. *)
Lemma rnds_eq X D f z : rnds X D f → num z → fval z * D = X → fval f = fval z.
Proof. intros (_ & Hu & Hl) Hz HX. apply Z.le_antisymm; [apply Hu|apply Hl]; try done; lia. Qed.

Lemma zero_fin s : fin (S754_zero s).
Proof. done. Qed.

(** Integers of at most 53 bits at any exponent are representable. *)
Lemma binary_round_exact s m e :
  Z.pos m < 2 ^ 53 → -1074 <= e → Z.pos m * sc e < inf_sc →
  fin (binary_round F64.prec F64.emax s m e) ∧
  fval (binary_round F64.prec F64.emax s m e) = cond_Zopp s (Z.pos m * sc e).
Proof.
  intros Hm He Hinf. unfold binary_round. rewrite fexp_64.
  pose proof (shl_align_ok m e (fexp64 (Z.pos (digits2_pos m) + e))) as Ha.
  destruct (shl_align m e _) as [m' e'']. destruct Ha as [He'' Hm'].
  assert (Zdigits2 (Z.pos m) <= 53) as Hd by (apply Zdigits2_le_of_lt; lia). simpl Zdigits2 in Hd.
  assert (e'' = fexp64 (Z.pos (digits2_pos m) + e)) as Hx by (unfold fexp64 in *; lia).
  assert (Z.pos m * sc e = Z.pos m' * sc e'') as Hv.
  { rewrite Hm'. replace e with (e'' + (e - e'')) at 1 by lia.
    rewrite sc_add by (unfold fexp64 in *; lia). ring. }
  assert (fexp64 (Zdigits2 (Z.pos m') + e'') = e'') as Hfix.
  { rewrite Hm', digits_shift by lia. simpl Zdigits2.
    replace (Z.pos (digits2_pos m) + (e - e'') + e'') with (Z.pos (digits2_pos m) + e) by lia. done. }
  destruct (round_aux_spec s (Z.pos m') e'' loc_Exact (Z.pos m') 1) as (r & Hn & _ & _ & Hr);
    [lia|apply loc_ok_exact; lia|lia|lia|].
  rewrite Hfix, Z.sub_diag in Hn. rewrite Hfix in Hr. unfold nearest in Hn.
  assert (r = Z.pos m') as -> by lia. rewrite Hv in *.
  destruct (binary_round_aux _ _ _ _ _ _); simpl in Hr.
  - lia.
  - destruct Hr as [-> Hr]. lia.
  - done.
  - destruct Hr as (-> & Hb & Hq). split; [done|]. simpl. by rewrite Hq.
Qed.

Lemma binary_normalize_exact z e s :
  Z.abs z < 2 ^ 53 → -1074 <= e → Z.abs z * sc e < inf_sc →
  fin (binary_normalize F64.prec F64.emax z e s) ∧
  fval (binary_normalize F64.prec F64.emax z e s) = z * sc e.
Proof.
  intros Hz He Hi. destruct z as [|m|m]; simpl binary_normalize.
  - split; [done|simpl; lia].
  - destruct (binary_round_exact false m e) as [? ->]; [lia..|]. done.
  - destruct (binary_round_exact true m e) as [? ->]; [lia..|]. split; [done|simpl; lia].
Qed.

Lemma sc_0_inf : 2 ^ 1000 * unit_sc < inf_sc.
Proof.
  unfold inf_sc. replace 971 with (0 + 971) by lia. rewrite sc_add by lia.
  change (sc 0) with unit_sc. pose proof unit_sc_pos.
  rewrite Z.mul_comm, (Z.mul_comm (2 ^ 53)), <- Z.mul_assoc. apply Z.mul_lt_mono_pos_l; [done|].
  by vm_compute.
Qed.

(** Any value below 2^100 is far below infinity. *)
Lemma int_lt_inf k : k < 2 ^ 100 → k * unit_sc < inf_sc.
Proof.
  intros Hk. pose proof unit_sc_pos. etransitivity; [|exact sc_0_inf].
  apply Z.mul_lt_mono_pos_r; [done|]. etransitivity; [exact Hk|]. by vm_compute.
Qed.

(** Discharge the side conditions [fin x] and [num x] from the context. *)
Ltac fin_side :=
  try lazymatch goal with
    | |- fin (S754_zero _) => exact I
    | |- num (S754_zero _) => apply fin_num; exact I
    | |- fin _ => assumption
    | |- num _ => first [assumption | apply fin_num; assumption]
    end.

Lemma of_int_exact z : Z.abs z < 2 ^ 53 → fin (F64.of_int z) ∧ fval (F64.of_int z) = z * unit_sc.
Proof.
  intros Hz. apply binary_normalize_exact; [done|lia|].
  change (sc 0) with unit_sc. apply int_lt_inf. lia.
Qed.

Lemma of_int_rnds z : rnds (z * unit_sc) 1 (F64.of_int z).
Proof. apply binary_normalize_rnds. lia. Qed.

(** ** Truncation, ceiling and rounding to integers *)

Lemma sc_nonneg_exp e : 0 <= e → sc e = 2 ^ e * unit_sc.
Proof. intros. replace e with (0 + e) at 1 by lia. rewrite sc_add by lia. apply Z.mul_comm. Qed.

Lemma unit_sc_split e : -2200 <= e <= 0 → unit_sc = 2 ^ (- e) * sc e.
Proof.
  intros. change unit_sc with (sc 0). replace 0 with (e + - e) at 1 by lia. rewrite sc_add by lia.
  apply Z.mul_comm.
Qed.

Lemma fin_nonneg x :
  fin x → 0 <= fval x →
  fval x = 0 ∨ ∃ m e, x = S754_finite false m e ∧ bounded F64.prec F64.emax m e = true.
Proof.
  destruct x as [s|s| |s m e]; simpl; try done; [by left|]. intros Hb Hp.
  pose proof (mag_pos _ _ Hb). destruct s; simpl in Hp; [lia|]. right. eauto.
Qed.

Lemma mag_floor_spec m e :
  -1074 <= e → F64.mag_floor m e = Z.pos m * sc e / unit_sc.
Proof.
  intros He. pose proof unit_sc_pos. unfold F64.mag_floor. destruct (Z.leb_spec 0 e).
  - rewrite sc_nonneg_exp, Z.mul_assoc, Z.div_mul by lia. done.
  - pose proof (sc_pos e ltac:(lia)). rewrite (unit_sc_split e) by lia.
    rewrite Z.div_mul_cancel_r; [done| |lia]. pose proof (Z.pow_pos_nonneg 2 (- e)). lia.
Qed.

Lemma mag_frac_spec m e :
  -1074 <= e → F64.mag_frac m e = negb (Z.pos m * sc e mod unit_sc =? 0).
Proof.
  intros He. pose proof unit_sc_pos. unfold F64.mag_frac. destruct (Z.leb_spec 0 e).
  - rewrite sc_nonneg_exp, Z.mul_assoc, Z.mod_mul by lia. done.
  - pose proof (sc_pos e ltac:(lia)). rewrite (unit_sc_split e) by lia.
    pose proof (Z.pow_pos_nonneg 2 (- e)). rewrite Z.mul_mod_distr_r by lia. f_equal.
    destruct (Z.eqb_spec (Z.pos m mod 2 ^ (- e)) 0) as [->|Hne]; [done|].
    symmetry. apply Z.eqb_neq. nia.
Qed.

Lemma trunc_spec x : fin x → 0 <= fval x → F64.trunc x = fval x / unit_sc.
Proof.
  intros Hf Hp. pose proof unit_sc_pos.
  destruct (fin_nonneg x Hf Hp) as [H0|(m & e & -> & Hb)].
  - rewrite H0, Z.div_0_l by lia. destruct x as [| | |s m e]; try done. simpl in *.
    pose proof (mag_pos _ _ Hf). destruct s; simpl in *; lia.
  - apply bounded_cases in Hb. simpl. apply mag_floor_spec. lia.
Qed.

(** A value with a fractional part is below 2^52. *)
Lemma frac_small m e :
  bounded F64.prec F64.emax m e = true → e < 0 → 2 * (Z.pos m * sc e) < 2 ^ 53 * unit_sc.
Proof.
  intros (He & Hm & _)%bounded_cases Hneg. pose proof (sc_pos e ltac:(lia)).
  pose proof (sc_mono (e + 1) 0 ltac:(lia)) as Hs. rewrite sc_add in Hs by lia.
  change (2 ^ 1) with 2 in Hs. change (sc 0) with unit_sc in Hs. nia.
Qed.

Lemma ceil_spec x :
  fin x → 0 <= fval x →
  fin (F64.ceil x) ∧ fval (F64.ceil x) = - (- fval x / unit_sc) * unit_sc.
Proof.
  intros Hf Hp. pose proof unit_sc_pos as Hu.
  destruct (fin_nonneg x Hf Hp) as [H0|(m & e & -> & Hb)].
  { rewrite H0. simpl. rewrite Z.div_0_l by lia.
    destruct x as [| | |s m e]; try done. simpl in H0, Hf. pose proof (mag_pos _ _ Hf).
    destruct s; simpl in H0; lia. }
  pose proof (bounded_cases _ _ Hb) as (He & _). simpl F64.ceil.
  rewrite mag_frac_spec, mag_floor_spec by lia. simpl fval.
  set (V := Z.pos m * sc e) in *. pose proof (mag_pos m e Hb) as Hpos. fold V in Hpos.
  destruct (Z.eqb_spec (V mod unit_sc) 0) as [Hm|Hm]; simpl negb; cbv iota.
  - split; [done|]. simpl. fold V. rewrite Z.div_opp_l_z by lia.
    pose proof (Z.div_mod V unit_sc). lia.
  - assert (e < 0) as Hneg.
    { destruct (Z.le_gt_cases 0 e); [exfalso|done]. apply Hm. unfold V.
      rewrite sc_nonneg_exp, Z.mul_assoc, Z.mod_mul by lia. done. }
    pose proof (frac_small m e Hb Hneg) as Hs. fold V in Hs.
    assert (0 <= V / unit_sc) by (apply Z.div_pos; lia).
    assert (V / unit_sc + 1 < 2 ^ 53).
    { assert (V / unit_sc < 2 ^ 52); [|lia]. apply Z.div_lt_upper_bound; lia. }
    destruct (of_int_exact (V / unit_sc + 1)) as [Hof Hov]; [lia|].
    unfold F64.of_int in Hof, Hov. split; [exact Hof|]. rewrite Hov, Z.div_opp_l_nz by lia. ring.
Qed.

Lemma round_spec x :
  fin x → 0 <= fval x →
  fin (F64.round x) ∧
  fval (F64.round x) = (2 * fval x + unit_sc) / (2 * unit_sc) * unit_sc.
Proof.
  intros Hf Hp. pose proof unit_sc_pos as Hu.
  destruct (fin_nonneg x Hf Hp) as [H0|(m & e & -> & Hb)].
  { rewrite H0. rewrite Z.div_small by lia.
    destruct x as [| | |s m e]; try done. simpl in H0, Hf. pose proof (mag_pos _ _ Hf).
    destruct s; simpl in H0; lia. }
  pose proof (bounded_cases _ _ Hb) as (He & _). simpl F64.round. simpl fval.
  pose proof (mag_pos m e Hb) as Hpos.
  destruct (Z.leb_spec 0 e) as [Hle|Hneg].
  - split; [done|]. simpl. rewrite sc_nonneg_exp by done.
    replace (2 * (Z.pos m * (2 ^ e * unit_sc)) + unit_sc)
      with (unit_sc + Z.pos m * 2 ^ e * (2 * unit_sc)) by ring.
    rewrite Z.div_add, Z.div_small by lia. ring.
  - pose proof (sc_pos e ltac:(lia)). pose proof (unit_sc_split e ltac:(lia)) as Hus.
    pose proof (Z.pow_pos_nonneg 2 (- e) ltac:(lia) ltac:(lia)).
    assert ((2 * (Z.pos m * sc e) + unit_sc) / (2 * unit_sc)
            = (2 * Z.pos m + 2 ^ (- e)) / (2 * 2 ^ (- e))) as Hq.
    { rewrite Hus.
      replace (2 * (Z.pos m * sc e) + 2 ^ (- e) * sc e) with ((2 * Z.pos m + 2 ^ (- e)) * sc e) by ring.
      rewrite (Z.mul_assoc 2), Z.div_mul_cancel_r by lia. done. }
    rewrite Hq. set (q := (2 * Z.pos m + 2 ^ (- e)) / (2 * 2 ^ (- e))) in *.
    pose proof (frac_small m e Hb Hneg) as Hs.
    assert (0 <= q) by (apply Z.div_pos; lia).
    assert (q < 2 ^ 53) by (rewrite <- Hq; apply Z.div_lt_upper_bound; lia).
    destruct (of_int_exact q) as [Hof Hov]; [lia|].
    unfold F64.of_int in Hof, Hov. simpl cond_Zopp. split; [exact Hof|exact Hov].
Qed.

Lemma int64_of_float_spec `{GoArch} x :
  fin x → 0 <= fval x → fval x < 2 ^ 63 * unit_sc → int64_of_float x = fval x / unit_sc.
Proof.
  intros Hf Hp Hb. pose proof unit_sc_pos. pose proof (trunc_spec x Hf Hp) as Ht.
  assert (0 <= fval x / unit_sc) by (apply Z.div_pos; lia).
  assert (fval x / unit_sc < 2 ^ 63) by (apply Z.div_lt_upper_bound; lia).
  unfold int64_of_float, int64_min, int64_max.
  destruct x; try done; rewrite Ht; zbool; simpl; lia.
Qed.

(** Subtracting a representable number of the same grid is exact. *)
Lemma sub_int_exact x k :
  fin x → 0 <= k → k * unit_sc <= fval x → fval x < 2 ^ 53 * unit_sc →
  fin (F64.sub x (F64.of_int k)) ∧
  fval (F64.sub x (F64.of_int k)) = fval x - k * unit_sc.
Proof.
  intros Hf Hk Hge Hlt. pose proof unit_sc_pos as Hu.
  destruct (of_int_exact k) as [Hkf Hkv]; [nia|].
  assert (∃ g, fin g ∧ fval g = fval x - k * unit_sc) as (g & Hg & Hgv).
  { destruct (fin_nonneg x Hf ltac:(nia)) as [H0|(m & e & -> & Hb)].
    - exists (S754_zero false). split; [done|]. simpl. nia.
    - pose proof (bounded_cases _ _ Hb) as (He & Hm & Hc). simpl fval in *.
      assert (e <= 0) as He0.
      { destruct (Z.le_gt_cases e 0); [done|exfalso]. rewrite sc_nonneg_exp in Hlt by lia.
        rewrite Z.mul_assoc in Hlt. apply Z.mul_lt_mono_pos_r in Hlt; [|done].
        assert (2 ^ 1 <= 2 ^ e) by (apply Z.pow_le_mono_r; lia).
        assert (2 ^ 52 * 2 ^ 1 <= Z.pos m * 2 ^ e) by (apply Z.mul_le_mono_nonneg; lia). lia. }
      pose proof (sc_pos e ltac:(lia)). pose proof (unit_sc_split e ltac:(lia)) as Hus.
      pose proof (Z.pow_pos_nonneg 2 (- e) ltac:(lia) ltac:(lia)).
      exists (binary_normalize F64.prec F64.emax (Z.pos m - k * 2 ^ (- e)) e false).
      assert (0 <= Z.pos m - k * 2 ^ (- e)) by nia.
      assert (0 <= k * 2 ^ (- e)) by nia.
      destruct (binary_normalize_exact (Z.pos m - k * 2 ^ (- e)) e false) as [? ->]; [lia|lia| |].
      + pose proof (mag_lt_inf m e Hb). nia.
      + split; [done|]. rewrite Hus. ring. }
  assert (fval (F64.sub x (F64.of_int k)) = fval g) as Heq.
  { eapply rnds_eq; [by apply sub_rnds|by apply fin_num|]. lia. }
  rewrite Heq, Hgv. split; [|done]. apply num_fin; [by apply sub_num|].
  rewrite Heq. by apply fin_bound.
Qed.

Lemma add_zero_exact x y : fin x → fin y → fval y = 0 → fin (F64.add x y) ∧ fval (F64.add x y) = fval x.
Proof.
  intros Hx Hy H0. assert (fval (F64.add x y) = fval x) as Heq.
  { eapply rnds_eq; [by apply add_rnds|by apply fin_num|]. lia. }
  split; [|done]. apply num_fin; [by apply add_num|]. rewrite Heq. by apply fin_bound.
Qed.

(** ** Steps of the bucket algorithms *)

Lemma one_exact : fin (F64.of_int 1) ∧ fval (F64.of_int 1) = unit_sc.
Proof. destruct (of_int_exact 1) as [Hf Hv]; [lia|]. split; [done|lia]. Qed.

Lemma mul_nonneg x y :
  fin x → fin y → 0 <= fval x → 0 <= fval y → num (F64.mul x y) ∧ 0 <= fval (F64.mul x y).
Proof.
  intros Hx Hy Hx0 Hy0. split; [by apply mul_num|].
  apply (mul_ge x y (S754_zero false)); fin_side. simpl. nia.
Qed.

(** A non-negative number is finite and at least zero, or plus infinity. *)
Lemma num_nonneg_cases p : num p → 0 <= fval p → fin p ∨ p = S754_infinity false.
Proof.
  intros [Hv Hn] Hp. pose proof inf_sc_pos. destruct p as [s|s| |s m e].
  - left. exact I.
  - right. destruct s; [simpl in Hp; lia|done].
  - discriminate Hn.
  - left. exact Hv.
Qed.

Lemma add_grows x p :
  fin x → num p → 0 <= fval p → num (F64.add x p) ∧ fval x <= fval (F64.add x p).
Proof.
  intros Hx Hp H0. destruct (num_nonneg_cases p Hp H0) as [Hf| ->].
  - split; [by apply add_num|]. apply add_ge; fin_side. lia.
  - assert (F64.add x (S754_infinity false) = S754_infinity false) as ->
      by (destruct x; try done).
    split; [done|]. pose proof (fin_bound x Hx). simpl. lia.
Qed.

Lemma sub_shrinks x p :
  fin x → num p → 0 <= fval p → num (F64.sub x p) ∧ fval (F64.sub x p) <= fval x.
Proof.
  intros Hx Hp H0. destruct (num_nonneg_cases p Hp H0) as [Hf| ->].
  - split; [by apply sub_num|]. apply sub_le; fin_side. lia.
  - assert (F64.sub x (S754_infinity false) = S754_infinity true) as ->
      by (destruct x; try done).
    split; [done|]. pose proof (fin_bound x Hx). simpl. lia.
Qed.

(** Between two finite numbers there is no infinity. *)
Lemma fin_between x lo hi : num x → fin lo → fin hi → fval lo <= fval x <= fval hi → fin x.
Proof.
  intros Hx Hlo Hhi Hb. apply num_fin; [done|].
  pose proof (fin_bound _ Hlo). pose proof (fin_bound _ Hhi). lia.
Qed.

Lemma mul_zero_l x y : fin x → fin y → fval x = 0 → fin (F64.mul x y) ∧ fval (F64.mul x y) = 0.
Proof.
  intros Hx Hy H0. assert (fval (F64.mul x y) = fval (S754_zero false)) as Heq.
  { eapply rnds_eq; [by apply mul_rnds|fin_side|]. simpl. lia. }
  split; [|exact Heq]. apply num_fin; [by apply mul_num|]. rewrite Heq. by apply fin_bound.
Qed.

(** Clamping from above and from below, as the code writes them. *)
Lemma clamp_above x c :
  num x → fin c → let y := if F64.gt x c then c else x in
  num y ∧ fval y = Z.min (fval x) (fval c).
Proof.
  intros Hx Hc y. unfold y, F64.gt. destruct (SFltb c x) eqn:E.
  - change (F64.lt c x = true) in E. apply lt_fval in E; fin_side. split; [by apply fin_num|lia].
  - change (F64.lt c x = false) in E. apply lt_false_fval in E; fin_side. split; [done|lia].
Qed.

Lemma clamp_below x :
  num x → let y := if F64.lt x (F64.of_int 0) then F64.of_int 0 else x in
  num y ∧ fval y = Z.max (fval x) 0.
Proof.
  intros Hx y. unfold y. change (F64.of_int 0) with (S754_zero false).
  destruct (F64.lt x (S754_zero false)) eqn:E.
  - apply lt_fval in E; fin_side. simpl in E. split; [fin_side|simpl; lia].
  - apply lt_false_fval in E; fin_side. simpl in E. split; [done|lia].
Qed.

(** ** Relative error

    Every real number up to the overflow threshold has a float at most one
    unit in the last place above it, so a rounded result exceeds the exact
    one by at most a factor [1 + 2^-52], or by the smallest positive float. *)

Lemma float_of_mantissa q e :
  0 <= q <= 2 ^ 53 → -1074 <= e → q * sc e < inf_sc → ∃ z, num z ∧ fval z = q * sc e.
Proof.
  intros Hq He Hi. destruct (Z.eq_dec q (2 ^ 53)) as [->|Hne].
  - assert (2 ^ 53 * sc e = 2 ^ 52 * sc (e + 1)) as Heq.
    { rewrite (sc_add e 1) by lia. change (2 ^ 1) with 2. lia. }
    destruct (binary_normalize_exact (2 ^ 52) (e + 1) false) as [Hf Hv]; [lia|lia|lia|].
    exists (binary_normalize F64.prec F64.emax (2 ^ 52) (e + 1) false).
    split; [by apply fin_num|]. rewrite Hv, Heq. exact eq_refl.
  - destruct (binary_normalize_exact q e false) as [Hf Hv]; [lia|lia|rewrite Z.abs_eq by lia; exact Hi|].
    exists (binary_normalize F64.prec F64.emax q e false).
    split; [by apply fin_num|exact Hv].
Qed.

Lemma ulp_of V :
  0 < V → ∃ e, -1074 <= e ∧ V <= 2 ^ 53 * sc e ∧ (2 ^ 52 * sc e <= V ∨ e = -1074).
Proof.
  intros HV. destruct (Zdigits2_bound V HV) as (Hd & Hlo & Hhi).
  set (d := Zdigits2 V) in *. exists (Z.max (d - 2253) (-1074)).
  assert (2 ^ d <= 2 ^ 53 * sc (Z.max (d - 2253) (-1074))) as Hup.
  { rewrite sc_pow. rewrite <- Z.pow_add_r by lia. apply Z.pow_le_mono_r; lia. }
  split_and!; [lia|lia|].
  destruct (Z.max_spec (d - 2253) (-1074)) as [[Hm ->]|[Hm ->]]; [by right|left].
  rewrite sc_pow. rewrite <- Z.pow_add_r by lia. replace (52 + (d - 2253 + 2200)) with (d - 1) by lia.
  exact Hlo.
Qed.

Lemma float_above V :
  0 <= V <= inf_sc →
  ∃ z, num z ∧ V <= fval z ∧ fval z * 2 ^ 52 <= V * (2 ^ 52 + 1) + 2 ^ 52 * sc (-1074).
Proof.
  intros HV. pose proof (sc_pos (-1074) ltac:(lia)) as Ht.
  destruct (Z.eq_dec V 0) as [->|Hne].
  { exists (S754_zero false). split; [fin_side|]. cbn [fval]. lia. }
  destruct (ulp_of V) as (e & He & Hup & Hlow); [lia|].
  pose proof (sc_pos e ltac:(lia)) as Hsc. set (q := - (- V / sc e)).
  assert (V <= q * sc e < V + sc e) as Hq.
  { pose proof (Z.div_mod (- V) (sc e) ltac:(lia)).
    pose proof (Z.mod_pos_bound (- V) (sc e) Hsc). unfold q. lia. }
  assert (0 <= q <= 2 ^ 53) as Hq53 by nia.
  assert (q * sc e * 2 ^ 52 <= V * (2 ^ 52 + 1) + 2 ^ 52 * sc (-1074)) as Hgoal.
  { destruct Hlow as [Hl| ->]; lia. }
  destruct (Z.lt_ge_cases (q * sc e) inf_sc) as [Hi|Hi].
  - destruct (float_of_mantissa q e) as (z & Hz & Hzv); [lia|lia|done|]. exists z. rewrite Hzv.
    split; [done|lia].
  - exists (S754_infinity false). split; [done|]. cbn [fval cond_Zopp]. lia.
Qed.

(** The error of one operation that does not depend on the operands. *)
Definition tiny : Z := 2 * sc (-1074).

Lemma num_le_inf z : num z → fval z <= inf_sc.
Proof.
  intros Hz. destruct (Z.le_gt_cases (fval z) inf_sc) as [|Hgt]; [done|].
  pose proof inf_sc_pos. destruct (num_nonneg_cases z Hz) as [Hf| ->]; [lia| |done].
  pose proof (fin_bound z Hf). lia.
Qed.

Lemma tiny_pos : 0 < tiny.
Proof. pose proof (sc_pos (-1074) ltac:(lia)). unfold tiny. lia. Qed.

Lemma rnds_upper X D f :
  0 < D → 0 <= X → rnds X D f → fval f * D * 2 ^ 52 <= X * (2 ^ 52 + 1) + D * tiny * 2 ^ 52.
Proof.
  intros HD HX (Hn & Hup & _). set (V := - (- X / D)).
  assert (X <= V * D < X + D) as HV.
  { pose proof (Z.div_mod (- X) D ltac:(lia)).
    pose proof (Z.mod_pos_bound (- X) D HD). unfold V. lia. }
  assert (1 <= sc (-1074)) as Hs by (pose proof (sc_pos (-1074) ltac:(lia)); lia).
  assert (4 <= sc (-1074)) as Hs4.
  { change 4 with (2 ^ 2). rewrite sc_pow. apply Z.pow_le_mono_r; lia. }
  unfold tiny. destruct (Z.le_gt_cases V inf_sc) as [Hi|Hi].
  - destruct (float_above V) as (z & Hz & Hzl & Hzu); [nia|].
    assert (fval f <= fval z) as Hfz by (apply Hup; [done|nia]). nia.
  - pose proof (num_le_inf f Hn). nia.
Qed.

Lemma add_upper x y :
  fin x → fin y → 0 <= fval x + fval y →
  fval (F64.add x y) * 2 ^ 52 <= (fval x + fval y) * (2 ^ 52 + 1) + tiny * 2 ^ 52.
Proof.
  intros Hx Hy H0. pose proof (rnds_upper _ 1 _ ltac:(lia) H0 (add_rnds x y Hx Hy)). lia.
Qed.

Lemma mul_upper x y :
  fin x → fin y → 0 <= fval x * fval y →
  fval (F64.mul x y) * unit_sc * 2 ^ 52
    <= fval x * fval y * (2 ^ 52 + 1) + unit_sc * tiny * 2 ^ 52.
Proof. intros Hx Hy H0. exact (rnds_upper _ _ _ unit_sc_pos H0 (mul_rnds x y Hx Hy)). Qed.

Lemma div_upper x y :
  fin x → fin y → 0 <= fval x → 0 < fval y →
  fval (F64.div x y) * fval y * 2 ^ 52
    <= fval x * unit_sc * (2 ^ 52 + 1) + fval y * tiny * 2 ^ 52.
Proof.
  intros Hx Hy H0 H1. pose proof unit_sc_pos. assert (0 <= fval x * unit_sc) as HX by nia.
  exact (rnds_upper _ _ _ H1 HX (div_rnds x y Hx Hy H1)).
Qed.

(** The mirror image: a rounded result falls short of the exact one by at
    most a factor [1 - 2^-52], or by the smallest positive float. *)
Lemma float_below V :
  0 <= V <= inf_sc →
  ∃ z, num z ∧ fval z <= V ∧ V * (2 ^ 52 - 1) - 2 ^ 52 * sc (-1074) <= fval z * 2 ^ 52.
Proof.
  intros HV. pose proof (sc_pos (-1074) ltac:(lia)) as Ht.
  destruct (Z.eq_dec V 0) as [->|Hne].
  { exists (S754_zero false). split; [fin_side|]. cbn [fval]. lia. }
  destruct (ulp_of V) as (e & He & Hup & Hlow); [lia|].
  pose proof (sc_pos e ltac:(lia)) as Hsc. set (q := V / sc e).
  assert (V - sc e < q * sc e <= V) as Hq.
  { pose proof (Z.div_mod V (sc e) ltac:(lia)).
    pose proof (Z.mod_pos_bound V (sc e) Hsc). unfold q. lia. }
  assert (0 <= q <= 2 ^ 53) as Hq53 by nia.
  assert (V * (2 ^ 52 - 1) - 2 ^ 52 * sc (-1074) <= q * sc e * 2 ^ 52) as Hgoal.
  { destruct Hlow as [Hl| ->]; lia. }
  destruct (Z.lt_ge_cases (q * sc e) inf_sc) as [Hi|Hi].
  - destruct (float_of_mantissa q e) as (z & Hz & Hzv); [lia|lia|done|]. exists z. rewrite Hzv.
    split; [done|lia].
  - exists (S754_infinity false). split; [done|]. cbn [fval cond_Zopp]. lia.
Qed.

Lemma rnds_lower X f :
  0 <= X < inf_sc → rnds X 1 f → X * (2 ^ 52 - 1) - tiny * 2 ^ 52 <= fval f * 2 ^ 52.
Proof.
  intros HX (Hn & _ & Hlow). pose proof (sc_pos (-1074) ltac:(lia)).
  destruct (float_below X) as (z & Hz & Hzu & Hzl); [lia|].
  assert (fval z <= fval f) by (apply Hlow; [done|lia]). unfold tiny. lia.
Qed.
