(* ===== verification/GoTime.v ===== *)
(** * GoTime: instants and durations of package [time]

    A [time.Time] is an instant on one time line, in nanoseconds since the
    zero [Time] (1 January of year 1); a [time.Duration] is a 64-bit signed
    number of nanoseconds.  [Time.Sub] saturates at the bounds of [Duration]
    as the library documents; [Time.Add] does not, because the range of
    instants is far wider than that of durations. *)

From Stdlib Require Import ZArith Lia Bool.
From stdpp Require Import base tactics.
From S2P Require Import Prelude Float64 FloatFacts.

#[local] Open Scope Z_scope.

Abbreviation Time := Z (only parsing).
Abbreviation Duration := Z (only parsing).

Module GoTime.

Definition Nanosecond : Duration := 1.
Definition Millisecond : Duration := 1000000.
Definition Second : Duration := 1000000000.
Definition Minute : Duration := 60 * Second.

(** The zero value of [time.Time]. *)
Definition zeroTime : Time := 0.

Definition Sub (t u : Time) : Duration :=
  if t - u <? int64_min then int64_min
  else if int64_max <? t - u then int64_max
  else t - u.

Definition Add (t : Time) (d : Duration) : Time := t + d.

Definition After (t u : Time) : bool := u <? t.

(** [Duration.Seconds]: whole seconds and the rest are converted separately. *)
Definition Seconds (d : Duration) : spec_float :=
  let sec := Z.quot d Second in
  let nsec := Z.rem d Second in
  F64.add (F64.of_int sec) (F64.div (F64.of_int nsec) (F64.of_int 1000000000)).

Definition Milliseconds (d : Duration) : Z := Z.quot d Millisecond.

(** ** Facts *)

Lemma Sub_range t u : int64_min <= Sub t u <= int64_max.
Proof. unfold Sub, int64_min, int64_max. zbool; lia. Qed.

Lemma Sub_exact t u : int64_min <= t - u <= int64_max → Sub t u = t - u.
Proof. unfold Sub. zbool; lia. Qed.

Lemma Sub_diag t : Sub t t = 0.
Proof. rewrite Sub_exact; unfold int64_min, int64_max; lia. Qed.

Lemma Sub_nonneg t u : u <= t → 0 <= Sub t u.
Proof. unfold Sub, int64_min, int64_max. zbool; lia. Qed.

Lemma Sub_pos t u : u < t → 0 < Sub t u.
Proof. unfold Sub, int64_min, int64_max. zbool; lia. Qed.

Lemma Sub_le t u : u <= t → Sub t u <= t - u.
Proof. unfold Sub, int64_min, int64_max. zbool; lia. Qed.

(** A positive difference is never overstated, whatever the order. *)
Lemma Sub_upper t u : 0 < Sub t u → Sub t u <= t - u.
Proof. unfold Sub, int64_min, int64_max. zbool; lia. Qed.

Lemma billion_exact :
  fin (F64.of_int 1000000000) ∧ fval (F64.of_int 1000000000) = 1000000000 * unit_sc.
Proof. apply of_int_exact. lia. Qed.

(** [fl(n / 10^9)] for [0 <= n < 10^9] lies in [0, 1]. *)
Lemma frac_seconds n :
  0 <= n < 1000000000 →
  fin (F64.div (F64.of_int n) (F64.of_int 1000000000)) ∧
  0 <= fval (F64.div (F64.of_int n) (F64.of_int 1000000000)) <= unit_sc.
Proof.
  intros Hn. destruct billion_exact as [Hb Hbv]. pose proof unit_sc_pos as Hu.
  destruct (of_int_exact n) as [Hf Hv]; [lia|]. destruct (of_int_exact 1) as [H1 H1v]; [lia|].
  assert (0 < fval (F64.of_int 1000000000)) as Hpos by lia.
  assert (0 <= fval (F64.div (F64.of_int n) (F64.of_int 1000000000)) <= unit_sc) as Hr.
  { split.
    - apply (div_ge _ _ (S754_zero false)); fin_side; [exact Hpos|]. simpl. nia.
    - transitivity (fval (F64.of_int 1)); [|lia]. apply div_le; fin_side; [exact Hpos|]. nia. }
  split; [|done]. apply num_fin; [by apply div_num|].
  pose proof (int_lt_inf 1 ltac:(lia)). lia.
Qed.

Lemma quot_rem_nonneg d : 0 <= d → Z.quot d Second = d / Second ∧ Z.rem d Second = d mod Second.
Proof.
  intros. unfold Second. rewrite Z.quot_div_nonneg, Z.rem_mod_nonneg by lia. done.
Qed.

(** Seconds of a non-negative duration: finite and between the whole seconds
    below and above. *)
Lemma Seconds_bounds d :
  0 <= d <= int64_max →
  fin (Seconds d) ∧ d / Second * unit_sc <= fval (Seconds d) <= (d / Second + 1) * unit_sc.
Proof.
  intros Hd. unfold Seconds. destruct (quot_rem_nonneg d) as [-> ->]; [lia|].
  assert (0 <= d / Second < 2 ^ 34) as Hs.
  { split; [apply Z.div_pos; unfold Second; lia|].
    apply Z.div_lt_upper_bound; unfold Second, int64_max in *; lia. }
  assert (0 <= d mod Second < 1000000000) as Hn by (apply Z.mod_pos_bound; unfold Second; lia).
  set (s := d / Second) in *. set (n := d mod Second) in *.
  destruct (of_int_exact s) as [Hsf Hsv]; [lia|].
  destruct (of_int_exact (s + 1)) as [Hsf' Hsv']; [lia|].
  destruct (frac_seconds n Hn) as [Hff Hfv]. pose proof unit_sc_pos.
  assert (s * unit_sc <= fval (F64.add (F64.of_int s) (F64.div (F64.of_int n) (F64.of_int 1000000000)))
          <= (s + 1) * unit_sc) as Hr.
  { rewrite <- Hsv, <- Hsv'. split; [apply add_ge|apply add_le]; fin_side; lia. }
  split; [|done]. apply num_fin; [by apply add_num|].
  pose proof (fin_bound _ Hsf). pose proof (fin_bound _ Hsf'). lia.
Qed.

Lemma Seconds_nonneg d : 0 <= d <= int64_max → fin (Seconds d) ∧ 0 <= fval (Seconds d).
Proof.
  intros Hd. destruct (Seconds_bounds d Hd) as [Hf Hb]. split; [done|].
  pose proof unit_sc_pos. assert (0 <= d / Second) by (apply Z.div_pos; unfold Second; lia). nia.
Qed.

Lemma Seconds_0 : Seconds 0 = S754_zero false.
Proof. reflexivity. Qed.

Lemma tiny_small : 2 ^ 200 * tiny <= unit_sc.
Proof. unfold tiny. rewrite (unit_sc_split (-1074)) by lia. pose proof (sc_pos (-1074)). nia. Qed.

(** The floating-point seconds exceed the exact ones by a factor of at most
    [1 + 2^-50]. *)
Lemma Seconds_upper d :
  0 <= d <= int64_max → fval (Seconds d) * Second * 2 ^ 50 <= d * unit_sc * (2 ^ 50 + 1).
Proof.
  intros Hd. destruct (Z.eq_dec d 0) as [->|Hne]; [rewrite Seconds_0; cbn [fval]; lia|].
  unfold Seconds. destruct (quot_rem_nonneg d) as [-> ->]; [lia|].
  assert (d = Second * (d / Second) + d mod Second) as Hdm by (apply Z.div_mod; unfold Second; lia).
  assert (0 <= d mod Second < 1000000000) as Hn by (apply Z.mod_pos_bound; unfold Second; lia).
  assert (0 <= d / Second < 2 ^ 34) as Hs.
  { split; [apply Z.div_pos; unfold Second; lia|].
    apply Z.div_lt_upper_bound; unfold Second, int64_max in *; lia. }
  set (s := d / Second) in *. set (n := d mod Second) in *. pose proof unit_sc_pos as Hu.
  destruct (of_int_exact s) as [Hsf Hsv]; [lia|]. destruct (of_int_exact n) as [Hnf Hnv]; [lia|].
  destruct (frac_seconds n Hn) as [Hff Hfv]. destruct billion_exact as [Hb Hbv].
  pose proof (div_upper _ _ Hnf Hb ltac:(nia) ltac:(lia)) as Hdiv.
  pose proof (add_upper _ _ Hsf Hff ltac:(nia)) as Hadd.
  set (q := F64.div _ _) in *. set (f := F64.add _ _) in *. rewrite Hnv, Hbv in Hdiv. rewrite Hsv in Hadd.
  pose proof tiny_small as Htiny. pose proof tiny_pos.
  assert (fval q * 1000000000 * 2 ^ 52 <= n * unit_sc * (2 ^ 52 + 1) + 1000000000 * tiny * 2 ^ 52) as Hq.
  { apply (Z.mul_le_mono_pos_r _ _ unit_sc Hu). lia. }
  assert (d * unit_sc = 1000000000 * (s * unit_sc) + n * unit_sc) as Hdu
    by (rewrite Hdm at 1; unfold Second; lia).
  assert (unit_sc <= d * unit_sc) as Hd1 by nia. unfold Second. rewrite Hdu in *.
  assert (0 <= s * unit_sc ∧ 0 <= n * unit_sc) as [Hs0 Hn0] by nia. clear Hdiv Hdm Hdu Hbv Hsv Hnv.
  set (sU := s * unit_sc) in *. set (nU := n * unit_sc) in *. clearbody sU nU. lia.
Qed.

(** The product of elapsed seconds and a rate, as the bucket limiters compute
    it, exceeds the exact product by a factor of at most [1 + 6 * 2^-52], or
    by the smallest float. *)
Lemma product_upper rate d :
  fin rate → 0 < fval rate → 0 <= d <= int64_max →
  fval (F64.mul (Seconds d) rate) * 2 ^ 52 * Second
    <= d * fval rate * (2 ^ 52 + 6) + tiny * 2 ^ 52 * Second.
Proof.
  intros Hrf Hr Hd. destruct (Seconds_nonneg d Hd) as [Hsf Hs0].
  pose proof (Seconds_upper d Hd) as Hs. pose proof unit_sc_pos as Hu.
  pose proof (mul_upper (Seconds d) rate Hsf Hrf ltac:(nia)) as Hm.
  set (p := fval (F64.mul (Seconds d) rate)) in *. set (S := fval (Seconds d)) in *.
  set (R := fval rate) in *. clearbody p S R. pose proof tiny_pos.
  assert (S * R * Second * 2 ^ 50 <= d * R * (2 ^ 50 + 1) * unit_sc) as HSR by nia.
  assert (0 <= d * R) as HdR by nia.
  apply (Z.mul_le_mono_pos_r _ _ (2 ^ 50 * unit_sc)); [lia|]. unfold Second in *.
  set (SR := S * R) in *. set (dRu := d * R * unit_sc).
  assert (0 <= dRu) by (unfold dRu; nia). set (pu := p * unit_sc) in *. set (tu := unit_sc * tiny) in *.
  replace (p * 2 ^ 52 * 1000000000 * (2 ^ 50 * unit_sc)) with (pu * 2 ^ 52 * 1000000000 * 2 ^ 50)
    by (unfold pu; lia).
  replace ((d * R * (2 ^ 52 + 6) + tiny * 2 ^ 52 * 1000000000) * (2 ^ 50 * unit_sc)) with
    (dRu * (2 ^ 52 + 6) * 2 ^ 50 + tu * 2 ^ 52 * 1000000000 * 2 ^ 50) by (unfold dRu, tu; lia).
  replace (d * R * (2 ^ 50 + 1) * unit_sc) with (dRu * (2 ^ 50 + 1)) in HSR by (unfold dRu; lia).
  clearbody SR dRu pu tu. lia.
Qed.

End GoTime.
