(* ===== verification/SignedFloat.v ===== *)
(** * SignedFloat: rounding errors of either sign

    FloatFacts.v bounds the rounding of non-negative results, which is all that
    a clock which never goes back needs.  When instants arrive out of order,
    elapsed times are negative as well; here the same bounds, as a distance,
    for every finite result, and for the products that the bucket limiters
    compute. *)

From Stdlib Require Import ZArith Lia Bool.
From stdpp Require Import base tactics.
From S2P Require Import Prelude Float64 FloatFacts GoTime.

#[local] Open Scope Z_scope.

Module SignedFloat.

(** Rounding commutes with negation. *)
Lemma rnds_opp X D f : rnds X D f → rnds (- X) D (SFopp f).
Proof.
  intros (Hn & Hu & Hl). destruct (opp_spec f Hn) as [Hon Hov].
  split_and!; [done|intros z Hz HX..]; destruct (opp_spec z Hz) as [Hzn Hzv].
  - specialize (Hl (SFopp z) Hzn ltac:(lia)). lia.
  - specialize (Hu (SFopp z) Hzn ltac:(lia)). lia.
Qed.

Lemma rnds_lower_scaled X D f :
  0 < D → 0 <= X < inf_sc * D → rnds X D f →
  X * (2 ^ 52 - 1) - D * tiny * 2 ^ 52 <= fval f * D * 2 ^ 52.
Proof.
  intros HD HX (Hn & _ & Hlow). set (V := X / D).
  assert (V * D <= X < V * D + D) as HV.
  { pose proof (Z.div_mod X D ltac:(lia)). pose proof (Z.mod_pos_bound X D HD). unfold V. lia. }
  pose proof (sc_pos (-1074) ltac:(lia)) as Hs.
  destruct (float_below V) as (z & Hz & Hzu & Hzl); [nia|].
  assert (fval z <= fval f) as Hzf by (apply Hlow; [done|nia]). unfold tiny.
  assert ((V * (2 ^ 52 - 1) - 2 ^ 52 * sc (-1074)) * D <= fval f * 2 ^ 52 * D) as HVD by nia.
  assert (D * 1 <= D * sc (-1074)) as HDs by nia. lia.
Qed.

(** A rounded result is within a factor [2^-52] of the exact one, or within
    the smallest float. *)
Lemma rnds_near X D f :
  0 < D → Z.abs X < inf_sc * D → rnds X D f →
  Z.abs (fval f * D - X) * 2 ^ 52 <= Z.abs X + D * tiny * 2 ^ 52.
Proof.
  intros HD HX Hf. destruct (Z.le_gt_cases 0 X) as [H0|H0].
  - pose proof (rnds_upper X D f HD H0 Hf). pose proof (rnds_lower_scaled X D f HD ltac:(lia) Hf). lia.
  - pose proof (rnds_opp _ _ _ Hf) as Ho. destruct Hf as (Hn & _). destruct (opp_spec f Hn) as [_ Hv].
    pose proof (rnds_upper (- X) D _ HD ltac:(lia) Ho). pose proof (rnds_lower_scaled (- X) D _ HD ltac:(lia) Ho).
    rewrite Hv in *. lia.
Qed.

(** Every value of ordinary size is finite. *)
Definition moderate (x : spec_float) : Prop := fin x ∧ Z.abs (fval x) <= 2 ^ 60 * unit_sc.

Lemma moderate_num x : num x → Z.abs (fval x) <= 2 ^ 60 * unit_sc → moderate x.
Proof.
  intros Hn Hx. split; [|done]. apply num_fin; [done|]. pose proof (int_lt_inf (2 ^ 60 + 1) ltac:(lia)).
  pose proof unit_sc_pos. lia.
Qed.

Lemma small_lt_inf X : X <= 2 ^ 62 * unit_sc → X < inf_sc.
Proof. intros HX. pose proof (int_lt_inf (2 ^ 62 + 1) ltac:(lia)). pose proof unit_sc_pos. lia. Qed.

Lemma add_near x y :
  moderate x → moderate y →
  num (F64.add x y) ∧
  Z.abs (fval (F64.add x y) - (fval x + fval y)) * 2 ^ 52 <= Z.abs (fval x + fval y) + tiny * 2 ^ 52.
Proof.
  intros [Hx Hxb] [Hy Hyb]. pose proof unit_sc_pos. split; [by apply add_num|].
  pose proof (rnds_near (fval x + fval y) 1 _ ltac:(lia) ltac:(rewrite Z.mul_1_r; apply small_lt_inf; lia) (add_rnds x y Hx Hy)). lia.
Qed.

Lemma sub_near x y :
  moderate x → moderate y →
  num (F64.sub x y) ∧
  Z.abs (fval (F64.sub x y) - (fval x - fval y)) * 2 ^ 52 <= Z.abs (fval x - fval y) + tiny * 2 ^ 52.
Proof.
  intros [Hx Hxb] [Hy Hyb]. pose proof unit_sc_pos. split; [by apply sub_num|].
  pose proof (rnds_near (fval x - fval y) 1 _ ltac:(lia) ltac:(rewrite Z.mul_1_r; apply small_lt_inf; lia) (sub_rnds x y Hx Hy)). lia.
Qed.

(** [fl(n / 10^9)] for [|n| < 10^9]. *)
Lemma frac_near n :
  Z.abs n < 1000000000 →
  let q := F64.div (F64.of_int n) (F64.of_int 1000000000) in
  moderate q ∧ Z.abs (fval q * 1000000000 - n * unit_sc) * 2 ^ 52 <= Z.abs n * unit_sc + 1000000000 * tiny * 2 ^ 52.
Proof.
  intros Hn q. destruct (of_int_exact n) as [Hnf Hnv]; [lia|]. destruct GoTime.billion_exact as [Hbf Hbv].
  pose proof unit_sc_pos as Hu. pose proof (int_lt_inf 1 ltac:(lia)) as Hinf. assert (0 < fval (F64.of_int 1000000000)) as Hb by lia.
  pose proof (div_rnds _ _ Hnf Hbf Hb) as Hr. fold q in Hr. rewrite Hnv, Hbv in Hr.
  assert (Z.abs (n * unit_sc * unit_sc) < inf_sc * (1000000000 * unit_sc)) as Hlt.
  { replace (Z.abs (n * unit_sc * unit_sc)) with (Z.abs n * unit_sc * unit_sc) by nia. nia. }
  pose proof (rnds_near (n * unit_sc * unit_sc) (1000000000 * unit_sc) q ltac:(lia) Hlt Hr) as Hne.
  assert (Z.abs (fval q * 1000000000 - n * unit_sc) * 2 ^ 52 <= Z.abs n * unit_sc + 1000000000 * tiny * 2 ^ 52) as Hq.
  { apply (Z.mul_le_mono_pos_r _ _ unit_sc Hu).
    replace (Z.abs (n * unit_sc * unit_sc)) with (Z.abs n * unit_sc * unit_sc) in Hne by nia.
    replace (fval q * (1000000000 * unit_sc) - n * unit_sc * unit_sc)
      with ((fval q * 1000000000 - n * unit_sc) * unit_sc) in Hne by lia.
    rewrite Z.abs_mul, (Z.abs_eq unit_sc) in Hne by lia. lia. }
  split; [|done]. pose proof GoTime.tiny_small. pose proof tiny_pos.
  apply moderate_num; [apply Hr|]. assert (Z.abs (n * unit_sc) <= 1000000000 * unit_sc) by nia. lia.
Qed.

(** The floating-point seconds of any duration. *)
Lemma Seconds_near d :
  Z.abs d <= int64_max →
  moderate (GoTime.Seconds d) ∧
  Z.abs (fval (GoTime.Seconds d) * GoTime.Second - d * unit_sc) * 2 ^ 50 <= Z.abs d * unit_sc.
Proof.
  intros Hd. pose proof unit_sc_pos as Hu. pose proof GoTime.tiny_small as Hts. pose proof tiny_pos.
  destruct (Z.eq_dec d 0) as [->|Hd0].
  { rewrite GoTime.Seconds_0. split; [split; [done|cbn [fval]; lia]|cbn [fval]; lia]. }
  unfold GoTime.Seconds. set (s := Z.quot d GoTime.Second). set (n := Z.rem d GoTime.Second).
  assert (d = 1000000000 * s + n ∧ Z.abs n < 1000000000 ∧ Z.abs s < 2 ^ 34 ∧
    Z.abs d = 1000000000 * Z.abs s + Z.abs n) as (Hdm & Hn & Hs & Habs).
  { unfold s, n, GoTime.Second, int64_max in *. Z.to_euclidean_division_equations. lia. }
  clearbody s n. destruct (of_int_exact s) as [Hsf Hsv]; [lia|]. destruct (frac_near n Hn) as [Hqm Hq].
  set (q := F64.div _ _) in *.
  assert (moderate (F64.of_int s)) as Hsm by (split; [done|]; rewrite Hsv; nia).
  destruct (add_near _ _ Hsm Hqm) as [Han Ha]. set (f := F64.add _ _) in *. rewrite Hsv in Ha.
  assert (Z.abs (s * unit_sc) = Z.abs s * unit_sc ∧ Z.abs (n * unit_sc) = Z.abs n * unit_sc) as [Hsa Hna]
    by (rewrite !Z.abs_mul, (Z.abs_eq unit_sc); [done|lia]).
  assert (d * unit_sc = 1000000000 * (s * unit_sc) + n * unit_sc) as Hdu by (rewrite Hdm; ring).
  assert (Z.abs d * unit_sc = 1000000000 * (Z.abs s * unit_sc) + Z.abs n * unit_sc) as Hdau by (rewrite Habs; ring).
  assert (Z.abs s * unit_sc <= 2 ^ 34 * unit_sc ∧ Z.abs n * unit_sc <= 1000000000 * unit_sc) as [Hs1 Hn1]
    by (split; apply Z.mul_le_mono_nonneg_r; lia).
  assert (1 * unit_sc <= Z.abs d * unit_sc) as Hd1 by (apply Z.mul_le_mono_nonneg_r; lia). rewrite Z.mul_1_l in Hd1. rewrite Hdau in Hd1.
  unfold GoTime.Second. rewrite Hdau. rewrite Hdu.
  rewrite <- Hsa, <- Hna in *. set (sU := s * unit_sc) in *. set (nU := n * unit_sc) in *.
  clear Hdm Habs Hsa Hna Hdu Hdau Hs Hn Hd0 Hd Hsv Hsm. clearbody sU nU.
  split; [apply moderate_num; [done|lia]|lia].
Qed.

(** The product of elapsed seconds and a rate, of either sign. *)
Lemma product_near rate d :
  fin rate → 0 < fval rate → Z.abs d <= int64_max → Z.abs d * fval rate <= 2 ^ 55 * unit_sc * GoTime.Second →
  let P := F64.mul (GoTime.Seconds d) rate in
  moderate P ∧
  Z.abs (fval P * (2 ^ 52 * GoTime.Second) - d * fval rate * 2 ^ 52)
    <= 6 * (Z.abs d * fval rate) + tiny * (2 ^ 52 * GoTime.Second).
Proof.
  intros Hrf Hr Hd Hb P. destruct (Seconds_near d Hd) as [[Hsf _] Hs]. pose proof unit_sc_pos as Hu.
  pose proof GoTime.tiny_small as Hts. pose proof tiny_pos. pose proof (mul_rnds _ rate Hsf Hrf) as Hm. fold P in Hm.
  set (S := fval (GoTime.Seconds d)) in *. set (R := fval rate) in *. clearbody S R.
  assert (Z.abs (S * R * GoTime.Second - d * R * unit_sc) * 2 ^ 50 <= Z.abs d * R * unit_sc) as HSR.
  { replace (S * R * GoTime.Second - d * R * unit_sc) with ((S * GoTime.Second - d * unit_sc) * R) by ring.
    rewrite Z.abs_mul, (Z.abs_eq R) by lia. nia. }
  assert (Z.abs (d * R * unit_sc) = Z.abs d * R * unit_sc) as Hda by nia.
  assert (Z.abs d * R * unit_sc <= 2 ^ 55 * GoTime.Second * (unit_sc * unit_sc)) as Hbu by nia.
  pose proof (small_lt_inf (2 ^ 62 * unit_sc) ltac:(lia)) as Hinf.
  assert (2 ^ 62 * (unit_sc * unit_sc) <= inf_sc * unit_sc) as Hinf2 by nia.
  assert (0 < unit_sc * unit_sc) as Huu by nia. unfold GoTime.Second in *.
  assert (Z.abs (S * R) < inf_sc * unit_sc) as Hlt by (set (uu := unit_sc * unit_sc) in *; clearbody uu; lia).
  pose proof (rnds_near _ _ _ Hu Hlt Hm) as Hne.
  assert (Z.abs (fval P * (2 ^ 52 * 1000000000) - d * R * 2 ^ 52)
    <= 6 * (Z.abs d * R) + tiny * (2 ^ 52 * 1000000000)) as Hgoal.
  { apply (Z.mul_le_mono_pos_r _ _ unit_sc Hu).
    replace (Z.abs (fval P * (2 ^ 52 * 1000000000) - d * R * 2 ^ 52) * unit_sc)
      with (Z.abs (fval P * unit_sc * (2 ^ 52 * 1000000000) - d * R * unit_sc * 2 ^ 52)).
    2: { rewrite <- (Z.abs_eq unit_sc) at 3 by lia. rewrite <- Z.abs_mul. f_equal. ring. }
    replace ((6 * (Z.abs d * R) + tiny * (2 ^ 52 * 1000000000)) * unit_sc)
      with (6 * (Z.abs d * R * unit_sc) + unit_sc * tiny * (2 ^ 52 * 1000000000)) by ring.
    rewrite <- Hda in *. set (dru := d * R * unit_sc) in *. set (pu := fval P * unit_sc) in *.
    set (ut := unit_sc * tiny) in *. set (sr := S * R) in *. clearbody dru pu ut sr. lia. }
  split; [|done]. apply moderate_num; [apply Hm|].
  assert (Z.abs (d * R) = Z.abs d * R) as Hdr by (rewrite Z.abs_mul, (Z.abs_eq R); [done|lia]). rewrite <- Hdr in *. set (dr := d * R) in *. clearbody dr. lia.
Qed.

End SignedFloat.
