(* ===== verification/Core.v ===== *)
(** * Core: the contract of package [kaka] (limiter.go, metrics.go)

    The result of a decision, error values, the events a [MetricSink]
    receives, and the [Limiter] interface that the in-memory, Redis and
    layered limiters implement and the middleware adapters call. *)

From Stdlib Require Import ZArith Lia.
From stdpp Require Import base strings list.
From S2P Require Import Prelude.

#[local] Open Scope Z_scope.

(** [kaka.Result]. *)
Record Result := mkResult {
  Allowed : bool;
  Remaining : Z;
  RetryAfter : Z
}.

(** The zero value [kaka.Result{}]. *)
Definition zeroResult : Result := mkResult false 0 0.

#[export] Instance Result_eq_dec : EqDecision Result.
Proof. solve_decision. Defined.

(** Error values: [errors.New(msg)] and [fmt.Errorf] with a wrapped [%w]. *)
Inductive error :=
| ErrorNew (msg : string)
| ErrorWrap (inner : error) (detail : string).

#[export] Instance error_eq_dec : EqDecision error.
Proof. solve_decision. Defined.

(** [errors.Is]: the target occurs in the chain of wrapped errors. *)
Fixpoint errors_Is (err target : error) : bool :=
  bool_decide (err = target) ||
  match err with
  | ErrorNew _ => false
  | ErrorWrap inner _ => errors_Is inner target
  end.

(** Tier values of the metric methods. *)
Definition TierSingle : string := "".
Definition TierLocal : string := "local".
Definition TierRemote : string := "remote".

(** One call of a [MetricSink] method. *)
Inductive MetricEvent :=
| OnAllowed (tier : string) (result : Result)
| OnRejected (tier : string) (result : Result)
| OnError (tier : string) (err : error)
| SetKeys (tier : string) (n : Z)
| OnEvict (tier : string).

#[export] Instance MetricEvent_eq_dec : EqDecision MetricEvent.
Proof. solve_decision. Defined.

(** The [Limiter] interface.  [E] is what one call reads from its environment
    (the clock, the replies of a server), [S] the limiter's mutable state.
    [None] stands for a call that never returns. *)
Class Limiter (E S : Type) :=
  Allow : E → S → string → option ((Result * option error) * S).

(** What the shared contract tests require of every result of a call: a
    denial leaves nothing, an allowance asks for no delay, and no field is
    negative. *)
Definition result_ok (r : Result) : Prop :=
  0 <= Remaining r ∧ 0 <= RetryAfter r ∧
  (Allowed r = true → RetryAfter r = 0) ∧ (Allowed r = false → Remaining r = 0).

(** The number of requests a run of decisions let through. *)
Definition allowed_count (rs : list Result) : Z :=
  Z.of_nat (length (filter (fun r => Allowed r = true) rs)).

Lemma allowed_count_cons r rs :
  allowed_count (r :: rs) = (if Allowed r then 1 else 0) + allowed_count rs.
Proof. unfold allowed_count. rewrite filter_cons. destruct (Allowed r); simpl; lia. Qed.

Lemma allowed_count_nonneg rs : 0 <= allowed_count rs.
Proof. unfold allowed_count. lia. Qed.

(** Calls of one limiter, one after another. *)
Fixpoint requests {E S} `{!Limiter E S} (l : S) (reqs : list (E * string))
    : option (list (Result * option error) * S) :=
  match reqs with
  | [] => Some ([], l)
  | (e, key) :: rest =>
      match Allow e l key with
      | None => None
      | Some (r, l') =>
          match requests l' rest with
          | None => None
          | Some (rs, l'') => Some (r :: rs, l'')
          end
      end
  end.
