(* ===== verification/GoString.v ===== *)
(** * GoString: [strings.TrimSpace] and the key validation of the packages

    Go strings are byte sequences, as [string] is here.  White space is
    [unicode.IsSpace] on the UTF-8 decoding: the six ASCII spaces, U+0085,
    U+00A0, U+1680, U+2000 to U+200A, U+2028, U+2029, U+202F, U+205F and
    U+3000.  Bytes that do not decode give U+FFFD, which is not a space. *)

From Stdlib Require Import ZArith Lia Bool.
From stdpp Require Import base strings list.
From S2P Require Import Prelude Core.

#[local] Open Scope Z_scope.

Module GoString.

Definition byte_val (c : Ascii.ascii) : Z := Z.of_N (Ascii.N_of_ascii c).

(** [unicode.IsSpace] on runes encoded in one, two and three bytes. *)
Definition is_space1 (c : Ascii.ascii) : bool :=
  let b := byte_val c in ((9 <=? b) && (b <=? 13)) || (b =? 32).

Definition is_space2 (c1 c2 : Ascii.ascii) : bool :=
  (byte_val c1 =? 194) && ((byte_val c2 =? 133) || (byte_val c2 =? 160)).

Definition is_space3 (c1 c2 c3 : Ascii.ascii) : bool :=
  let '(a, b, c) := (byte_val c1, byte_val c2, byte_val c3) in
  ((a =? 225) && (b =? 154) && (c =? 128)) ||
  ((a =? 226) && (b =? 128) &&
     (((128 <=? c) && (c <=? 138)) || (c =? 168) || (c =? 169) || (c =? 175))) ||
  ((a =? 226) && (b =? 129) && (c =? 159)) ||
  ((a =? 227) && (b =? 128) && (c =? 128)).

(** Drop the leading spaces. *)
Fixpoint trimLeft (s : string) : string :=
  match s with
  | EmptyString => s
  | String c1 s1 =>
      if is_space1 c1 then trimLeft s1
      else match s1 with
           | EmptyString => s
           | String c2 s2 =>
               if is_space2 c1 c2 then trimLeft s2
               else match s2 with
                    | EmptyString => s
                    | String c3 s3 => if is_space3 c1 c2 c3 then trimLeft s3 else s
                    end
           end
  end.

(** Drop the longest suffix made of spaces. *)
Fixpoint trimRight (s : string) : string :=
  match s with
  | EmptyString => s
  | String c s1 =>
      match trimLeft s with
      | EmptyString => EmptyString
      | _ => String c (trimRight s1)
      end
  end.

Definition TrimSpace (s : string) : string := trimRight (trimLeft s).

(** The strings made of white space only. *)
Inductive Blank : string → Prop :=
| Blank_nil : Blank EmptyString
| Blank_1 c s : is_space1 c = true → Blank s → Blank (String c s)
| Blank_2 c1 c2 s : is_space2 c1 c2 = true → Blank s → Blank (String c1 (String c2 s))
| Blank_3 c1 c2 c3 s :
    is_space3 c1 c2 c3 = true → Blank s → Blank (String c1 (String c2 (String c3 s))).

#[local] Hint Constructors Blank : core.

(** The three encodings do not overlap. *)
Lemma space2_not1 c1 c2 : is_space2 c1 c2 = true → is_space1 c1 = false.
Proof.
  unfold is_space2, is_space1. intros [H _]%andb_true_iff. apply Z.eqb_eq in H. by rewrite H.
Qed.

Lemma space3_not12 c1 c2 c3 :
  is_space3 c1 c2 c3 = true → is_space1 c1 = false ∧ is_space2 c1 c2 = false.
Proof.
  unfold is_space3, is_space1, is_space2.
  rewrite !orb_true_iff, !andb_true_iff, !Z.eqb_eq. intros H.
  assert (225 <= byte_val c1) by lia. clear H.
  split; apply not_true_iff_false; rewrite ?orb_true_iff, ?andb_true_iff, ?Z.eqb_eq, ?Z.leb_le; lia.
Qed.

Lemma trimLeft_blank s : Blank s → trimLeft s = EmptyString.
Proof.
  induction 1 as [|c s H _ IH|c1 c2 s H _ IH|c1 c2 c3 s H _ IH]; simpl; [done|by rewrite H|..].
  - by rewrite (space2_not1 _ _ H), H.
  - destruct (space3_not12 _ _ _ H) as [-> ->]. by rewrite H.
Qed.

(** A property of strings proved for each suffix shorter by a decoded rune. *)
Lemma string_len_ind (P : string → Prop) :
  (∀ s, (∀ t, (String.length t < String.length s)%nat → P t) → P s) → ∀ s, P s.
Proof.
  intros H s. remember (String.length s) as n eqn:E. revert s E.
  induction n as [n IH] using lt_wf_ind. intros s ->. apply H. eauto.
Qed.

Lemma trimLeft_empty_blank s : trimLeft s = EmptyString → Blank s.
Proof.
  induction s as [s IH] using string_len_ind. destruct s as [|c1 s1]; [done|]. simpl.
  destruct (is_space1 c1) eqn:E1; [intros; constructor; [done|]; apply IH; [simpl; lia|done]|].
  destruct s1 as [|c2 s2]; [done|].
  destruct (is_space2 c1 c2) eqn:E2; [intros; apply Blank_2; [done|]; apply IH; [simpl; lia|done]|].
  destruct s2 as [|c3 s3]; [done|].
  destruct (is_space3 c1 c2 c3) eqn:E3; [|done].
  intros; apply Blank_3; [done|]; apply IH; [simpl; lia|done].
Qed.

Lemma trimLeft_empty_iff s : trimLeft s = EmptyString ↔ Blank s.
Proof. split; [apply trimLeft_empty_blank|apply trimLeft_blank]. Qed.

Lemma trimLeft_idemp s : trimLeft (trimLeft s) = trimLeft s.
Proof.
  induction s as [s IH] using string_len_ind. destruct s as [|c1 s1]; [done|]. simpl.
  destruct (is_space1 c1) eqn:E1; [apply IH; simpl; lia|].
  destruct s1 as [|c2 s2]; [simpl; by rewrite E1|].
  destruct (is_space2 c1 c2) eqn:E2; [apply IH; simpl; lia|].
  destruct s2 as [|c3 s3]; [simpl; by rewrite E1, E2|].
  destruct (is_space3 c1 c2 c3) eqn:E3; [apply IH; simpl; lia|].
  simpl. by rewrite E1, E2, E3.
Qed.

Lemma TrimSpace_empty_iff s : TrimSpace s = EmptyString ↔ Blank s.
Proof.
  unfold TrimSpace. rewrite <- trimLeft_empty_iff. pose proof (trimLeft_idemp s) as Hi.
  destruct (trimLeft s) as [|c t] eqn:E; [done|]. split; [|done].
  simpl trimRight. change (match trimLeft (String c t) with
                           | EmptyString => EmptyString
                           | String _ _ => String c (trimRight t) end = EmptyString → String c t = EmptyString).
  by rewrite Hi.
Qed.

End GoString.

(** [validateKey] of package memory (key_validation.go). *)
Module KeyValidation.

Definition ErrInvalidKey : error := ErrorNew "memory: invalid key".

Definition validateKey (key : string) : option error :=
  if bool_decide (GoString.TrimSpace key = EmptyString) then Some ErrInvalidKey else None.

Lemma validateKey_None key : validateKey key = None ↔ ¬ GoString.Blank key.
Proof.
  unfold validateKey. rewrite <- GoString.TrimSpace_empty_iff. case_bool_decide; naive_solver.
Qed.

Lemma validateKey_Some key e :
  validateKey key = Some e ↔ e = ErrInvalidKey ∧ GoString.Blank key.
Proof.
  unfold validateKey. rewrite <- GoString.TrimSpace_empty_iff. case_bool_decide; naive_solver.
Qed.

End KeyValidation.
