(* ===== verification/Numeric.v ===== *)
(** * Numeric: memory/numeric.go

    Conversions between the float quantities of the bucket algorithms and the
    integer fields of a result. *)

From Stdlib Require Import ZArith Lia Bool.
From stdpp Require Import base tactics.
From S2P Require Import Prelude Float64 FloatFacts GoTime.

#[local] Open Scope Z_scope.

Module Numeric.

Definition isFinite (value : spec_float) : bool :=
  negb (F64.is_nan value) && negb (F64.is_inf value).

Definition remainingFloor `{GoArch} (value : spec_float) : Z :=
  if F64.le value (F64.of_int 0) then 0 else int64_of_float value.

Definition maxDuration : Duration := 2 ^ 63 - 1.

(** The untyped constant [1e-6] as a [float64]. *)
Definition floatEpsilonNanos : spec_float := F64.div (F64.of_int 1) (F64.of_int 1000000).

Definition durationFromSecondsCeil `{GoArch} (seconds : spec_float) : Duration :=
  if F64.le seconds (F64.of_int 0) then 0
  else
    let nanos := F64.mul seconds (F64.of_int GoTime.Second) in
    if F64.ge nanos (F64.of_int maxDuration) then maxDuration
    else
      let rounded := F64.round nanos in
      if F64.lt (F64.abs (F64.sub nanos rounded)) floatEpsilonNanos
      then int64_of_float rounded
      else int64_of_float (F64.ceil nanos).

(** ** Facts *)

Lemma isFinite_fin x : F64.valid x = true → isFinite x = true ↔ fin x.
Proof. by destruct x. Qed.

Lemma of_int_0 : F64.of_int 0 = S754_zero false.
Proof. reflexivity. Qed.

Lemma le_0 x : num x → F64.le x (F64.of_int 0) = true ↔ fval x <= 0.
Proof. intros. rewrite of_int_0, le_fval by fin_side. done. Qed.

(** Non-positive values leave nothing; positive ones are rounded down. *)
Lemma remainingFloor_spec `{GoArch} v :
  fin v → fval v < 2 ^ 63 * unit_sc → remainingFloor v = Z.max 0 (fval v / unit_sc).
Proof.
  intros Hf Hlt. pose proof unit_sc_pos as Hu. unfold remainingFloor.
  destruct (F64.le v (F64.of_int 0)) eqn:E.
  - apply le_0 in E; [|fin_side]. destruct (decide (fval v = 0)) as [->|].
    + by rewrite Z.div_0_l by lia.
    + assert (fval v / unit_sc < 0) by (apply Z.div_lt_upper_bound; lia). lia.
  - apply not_true_iff_false in E. rewrite le_0 in E by fin_side.
    rewrite int64_of_float_spec by (done || lia).
    assert (0 <= fval v / unit_sc) by (apply Z.div_pos; lia). lia.
Qed.

Lemma two63_exact : fin (F64.of_int maxDuration) ∧ fval (F64.of_int maxDuration) = 2 ^ 63 * unit_sc.
Proof.
  replace (F64.of_int maxDuration) with (binary_normalize F64.prec F64.emax 1 63 false)
    by reflexivity.
  destruct (binary_normalize_exact 1 63 false) as [Hf ->]; [lia|lia| |].
  - rewrite sc_nonneg_exp by lia. rewrite Z.mul_assoc. apply int_lt_inf. by vm_compute.
  - split; [done|]. rewrite sc_nonneg_exp by lia. ring.
Qed.

(** A finite non-negative float is an integer, or below 2^52. *)
Lemma fin_int_or_small x :
  fin x → 0 <= fval x →
  (∃ q, fval x = q * unit_sc) ∨ 2 * fval x < 2 ^ 53 * unit_sc.
Proof.
  intros Hf Hp. destruct (fin_nonneg x Hf Hp) as [->|(m & e & -> & Hb)]; [left; by exists 0|].
  destruct (Z.le_gt_cases 0 e).
  - left. exists (Z.pos m * 2 ^ e). simpl. rewrite sc_nonneg_exp by done. ring.
  - right. simpl. by apply frac_small.
Qed.

(** The tolerance lies between [2^-20] and one half. *)
Lemma eps_bounds : num floatEpsilonNanos ∧ sc (-20) <= fval floatEpsilonNanos <= sc (-1).
Proof.
  pose proof unit_sc_pos as Hu.
  destruct (of_int_exact 1) as [H1 H1v]; [lia|].
  destruct (of_int_exact 1000000) as [Hm Hmv]; [lia|].
  destruct (float_of_mantissa 1 (-20)) as (z & Hz & Hzv); [lia|lia| |].
  { pose proof (sc_mono (-20) 0 ltac:(lia)) as Hs. change (sc 0) with unit_sc in Hs.
    pose proof (int_lt_inf 1 ltac:(lia)). lia. }
  destruct (float_of_mantissa 1 (-1)) as (h & Hh & Hhv); [lia|lia| |].
  { pose proof (sc_mono (-1) 0 ltac:(lia)) as Hs. change (sc 0) with unit_sc in Hs.
    pose proof (int_lt_inf 1 ltac:(lia)). lia. }
  pose proof (unit_sc_split (-20) ltac:(lia)) as Hs20. pose proof (unit_sc_split (-1) ltac:(lia)) as Hs1.
  change (2 ^ (- -20)) with 1048576 in Hs20. change (2 ^ (- -1)) with 2 in Hs1.
  pose proof (sc_pos (-20) ltac:(lia)). pose proof (sc_pos (-1) ltac:(lia)).
  rewrite Z.mul_1_l in Hzv, Hhv. rewrite <- Hzv, <- Hhv. split; [apply div_num; fin_side; lia|].
  split; [apply div_ge|apply div_le]; fin_side; rewrite ?Hzv, ?Hhv, Hmv, ?H1v; nia.
Qed.

Lemma eps_fin : fin floatEpsilonNanos ∧ 0 < fval floatEpsilonNanos < unit_sc.
Proof.
  destruct eps_bounds as [Hn He]. pose proof unit_sc_pos as Hu.
  pose proof (sc_pos (-20) ltac:(lia)). pose proof (unit_sc_split (-1) ltac:(lia)) as Hs1.
  change (2 ^ (- -1)) with 2 in Hs1. split; [|lia]. apply num_fin; [exact Hn|].
  pose proof (int_lt_inf 1 ltac:(lia)). lia.
Qed.

(** The tolerance test bounds the exact distance, whatever the subtraction
    rounds to. *)
Lemma close_spec x y :
  fin x → fin y → F64.lt (F64.abs (F64.sub x y)) floatEpsilonNanos = true →
  Z.abs (fval x - fval y) < fval floatEpsilonNanos.
Proof.
  intros Hx Hy Hlt. destruct eps_fin as [He Hev].
  pose proof (sub_num x y Hx Hy) as Hn.
  destruct (abs_spec _ Hn) as [Hna Hva].
  apply lt_fval in Hlt; [|fin_side..]. rewrite Hva in Hlt.
  destruct (Z.le_gt_cases (fval floatEpsilonNanos) (fval x - fval y)) as [Hge|].
  { apply (sub_ge x y floatEpsilonNanos) in Hge; fin_side. lia. }
  destruct (Z.le_gt_cases (fval x - fval y) (- fval floatEpsilonNanos)) as [Hle|]; [|lia].
  destruct (opp_spec floatEpsilonNanos) as [Hno Ho]; fin_side.
  rewrite <- Ho in Hle. apply (sub_le x y) in Hle; fin_side. lia.
Qed.

Definition nanosOf (seconds : spec_float) : spec_float :=
  F64.mul seconds (F64.of_int GoTime.Second).

Lemma nanosOf_num s : fin s → 0 <= fval s → num (nanosOf s) ∧ 0 <= fval (nanosOf s).
Proof.
  intros Hf Hp. destruct GoTime.billion_exact as [Hb Hbv]. pose proof unit_sc_pos.
  split; [by apply mul_num|]. apply (mul_ge _ _ (S754_zero false)); fin_side.
  unfold GoTime.Second. rewrite Hbv. simpl. nia.
Qed.

Section Duration.
Context `{GoArch} (s : spec_float).
Hypotheses (Hf : fin s) (Hpos : 0 < fval s).

Lemma duration_clamped :
  2 ^ 63 * unit_sc <= fval (nanosOf s) → durationFromSecondsCeil s = maxDuration.
Proof.
  intros Hbig. destruct (nanosOf_num s Hf) as [Hn _]; [lia|]. destruct two63_exact as [H63 H63v].
  unfold durationFromSecondsCeil. fold (nanosOf s).
  assert (F64.le s (F64.of_int 0) = false) as ->
    by (apply not_true_iff_false; rewrite le_0 by fin_side; lia).
  assert (F64.ge (nanosOf s) (F64.of_int maxDuration) = true) as ->; [|done].
  apply le_fval; fin_side. lia.
Qed.

(** Below the clamp: within the tolerance below the computed number of
    nanoseconds, and less than one nanosecond above it. *)
Lemma duration_close :
  fval (nanosOf s) < 2 ^ 63 * unit_sc →
  0 <= durationFromSecondsCeil s < 2 ^ 63 ∧
  fval (nanosOf s) - fval floatEpsilonNanos < durationFromSecondsCeil s * unit_sc
    < fval (nanosOf s) + unit_sc.
Proof.
  intros Hsmall. destruct (nanosOf_num s Hf) as [Hn Hnp]; [lia|].
  destruct two63_exact as [H63 H63v]. pose proof unit_sc_pos as Hu.
  assert (fin (nanosOf s)) as Hnf.
  { apply num_fin; [done|]. pose proof (fin_bound _ H63). lia. }
  unfold durationFromSecondsCeil. fold (nanosOf s).
  assert (F64.le s (F64.of_int 0) = false) as ->
    by (apply not_true_iff_false; rewrite le_0 by fin_side; lia).
  assert (F64.ge (nanosOf s) (F64.of_int maxDuration) = false) as ->.
  { apply le_false_fval; fin_side. lia. }
  set (V := fval (nanosOf s)) in *. destruct eps_fin as [_ He].
  pose proof (fin_int_or_small (nanosOf s) Hnf Hnp) as Hint. fold V in Hint.
  destruct (F64.lt _ floatEpsilonNanos) eqn:E.
  - destruct (round_spec (nanosOf s) Hnf Hnp) as [Hrf Hrv]. fold V in Hrv.
    apply close_spec in E; [|done..]. fold V in E. rewrite Hrv in E.
    set (q := (2 * V + unit_sc) / (2 * unit_sc)) in *.
    assert (0 <= q) by (apply Z.div_pos; lia).
    assert (q < 2 ^ 63) as Hq.
    { destruct Hint as [(k & Hk)|Hlt].
      - assert (k < 2 ^ 63) by nia. assert (q < k + 1); [|lia].
        apply Z.div_lt_upper_bound; lia.
      - assert (q < 2 ^ 53); [|lia]. apply Z.div_lt_upper_bound; lia. }
    rewrite int64_of_float_spec; [|done|nia|nia]. rewrite Hrv, Z.div_mul by lia. lia.
  - destruct (ceil_spec (nanosOf s) Hnf Hnp) as [Hcf Hcv]. fold V in Hcv.
    set (q := - (- V / unit_sc)) in *.
    assert (V <= q * unit_sc < V + unit_sc) as Hq.
    { pose proof (Z.div_mod (- V) unit_sc ltac:(lia)).
      pose proof (Z.mod_pos_bound (- V) unit_sc Hu). unfold q. lia. }
    assert (q < 2 ^ 63) as Hq63.
    { destruct Hint as [(k & Hk)|Hlt]; [assert (k < 2 ^ 63) by nia; nia|nia]. }
    rewrite int64_of_float_spec; [|done|nia|nia]. rewrite Hcv, Z.div_mul by lia. nia.
Qed.

Lemma duration_range : 0 <= durationFromSecondsCeil s <= maxDuration.
Proof.
  destruct (Z.le_gt_cases (2 ^ 63 * unit_sc) (fval (nanosOf s))) as [Hb|Hb].
  - rewrite duration_clamped by done. unfold maxDuration. lia.
  - apply duration_close in Hb. unfold maxDuration. lia.
Qed.

End Duration.

(** How a number of seconds (possibly infinite) becomes a delay: clamped at
    the largest duration; below it less than one nanosecond above and less
    than the tolerance below the computed number of nanoseconds. *)
Definition delay_of (seconds : spec_float) (d : Duration) : Prop :=
  0 <= d <= maxDuration ∧
  (2 ^ 63 * unit_sc <= fval (nanosOf seconds) → d = maxDuration) ∧
  (fval (nanosOf seconds) < 2 ^ 63 * unit_sc →
     fval (nanosOf seconds) - fval floatEpsilonNanos < d * unit_sc
       < fval (nanosOf seconds) + unit_sc).

Lemma duration_delay `{GoArch} s :
  num s → 0 <= fval s → delay_of s (durationFromSecondsCeil s).
Proof.
  intros Hn Hp. pose proof unit_sc_pos. destruct eps_fin as [_ He].
  destruct (num_nonneg_cases s Hn Hp) as [Hf| ->].
  - destruct (Z.eq_dec (fval s) 0) as [Hz|Hz].
    + destruct GoTime.billion_exact as [Hb _].
      destruct (mul_zero_l s (F64.of_int GoTime.Second) Hf Hb Hz) as [_ Hv].
      unfold delay_of. fold (nanosOf s) in Hv. rewrite Hv. unfold durationFromSecondsCeil.
      rewrite (proj2 (le_0 s Hn)) by lia. unfold maxDuration. lia.
    + split_and!; [apply duration_range; [done|lia]..| |].
      * intros Hb. apply duration_clamped; [done|lia|done].
      * intros Hb. apply duration_close; [done|lia|done].
  - split_and!; [vm_compute; congruence..| |]; intros Hb; [vm_compute; reflexivity|exfalso].
    revert Hb. vm_compute. congruence.
Qed.

Lemma delay_positive s d :
  delay_of s d → fval floatEpsilonNanos <= fval (nanosOf s) → 0 < d.
Proof.
  intros (_ & Hc & Hs) He. pose proof unit_sc_pos.
  destruct (Z.le_gt_cases (2 ^ 63 * unit_sc) (fval (nanosOf s))) as [Hb|Hb].
  - rewrite Hc by done. unfold maxDuration. lia.
  - apply Hs in Hb. nia.
Qed.

(** A wait that is computed as less than the tolerance is no wait at all. *)
Lemma duration_zero `{GoArch} s :
  num s → 0 <= fval s →
  durationFromSecondsCeil s = 0 ↔ fval (nanosOf s) < fval floatEpsilonNanos.
Proof.
  intros Hn Hp. pose proof (duration_delay s Hn Hp) as Hd. split.
  { intros Hz. rewrite Hz in Hd. pose proof (delay_positive s 0 Hd). lia. }
  intros Hlt. destruct eps_bounds as [Hen He]. destruct eps_fin as [Hef _]. pose proof unit_sc_pos as Hu.
  pose proof (unit_sc_split (-1) ltac:(lia)) as Hs1. change (2 ^ (- -1)) with 2 in Hs1.
  destruct (num_nonneg_cases s Hn Hp) as [Hf| ->]; [|exfalso; revert Hlt; vm_compute; congruence].
  destruct (nanosOf_num s Hf Hp) as [Hnn Hn0]. destruct two63_exact as [H63 H63v].
  assert (fin (nanosOf s)) as Hnf by (eapply (fin_between _ (S754_zero false) floatEpsilonNanos); fin_side; cbn [fval]; lia).
  unfold durationFromSecondsCeil. destruct (F64.le s (F64.of_int 0)); [done|]. fold (nanosOf s).
  assert (F64.ge (nanosOf s) (F64.of_int maxDuration) = false) as -> by (apply le_false_fval; fin_side; lia).
  destruct (round_spec (nanosOf s) Hnf Hn0) as [Hrf Hrv]. rewrite Z.div_small in Hrv by lia.
  set (V := nanosOf s) in *. set (q := F64.round V) in *.
  assert (fval (F64.sub V q) <= fval V) as Hle by (apply sub_le; fin_side; lia).
  assert (0 <= fval (F64.sub V q)) as Hge by (apply (sub_ge _ _ (S754_zero false)); fin_side; cbn [fval]; lia).
  destruct (abs_spec (F64.sub V q) (sub_num V q Hnf Hrf)) as [Han Hav].
  assert (F64.lt (F64.abs (F64.sub V q)) floatEpsilonNanos = true) as -> by (apply lt_fval; fin_side; lia).
  rewrite int64_of_float_spec by (exact Hrf || lia). by rewrite Hrv.
Qed.

(** The parameters the constructors of the bucket limiters accept: a finite
    capacity of at least one and a finite positive rate. *)
Definition params_ok (capacity rate : spec_float) : Prop :=
  fin capacity ∧ unit_sc <= fval capacity ∧ fin rate ∧ 0 < fval rate.

Lemma int_params_ok c r :
  1 <= c < 2 ^ 53 → 1 <= r < 2 ^ 53 →
  params_ok (F64.of_int c) (F64.of_int r) ∧ fval (F64.of_int c) < 2 ^ 53 * unit_sc.
Proof.
  intros Hc Hr. destruct (of_int_exact c) as [Hcf Hcv]; [lia|].
  destruct (of_int_exact r) as [Hrf Hrv]; [lia|]. pose proof unit_sc_pos.
  unfold params_ok. rewrite Hcv, Hrv. split_and!; [done|nia|done|nia|nia].
Qed.

End Numeric.
