(* ===== verification/Hash.v ===== *)
(** * Hash: memory/hash.go and the choice of a shard

    [fnv1a64] on 64-bit words, and why masking with [len - 1] selects a valid
    shard, uniformly over the residues, when the count is a power of two. *)

From Stdlib Require Import ZArith Lia Bool.
From stdpp Require Import base strings list.
From S2P Require Import Prelude GoString.

#[local] Open Scope Z_scope.

Module Hash.

Definition offset64 : Z := 14695981039346656037.
Definition prime64 : Z := 1099511628211.

(** uint64 multiplication. *)
Definition mul64 (a b : Z) : Z := (a * b) mod 2 ^ 64.

Fixpoint fnv1a64_loop (h : Z) (s : string) : Z :=
  match s with
  | EmptyString => h
  | String c s' => fnv1a64_loop (mul64 (Z.lxor h (GoString.byte_val c)) prime64) s'
  end.

Definition fnv1a64 (s : string) : Z := fnv1a64_loop offset64 s.

(** [fnv1a64(key) & uint64(n-1)]. *)
Definition shardIndex (n : Z) (key : string) : nat :=
  Z.to_nat (Z.land (fnv1a64 key) (n - 1)).

Lemma fnv1a64_loop_range h s : 0 <= h < 2 ^ 64 → 0 <= fnv1a64_loop h s < 2 ^ 64.
Proof.
  revert h. induction s as [|c s IH]; intros h Hh; simpl; [done|].
  apply IH. unfold mul64. apply Z.mod_pos_bound. lia.
Qed.

Lemma fnv1a64_range s : 0 <= fnv1a64 s < 2 ^ 64.
Proof. apply fnv1a64_loop_range. unfold offset64. lia. Qed.

(** Masking is reduction modulo the shard count. *)
Lemma mask_pow2 h k : 0 <= k → Z.land h (2 ^ k - 1) = h mod 2 ^ k.
Proof.
  intros Hk. rewrite <- Z.land_ones by done. f_equal. rewrite Z.ones_equiv. lia.
Qed.

Lemma shardIndex_mod key k :
  0 <= k → Z.of_nat (shardIndex (2 ^ k) key) = fnv1a64 key mod 2 ^ k.
Proof.
  intros Hk. unfold shardIndex. rewrite mask_pow2 by done. apply Z2Nat.id, Z.mod_pos_bound, Z.pow_pos_nonneg; lia.
Qed.

End Hash.
