(* ===== verification/Options.v ===== *)
(** * Options: memory/options.go, memory/eviction.go, memory/clock.go

    The configuration shared by the three in-memory limiters: functional
    options, defaults and validation (which panics on bad values). *)

From Stdlib Require Import ZArith Lia Bool.
From stdpp Require Import base strings list.
From S2P Require Import Prelude Core GoTime.

#[local] Open Scope Z_scope.

Module Options.

(** [EvictionPolicy] is an [int]; two values are named. *)
Definition EvictReject : Z := 0.
Definition EvictLRU : Z := 1.

Definition ErrMaxKeysExceeded : error := ErrorNew "memory: max keys exceeded".
Definition cleanupBatchSize : nat := 100.
Definition defaultShardCount : Z := 64.
Definition maxShardCount : Z := 1024.

(** The values of interface type [Clock]; nil is [None] in a field. *)
Inductive Clock :=
| realClock
| injectedClock (id : nat).

Record options := mkOptions {
  maxKeys : Z;
  keyTTL : Duration;
  cleanupInterval : Duration;
  clock : option Clock;
  eviction : Z;
  shards : Z;
  sink : option nat  (** the registered [MetricSink], by identity *)
}.

Definition defaultOptions : options :=
  mkOptions 0 0 0 (Some realClock) EvictReject defaultShardCount None.

Definition applyDefaults (o : options) : options :=
  if (0 <? keyTTL o) && (cleanupInterval o =? 0)
  then mkOptions (maxKeys o) (keyTTL o) GoTime.Minute (clock o) (eviction o) (shards o) (sink o)
  else o.

Definition validate (o : options) : outcome unit :=
  panic_if (maxKeys o <? 0) "memory: maxKeys must be >= 0" (
  panic_if (keyTTL o <? 0) "memory: keyTTL must be >= 0" (
  panic_if (cleanupInterval o <? 0) "memory: cleanupInterval must be >= 0" (
  panic_if (bool_decide (clock o = None)) "memory: clock must not be nil" (
  panic_if ((eviction o <? EvictReject) || (EvictLRU <? eviction o))
    "memory: invalid eviction policy" (
  panic_if ((shards o <? 1) || (maxShardCount <? shards o)
            || negb (Z.land (shards o) (shards o - 1) =? 0))
    "memory: shardCount must be a power of two in [1, 1024]" (
  Returns tt)))))).

#[export] Instance Clock_eq_dec : EqDecision Clock.
Proof. solve_decision. Defined.

(** [type Option func *options]. *)
Definition Option : Type := options → options.

Definition WithMaxKeys (n : Z) : Option := fun o =>
  mkOptions n (keyTTL o) (cleanupInterval o) (clock o) (eviction o) (shards o) (sink o).
Definition WithKeyTTL (d : Duration) : Option := fun o =>
  mkOptions (maxKeys o) d (cleanupInterval o) (clock o) (eviction o) (shards o) (sink o).
Definition WithCleanupInterval (d : Duration) : Option := fun o =>
  mkOptions (maxKeys o) (keyTTL o) d (clock o) (eviction o) (shards o) (sink o).
Definition WithClock (c : option Clock) : Option := fun o =>
  mkOptions (maxKeys o) (keyTTL o) (cleanupInterval o) c (eviction o) (shards o) (sink o).
Definition WithEvictionPolicy (p : Z) : Option := fun o =>
  mkOptions (maxKeys o) (keyTTL o) (cleanupInterval o) (clock o) p (shards o) (sink o).
Definition WithShardCount (n : Z) : Option := fun o =>
  mkOptions (maxKeys o) (keyTTL o) (cleanupInterval o) (clock o) (eviction o) n (sink o).
Definition WithMetricSink (s : option nat) : Option := fun o =>
  mkOptions (maxKeys o) (keyTTL o) (cleanupInterval o) (clock o) (eviction o) (shards o) s.

(** The sequence every constructor runs: defaults, the options in order, the
    derived defaults, validation. *)
Definition buildOptions (opts : list Option) : outcome options :=
  let o := applyDefaults (foldl (fun o opt => opt o) defaultOptions opts) in
  match validate o with
  | Returns _ => Returns o
  | Panics msg => Panics msg
  end.

(** ** What a validated configuration satisfies *)

Record options_ok (o : options) : Prop := {
  ok_maxKeys : 0 <= maxKeys o;
  ok_keyTTL : 0 <= keyTTL o;
  ok_cleanup : 0 <= cleanupInterval o;
  ok_clock : clock o ≠ None;
  ok_eviction : eviction o = EvictReject ∨ eviction o = EvictLRU;
  ok_shards : ∃ k, 0 <= k <= 10 ∧ shards o = 2 ^ k
}.

(** The bit trick decides powers of two on the accepted range. *)
Lemma pow2_test n :
  1 <= n <= 1024 → Z.land n (n - 1) = 0 ↔ ∃ k, 0 <= k <= 10 ∧ n = 2 ^ k.
Proof.
  intros Hn.
  assert (forallb (fun i => let n := Z.of_nat i in
     eqb (Z.land n (n - 1) =? 0) (existsb (fun k => n =? 2 ^ Z.of_nat k) (seq 0 11))) (seq 1 1024) = true)
    as Hall by by vm_compute.
  rewrite forallb_forall in Hall. specialize (Hall (Z.to_nat n)).
  rewrite Z2Nat.id in Hall by lia. specialize (Hall ltac:(apply in_seq; lia)).
  apply eqb_prop in Hall. rewrite <- Z.eqb_eq, Hall, existsb_exists. split.
  - intros (k & Hk%in_seq & ->%Z.eqb_eq). exists (Z.of_nat k). split; [lia|done].
  - intros (k & Hk & ->). exists (Z.to_nat k). rewrite Z2Nat.id by lia.
    split; [apply in_seq; lia|apply Z.eqb_refl].
Qed.

Lemma validate_ok o : validate o = Returns tt ↔ options_ok o.
Proof.
  unfold validate. rewrite !panic_if_Returns. unfold EvictReject, EvictLRU, maxShardCount. split.
  - intros (H1 & H2 & H3 & H4 & H5 & H6 & _). apply bool_decide_eq_false in H4.
    apply orb_false_iff in H5 as [H5 H5']. apply orb_false_iff in H6 as [H6 H6'].
    apply orb_false_iff in H6 as [H6 H6'']. apply negb_false_iff, Z.eqb_eq in H6'.
    constructor; try lia; [done|unfold EvictReject, EvictLRU; lia|]. apply pow2_test; [lia|done].
  - intros [H1 H2 H3 H4 H5 (k & Hk & Hs)]. unfold EvictReject, EvictLRU in H5.
    assert (1 <= shards o <= 1024) as Hr.
    { rewrite Hs. split; [pose proof (Z.pow_pos_nonneg 2 k); lia|].
      change 1024 with (2 ^ 10). apply Z.pow_le_mono_r; lia. }
    assert (Z.land (shards o) (shards o - 1) = 0) as Hl by (apply pow2_test; eauto).
    rewrite Hl. split_and!; try lia; [|by zbool; simpl; lia..|done].
    by apply bool_decide_eq_false.
Qed.

Lemma buildOptions_ok opts o : buildOptions opts = Returns o → options_ok o.
Proof.
  unfold buildOptions. destruct (validate _) as [[]|] eqn:E; [|done].
  intros [= <-]. by apply validate_ok.
Qed.

End Options.
