(* ===== verification/ShardedStore.v ===== *)
(** * ShardedStore: memory/sharded_store.go and memory/state_store.go

    The per-key state store, as one goroutine sees it: every operation with
    all its effects on the shards, the [live] counter, the eviction counter
    and the sweep clock.  Lock and unlock have no effect on the data and are
    not represented here; what other goroutines may do at the points where
    the lock is released is modelled in Concurrent.v.

    A shard's [container/list] is the list of its elements from front to
    back, each an identity (the pointer [*list.Element]) with its value;
    [orderItems] maps keys to identities, as in the code.  A state pointer
    stored in an entry is represented by the state itself, and the function
    run by [withState] returns the state it leaves behind, which is written
    back into the entry: the entry and the caller share one object.

    Go does not specify the order in which [range] visits a map.  The
    function [ord] is that order: a parameter, constrained by
    [range_order_ok] to visit every key exactly once. *)

From Stdlib Require Import ZArith Lia Bool.
From stdpp Require Import base gmap strings list.
From S2P Require Import Prelude Core GoTime Hash Options.

#[local] Open Scope Z_scope.

Module Store.

Section Store.
Context {T : Type}.

Record keyEntry := mkKeyEntry { value : T; lastSeen : Time }.
Record lruEntry := mkLruEntry { lruKey : string; lruValue : T; lruLastSeen : Time }.

Record shard := mkShard {
  items : gmap string keyEntry;
  orderItems : gmap string nat;
  order : list (nat * lruEntry);
  nextElem : nat;  (** the next element identity: allocation *)
  lastCleanup : Time
}.

Record shardedStore := mkStore {
  shards : list shard;
  opts : Options.options;
  live : Z;
  lastSweep : Time;
  evicts : Z
}.

(** The visiting order of [range sh.items], per shard. *)
Definition range_order : Type := nat → gmap string keyEntry → list string.

Definition range_order_ok (ord : range_order) : Prop :=
  ∀ i m, ord i m ≡ₚ (map_to_list m).*1.

Definition emptyShard : shard := mkShard ∅ ∅ [] 0 GoTime.zeroTime.

Definition newShardedStoreWithShards (o : Options.options) (shardCount : Z) : shardedStore :=
  mkStore (replicate (Z.to_nat shardCount) emptyShard) o 0 GoTime.zeroTime 0.

Definition newShardedStore (o : Options.options) : shardedStore :=
  newShardedStoreWithShards o (Options.shards o).

(** [newStateStore]: any other policy panics. *)
Definition newStateStore (o : Options.options) : outcome shardedStore :=
  if (Options.eviction o =? Options.EvictReject) || (Options.eviction o =? Options.EvictLRU)
  then Returns (newShardedStore o)
  else Panics "memory: invalid eviction policy".

Definition isLRU (s : shardedStore) : bool := Options.eviction (opts s) =? Options.EvictLRU.

Definition shardFor (s : shardedStore) (key : string) : nat :=
  Hash.shardIndex (Z.of_nat (length (shards s))) key.

Definition shardAt (s : shardedStore) (i : nat) : shard := default emptyShard (shards s !! i).

(** Write back shard [i] together with the shared counter. *)
Definition setShard (s : shardedStore) (i : nat) (shl : shard * Z) : shardedStore :=
  mkStore (<[i := shl.1]> (shards s)) (opts s) shl.2 (lastSweep s) (evicts s).

Definition withLive (s : shardedStore) (n : Z) : shardedStore :=
  mkStore (shards s) (opts s) n (lastSweep s) (evicts s).

(** ** Lazy cleanup *)

Definition isExpired (o : Options.options) (now seen : Time) : bool :=
  Options.keyTTL o <=? GoTime.Sub now seen.

(** The early returns shared by [cleanupMap] and [cleanupLRU]. *)
Definition cleanupDue (o : Options.options) (now last : Time) : bool :=
  negb ((Options.keyTTL o <=? 0) || (Options.cleanupInterval o <=? 0))
  && negb (GoTime.Sub now last <? Options.cleanupInterval o).

(** The body of the second loop of [cleanupMap], for one key. *)
Definition deleteItem (shl : shard * Z) (key : string) : shard * Z :=
  let '(sh, lv) := shl in
  match items sh !! key with
  | Some _ =>
      (mkShard (delete key (items sh)) (orderItems sh) (order sh) (nextElem sh) (lastCleanup sh),
       lv - 1)
  | None => (sh, lv)
  end.

Definition itemExpired (o : Options.options) (now : Time) (m : gmap string keyEntry)
    (key : string) : bool :=
  match m !! key with
  | Some entry => isExpired o now (lastSeen entry)
  | None => false
  end.

Definition cleanupMap (o : Options.options) (visit : list string) (now : Time) (shl : shard * Z)
    : shard * Z :=
  let '(sh, lv) := shl in
  if cleanupDue o now (lastCleanup sh) then
    let sh := mkShard (items sh) (orderItems sh) (order sh) (nextElem sh) now in
    let expired :=
      filter (fun key => itemExpired o now (items sh) key = true)
        (take Options.cleanupBatchSize visit) in
    foldl deleteItem (sh, lv) expired
  else shl.

(** [order.Remove(elem)]. *)
Definition listRemove (id : nat) (l : list (nat * lruEntry)) : list (nat * lruEntry) :=
  filter (fun p => p.1 ≠ id) l.

(** The body of the second loop of [cleanupLRU], for one element. *)
Definition deleteElem (shl : shard * Z) (elem : nat * lruEntry) : shard * Z :=
  let '(sh, lv) := shl in
  match orderItems sh !! lruKey elem.2 with
  | Some _ =>
      (mkShard (items sh) (delete (lruKey elem.2) (orderItems sh)) (listRemove elem.1 (order sh))
         (nextElem sh) (lastCleanup sh),
       lv - 1)
  | None => (sh, lv)
  end.

Definition cleanupLRU (o : Options.options) (now : Time) (shl : shard * Z) : shard * Z :=
  let '(sh, lv) := shl in
  if cleanupDue o now (lastCleanup sh) then
    let sh := mkShard (items sh) (orderItems sh) (order sh) (nextElem sh) now in
    let expired :=
      filter (fun elem => isExpired o now (lruLastSeen elem.2) = true)
        (take Options.cleanupBatchSize (order sh)) in
    foldl deleteElem (sh, lv) expired
  else shl.

(** One shard's cleanup, in the mode of the store. *)
Definition cleanup (ord : range_order) (s : shardedStore) (i : nat) (now : Time) : shardedStore :=
  let sh := shardAt s i in
  if isLRU s then setShard s i (cleanupLRU (opts s) now (sh, live s))
  else setShard s i (cleanupMap (opts s) (ord i (items sh)) now (sh, live s)).

Definition sweepExpired (ord : range_order) (s : shardedStore) (now : Time) : shardedStore :=
  if (Options.keyTTL (opts s) <=? 0) || (Options.cleanupInterval (opts s) <=? 0) then s
  else if GoTime.Sub now (lastSweep s) <? Options.cleanupInterval (opts s) then s
  else
    let s := mkStore (shards s) (opts s) (live s) now (evicts s) in
    foldl (fun s i => cleanup ord s i now) s (seq 0 (length (shards s))).

(** ** Eviction *)

Definition evictFrom (s : shardedStore) (i : nat) : bool * shardedStore :=
  let sh := shardAt s i in
  match last (order sh) with
  | None => (false, s)
  | Some elem =>
      let sh' := mkShard (items sh) (delete (lruKey elem.2) (orderItems sh))
                   (listRemove elem.1 (order sh)) (nextElem sh) (lastCleanup sh) in
      (true, mkStore (<[i := sh']> (shards s)) (opts s) (live s - 1) (lastSweep s) (evicts s + 1))
  end.

Fixpoint evictFirst (s : shardedStore) (self : nat) (candidates : list nat) : shardedStore :=
  match candidates with
  | [] => s
  | j :: rest =>
      if Nat.eqb j self then evictFirst s self rest
      else let '(evicted, s') := evictFrom s j in
           if evicted then s' else evictFirst s' self rest
  end.

Definition evictAnyOther (s : shardedStore) (self : nat) : shardedStore :=
  evictFirst s self (seq 0 (length (shards s))).

(** ** Reserving a slot

    The loop of [reserveSlot]; [None] when the fuel runs out.  With one
    goroutine the compare-and-swap succeeds. *)
Fixpoint reserveLoop (fuel : nat) (ord : range_order) (swept : bool)
    (s : shardedStore) (i : nat) (now : Time) : option (bool * shardedStore) :=
  match fuel with
  | O => None
  | S fuel =>
      let n := live s in
      if n <? Options.maxKeys (opts s) then Some (true, withLive s (n + 1))
      else if isLRU s then
        let '(evicted, s1) := evictFrom s i in
        if evicted then reserveLoop fuel ord swept s1 i now
        else
          let s2 := if swept then s1 else sweepExpired ord s1 now in
          let s3 := if Options.maxKeys (opts s2) <=? live s2 then evictAnyOther s2 i else s2 in
          reserveLoop fuel ord true s3 i now
      else if swept then Some (false, s)
      else reserveLoop fuel ord true (sweepExpired ord s now) i now
  end.

(** Enough for every store whose counter counts its keys (see
    [reserveSlot_total]): one iteration that evicts, one that sweeps, one
    that takes the slot. *)
Definition reserve_fuel : nat := 4.

Definition reserveSlot (ord : range_order) (s : shardedStore) (i : nat) (now : Time)
    : option (bool * shardedStore) :=
  if Options.maxKeys (opts s) <=? 0 then Some (true, withLive s (live s + 1))
  else reserveLoop reserve_fuel ord false s i now.

(** ** Lookup and creation *)

Definition touchItem (sh : shard) (key : string) (entry : keyEntry) (now : Time) : shard :=
  mkShard (<[key := mkKeyEntry (value entry) now]> (items sh)) (orderItems sh) (order sh)
    (nextElem sh) (lastCleanup sh).

(** The element with identity [id]. *)
Definition elemAt (id : nat) (l : list (nat * lruEntry)) : option lruEntry :=
  match list_find (fun p => p.1 = id) l with
  | Some (_, p) => Some p.2
  | None => None
  end.

(** [entry.lastSeen = now; order.MoveToFront(elem)]. *)
Definition touchElem (sh : shard) (id : nat) (entry : lruEntry) (now : Time) : shard :=
  mkShard (items sh) (orderItems sh)
    ((id, mkLruEntry (lruKey entry) (lruValue entry) now) :: listRemove id (order sh))
    (nextElem sh) (lastCleanup sh).

Definition replaceShard (s : shardedStore) (i : nat) (sh : shard) : shardedStore :=
  setShard s i (sh, live s).

Definition getOrCreateMap (ord : range_order) (create : Time → T)
    (s : shardedStore) (i : nat) (key : string) (now : Time)
    : option (option T * shardedStore) :=
  match items (shardAt s i) !! key with
  | Some entry =>
      let s := replaceShard s i (touchItem (shardAt s i) key entry now) in
      Some (Some (value entry), cleanup ord s i now)
  | None =>
      let s := cleanup ord s i now in
      match reserveSlot ord s i now with
      | None => None
      | Some (false, s) => Some (None, s)
      | Some (true, s) =>
          match items (shardAt s i) !! key with
          | Some entry =>
              let s := withLive s (live s - 1) in
              Some (Some (value entry), replaceShard s i (touchItem (shardAt s i) key entry now))
          | None =>
              let v := create now in
              let sh := shardAt s i in
              Some (Some v, replaceShard s i
                (mkShard (<[key := mkKeyEntry v now]> (items sh)) (orderItems sh) (order sh)
                   (nextElem sh) (lastCleanup sh)))
          end
      end
  end.

Definition getOrCreateLRU (ord : range_order) (create : Time → T)
    (s : shardedStore) (i : nat) (key : string) (now : Time)
    : option (option T * shardedStore) :=
  match orderItems (shardAt s i) !! key ≫= (fun id => pair id <$> elemAt id (order (shardAt s i))) with
  | Some (id, entry) =>
      let s := replaceShard s i (touchElem (shardAt s i) id entry now) in
      Some (Some (lruValue entry), cleanup ord s i now)
  | None =>
      let s := cleanup ord s i now in
      match reserveSlot ord s i now with
      | None => None
      | Some (false, s) => Some (None, s)
      | Some (true, s) =>
          match orderItems (shardAt s i) !! key ≫= (fun id => pair id <$> elemAt id (order (shardAt s i))) with
          | Some (id, entry) =>
              let s := withLive s (live s - 1) in
              Some (Some (lruValue entry), replaceShard s i (touchElem (shardAt s i) id entry now))
          | None =>
              let v := create now in
              let sh := shardAt s i in
              let id := nextElem sh in
              Some (Some v, replaceShard s i
                (mkShard (items sh) (<[key := id]> (orderItems sh))
                   ((id, mkLruEntry key v now) :: order sh) (S id) (lastCleanup sh)))
          end
      end
  end.

(** The write through the state pointer by the function [withState] runs. *)
Definition storeState (s : shardedStore) (i : nat) (key : string) (v : T) : shardedStore :=
  let sh := shardAt s i in
  if isLRU s then
    replaceShard s i (mkShard (items sh) (orderItems sh)
      (map (fun p => if bool_decide (Some p.1 = orderItems sh !! key)
                     then (p.1, mkLruEntry (lruKey p.2) v (lruLastSeen p.2)) else p) (order sh))
      (nextElem sh) (lastCleanup sh))
  else
    replaceShard s i (mkShard (alter (fun e => mkKeyEntry v (lastSeen e)) key (items sh))
      (orderItems sh) (order sh) (nextElem sh) (lastCleanup sh)).

Definition withState (ord : range_order) (create : Time → T) (s : shardedStore)
    (key : string) (now : Time) (fn : T → Time → T * (Result * option error))
    : option ((Result * option error) * shardedStore) :=
  let i := shardFor s key in
  match (if isLRU s then getOrCreateLRU ord create s i key now
         else getOrCreateMap ord create s i key now) with
  | None => None
  | Some (None, s') => Some ((zeroResult, Some Options.ErrMaxKeysExceeded), s')
  | Some (Some v, s') =>
      let '(v', r) := fn v now in Some (r, storeState s' i key v')
  end.

Definition len (s : shardedStore) : Z := live s.

(** [drainEvictions]: the pending count, reset to zero, and one call of
    [onEvict] per eviction. *)
Definition drainEvictions {A} (onEvict : option A) (s : shardedStore) : (Z * list A) * shardedStore :=
  let n := evicts s in
  let calls := match onEvict with Some a => replicate (Z.to_nat n) a | None => [] end in
  ((n, calls), mkStore (shards s) (opts s) (live s) (lastSweep s) 0).

End Store.

Arguments keyEntry : clear implicits.
Arguments lruEntry : clear implicits.
Arguments shard : clear implicits.
Arguments shardedStore : clear implicits.
Arguments range_order : clear implicits.

End Store.
