(* ===== verification/StoreFacts.v ===== *)
(** * StoreFacts: the representation invariant of one shard

    What a shard stands for ([shard_map], a finite map from keys to states
    with their last use), when its two indexes agree ([shard_inv]), and how
    cleanup, eviction, touching and insertion act on it. *)

From Stdlib Require Import ZArith Lia Bool.
From stdpp Require Import base gmap strings list.
From S2P Require Import Prelude Core GoTime Hash Options ShardedStore.

#[local] Open Scope Z_scope.

Module StoreFacts.
Import Store.

Section Shard.
Context {T : Type}.
Implicit Types (sh : shard T) (l : list (nat * lruEntry T)).

(** ** The abstraction of a shard *)

Definition okeys l : list string := (fun p => lruKey p.2) <$> l.
Definition obinds l : list (string * (T * Time)) :=
  (fun p => (lruKey p.2, (lruValue p.2, lruLastSeen p.2))) <$> l.
Definition oindex l : list (string * nat) := (fun p => (lruKey p.2, p.1)) <$> l.

Definition order_map l : gmap string (T * Time) := list_to_map (obinds l).
Definition items_map (m : gmap string (keyEntry T)) : gmap string (T * Time) :=
  (fun e => (value e, lastSeen e)) <$> m.

Definition shard_map sh : gmap string (T * Time) := items_map (items sh) ∪ order_map (order sh).

Definition shard_size sh : nat := (size (items sh) + length (order sh))%nat.

(** The list and the index of an LRU shard agree. *)
Record order_ok (idx : gmap string nat) (next : nat) l : Prop := {
  ord_keys : NoDup (okeys l);
  ord_ids : NoDup (l.*1);
  ord_next : Forall (fun p => (p.1 < next)%nat) l;
  ord_index : idx = list_to_map (oindex l)
}.

Definition shard_inv (lru : bool) sh : Prop :=
  if lru then items sh = ∅ ∧ order_ok (orderItems sh) (nextElem sh) (order sh)
  else order sh = [] ∧ orderItems sh = ∅.

Lemma obinds_keys l : (obinds l).*1 = okeys l.
Proof. unfold obinds, okeys. rewrite <- list_fmap_compose. done. Qed.

Lemma oindex_keys l : (oindex l).*1 = okeys l.
Proof. unfold oindex, okeys. rewrite <- list_fmap_compose. done. Qed.

Lemma order_map_perm l l' : NoDup (okeys l) → l ≡ₚ l' → order_map l = order_map l'.
Proof.
  intros Hnd Hp. apply list_to_map_proper; [by rewrite obinds_keys|].
  unfold obinds. by rewrite Hp.
Qed.

Lemma oindex_perm l l' :
  NoDup (okeys l) → l ≡ₚ l' → (list_to_map (oindex l) : gmap string nat) = list_to_map (oindex l').
Proof.
  intros Hnd Hp. apply list_to_map_proper; [by rewrite oindex_keys|].
  unfold oindex. by rewrite Hp.
Qed.

Lemma order_map_lookup_None l k : order_map l !! k = None ↔ k ∉ okeys l.
Proof. unfold order_map. rewrite <- obinds_keys. symmetry. apply not_elem_of_list_to_map. Qed.

Lemma order_map_lookup_Some l k v :
  NoDup (okeys l) →
  order_map l !! k = Some v ↔ ∃ p, p ∈ l ∧ lruKey p.2 = k ∧ v = (lruValue p.2, lruLastSeen p.2).
Proof.
  intros Hnd. unfold order_map. rewrite <- elem_of_list_to_map by (by rewrite obinds_keys).
  unfold obinds. rewrite list_elem_of_fmap. naive_solver.
Qed.

Lemma oindex_lookup_Some l k id :
  NoDup (okeys l) →
  (list_to_map (oindex l) : gmap string nat) !! k = Some id ↔ ∃ p, p ∈ l ∧ lruKey p.2 = k ∧ p.1 = id.
Proof.
  intros Hnd. rewrite <- elem_of_list_to_map by (by rewrite oindex_keys).
  unfold oindex. rewrite list_elem_of_fmap. naive_solver.
Qed.

Lemma oindex_lookup_None l k :
  (list_to_map (oindex l) : gmap string nat) !! k = None ↔ k ∉ okeys l.
Proof. rewrite <- oindex_keys. symmetry. apply not_elem_of_list_to_map. Qed.

(** ** Removing an element *)

Lemma listRemove_perm l p : NoDup (l.*1) → p ∈ l → l ≡ₚ p :: listRemove p.1 l.
Proof.
  intros Hnd Hp. apply list_elem_of_split in Hp as (l1 & l2 & ->).
  rewrite fmap_app, fmap_cons in Hnd.
  assert (∀ q, q ∈ l1 ++ l2 → q.1 ≠ p.1) as Hne.
  { intros q Hq Heq. rewrite <- Permutation_middle in Hnd. apply NoDup_cons in Hnd as [Hn _].
    apply Hn. rewrite <- Heq, <- fmap_app. by apply list_elem_of_fmap_2. }
  assert (∀ l0, (∀ q, q ∈ l0 → q.1 ≠ p.1) → listRemove p.1 l0 = l0) as Hid.
  { intros l0 H0. unfold listRemove. induction l0 as [|q l0 IH]; [done|].
    rewrite filter_cons_True by (apply H0; set_solver). f_equal. apply IH. set_solver. }
  unfold listRemove. rewrite filter_app, filter_cons_False by naive_solver.
  fold (listRemove p.1 l1) (listRemove p.1 l2).
  rewrite !Hid by (intros; apply Hne; set_solver). by rewrite Permutation_middle.
Qed.

Lemma listRemove_elem l p q : q ∈ listRemove p l ↔ q ∈ l ∧ q.1 ≠ p.
Proof. unfold listRemove. rewrite list_elem_of_filter. naive_solver. Qed.

Section Remove.
Context (idx : gmap string nat) (next : nat) (l : list (nat * lruEntry T)) (p : nat * lruEntry T).
Hypothesis Hok : order_ok idx next l.
Hypothesis Hp : p ∈ l.

Lemma remove_ok : order_ok (delete (lruKey p.2) idx) next (listRemove p.1 l).
Proof.
  destruct Hok as [Hk Hi Hn ->]. pose proof (listRemove_perm l p Hi Hp) as Hperm.
  assert (NoDup (okeys (p :: listRemove p.1 l))) as Hk'.
  { unfold okeys in *. by rewrite <- Hperm. }
  assert (NoDup ((p :: listRemove p.1 l).*1)) as Hi' by by rewrite <- Hperm.
  apply NoDup_cons in Hi' as [_ Hi']. pose proof Hk' as Hk0. apply NoDup_cons in Hk0 as [Hpk Hk0].
  constructor; [done|done| |].
  - rewrite Forall_forall in *. intros q [Hq _]%listRemove_elem. by apply Hn.
  - rewrite (oindex_perm _ _ Hk Hperm). simpl. apply delete_insert_id.
    by apply oindex_lookup_None.
Qed.

Lemma remove_map : order_map (listRemove p.1 l) = delete (lruKey p.2) (order_map l).
Proof.
  destruct Hok as [Hk Hi Hn _]. pose proof (listRemove_perm l p Hi Hp) as Hperm.
  assert (NoDup (okeys (p :: listRemove p.1 l))) as Hk'.
  { unfold okeys in *. by rewrite <- Hperm. }
  apply NoDup_cons in Hk' as [Hpk _].
  rewrite (order_map_perm _ _ Hk Hperm). unfold order_map at 2. simpl.
  fold (obinds (listRemove p.1 l)). fold (order_map (listRemove p.1 l)).
  symmetry. apply delete_insert_id. by apply order_map_lookup_None.
Qed.

Lemma remove_length : length l = S (length (listRemove p.1 l)).
Proof. destruct Hok as [_ Hi _ _]. by rewrite (listRemove_perm l p Hi Hp) at 1. Qed.
End Remove.

Lemma shard_size_map lru sh : shard_inv lru sh → size (shard_map sh) = shard_size sh.
Proof.
  unfold shard_inv, shard_map, shard_size, items_map. destruct lru.
  - intros [-> [Hk _ _ _]]. rewrite fmap_empty, map_size_empty, (left_id_L ∅ (∪)).
    unfold order_map. rewrite map_size_list_to_map by (by rewrite obinds_keys).
    unfold obinds. by rewrite length_fmap.
  - intros [-> _]. unfold order_map. simpl. rewrite (right_id_L ∅ (∪)), map_size_fmap. lia.
Qed.

(** ** Pruning: some bindings, all satisfying [Q], are gone, and the counter
    went down by their number *)

Definition pruned (lru : bool) (Q : T * Time → Prop) (a b : shard T * Z) : Prop :=
  shard_inv lru b.1 ∧ shard_map b.1 ⊆ shard_map a.1 ∧
  (∀ k v, shard_map a.1 !! k = Some v → shard_map b.1 !! k = None → Q v) ∧
  a.2 - b.2 = Z.of_nat (shard_size a.1) - Z.of_nat (shard_size b.1).

Lemma pruned_refl lru Q a : shard_inv lru a.1 → pruned lru Q a a.
Proof. intros. split_and!; [done|done|intros k v ->; done|lia]. Qed.

Lemma pruned_trans lru Q a b c : pruned lru Q a b → pruned lru Q b c → pruned lru Q a c.
Proof.
  intros (_ & Hs & HQ & Hc) (Hi & Hs' & HQ' & Hc'). split_and!; [done|by etrans| |lia].
  intros k v Ha Hn. destruct (shard_map b.1 !! k) as [w|] eqn:Eb.
  - assert (w = v) as -> by (eapply lookup_weaken in Eb; [|exact Hs]; congruence). eauto.
  - eauto.
Qed.

Lemma deleteElem_pruned Q sh lv p :
  shard_inv true sh → p ∈ order sh → Q (lruValue p.2, lruLastSeen p.2) →
  pruned true Q (sh, lv) (deleteElem (sh, lv) p) ∧
  order (deleteElem (sh, lv) p).1 = listRemove p.1 (order sh).
Proof.
  intros [Hi Hok] Hp HQ. pose proof (remove_ok _ _ _ _ Hok Hp) as Hok'.
  pose proof (remove_map _ _ _ _ Hok Hp) as Hm. pose proof (remove_length _ _ _ _ Hok Hp) as Hl.
  unfold deleteElem. destruct Hok as [Hk Hid _ Hidx].
  assert (orderItems sh !! lruKey p.2 = Some p.1) as ->.
  { rewrite Hidx. apply oindex_lookup_Some; [done|]. eauto. }
  split; [|done]. unfold pruned, shard_map, shard_size; simpl.
  rewrite Hi, Hm. unfold items_map. rewrite fmap_empty, !(left_id_L ∅ (∪)).
  split_and!; [done|done|apply delete_subseteq| |rewrite Hl; lia].
  intros k v Hkv Hd. destruct (decide (lruKey p.2 = k)) as [<-|Hne].
  - assert (order_map (order sh) !! lruKey p.2 = Some (lruValue p.2, lruLastSeen p.2)) as Hx
      by (apply order_map_lookup_Some; eauto). congruence.
  - rewrite lookup_delete_ne in Hd by done. congruence.
Qed.

Lemma deleteElems_pruned Q es sh lv :
  shard_inv true sh → NoDup (es.*1) → (∀ p, p ∈ es → p ∈ order sh) →
  (∀ p, p ∈ es → Q (lruValue p.2, lruLastSeen p.2)) →
  pruned true Q (sh, lv) (foldl deleteElem (sh, lv) es).
Proof.
  revert sh lv. induction es as [|p es IH]; intros sh lv Hinv Hnd Hin HQ; cbn [foldl].
  { by apply pruned_refl. }
  rewrite fmap_cons in Hnd. apply NoDup_cons in Hnd as [Hnp Hnd].
  destruct (deleteElem_pruned Q sh lv p) as [Hpr Hord]; [done|set_solver..|].
  destruct (deleteElem (sh, lv) p) as [sh' lv'] eqn:E. simpl in Hord.
  eapply pruned_trans; [exact Hpr|]. apply IH; [apply Hpr|done| |set_solver].
  intros q Hq. rewrite Hord. apply listRemove_elem. split; [set_solver|].
  intros Heq. apply Hnp. rewrite <- Heq. by apply list_elem_of_fmap_2.
Qed.

Lemma deleteItem_pruned Q sh lv k :
  shard_inv false sh → (∀ e, items sh !! k = Some e → Q (value e, lastSeen e)) →
  pruned false Q (sh, lv) (deleteItem (sh, lv) k) ∧
  items (deleteItem (sh, lv) k).1 = delete k (items sh).
Proof.
  intros [Ho Hoi] HQ. unfold deleteItem. destruct (items sh !! k) as [e|] eqn:E.
  - split; [|done]. unfold pruned, shard_map, shard_size, items_map; simpl. rewrite Ho.
    unfold order_map; simpl. rewrite !(right_id_L ∅ (∪)), fmap_delete. split_and!.
    + done.
    + done.
    + apply delete_subseteq.
    + intros k' v Hk Hd. destruct (decide (k = k')) as [<-|].
      * rewrite lookup_fmap, E in Hk. simpl in Hk. simplify_eq. eauto.
      * rewrite lookup_delete_ne in Hd by done. congruence.
    + assert (size (items sh) ≠ 0%nat) by (intros Hz%map_size_empty_inv; by rewrite Hz in E).
      rewrite map_size_delete, E. simpl. lia.
  - split; [by apply pruned_refl|]. simpl. by rewrite delete_id.
Qed.

Lemma deleteItems_pruned Q ks sh lv :
  shard_inv false sh → (∀ k e, k ∈ ks → items sh !! k = Some e → Q (value e, lastSeen e)) →
  pruned false Q (sh, lv) (foldl deleteItem (sh, lv) ks).
Proof.
  revert sh lv. induction ks as [|k ks IH]; intros sh lv Hinv HQ; cbn [foldl].
  { by apply pruned_refl. }
  destruct (deleteItem_pruned Q sh lv k) as [Hpr Hit]; [done|intros; eapply HQ; set_solver|].
  destruct (deleteItem (sh, lv) k) as [sh' lv'] eqn:E. simpl in Hit.
  eapply pruned_trans; [exact Hpr|]. apply IH; [apply Hpr|].
  intros k' e Hk' He. rewrite Hit in He. apply lookup_delete_Some in He as [_ He].
  eapply HQ; set_solver.
Qed.

(** ** Cleanup removes only expired bindings *)

Definition expired (o : Options.options) (now : Time) (v : T * Time) : Prop :=
  0 < Options.keyTTL o ∧ Options.keyTTL o <= GoTime.Sub now v.2.

Lemma cleanupDue_ttl o now last :
  cleanupDue o now last = true → 0 < Options.keyTTL o ∧ 0 < Options.cleanupInterval o.
Proof.
  unfold cleanupDue. rewrite andb_true_iff, negb_true_iff, orb_false_iff, !Z.leb_gt. lia.
Qed.

Definition setLastCleanup sh now : shard T :=
  mkShard (items sh) (orderItems sh) (order sh) (nextElem sh) now.

Lemma setLastCleanup_pruned lru Q sh lv now :
  shard_inv lru sh → pruned lru Q (sh, lv) (setLastCleanup sh now, lv).
Proof. intros. by apply (pruned_refl lru Q (sh, lv)). Qed.

Lemma cleanupLRU_pruned o now sh lv :
  shard_inv true sh → pruned true (expired o now) (sh, lv) (cleanupLRU o now (sh, lv)).
Proof.
  intros Hinv. unfold cleanupLRU. destruct (cleanupDue o now _) eqn:Ed; [|by apply pruned_refl].
  apply cleanupDue_ttl in Ed. fold (setLastCleanup sh now).
  eapply pruned_trans; [by apply (setLastCleanup_pruned _ _ _ _ now)|].
  assert (NoDup ((order sh).*1)) as Hnd by by destruct Hinv as [_ []].
  apply deleteElems_pruned; [done| | |].
  - eapply sublist_NoDup; [exact Hnd|]. simpl. apply fmap_sublist.
    etrans; [apply sublist_filter|apply sublist_take].
  - intros p [_ Hp]%list_elem_of_filter. simpl in *.
    eapply elem_of_sublist; [exact Hp|apply sublist_take].
  - intros p [Hp _]%list_elem_of_filter. unfold isExpired in Hp. apply Z.leb_le in Hp.
    split; [lia|done].
Qed.

Lemma cleanupMap_pruned o visit now sh lv :
  shard_inv false sh → pruned false (expired o now) (sh, lv) (cleanupMap o visit now (sh, lv)).
Proof.
  intros Hinv. unfold cleanupMap. destruct (cleanupDue o now _) eqn:Ed; [|by apply pruned_refl].
  apply cleanupDue_ttl in Ed. fold (setLastCleanup sh now).
  eapply pruned_trans; [by apply (setLastCleanup_pruned _ _ _ _ now)|].
  apply deleteItems_pruned; [done|].
  intros k e [Hk _]%list_elem_of_filter He. unfold itemExpired in Hk. rewrite He in Hk.
  unfold isExpired in Hk. apply Z.leb_le in Hk. split; [lia|done].
Qed.

(** ** Lookup, touch, insertion and write-back *)

Lemma shard_map_reject sh : shard_inv false sh → shard_map sh = items_map (items sh).
Proof. intros [Ho _]. unfold shard_map. rewrite Ho. apply (right_id_L ∅ (∪)). Qed.

Lemma shard_map_lru sh : shard_inv true sh → shard_map sh = order_map (order sh).
Proof.
  intros [Hi _]. unfold shard_map, items_map. rewrite Hi, fmap_empty. apply (left_id_L ∅ (∪)).
Qed.

Lemma items_lookup sh k :
  shard_inv false sh →
  shard_map sh !! k = (fun e => (value e, lastSeen e)) <$> items sh !! k.
Proof. intros. rewrite shard_map_reject by done. unfold items_map. by rewrite lookup_fmap. Qed.

Lemma elemAt_Some id l e : NoDup (l.*1) → elemAt id l = Some e ↔ (id, e) ∈ l.
Proof.
  intros Hnd. unfold elemAt. destruct (list_find _ l) as [[i p]|] eqn:E.
  - apply list_find_Some in E as (Hi & Hp & _). split.
    + intros [= <-]. destruct p; simpl in *; subst. by eapply list_elem_of_lookup_2.
    + intros (j & Hj)%list_elem_of_lookup.
      assert (i = j) as ->; [|rewrite Hi in Hj; destruct p; by simplify_eq/=].
      eapply (NoDup_lookup (l.*1)); [done|..]; rewrite list_lookup_fmap, ?Hi, ?Hj; simpl; [|done].
      by rewrite Hp.
  - apply list_find_None in E. split; [done|]. intros Hin.
    rewrite Forall_forall in E. by apply E in Hin.
Qed.

(** The two-step lookup through the index. *)
Definition lruLookup sh (k : string) : option (nat * lruEntry T) :=
  orderItems sh !! k ≫= (fun id => pair id <$> elemAt id (order sh)).

Lemma lruLookup_Some sh k id e :
  shard_inv true sh → lruLookup sh k = Some (id, e) ↔ (id, e) ∈ order sh ∧ lruKey e = k.
Proof.
  intros [_ [Hk Hid _ Hidx]]. unfold lruLookup. rewrite Hidx. split.
  - intros (id' & Hl & (e' & He & [= <- <-])%fmap_Some)%bind_Some.
    apply elemAt_Some in He; [|done]. split; [done|].
    apply oindex_lookup_Some in Hl as (p & Hp & <- & Hpid); [|done].
    apply list_elem_of_lookup in He as (i & Hi), Hp as (j & Hj).
    assert (i = j) as <-; [|rewrite Hi in Hj; destruct p; by simplify_eq/=].
    eapply (NoDup_lookup ((order sh).*1)); [done|..]; rewrite list_lookup_fmap, ?Hi, ?Hj; simpl; [done|].
    by rewrite Hpid.
  - intros [Hin Hke]. apply bind_Some. exists id. split.
    + apply oindex_lookup_Some; [done|]. by exists (id, e).
    + apply fmap_Some. exists e. split; [by apply elemAt_Some|done].
Qed.

Lemma lruLookup_map sh k :
  shard_inv true sh →
  shard_map sh !! k = (fun p => (lruValue p.2, lruLastSeen p.2)) <$> lruLookup sh k.
Proof.
  intros Hinv. rewrite shard_map_lru by done. pose proof Hinv as [_ [Hk _ _ _]].
  destruct (lruLookup sh k) as [[id e]|] eqn:E; simpl.
  - apply lruLookup_Some in E as [Hin Hke]; [|done].
    apply order_map_lookup_Some; [done|]. by exists (id, e).
  - destruct (order_map (order sh) !! k) as [v|] eqn:Em; [|done].
    apply order_map_lookup_Some in Em as ([id e] & Hin & Hke & _); [|done].
    assert (lruLookup sh k = Some (id, e)) by (apply lruLookup_Some; eauto). congruence.
Qed.

(** Setting the binding of a present key. *)
Definition rebinds (lru : bool) (k : string) (v : T * Time) sh sh' : Prop :=
  shard_inv lru sh' ∧ shard_map sh' = <[k := v]> (shard_map sh) ∧
  shard_size sh' = shard_size sh.

Lemma touchItem_rebinds sh k e now :
  shard_inv false sh → items sh !! k = Some e →
  rebinds false k (value e, now) sh (touchItem sh k e now).
Proof.
  intros Hinv He. assert (shard_inv false (touchItem sh k e now)) as Hinv' by done.
  split_and!; [done| |].
  - rewrite !shard_map_reject by done. unfold items_map. simpl. by rewrite fmap_insert.
  - unfold shard_size. simpl. by rewrite map_size_insert_Some by eauto.
Qed.

Lemma touchElem_rebinds sh k id e now :
  shard_inv true sh → lruLookup sh k = Some (id, e) →
  rebinds true k (lruValue e, now) sh (touchElem sh id e now).
Proof.
  intros Hinv Hl. apply lruLookup_Some in Hl as [Hin Hke]; [|done].
  pose proof Hinv as [Hi Hok]. pose proof Hok as [Hk Hid Hn Hidx].
  pose proof (listRemove_perm _ _ Hid Hin) as Hperm. simpl in Hperm.
  assert (NoDup (okeys ((id, e) :: listRemove id (order sh)))) as Hk' by (unfold okeys in *; by rewrite <- Hperm).
  assert (shard_inv true (touchElem sh id e now)) as Hinv'.
  { split; [done|]. constructor; simpl.
    - exact Hk'.
    - assert (NoDup (((id, e) :: listRemove id (order sh)).*1)) as Hx by by rewrite <- Hperm. exact Hx.
    - rewrite Hperm in Hn. inversion_clear Hn. by constructor.
    - rewrite Hidx. by rewrite (oindex_perm _ _ Hk Hperm). }
  split_and!; [done| |].
  - rewrite !shard_map_lru by done. rewrite (order_map_perm _ _ Hk Hperm). unfold order_map. simpl.
    rewrite Hke. by rewrite insert_insert_eq.
  - unfold shard_size. simpl. rewrite (remove_length _ _ _ _ Hok Hin). done.
Qed.

(** Adding a binding for an absent key. *)
Definition adds (lru : bool) (k : string) (v : T * Time) sh sh' : Prop :=
  shard_inv lru sh' ∧ shard_map sh' = <[k := v]> (shard_map sh) ∧
  shard_size sh' = S (shard_size sh).

Lemma insertItem_adds sh k v now :
  shard_inv false sh → items sh !! k = None →
  adds false k (v, now) sh
    (mkShard (<[k := mkKeyEntry v now]> (items sh)) (orderItems sh) (order sh) (nextElem sh) (lastCleanup sh)).
Proof.
  intros Hinv Hn. set (sh' := mkShard _ _ _ _ _). assert (shard_inv false sh') as Hinv' by done.
  split_and!; [done| |].
  - rewrite !shard_map_reject by done. unfold items_map. simpl. by rewrite fmap_insert.
  - unfold shard_size. simpl. by rewrite map_size_insert_None.
Qed.

Lemma pushElem_adds sh k v now :
  shard_inv true sh → shard_map sh !! k = None →
  adds true k (v, now) sh
    (mkShard (items sh) (<[k := nextElem sh]> (orderItems sh))
       ((nextElem sh, mkLruEntry k v now) :: order sh) (S (nextElem sh)) (lastCleanup sh)).
Proof.
  intros Hinv Hn. set (sh' := mkShard _ _ _ _ _). pose proof Hinv as [Hi [Hk Hid Hnx Hidx]].
  rewrite shard_map_lru in Hn by done. apply order_map_lookup_None in Hn.
  assert (shard_inv true sh') as Hinv'.
  { split; [done|]. constructor; simpl.
    - by apply NoDup_cons.
    - apply NoDup_cons. split; [|done]. intros (p & Hp & Hin)%list_elem_of_fmap.
      rewrite Forall_forall in Hnx. specialize (Hnx p Hin). lia.
    - constructor; [simpl; lia|]. eapply Forall_impl; [exact Hnx|]. simpl. lia.
    - by rewrite Hidx. }
  split_and!; [done| |].
  - by rewrite !shard_map_lru by done.
  - unfold shard_size. simpl. lia.
Qed.

(** Eviction takes the back of the list. *)
Lemma evict_pruned sh p :
  shard_inv true sh → last (order sh) = Some p →
  let sh' := mkShard (items sh) (delete (lruKey p.2) (orderItems sh)) (listRemove p.1 (order sh))
               (nextElem sh) (lastCleanup sh) in
  shard_inv true sh' ∧ shard_map sh' = delete (lruKey p.2) (shard_map sh) ∧
  shard_size sh = S (shard_size sh') ∧
  shard_map sh !! lruKey p.2 = Some (lruValue p.2, lruLastSeen p.2).
Proof.
  intros Hinv Hlast sh'. pose proof Hinv as [Hi Hok].
  assert (p ∈ order sh) as Hp by (apply last_Some in Hlast as [l' ->]; set_solver).
  assert (shard_inv true sh') as Hinv' by (split; [done|by apply remove_ok]).
  split_and!; [done| | |].
  - rewrite !shard_map_lru by done. by eapply remove_map.
  - unfold shard_size. simpl. rewrite (remove_length _ _ _ _ Hok Hp). lia.
  - rewrite shard_map_lru by done. apply order_map_lookup_Some; [by destruct Hok|eauto].
Qed.

(** ** Writing through the state pointer *)

Definition writeElem (idx : gmap string nat) (k : string) (v : T) (p : nat * lruEntry T)
    : nat * lruEntry T :=
  if bool_decide (Some p.1 = idx !! k) then (p.1, mkLruEntry (lruKey p.2) v (lruLastSeen p.2)) else p.

Lemma writeElem_id idx k v p :
  (writeElem idx k v p).1 = p.1 ∧ lruKey (writeElem idx k v p).2 = lruKey p.2 ∧
  lruLastSeen (writeElem idx k v p).2 = lruLastSeen p.2.
Proof. unfold writeElem. by case_bool_decide. Qed.

Lemma writeElems_same idx k v l :
  okeys (map (writeElem idx k v) l) = okeys l ∧ (map (writeElem idx k v) l).*1 = l.*1 ∧
  oindex (map (writeElem idx k v) l) = oindex l.
Proof.
  induction l as [|p l (IH1 & IH2 & IH3)]; [done|].
  destruct (writeElem_id idx k v p) as (H1 & H2 & _).
  unfold okeys, oindex in *. simpl. split_and!; f_equal; try done. by rewrite H1, H2.
Qed.

Lemma writeElems_rebinds sh k v v0 t :
  shard_inv true sh → shard_map sh !! k = Some (v0, t) →
  rebinds true k (v, t) sh
    (mkShard (items sh) (orderItems sh) (map (writeElem (orderItems sh) k v) (order sh))
       (nextElem sh) (lastCleanup sh)).
Proof.
  intros Hinv Hk. set (sh' := mkShard _ _ _ _ _). pose proof Hinv as [Hi [Hks Hid Hn Hidx]].
  destruct (writeElems_same (orderItems sh) k v (order sh)) as (Hok & Hid' & Hix).
  assert (shard_inv true sh') as Hinv'.
  { split; [done|]. constructor; simpl; [by rewrite Hok|by rewrite Hid'| |by rewrite Hix].
    rewrite Forall_forall in *. intros q (p & -> & Hp)%list_elem_of_fmap.
    destruct (writeElem_id (orderItems sh) k v p) as (-> & _). by apply Hn. }
  split_and!; [done| |unfold shard_size; simpl; by rewrite length_map].
  rewrite !shard_map_lru in * by done. apply map_eq. intros k'.
  destruct (decide (k = k')) as [<-|Hne].
  - rewrite lookup_insert_eq. apply order_map_lookup_Some; [simpl; by rewrite Hok|].
    apply order_map_lookup_Some in Hk as (p & Hp & Hpk & [= -> ->]); [|done].
    exists (writeElem (orderItems sh) k v p). split; [by apply list_elem_of_fmap_2|].
    unfold writeElem. rewrite bool_decide_true; [done|].
    rewrite Hidx. symmetry. apply oindex_lookup_Some; eauto.
  - rewrite lookup_insert_ne by done. apply option_eq. intros w.
    rewrite !order_map_lookup_Some by (simpl; rewrite ?Hok; done). simpl.
    assert (∀ p, p ∈ order sh → lruKey p.2 = k' → writeElem (orderItems sh) k v p = p) as Hsame.
    { intros p Hp Hpk. unfold writeElem. rewrite bool_decide_false; [done|]. intros Heq.
      symmetry in Heq. rewrite Hidx in Heq. apply oindex_lookup_Some in Heq as (q & Hq & Hqk & Hqp); [|done].
      apply list_elem_of_lookup in Hp as (i & Hpi), Hq as (j & Hqj).
      assert (i = j) as <-; [|rewrite Hpi in Hqj; simplify_eq].
      eapply (NoDup_lookup ((order sh).*1)); [done|..]; rewrite list_lookup_fmap, ?Hpi, ?Hqj; simpl; [done|].
      by rewrite Hqp. }
    split.
    + intros (q & (p & -> & Hp)%list_elem_of_fmap & Hqk & ->).
      destruct (writeElem_id (orderItems sh) k v p) as (_ & Hkk & _). rewrite Hkk in Hqk.
      exists p. by rewrite (Hsame p Hp Hqk).
    + intros (p & Hp & Hpk & ->). exists p. split_and!; [|done|done].
      rewrite <- (Hsame p Hp Hpk). by apply list_elem_of_fmap_2.
Qed.

Lemma writeItem_rebinds sh k v v0 t :
  shard_inv false sh → shard_map sh !! k = Some (v0, t) →
  rebinds false k (v, t) sh
    (mkShard (alter (fun e => mkKeyEntry v (lastSeen e)) k (items sh)) (orderItems sh) (order sh)
       (nextElem sh) (lastCleanup sh)).
Proof.
  intros Hinv Hk. set (sh' := mkShard _ _ _ _ _). assert (shard_inv false sh') as Hinv' by done.
  rewrite items_lookup in Hk by done. apply fmap_Some in Hk as (e & He & [= -> ->]).
  assert (alter (fun e => mkKeyEntry v (lastSeen e)) k (items sh)
          = <[k := mkKeyEntry v (lastSeen e)]> (items sh)) as Ha.
  { apply map_eq. intros k'. destruct (decide (k = k')) as [<-|].
    - by rewrite lookup_alter_eq, He, lookup_insert_eq.
    - by rewrite lookup_alter_ne, lookup_insert_ne. }
  split_and!; [done| |].
  - rewrite !shard_map_reject by done. unfold items_map. simpl. rewrite Ha. by rewrite fmap_insert.
  - unfold shard_size. simpl. rewrite Ha. by rewrite map_size_insert_Some by eauto.
Qed.

End Shard.

End StoreFacts.
