(* ===== verification/StoreSpec.v ===== *)
(** * StoreSpec: what the sharded store promises

    The abstract store is one finite map from keys to states with their last
    use.  [store_inv] is the representation invariant of the sharded store
    (every key in the shard its hash selects, both indexes of an LRU shard in
    agreement, the [live] counter equal to the number of stored keys plus the
    reserved slots, never above [maxKeys]); [withState_spec] says what one
    [withState] call may do to the abstract map; the refinement theorem shows
    that the code does nothing else, and always returns. *)

From Stdlib Require Import ZArith Lia Bool.
From stdpp Require Import base gmap strings list.
From S2P Require Import Prelude Core GoTime Hash Options ShardedStore StoreFacts.

#[local] Open Scope Z_scope.

Module StoreSpec.
Import Store StoreFacts.

Section Store.
Context {T : Type}.
Implicit Types (s : shardedStore T) (sh : shard T) (ord : range_order T).

Definition total s : Z := Z.of_nat (sum_list_with shard_size (shards s)).

(** The abstract map: all shards together. *)
Definition abs s : gmap string (T * Time) := ⋃ (shard_map <$> shards s).

(** [n] slots are reserved and not yet filled. *)
Record store_inv (n : Z) s : Prop := {
  inv_opts : Options.options_ok (opts s);
  inv_len : Z.of_nat (length (shards s)) = Options.shards (opts s);
  inv_shards : ∀ i sh, shards s !! i = Some sh → shard_inv (isLRU s) sh;
  inv_placed : ∀ i sh k, shards s !! i = Some sh → is_Some (shard_map sh !! k) → shardFor s k = i;
  inv_live : live s = total s + n;
  inv_max : 0 < Options.maxKeys (opts s) → live s <= Options.maxKeys (opts s);
  inv_evicts : 0 <= evicts s
}.

(** ** Sums over the shards *)

Lemma sum_insert (f : shard T → nat) (l : list (shard T)) i x y :
  l !! i = Some y → (sum_list_with f (<[i := x]> l) + f y = sum_list_with f l + f x)%nat.
Proof.
  revert i. induction l as [|z l IH]; intros [|i] H; simplify_eq/=; [lia|].
  specialize (IH i H). lia.
Qed.

Lemma sum_zero (f : shard T → nat) (l : list (shard T)) :
  sum_list_with f l = 0%nat → ∀ i x, l !! i = Some x → f x = 0%nat.
Proof.
  induction l as [|z l IH]; intros Hs [|i] x Hx; simplify_eq/=; [lia|]. eapply IH; [lia|done].
Qed.

Lemma sum_sizes (l : list (shard T)) :
  (∀ i sh, l !! i = Some sh → size (shard_map sh) = shard_size sh) →
  sum_list_with size (shard_map <$> l) = sum_list_with shard_size l.
Proof.
  induction l as [|sh l IH]; intros Hsz; [done|]. rewrite fmap_cons. cbn [sum_list_with].
  f_equal; [by apply (Hsz 0%nat)|]. apply IH. intros i. apply (Hsz (S i)).
Qed.

(** ** Lookup in the union of the shards *)

Lemma union_list_lookup {A} (ms : list (gmap string A)) i m k :
  ms !! i = Some m → (∀ j m', ms !! j = Some m' → j ≠ i → m' !! k = None) →
  (⋃ ms) !! k = m !! k.
Proof.
  revert i. induction ms as [|m0 ms IH]; intros i Hi Ho; [done|]. simpl. rewrite lookup_union.
  destruct i as [|i]; simplify_eq/=.
  - assert ((⋃ ms) !! k = None) as ->; [|by destruct (m !! k)].
    clear IH. revert Ho. induction ms as [|m1 ms IH]; intros Ho; [done|]. simpl.
    rewrite lookup_union, (Ho 1%nat m1 eq_refl) by done. rewrite IH; [done|].
    intros [|j] m' Hj Hne; [done|]. by apply (Ho (S (S j)) m').
  - rewrite (Ho 0%nat m0 eq_refl) by done. rewrite (IH i); [by destruct (m !! k)|done|].
    intros j m' Hj Hne. apply (Ho (S j) m' Hj). lia.
Qed.

Lemma union_list_size {A} (ms : list (gmap string A)) :
  (∀ i j m m', i ≠ j → ms !! i = Some m → ms !! j = Some m' → m ##ₘ m') →
  size (⋃ ms) = sum_list_with size ms.
Proof.
  induction ms as [|m ms IH]; intros Hd; [done|]. simpl.
  assert (∀ i j m m', i ≠ j → ms !! i = Some m → ms !! j = Some m' → m ##ₘ m') as Hd'.
  { intros i j m1 m2 Hne H1 H2. eapply (Hd (S i) (S j)); eauto. }
  rewrite map_size_disj_union, IH; [done|done|].
  apply map_disjoint_union_list_r. apply Forall_lookup. intros i m' Hi.
  by apply (Hd (S i) 0%nat).
Qed.

Section Inv.
Context (n : Z) (s : shardedStore T).
Hypothesis Hinv : store_inv n s.

Lemma shardFor_lt k : (shardFor s k < length (shards s))%nat.
Proof.
  unfold shardFor. destruct Hinv as [[_ _ _ _ _ (p & Hp & Hs)] Hl _ _ _ _ _].
  rewrite Hl, Hs. apply Nat2Z.inj_lt. rewrite Hash.shardIndex_mod, Hl, Hs by lia.
  apply Z.mod_pos_bound, Z.pow_pos_nonneg; lia.
Qed.

Lemma shardAt_lookup i : (i < length (shards s))%nat → shards s !! i = Some (shardAt s i).
Proof. intros [sh Hi]%lookup_lt_is_Some. unfold shardAt. by rewrite Hi. Qed.

Lemma shardFor_lookup k : shards s !! shardFor s k = Some (shardAt s (shardFor s k)).
Proof. apply shardAt_lookup, shardFor_lt. Qed.

Lemma shardAt_inv i : (i < length (shards s))%nat → shard_inv (isLRU s) (shardAt s i).
Proof. intros Hi%shardAt_lookup. by eapply inv_shards. Qed.

Lemma abs_lookup k : abs s !! k = shard_map (shardAt s (shardFor s k)) !! k.
Proof.
  apply (union_list_lookup _ (shardFor s k)).
  - rewrite list_lookup_fmap, shardFor_lookup. done.
  - intros j m' Hj Hne. rewrite list_lookup_fmap in Hj.
    apply fmap_Some in Hj as (sh & Hsh & ->).
    destruct (shard_map sh !! k) eqn:E; [|done]. exfalso. apply Hne.
    symmetry. eapply inv_placed; eauto.
Qed.

Lemma abs_size : Z.of_nat (size (abs s)) = total s.
Proof.
  unfold abs, total. f_equal. rewrite union_list_size.
  - assert (∀ i sh, shards s !! i = Some sh → size (shard_map sh) = shard_size sh) as Hsz
      by (intros i sh Hi; eapply shard_size_map, inv_shards; eauto).
    by apply sum_sizes.
  - intros i j m m' Hne Hi Hj. rewrite list_lookup_fmap in Hi, Hj.
    apply fmap_Some in Hi as (sh & Hi & ->), Hj as (sh' & Hj & ->).
    apply map_disjoint_spec. intros k x y Hx Hy. apply Hne.
    transitivity (shardFor s k); [symmetry|]; eapply inv_placed; eauto.
Qed.

Lemma live_eq : live s = Z.of_nat (size (abs s)) + n.
Proof. rewrite abs_size. by apply inv_live. Qed.

End Inv.

Lemma replace_abs_at n s i sh :
  store_inv n s → shards s !! i = Some sh →
  ∀ k, shardFor s k = i → abs s !! k = shard_map sh !! k.
Proof. intros Hinv Hi k <-. rewrite (abs_lookup n s Hinv). unfold shardAt. by rewrite Hi. Qed.

(** ** Replacing one shard *)

Section Replace.
Context (n n' : Z) (s s' : shardedStore T) (i : nat) (sh sh' : shard T).
Hypothesis Hinv : store_inv n s.
Hypothesis Hi : shards s !! i = Some sh.
Hypothesis Hs' : shards s' = <[i := sh']> (shards s).
Hypothesis Ho : opts s' = opts s.

Lemma replace_isLRU : isLRU s' = isLRU s.
Proof. unfold isLRU. by rewrite Ho. Qed.

Lemma replace_shardFor k : shardFor s' k = shardFor s k.
Proof. unfold shardFor. by rewrite Hs', length_insert. Qed.

Lemma replace_inv :
  shard_inv (isLRU s) sh' →
  (∀ k, is_Some (shard_map sh' !! k) → shardFor s k = i) →
  live s' - Z.of_nat (shard_size sh') - n' = live s - Z.of_nat (shard_size sh) - n →
  (0 < Options.maxKeys (opts s) → live s' <= Options.maxKeys (opts s)) →
  0 <= evicts s' → store_inv n' s'.
Proof.
  intros Hsh Hpl Hlive Hmax Hev. destruct Hinv as [H1 H2 H3 H4 H5 H6 H7].
  assert (i < length (shards s))%nat as Hlt by by eapply lookup_lt_Some.
  constructor; rewrite ?Ho; try done.
  - by rewrite Hs', length_insert.
  - intros j x Hj. rewrite replace_isLRU. rewrite Hs' in Hj.
    apply list_lookup_insert_Some in Hj as [(_ & -> & _)|[_ Hj]]; [done|eauto].
  - intros j x k Hj Hk. rewrite replace_shardFor. rewrite Hs' in Hj.
    apply list_lookup_insert_Some in Hj as [(-> & -> & _)|[_ Hj]]; eauto.
  - unfold total in *. rewrite Hs'. pose proof (sum_insert shard_size _ i sh' sh Hi). lia.
Qed.

Lemma replace_shardAt_eq : shardAt s' i = sh'.
Proof.
  unfold shardAt. rewrite Hs', list_lookup_insert_eq; [done|]. by eapply lookup_lt_Some.
Qed.

Lemma replace_shardAt_ne j : j ≠ i → shardAt s' j = shardAt s j.
Proof. intros. unfold shardAt. by rewrite Hs', list_lookup_insert_ne. Qed.

Lemma replace_abs k :
  store_inv n' s' →
  abs s' !! k = if decide (shardFor s k = i) then shard_map sh' !! k else abs s !! k.
Proof.
  intros Hinv'. rewrite (abs_lookup n' s' Hinv'), replace_shardFor.
  case_decide as Hd; [by rewrite Hd, replace_shardAt_eq|].
  by rewrite replace_shardAt_ne, (abs_lookup n s Hinv).
Qed.

End Replace.

(** ** Shrinking: bindings that satisfy [Q] may be gone, nothing else changes *)

Definition drops (Q : string → T * Time → Prop) (m m' : gmap string (T * Time)) : Prop :=
  m' ⊆ m ∧ ∀ k v, m !! k = Some v → m' !! k = None → Q k v.

Lemma drops_refl Q m : drops Q m m.
Proof. split; [done|]. intros k v ->. done. Qed.

Lemma drops_trans Q m1 m2 m3 : drops Q m1 m2 → drops Q m2 m3 → drops Q m1 m3.
Proof.
  intros [H1 Q1] [H2 Q2]. split; [by etrans|]. intros k v Hk Hn.
  destruct (m2 !! k) as [w|] eqn:E; [|eauto].
  assert (w = v) as -> by (eapply lookup_weaken in E; [|exact H1]; congruence). eauto.
Qed.

Lemma drops_weaken (Q Q' : string → T * Time → Prop) m m' :
  (∀ k v, Q k v → Q' k v) → drops Q m m' → drops Q' m m'.
Proof. intros HQ [H1 H2]. split; [done|]. eauto. Qed.

Lemma drops_none Q m m' k : drops Q m m' → m !! k = None → m' !! k = None.
Proof. intros [H _] Hk. by eapply lookup_weaken_None. Qed.

Lemma drops_keep Q m m' k v : drops Q m m' → m !! k = Some v → ¬ Q k v → m' !! k = Some v.
Proof.
  intros [H HQ] Hk Hn. destruct (m' !! k) as [w|] eqn:E; [|exfalso; eauto].
  eapply lookup_weaken in E; [|exact H]. congruence.
Qed.

Definition expiredAt (o : Options.options) (now : Time) (k : string) (v : T * Time) : Prop :=
  expired o now v.

Definition shrinks (n : Z) (Q : string → T * Time → Prop) s s' : Prop :=
  store_inv n s' ∧ opts s' = opts s ∧ length (shards s') = length (shards s) ∧
  evicts s' = evicts s ∧ drops Q (abs s) (abs s').

Lemma shrinks_refl n Q s : store_inv n s → shrinks n Q s s.
Proof. intros. split_and!; [done..|apply drops_refl]. Qed.

Lemma shrinks_trans n Q s1 s2 s3 : shrinks n Q s1 s2 → shrinks n Q s2 s3 → shrinks n Q s1 s3.
Proof.
  intros (_ & Ho & Hl & He & Hd) (Hi & Ho' & Hl' & He' & Hd').
  split_and!; [done|congruence..|by eapply drops_trans].
Qed.

Lemma shardFor_length s s' k : length (shards s') = length (shards s) → shardFor s' k = shardFor s k.
Proof. unfold shardFor. by intros ->. Qed.

(** A pruned shard put back makes the store shrink. *)
Lemma setShard_shrinks n (Q : T * Time → Prop) s i b :
  store_inv n s → (i < length (shards s))%nat →
  pruned (isLRU s) Q (shardAt s i, live s) b →
  shrinks n (fun _ => Q) s (setShard s i b).
Proof.
  intros Hinv Hi (Hb & Hsub & HQ & Hc). pose proof (shardAt_lookup s i Hi) as Hl. simpl in *.
  assert (∀ k, is_Some (shard_map b.1 !! k) → shardFor s k = i) as Hpl.
  { intros k [v Hv]. eapply inv_placed; [done|exact Hl|]. eapply lookup_weaken in Hv; eauto. }
  pose proof (map_subseteq_size _ _ Hsub) as Hsz.
  rewrite (shard_size_map _ _ Hb), (shard_size_map _ _ (shardAt_inv _ _ Hinv i Hi)) in Hsz.
  assert (store_inv n (setShard s i b)) as Hinv'.
  { eapply (replace_inv n n s _ i _ b.1); eauto; simpl; [lia| |by apply (inv_evicts n)].
    intros Hm. pose proof (inv_max n s Hinv Hm). lia. }
  split_and!; [done|done|by simpl; rewrite length_insert|done|].
  pose proof (replace_abs n n s (setShard s i b) i _ b.1 Hinv Hl eq_refl) as Hab. split.
  - apply map_subseteq_spec. intros k v. rewrite Hab by done. case_decide as Hd; [|done].
    intros Hv. rewrite (replace_abs_at n s i _ Hinv Hl k Hd). eapply lookup_weaken; eauto.
  - intros k v Hk Hn. rewrite Hab in Hn by done. case_decide as Hd; [|congruence].
    rewrite (replace_abs_at n s i _ Hinv Hl k Hd) in Hk. eauto.
Qed.

Lemma cleanup_shrinks n ord s i now :
  store_inv n s → (i < length (shards s))%nat →
  shrinks n (expiredAt (opts s) now) s (cleanup ord s i now).
Proof.
  intros Hinv Hi. pose proof (shardAt_inv n s Hinv i Hi) as Hsh. unfold cleanup.
  destruct (isLRU s) eqn:El; (eapply setShard_shrinks; [done|done|]); rewrite El.
  - by apply cleanupLRU_pruned.
  - by apply cleanupMap_pruned.
Qed.

Lemma sweepExpired_shrinks n ord s now :
  store_inv n s → shrinks n (expiredAt (opts s) now) s (sweepExpired ord s now).
Proof.
  intros Hinv. unfold sweepExpired.
  destruct (_ || _); [by apply shrinks_refl|]. destruct (_ <? _); [by apply shrinks_refl|].
  set (s0 := mkStore _ _ _ _ _).
  assert (shrinks n (expiredAt (opts s) now) s s0) as H0.
  { split_and!; try done; [|apply drops_refl]. by destruct Hinv; constructor. }
  eapply shrinks_trans; [exact H0|]. change (shards s) with (shards s0).
  assert (∀ l s1, (∀ i, i ∈ l → (i < length (shards s1))%nat) → store_inv n s1 → opts s1 = opts s →
    shrinks n (expiredAt (opts s) now) s1 (foldl (fun s i => cleanup ord s i now) s1 l)) as Hfold.
  { induction l as [|i l IH]; intros s1 Hl H1 Ho; [by apply shrinks_refl|]. cbn [foldl].
    pose proof (cleanup_shrinks n ord s1 i now H1 (Hl i ltac:(set_solver))) as Hc. rewrite Ho in Hc.
    eapply shrinks_trans; [exact Hc|]. destruct Hc as (Hi & Ho' & Hlen & _).
    apply IH; [|done|congruence]. intros j Hj. rewrite Hlen. apply Hl. set_solver. }
  apply Hfold; [|apply H0|done]. intros i Hi%elem_of_seq. simpl in *. lia.
Qed.

(** ** Eviction *)

Lemma evictFrom_false s i : order (shardAt s i) = [] → evictFrom s i = (false, s).
Proof. intros H. unfold evictFrom. by rewrite H. Qed.

Lemma evictFrom_true n s i p :
  store_inv n s → isLRU s = true → (i < length (shards s))%nat → last (order (shardAt s i)) = Some p →
  ∃ s', evictFrom s i = (true, s') ∧ store_inv n s' ∧ opts s' = opts s ∧
    length (shards s') = length (shards s) ∧ evicts s' = evicts s + 1 ∧ live s' = live s - 1 ∧
    abs s' = delete (lruKey p.2) (abs s) ∧ shardFor s (lruKey p.2) = i ∧
    abs s !! lruKey p.2 = Some (lruValue p.2, lruLastSeen p.2).
Proof.
  intros Hinv El Hi Hlast. pose proof (shardAt_inv n s Hinv i Hi) as Hsh. rewrite El in Hsh.
  pose proof (shardAt_lookup s i Hi) as Hl.
  destruct (evict_pruned _ p Hsh Hlast) as (Hb & Hm & Hsz & Hlk).
  assert (shardFor s (lruKey p.2) = i) as Hpl by (eapply inv_placed; eauto).
  unfold evictFrom. rewrite Hlast. eexists. split; [done|].
  set (sh' := mkShard (items _) _ _ _ _) in *. set (s' := mkStore _ _ _ _ _).
  assert (store_inv n s') as Hinv'.
  { eapply (replace_inv n n s s' i _ sh'); eauto; simpl; [by rewrite El| |lia| |].
    - intros k [v Hv]. rewrite Hm in Hv. apply lookup_delete_Some in Hv as [_ Hv].
      eapply inv_placed; eauto.
    - intros Hmx. pose proof (inv_max n s Hinv Hmx). lia.
    - pose proof (inv_evicts n s Hinv). lia. }
  split_and!; [done|done|by simpl; rewrite length_insert|done|done| |done|].
  - apply map_eq. intros k.
    rewrite (replace_abs n n s s' i _ sh' Hinv Hl eq_refl k Hinv').
    case_decide as Hd.
    + rewrite Hm. destruct (decide (lruKey p.2 = k)) as [<-|]; [by rewrite !lookup_delete_eq|].
      by rewrite !lookup_delete_ne, (replace_abs_at n s i _ Hinv Hl k Hd).
    + rewrite lookup_delete_ne; [done|]. naive_solver.
  - by rewrite (replace_abs_at n s i _ Hinv Hl _ Hpl).
Qed.

(** Exactly one binding was evicted. *)
Definition evicted_one (n : Z) s s' (k : string) : Prop :=
  store_inv n s' ∧ opts s' = opts s ∧ length (shards s') = length (shards s) ∧
  evicts s' = evicts s + 1 ∧ live s' = live s - 1 ∧ abs s' = delete k (abs s) ∧ is_Some (abs s !! k).

Lemma evictFrom_cases n s i :
  store_inv n s → isLRU s = true → (i < length (shards s))%nat →
  (evictFrom s i = (false, s) ∧ order (shardAt s i) = []) ∨
  (∃ s' k, evictFrom s i = (true, s') ∧ evicted_one n s s' k ∧ shardFor s k = i).
Proof.
  intros Hinv El Hi. destruct (last (order (shardAt s i))) as [p|] eqn:E.
  - right. destruct (evictFrom_true n s i p Hinv El Hi E)
      as (s' & Hev & Hi' & Ho & Hl & He & Hlv & Ha & Hf & Hs).
    exists s', (lruKey p.2). unfold evicted_one. by rewrite Hs.
  - left. apply last_None in E. by rewrite evictFrom_false.
Qed.

Lemma evictFirst_cases n s self l :
  store_inv n s → isLRU s = true → (∀ j, j ∈ l → (j < length (shards s))%nat) →
  (evictFirst s self l = s ∧ ∀ j, j ∈ l → j ≠ self → order (shardAt s j) = []) ∨
  (∃ k, evicted_one n s (evictFirst s self l) k ∧ shardFor s k ≠ self).
Proof.
  intros Hinv El. induction l as [|j l IH]; intros Hl; [left; split; [done|set_solver]|].
  specialize (IH ltac:(set_solver)). cbn [evictFirst]. destruct (Nat.eqb_spec j self) as [->|Hne].
  - destruct IH as [[-> Hall]|Hk]; [left|by right]. split; [done|]. set_solver.
  - destruct (evictFrom_cases n s j Hinv El (Hl j ltac:(set_solver))) as [[-> Hj]|(s' & k & -> & He & Hf)].
    + destruct IH as [[-> Hall]|Hk]; [left|by right]. split; [done|].
      intros j' [->|Hj']%elem_of_cons; [done|]. by apply Hall.
    + right. exists k. by rewrite Hf.
Qed.

(** A store that counts at least one key has a non-empty shard. *)
Lemma nonempty_order n s :
  store_inv n s → isLRU s = true → (∀ j, (j < length (shards s))%nat → order (shardAt s j) = []) →
  total s = 0.
Proof.
  intros Hinv El Hall. unfold total. assert (sum_list_with shard_size (shards s) = 0%nat); [|lia].
  assert (∀ j sh, shards s !! j = Some sh → shard_size sh = 0%nat) as Hz.
  { intros j sh Hj. pose proof (inv_shards n s Hinv j sh Hj) as Hsh. rewrite El in Hsh.
    destruct Hsh as [Hi _]. specialize (Hall j (lookup_lt_Some _ _ _ Hj)).
    unfold shardAt in Hall. rewrite Hj in Hall. simpl in Hall. unfold shard_size. by rewrite Hi, Hall. }
  revert Hz. generalize (shards s) as l. induction l as [|sh l IH]; intros Hz; [done|]. simpl.
  rewrite (Hz 0%nat sh eq_refl), IH; [done|]. intros j. apply (Hz (S j)).
Qed.

(** ** Reserving a slot *)

Definition victim_ok (o : Options.options) (victim : option string) : Prop :=
  victim = None ∨ (Options.eviction o = Options.EvictLRU ∧ 0 < Options.maxKeys o).

Definition victim_count (victim : option string) : Z :=
  match victim with Some _ => 1 | None => 0 end.

Definition gone (o : Options.options) (now : Time) (victim : option string)
    (k : string) (v : T * Time) : Prop :=
  expired o now v ∨ victim = Some k.

Definition reserve_ok (now : Time) s (b : bool) s' : Prop :=
  opts s' = opts s ∧ length (shards s') = length (shards s) ∧
  if b then
    store_inv 1 s' ∧ ∃ victim, drops (gone (opts s) now victim) (abs s) (abs s') ∧
      victim_ok (opts s) victim ∧ evicts s' = evicts s + victim_count victim
  else
    store_inv 0 s' ∧ Options.eviction (opts s) = Options.EvictReject ∧
    0 < Options.maxKeys (opts s) ∧ drops (gone (opts s) now None) (abs s) (abs s') ∧
    evicts s' = evicts s ∧ live s' = Options.maxKeys (opts s).

Lemma withLive_inv n s :
  store_inv n s → (0 < Options.maxKeys (opts s) → live s < Options.maxKeys (opts s)) →
  store_inv (n + 1) (withLive s (live s + 1)).
Proof.
  intros [H1 H2 H3 H4 H5 H6 H7] Hm. constructor; simpl; try done; [|lia].
  unfold total in *. simpl. lia.
Qed.

(** Taking a free slot after some bindings went away. *)
Lemma reserve_take now s s1 victim :
  store_inv 0 s1 → opts s1 = opts s → length (shards s1) = length (shards s) →
  drops (gone (opts s) now victim) (abs s) (abs s1) → victim_ok (opts s) victim →
  evicts s1 = evicts s + victim_count victim →
  (0 < Options.maxKeys (opts s) → live s1 < Options.maxKeys (opts s)) →
  reserve_ok now s true (withLive s1 (live s1 + 1)).
Proof.
  intros Hinv Ho Hl Hd Hv He Hlt. split_and!; [done|done|apply (withLive_inv 0); [done|by rewrite Ho]|].
  exists victim. done.
Qed.

Lemma drops_expired_gone o now victim m m' :
  drops (expiredAt o now) m m' → drops (gone o now victim) m m'.
Proof. apply drops_weaken. by left. Qed.

Lemma drops_delete o now k (m m' : gmap string (T * Time)) :
  drops (expiredAt o now) m m' → drops (gone o now (Some k)) m (delete k m').
Proof.
  intros Hd. eapply drops_trans; [by apply drops_expired_gone|].
  split; [apply delete_subseteq|]. intros k' v Hk Hn. right. f_equal.
  destruct (decide (k = k')); [done|]. rewrite lookup_delete_ne in Hn by done. congruence.
Qed.

Lemma evicted_one_gone now s s1 s2 k :
  shrinks 0 (expiredAt (opts s) now) s s1 → evicted_one 0 s1 s2 k →
  isLRU s = true → 0 < Options.maxKeys (opts s) → live s1 <= Options.maxKeys (opts s) →
  reserve_ok now s true (withLive s2 (live s2 + 1)).
Proof.
  intros (H1 & Ho & Hl & He & Hd) (H2 & Ho' & Hl' & He' & Hv & Ha & _) El Hm Hlive.
  eapply (reserve_take now s s2 (Some k)); [done|congruence|congruence| | |simpl; lia|lia].
  - rewrite Ha. by apply drops_delete.
  - right. split; [|done]. by apply Z.eqb_eq.
Qed.

Lemma order_key_abs n s i p :
  store_inv n s → isLRU s = true → (i < length (shards s))%nat → p ∈ order (shardAt s i) →
  shardFor s (lruKey p.2) = i ∧ is_Some (abs s !! lruKey p.2).
Proof.
  intros Hinv El Hi Hp. pose proof (shardAt_inv n s Hinv i Hi) as Hsh. rewrite El in Hsh.
  assert (is_Some (shard_map (shardAt s i) !! lruKey p.2)) as Hsome.
  { rewrite shard_map_lru by done. rewrite <- not_eq_None_Some, order_map_lookup_None.
    intros Hn. apply Hn. by apply (list_elem_of_fmap_2 (fun p => lruKey p.2)). }
  assert (shardFor s (lruKey p.2) = i) as Hf
    by (eapply inv_placed; [done|by apply shardAt_lookup|done]).
  split; [done|]. by rewrite (replace_abs_at n s i _ Hinv (shardAt_lookup s i Hi) _ Hf).
Qed.

Lemma empty_order_stays n Q s s' i :
  store_inv n s → isLRU s = true → (i < length (shards s))%nat → order (shardAt s i) = [] →
  shrinks n Q s s' → order (shardAt s' i) = [].
Proof.
  intros Hinv El Hi He (Hinv' & Ho & Hl & _ & Hd & _).
  destruct (order (shardAt s' i)) as [|p l] eqn:Eo; [done|exfalso].
  destruct (order_key_abs n s' i p) as [Hf [v Hv]]; [done|by unfold isLRU in *; rewrite Ho|lia|rewrite Eo; by left|].
  rewrite (shardFor_length s s' _ Hl) in Hf. eapply lookup_weaken in Hv; [|exact Hd].
  rewrite (replace_abs_at n s i _ Hinv (shardAt_lookup s i Hi) _ Hf) in Hv.
  pose proof (shardAt_inv n s Hinv i Hi) as Hsh. rewrite El in Hsh.
  rewrite shard_map_lru, He in Hv by done. done.
Qed.

Section Reserve.
Context (ord : range_order T) (s : shardedStore T) (i : nat) (now : Time).
Hypothesis Hinv : store_inv 0 s.
Hypothesis Hi : (i < length (shards s))%nat.
Hypothesis Hm : 0 < Options.maxKeys (opts s).

Let Hmax : live s <= Options.maxKeys (opts s) := inv_max 0 s Hinv Hm.

(** The iteration that finds a free slot. *)
Lemma loop_take fuel swept s1 :
  opts s1 = opts s → live s1 < Options.maxKeys (opts s) →
  reserveLoop (S fuel) ord swept s1 i now = Some (true, withLive s1 (live s1 + 1)).
Proof. intros Ho Hlt. cbn [reserveLoop]. rewrite Ho. by rewrite (proj2 (Z.ltb_lt _ _) Hlt). Qed.

Lemma loop_lru_local fuel k s1 :
  isLRU s = true → Options.maxKeys (opts s) <= live s →
  evictFrom s i = (true, s1) → evicted_one 0 s s1 k →
  ∃ s', reserveLoop (S (S fuel)) ord false s i now = Some (true, s') ∧ reserve_ok now s true s'.
Proof.
  intros El Hfull Hev Hone. pose proof Hone as (H1 & Ho & _ & _ & Hv & _).
  exists (withLive s1 (live s1 + 1)). split.
  - cbn [reserveLoop]. rewrite (proj2 (Z.ltb_ge _ _) Hfull), El, Hev.
    apply (loop_take fuel); [done|lia].
  - eapply evicted_one_gone; [by apply shrinks_refl|done..].
Qed.

Lemma loop_lru_other fuel :
  isLRU s = true → Options.maxKeys (opts s) <= live s → evictFrom s i = (false, s) →
  order (shardAt s i) = [] →
  ∃ s', reserveLoop (S (S fuel)) ord false s i now = Some (true, s') ∧ reserve_ok now s true s'.
Proof.
  intros El Hfull Hev Hempty.
  pose proof (sweepExpired_shrinks 0 ord s now Hinv) as Hsw.
  set (s2 := sweepExpired ord s now) in *. pose proof Hsw as (H2 & Ho2 & Hl2 & He2 & Hd2).
  assert (live s2 <= Options.maxKeys (opts s)) as Hm2 by (rewrite <- Ho2; apply (inv_max 0); [done|by rewrite Ho2]).
  assert (∀ s3, opts s3 = opts s → live s3 < Options.maxKeys (opts s) →
    (if Options.maxKeys (opts s2) <=? live s2 then evictAnyOther s2 i else s2) = s3 →
    reserveLoop (S (S fuel)) ord false s i now = Some (true, withLive s3 (live s3 + 1))) as Hstep.
  { intros s3 Ho3 Hlt3 Heq. cbn [reserveLoop].
    rewrite (proj2 (Z.ltb_ge _ _) Hfull), El, Hev. fold s2. rewrite Heq.
    apply (loop_take fuel); done. }
  rewrite Ho2 in Hstep. destruct (Z.leb_spec (Options.maxKeys (opts s)) (live s2)) as [Hf2|Hf2].
  - assert (isLRU s2 = true) as El2 by (unfold isLRU in *; by rewrite Ho2).
    destruct (evictFirst_cases 0 s2 i (seq 0 (length (shards s2))) H2 El2) as [[_ Hall]|(k & Hone & _)].
    { intros j Hj%elem_of_seq. lia. }
    { exfalso. pose proof (inv_live 0 s2 H2) as Hlv. rewrite (nonempty_order 0 s2 H2 El2) in Hlv; [lia|].
      intros j Hj. destruct (decide (j = i)) as [->|]; [|apply Hall; [apply elem_of_seq; lia|done]].
      by eapply (empty_order_stays 0 _ s). }
    exists (withLive (evictAnyOther s2 i) (live (evictAnyOther s2 i) + 1)).
    pose proof Hone as (_ & Ho3 & _ & _ & Hv3 & _). fold (evictAnyOther s2 i) in *. split.
    + apply Hstep; [congruence|lia|done].
    + eapply evicted_one_gone; eauto.
  - exists (withLive s2 (live s2 + 1)). split; [by apply Hstep|].
    eapply (reserve_take now s s2 None); [done..| |by left|simpl; lia|lia].
    by apply drops_expired_gone.
Qed.

Lemma loop_reject fuel :
  isLRU s = false → Options.maxKeys (opts s) <= live s →
  ∃ b s', reserveLoop (S (S fuel)) ord false s i now = Some (b, s') ∧ reserve_ok now s b s'.
Proof.
  intros El Hfull. pose proof (sweepExpired_shrinks 0 ord s now Hinv) as (H2 & Ho2 & Hl2 & He2 & Hd2).
  set (s2 := sweepExpired ord s now) in *.
  assert (live s2 <= Options.maxKeys (opts s)) as Hm2 by (rewrite <- Ho2; apply (inv_max 0); [done|by rewrite Ho2]).
  assert (reserveLoop (S (S fuel)) ord false s i now = reserveLoop (S fuel) ord true s2 i now) as ->.
  { cbn [reserveLoop]. by rewrite (proj2 (Z.ltb_ge _ _) Hfull), El. }
  destruct (Z.lt_ge_cases (live s2) (Options.maxKeys (opts s))) as [Hlt|Hge].
  - exists true, (withLive s2 (live s2 + 1)). split; [by apply loop_take|].
    eapply (reserve_take now s s2 None); [done..| |by left|simpl; lia|lia].
    by apply drops_expired_gone.
  - exists false, s2. assert (isLRU s2 = false) as El2 by (unfold isLRU in *; by rewrite Ho2). split.
    + cbn [reserveLoop]. rewrite Ho2. by rewrite (proj2 (Z.ltb_ge _ _) Hge), El2.
    + split_and!; [done|done|done| |done|by apply drops_expired_gone|lia|lia].
      destruct (Options.ok_eviction _ (inv_opts 0 s Hinv)) as [|Hlru]; [done|].
      unfold isLRU in El. by rewrite Hlru in El.
Qed.

End Reserve.

(** The loop always comes to a decision. *)
Lemma reserveSlot_total ord s i now :
  store_inv 0 s → (i < length (shards s))%nat →
  ∃ b s', reserveSlot ord s i now = Some (b, s') ∧ reserve_ok now s b s'.
Proof.
  intros Hinv Hi. unfold reserveSlot. destruct (Z.leb_spec (Options.maxKeys (opts s)) 0) as [Hz|Hm].
  { exists true, (withLive s (live s + 1)). split; [done|].
    eapply (reserve_take now s s None); [done..|apply drops_refl|by left|simpl; lia|lia]. }
  unfold reserve_fuel. destruct (Z.lt_ge_cases (live s) (Options.maxKeys (opts s))) as [Hlt|Hge].
  { exists true, (withLive s (live s + 1)). split; [by apply (loop_take ord s)|].
    eapply (reserve_take now s s None); [done..|apply drops_refl|by left|simpl; lia|lia]. }
  destruct (isLRU s) eqn:El; [|by apply loop_reject].
  destruct (evictFrom_cases 0 s i Hinv El Hi) as [[Hev He]|(s1 & k & Hev & Hone & _)].
  - destruct (loop_lru_other ord s i now Hinv Hi Hm 2 El Hge Hev He) as (s' & H1 & H2). eauto.
  - destruct (loop_lru_local ord s i now Hinv Hi Hm 2 k s1 El Hge Hev Hone) as (s' & H1 & H2). eauto.
Qed.

(** ** Changing the binding of one key *)

Section Bind.
Context (s : shardedStore T) (i : nat) (key : string) (v : T * Time) (sh' : shard T).
Hypothesis Hi : (i < length (shards s))%nat.
Hypothesis Hkey : shardFor s key = i.
Hypothesis Hsh : shard_inv (isLRU s) sh'.
Hypothesis Hmap : shard_map sh' = <[key := v]> (shard_map (shardAt s i)).

Lemma bind_inv n n' :
  store_inv n s → Z.of_nat (shard_size sh') + n' = Z.of_nat (shard_size (shardAt s i)) + n →
  store_inv n' (replaceShard s i sh') ∧ abs (replaceShard s i sh') = <[key := v]> (abs s).
Proof.
  intros Hinv Hsz. pose proof (shardAt_lookup s i Hi) as Hl.
  assert (store_inv n' (replaceShard s i sh')) as Hinv'.
  { eapply (replace_inv n n' s _ i _ sh'); eauto; simpl; [|lia|apply (inv_max n s Hinv)|by apply (inv_evicts n)].
    intros k [w Hw]. rewrite Hmap in Hw. destruct (decide (key = k)) as [<-|]; [done|].
    rewrite lookup_insert_ne in Hw by done. eapply inv_placed; eauto. }
  split; [done|]. apply map_eq. intros k.
  rewrite (replace_abs n n' s (replaceShard s i sh') i _ sh' Hinv Hl eq_refl k Hinv').
  case_decide as Hd.
  - rewrite Hmap. destruct (decide (key = k)) as [<-|]; [by rewrite !lookup_insert_eq|].
    by rewrite !lookup_insert_ne, (replace_abs_at n s i _ Hinv Hl k Hd).
  - rewrite lookup_insert_ne; [done|]. naive_solver.
Qed.
End Bind.

Lemma rebind_store n s i key v sh' :
  store_inv n s → (i < length (shards s))%nat → shardFor s key = i →
  rebinds (isLRU s) key v (shardAt s i) sh' →
  store_inv n (replaceShard s i sh') ∧ abs (replaceShard s i sh') = <[key := v]> (abs s).
Proof. intros Hinv Hi Hk (Hsh & Hm & Hsz). eapply (bind_inv s i key v sh'); eauto. lia. Qed.

Lemma add_store n s i key v sh' :
  store_inv (n + 1) s → (i < length (shards s))%nat → shardFor s key = i →
  adds (isLRU s) key v (shardAt s i) sh' →
  store_inv n (replaceShard s i sh') ∧ abs (replaceShard s i sh') = <[key := v]> (abs s).
Proof. intros Hinv Hi Hk (Hsh & Hm & Hsz). eapply (bind_inv s i key v sh'); eauto. lia. Qed.

(** ** The contract of [withState] *)

Section Contract.
Context (o : Options.options) (create : Time → T) (now : Time) (key : string).
Context (fn : T → Time → T * (Result * option error)).

(** What a call may return and do to the abstract map; [victim] is the key
    evicted to make room, if any. *)
Inductive withState_spec (m : gmap string (T * Time)) :
    Result * option error → option string → gmap string (T * Time) → Prop :=
| spec_hit v t m0 v' r :
    m !! key = Some (v, t) → drops (gone o now None) m m0 → fn v now = (v', r) →
    withState_spec m r None (<[key := (v', now)]> m0)
| spec_create victim m0 v' r :
    m !! key = None → drops (gone o now victim) m m0 → victim_ok o victim →
    (0 < Options.maxKeys o → Z.of_nat (size m0) < Options.maxKeys o) →
    fn (create now) now = (v', r) →
    withState_spec m r victim (<[key := (v', now)]> m0)
| spec_full m0 :
    m !! key = None → Options.eviction o = Options.EvictReject → 0 < Options.maxKeys o →
    drops (gone o now None) m m0 → Z.of_nat (size m0) = Options.maxKeys o →
    withState_spec m (zeroResult, Some Options.ErrMaxKeysExceeded) None m0.
End Contract.

(** What [getOrCreateMap] and [getOrCreateLRU] share: the state to use, and
    the map with the key bound to it. *)
Definition getOrCreate_ok create s (key : string) (now : Time) (ov : option T) s' : Prop :=
  store_inv 0 s' ∧ opts s' = opts s ∧ length (shards s') = length (shards s) ∧
  match abs s !! key with
  | Some (v, _) =>
      ov = Some v ∧ evicts s' = evicts s ∧
      ∃ m0, drops (gone (opts s) now None) (abs s) m0 ∧ abs s' = <[key := (v, now)]> m0
  | None =>
      match ov with
      | Some v =>
          v = create now ∧ ∃ victim m0, drops (gone (opts s) now victim) (abs s) m0 ∧
            victim_ok (opts s) victim ∧ evicts s' = evicts s + victim_count victim ∧
            (0 < Options.maxKeys (opts s) → Z.of_nat (size m0) < Options.maxKeys (opts s)) ∧
            abs s' = <[key := (v, now)]> m0
      | None =>
          Options.eviction (opts s) = Options.EvictReject ∧ 0 < Options.maxKeys (opts s) ∧
          evicts s' = evicts s ∧ drops (gone (opts s) now None) (abs s) (abs s') ∧
          Z.of_nat (size (abs s')) = Options.maxKeys (opts s)
      end
  end.

(** A key just used is not expired. *)
Lemma fresh_not_expired o now (v : T) : ¬ expired o now (v, now).
Proof. unfold expired. simpl. rewrite GoTime.Sub_diag. lia. Qed.

(** Hit: touch the entry, then clean the shard. *)
Lemma hit_ok ord create s key now v t sh1 :
  store_inv 0 s → abs s !! key = Some (v, t) →
  rebinds (isLRU s) key (v, now) (shardAt s (shardFor s key)) sh1 →
  getOrCreate_ok create s key now (Some v)
    (cleanup ord (replaceShard s (shardFor s key) sh1) (shardFor s key) now).
Proof.
  intros Hinv Hk Hre. set (i := shardFor s key) in *.
  pose proof (shardFor_lt 0 s Hinv key) as Hi. fold i in Hi.
  destruct (rebind_store 0 s i key (v, now) sh1 Hinv Hi eq_refl Hre) as [H1 Ha1].
  set (s1 := replaceShard s i sh1) in *.
  assert (length (shards s1) = length (shards s)) as Hl1 by by simpl; rewrite length_insert.
  destruct (cleanup_shrinks 0 ord s1 i now H1 ltac:(lia)) as (H2 & Ho2 & Hl2 & He2 & Hd2).
  set (s2 := cleanup ord s1 i now) in *. rewrite Ha1 in Hd2. change (opts s1) with (opts s) in *.
  assert (abs s2 !! key = Some (v, now)) as Hk2.
  { eapply drops_keep; [exact Hd2|apply lookup_insert_eq|apply fresh_not_expired]. }
  split_and!; [done|done|lia|]. rewrite Hk. split_and!; [done|done|].
  exists (<[key := (v, t)]> (abs s2)). split.
  - destruct Hd2 as [Hsub HQ]. split.
    + apply map_subseteq_spec. intros k w. destruct (decide (key = k)) as [<-|Hne].
      * rewrite lookup_insert_eq. congruence.
      * rewrite lookup_insert_ne by done. intros Hw. eapply lookup_weaken in Hw; [|exact Hsub].
        by rewrite lookup_insert_ne in Hw.
    + intros k w Hw Hn. left. destruct (decide (key = k)) as [<-|Hne].
      * by rewrite lookup_insert_eq in Hn.
      * rewrite lookup_insert_ne in Hn by done. apply (HQ k w); [by rewrite lookup_insert_ne|done].
  - rewrite insert_insert_eq. by rewrite insert_id.
Qed.

Lemma reserve_ok_after now s s1 b s2 :
  shrinks 0 (expiredAt (opts s) now) s s1 → reserve_ok now s1 b s2 → reserve_ok now s b s2.
Proof.
  intros (_ & Ho & Hl & He & Hd) (Ho' & Hl' & Hb). unfold reserve_ok. rewrite Ho in *.
  split_and!; [done|congruence|]. destruct b.
  - destruct Hb as (Hi & victim & Hd' & Hv & Hev). split; [done|]. exists victim.
    split_and!; [|done|lia]. eapply drops_trans; [|exact Hd']. by apply drops_expired_gone.
  - destruct Hb as (Hi & Hr & Hm & Hd' & Hev & Hlv). split_and!; try done; [|lia].
    eapply drops_trans; [|exact Hd']. by apply drops_expired_gone.
Qed.

(** Miss: clean the shard, then reserve. *)
Lemma miss_reserve ord s key now :
  store_inv 0 s → abs s !! key = None →
  let i := shardFor s key in
  ∃ b s2, reserveSlot ord (cleanup ord s i now) i now = Some (b, s2) ∧ reserve_ok now s b s2 ∧
    shardFor s2 key = i ∧ (i < length (shards s2))%nat ∧ abs s2 !! key = None.
Proof.
  intros Hinv Hk i. pose proof (shardFor_lt 0 s Hinv key) as Hi. fold i in Hi.
  pose proof (cleanup_shrinks 0 ord s i now Hinv Hi) as Hc. pose proof Hc as (H1 & Ho1 & Hl1 & _).
  destruct (reserveSlot_total ord (cleanup ord s i now) i now H1 ltac:(lia)) as (b & s2 & Hr & Hok).
  apply (reserve_ok_after _ _ _ _ _ Hc) in Hok. pose proof Hok as (_ & Hl2 & Hb).
  exists b, s2. split_and!; [done|done|by apply shardFor_length|lia|].
  destruct b.
  - destruct Hb as (_ & victim & Hd & _). by eapply drops_none.
  - destruct Hb as (_ & _ & _ & Hd & _). by eapply drops_none.
Qed.

Lemma full_ok create s key now s2 :
  abs s !! key = None → reserve_ok now s false s2 → getOrCreate_ok create s key now None s2.
Proof.
  intros Hk (Ho & Hl & Hi & Hr & Hm & Hd & He & Hlv).
  split_and!; [done|done|done|]. rewrite Hk. split_and!; try done.
  pose proof (live_eq 0 s2 Hi). lia.
Qed.

Lemma create_ok create s key now s2 sh' :
  abs s !! key = None → reserve_ok now s true s2 →
  (shardFor s2 key < length (shards s2))%nat →
  adds (isLRU s2) key (create now, now) (shardAt s2 (shardFor s2 key)) sh' →
  getOrCreate_ok create s key now (Some (create now)) (replaceShard s2 (shardFor s2 key) sh').
Proof.
  intros Hk (Ho & Hl & Hi & victim & Hd & Hv & He) Hlt Hadd.
  destruct (add_store 0 s2 _ key _ sh' Hi Hlt eq_refl Hadd) as [Hi3 Ha3].
  split_and!; [done|done|simpl; rewrite length_insert; lia|]. rewrite Hk.
  split; [done|]. exists victim, (abs s2). split_and!; try done.
  intros Hm. pose proof (live_eq 1 s2 Hi). rewrite <- Ho in *. pose proof (inv_max 1 s2 Hi Hm). lia.
Qed.

Lemma getOrCreateMap_ok ord create s key now :
  store_inv 0 s → isLRU s = false →
  ∃ ov s', getOrCreateMap ord create s (shardFor s key) key now = Some (ov, s') ∧
    getOrCreate_ok create s key now ov s'.
Proof.
  intros Hinv El. pose proof (shardFor_lt 0 s Hinv key) as Hi.
  pose proof (shardAt_inv 0 s Hinv _ Hi) as Hsh. rewrite El in Hsh.
  pose proof (abs_lookup 0 s Hinv key) as Hk. rewrite items_lookup in Hk by done.
  unfold getOrCreateMap. destruct (items (shardAt s (shardFor s key)) !! key) as [e|] eqn:E; simpl in Hk.
  - do 2 eexists. split; [reflexivity|]. eapply hit_ok; [done|done|]. rewrite El.
    by apply touchItem_rebinds.
  - destruct (miss_reserve ord s key now Hinv Hk) as (b & s2 & -> & Hok & Hf & Hlt & Hk2).
    destruct b; [|do 2 eexists; split; [done|by apply full_ok]].
    pose proof Hok as (Ho & _ & Hi2 & _).
    assert (isLRU s2 = false) as El2 by (unfold isLRU in *; by rewrite Ho).
    pose proof (shardAt_inv 1 s2 Hi2 _ Hlt) as Hsh2. rewrite El2 in Hsh2. rewrite <- Hf in *.
    rewrite (abs_lookup 1 s2 Hi2), items_lookup in Hk2 by done.
    apply fmap_None in Hk2. rewrite Hk2.
    do 2 eexists. split; [done|]. apply create_ok; [done|done|done|]. rewrite El2.
    by apply insertItem_adds.
Qed.

Lemma getOrCreateLRU_ok ord create s key now :
  store_inv 0 s → isLRU s = true →
  ∃ ov s', getOrCreateLRU ord create s (shardFor s key) key now = Some (ov, s') ∧
    getOrCreate_ok create s key now ov s'.
Proof.
  intros Hinv El. pose proof (shardFor_lt 0 s Hinv key) as Hi.
  pose proof (shardAt_inv 0 s Hinv _ Hi) as Hsh. rewrite El in Hsh.
  pose proof (abs_lookup 0 s Hinv key) as Hk. rewrite lruLookup_map in Hk by done.
  unfold getOrCreateLRU. fold (lruLookup (shardAt s (shardFor s key)) key).
  destruct (lruLookup (shardAt s (shardFor s key)) key) as [[id e]|] eqn:E; simpl in Hk.
  - do 2 eexists. split; [reflexivity|]. eapply hit_ok; [done|done|]. rewrite El.
    by apply touchElem_rebinds.
  - destruct (miss_reserve ord s key now Hinv Hk) as (b & s2 & -> & Hok & Hf & Hlt & Hk2).
    destruct b; [|do 2 eexists; split; [done|by apply full_ok]].
    pose proof Hok as (Ho & _ & Hi2 & _).
    assert (isLRU s2 = true) as El2 by (unfold isLRU in *; by rewrite Ho).
    pose proof (shardAt_inv 1 s2 Hi2 _ Hlt) as Hsh2. rewrite El2 in Hsh2. rewrite <- Hf in *.
    rewrite (abs_lookup 1 s2 Hi2) in Hk2. pose proof Hk2 as Hk3.
    rewrite lruLookup_map in Hk2 by done.
    fold (lruLookup (shardAt s2 (shardFor s2 key)) key).
    apply fmap_None in Hk2. rewrite Hk2.
    do 2 eexists. split; [done|]. apply create_ok; [done|done|done|]. rewrite El2.
    by apply pushElem_adds.
Qed.

(** The write-back of the state. *)
Lemma storeState_ok n s key v v0 t :
  store_inv n s → abs s !! key = Some (v0, t) →
  let s' := storeState s (shardFor s key) key v in
  store_inv n s' ∧ abs s' = <[key := (v, t)]> (abs s) ∧ opts s' = opts s ∧
  length (shards s') = length (shards s) ∧ evicts s' = evicts s.
Proof.
  intros Hinv Hk s'. pose proof (shardFor_lt n s Hinv key) as Hi.
  pose proof (shardAt_inv n s Hinv _ Hi) as Hsh. rewrite (abs_lookup n s Hinv) in Hk.
  assert (∃ sh', s' = replaceShard s (shardFor s key) sh' ∧
    rebinds (isLRU s) key (v, t) (shardAt s (shardFor s key)) sh') as (sh' & Hs' & Hre).
  { unfold s', storeState. destruct (isLRU s); eexists; (split; [reflexivity|]).
    - by eapply writeElems_rebinds.
    - by eapply writeItem_rebinds. }
  destruct (rebind_store n s _ key _ sh' Hinv Hi eq_refl Hre) as [H1 H2]. rewrite Hs'.
  split_and!; [done|done|done|by simpl; rewrite length_insert|done].
Qed.

(** ** Refinement *)

Lemma withState_refines ord create s key now fn :
  store_inv 0 s →
  ∃ r s' victim, withState ord create s key now fn = Some (r, s') ∧
    store_inv 0 s' ∧ opts s' = opts s ∧ evicts s' = evicts s + victim_count victim ∧
    withState_spec (opts s) create now key fn (abs s) r victim (abs s').
Proof.
  intros Hinv. unfold withState.
  assert (∃ ov s', (if isLRU s then getOrCreateLRU ord create s (shardFor s key) key now
    else getOrCreateMap ord create s (shardFor s key) key now) = Some (ov, s') ∧
    getOrCreate_ok create s key now ov s') as (ov & s1 & -> & H1 & Ho & Hl & Hcase).
  { destruct (isLRU s) eqn:El; [by apply getOrCreateLRU_ok|by apply getOrCreateMap_ok]. }
  rewrite <- (shardFor_length s s1 key Hl).
  destruct (abs s !! key) as [[v t]|] eqn:Ek.
  - destruct Hcase as (-> & He & m0 & Hd & Ha). destruct (fn v now) as [v' r] eqn:Ef.
    destruct (storeState_ok 0 s1 key v' v now H1) as (H2 & Ha2 & Ho2 & _ & He2);
      [rewrite Ha; apply lookup_insert_eq|].
    do 2 eexists. exists None. split_and!; [done|done|congruence|simpl; lia|].
    rewrite Ha2, Ha, insert_insert_eq. by eapply spec_hit.
  - destruct ov as [v|].
    + destruct Hcase as (-> & victim & m0 & Hd & Hv & He & Hsz & Ha).
      destruct (fn (create now) now) as [v' r] eqn:Ef.
      destruct (storeState_ok 0 s1 key v' (create now) now H1) as (H2 & Ha2 & Ho2 & _ & He2);
        [rewrite Ha; apply lookup_insert_eq|].
      do 2 eexists. exists victim. split_and!; [done|done|congruence|lia|].
      rewrite Ha2, Ha, insert_insert_eq. by eapply spec_create.
    + destruct Hcase as (Hr & Hm & He & Hd & Hsz).
      do 2 eexists. exists None. split_and!; [done|done|done|simpl; lia|]. by apply spec_full.
Qed.

End Store.

End StoreSpec.
