(* ===== verification/TokenBucket.v ===== *)
(** * TokenBucket: the decision of memory/token_bucket.go

    State of one key's bucket and [refillAndDecide], with the float
    operations of the source in the source's order. *)

From Stdlib Require Import ZArith Lia Bool.
From stdpp Require Import base strings list.
From S2P Require Import Prelude Float64 FloatFacts GoTime Core Numeric.

#[local] Open Scope Z_scope.

Module TokenBucket.

Record bucket := mkBucket {
  tokens : spec_float;
  lastRefilled : Time
}.

(** The state a new key starts with: a full bucket. *)
Definition newBucket (capacity : spec_float) (now : Time) : bucket := mkBucket capacity now.

(** The tokens after the refill and the clamp to the capacity. *)
Definition refill (capacity rate : spec_float) (b : bucket) (now : Time) : spec_float :=
  let elapsed := GoTime.Seconds (GoTime.Sub now (lastRefilled b)) in
  let t := F64.add (tokens b) (F64.mul elapsed rate) in
  if F64.gt t capacity then capacity else t.

Definition refillAndDecide `{GoArch} (capacity rate : spec_float) (b : bucket) (now : Time)
    : bucket * (Result * option error) :=
  let t := refill capacity rate b now in
  if F64.ge t (F64.of_int 1) then
    let t' := F64.sub t (F64.of_int 1) in
    (mkBucket t' now, (mkResult true (Numeric.remainingFloor t') 0, None))
  else
    let retryAfter := Numeric.durationFromSecondsCeil (F64.div (F64.sub (F64.of_int 1) t) rate) in
    (mkBucket t now, (mkResult false 0 retryAfter, None)).

(** Requests of one key, decided one after another. *)
Fixpoint run `{GoArch} (capacity rate : spec_float) (b : bucket) (nows : list Time)
    : bucket * list Result :=
  match nows with
  | [] => (b, [])
  | now :: rest =>
      let '(b', (r, _)) := refillAndDecide capacity rate b now in
      let '(b'', rs) := run capacity rate b' rest in (b'', r :: rs)
  end.

(** ** Facts *)

(** The invariant of a bucket: between empty and full. *)
Definition bucket_ok (capacity : spec_float) (b : bucket) : Prop :=
  fin (tokens b) ∧ 0 <= fval (tokens b) <= fval capacity.

Section Facts.
Context `{GoArch} (capacity rate : spec_float).
Hypothesis Hp : Numeric.params_ok capacity rate.

Lemma newBucket_ok now : bucket_ok capacity (newBucket capacity now).
Proof. destruct Hp as (Hf & H1 & _). pose proof unit_sc_pos. split; simpl; [done|lia]. Qed.

(** A refill never takes tokens away and never exceeds the capacity. *)
Lemma refill_bounds b now :
  bucket_ok capacity b → lastRefilled b <= now →
  fin (refill capacity rate b now) ∧
  fval (tokens b) <= fval (refill capacity rate b now) <= fval capacity.
Proof.
  intros [Hf Hb] Ht. destruct Hp as (Hcf & Hc1 & Hrf & Hr). pose proof unit_sc_pos.
  destruct (GoTime.Seconds_nonneg (GoTime.Sub now (lastRefilled b))) as [Hsf Hs0].
  { split; [by apply GoTime.Sub_nonneg|apply GoTime.Sub_range]. }
  destruct (mul_nonneg _ rate Hsf Hrf Hs0) as [Hpn Hp0]; [lia|].
  destruct (add_grows (tokens b) _ Hf Hpn Hp0) as [Han Hag].
  destruct (clamp_above _ capacity Han Hcf) as [Hn Hv]. unfold refill.
  split; [|lia]. eapply (fin_between _ (tokens b) capacity); fin_side. lia.
Qed.

(** At the same instant the refill adds nothing. *)
Lemma refill_same b :
  bucket_ok capacity b →
  fin (refill capacity rate b (lastRefilled b)) ∧
  fval (refill capacity rate b (lastRefilled b)) = fval (tokens b).
Proof.
  intros [Hf Hb]. destruct Hp as (Hcf & Hc1 & Hrf & Hr). unfold refill.
  rewrite GoTime.Sub_diag, GoTime.Seconds_0.
  destruct (mul_zero_l (S754_zero false) rate I Hrf eq_refl) as [Hmf Hmv].
  destruct (add_zero_exact (tokens b) _ Hf Hmf Hmv) as [Haf Hav].
  destruct (clamp_above _ capacity (fin_num _ Haf) Hcf) as [Hn Hv]. cbv zeta in Hn, Hv.
  assert (fval (if F64.gt (F64.add (tokens b) (F64.mul (S754_zero false) rate)) capacity
                then capacity else F64.add (tokens b) (F64.mul (S754_zero false) rate))
          = fval (tokens b)) as Heq by lia.
  split; [|done]. eapply (fin_between _ (tokens b) (tokens b)); fin_side. lia.
Qed.

(** Enough idle time fills the bucket. *)
Lemma refill_full b now :
  bucket_ok capacity b → lastRefilled b <= now →
  fval capacity <=
    fval (F64.mul (GoTime.Seconds (GoTime.Sub now (lastRefilled b))) rate) →
  fval (refill capacity rate b now) = fval capacity.
Proof.
  intros [Hf Hb] Ht Henough. destruct Hp as (Hcf & Hc1 & Hrf & Hr). pose proof unit_sc_pos.
  destruct (GoTime.Seconds_nonneg (GoTime.Sub now (lastRefilled b))) as [Hsf Hs0].
  { split; [by apply GoTime.Sub_nonneg|apply GoTime.Sub_range]. }
  destruct (mul_nonneg _ rate Hsf Hrf Hs0) as [Hpn Hp0]; [lia|]. unfold refill.
  destruct (add_grows (tokens b) _ Hf Hpn Hp0) as [Han _].
  destruct (clamp_above _ capacity Han Hcf) as [_ ->]. apply Z.min_r.
  destruct (num_nonneg_cases _ Hpn Hp0) as [Hpf|Heq].
  - apply add_ge; fin_side. lia.
  - rewrite Heq. replace (F64.add (tokens b) (S754_infinity false)) with (S754_infinity false)
      by (by destruct (tokens b)). pose proof (fin_bound _ Hcf). simpl. lia.
Qed.

(** ** The decision *)

Hypothesis Hcap : fval capacity < 2 ^ 53 * unit_sc.

(** With a whole token available the request passes, takes exactly one
    token, and [Remaining] is the whole part of what is left. *)
Lemma decide_allow b now :
  bucket_ok capacity b → lastRefilled b <= now →
  unit_sc <= fval (refill capacity rate b now) →
  ∃ t', refillAndDecide capacity rate b now =
      (mkBucket t' now, (mkResult true (fval t' / unit_sc) 0, None)) ∧
    fin t' ∧ fval t' = fval (refill capacity rate b now) - unit_sc.
Proof.
  intros Hb Ht H1. destruct (refill_bounds b now Hb Ht) as [Hf Hr]. destruct one_exact as [Hof Hov].
  pose proof unit_sc_pos. unfold refillAndDecide.
  assert (F64.ge (refill capacity rate b now) (F64.of_int 1) = true) as ->
    by (apply le_fval; fin_side; lia).
  destruct (sub_int_exact (refill capacity rate b now) 1) as [Hsf Hsv]; [done|lia..|].
  eexists. split; [|split; [exact Hsf|lia]]. do 4 f_equal.
  rewrite Numeric.remainingFloor_spec by (done || lia). apply Z.max_r, Z.div_pos; lia.
Qed.

(** The wait that a denial computes: [(1 - tokens) / rate]. *)
Definition wait (t : spec_float) : spec_float := F64.div (F64.sub (F64.of_int 1) t) rate.

Lemma wait_nonneg t :
  fin t → 0 <= fval t < unit_sc → num (wait t) ∧ 0 <= fval (wait t).
Proof.
  intros Hf Hr. destruct one_exact as [Hof Hov]. destruct Hp as (_ & _ & Hrf & Hrp).
  pose proof unit_sc_pos.
  assert (0 <= fval (F64.sub (F64.of_int 1) t) <= unit_sc) as Hs.
  { split; [apply (sub_ge _ _ (S754_zero false)); fin_side; cbn [fval]; lia|].
    rewrite <- Hov. apply sub_le; fin_side; lia. }
  assert (fin (F64.sub (F64.of_int 1) t)) as Hsf.
  { eapply (fin_between _ (S754_zero false) (F64.of_int 1)); fin_side; [by apply sub_num|].
    cbn [fval]. lia. }
  split; [by apply div_num|]. apply (div_ge _ _ (S754_zero false)); fin_side; [lia|].
  cbn [fval]. nia.
Qed.

(** Without a whole token the request is denied, nothing is taken, and
    [RetryAfter] is the computed wait as a duration. *)
Lemma decide_deny b now :
  bucket_ok capacity b → lastRefilled b <= now →
  fval (refill capacity rate b now) < unit_sc →
  ∃ d, refillAndDecide capacity rate b now =
      (mkBucket (refill capacity rate b now) now, (mkResult false 0 d, None)) ∧
    Numeric.delay_of (wait (refill capacity rate b now)) d.
Proof.
  intros Hb Ht H1. destruct (refill_bounds b now Hb Ht) as [Hf Hr]. destruct one_exact as [Hof Hov].
  destruct Hb as [_ Hb]. unfold refillAndDecide.
  assert (F64.ge (refill capacity rate b now) (F64.of_int 1) = false) as ->
    by (apply le_false_fval; fin_side; lia).
  eexists. split; [reflexivity|].
  destruct (wait_nonneg (refill capacity rate b now)) as [Hn H0]; [done|lia|].
  by apply Numeric.duration_delay.
Qed.

(** A bucket that lacks less than [2^-51] of a token computes, at a rate of at
    least one per second, a wait below the tolerance. *)
Lemma wait_short t :
  fin t → unit_sc - sc (-51) <= fval t < unit_sc → unit_sc <= fval rate →
  fval (Numeric.nanosOf (wait t)) < fval Numeric.floatEpsilonNanos.
Proof.
  intros Hf Ht Hr1. destruct one_exact as [Hof Hov]. destruct Hp as (_ & _ & Hrf & Hrp).
  destruct Numeric.eps_bounds as [_ He]. destruct GoTime.billion_exact as [Hbf Hbv]. pose proof unit_sc_pos.
  pose proof (sc_pos (-51) ltac:(lia)) as H51. pose proof (sc_add (-51) 30 ltac:(lia) ltac:(lia)) as H21.
  pose proof (sc_add (-21) 1 ltac:(lia) ltac:(lia)) as H20. change (-51 + 30) with (-21) in H21. change (-21 + 1) with (-20) in H20.
  pose proof (sc_mono (-20) 0 ltac:(lia)) as Hm. change (sc 0) with unit_sc in Hm. pose proof (int_lt_inf 1 ltac:(lia)).
  destruct (float_of_mantissa 1 (-51)) as (z & Hz & Hzv); [lia|lia|lia|].
  destruct (float_of_mantissa 1 (-21)) as (y & Hy & Hyv); [lia|lia|lia|]. rewrite Z.mul_1_l in Hzv, Hyv.
  assert (fval (F64.sub (F64.of_int 1) t) <= fval z) as Hs by (apply sub_le; fin_side; lia).
  assert (0 <= fval (F64.sub (F64.of_int 1) t)) as Hs0 by (apply (sub_ge _ _ (S754_zero false)); fin_side; cbn [fval]; lia).
  assert (fin (F64.sub (F64.of_int 1) t)) as Hsf.
  { apply num_fin; [by apply sub_num|lia]. }
  destruct (wait_nonneg t Hf) as [Hwn Hw0]; [lia|].
  assert (fval (wait t) <= fval z) as Hw by (apply div_le; fin_side; nia).
  assert (fin (wait t)) as Hwf by (apply num_fin; [exact Hwn|lia]).
  assert (fval (Numeric.nanosOf (wait t)) <= fval y); [|lia].
  apply mul_le; fin_side. unfold GoTime.Second. rewrite Hbv, Hyv. nia.
Qed.

(** Either way the bucket stays between empty and full, its clock advances
    to [now], and the result obeys the common contract. *)
Lemma decide_ok b now :
  bucket_ok capacity b → lastRefilled b <= now →
  ∃ b' r, refillAndDecide capacity rate b now = (b', (r, None)) ∧
    bucket_ok capacity b' ∧ lastRefilled b' = now ∧ result_ok r.
Proof.
  intros Hb Ht. destruct (refill_bounds b now Hb Ht) as [Hf Hr]. pose proof unit_sc_pos.
  pose proof Hb as [_ Hb0].
  destruct (Z.le_gt_cases unit_sc (fval (refill capacity rate b now))) as [H1|H1].
  - destruct (decide_allow b now Hb Ht H1) as (t' & -> & Hf' & Hv'). do 2 eexists.
    split_and!; [done|split; simpl; [done|lia]|done|].
    split_and!; simpl; try done. apply Z.div_pos; lia.
  - destruct (decide_deny b now Hb Ht H1) as (d & -> & Hd & _). do 2 eexists.
    split_and!; [done|split; simpl; [done|lia]|done|].
    split_and!; simpl; try done; lia.
Qed.

(** ** Runs *)

Lemma run_ok b nows :
  bucket_ok capacity b → nondecreasing (lastRefilled b) nows →
  bucket_ok capacity (run capacity rate b nows).1 ∧
  lastRefilled (run capacity rate b nows).1 = final (lastRefilled b) nows ∧
  length (run capacity rate b nows).2 = length nows ∧
  Forall result_ok (run capacity rate b nows).2.
Proof.
  revert b. induction nows as [|now nows IH]; intros b Hb Hm; [done|].
  destruct Hm as [Ht Hm]. cbn [run].
  destruct (decide_ok b now Hb Ht) as (b' & r & -> & Hb' & Hl & Hr). rewrite <- Hl in Hm.
  specialize (IH b' Hb' Hm). destruct (run capacity rate b' nows) as [b'' rs]. simpl in *.
  rewrite final_cons, <- Hl. destruct IH as (? & ? & -> & ?). split_and!; try done. by constructor.
Qed.

(** The whole tokens in the bucket. *)
Definition whole (b : bucket) : Z := fval (tokens b) / unit_sc.

Lemma burst_step b :
  bucket_ok capacity b →
  ∃ b' r, refillAndDecide capacity rate b (lastRefilled b) = (b', (r, None)) ∧
    bucket_ok capacity b' ∧ lastRefilled b' = lastRefilled b ∧
    Allowed r = (0 <? whole b) ∧ (Allowed r = true → Remaining r = whole b - 1) ∧
    whole b' = Z.max 0 (whole b - 1).
Proof.
  intros Hb. pose proof unit_sc_pos as Hu. destruct (refill_same b Hb) as [Hf Hsame].
  pose proof Hb as [_ Hb0]. unfold whole.
  assert (lastRefilled b <= lastRefilled b) as Hle by lia.
  destruct (Z.le_gt_cases unit_sc (fval (tokens b))) as [H1|H1].
  - destruct (decide_allow b _ Hb Hle ltac:(lia)) as (t' & -> & Hf' & Hv').
    assert (fval t' / unit_sc = fval (tokens b) / unit_sc - 1) as Hdiv.
    { rewrite Hv', Hsame. replace (fval (tokens b) - unit_sc) with (fval (tokens b) + (-1) * unit_sc) by lia.
      rewrite Z.div_add by lia. lia. }
    assert (1 <= fval (tokens b) / unit_sc) as Hone by (apply Z.div_le_lower_bound; lia).
    do 2 eexists. split_and!; [done|split; simpl; [done|lia]|done| |done|simpl; lia].
    symmetry. apply Z.ltb_lt. lia.
  - destruct (decide_deny b _ Hb Hle ltac:(lia)) as (d & -> & _).
    do 2 eexists. split_and!; [done|split; simpl; [done|lia]|done| |done|simpl].
    + by rewrite (Z.div_small (fval (tokens b))) by lia.
    + rewrite Hsame, (Z.div_small (fval (tokens b))) by lia. done.
Qed.

(** A burst at one instant: the whole tokens are handed out one by one,
    [Remaining] counts down to zero, and then everything is denied. *)
Lemma burst_run n b i r :
  bucket_ok capacity b →
  (run capacity rate b (replicate n (lastRefilled b))).2 !! i = Some r →
  Allowed r = (Z.of_nat i <? whole b) ∧
  (Allowed r = true → Remaining r = whole b - 1 - Z.of_nat i).
Proof.
  revert b i. induction n as [|n IH]; intros b i Hb Hi; [done|]. cbn [replicate run] in Hi.
  destruct (burst_step b Hb) as (b' & r0 & Heq & Hb' & Hl & Ha & Hrem & Hw). rewrite Heq, <- Hl in Hi.
  specialize (IH b'). destruct (run capacity rate b' _) as [b'' rs].
  destruct i as [|i]; simpl in Hi; simplify_eq.
  - rewrite Z.sub_0_r. done.
  - destruct (IH i Hb' Hi) as [-> Hr]. rewrite Hw in *. split; [zbool; lia|].
    intros Hlt. rewrite (Hr Hlt). apply Z.ltb_lt in Hlt. lia.
Qed.

(** ** How much a refill can add

    The product of the elapsed seconds and the rate exceeds the exact
    product by a factor of at most [1 + 6 * 2^-52]; the addition adds at
    most [capacity * 2^-52]; each adds at most the smallest float. *)

(** What one request may add to the bucket beyond the exact accrual. *)
Definition step_error : Z := fval capacity + 2 * tiny * 2 ^ 52.

Lemma refill_gain b now :
  bucket_ok capacity b → lastRefilled b <= now →
  (fval (refill capacity rate b now) - fval (tokens b)) * 2 ^ 52 * GoTime.Second
    <= (now - lastRefilled b) * fval rate * (2 ^ 52 + 6) + step_error * GoTime.Second.
Proof.
  intros [Hf Hb] Ht. destruct (Hp) as (Hcf & Hc1 & Hrf & Hr). pose proof unit_sc_pos.
  set (d := GoTime.Sub now (lastRefilled b)).
  assert (0 <= d <= int64_max) as Hd by (split; [by apply GoTime.Sub_nonneg|apply GoTime.Sub_range]).
  pose proof (GoTime.Sub_le now (lastRefilled b) Ht) as Hdle. fold d in Hdle.
  pose proof (GoTime.product_upper rate d Hrf Hr Hd) as Hpu. destruct (GoTime.Seconds_nonneg d Hd) as [Hsf Hs0].
  destruct (mul_nonneg _ rate Hsf Hrf Hs0 ltac:(lia)) as [Hpn Hp0].
  destruct (add_grows (tokens b) _ Hf Hpn Hp0) as [Han _].
  destruct (clamp_above _ capacity Han Hcf) as [_ Hv]. unfold refill. fold d. rewrite Hv.
  set (P := F64.mul (GoTime.Seconds d) rate) in *. set (t := tokens b) in *. pose proof tiny_pos.
  assert ((Z.min (fval (F64.add t P)) (fval capacity) - fval t) * 2 ^ 52
    <= fval P * 2 ^ 52 + fval capacity + tiny * 2 ^ 52) as Hgain.
  { destruct (Z.le_gt_cases (fval capacity) (fval t + fval P)) as [Hge|Hlt]; [lia|].
    destruct (num_nonneg_cases P Hpn Hp0) as [HPf|HPi].
    - pose proof (add_upper t P Hf HPf ltac:(lia)). lia.
    - rewrite HPi in *. pose proof (fin_bound capacity Hcf). cbn [fval cond_Zopp] in *. lia. }
  assert (d * fval rate <= (now - lastRefilled b) * fval rate) as Hdr by nia.
  unfold step_error, GoTime.Second in *. set (g := Z.min _ _ - _) in *.
  set (dr := d * fval rate) in *. set (nr := (now - lastRefilled b) * fval rate) in *.
  clearbody g dr nr. lia.
Qed.

(** The books of one decision: what is left, plus a token if the request
    passed, is covered by what was there and what accrued since. *)
Lemma decide_quota b now b' r :
  bucket_ok capacity b → lastRefilled b <= now → refillAndDecide capacity rate b now = (b', (r, None)) →
  bucket_ok capacity b' ∧ lastRefilled b' = now ∧
  (fval (tokens b') + (if Allowed r then unit_sc else 0)) * (2 ^ 52 * GoTime.Second)
    <= fval (tokens b) * (2 ^ 52 * GoTime.Second)
       + (now - lastRefilled b) * (fval rate * (2 ^ 52 + 6)) + step_error * GoTime.Second.
Proof.
  intros Hb Ht Heq. pose proof (refill_gain b now Hb Ht) as Hg.
  destruct (decide_ok b now Hb Ht) as (b0 & r0 & He & Hb' & Hl & _). rewrite He in Heq. injection Heq as -> ->.
  assert (fval (tokens b') = fval (refill capacity rate b now) - (if Allowed r then unit_sc else 0)) as Hv.
  { destruct (Z.le_gt_cases unit_sc (fval (refill capacity rate b now))) as [H1|H1].
    - destruct (decide_allow b now Hb Ht H1) as (t' & Hd & _ & Hv'). rewrite He in Hd.
      injection Hd as -> ->. cbn [tokens Allowed]. lia.
    - destruct (decide_deny b now Hb Ht H1) as (d & Hd & _). rewrite He in Hd.
      injection Hd as -> ->. cbn [tokens Allowed]. lia. }
  split_and!; [done|done|]. rewrite Hv. unfold GoTime.Second in *. lia.
Qed.

(** The books of a run. *)
Lemma run_quota b nows :
  bucket_ok capacity b → nondecreasing (lastRefilled b) nows →
  let '(b', rs) := run capacity rate b nows in
  (fval (tokens b') + allowed_count rs * unit_sc) * 2 ^ 52 * GoTime.Second
    <= fval (tokens b) * 2 ^ 52 * GoTime.Second
       + (final (lastRefilled b) nows - lastRefilled b) * fval rate * (2 ^ 52 + 6)
       + Z.of_nat (length nows) * step_error * GoTime.Second.
Proof.
  revert b. induction nows as [|now nows IH]; intros b Hb Hm.
  { cbn [run length]. unfold allowed_count, final. simpl. lia. }
  destruct Hm as [Ht Hm]. cbn [run length]. rewrite final_cons.
  destruct (decide_ok b now Hb Ht) as (b' & r & Heq & _).
  destruct (decide_quota b now b' r Hb Ht Heq) as (Hb' & Hl & Hq).
  rewrite Heq. rewrite <- Hl in Hm. specialize (IH b' Hb' Hm). rewrite Hl in IH.
  destruct (run capacity rate b' nows) as [b'' rs]. rewrite allowed_count_cons, Nat2Z.inj_succ.
  unfold GoTime.Second in *. destruct (Allowed r); lia.
Qed.

End Facts.

(** ** Properties *)

(** Quota.  Over any run of requests whose instants never go back, a token
    bucket that starts full lets through at most
    [capacity + rate * elapsed] requests, up to the rounding of the float
    operations: a factor [1 + 6 * 2^-52] on the accrual, and per request
    [capacity * 2^-52] tokens plus four times the smallest float.  (Both sides are
    scaled by [2^52 * 10^9]; a float's value is in units of [1 / unit_sc].) *)
Theorem token_bucket_quota `{GoArch} capacity rate t0 nows :
  Numeric.params_ok capacity rate → fval capacity < 2 ^ 53 * unit_sc → nondecreasing t0 nows →
  allowed_count (run capacity rate (newBucket capacity t0) nows).2 * unit_sc * (2 ^ 52 * GoTime.Second)
    <= fval capacity * (2 ^ 52 * GoTime.Second)
       + (final t0 nows - t0) * fval rate * (2 ^ 52 + 6)
       + Z.of_nat (length nows) * step_error capacity * GoTime.Second.
Proof.
  intros Hp Hc Hm. pose proof (newBucket_ok capacity rate Hp t0) as Hb.
  pose proof (run_quota capacity rate Hp Hc _ nows Hb Hm) as Hq.
  destruct (run_ok capacity rate Hp Hc _ nows Hb Hm) as ([_ [H0 _]] & _).
  destruct (run _ _ _ nows) as [b' rs]. cbn [fst snd tokens lastRefilled newBucket] in *.
  unfold GoTime.Second in *. lia.
Qed.

Lemma token_bucket_quota_witness :
  let rs := (run (H := amd64) (F64.of_int 2) (F64.of_int 1) (newBucket (F64.of_int 2) 0)
               [0; 0; 0; 1500000000]).2 in
  allowed_count rs = 3 ∧
  allowed_count rs * unit_sc * (2 ^ 52 * GoTime.Second)
    <= fval (F64.of_int 2) * (2 ^ 52 * GoTime.Second)
       + (1500000000 - 0) * fval (F64.of_int 1) * (2 ^ 52 + 6)
       + Z.of_nat 4 * step_error (F64.of_int 2) * GoTime.Second.
Proof.
  split; [vm_compute; reflexivity|].
  apply (token_bucket_quota (H := amd64) (F64.of_int 2) (F64.of_int 1) 0 [0; 0; 0; 1500000000]).
  - apply Numeric.int_params_ok; lia.
  - apply (Numeric.int_params_ok 2 1); lia.
  - repeat split; lia.
Defined.

(** A burst at one instant.  A full bucket lets through exactly the first
    [floor capacity] of any number of simultaneous requests, with
    [Remaining] counting down to zero, and denies all the others. *)
Theorem token_bucket_burst `{GoArch} capacity rate t0 n i r :
  Numeric.params_ok capacity rate → fval capacity < 2 ^ 53 * unit_sc →
  (run capacity rate (newBucket capacity t0) (replicate n t0)).2 !! i = Some r →
  Allowed r = (Z.of_nat i <? fval capacity / unit_sc) ∧
  (Allowed r = true → Remaining r = fval capacity / unit_sc - 1 - Z.of_nat i).
Proof.
  intros Hp Hc. apply (burst_run capacity rate Hp Hc n (newBucket capacity t0)).
  by eapply newBucket_ok.
Qed.

Lemma token_bucket_burst_witness :
  true = (Z.of_nat 1 <? fval (F64.of_int 3) / unit_sc) ∧
  (true = true → 1 = fval (F64.of_int 3) / unit_sc - 1 - Z.of_nat 1).
Proof.
  apply (token_bucket_burst (H := amd64) (F64.of_int 3) (F64.of_int 1) 0 5 1 (mkResult true 1 0)).
  - apply Numeric.int_params_ok; lia.
  - apply (Numeric.int_params_ok 3 1); lia.
  - vm_compute. reflexivity.
Defined.

(** One decision, on both branches.  The bucket stays between empty and
    full and its clock moves to [now]; the request passes exactly when the
    refilled bucket holds a whole token, and then takes exactly one, with
    [Remaining] the whole tokens left; a denial takes nothing and reports the
    wait [(1 - tokens) / rate] as a duration, rounded up except within the
    tolerance of a millionth of a nanosecond. *)
Theorem token_bucket_decision `{GoArch} capacity rate b now :
  Numeric.params_ok capacity rate → fval capacity < 2 ^ 53 * unit_sc →
  bucket_ok capacity b → lastRefilled b <= now →
  let t := refill capacity rate b now in
  ∃ b' r, refillAndDecide capacity rate b now = (b', (r, None)) ∧
    bucket_ok capacity b' ∧ lastRefilled b' = now ∧ result_ok r ∧
    fval (tokens b) <= fval t <= fval capacity ∧
    Allowed r = (unit_sc <=? fval t) ∧
    (Allowed r = true →
       fval (tokens b') = fval t - unit_sc ∧ Remaining r = fval (tokens b') / unit_sc) ∧
    (Allowed r = false → tokens b' = t ∧ Numeric.delay_of (wait rate t) (RetryAfter r)).
Proof.
  intros Hp Hc Hb Ht t. destruct (refill_bounds capacity rate Hp b now Hb Ht) as [_ Hr].
  destruct (decide_ok capacity rate Hp Hc b now Hb Ht) as (b' & r & Heq & Hb' & Hl & Hok).
  exists b', r. split_and!; try done; try apply Hr.
  all: destruct (Z.le_gt_cases unit_sc (fval t)) as [H1|H1];
    [destruct (decide_allow capacity rate Hp Hc b now Hb Ht H1) as (t' & He & _ & Hv')
    |destruct (decide_deny capacity rate Hp b now Hb Ht H1) as (d & He & Hd)];
    rewrite He in Heq; injection Heq as <- <-; cbn [Allowed Remaining RetryAfter tokens].
  - symmetry. by apply Z.leb_le.
  - symmetry. by apply Z.leb_gt.
  - done.
  - done.
  - done.
  - done.
Qed.

Lemma token_bucket_decision_witness :
  let b := mkBucket (F64.of_int 0) 0 in
  ∃ b' r, refillAndDecide (H := amd64) (F64.of_int 2) (F64.of_int 1) b 1000000000 = (b', (r, None)) ∧
    bucket_ok (F64.of_int 2) b'.
Proof.
  destruct (of_int_exact 2) as [_ Hv]; [lia|]. pose proof unit_sc_pos.
  destruct (token_bucket_decision (H := amd64) (F64.of_int 2) (F64.of_int 1)
    (mkBucket (F64.of_int 0) 0) 1000000000) as (b' & r & He & Hb & _).
  - apply Numeric.int_params_ok; lia.
  - apply (Numeric.int_params_ok 2 1); lia.
  - split; [exact I|]. rewrite Hv. cbn [tokens]. rewrite Numeric.of_int_0. cbn [fval]. lia.
  - simpl. lia.
  - exists b', r. split; [exact He|exact Hb].
Defined.

(** C26: a denial may ask for no wait at all.  A denial's [RetryAfter] is zero
    exactly when the wait it computes is below the tolerance of a millionth of a
    nanosecond; so it is, at a rate of at least one token per second, whenever
    the bucket lacks at most [2^-51] of a token; and a client that follows the
    result and comes back at the same instant is denied again. *)
Theorem token_bucket_zero_retry `{GoArch} capacity rate b now :
  Numeric.params_ok capacity rate → fval capacity < 2 ^ 53 * unit_sc →
  bucket_ok capacity b → lastRefilled b <= now →
  let t := refill capacity rate b now in
  fval t < unit_sc →
  ∃ d, refillAndDecide capacity rate b now = (mkBucket t now, (mkResult false 0 d, None)) ∧
    (d = 0 ↔ fval (Numeric.nanosOf (wait rate t)) < fval Numeric.floatEpsilonNanos) ∧
    (unit_sc - sc (-51) <= fval t → unit_sc <= fval rate → d = 0) ∧
    ∃ b' d', refillAndDecide capacity rate (mkBucket t now) now = (b', (mkResult false 0 d', None)).
Proof.
  intros Hp Hc Hb Ht t Hlt. destruct (refill_bounds capacity rate Hp b now Hb Ht) as [Hf Hr]. fold t in Hf, Hr.
  pose proof Hb as [_ Hb0]. destruct (wait_nonneg capacity rate Hp t Hf) as [Hn H0]; [lia|].
  pose proof (Numeric.duration_zero (wait rate t) Hn H0) as Hz.
  assert (bucket_ok capacity (mkBucket t now)) as Hb' by (split; [exact Hf|simpl; lia]).
  destruct (refill_same capacity rate Hp (mkBucket t now) Hb') as [_ Hs]. cbn [lastRefilled tokens] in Hs.
  destruct (decide_deny capacity rate Hp (mkBucket t now) now Hb') as (d' & Hd' & _); [cbn; lia|by rewrite Hs|].
  exists (Numeric.durationFromSecondsCeil (wait rate t)). split_and!; [|exact Hz| |by do 2 eexists].
  - unfold refillAndDecide. fold t. destruct one_exact as [Hof Hov].
    by assert (F64.ge t (F64.of_int 1) = false) as -> by (apply le_false_fval; fin_side; lia).
  - intros Hnear Hrate. apply Hz, (wait_short capacity rate Hp t Hf); lia.
Qed.

(** Reached by one request every 100 ms against a bucket of one token and one
    token per second: the eleventh arrives after exactly one second and finds
    slightly less than one token because of the rounding of [0.1 * 1]. *)
Example zero_retry_reached :
  last (run (H := amd64) (F64.of_int 1) (F64.of_int 1) (newBucket (F64.of_int 1) 0)
          (map (fun i => Z.of_nat i * 100 * GoTime.Millisecond) (seq 0 11))).2
  = Some (mkResult false 0 0).
Proof. vm_compute. reflexivity. Qed.

(** The bucket that the eleventh request finds. *)
Definition shortBucket : bucket :=
  (run (H := amd64) (F64.of_int 1) (F64.of_int 1) (newBucket (F64.of_int 1) 0)
     (map (fun i => Z.of_nat i * 100 * GoTime.Millisecond) (seq 0 10))).1.

Lemma token_bucket_zero_retry_witness :
  ∃ b, refillAndDecide (H := amd64) (F64.of_int 1) (F64.of_int 1) shortBucket GoTime.Second
    = (b, (mkResult false 0 0, None)).
Proof.
  destruct (Numeric.int_params_ok 1 1) as [Hp Hc]; [lia|lia|].
  destruct (token_bucket_zero_retry (H := amd64) (F64.of_int 1) (F64.of_int 1) shortBucket GoTime.Second)
    as (d & He & _ & Hz & _).
  - exact Hp.
  - exact Hc.
  - split; [apply num_fin; [vm_compute; done|split; apply Z.ltb_lt; vm_compute; reflexivity]|].
    split; apply Z.leb_le; vm_compute; reflexivity.
  - apply Z.leb_le. vm_compute. reflexivity.
  - apply Z.ltb_lt. vm_compute. reflexivity.
  - exists (mkBucket (refill (F64.of_int 1) (F64.of_int 1) shortBucket GoTime.Second) GoTime.Second).
    rewrite He. rewrite Hz; [reflexivity| |]; apply Z.leb_le; vm_compute; reflexivity.
Defined.

End TokenBucket.
