(* ===== verification/LeakyBucket.v ===== *)
(** * LeakyBucket: the decision of memory/leaky_bucket.go

    State of one key's bucket and [leakAndDecide], with the float operations
    of the source in the source's order. *)

From Stdlib Require Import ZArith Lia Bool.
From stdpp Require Import base strings list.
From S2P Require Import Prelude Float64 FloatFacts GoTime Core Numeric.

#[local] Open Scope Z_scope.

Module LeakyBucket.

Record leakyState := mkLeaky {
  water : spec_float;
  lastLeak : Time
}.

(** The state a new key starts with: an empty bucket. *)
Definition newLeaky (now : Time) : leakyState := mkLeaky (F64.of_int 0) now.

(** The water left after the leak and the clamp at zero. *)
Definition leak (rate : spec_float) (b : leakyState) (now : Time) : spec_float :=
  let elapsed := GoTime.Seconds (GoTime.Sub now (lastLeak b)) in
  let leakedWater := F64.mul elapsed rate in
  let w := F64.sub (water b) leakedWater in
  if F64.lt w (F64.of_int 0) then F64.of_int 0 else w.

Definition leakAndDecide `{GoArch} (capacity rate : spec_float) (b : leakyState) (now : Time)
    : leakyState * (Result * option error) :=
  let w := leak rate b now in
  if F64.le (F64.add w (F64.of_int 1)) capacity then
    let w' := F64.add w (F64.of_int 1) in
    (mkLeaky w' now, (mkResult true (Numeric.remainingFloor (F64.sub capacity w')) 0, None))
  else
    let overflow := F64.sub (F64.add w (F64.of_int 1)) capacity in
    let retryAfter := Numeric.durationFromSecondsCeil (F64.div overflow rate) in
    (mkLeaky w now, (mkResult false 0 retryAfter, None)).

(** Requests of one key, decided one after another. *)
Fixpoint run `{GoArch} (capacity rate : spec_float) (b : leakyState) (nows : list Time)
    : leakyState * list Result :=
  match nows with
  | [] => (b, [])
  | now :: rest =>
      let '(b', (r, _)) := leakAndDecide capacity rate b now in
      let '(b'', rs) := run capacity rate b' rest in (b'', r :: rs)
  end.

(** ** Facts *)

(** The invariant of a bucket: between empty and full. *)
Definition leaky_ok (capacity : spec_float) (b : leakyState) : Prop :=
  fin (water b) ∧ 0 <= fval (water b) <= fval capacity.

Section Facts.
Context `{GoArch} (capacity rate : spec_float).
Hypothesis Hp : Numeric.params_ok capacity rate.

Lemma newLeaky_ok now : leaky_ok capacity (newLeaky now).
Proof.
  destruct Hp as (Hf & H1 & _). pose proof unit_sc_pos. split; [exact I|].
  cbn [newLeaky water]. rewrite Numeric.of_int_0. cbn [fval]. lia.
Qed.

Lemma product_nonneg b now :
  lastLeak b <= now →
  let p := F64.mul (GoTime.Seconds (GoTime.Sub now (lastLeak b))) rate in
  num p ∧ 0 <= fval p.
Proof.
  intros Ht. destruct Hp as (_ & _ & Hrf & Hr).
  destruct (GoTime.Seconds_nonneg (GoTime.Sub now (lastLeak b))) as [Hsf Hs0].
  { split; [by apply GoTime.Sub_nonneg|apply GoTime.Sub_range]. }
  apply mul_nonneg; [done..|lia].
Qed.

(** A leak never adds water and never goes below zero. *)
Lemma leak_bounds b now :
  leaky_ok capacity b → lastLeak b <= now →
  fin (leak rate b now) ∧ 0 <= fval (leak rate b now) <= fval (water b).
Proof.
  intros [Hf Hb] Ht. destruct (product_nonneg b now Ht) as [Hpn Hp0].
  destruct (sub_shrinks (water b) _ Hf Hpn Hp0) as [Hsn Hss].
  destruct (clamp_below _ Hsn) as [Hn Hv]. unfold leak. split; [|lia].
  eapply (fin_between _ (S754_zero false) (water b)); fin_side. cbn [fval]. lia.
Qed.

Lemma leak_same b :
  leaky_ok capacity b →
  fval (leak rate b (lastLeak b)) = fval (water b).
Proof.
  intros [Hf Hb]. destruct Hp as (_ & _ & Hrf & _). unfold leak.
  rewrite GoTime.Sub_diag, GoTime.Seconds_0.
  destruct (mul_zero_l (S754_zero false) rate I Hrf eq_refl) as [Hmf Hmv].
  assert (fval (F64.sub (water b) (F64.mul (S754_zero false) rate)) = fval (water b)) as Hs.
  { eapply rnds_eq; [by apply sub_rnds|fin_side|]. lia. }
  destruct (clamp_below _ (sub_num _ _ Hf Hmf)) as [_ Hv]. cbv zeta in Hv. rewrite Hv. lia.
Qed.

(** The water with one more drop. *)
Definition poured (w : spec_float) : spec_float := F64.add w (F64.of_int 1).

Lemma poured_num w :
  fin w → 0 <= fval w → num (poured w) ∧ fval w <= fval (poured w) ∧ unit_sc <= fval (poured w).
Proof.
  intros Hf H0. destruct one_exact as [H1 H1v]. pose proof unit_sc_pos. unfold poured.
  split_and!; [by apply add_num| |]; [|rewrite <- H1v at 1]; apply add_ge; fin_side; lia.
Qed.

(** With room for one more drop the request passes, the drop is added, and
    [Remaining] is the whole part of the room that is left. *)
Lemma leaky_decide_allow b now :
  leaky_ok capacity b → lastLeak b <= now →
  fval (poured (leak rate b now)) <= fval capacity →
  fval capacity < 2 ^ 63 * unit_sc →
  let w' := poured (leak rate b now) in
  leakAndDecide capacity rate b now =
    (mkLeaky w' now, (mkResult true (fval (F64.sub capacity w') / unit_sc) 0, None)) ∧
  fin w' ∧ 0 <= fval (F64.sub capacity w') <= fval capacity.
Proof.
  intros Hb Ht H1 Hc. destruct (leak_bounds b now Hb Ht) as [Hf Hw]. destruct (Hp) as (Hcf & Hc1 & _).
  destruct (poured_num _ Hf ltac:(lia)) as (Hn & Hge & Hu1). pose proof unit_sc_pos. intros w'.
  assert (fin w') as Hwf.
  { eapply (fin_between _ (leak rate b now) capacity); fin_side. unfold w'. lia. }
  assert (0 <= fval (F64.sub capacity w') <= fval capacity) as Hs.
  { split; [apply (sub_ge _ _ (S754_zero false))|apply sub_le]; fin_side; cbn [fval]; unfold w'; lia. }
  assert (fin (F64.sub capacity w')) as Hsf.
  { eapply (fin_between _ (S754_zero false) capacity); fin_side; [by apply sub_num|]. cbn [fval]. lia. }
  split; [|done]. unfold leakAndDecide. fold (poured (leak rate b now)). fold w'.
  assert (F64.le w' capacity = true) as -> by (apply le_fval; fin_side; exact H1).
  do 4 f_equal. rewrite Numeric.remainingFloor_spec by (done || lia).
  apply Z.max_r, Z.div_pos; lia.
Qed.

(** The wait that a denial computes: [overflow / rate]. *)
Definition wait (w : spec_float) : spec_float := F64.div (F64.sub (poured w) capacity) rate.

Lemma poured_fin w :
  fin w → 0 <= fval w <= fval capacity → fval capacity < 2 ^ 53 * unit_sc → fin (poured w).
Proof.
  intros Hf Hw Hc. destruct (poured_num w Hf ltac:(lia)) as (Hn & Hge & _).
  destruct one_exact as [Hof Hov]. pose proof unit_sc_pos.
  destruct (binary_normalize_exact 1 54 false) as [Hlf Hlv]; [lia|lia| |].
  { rewrite (sc_nonneg_exp 54) by lia. apply (int_lt_inf (1 * 2 ^ 54)). lia. }
  rewrite (sc_nonneg_exp 54) in Hlv by lia.
  eapply (fin_between _ w (binary_normalize F64.prec F64.emax 1 54 false)); fin_side.
  split; [done|]. apply add_le; fin_side. lia.
Qed.

Lemma leaky_wait_nonneg w :
  fin w → 0 <= fval w <= fval capacity → fval capacity < 2 ^ 53 * unit_sc →
  fval capacity < fval (poured w) → num (wait w) ∧ 0 <= fval (wait w).
Proof.
  intros Hf Hw Hc H1. pose proof (poured_fin w Hf Hw Hc) as Hpf. pose proof unit_sc_pos.
  destruct (Hp) as (Hcf & Hc1 & Hrf & Hr).
  assert (0 <= fval (F64.sub (poured w) capacity) <= fval (poured w)) as Hs.
  { split; [apply (sub_ge _ _ (S754_zero false))|apply sub_le]; fin_side; cbn [fval]; lia. }
  assert (fin (F64.sub (poured w) capacity)) as Hsf.
  { eapply (fin_between _ (S754_zero false) (poured w)); fin_side; [by apply sub_num|]. cbn [fval]. lia. }
  split; [by apply div_num|]. apply (div_ge _ _ (S754_zero false)); fin_side; [lia|]. cbn [fval]. nia.
Qed.

(** Without room the request is denied, the water stays as it leaked, and
    [RetryAfter] is the computed wait as a duration. *)
Lemma leaky_decide_deny b now :
  leaky_ok capacity b → lastLeak b <= now →
  fval capacity < fval (poured (leak rate b now)) → fval capacity < 2 ^ 53 * unit_sc →
  ∃ d, leakAndDecide capacity rate b now =
      (mkLeaky (leak rate b now) now, (mkResult false 0 d, None)) ∧
    Numeric.delay_of (wait (leak rate b now)) d.
Proof.
  intros Hb Ht H1 Hc. destruct (leak_bounds b now Hb Ht) as [Hf Hw]. destruct (Hp) as (Hcf & _).
  destruct Hb as [_ Hb]. destruct (poured_num _ Hf ltac:(lia)) as (Hn & _).
  unfold leakAndDecide. fold (poured (leak rate b now)).
  assert (F64.le (poured (leak rate b now)) capacity = false) as ->
    by (apply le_false_fval; fin_side; exact H1).
  eexists. split; [reflexivity|]. fold (wait (leak rate b now)).
  destruct (leaky_wait_nonneg (leak rate b now)) as [Hwn H0]; [done|lia|done|done|].
  by apply Numeric.duration_delay.
Qed.

Hypothesis Hcap : fval capacity < 2 ^ 53 * unit_sc.

Lemma leaky_decide_ok b now :
  leaky_ok capacity b → lastLeak b <= now →
  ∃ b' r, leakAndDecide capacity rate b now = (b', (r, None)) ∧
    leaky_ok capacity b' ∧ lastLeak b' = now ∧ result_ok r ∧
    Allowed r = (fval (poured (leak rate b now)) <=? fval capacity) ∧
    water b' = (if Allowed r then poured (leak rate b now) else leak rate b now).
Proof.
  intros Hb Ht. destruct (leak_bounds b now Hb Ht) as [Hf Hw]. pose proof unit_sc_pos.
  pose proof Hb as [_ Hb0]. destruct (poured_num _ Hf ltac:(lia)) as (_ & Hge & _).
  destruct (Z.le_gt_cases (fval (poured (leak rate b now))) (fval capacity)) as [H1|H1].
  - destruct (leaky_decide_allow b now Hb Ht H1 ltac:(lia)) as (-> & Hf' & Hs). do 2 eexists.
    split_and!; [done|split; cbn [water]; [done|lia]|done| |by symmetry; apply Z.leb_le|done].
    split_and!; simpl; try done. apply Z.div_pos; lia.
  - destruct (leaky_decide_deny b now Hb Ht H1 Hcap) as (d & -> & Hd & _). do 2 eexists.
    split_and!; [done|split; cbn [water]; [done|lia]|done| |by symmetry; apply Z.leb_gt|done].
    split_and!; simpl; try done; lia.
Qed.

Lemma leaky_run_ok b nows :
  leaky_ok capacity b → nondecreasing (lastLeak b) nows →
  leaky_ok capacity (run capacity rate b nows).1 ∧
  Forall result_ok (run capacity rate b nows).2.
Proof.
  revert b. induction nows as [|now nows IH]; intros b Hb Hm; [done|].
  destruct Hm as [Ht Hm]. cbn [run].
  destruct (leaky_decide_ok b now Hb Ht) as (b' & r & -> & Hb' & Hl & Hr & _). rewrite <- Hl in Hm.
  specialize (IH b' Hb' Hm). destruct (run capacity rate b' nows) as [b'' rs]. simpl in *.
  destruct IH as [? ?]. split; [done|]. by constructor.
Qed.

(** ** Bursts: whole drops are counted exactly *)

Definition holds (b : leakyState) (k : Z) : Prop := fval (water b) = k * unit_sc.

Lemma whole_capacity : 1 <= fval capacity / unit_sc < 2 ^ 53 ∧
  fval capacity / unit_sc * unit_sc <= fval capacity < (fval capacity / unit_sc + 1) * unit_sc.
Proof.
  destruct Hp as (_ & Hc1 & _). pose proof unit_sc_pos as Hu.
  pose proof (Z.div_mod (fval capacity) unit_sc ltac:(lia)).
  pose proof (Z.mod_pos_bound (fval capacity) unit_sc Hu). nia.
Qed.

Lemma poured_int w k :
  fin w → fval w = k * unit_sc → 0 <= k < 2 ^ 53 → fval (poured w) = (k + 1) * unit_sc.
Proof.
  intros Hf Hk Hr. destruct one_exact as [Hof Hov].
  destruct (float_of_mantissa (k + 1) 0) as (z & Hz & Hzv); [lia|lia| |].
  { change (sc 0) with unit_sc. apply int_lt_inf. lia. }
  change (sc 0) with unit_sc in Hzv. rewrite <- Hzv.
  eapply rnds_eq; [by apply add_rnds|exact Hz|]. lia.
Qed.

Lemma leaky_burst_step b k :
  leaky_ok capacity b → holds b k → 0 <= k <= fval capacity / unit_sc →
  ∃ b' r, leakAndDecide capacity rate b (lastLeak b) = (b', (r, None)) ∧
    leaky_ok capacity b' ∧ lastLeak b' = lastLeak b ∧
    Allowed r = (k <? fval capacity / unit_sc) ∧
    (Allowed r = true → Remaining r = fval capacity / unit_sc - k - 1) ∧
    holds b' (if Allowed r then k + 1 else k).
Proof.
  intros Hb Hk Hr. pose proof (leak_same b Hb) as Hsame. pose proof unit_sc_pos as Hu.
  pose proof whole_capacity as [HK HKc]. set (K := fval capacity / unit_sc) in *.
  assert (lastLeak b <= lastLeak b) as Hle by lia.
  destruct (leak_bounds b _ Hb Hle) as [Hf Hw]. unfold holds in *. destruct (Hp) as (Hcf & _).
  set (w := leak rate b (lastLeak b)) in *.
  pose proof (poured_int w k Hf ltac:(lia) ltac:(lia)) as Hpv. pose proof Hb as [_ Hb0].
  destruct (Z.lt_ge_cases k K) as [Hlt|Hge].
  - destruct (leaky_decide_allow b _ Hb Hle ltac:(fold w; nia) ltac:(lia)) as (-> & Hf' & Hs). fold w in Hf', Hs |- *.
    do 2 eexists. split_and!; [done|split; cbn [water]; [done|nia]|done|by symmetry; apply Z.ltb_lt| |done].
    intros _. cbn [Remaining]. destruct (of_int_exact (k + 1)) as [Hif Hiv]; [lia|].
    destruct (sub_int_exact capacity (k + 1)) as [_ Hsv]; [done|lia|nia|done|].
    assert (fval (F64.sub capacity (poured w)) = fval capacity - (k + 1) * unit_sc) as ->.
    { rewrite <- Hsv.
      eapply rnds_eq; [by apply sub_rnds|by apply sub_num|]. rewrite Hsv. lia. }
    replace (fval capacity - (k + 1) * unit_sc) with (fval capacity + (- (k + 1)) * unit_sc) by lia.
    rewrite Z.div_add by lia. fold K. lia.
  - destruct (leaky_decide_deny b _ Hb Hle ltac:(fold w; nia) Hcap) as (d & -> & _). fold w.
    do 2 eexists. split_and!; [done|split; cbn [water]; [done|lia]|done|by symmetry; apply Z.ltb_ge|done|].
    cbn [water Allowed]. lia.
Qed.

Lemma leaky_burst_run n b k i r :
  leaky_ok capacity b → holds b k → 0 <= k <= fval capacity / unit_sc →
  (run capacity rate b (replicate n (lastLeak b))).2 !! i = Some r →
  Allowed r = (k + Z.of_nat i <? fval capacity / unit_sc) ∧
  (Allowed r = true → Remaining r = fval capacity / unit_sc - 1 - (k + Z.of_nat i)).
Proof.
  revert b k i. induction n as [|n IH]; intros b k i Hb Hk Hr Hi; [done|]. cbn [replicate run] in Hi.
  destruct (leaky_burst_step b k Hb Hk Hr) as (b' & r0 & Heq & Hb' & Hl & Ha & Hrem & Hk').
  rewrite Heq, <- Hl in Hi. specialize (IH b').
  destruct (run capacity rate b' _) as [b'' rs]. destruct i as [|i]; simpl in Hi; simplify_eq.
  - rewrite Z.add_0_r. split; [done|]. intros Hal. rewrite (Hrem Hal). lia.
  - rewrite Ha in Hk'.
    assert (0 <= (if k <? fval capacity / unit_sc then k + 1 else k) <= fval capacity / unit_sc) as Hr'
      by (zbool; lia).
    destruct (IH _ i Hb' Hk' Hr' Hi) as [-> Hrem'].
    split; [zbool; lia|]. intros Hlt. rewrite (Hrem' Hlt). apply Z.ltb_lt in Hlt. zbool; lia.
Qed.

(** ** How much a leak can free *)

Definition step_error : Z := 3 * fval capacity + 3 * tiny * 2 ^ 52.

Lemma leak_loss b now :
  leaky_ok capacity b → lastLeak b <= now →
  fval (water b) * 2 ^ 52
    <= fval (leak rate b now) * 2 ^ 52
       + fval (F64.mul (GoTime.Seconds (GoTime.Sub now (lastLeak b))) rate) * 2 ^ 52
       + fval capacity + tiny * 2 ^ 52.
Proof.
  intros [Hf Hb] Ht. destruct (product_nonneg b now Ht) as [Hpn Hp0]. pose proof tiny_pos.
  destruct (sub_shrinks (water b) _ Hf Hpn Hp0) as [Hsn _].
  destruct (clamp_below _ Hsn) as [_ Hv]. unfold leak. cbv zeta in *. rewrite Hv.
  set (P := F64.mul _ rate) in *. destruct (Hp) as (Hcf & _). pose proof (fin_bound capacity Hcf).
  destruct (Z.le_gt_cases (fval (water b)) (fval P)) as [Hle|Hgt]; [lia|].
  destruct (num_nonneg_cases P Hpn Hp0) as [HPf|HPi].
  - pose proof (rnds_lower (fval (water b) - fval P) _ ltac:(lia) (sub_rnds (water b) P Hf HPf)) as Hl. lia.
  - rewrite HPi in Hgt. cbn [fval cond_Zopp] in Hgt. lia.
Qed.

Lemma poured_lower w :
  fin w → 0 <= fval w <= fval capacity →
  (fval w + unit_sc) * 2 ^ 52 <= fval (poured w) * 2 ^ 52 + 2 * fval capacity + tiny * 2 ^ 52.
Proof.
  intros Hf Hw. destruct one_exact as [Hof Hov]. destruct (Hp) as (Hcf & Hc1 & _). pose proof unit_sc_pos.
  pose proof (int_lt_inf (2 ^ 54) ltac:(lia)) as Hinf.
  pose proof (rnds_lower (fval w + fval (F64.of_int 1)) (poured w)) as Hl. rewrite Hov in Hl.
  specialize (Hl ltac:(lia)). rewrite <- Hov in Hl at 1. specialize (Hl (add_rnds w _ Hf Hof)). lia.
Qed.

Lemma step_quota b now b' r :
  leaky_ok capacity b → lastLeak b <= now → leakAndDecide capacity rate b now = (b', (r, None)) →
  (fval (water b) + (if Allowed r then unit_sc else 0)) * 2 ^ 52 * GoTime.Second
    <= fval (water b') * 2 ^ 52 * GoTime.Second
       + (now - lastLeak b) * fval rate * (2 ^ 52 + 6) + step_error * GoTime.Second.
Proof.
  intros Hb Ht Heq. destruct (leaky_decide_ok b now Hb Ht) as (b0 & r0 & He & _ & _ & _ & _ & Hw).
  rewrite He in Heq. injection Heq as -> ->. destruct (leak_bounds b now Hb Ht) as [Hf Hwb].
  pose proof (leak_loss b now Hb Ht) as Hloss. destruct Hb as [_ Hb].
  pose proof (poured_lower (leak rate b now) Hf ltac:(lia)) as Hpl.
  set (d := GoTime.Sub now (lastLeak b)) in *.
  assert (0 <= d <= int64_max) as Hd by (split; [by apply GoTime.Sub_nonneg|apply GoTime.Sub_range]).
  pose proof (GoTime.Sub_le now (lastLeak b) Ht) as Hdle. fold d in Hdle.
  destruct (Hp) as (Hcf & Hc1 & Hrf & Hr).
  pose proof (GoTime.product_upper rate d Hrf Hr Hd) as Hpu. pose proof tiny_pos.
  assert (d * fval rate <= (now - lastLeak b) * fval rate) as Hdr by nia.
  set (P := fval (F64.mul _ rate)) in *. unfold step_error, GoTime.Second in *.
  set (dr := d * fval rate) in *. set (nr := (now - lastLeak b) * fval rate) in *.
  clearbody P dr nr. rewrite Hw. pose proof unit_sc_pos. destruct (Allowed r); lia.
Qed.

Lemma leaky_run_quota b nows :
  leaky_ok capacity b → nondecreasing (lastLeak b) nows →
  let '(b', rs) := run capacity rate b nows in
  (fval (water b) + allowed_count rs * unit_sc) * 2 ^ 52 * GoTime.Second
    <= fval (water b') * 2 ^ 52 * GoTime.Second
       + (final (lastLeak b) nows - lastLeak b) * fval rate * (2 ^ 52 + 6)
       + Z.of_nat (length nows) * step_error * GoTime.Second.
Proof.
  revert b. induction nows as [|now nows IH]; intros b Hb Hm.
  { cbn [run length]. unfold allowed_count, final. simpl. lia. }
  destruct Hm as [Ht Hm]. cbn [run length]. rewrite final_cons.
  destruct (leaky_decide_ok b now Hb Ht) as (b' & r & Heq & Hb' & Hl & _).
  pose proof (step_quota b now b' r Hb Ht Heq) as Hs. rewrite Heq.
  rewrite <- Hl in Hm. specialize (IH b' Hb' Hm). rewrite Hl in IH.
  destruct (run capacity rate b' nows) as [b'' rs]. rewrite allowed_count_cons, Nat2Z.inj_succ.
  unfold GoTime.Second in *. destruct (Allowed r); lia.
Qed.

End Facts.

(** ** Properties *)

(** Quota.  Over any run of requests whose instants never go back, a leaky
    bucket that starts empty lets through at most [capacity + rate * elapsed]
    requests, up to the rounding of the float operations: a factor
    [1 + 6 * 2^-52] on what leaks, and per request [3 * capacity * 2^-52]
    plus six times the smallest float. *)
Theorem leaky_bucket_quota `{GoArch} capacity rate t0 nows :
  Numeric.params_ok capacity rate → fval capacity < 2 ^ 53 * unit_sc → nondecreasing t0 nows →
  allowed_count (run capacity rate (newLeaky t0) nows).2 * unit_sc * (2 ^ 52 * GoTime.Second)
    <= fval capacity * (2 ^ 52 * GoTime.Second)
       + (final t0 nows - t0) * fval rate * (2 ^ 52 + 6)
       + Z.of_nat (length nows) * step_error capacity * GoTime.Second.
Proof.
  intros Hp Hc Hm. pose proof (newLeaky_ok capacity rate Hp t0) as Hb.
  pose proof (leaky_run_quota capacity rate Hp Hc _ nows Hb Hm) as Hq.
  destruct (leaky_run_ok capacity rate Hp Hc _ nows Hb Hm) as ([_ [_ H1]] & _).
  assert (fval (water (newLeaky t0)) = 0) as Hz by (cbn [water newLeaky]; by rewrite Numeric.of_int_0).
  rewrite Hz in Hq. destruct (run _ _ _ nows) as [b' rs]. cbn [fst snd lastLeak newLeaky] in *.
  unfold GoTime.Second in *. lia.
Qed.

Lemma leaky_bucket_quota_witness :
  let rs := (run (H := amd64) (F64.of_int 2) (F64.of_int 1) (newLeaky 0)
               [0; 0; 0; 1500000000]).2 in
  allowed_count rs = 3 ∧
  allowed_count rs * unit_sc * (2 ^ 52 * GoTime.Second)
    <= fval (F64.of_int 2) * (2 ^ 52 * GoTime.Second)
       + (1500000000 - 0) * fval (F64.of_int 1) * (2 ^ 52 + 6)
       + Z.of_nat 4 * step_error (F64.of_int 2) * GoTime.Second.
Proof.
  split; [vm_compute; reflexivity|].
  apply (leaky_bucket_quota (H := amd64) (F64.of_int 2) (F64.of_int 1) 0 [0; 0; 0; 1500000000]).
  - apply Numeric.int_params_ok; lia.
  - apply (Numeric.int_params_ok 2 1); lia.
  - repeat split; lia.
Defined.

(** A burst at one instant.  An empty leaky bucket lets through exactly the
    first [floor capacity] of any number of simultaneous requests, with
    [Remaining] counting down to zero, and denies all the others. *)
Theorem leaky_bucket_burst `{GoArch} capacity rate t0 n i r :
  Numeric.params_ok capacity rate → fval capacity < 2 ^ 53 * unit_sc →
  (run capacity rate (newLeaky t0) (replicate n t0)).2 !! i = Some r →
  Allowed r = (Z.of_nat i <? fval capacity / unit_sc) ∧
  (Allowed r = true → Remaining r = fval capacity / unit_sc - 1 - Z.of_nat i).
Proof.
  intros Hp Hc. pose proof (whole_capacity capacity rate Hp Hc).
  apply (leaky_burst_run capacity rate Hp Hc n (newLeaky t0) 0); [by eapply newLeaky_ok| |lia].
  unfold holds. cbn [water newLeaky]. by rewrite Numeric.of_int_0.
Qed.

Lemma leaky_bucket_burst_witness :
  true = (Z.of_nat 1 <? fval (F64.of_int 3) / unit_sc) ∧
  (true = true → 1 = fval (F64.of_int 3) / unit_sc - 1 - Z.of_nat 1).
Proof.
  apply (leaky_bucket_burst (H := amd64) (F64.of_int 3) (F64.of_int 1) 0 5 1 (mkResult true 1 0)).
  - apply Numeric.int_params_ok; lia.
  - apply (Numeric.int_params_ok 3 1); lia.
  - vm_compute. reflexivity.
Defined.

(** One decision, on both branches.  The water stays between zero and the
    capacity and its clock moves to [now]; the request passes exactly when
    the leaked water plus one drop, as computed, does not exceed the capacity,
    and then the drop is in the bucket; a denial adds nothing and reports the
    wait [overflow / rate] as a duration. *)
Theorem leaky_bucket_decision `{GoArch} capacity rate b now :
  Numeric.params_ok capacity rate → fval capacity < 2 ^ 53 * unit_sc →
  leaky_ok capacity b → lastLeak b <= now →
  let w := leak rate b now in
  ∃ b' r, leakAndDecide capacity rate b now = (b', (r, None)) ∧
    leaky_ok capacity b' ∧ lastLeak b' = now ∧ result_ok r ∧
    0 <= fval w <= fval (water b) ∧
    Allowed r = (fval (poured w) <=? fval capacity) ∧
    water b' = (if Allowed r then poured w else w) ∧
    (Allowed r = true → Remaining r = fval (F64.sub capacity (water b')) / unit_sc) ∧
    (Allowed r = false → Numeric.delay_of (wait capacity rate w) (RetryAfter r)).
Proof.
  intros Hp Hc Hb Ht w. destruct (leak_bounds capacity rate Hp b now Hb Ht) as [_ Hr].
  destruct (leaky_decide_ok capacity rate Hp Hc b now Hb Ht) as (b' & r & Heq & Hb' & Hl & Hok & Ha & Hw).
  exists b', r. split_and!; try done; try apply Hr.
  - rewrite Ha, Z.leb_le. intros H1. pose proof unit_sc_pos.
    destruct (leaky_decide_allow capacity rate Hp b now Hb Ht H1 ltac:(lia)) as (He & _).
    rewrite He in Heq. injection Heq as <- <-. done.
  - rewrite Ha, Z.leb_gt. intros H1.
    destruct (leaky_decide_deny capacity rate Hp b now Hb Ht H1 Hc) as (d & He & Hd).
    rewrite He in Heq. injection Heq as <- <-. done.
Qed.

Lemma leaky_bucket_decision_witness :
  ∃ b' r, leakAndDecide (H := amd64) (F64.of_int 1) (F64.of_int 1) (newLeaky 0) 0 = (b', (r, None)) ∧
    leaky_ok (F64.of_int 1) b'.
Proof.
  destruct (leaky_bucket_decision (H := amd64) (F64.of_int 1) (F64.of_int 1) (newLeaky 0) 0)
    as (b' & r & He & Hb & _).
  - apply Numeric.int_params_ok; lia.
  - apply (Numeric.int_params_ok 1 1); lia.
  - apply (newLeaky_ok _ (F64.of_int 1)). apply Numeric.int_params_ok; lia.
  - simpl. lia.
  - exists b', r. split; [exact He|exact Hb].
Defined.

End LeakyBucket.
