(* ===== verification/SlidingWindow.v ===== *)
(** * SlidingWindow: the decision of memory/sliding_window_log.go

    One key's log of the instants of allowed requests, a Go slice (its
    elements and its capacity), pruned by a binary search, and
    [recordAndDecide].  The reference definition of the decision counts the
    logged instants inside the window. *)

From Stdlib Require Import ZArith Lia Bool.
From stdpp Require Import base strings list sorting.
From S2P Require Import Prelude Float64 GoTime Core.

#[local] Open Scope Z_scope.

Module SlidingWindow.

(** [logs []time.Time]: the elements and [cap(logs)]. *)
Record windowState := mkWindow {
  logs : list Time;
  capLogs : Z
}.

(** [make([]time.Time, 0)]. *)
Definition newWindow (now : Time) : windowState := mkWindow [] 0.

(** The binary search loop.  [None]: the fuel ran out, or an index was out of
    range; [search_total] shows that neither happens. *)
Fixpoint searchLoop (fuel : nat) (l : list Time) (windowStart : Time)
    (validIndex left right : Z) : option Z :=
  match fuel with
  | O => None
  | S fuel =>
      if left <=? right then
        let mid := left + Z.shiftr (right - left) 1 in
        if mid <? 0 then None
        else
          match l !! Z.to_nat mid with
          | None => None
          | Some t =>
              if GoTime.After t windowStart
              then searchLoop fuel l windowStart mid left (mid - 1)
              else searchLoop fuel l windowStart validIndex (mid + 1) right
          end
      else Some validIndex
  end.

(** The index of the first entry inside the window, [len(logs)] if there is
    none.  Every iteration shortens the interval, so [len + 1] iterations are
    enough; the default is never taken. *)
Definition search (l : list Time) (windowStart : Time) : Z :=
  let n := Z.of_nat (length l) in
  default n (searchLoop (S (length l)) l windowStart n 0 (n - 1)).

(** [n := copy(logs, logs[v:]); logs = logs[:n]]: the tail is copied over the
    front of the same array, and the slice cut to the copied length. *)
Definition copyDown (v : nat) (l : list Time) : list Time :=
  let n := length (drop v l) in
  take n (drop v l ++ drop n l).

Definition prune (l : list Time) (windowStart : Time) : list Time :=
  let validIndex := search l windowStart in
  if 0 <? validIndex then copyDown (Z.to_nat validIndex) l else l.

Definition appendWindowLog (l : list Time) (capacity : Z) (now : Time) (limit : Z) : windowState :=
  let n := Z.of_nat (length l) in
  if n <? capacity then mkWindow (l ++ [now]) capacity
  else
    let newCap := capacity * 2 in
    let newCap := if newCap <? 1 then 1 else newCap in
    let newCap := if limit <? newCap then limit else newCap in
    let newCap := if newCap <? n + 1 then n + 1 else newCap in
    mkWindow (l ++ [now]) newCap.

(** A denial reads [logs[0]]; the log is not empty then, since the
    constructor requires a positive limit, and the default is not taken. *)
Definition recordAndDecide (limit : Z) (window : Duration) (state : windowState) (now : Time)
    : windowState * (Result * option error) :=
  let windowStart := GoTime.Add now (- window) in
  let l := prune (logs state) windowStart in
  if Z.of_nat (length l) <? limit then
    let state' := appendWindowLog l (capLogs state) now limit in
    (state', (mkResult true (limit - Z.of_nat (length (logs state'))) 0, None))
  else
    let retryAfter := GoTime.Sub (GoTime.Add (default now (head l)) window) now in
    (mkWindow l (capLogs state), (mkResult false 0 retryAfter, None)).

(** Requests of one key, decided one after another. *)
Fixpoint run (limit : Z) (window : Duration) (st : windowState) (nows : list Time)
    : windowState * list Result :=
  match nows with
  | [] => (st, [])
  | now :: rest =>
      let '(st', (r, _)) := recordAndDecide limit window st now in
      let '(st'', rs) := run limit window st' rest in (st'', r :: rs)
  end.

(** The instants of the allowed requests of a run. *)
Fixpoint granted (nows : list Time) (rs : list Result) : list Time :=
  match nows, rs with
  | now :: nows, r :: rs => if Allowed r then now :: granted nows rs else granted nows rs
  | _, _ => []
  end.

(** ** The binary search *)

(** Everything from [i] on is inside the window, everything before is not. *)
Definition cut (l : list Time) (ws : Time) (i : Z) : Prop :=
  ∀ j t, l !! j = Some t → ws < t ↔ i <= Z.of_nat j.

Lemma shiftr_half n : Z.shiftr n 1 = n / 2.
Proof. rewrite Z.shiftr_div_pow2 by lia. done. Qed.

(** Whatever the log holds, the loop ends, reads inside the log, and returns
    an index inside it. *)
Lemma searchLoop_total l ws fuel valid left right :
  0 <= left → right < Z.of_nat (length l) → left <= right + 1 →
  (valid = right + 1 ∨ valid = Z.of_nat (length l)) → left <= valid <= Z.of_nat (length l) →
  right - left + 1 < Z.of_nat fuel →
  ∃ v, searchLoop fuel l ws valid left right = Some v ∧ 0 <= v <= Z.of_nat (length l).
Proof.
  revert valid left right. induction fuel as [|fuel IH]; intros valid left right H0 Hr Hlr Hv Hvr Hf; [lia|].
  cbn [searchLoop]. destruct (Z.leb_spec left right) as [Hle|Hgt]; [|exists valid; split; [done|lia]].
  rewrite shiftr_half. set (mid := left + (right - left) / 2).
  assert (left <= mid <= right) as Hmid.
  { pose proof (Z.div_mod (right - left) 2 ltac:(lia)).
    pose proof (Z.mod_pos_bound (right - left) 2 ltac:(lia)). unfold mid. lia. }
  destruct (Z.ltb_spec mid 0); [lia|].
  destruct (lookup_lt_is_Some_2 l (Z.to_nat mid)) as [t Ht]; [lia|]. rewrite Ht.
  destruct (GoTime.After t ws).
  - apply IH; lia.
  - apply IH; lia.
Qed.

Lemma search_total l ws :
  ∃ v, searchLoop (S (length l)) l ws (Z.of_nat (length l)) 0 (Z.of_nat (length l) - 1) = Some v ∧
    0 <= v <= Z.of_nat (length l).
Proof. apply searchLoop_total; lia. Qed.

(** Whatever the log holds, the index divides it: the entry at the index, if
    there is one, is inside the window, and the entry before it is not. *)
Definition live (l : list Time) (ws : Time) (i : Z) : Prop := ∃ t, l !! Z.to_nat i = Some t ∧ ws < t.
Definition dead (l : list Time) (ws : Time) (i : Z) : Prop := ∃ t, l !! Z.to_nat i = Some t ∧ t <= ws.

Lemma searchLoop_edge l ws fuel valid left right v :
  0 <= left → valid = right + 1 → (left = 0 ∨ dead l ws (left - 1)) →
  (valid = Z.of_nat (length l) ∨ live l ws valid) → left <= valid →
  searchLoop fuel l ws valid left right = Some v →
  left <= v <= valid ∧ (v = 0 ∨ dead l ws (v - 1)) ∧ (v = Z.of_nat (length l) ∨ live l ws v).
Proof.
  revert valid left right. induction fuel as [|fuel IH]; intros valid left right H0 Hv Hd Hl Hle; [done|].
  cbn [searchLoop]. destruct (Z.leb_spec left right) as [Hlr|Hgt].
  2: { intros [= <-]. replace left with valid in * by lia. split_and!; [lia|lia|done|done]. }
  rewrite shiftr_half. set (mid := left + (right - left) / 2).
  assert (left <= mid <= right) as Hmid.
  { pose proof (Z.div_mod (right - left) 2 ltac:(lia)).
    pose proof (Z.mod_pos_bound (right - left) 2 ltac:(lia)). unfold mid. lia. }
  destruct (Z.ltb_spec mid 0); [lia|]. destruct (l !! Z.to_nat mid) as [t|] eqn:Et; [|done].
  unfold GoTime.After. destruct (Z.ltb_spec ws t) as [Hin|Hout]; intros Hs.
  - destruct (IH mid left (mid - 1)) as (? & ? & ?); [lia|lia|done|right; by exists t|lia|done|]. split_and!; [lia|lia|done|done].
  - destruct (IH valid (mid + 1) right) as (? & ? & ?); [lia|lia| |done|lia|done|split_and!; [lia|lia|done|done]].
    right. exists t. by replace (mid + 1 - 1) with mid by lia.
Qed.

Lemma search_edge l ws :
  let v := search l ws in
  0 <= v <= Z.of_nat (length l) ∧ (v = 0 ∨ dead l ws (v - 1)) ∧ (v = Z.of_nat (length l) ∨ live l ws v).
Proof.
  unfold search. destruct (search_total l ws) as (v & Hv & _). rewrite Hv. cbn [default id].
  eapply searchLoop_edge; [| | | | |exact Hv]; [lia|lia|by left|by left|lia].
Qed.

(** In a sorted log the loop returns the cut between the expired and the live
    entries. *)
Lemma searchLoop_sorted l ws fuel valid left right v :
  StronglySorted Z.le l →
  (∀ j t, l !! j = Some t → Z.of_nat j < left → t <= ws) →
  (∀ j t, l !! j = Some t → right < Z.of_nat j → ws < t) →
  0 <= left → (left <= right + 1) → valid = right + 1 → right < Z.of_nat (length l) →
  searchLoop fuel l ws valid left right = Some v → cut l ws v.
Proof.
  intros Hs. revert valid left right.
  induction fuel as [|fuel IH]; intros valid left right Hlow Hhigh H0 Hlr Hv Hr; [done|]. cbn [searchLoop].
  destruct (Z.leb_spec left right) as [Hle|Hgt].
  - rewrite shiftr_half. set (mid := left + (right - left) / 2).
    assert (left <= mid <= right) as Hmid.
    { pose proof (Z.div_mod (right - left) 2 ltac:(lia)).
      pose proof (Z.mod_pos_bound (right - left) 2 ltac:(lia)). unfold mid. lia. }
    destruct (Z.ltb_spec mid 0); [done|]. destruct (l !! Z.to_nat mid) as [t|] eqn:Ht; [|done].
    unfold GoTime.After. destruct (Z.ltb_spec ws t) as [Hin|Hout].
    + apply IH; try lia; [done|]. intros j y Hj Hlt.
      pose proof (sorted_lookup l (Z.to_nat mid) j t y Hs Ht Hj ltac:(lia)). lia.
    + apply IH; try lia; [|done]. intros j y Hj Hlt.
      pose proof (sorted_lookup l j (Z.to_nat mid) y t Hs Hj Ht ltac:(lia)). lia.
  - intros [= <-] j t Hj. split; intros.
    + destruct (Z.le_gt_cases valid (Z.of_nat j)) as [|Hjv]; [done|].
      pose proof (Hlow j t Hj ltac:(lia)). lia.
    + apply (Hhigh j t Hj). lia.
Qed.

Lemma search_spec l ws :
  StronglySorted Z.le l → cut l ws (search l ws) ∧ 0 <= search l ws <= Z.of_nat (length l).
Proof.
  intros Hs. unfold search. destruct (search_total l ws) as (v & Hv & Hr). rewrite Hv. simpl.
  split; [|done]. eapply searchLoop_sorted; try exact Hv; try done; try lia.
  intros j t Hj%lookup_lt_Some ?. lia.
Qed.

Lemma copyDown_drop v l : copyDown v l = drop v l.
Proof. unfold copyDown. by rewrite take_app_length. Qed.

Lemma prune_drop l ws : prune l ws = drop (Z.to_nat (search l ws)) l.
Proof.
  unfold prune. destruct (Z.ltb_spec 0 (search l ws)); [apply copyDown_drop|].
  by replace (Z.to_nat (search l ws)) with 0%nat by lia.
Qed.

(** The instants of [l] inside the window that ends at [now]. *)
Definition inWindow (window : Duration) (now : Time) (l : list Time) : list Time :=
  filter (fun t => now - window < t) l.

Lemma prune_filter l window now :
  StronglySorted Z.le l → prune l (GoTime.Add now (- window)) = inWindow window now l.
Proof.
  intros Hs. unfold prune, inWindow, GoTime.Add. replace (now + - window) with (now - window) by lia.
  destruct (search_spec l (now - window) Hs) as [Hc Hr]. set (v := search _ _) in *.
  rewrite (filter_cut _ l (Z.to_nat v)).
  - destruct (Z.ltb_spec 0 v); [apply copyDown_drop|]. by replace (Z.to_nat v) with 0%nat by lia.
  - lia.
  - intros j t Hj. rewrite (Hc j t Hj). lia.
Qed.

(** A first probe on an expired entry discards everything up to it, expired or
    not. *)
Lemma search_probe l ws :
  dead l ws ((Z.of_nat (length l) - 1) / 2) → (Z.of_nat (length l) - 1) / 2 < search l ws.
Proof.
  intros (t & Ht & Hws). unfold search. destruct (search_total l ws) as (v & Hv & _). rewrite Hv. cbn [default id].
  pose proof (lookup_lt_Some _ _ _ Ht) as Hlen. revert Hv. generalize (length l) at 1. intros fuel. cbn [searchLoop].
  rewrite shiftr_half, Z.sub_0_r, Z.add_0_l. set (n := Z.of_nat (length l)) in *. set (mid := (n - 1) / 2) in *.
  assert (1 <= n) as Hn by lia. assert (0 <= mid <= n - 1) as Hmid.
  { pose proof (Z.div_mod (n - 1) 2 ltac:(lia)). pose proof (Z.mod_pos_bound (n - 1) 2 ltac:(lia)). unfold mid. lia. }
  destruct (Z.leb_spec 0 (n - 1)); [|lia]. destruct (Z.ltb_spec mid 0); [lia|]. rewrite Ht.
  unfold GoTime.After. destruct (Z.ltb_spec ws t); [lia|]. intros Hv.
  destruct (searchLoop_edge l ws fuel n (mid + 1) (n - 1) v) as (? & _); [lia|lia| |by left|lia|done|lia].
  right. exists t. by replace (mid + 1 - 1) with mid by lia.
Qed.

(** ** The invariant of a log *)

Record window_ok (limit : Z) (last : Time) (st : windowState) : Prop := {
  ok_sorted : StronglySorted Z.le (logs st);
  ok_past : Forall (fun t => t <= last) (logs st);
  ok_len : Z.of_nat (length (logs st)) <= Z.min limit (capLogs st);
  ok_cap : 0 <= capLogs st <= limit
}.

Section Facts.
Context (limit : Z) (window : Duration).
Hypotheses (Hl : 0 < limit) (Hw : 0 < window <= int64_max).

Lemma newWindow_ok now last : window_ok limit last (newWindow now).
Proof. constructor; simpl; [constructor|constructor|lia|lia]. Qed.

Lemma append_spec l c now :
  Z.of_nat (length l) <= c <= limit → Z.of_nat (length l) < limit →
  let st := appendWindowLog l c now limit in
  logs st = l ++ [now] ∧ Z.of_nat (length l) + 1 <= capLogs st <= limit.
Proof. intros Hc Hlt. unfold appendWindowLog. zbool; simpl; (split; [done|lia]). Qed.

Lemma inWindow_sub now l : sublist (inWindow window now l) l.
Proof. apply sublist_filter. Qed.

Lemma inWindow_ok last now st :
  window_ok limit last st → last <= now →
  window_ok limit now (mkWindow (inWindow window now (logs st)) (capLogs st)).
Proof.
  intros [Hs Hp Hn Hc] Ht. rewrite <- (prune_filter (logs st) window now Hs), prune_drop.
  constructor; simpl; [by apply sorted_drop| |rewrite length_drop; lia|done].
  apply Forall_drop. eapply Forall_impl; [exact Hp|]. simpl. lia.
Qed.

(** The decision, in terms of the instants inside the window. *)
Lemma decide_spec last st now :
  window_ok limit last st → last <= now →
  let l := inWindow window now (logs st) in
  let n := Z.of_nat (length l) in
  ∃ st' r, recordAndDecide limit window st now = (st', (r, None)) ∧
    window_ok limit now st' ∧ Allowed r = (n <? limit) ∧
    logs st' = (if Allowed r then l ++ [now] else l) ∧
    Remaining r = (if Allowed r then limit - n - 1 else 0) ∧
    (Allowed r = true → RetryAfter r = 0) ∧
    (Allowed r = false → ∃ t rest, l = t :: rest ∧ RetryAfter r = t + window - now ∧
       0 < RetryAfter r <= window).
Proof.
  intros Hok Ht l n. pose proof (inWindow_ok last now st Hok Ht) as [Hs Hp Hn Hc]. simpl in *.
  unfold recordAndDecide. rewrite prune_filter by apply Hok. fold l. fold l in Hs, Hp, Hn. fold n.
  destruct (Z.ltb_spec n limit) as [Hlt|Hge].
  - destruct (append_spec l (capLogs st) now) as [Hlog Hcap]; [fold n; lia|done|].
    do 2 eexists. split_and!; [done| |done|done| |done|done].
    + constructor; rewrite ?Hlog; [by apply sorted_snoc| |rewrite length_app; simpl; lia|lia].
      rewrite Forall_app. split; [done|]. repeat constructor. lia.
    + simpl. rewrite Hlog, length_app. simpl. lia.
  - do 2 eexists. split_and!; [done|by constructor|done|done|done|done|]. intros _.
    destruct l as [|t rest] eqn:El; [simpl in *; lia|]. exists t, rest. split; [done|]. simpl.
    assert (now - window < t ∧ t <= now) as [Ht1 Ht2].
    { split; [|by apply Forall_cons in Hp as [? _]].
      assert (t ∈ inWindow window now (logs st)) as Hin by (fold l; rewrite El; by left).
      by apply list_elem_of_filter in Hin as [? _]. }
    unfold GoTime.Add. rewrite GoTime.Sub_exact by (unfold int64_min, int64_max in *; lia). lia.
Qed.

(** ** Instants in any order

    [Allow] reads the clock before it takes the lock, so the log need not be
    sorted.  What a caller sees is well-formed all the same. *)

Definition log_size (st : windowState) : Prop :=
  Z.of_nat (length (logs st)) <= capLogs st <= limit.

Lemma decide_any st now :
  log_size st →
  ∃ st' r, recordAndDecide limit window st now = (st', (r, None)) ∧ log_size st' ∧ result_ok r.
Proof.
  intros Hs. unfold log_size in *. unfold recordAndDecide. rewrite prune_drop. unfold GoTime.Add.
  destruct (search_edge (logs st) (now + - window)) as (Hv & _ & Hlive). set (v := search _ _) in *.
  set (l := drop (Z.to_nat v) (logs st)).
  assert (length l <= length (logs st))%nat as Hlen by (unfold l; rewrite length_drop; lia).
  destruct (Z.ltb_spec (Z.of_nat (length l)) limit) as [Hlt|Hge].
  - destruct (append_spec l (capLogs st) now) as [Hlog Hcap]; [lia|done|].
    do 2 eexists. split; [reflexivity|]. rewrite Hlog, length_app. simpl. split; [lia|].
    split_and!; simpl; try done; lia.
  - do 2 eexists. split; [reflexivity|]. simpl. split; [lia|]. split_and!; simpl; try done.
    destruct Hlive as [Hall|(t & Ht & Hin)]; [unfold l in Hge; rewrite length_drop in Hge; lia|].
    assert (head l = Some t) as ->.
    { unfold l. rewrite <- (Nat.add_0_r (Z.to_nat v)) in Ht. rewrite <- lookup_drop in Ht. by destruct (drop _ _). }
    cbn [default id]. apply GoTime.Sub_nonneg. lia.
Qed.

(** An unsorted log that holds nothing expired loses nothing. *)
Lemma decide_live st now :
  Forall (fun t => now - window < t) (logs st) → Z.of_nat (length (logs st)) < limit →
  ∃ st' r, recordAndDecide limit window st now = (st', (r, None)) ∧ Allowed r = true ∧ logs st' = logs st ++ [now].
Proof.
  intros Hall Hlt. unfold recordAndDecide. rewrite prune_drop. unfold GoTime.Add.
  destruct (search_edge (logs st) (now + - window)) as (_ & Hdead & _). destruct Hdead as [->|(t & Ht & Hout)].
  2: { rewrite Forall_lookup in Hall. specialize (Hall _ _ Ht). simpl in Hall. lia. }
  change (drop (Z.to_nat 0) (logs st)) with (logs st).
  destruct (Z.ltb_spec (Z.of_nat (length (logs st))) limit); [|lia].
  do 2 eexists. split; [reflexivity|]. split; [done|]. unfold appendWindowLog. by case_match.
Qed.

(** ** Runs

    [hist] holds the instants of all allowed requests so far; the log agrees
    with it on every window that ends now or later. *)
Record tracks (hist : list Time) (last : Time) (st : windowState) : Prop := {
  tracks_ok : window_ok limit last st;
  tracks_eq : ∀ t, last <= t → inWindow window t (logs st) = inWindow window t hist
}.

Lemma inWindow_later t now l : now <= t → inWindow window t (inWindow window now l) = inWindow window t l.
Proof.
  intros Ht. unfold inWindow. rewrite list_filter_filter. apply list_filter_iff. intros x. lia.
Qed.

Lemma tracks_step hist last st now :
  tracks hist last st → last <= now →
  let n := Z.of_nat (length (inWindow window now hist)) in
  ∃ st' r, recordAndDecide limit window st now = (st', (r, None)) ∧
    Allowed r = (n <? limit) ∧ Remaining r = (if Allowed r then limit - n - 1 else 0) ∧
    result_ok r ∧ tracks (hist ++ (if Allowed r then [now] else [])) now st'.
Proof.
  intros [Hok Heq] Ht n. unfold n. rewrite <- (Heq now Ht). clear n.
  set (n := Z.of_nat (length (inWindow window now (logs st)))).
  destruct (decide_spec last st now Hok Ht) as (st' & r & Hd & Hok' & Ha & Hlog & Hrem & Hra & Hrd).
  fold n in Ha, Hrem. exists st', r. split_and!; [done|done|done| |].
  - unfold result_ok. rewrite Hrem. split_and!; [|
      |done|by intros ->].
    + rewrite Ha. zbool; lia.
    + destruct (Allowed r); [by rewrite Hra|]. destruct Hrd as (? & ? & _ & _ & ?); [done|lia].
  - split; [done|]. intros t Htt. rewrite Hlog. destruct (Allowed r).
    + unfold inWindow at 1 3. rewrite !filter_app. f_equal.
      fold (inWindow window t (inWindow window now (logs st))). fold (inWindow window t hist).
      rewrite inWindow_later by done. apply Heq. lia.
    + rewrite app_nil_r, inWindow_later by done. apply Heq. lia.
Qed.

Lemma granted_cons now nows r rs :
  granted (now :: nows) (r :: rs) = (if Allowed r then [now] else []) ++ granted nows rs.
Proof. simpl. by destruct (Allowed r). Qed.

(** Every request of a run is decided by the number of requests allowed
    before it inside its window. *)
Lemma run_exact hist last st nows i now r :
  tracks hist last st → nondecreasing last nows →
  nows !! i = Some now → (run limit window st nows).2 !! i = Some r →
  let before := hist ++ granted (take i nows) (take i (run limit window st nows).2) in
  let n := Z.of_nat (length (inWindow window now before)) in
  Allowed r = (n <? limit) ∧ Remaining r = (if Allowed r then limit - n - 1 else 0) ∧ result_ok r.
Proof.
  revert hist last st i. induction nows as [|u nows IH]; intros hist last st i Htr Hm Hi Hr; [done|].
  destruct Hm as [Ht Hm]. cbn [run] in Hr |- *.
  destruct (tracks_step hist last st u Htr Ht) as (st' & r0 & Hd & Ha & Hrem & Hok & Htr').
  rewrite Hd in Hr |- *. destruct (run limit window st' nows) as [st'' rs] eqn:Er.
  destruct i as [|i]; simpl in Hi, Hr; simplify_eq.
  - cbn [take snd granted]. by rewrite app_nil_r.
  - cbn [snd]. rewrite !firstn_cons, granted_cons, app_assoc.
    specialize (IH _ _ st' i Htr' Hm Hi). rewrite Er in IH. by apply IH.
Qed.

Lemma run_app st xs ys :
  run limit window st (xs ++ ys) =
  let '(st', rs) := run limit window st xs in
  let '(st'', rs') := run limit window st' ys in (st'', rs ++ rs').
Proof.
  revert st. induction xs as [|x xs IH]; intros st; cbn [run app].
  - by destruct (run limit window st ys).
  - destruct (recordAndDecide limit window st x) as [st1 [r e]]. rewrite IH.
    destruct (run limit window st1 xs) as [st2 rs]. by destruct (run limit window st2 ys).
Qed.

Lemma granted_app xs rs ys rs' :
  length rs = length xs → granted (xs ++ ys) (rs ++ rs') = granted xs rs ++ granted ys rs'.
Proof.
  revert rs. induction xs as [|x xs IH]; intros [|r rs] Hlen; try done. injection Hlen as Hlen.
  cbn [app]. rewrite !granted_cons, IH by done. by rewrite app_assoc.
Qed.

(** Requests at one instant pass while there is room and nothing has
    expired. *)
Lemma run_live st now k :
  Forall (fun t => now - window < t) (logs st) → Z.of_nat (length (logs st) + k) <= limit →
  ∃ st' rs, run limit window st (replicate k now) = (st', rs) ∧ logs st' = logs st ++ replicate k now ∧
    length rs = k ∧ granted (replicate k now) rs = replicate k now.
Proof.
  revert st. induction k as [|k IH]; intros st Hall Hlen.
  { exists st, []. split_and!; [done|by rewrite app_nil_r|done|done]. }
  destruct (decide_live st now Hall ltac:(lia)) as (st1 & r & Hd & Ha & Hlog).
  destruct (IH st1) as (st2 & rs & Hr & Hl2 & Hn & Hg).
  - rewrite Hlog, Forall_app. split; [done|]. repeat constructor. lia.
  - rewrite Hlog, length_app. simpl. lia.
  - exists st2, (r :: rs). cbn [replicate run]. rewrite Hd, Hr. split_and!; [done| |simpl; lia|].
    + rewrite Hl2, Hlog, <- app_assoc. done.
    + rewrite granted_cons, Ha, Hg. done.
Qed.

(** The allowed instants in [(a, a + window]]. *)
Definition within (a : Time) (l : list Time) : list Time :=
  filter (fun t => a < t ∧ t <= a + window) l.

Lemma within_step hist now a :
  Z.of_nat (length (within a hist)) <= limit →
  Z.of_nat (length (inWindow window now hist)) < limit →
  Z.of_nat (length (within a (hist ++ [now]))) <= limit.
Proof.
  intros Ha Hn. unfold within in *. rewrite filter_app, length_app, filter_cons, filter_nil.
  case_decide as Hin; simpl; [|lia].
  pose proof (filter_length_mono (fun t => a < t ∧ t <= a + window) (fun t => now - window < t) hist) as Hmono.
  unfold inWindow in Hn. specialize (Hmono ltac:(simpl; intros; lia)). lia.
Qed.

Lemma window_run_quota hist last st nows a :
  tracks hist last st → nondecreasing last nows → Z.of_nat (length (within a hist)) <= limit →
  Z.of_nat (length (within a (hist ++ granted nows (run limit window st nows).2))) <= limit.
Proof.
  revert hist last st. induction nows as [|u nows IH]; intros hist last st Htr Hm Ha.
  { cbn [run granted]. by rewrite app_nil_r. }
  destruct Hm as [Ht Hm]. cbn [run].
  destruct (tracks_step hist last st u Htr Ht) as (st' & r & -> & Hal & _ & _ & Htr').
  specialize (IH _ _ st' Htr' Hm). destruct (run limit window st' nows) as [st'' rs]. cbn [snd] in *.
  rewrite granted_cons, app_assoc. apply IH. destruct (Allowed r) eqn:E; [|by rewrite app_nil_r].
  apply within_step; [done|]. symmetry in Hal. by apply Z.ltb_lt.
Qed.

Lemma newWindow_tracks t0 : tracks [] t0 (newWindow t0).
Proof. split; [apply newWindow_ok|done]. Qed.

(** After a denial the next decision flips exactly when [RetryAfter] has
    passed. *)
Lemma retry_exact last st now st' r now' :
  window_ok limit last st → last <= now → recordAndDecide limit window st now = (st', (r, None)) →
  Allowed r = false → now <= now' →
  ∃ st'' r', recordAndDecide limit window st' now' = (st'', (r', None)) ∧
    Allowed r' = (now + RetryAfter r <=? now').
Proof.
  intros Hok Ht Heq Hden Ht'.
  destruct (decide_spec last st now Hok Ht) as (st0 & r0 & Hd & Hok' & Ha & Hlog & _ & _ & Hr).
  rewrite Hd in Heq. injection Heq as -> ->. rewrite Hden in *.
  destruct (Hr eq_refl) as (t & rest & Hl0 & Hra & _).
  destruct (decide_spec now st' now' Hok' Ht') as (st'' & r' & -> & _ & Ha' & _).
  exists st'', r'. split; [done|]. rewrite Ha', Hlog, Hl0, Hra. rewrite Hl0 in Ha.
  pose proof (ok_sorted _ _ _ Hok') as Hs. rewrite Hlog, Hl0 in Hs.
  pose proof (ok_len _ _ _ Hok') as Hlen. rewrite Hlog, Hl0 in Hlen.
  symmetry in Ha. apply Z.ltb_ge in Ha. unfold inWindow.
  destruct (Z.leb_spec (now + (t + window - now)) now') as [Hle|Hgt].
  - rewrite filter_cons, decide_False by lia. apply Z.ltb_lt.
    pose proof (length_filter (fun x => now' - window < x) rest). simpl in Hlen. lia.
  - rewrite (filter_all (fun x => now' - window < x) (t :: rest)); [by apply Z.ltb_ge|].
    intros i x Hx. pose proof (sorted_lookup _ 0 i t x Hs eq_refl Hx ltac:(lia)). lia.
Qed.

(** Requests with instant [t], then late ones with instant [t - d], fill the
    log; when the late ones expire, the others are lost as well. *)
Lemma overrun st n k t d :
  (Z.of_nat n <= (limit - 1) / 2) → Z.of_nat (n + k) = limit → 3 <= limit → 0 < d <= window →
  logs st = replicate n t ++ replicate k (t - d) →
  ∃ st' rs, run limit window st (replicate (Z.to_nat limit) (t - d + window)) = (st', rs) ∧
    length rs = Z.to_nat limit ∧
    granted (replicate (Z.to_nat limit) (t - d + window)) rs = replicate (Z.to_nat limit) (t - d + window).
Proof.
  intros Hn Hk H3 Hd Hlog. set (now := t - d + window).
  assert (length (logs st) = Z.to_nat limit) as Hlen by (rewrite Hlog, length_app, !length_replicate; lia).
  assert (∀ i, Z.of_nat n <= i < limit → logs st !! Z.to_nat i = Some (t - d)) as Hlate.
  { intros i Hi. rewrite Hlog, lookup_app_r; rewrite length_replicate; [|lia]. apply lookup_replicate. split; [done|lia]. }
  assert (prune (logs st) (GoTime.Add now (- window)) = []) as Hprune.
  { rewrite prune_drop. unfold GoTime.Add. replace (now + - window) with (t - d) by (unfold now; lia).
    pose proof (Z.div_mod (limit - 1) 2 ltac:(lia)). pose proof (Z.mod_pos_bound (limit - 1) 2 ltac:(lia)).
    pose proof (search_probe (logs st) (t - d)) as Hp. rewrite Hlen, Z2Nat.id in Hp by lia.
    specialize (Hp ltac:(exists (t - d); split; [apply Hlate; lia|lia])).
    destruct (search_edge (logs st) (t - d)) as (Hv & _ & Hlive). set (v := search _ _) in *.
    apply drop_ge. rewrite Hlen in *. destruct Hlive as [?|(u & Hu & ?)]; [lia|].
    destruct (Z.lt_ge_cases v limit) as [Hvl|]; [|lia]. rewrite Hlate in Hu by lia. injection Hu as <-. lia. }
  destruct (recordAndDecide limit window st now) as [st1 [r e]] eqn:E. pose proof E as E'.
  unfold recordAndDecide in E'. rewrite Hprune in E'. cbn [length] in E'.
  destruct (Z.ltb_spec (Z.of_nat 0) limit); [|lia]. injection E' as <- <- <-.
  assert (logs (appendWindowLog [] (capLogs st) now limit) = [now]) as L1 by (unfold appendWindowLog; by case_match).
  destruct (run_live (appendWindowLog [] (capLogs st) now limit) now (Z.to_nat limit - 1)) as (s2 & rs & Hr & _ & N & G).
  { rewrite L1. repeat constructor. lia. }
  { rewrite L1. simpl. lia. }
  replace (Z.to_nat limit) with (S (Z.to_nat limit - 1)) by lia. cbn [replicate run]. rewrite E, Hr.
  do 2 eexists. split; [reflexivity|]. split; [simpl; lia|]. rewrite granted_cons. cbn [Allowed]. by rewrite G.
Qed.

End Facts.

(** ** Properties *)

(** Quota.  In a run of requests whose instants never go back, no interval
    [(a, a + window]] ever holds more than [limit] allowed requests. *)
Theorem sliding_window_quota limit window t0 nows a :
  0 < limit → 0 < window <= int64_max → nondecreasing t0 nows →
  Z.of_nat (length (within window a
    (granted nows (run limit window (newWindow t0) nows).2))) <= limit.
Proof.
  intros Hl Hw Hm. eapply (window_run_quota limit window Hl Hw []); [by apply newWindow_tracks|done|].
  simpl. lia.
Qed.

Lemma sliding_window_quota_witness :
  granted [0; 0; 40; 99; 100; 101] (run 3 100 (newWindow 0) [0; 0; 40; 99; 100; 101]).2
    = [0; 0; 40; 100; 101] ∧
  Z.of_nat (length (within 100 1 (granted [0; 0; 40; 99; 100; 101]
    (run 3 100 (newWindow 0) [0; 0; 40; 99; 100; 101]).2))) <= 3.
Proof.
  split; [vm_compute; reflexivity|].
  apply sliding_window_quota; [lia|unfold int64_max; lia|simpl; lia].
Defined.

(** C27: exactness.  In a run whose instants never go back, the request at
    instant [now] passes exactly when fewer than [limit] requests were
    allowed before it in [(now - window, now]]; [Remaining] is what the
    window still admits afterwards. *)
Theorem sliding_window_exact limit window t0 nows i now r :
  0 < limit → 0 < window <= int64_max → nondecreasing t0 nows →
  nows !! i = Some now → (run limit window (newWindow t0) nows).2 !! i = Some r →
  let n := Z.of_nat (length (inWindow window now
    (granted (take i nows) (take i (run limit window (newWindow t0) nows).2)))) in
  Allowed r = (n <? limit) ∧ Remaining r = (if Allowed r then limit - n - 1 else 0) ∧ result_ok r.
Proof.
  intros Hl Hw Hm Hi Hr. eapply (run_exact limit window Hl Hw [] t0); try done.
  by apply newWindow_tracks.
Qed.

Lemma sliding_window_exact_witness :
  let n := Z.of_nat (length (inWindow 100 100 [0; 0; 40])) in
  true = (n <? 3) ∧ 1 = (if true then 3 - n - 1 else 0) ∧ result_ok (mkResult true 1 0).
Proof.
  apply (sliding_window_exact 3 100 0 [0; 0; 40; 99; 100; 101] 4 100 (mkResult true 1 0)).
  - lia.
  - unfold int64_max. lia.
  - simpl. lia.
  - reflexivity.
  - vm_compute. reflexivity.
Defined.

(** C28: [RetryAfter] is exact.  After a denial, with no request in between, a
    request is denied before [now + RetryAfter] and allowed from then on. *)
Theorem sliding_window_retry_exact limit window last st now st' r now' :
  0 < limit → 0 < window <= int64_max → window_ok limit last st → last <= now →
  recordAndDecide limit window st now = (st', (r, None)) → Allowed r = false → now <= now' →
  0 < RetryAfter r <= window ∧
  ∃ st'' r', recordAndDecide limit window st' now' = (st'', (r', None)) ∧
    Allowed r' = (now + RetryAfter r <=? now').
Proof.
  intros Hl Hw Hok Ht Heq Hd Ht'. split; [|by eapply retry_exact].
  destruct (decide_spec limit window Hl Hw last st now Hok Ht) as (? & ? & He & _ & _ & _ & _ & _ & Hr).
  rewrite He in Heq. injection Heq as -> ->. by destruct (Hr Hd) as (? & ? & _ & _ & ?).
Qed.

Lemma sliding_window_retry_exact_witness :
  0 < RetryAfter (mkResult false 0 40) <= 100 ∧
  ∃ st'' r', recordAndDecide 2 100 (mkWindow [40; 50] 2) 140 = (st'', (r', None)) ∧
    Allowed r' = (100 + RetryAfter (mkResult false 0 40) <=? 140).
Proof.
  apply (sliding_window_retry_exact 2 100 60 (mkWindow [40; 50] 2) 100).
  - lia.
  - unfold int64_max. lia.
  - constructor; simpl; [repeat constructor; lia|repeat constructor; lia|lia|lia].
  - lia.
  - vm_compute. reflexivity.
  - reflexivity.
  - lia.
Defined.

(** Memory.  One decision keeps the log sorted, in the past, no longer than
    [limit], and its array no larger than [limit]. *)
Theorem sliding_window_invariant limit window last st now :
  0 < limit → 0 < window <= int64_max → window_ok limit last st → last <= now →
  window_ok limit now (recordAndDecide limit window st now).1 ∧
  result_ok (recordAndDecide limit window st now).2.1.
Proof.
  intros Hl Hw Hok Ht.
  destruct (decide_spec limit window Hl Hw last st now Hok Ht)
    as (st' & r & -> & Hok' & Ha & _ & Hrem & Hra & Hrd). split; [done|]. simpl.
  unfold result_ok. rewrite Hrem. split_and!; [rewrite Ha; zbool; lia| |done|by intros ->].
  destruct (Allowed r); [by rewrite Hra|]. destruct Hrd as (? & ? & _ & _ & ?); [done|lia].
Qed.

Lemma sliding_window_invariant_witness :
  window_ok 2 100 (recordAndDecide 2 100 (newWindow 0) 100).1 ∧
  result_ok (recordAndDecide 2 100 (newWindow 0) 100).2.1.
Proof.
  apply (sliding_window_invariant 2 100 0).
  - lia.
  - unfold int64_max. lia.
  - apply newWindow_ok. lia.
  - lia.
Defined.

(** C29: the order matters.  The instant of a request is read before the shard
    lock is taken, so requests of a key can be decided in another order than
    that of their instants.  For every limit of three or more and every delay
    [d] up to the window, even a nanosecond, let [(limit - 1) / 2] requests
    with instant [t] be decided first, then requests with instant [t - d]
    until the limit is reached, and [limit] more one window after [t - d].
    The binary search over the unsorted log discards entries that are still
    inside the window: all these requests pass, and the interval of one
    window that starts at [t - d] holds half as many again as the limit. *)
Theorem sliding_window_out_of_order limit window t d :
  3 <= limit → 0 < window <= int64_max → 0 < d <= window →
  let early := (limit - 1) / 2 in
  let nows := replicate (Z.to_nat early) t ++ replicate (Z.to_nat (limit - early)) (t - d) ++
    replicate (Z.to_nat limit) (t - d + window) in
  let g := granted nows (run limit window (newWindow t) nows).2 in
  g = nows ∧ Z.of_nat (length (within window (t - d) g)) = limit + early.
Proof.
  intros Hl Hw Hd early nows. assert (1 <= early <= limit - 2) as He.
  { pose proof (Z.div_mod (limit - 1) 2 ltac:(lia)). pose proof (Z.mod_pos_bound (limit - 1) 2 ltac:(lia)). unfold early. lia. }
  destruct (run_live limit window Hw (newWindow t) t (Z.to_nat early)) as (s1 & r1 & H1 & L1 & N1 & G1);
    [constructor|simpl; lia|].
  destruct (run_live limit window Hw s1 (t - d) (Z.to_nat (limit - early))) as (s2 & r2 & H2 & L2 & N2 & G2).
  { rewrite L1. apply Forall_replicate. lia. }
  { rewrite L1. simpl. rewrite length_replicate. lia. }
  rewrite L1 in L2. simpl in L2.
  destruct (overrun limit window ltac:(lia) Hw s2 (Z.to_nat early) (Z.to_nat (limit - early)) t d) as (s3 & r3 & H3 & N3 & G3); [lia|lia|lia|lia|done|].
  assert (granted nows (run limit window (newWindow t) nows).2 = nows) as ->.
  { unfold nows. rewrite run_app, H1, run_app, H2, H3. cbn [snd]. rewrite !granted_app by (rewrite length_replicate; done). congruence. }
  split; [done|]. unfold within, nows. rewrite !filter_app, !length_app.
  rewrite (filter_all _ (replicate (Z.to_nat early) t)), (filter_all _ (replicate (Z.to_nat limit) _));
    [|intros i x [-> _]%lookup_replicate; lia..].
  rewrite (filter_none _ (replicate _ (t - d))); [|apply Forall_replicate; lia].
  rewrite !length_replicate. simpl. lia.
Qed.

Lemma sliding_window_out_of_order_witness :
  let nows := [100; 90; 90; 190; 190; 190] in
  let g := granted nows (run 3 100 (newWindow 100) nows).2 in
  g = nows ∧ Z.of_nat (length (within 100 90 g)) = 4.
Proof.
  apply (sliding_window_out_of_order 3 100 100 10); [lia|unfold int64_max; lia|lia].
Defined.

(** C30: the search ends.  For any log, sorted or not, the binary search returns
    after at most [len + 1] iterations, without reading outside the log, with
    an index between zero and the length. *)
Theorem sliding_window_search_terminates l windowStart :
  ∃ v, searchLoop (S (length l)) l windowStart (Z.of_nat (length l)) 0 (Z.of_nat (length l) - 1) = Some v ∧
    search l windowStart = v ∧ 0 <= v <= Z.of_nat (length l).
Proof.
  destruct (search_total l windowStart) as (v & Hv & Hr). exists v. unfold search. by rewrite Hv.
Qed.

End SlidingWindow.
