(* ===== verification/StateStore.v ===== *)
(** * StateStore: the interface of memory/state_store.go

    What the limiters rely on: the operations of the Go interface
    [stateStore] as a class, the laws they obey as a second class, and the
    instance that the sharded store provides.  The limiters are verified
    against the laws alone. *)

From Stdlib Require Import ZArith Lia Bool.
From stdpp Require Import base gmap strings list.
From S2P Require Import Prelude Core GoTime Options ShardedStore StoreFacts StoreSpec.

#[local] Open Scope Z_scope.

(** [E] is what one call reads besides its arguments (for the sharded store,
    the visiting order of its maps).  [drainEvictions] returns the number of
    pending evictions, which is also the number of calls of [onEvict]. *)
Class StateStore (E T S : Type) (create : Time → T) := {
  withState : E → S → string → Time → (T → Time → T * (Result * option error)) →
              option ((Result * option error) * S);
  store_len : S → Z;
  drainEvictions : S → Z * S
}.

Class StateStoreLaws {E T S : Type} {create : Time → T} (store : StateStore E T S create)
    (o : Options.options) := {
  store_ok : S → Prop;
  contents : S → gmap string (T * Time);
  pending : S → Z;
  law_withState env s key now fn :
    store_ok s →
    ∃ r s' victim, withState env s key now fn = Some (r, s') ∧ store_ok s' ∧
      pending s' = pending s + StoreSpec.victim_count victim ∧
      StoreSpec.withState_spec o create now key fn (contents s) r victim (contents s');
  law_len s : store_ok s → store_len s = Z.of_nat (size (contents s));
  law_max s : store_ok s → 0 < Options.maxKeys o → Z.of_nat (size (contents s)) <= Options.maxKeys o;
  law_pending s : store_ok s → 0 <= pending s;
  law_drain s :
    store_ok s →
    ∃ s', drainEvictions s = (pending s, s') ∧ store_ok s' ∧ contents s' = contents s ∧ pending s' = 0
}.

(** ** The sharded store implements the interface *)

#[export] Instance sharded_StateStore {T} (create : Time → T) :
    StateStore (Store.range_order T) T (Store.shardedStore T) create := {
  withState ord s key now fn := Store.withState ord create s key now fn;
  store_len := Store.len;
  drainEvictions s := let '((n, _), s') := Store.drainEvictions (Some tt) s in (n, s')
}.

Section Sharded.
Context {T : Type} (create : Time → T) (o : Options.options).

Definition sharded_ok (s : Store.shardedStore T) : Prop :=
  StoreSpec.store_inv 0 s ∧ Store.opts s = o.

Lemma sharded_withState ord s key now fn :
  sharded_ok s →
  ∃ r s' victim, Store.withState ord create s key now fn = Some (r, s') ∧ sharded_ok s' ∧
    Store.evicts s' = Store.evicts s + StoreSpec.victim_count victim ∧
    StoreSpec.withState_spec o create now key fn (StoreSpec.abs s) r victim (StoreSpec.abs s').
Proof.
  intros [Hinv Ho].
  destruct (StoreSpec.withState_refines ord create s key now fn Hinv)
    as (r & s' & victim & -> & Hinv' & Ho' & He & Hspec).
  exists r, s', victim. rewrite Ho in Hspec. split_and!; [done|split; [done|congruence]|done|done].
Qed.

Lemma sharded_len s : sharded_ok s → Store.len s = Z.of_nat (size (StoreSpec.abs s)).
Proof. intros [Hinv _]. unfold Store.len. rewrite (StoreSpec.live_eq 0 s Hinv). lia. Qed.

Lemma sharded_max s :
  sharded_ok s → 0 < Options.maxKeys o → Z.of_nat (size (StoreSpec.abs s)) <= Options.maxKeys o.
Proof.
  intros [Hinv <-] Hm. pose proof (StoreSpec.live_eq 0 s Hinv).
  pose proof (StoreSpec.inv_max 0 s Hinv Hm). lia.
Qed.

Lemma sharded_drain s :
  sharded_ok s →
  ∃ s', drainEvictions (StateStore := sharded_StateStore create) s = (Store.evicts s, s') ∧
    sharded_ok s' ∧ StoreSpec.abs s' = StoreSpec.abs s ∧ Store.evicts s' = 0.
Proof.
  intros [[H1 H2 H3 H4 H5 H6 H7] Ho]. eexists. split; [reflexivity|].
  by split_and!.
Qed.

#[export] Instance sharded_laws : StateStoreLaws (sharded_StateStore create) o := {
  store_ok := sharded_ok;
  contents := StoreSpec.abs;
  pending := Store.evicts;
  law_withState := sharded_withState;
  law_len := sharded_len;
  law_max := sharded_max;
  law_pending s Hs := StoreSpec.inv_evicts 0 s (proj1 Hs);
  law_drain := sharded_drain
}.
End Sharded.

(** A new store is empty and satisfies the invariant. *)
Lemma emptyShard_map {T} : StoreFacts.shard_map (Store.emptyShard (T := T)) = ∅.
Proof. unfold StoreFacts.shard_map, StoreFacts.items_map. simpl. by rewrite fmap_empty, (left_id_L ∅ (∪)). Qed.

Lemma emptyShard_inv {T} lru : StoreFacts.shard_inv lru (Store.emptyShard (T := T)).
Proof. destruct lru; [|done]. split; [done|]. constructor; simpl; constructor. Qed.

Lemma newStore_ok {T} (o : Options.options) :
  Options.options_ok o →
  sharded_ok o (Store.newShardedStore (T := T) o) ∧ StoreSpec.abs (Store.newShardedStore (T := T) o) = ∅.
Proof.
  intros Ho. unfold Store.newShardedStore, Store.newShardedStoreWithShards.
  assert (∀ n (l : list (Store.shard T)), l = replicate n Store.emptyShard →
    sum_list_with StoreFacts.shard_size l = 0%nat ∧ ⋃ (StoreFacts.shard_map <$> l) = ∅) as Hrep.
  { intros n l ->. induction n as [|n [IH1 IH2]]; [done|]. cbn [replicate sum_list_with].
    rewrite fmap_cons. simpl. rewrite IH1, emptyShard_map.
    split; [done|]. rewrite (left_id_L ∅ (∪)). exact IH2. }
  destruct (Hrep (Z.to_nat (Options.shards o)) _ eq_refl) as [Hsum Habs].
  destruct (Options.ok_shards o Ho) as (k & Hk & Hs). split; [|exact Habs]. split; [|done].
  constructor; simpl; try done.
  - rewrite length_replicate, Hs. pose proof (Z.pow_pos_nonneg 2 k). lia.
  - intros i sh [-> _]%lookup_replicate. apply emptyShard_inv.
  - intros i sh key [-> _]%lookup_replicate. rewrite emptyShard_map. by intros [? ?].
  - unfold StoreSpec.total. simpl. rewrite Hsum. lia.
  - intros _. apply Ho.
Qed.

Lemma newStateStore_ok {T} (o : Options.options) :
  Options.options_ok o →
  Store.newStateStore (T := T) o = Returns (Store.newShardedStore o).
Proof. intros Ho. unfold Store.newStateStore. by destruct (Options.ok_eviction o Ho) as [->| ->]. Qed.
