(* ===== verification/StoreRecency.v ===== *)
(** * StoreRecency: reachable stores and the order of their lists

    The stores a limiter can reach from a new one by calls whose clock
    readings never go back, as an inductive relation, and the invariant that
    makes eviction least-recently-used: each shard's list is sorted by last
    use, newest first.  Also: what a cleanup pass removes. *)

From Stdlib Require Import ZArith Lia Bool.
From stdpp Require Import base gmap strings list sorting.
From S2P Require Import Prelude Core GoTime Hash Options ShardedStore StoreFacts StoreSpec StateStore.

#[local] Open Scope Z_scope.

Module Recency.
Import Store StoreFacts StoreSpec.

Section Recency.
Context {T : Type}.
Implicit Types (s : shardedStore T) (sh : shard T) (shl : shard T * Z) (l : list (nat * lruEntry T)).

(** Newest first, nothing later than [t]. *)
Definition newer (p q : nat * lruEntry T) : Prop := lruLastSeen q.2 <= lruLastSeen p.2.
Definition recent (t : Time) l : Prop :=
  StronglySorted newer l ∧ Forall (fun p => lruLastSeen p.2 <= t) l.

Definition recency (t : Time) s : Prop := ∀ i, recent t (order (shardAt s i)).

Lemma recent_sublist t l l' : sublist l' l → recent t l → recent t l'.
Proof.
  intros Hs [H1 H2]. split.
  - clear H2. induction Hs as [|p l1 l2 Hs IH|p l1 l2 Hs IH]; [constructor| |].
    + apply StronglySorted_inv in H1 as [H1 Hp]. constructor; [by apply IH|].
      eapply Forall_sublist; [exact Hs|done].
    + apply StronglySorted_inv in H1 as [H1 _]. by apply IH.
  - eapply Forall_sublist; [exact Hs|done].
Qed.

Lemma recent_later t t' l : t <= t' → recent t l → recent t' l.
Proof. intros Ht [H1 H2]. split; [done|]. eapply Forall_impl; [exact H2|]. simpl. lia. Qed.

Lemma recent_push t now id e l :
  recent t l → t <= now → lruLastSeen e = now → recent now ((id, e) :: l).
Proof.
  intros [H1 H2] Ht He. split.
  - constructor; [done|]. eapply Forall_impl; [exact H2|]. intros q Hq. unfold newer. simpl in *. lia.
  - constructor; [simpl; lia|]. eapply Forall_impl; [exact H2|]. simpl. lia.
Qed.

(** The back of the list was used least recently. *)
Lemma recent_last t l p : recent t l → last l = Some p → ∀ q, q ∈ l → lruLastSeen p.2 <= lruLastSeen q.2.
Proof.
  intros [Hs _]. revert p. induction Hs as [|x l Hs IH Hx]; intros p Hl q Hq; [done|].
  destruct l as [|y l]; [simpl in Hl; simplify_eq; apply list_elem_of_singleton in Hq as ->; lia|].
  rewrite last_cons_cons in Hl. apply elem_of_cons in Hq as [->|Hq]; [|by apply IH].
  rewrite Forall_forall in Hx. apply Hx. apply last_Some in Hl as [l' ->]. set_solver.
Qed.

(** ** Operations that only remove from the lists *)

Definition shorter s s' : Prop := ∀ i, sublist (order (shardAt s' i)) (order (shardAt s i)).

#[local] Hint Extern 0 (sublist ?l ?l) => reflexivity : core.

Lemma shorter_refl s : shorter s s.
Proof. intros i. done. Qed.
#[local] Hint Resolve shorter_refl : core.

Lemma shorter_trans s1 s2 s3 : shorter s1 s2 → shorter s2 s3 → shorter s1 s3.
Proof. intros H1 H2 i. etrans; [apply H2|apply H1]. Qed.

Lemma shorter_recency t s s' : shorter s s' → recency t s → recency t s'.
Proof. intros Hs Hr i. eapply recent_sublist; [apply Hs|apply Hr]. Qed.

(** Replacing shard [i], whether or not it exists. *)
Lemma shardAt_replace s s' i sh :
  shards s' = <[i := sh]> (shards s) →
  ∀ j, shardAt s' j = sh ∧ j = i ∨ shardAt s' j = shardAt s j.
Proof.
  intros Hs j. unfold shardAt. rewrite Hs. destruct (decide (j = i)) as [->|Hne].
  - destruct (decide (i < length (shards s))%nat) as [Hlt|Hge].
    + left. by rewrite list_lookup_insert_eq.
    + right. by rewrite list_insert_ge by lia.
  - right. by rewrite list_lookup_insert_ne.
Qed.

Lemma shorter_replace s s' i sh :
  shards s' = <[i := sh]> (shards s) → sublist (order sh) (order (shardAt s i)) → shorter s s'.
Proof. intros Hs Ho j. by destruct (shardAt_replace s s' i sh Hs j) as [[-> ->]| ->]. Qed.

Lemma deleteItem_order shl k : order (deleteItem shl k).1 = order shl.1.
Proof. destruct shl as [sh lv]. unfold deleteItem. by destruct (items sh !! k). Qed.

Lemma deleteItems_order ks shl : order (foldl deleteItem shl ks).1 = order shl.1.
Proof. revert shl. induction ks as [|k ks IH]; intros shl; [done|]. cbn [foldl]. by rewrite IH, deleteItem_order. Qed.

Lemma deleteElems_sub es shl : sublist (order (foldl deleteElem shl es).1) (order shl.1).
Proof.
  revert shl. induction es as [|p es IH]; intros shl; [done|]. cbn [foldl]. etrans; [apply IH|].
  destruct shl as [sh lv]. unfold deleteElem. destruct (orderItems sh !! lruKey p.2); [|done].
  apply sublist_filter.
Qed.

Lemma cleanup_shorter ord s i now : shorter s (cleanup ord s i now).
Proof.
  unfold cleanup. destruct (isLRU s); (eapply shorter_replace; [reflexivity|]).
  - unfold cleanupLRU. destruct (cleanupDue _ _ _); [|done]. etrans; [apply deleteElems_sub|done].
  - unfold cleanupMap. destruct (cleanupDue _ _ _); [|done]. by rewrite deleteItems_order.
Qed.

Lemma sweep_shorter ord s now : shorter s (sweepExpired ord s now).
Proof.
  unfold sweepExpired. destruct (_ || _); [done|]. destruct (_ <? _); [done|].
  set (s0 := mkStore _ _ _ _ _). apply (shorter_trans s s0); [intros j; reflexivity|].
  generalize (seq 0 (length (shards s0))) as js. intros js. generalize s0. clear.
  induction js as [|i js IH]; intros s; [done|]. cbn [foldl].
  eapply shorter_trans; [apply cleanup_shorter|apply IH].
Qed.

Lemma evictFrom_shorter s i : shorter s (evictFrom s i).2.
Proof.
  unfold evictFrom. destruct (last _); [|done]. eapply shorter_replace; [reflexivity|]. apply sublist_filter.
Qed.

Lemma evictFirst_shorter s self js : shorter s (evictFirst s self js).
Proof.
  revert s. induction js as [|j js IH]; intros s; [done|]. cbn [evictFirst].
  destruct (Nat.eqb j self); [apply IH|]. pose proof (evictFrom_shorter s j) as He.
  destruct (evictFrom s j) as [[] s']; [done|]. eapply shorter_trans; [exact He|apply IH].
Qed.

Lemma reserveLoop_shorter fuel ord swept s i now b s' :
  reserveLoop fuel ord swept s i now = Some (b, s') → shorter s s'.
Proof.
  revert swept s. induction fuel as [|fuel IH]; intros swept s; [done|]. cbn [reserveLoop].
  destruct (_ <? _); [intros [= <- <-] j; reflexivity|]. destruct (isLRU s).
  - pose proof (evictFrom_shorter s i) as He. destruct (evictFrom s i) as [[] s1]; simpl in He.
    + intros Hr. eapply shorter_trans; [exact He|]. by eapply IH.
    + intros Hr. eapply shorter_trans; [exact He|]. eapply shorter_trans; [|by eapply IH].
      eapply (shorter_trans _ (if swept then s1 else sweepExpired ord s1 now));
        [destruct swept; [done|apply sweep_shorter]|].
      destruct (_ <=? _); [apply evictFirst_shorter|done].
  - destruct swept; [intros [= <- <-] j; reflexivity|]. intros Hr.
    eapply shorter_trans; [apply sweep_shorter|]. by eapply IH.
Qed.

Lemma reserveSlot_shorter ord s i now b s' : reserveSlot ord s i now = Some (b, s') → shorter s s'.
Proof.
  unfold reserveSlot. destruct (_ <=? _); [intros [= <- <-] j; reflexivity|]. apply reserveLoop_shorter.
Qed.

(** ** Operations that put an element in front *)

Lemma replace_recency t now s s' i sh :
  recency t s → t <= now → shards s' = <[i := sh]> (shards s) → recent now (order sh) → recency now s'.
Proof.
  intros Hr Ht Hs Hsh j. destruct (shardAt_replace s s' i sh Hs j) as [[-> _]| ->]; [done|].
  by eapply recent_later.
Qed.

Lemma touch_recency t now s i id e :
  recency t s → t <= now → recency now (replaceShard s i (touchElem (shardAt s i) id e now)).
Proof.
  intros Hr Ht. eapply replace_recency; [exact Hr|done|reflexivity|].
  eapply recent_push; [|exact Ht|done]. eapply recent_sublist; [apply sublist_filter|apply Hr].
Qed.

Lemma getOrCreateLRU_recency ord create s i key now ov s' t :
  recency t s → t <= now → getOrCreateLRU ord create s i key now = Some (ov, s') → recency now s'.
Proof.
  intros Hr Ht. unfold getOrCreateLRU. destruct (_ ≫= _) as [[id e]|].
  { intros [= <- <-]. eapply shorter_recency; [apply cleanup_shorter|]. by eapply touch_recency. }
  pose proof (shorter_recency t _ _ (cleanup_shorter ord s i now) Hr) as Hr1.
  destruct (reserveSlot ord _ i now) as [[b s2]|] eqn:Er; [|done].
  pose proof (shorter_recency t _ _ (reserveSlot_shorter _ _ _ _ _ _ Er) Hr1) as Hr2. destruct b.
  - destruct (_ ≫= _) as [[id e]|]; intros [= <- <-].
    + apply (touch_recency t now (withLive s2 (live s2 - 1))); [exact Hr2|done].
    + eapply replace_recency; [exact Hr2|done|reflexivity|]. eapply recent_push; [apply Hr2|done|done].
  - intros [= <- <-] j. eapply recent_later; [exact Ht|apply Hr2].
Qed.

(** In the rejecting mode the lists are empty and stay so. *)
Lemma getOrCreateMap_recency ord create s i key now ov s' t :
  recency t s → t <= now → getOrCreateMap ord create s i key now = Some (ov, s') → recency now s'.
Proof.
  intros Hr Ht. unfold getOrCreateMap. destruct (items _ !! key) as [e|].
  { intros [= <- <-]. eapply shorter_recency; [apply cleanup_shorter|].
    eapply replace_recency; [exact Hr|done|reflexivity|]. eapply recent_later; [exact Ht|apply Hr]. }
  pose proof (shorter_recency t _ _ (cleanup_shorter ord s i now) Hr) as Hr1.
  destruct (reserveSlot ord _ i now) as [[b s2]|] eqn:Er; [|done].
  pose proof (shorter_recency t _ _ (reserveSlot_shorter _ _ _ _ _ _ Er) Hr1) as Hr2. destruct b.
  - destruct (items _ !! key) as [e|]; intros [= <- <-].
    + eapply replace_recency; [exact Hr2|done|reflexivity|]. eapply recent_later; [exact Ht|apply Hr2].
    + eapply replace_recency; [exact Hr2|done|reflexivity|]. eapply recent_later; [exact Ht|apply Hr2].
  - intros [= <- <-] j. eapply recent_later; [exact Ht|apply Hr2].
Qed.

Lemma writeElems_recent t idx k v l : recent t l → recent t (map (writeElem idx k v) l).
Proof.
  assert (∀ p, lruLastSeen (writeElem idx k v p).2 = lruLastSeen p.2) as Hp
    by (intros p; apply writeElem_id).
  intros [H1 H2]. split.
  - clear H2. induction H1 as [|x l Hs IH Hx]; [constructor|]. simpl. constructor; [done|].
    apply Forall_fmap. eapply Forall_impl; [exact Hx|]. intros q. unfold newer. simpl. by rewrite !Hp.
  - apply Forall_fmap. eapply Forall_impl; [exact H2|]. intros q. simpl. by rewrite Hp.
Qed.

Lemma storeState_recency t s i key v : recency t s → recency t (storeState s i key v).
Proof.
  intros Hr. unfold storeState.
  destruct (isLRU s); (eapply replace_recency; [exact Hr|reflexivity|reflexivity|]); [|apply Hr].
  apply (writeElems_recent t (orderItems (shardAt s i)) key v), Hr.
Qed.

Lemma withState_recency ord create s key now fn r s' t :
  recency t s → t <= now → withState ord create s key now fn = Some (r, s') → recency now s'.
Proof.
  intros Hr Ht. unfold withState. destruct (isLRU s).
  - destruct (getOrCreateLRU _ _ _ _ _ _) as [[[v|] s1]|] eqn:E; [| |done].
    + pose proof (getOrCreateLRU_recency _ _ _ _ _ _ _ _ t Hr Ht E).
      destruct (fn v now) as [v' r']. intros [= <- <-]. by apply storeState_recency.
    + intros [= <- <-]. by eapply getOrCreateLRU_recency.
  - destruct (getOrCreateMap _ _ _ _ _ _) as [[[v|] s1]|] eqn:E; [| |done].
    + pose proof (getOrCreateMap_recency _ _ _ _ _ _ _ _ t Hr Ht E).
      destruct (fn v now) as [v' r']. intros [= <- <-]. by apply storeState_recency.
    + intros [= <- <-]. by eapply getOrCreateMap_recency.
Qed.

(** ** Reachable stores *)

(** [reach create t s]: some sequence of calls on a new store, at instants
    that never go back and end at [t], leads to [s]. *)
Inductive reach (create : Time → T) : Time → shardedStore T → Prop :=
| reach_new o t : Options.options_ok o → reach create t (newShardedStore o)
| reach_call t s ord key now fn r s' :
    reach create t s → t <= now → withState ord create s key now fn = Some (r, s') →
    reach create now s'
| reach_drain t s : reach create t s → reach create t (Store.drainEvictions (Some tt) s).2.

Lemma reach_inv create t s : reach create t s → store_inv 0 s ∧ recency t s.
Proof.
  induction 1 as [o t Ho|t s ord key now fn r s' _ [Hinv Hr] Ht Hw|t s _ [Hinv Hr]].
  - destruct (newStore_ok (T := T) o Ho) as [[Hinv _] _]. split; [done|].
    intros i. unfold shardAt. destruct (shards (newShardedStore o) !! i) as [sh|] eqn:E.
    + apply lookup_replicate in E as [-> _]. split; constructor.
    + split; constructor.
  - destruct (withState_refines ord create s key now fn Hinv) as (r0 & s0 & victim & Hw0 & Hinv0 & _).
    assert (s0 = s') as -> by congruence. split; [done|]. by eapply withState_recency.
  - split; [|exact Hr]. destruct Hinv. constructor; try done.
Qed.

End Recency.
End Recency.
