(* ===== verification/StoreProps.v ===== *)
(** * StoreProps: the properties of the sharded store

    Refinement of the abstract map, exact counting and the key limit, the
    eviction and rejection policies, the placement of keys, and what the lazy
    cleanup removes and leaves behind. *)

From Stdlib Require Import ZArith Lia Bool.
From stdpp Require Import base gmap strings list sorting.
From S2P Require Import Prelude Core GoTime Hash Options ShardedStore StoreFacts StoreSpec StateStore StoreRecency.

#[local] Open Scope Z_scope.

Module StoreProps.
Import Store StoreFacts StoreSpec Recency.

Section Cleanup.
Context {T : Type}.
Implicit Types (s : shardedStore T) (sh : shard T) (l es : list (nat * lruEntry T)).

(** ** What a cleanup pass leaves *)

Lemma deleteElems_order es sh lv :
  shard_inv true sh → NoDup (es.*1) → (∀ p, p ∈ es → p ∈ order sh) →
  order (foldl deleteElem (sh, lv) es).1 = filter (fun q => q.1 ∉ es.*1) (order sh).
Proof.
  revert sh lv. induction es as [|p es IH]; intros sh lv Hinv Hnd Hin; cbn [foldl].
  { symmetry. apply filter_all. intros i x _. simpl. set_solver. }
  rewrite fmap_cons in Hnd. apply NoDup_cons in Hnd as [Hnp Hnd].
  destruct (deleteElem_pruned (fun _ => True) sh lv p) as [Hpr Hord]; [done|set_solver|done|].
  destruct (deleteElem (sh, lv) p) as [sh' lv'] eqn:E. simpl in Hord.
  rewrite IH; [|apply Hpr|done|].
  - rewrite Hord. unfold listRemove. rewrite list_filter_filter. apply list_filter_iff. intros q.
    rewrite fmap_cons. set_solver.
  - intros q Hq. rewrite Hord. apply listRemove_elem. split; [set_solver|].
    intros Heq. apply Hnp. rewrite <- Heq. by apply list_elem_of_fmap_2.
Qed.

Lemma deleteItems_lookup ks sh lv k :
  items (foldl deleteItem (sh, lv) ks).1 !! k = if decide (k ∈ ks) then None else items sh !! k.
Proof.
  revert sh lv. induction ks as [|k0 ks IH]; intros sh lv; cbn [foldl]; [done|].
  assert (∃ sh' lv', deleteItem (sh, lv) k0 = (sh', lv') ∧ items sh' = delete k0 (items sh))
    as (sh' & lv' & -> & Hit).
  { unfold deleteItem. destruct (items sh !! k0) eqn:E; do 2 eexists; (split; [done|]); [done|].
    simpl. by rewrite delete_id. }
  rewrite IH, Hit. destruct (decide (k = k0)) as [->|Hne].
  - rewrite (decide_True (P := k0 ∈ k0 :: ks)) by set_solver. rewrite lookup_delete_eq. by case_decide.
  - rewrite lookup_delete_ne by done. repeat case_decide; set_solver.
Qed.

(** The elements one pass removes from the list. *)
Definition doomed (o : Options.options) (now : Time) l : list (nat * lruEntry T) :=
  filter (fun elem => isExpired o now (lruLastSeen elem.2) = true) (take Options.cleanupBatchSize l).

Lemma cleanupLRU_order o now sh lv :
  shard_inv true sh → cleanupDue o now (lastCleanup sh) = true →
  order (cleanupLRU o now (sh, lv)).1 = filter (fun q => q.1 ∉ (doomed o now (order sh)).*1) (order sh).
Proof.
  intros Hinv Hd. unfold cleanupLRU. rewrite Hd. fold (setLastCleanup sh now).
  assert (NoDup ((order sh).*1)) as Hnd by by destruct Hinv as [_ []].
  apply (deleteElems_order (doomed o now (order sh)) (setLastCleanup sh now)); [done| |].
  - eapply sublist_NoDup; [exact Hnd|]. apply fmap_sublist. etrans; [apply sublist_filter|apply sublist_take].
  - intros p [_ Hp]%list_elem_of_filter. eapply elem_of_sublist; [exact Hp|apply sublist_take].
Qed.

(** With at most a batch of entries, a due pass leaves no expired key. *)
Lemma cleanup_shard_complete ord s i now k v :
  range_order_ok ord → store_inv 0 s → (i < length (shards s))%nat →
  cleanupDue (opts s) now (lastCleanup (shardAt s i)) = true →
  (shard_size (shardAt s i) <= Options.cleanupBatchSize)%nat →
  shard_map (shardAt (cleanup ord s i now) i) !! k = Some v → ¬ expired (opts s) now v.
Proof.
  intros Hord Hinv Hi Hd Hsz Hk Hex. pose proof (shardAt_inv 0 s Hinv i Hi) as Hsh.
  destruct (cleanup_shrinks 0 ord s i now Hinv Hi) as (Hinv' & Ho & Hl & _).
  pose proof (shardAt_inv 0 _ Hinv' i ltac:(lia)) as Hsh'.
  assert (isLRU (cleanup ord s i now) = isLRU s) as El by (unfold isLRU; by rewrite Ho). rewrite El in Hsh'.
  unfold cleanup in *. destruct (isLRU s) eqn:Em.
  - assert (shardAt (setShard s i (cleanupLRU (opts s) now (shardAt s i, live s))) i
            = (cleanupLRU (opts s) now (shardAt s i, live s)).1) as Heq.
    { unfold shardAt at 1. simpl. by rewrite list_lookup_insert_eq. }
    rewrite Heq in Hk, Hsh'. rewrite shard_map_lru in Hk by done. destruct Hsh' as [_ [Hks _ _ _]].
    apply order_map_lookup_Some in Hk as (p & Hp & _ & ->); [|done].
    rewrite cleanupLRU_order in Hp by done. apply list_elem_of_filter in Hp as [Hn Hp]. apply Hn.
    apply list_elem_of_fmap_2, list_elem_of_filter. split; [by apply Z.leb_le; destruct Hex|].
    rewrite take_ge; [done|]. unfold shard_size in Hsz. lia.
  - assert (shardAt (setShard s i (cleanupMap (opts s) (ord i (items (shardAt s i))) now (shardAt s i, live s))) i
            = (cleanupMap (opts s) (ord i (items (shardAt s i))) now (shardAt s i, live s)).1) as Heq.
    { unfold shardAt at 1. simpl. by rewrite list_lookup_insert_eq. }
    rewrite Heq in Hk, Hsh'. rewrite items_lookup in Hk by done.
    apply fmap_Some in Hk as (e & He & ->). unfold cleanupMap in He. rewrite Hd in He.
    rewrite deleteItems_lookup in He. simpl in He. case_decide as Hn; [done|]. apply Hn.
    apply list_elem_of_filter. split; [unfold itemExpired; rewrite He; by apply Z.leb_le; destruct Hex|].
    rewrite take_ge.
    + rewrite (Hord i). apply list_elem_of_fmap. exists (k, e). split; [done|]. by apply elem_of_map_to_list.
    + rewrite (Hord i), length_fmap, length_map_to_list. unfold shard_size in Hsz. lia.
Qed.

(** Entries behind the first batch of the list are not looked at. *)
Lemma cleanupLRU_tail o now sh lv l1 l2 :
  shard_inv true sh → order sh = l1 ++ l2 → (Options.cleanupBatchSize <= length l1)%nat →
  ∃ l1', order (cleanupLRU o now (sh, lv)).1 = l1' ++ l2.
Proof.
  intros Hinv Ho Hlen. destruct (cleanupDue o now (lastCleanup sh)) eqn:Hd.
  - rewrite cleanupLRU_order by done. rewrite Ho, filter_app. eexists. f_equal. apply filter_all.
    intros i q Hq%list_elem_of_lookup_2 (p & Hpq & [_ Hp]%list_elem_of_filter)%list_elem_of_fmap.
    rewrite take_app_le in Hp by done.
    assert (p ∈ l1) as Hp1 by (eapply elem_of_sublist; [exact Hp|apply sublist_take]).
    destruct Hinv as [_ [_ Hid _ _]]. rewrite Ho, fmap_app in Hid. apply NoDup_app in Hid as (_ & Hdis & _).
    apply (Hdis p.1); [by apply list_elem_of_fmap_2|]. rewrite <- Hpq. by apply list_elem_of_fmap_2.
  - unfold cleanupLRU. rewrite Hd. simpl. rewrite Ho. by eexists.
Qed.

End Cleanup.

(** ** Properties *)

(** A store with one slot per shard policy, for the concrete runs below. *)
Definition exampleOptions (policy maxKeys : Z) : Options.options :=
  Options.WithEvictionPolicy policy (Options.WithMaxKeys maxKeys Options.defaultOptions).

Definition exampleOrder {T} : range_order T := fun _ m => (map_to_list m).*1.

(** C4: refinement.  Every store that a limiter can reach answers [withState]:
    the loop that reserves a slot always ends, the representation invariant
    holds afterwards, and the effect on the abstract map is one of the
    specification's: the decision on the present state; or, for a new key, on
    a fresh state after dropping only expired keys and, in LRU mode, at most
    one more; or a refusal that leaves a full rejecting store without
    creating the key. *)
Theorem store_refinement {T} (create : Time → T) t s ord key now fn :
  reach create t s → t <= now →
  ∃ r s' victim, withState ord create s key now fn = Some (r, s') ∧
    reach create now s' ∧ store_inv 0 s' ∧ opts s' = opts s ∧
    evicts s' = evicts s + victim_count victim ∧
    withState_spec (opts s) create now key fn (abs s) r victim (abs s').
Proof.
  intros Hr Ht. destruct (reach_inv _ _ _ Hr) as [Hinv _].
  destruct (withState_refines ord create s key now fn Hinv) as (r & s' & victim & Hw & Hrest).
  exists r, s', victim. split; [done|]. split; [by eapply reach_call|done].
Qed.

Lemma store_refinement_witness :
  let s := newShardedStore (exampleOptions Options.EvictLRU 1) in
  ∃ r s' victim, withState exampleOrder (fun t => t) s "a"%string 5
      (fun v now => (now, (mkResult true v 0, None))) = Some (r, s') ∧
    reach (fun t => t) 5 s' ∧ store_inv 0 s' ∧ opts s' = opts s ∧
    evicts s' = evicts s + victim_count victim ∧
    withState_spec (opts s) (fun t => t) 5 "a"%string
      (fun v now => (now, (mkResult true v 0, None))) (abs s) r victim (abs s').
Proof.
  apply (store_refinement (fun t => t) 0).
  - apply reach_new, Options.validate_ok. reflexivity.
  - lia.
Defined.

(** Exact counting.  In every reachable store the counter [live], which
    [len] reports, is the number of stored keys, and it never exceeds a
    positive [maxKeys]. *)
Theorem store_live_exact {T} (create : Time → T) t s :
  reach create t s →
  len s = Z.of_nat (size (abs s)) ∧ (0 < Options.maxKeys (opts s) → len s <= Options.maxKeys (opts s)).
Proof.
  intros Hr. destruct (reach_inv _ _ _ Hr) as [Hinv _]. unfold len. split.
  - rewrite (live_eq 0 s Hinv). lia.
  - apply (inv_max 0 s Hinv).
Qed.

Lemma store_live_exact_witness :
  let s := newShardedStore (T := Time) (exampleOptions Options.EvictLRU 1) in
  len s = Z.of_nat (size (abs s)) ∧ (0 < Options.maxKeys (opts s) → len s <= Options.maxKeys (opts s)).
Proof.
  apply (store_live_exact (fun t => t) 0). apply reach_new, Options.validate_ok. reflexivity.
Defined.

(** C19: eviction is least recently used within a shard.  In every reachable
    store, [evictFrom] removes from the abstract map exactly the key of its
    shard whose last use is the oldest. *)
Theorem store_evicts_least_recent {T} (create : Time → T) t s i s' :
  reach create t s → isLRU s = true → (i < length (shards s))%nat → evictFrom s i = (true, s') →
  ∃ k v last, abs s !! k = Some (v, last) ∧ shardFor s k = i ∧ abs s' = delete k (abs s) ∧
    evicts s' = evicts s + 1 ∧
    ∀ k' v' last', abs s !! k' = Some (v', last') → shardFor s k' = i → last <= last'.
Proof.
  intros Hr El Hi Hev. destruct (reach_inv _ _ _ Hr) as [Hinv Hrec].
  destruct (last (order (shardAt s i))) as [p|] eqn:E; [|unfold evictFrom in Hev; by rewrite E in Hev].
  destruct (evictFrom_true 0 s i p Hinv El Hi E) as (s1 & Hev1 & _ & _ & _ & He & _ & Ha & Hf & Hs).
  assert (s1 = s') as -> by congruence.
  exists (lruKey p.2), (lruValue p.2), (lruLastSeen p.2). split_and!; try done.
  intros k' v' last' Hk' Hf'. rewrite (abs_lookup 0 s Hinv), Hf' in Hk'.
  pose proof (shardAt_inv 0 s Hinv i Hi) as Hsh. rewrite El in Hsh.
  rewrite shard_map_lru in Hk' by done. destruct Hsh as [_ [Hks _ _ _]].
  apply order_map_lookup_Some in Hk' as (q & Hq & _ & [= -> ->]); [|done].
  by eapply recent_last.
Qed.

(** Two keys in the only shard, then the older one is evicted. *)
Definition exampleTwo : shardedStore Time :=
  let o := Options.WithShardCount 1 (exampleOptions Options.EvictLRU 0) in
  let step s k now :=
    match withState exampleOrder (fun t => t) s k now (fun v _ => (v, (zeroResult, None))) with
    | Some (_, s') => s'
    | None => s
    end in
  step (step (newShardedStore o) "a"%string 1) "b"%string 2.

Lemma store_evicts_least_recent_witness :
  ∃ k v last, abs exampleTwo !! k = Some (v, last) ∧ shardFor exampleTwo k = 0%nat ∧
    abs (evictFrom exampleTwo 0).2 = delete k (abs exampleTwo) ∧
    evicts (evictFrom exampleTwo 0).2 = evicts exampleTwo + 1 ∧
    ∀ k' v' last', abs exampleTwo !! k' = Some (v', last') → shardFor exampleTwo k' = 0%nat → last <= last'.
Proof.
  apply (store_evicts_least_recent (fun t => t) 2 exampleTwo 0 (evictFrom exampleTwo 0).2).
  - unfold exampleTwo.
    eapply (reach_call _ 1 _ exampleOrder "b"%string 2 (fun v _ => (v, (zeroResult, None))));
      [eapply (reach_call _ 0 _ exampleOrder "a"%string 1 (fun v _ => (v, (zeroResult, None))))| |].
    + apply (reach_new _ (Options.WithShardCount 1 (exampleOptions Options.EvictLRU 0))).
      apply Options.validate_ok. reflexivity.
    + lia.
    + vm_compute. reflexivity.
    + lia.
    + vm_compute. reflexivity.
  - reflexivity.
  - vm_compute. lia.
  - vm_compute. reflexivity.
Defined.

(** In LRU mode no call is ever refused for lack of room, and in rejecting mode no
    key is ever evicted: a refusal means that [maxKeys] keys are stored. *)
Theorem store_policies {T} (create : Time → T) t s ord key now fn r s' :
  reach create t s → t <= now → (∀ v u, (fn v u).2.2 = None) →
  withState ord create s key now fn = Some (r, s') →
  (isLRU s = true → r.2 = None) ∧
  (isLRU s = false → evicts s' = evicts s) ∧
  (r.2 ≠ None → isLRU s = false ∧ abs s' !! key = None ∧
     Z.of_nat (size (abs s')) = Options.maxKeys (opts s)).
Proof.
  intros Hr Ht Hfn Hw. destruct (reach_inv _ _ _ Hr) as [Hinv _].
  destruct (withState_refines ord create s key now fn Hinv)
    as (r0 & s0 & victim & Hw0 & _ & _ & He & Hspec).
  assert (r0 = r ∧ s0 = s') as [-> ->] by (split; congruence).
  assert (isLRU s = true ↔ Options.eviction (opts s) = Options.EvictLRU) as Hl
    by (unfold isLRU; apply Z.eqb_eq).
  destruct Hspec as [v u m0 v' r Hk Hd Hf|victim m0 v' r Hk Hd Hv Hsz Hf|m0 Hk Hrej Hm Hd Hsz];
    rewrite ?He.
  - pose proof (Hfn v now) as Hn. rewrite Hf in Hn. simpl in *. split_and!; [done|lia|done].
  - pose proof (Hfn (create now) now) as Hn. rewrite Hf in Hn. simpl in *. split_and!; [done| |done].
    intros Hnl. destruct Hv as [->|[Hv _]]; [simpl; lia|]. apply Hl in Hv. congruence.
  - assert (isLRU s = false) as Hnl.
    { apply not_true_iff_false. rewrite Hl, Hrej. done. }
    split_and!; [congruence|simpl; lia|]. intros _. split_and!; [done| |done]. by eapply drops_none.
Qed.

Lemma store_policies_witness :
  let s := newShardedStore (T := Time) (exampleOptions Options.EvictLRU 1) in
  isLRU s = true ∧ (mkResult true 5 0, @None error).2 = None.
Proof.
  set (s := newShardedStore (T := Time) (exampleOptions Options.EvictLRU 1)). split; [reflexivity|].
  refine (proj1 (store_policies (fun t => t) 0 s exampleOrder "a"%string 5
    (fun v now => (now, (mkResult true v 0, None))) (mkResult true 5 0, None)
    (match withState exampleOrder (fun t => t) s "a"%string 5
             (fun v now => (now, (mkResult true v 0, None))) with
     | Some (_, s') => s' | None => s end) _ _ _ _) _).
  - apply reach_new, Options.validate_ok. reflexivity.
  - lia.
  - reflexivity.
  - vm_compute. reflexivity.
  - reflexivity.
Defined.

(** Placement.  In every reachable store a key lives in the shard that its FNV-1a
    hash selects, whose index is in range; masking with [len - 1] is the
    remainder because the number of shards is a power of two. *)
Theorem store_placement {T} (create : Time → T) t s key i :
  reach create t s →
  (shardFor s key < length (shards s))%nat ∧
  Z.of_nat (shardFor s key) = Hash.fnv1a64 key mod Z.of_nat (length (shards s)) ∧
  (is_Some (shard_map (shardAt s i) !! key) → (i < length (shards s))%nat → i = shardFor s key).
Proof.
  intros Hr. destruct (reach_inv _ _ _ Hr) as [Hinv _]. split_and!.
  - by eapply shardFor_lt.
  - unfold shardFor. destruct Hinv as [[_ _ _ _ _ (p & Hp & Hs)] Hl _ _ _ _ _].
    rewrite Hl, Hs. apply Hash.shardIndex_mod; lia.
  - intros Hk Hi. symmetry. eapply inv_placed; [done|by apply shardAt_lookup|done].
Qed.

Lemma store_placement_witness :
  let s := newShardedStore (T := Time) (exampleOptions Options.EvictLRU 1) in
  (shardFor s "a"%string < length (shards s))%nat ∧
  Z.of_nat (shardFor s "a"%string) = Hash.fnv1a64 "a"%string mod Z.of_nat (length (shards s)) ∧
  (is_Some (shard_map (shardAt s 3) !! "a"%string) → (3 < length (shards s))%nat → 3%nat = shardFor s "a"%string).
Proof.
  apply (store_placement (fun t => t) 0). apply reach_new, Options.validate_ok. reflexivity.
Defined.

(** Cleanup is complete up to its batch.  When a shard's pass is due and the shard
    holds at most [cleanupBatchSize] (100) keys, the pass leaves no expired key
    in it, whatever the visiting order of its map. *)
Theorem store_cleanup_complete {T} (create : Time → T) t s ord i now k v :
  reach create t s → range_order_ok ord → (i < length (shards s))%nat →
  cleanupDue (opts s) now (lastCleanup (shardAt s i)) = true →
  (shard_size (shardAt s i) <= Options.cleanupBatchSize)%nat →
  shard_map (shardAt (cleanup ord s i now) i) !! k = Some v → ¬ expired (opts s) now v.
Proof. intros Hr. destruct (reach_inv _ _ _ Hr) as [Hinv _]. intros Hord. by apply cleanup_shard_complete. Qed.

Lemma store_cleanup_complete_witness :
  let o := Options.WithShardCount 1 (Options.WithKeyTTL 10 (Options.WithCleanupInterval 5 Options.defaultOptions)) in
  let s := match withState exampleOrder (fun t => t) (newShardedStore o) "a"%string 10
                   (fun v _ => (v, (zeroResult, None))) with
           | Some (_, s) => s | None => newShardedStore o end in
  shard_map (shardAt (cleanup exampleOrder s 0 15) 0) !! "a"%string = Some (10, 10) ∧ ¬ expired o 15 (10, 10).
Proof.
  intros o s. split; [vm_compute; reflexivity|].
  apply (store_cleanup_complete (fun t => t) 10 s exampleOrder 0 15 "a"%string (10, 10)).
  - eapply (reach_call _ 0 (newShardedStore o) exampleOrder "a"%string 10 (fun v _ => (v, (zeroResult, None)))).
    + apply reach_new, Options.validate_ok. reflexivity.
    + lia.
    + vm_compute. reflexivity.
  - intros i m. reflexivity.
  - vm_compute. lia.
  - vm_compute. reflexivity.
  - vm_compute. lia.
  - vm_compute. reflexivity.
Defined.

(** C31: cleanup of an LRU shard starts at the newest entry.  Whatever has
    expired, a pass keeps every entry behind the first 100 of the list: with
    100 keys in use in a shard, idle keys behind them are never cleaned up. *)
Theorem store_cleanup_skips_tail {T} (create : Time → T) t s i now lv l1 l2 :
  reach create t s → isLRU s = true → (i < length (shards s))%nat →
  order (shardAt s i) = l1 ++ l2 → (Options.cleanupBatchSize <= length l1)%nat →
  ∃ l1', order (cleanupLRU (opts s) now (shardAt s i, lv)).1 = l1' ++ l2.
Proof.
  intros Hr El Hi Ho Hl. destruct (reach_inv _ _ _ Hr) as [Hinv _].
  pose proof (shardAt_inv 0 s Hinv i Hi) as Hsh. rewrite El in Hsh. by eapply cleanupLRU_tail.
Qed.

(** One idle key at instant 1, then a hundred keys at instant 8, in one shard
    with a TTL of 10: the calls and that they reach the store. *)
Definition useKeys (s : shardedStore Time) (uses : list (string * Time)) : shardedStore Time :=
  foldl (fun s '(k, now) =>
    match withState exampleOrder (fun t => t) s k now (fun v _ => (v, (zeroResult, None))) with
    | Some (_, s') => s'
    | None => s
    end) s uses.

Lemma useKeys_reach uses t s :
  reach (fun t => t) t s → nondecreasing t uses.*2 → reach (fun t => t) (final t uses.*2) (useKeys s uses).
Proof.
  revert t s. induction uses as [|[k now] uses IH]; intros t s Hr Hn; [done|].
  destruct Hn as [Ht Hn]. rewrite fmap_cons, final_cons. apply IH; [|done]. cbn [snd].
  destruct (reach_inv _ _ _ Hr) as [Hinv _].
  destruct (withState_refines exampleOrder (fun t => t) s k now (fun v _ => (v, (zeroResult, None))) Hinv)
    as (r & s' & _ & Hw & _). rewrite Hw. by eapply reach_call.
Qed.

Definition exampleUses : list (string * Time) :=
  ("idle"%string, 1) :: map (fun n => (String (Ascii.ascii_of_nat n) EmptyString, 8)) (seq 0 100).

Definition exampleMany : shardedStore Time :=
  let o := Options.WithShardCount 1 (Options.WithKeyTTL 10
    (Options.WithCleanupInterval 5 (exampleOptions Options.EvictLRU 0))) in
  useKeys (newShardedStore o) exampleUses.

Lemma store_cleanup_skips_tail_witness :
  isExpired (opts exampleMany) 13 1 = true ∧
  (fun p => lruKey p.2) <$> drop 100 (order (shardAt exampleMany 0)) = ["idle"%string] ∧
  ∃ l1', order (cleanupLRU (opts exampleMany) 13 (shardAt exampleMany 0, 101)).1
         = l1' ++ drop 100 (order (shardAt exampleMany 0)).
Proof.
  split; [vm_compute; reflexivity|]. split; [vm_compute; reflexivity|].
  apply (store_cleanup_skips_tail (fun t => t) 8 exampleMany 0 13 101 (take 100 (order (shardAt exampleMany 0)))).
  - assert (8 = final 0 exampleUses.*2) as -> by (vm_compute; reflexivity). apply useKeys_reach.
    + apply reach_new, Options.validate_ok. reflexivity.
    + vm_compute. repeat split; discriminate.
  - reflexivity.
  - vm_compute. lia.
  - symmetry. apply take_drop.
  - vm_compute. lia.
Defined.

End StoreProps.
