(* ===== verification/MemoryLimiter.v ===== *)
(** * MemoryLimiter: what the three in-memory limiters share

    [TokenBucket.Allow], [LeakyBucket.Allow] and [SlidingWindow.Allow] are the
    same code around different decisions: validate the key, read the clock,
    run the decision on the key's state inside the store, then report to the
    metric sink.  [allow] is that code, over any store that implements the
    [StateStore] interface; the limiters instantiate it. *)

From Stdlib Require Import ZArith Lia Bool.
From stdpp Require Import base gmap strings list.
From S2P Require Import Prelude Core GoTime GoString Options ShardedStore StoreFacts StoreSpec StateStore.

#[local] Open Scope Z_scope.

Module MemoryLimiter.

(** The options, the store, and the calls the registered sink has received. *)
Record limiter (S : Type) := mkLimiter {
  lim_opts : Options.options;
  lim_store : S;
  lim_trace : list MetricEvent
}.
Arguments mkLimiter {S} _ _ _.
Arguments lim_opts {S} _.
Arguments lim_store {S} _.
Arguments lim_trace {S} _.

Section Allow.
Context {E T S : Type} {create : Time → T} {store : StateStore E T S create}.
Context (decide : T → Time → T * (Result * option error)).

(** The event that reports the outcome of [withState]. *)
Definition outcomeEvent (r : Result * option error) : MetricEvent :=
  match r.2 with
  | Some err => OnError TierSingle err
  | None => if Allowed r.1 then OnAllowed TierSingle r.1 else OnRejected TierSingle r.1
  end.

(** The block [if opts.sink != nil] at the end of [Allow]. *)
Definition report (o : Options.options) (r : Result * option error) (s : S) (tr : list MetricEvent)
    : limiter S :=
  match Options.sink o with
  | None => mkLimiter o s tr
  | Some _ =>
      let n := store_len s in
      let '(k, s') := drainEvictions s in
      mkLimiter o s'
        (tr ++ outcomeEvent r :: SetKeys TierSingle n :: replicate (Z.to_nat k) (OnEvict TierSingle))
  end.

(** [env] is the reading of the clock and what the store reads. *)
Definition allow (env : Time * E) (l : limiter S) (key : string)
    : option ((Result * option error) * limiter S) :=
  match KeyValidation.validateKey key with
  | Some err =>
      let tr := match Options.sink (lim_opts l) with
                | Some _ => lim_trace l ++ [OnError TierSingle err]
                | None => lim_trace l
                end in
      Some ((zeroResult, Some err), mkLimiter (lim_opts l) (lim_store l) tr)
  | None =>
      let now := env.1 in
      match withState env.2 (lim_store l) key now decide with
      | None => None
      | Some (r, s') => Some (r, report (lim_opts l) r s' (lim_trace l))
      end
  end.

(** Requests one after another. *)
Fixpoint serve (l : limiter S) (reqs : list ((Time * E) * string))
    : option (list (Result * option error) * limiter S) :=
  match reqs with
  | [] => Some ([], l)
  | (env, key) :: rest =>
      match allow env l key with
      | None => None
      | Some (r, l') =>
          match serve l' rest with
          | None => None
          | Some (rs, l'') => Some (r :: rs, l'')
          end
      end
  end.

(** The decisions for one key, without a store. *)
Fixpoint replay (v : T) (nows : list Time) : T * list Result :=
  match nows with
  | [] => (v, [])
  | now :: rest =>
      let '(v', (r, _)) := decide v now in
      let '(v'', rs) := replay v' rest in (v'', r :: rs)
  end.

(** What a key receives that is in state [ov], or not stored. *)
Definition alone (ov : option T) (nows : list Time) : list Result :=
  match nows with
  | [] => []
  | now :: _ => (replay (default (create now) ov) nows).2
  end.
End Allow.

(** The requests for [key] that were decided (not refused with an error), with
    their instants and results. *)
Fixpoint servedFor {E} (key : string) (reqs : list ((Time * E) * string))
    (rs : list (Result * option error)) : list (Time * Result) :=
  match reqs, rs with
  | ((now, _), k) :: reqs, (r, err) :: rs =>
      if bool_decide (k = key ∧ err = None) then (now, r) :: servedFor key reqs rs
      else servedFor key reqs rs
  | _, _ => []
  end.

(** Every request that was decided is among those of its key. *)
Lemma servedFor_elem {E} (reqs : list ((Time * E) * string)) rs :
  length rs = length reqs →
  Forall2 (fun req r => r.2 = None → (req.1.1, r.1) ∈ servedFor req.2 reqs rs) reqs rs.
Proof.
  revert rs. induction reqs as [|[[now e] k] reqs IH]; intros [|[r err] rs] Hlen; try done. injection Hlen as Hlen.
  cbn [servedFor]. constructor.
  - cbn [fst snd]. intros ->. rewrite bool_decide_true by done. by left.
  - eapply Forall2_impl; [by apply IH|]. intros req r' Hin Hn. specialize (Hin Hn). case_bool_decide; [by right|done].
Qed.

(** ** Facts *)

Section Facts.
Context {E T S : Type} {create : Time → T} {store : StateStore E T S create}.
Context {o : Options.options} {laws : StateStoreLaws store o}.
Context (decide : T → Time → T * (Result * option error)).

Definition limiter_ok (l : limiter S) : Prop := lim_opts l = o ∧ store_ok (lim_store l).

(** [report] does not touch the contents, empties the eviction count when a
    sink is registered, and appends the events of the call. *)
Lemma report_spec r s tr :
  store_ok s →
  let l := report o r s tr in
  limiter_ok l ∧ contents (lim_store l) = contents s ∧
  match Options.sink o with
  | None => lim_trace l = tr ∧ pending (lim_store l) = pending s
  | Some _ =>
      pending (lim_store l) = 0 ∧
      lim_trace l = tr ++ outcomeEvent r :: SetKeys TierSingle (Z.of_nat (size (contents s))) ::
        replicate (Z.to_nat (pending s)) (OnEvict TierSingle)
  end.
Proof.
  intros Hs. unfold report. destruct (Options.sink o) eqn:Es; [|by split_and!].
  destruct (law_drain s Hs) as (s' & -> & Hs' & Hc & Hp). simpl.
  split_and!; [done|done|done|]. by rewrite (law_len s Hs).
Qed.

(** One call, on every branch. *)
Lemma allow_spec env l key :
  limiter_ok l →
  ∃ r l', allow decide env l key = Some (r, l') ∧ limiter_ok l' ∧
    match KeyValidation.validateKey key with
    | Some err => r = (zeroResult, Some err) ∧ lim_store l' = lim_store l
    | None => ∃ victim, StoreSpec.withState_spec o create env.1 key decide
                (contents (lim_store l)) r victim (contents (lim_store l'))
    end.
Proof.
  intros [Ho Hs]. unfold allow. rewrite Ho.
  destruct (KeyValidation.validateKey key) as [err|].
  { do 2 eexists. split_and!; done. }
  destruct (law_withState env.2 (lim_store l) key env.1 decide Hs) as (r & s' & victim & -> & Hs' & _ & Hspec).
  destruct (report_spec r s' (lim_trace l) Hs') as (Hok & Hc & _).
  do 2 eexists. split_and!; [done|done|]. exists victim. by rewrite Hc.
Qed.

(** *** The keys in memory

    Only keys that were asked for are stored, whatever expires or is evicted. *)

Lemma spec_keys now key m r victim m' :
  StoreSpec.withState_spec o create now key decide m r victim m' → dom m' ⊆ dom m ∪ {[key]}.
Proof.
  intros [v u m0 v' r' _ [Hsub _] _|v0 m0 v' r' _ [Hsub _] _ _ _|m0 _ _ _ [Hsub _] _];
    apply subseteq_dom in Hsub; rewrite ?dom_insert_L; set_solver.
Qed.

Lemma serve_keys l reqs :
  limiter_ok l →
  ∃ rs l', serve decide l reqs = Some (rs, l') ∧ limiter_ok l' ∧
    dom (contents (lim_store l')) ⊆ dom (contents (lim_store l)) ∪ list_to_set reqs.*2.
Proof.
  revert l. induction reqs as [|[env key] reqs IH]; intros l Hl.
  { exists [], l. split_and!; [done|done|set_solver]. }
  destruct (allow_spec env l key Hl) as (r & l1 & Ha & Hl1 & Hspec).
  destruct (IH l1 Hl1) as (rs & l2 & Hs & Hl2 & Hdom).
  exists (r :: rs), l2. cbn [serve]. rewrite Ha, Hs. split_and!; [done|done|]. rewrite fmap_cons.
  assert (dom (contents (lim_store l1)) ⊆ dom (contents (lim_store l)) ∪ {[key]}) as H1.
  { destruct (KeyValidation.validateKey key) as [e|].
    - destruct Hspec as [_ ->]. set_solver.
    - destruct Hspec as [victim Hspec]. exact (spec_keys _ _ _ _ _ _ Hspec). }
  set_solver.
Qed.

(** *** Invariants of the per-key state

    [P v t]: what a state satisfies that was last used no later than [t].
    It holds of new states, survives a decision, and then every call obeys
    the contract of the package, whatever expires or is evicted. *)

(** What a caller may see: a valid key gets a well-formed result, or
    [ErrMaxKeysExceeded] from a rejecting store; a blank key gets
    [ErrInvalidKey]; with an error the result is the zero value. *)
Definition call_ok (key : string) (r : Result * option error) : Prop :=
  match r.2 with
  | None => ¬ GoString.Blank key ∧ result_ok r.1
  | Some e =>
      r.1 = zeroResult ∧
      (e = KeyValidation.ErrInvalidKey ∧ GoString.Blank key ∨
       e = Options.ErrMaxKeysExceeded ∧ ¬ GoString.Blank key ∧
         Options.eviction o = Options.EvictReject ∧ 0 < Options.maxKeys o)
  end.

Section Invariant.
Context (P : T → Time → Prop).
Hypothesis P_create : ∀ now, P (create now) now.
Hypothesis P_later : ∀ v t t', P v t → t <= t' → P v t'.
Hypothesis P_decide : ∀ v t now, P v t → t <= now →
  ∃ v' r, decide v now = (v', (r, None)) ∧ P v' now ∧ result_ok r.

Definition states_ok (m : gmap string (T * Time)) (t : Time) : Prop :=
  map_Forall (fun _ v => P v.1 t) m.

Lemma drops_states Q m m0 t now :
  StoreSpec.drops Q m m0 → states_ok m t → t <= now → states_ok m0 now.
Proof.
  intros [Hsub _] Hm Ht k v Hk. eapply P_later; [|exact Ht]. apply (Hm k).
  by eapply lookup_weaken.
Qed.

Lemma spec_states now key m r victim m' t :
  StoreSpec.withState_spec o create now key decide m r victim m' →
  KeyValidation.validateKey key = None → states_ok m t → t <= now →
  states_ok m' now ∧ call_ok key r.
Proof.
  intros Hspec Hkey%KeyValidation.validateKey_None Hm Ht. unfold call_ok.
  destruct Hspec as [v u m0 v' r Hk Hd Hf|victim m0 v' r Hk Hd Hv Hsz Hf|m0 Hk He Hx Hd Hsz].
  - destruct (P_decide v t now (Hm _ _ Hk) Ht) as (v1 & r1 & Hf1 & HP & Hr).
    rewrite Hf1 in Hf. injection Hf as <- <-.
    split; [|by split]. apply map_Forall_insert_2; [done|]. by eapply drops_states.
  - destruct (P_decide (create now) now now (P_create now)) as (v1 & r1 & Hf1 & HP & Hr); [lia|].
    rewrite Hf1 in Hf. injection Hf as <- <-. split; [|by split]. apply map_Forall_insert_2; [done|]. by eapply drops_states.
  - split; [by eapply drops_states|]. simpl. split; [done|]. by right.
Qed.

Lemma allow_invariant env l key t :
  limiter_ok l → states_ok (contents (lim_store l)) t → t <= env.1 →
  ∃ r l', allow decide env l key = Some (r, l') ∧ limiter_ok l' ∧
    states_ok (contents (lim_store l')) env.1 ∧ call_ok key r.
Proof.
  intros Hl Hm Ht. destruct (allow_spec env l key Hl) as (r & l' & Ha & Hl' & Hspec).
  exists r, l'. split_and!; [done|done|..];
    destruct (KeyValidation.validateKey key) as [e|] eqn:Ek.
  - destruct Hspec as [_ ->]. by eapply drops_states; [apply (StoreSpec.drops_refl (fun _ _ => True))|..].
  - destruct Hspec as [victim Hspec]. by eapply spec_states.
  - apply KeyValidation.validateKey_Some in Ek as [-> Hb]. destruct Hspec as [-> _]. split; [done|]. by left.
  - destruct Hspec as [victim Hspec]. by eapply spec_states.
Qed.

Lemma serve_invariant l reqs t :
  limiter_ok l → states_ok (contents (lim_store l)) t → nondecreasing t reqs.*1.*1 →
  ∃ rs l', serve decide l reqs = Some (rs, l') ∧ limiter_ok l' ∧
    states_ok (contents (lim_store l')) (final t reqs.*1.*1) ∧
    Forall2 (fun req r => call_ok req.2 r) reqs rs.
Proof.
  revert l t. induction reqs as [|[env key] reqs IH]; intros l t Hl Hm Hn.
  { exists [], l. split_and!; [done|done|done|constructor]. }
  destruct Hn as [Ht Hn]. destruct (allow_invariant env l key t Hl Hm Ht) as (r & l1 & Ha & Hl1 & Hm1 & Hc).
  destruct (IH l1 env.1 Hl1 Hm1 Hn) as (rs & l2 & Hs & Hl2 & Hm2 & Hrs).
  exists (r :: rs), l2. cbn [serve]. rewrite Ha, Hs. rewrite !fmap_cons, final_cons.
  split_and!; [done|done|done|by constructor].
Qed.
End Invariant.

(** *** Isolation of keys

    When no key expires and none is evicted, each key is decided as if it
    were the only one. *)
Hypothesis Hkeep : Options.keyTTL o <= 0 ∧ (Options.maxKeys o <= 0 ∨ Options.eviction o = Options.EvictReject).
Hypothesis Htotal : ∀ v now, (decide v now).2.2 = None.

Lemma keep_drops now victim (m m0 : gmap string (T * Time)) :
  StoreSpec.victim_ok o victim → StoreSpec.drops (StoreSpec.gone o now victim) m m0 → m0 = m.
Proof.
  intros Hv [Hsub HQ]. destruct Hkeep as [Httl Hev]. apply map_eq. intros k.
  destruct (m !! k) as [v|] eqn:Em.
  - destruct (m0 !! k) as [w|] eqn:E0; [eapply lookup_weaken in E0; [|exact Hsub]; congruence|].
    exfalso. destruct (HQ k v Em E0) as [[? ?]| ->]; [lia|].
    unfold StoreSpec.victim_ok, Options.EvictReject, Options.EvictLRU in *.
    destruct Hv as [?|[? ?]]; [done|lia].
  - by eapply lookup_weaken_None.
Qed.

(** Under the assumptions a call touches its own key only. *)
Lemma keep_step now key m r victim m' :
  StoreSpec.withState_spec o create now key decide m r victim m' →
  match r with
  | (res, Some _) => m' = m
  | (res, None) =>
      ∃ v', decide (default (create now) (fst <$> m !! key)) now = (v', (res, None)) ∧
        m' = <[key := (v', now)]> m
  end.
Proof.
  intros [v t m0 v' [res err] Hk Hd Hf|v0 m0 v' [res err] Hk Hd Hv Hsz Hf|m0 Hk He Hm Hd Hsz].
  - apply keep_drops in Hd as ->; [|by left]. pose proof (Htotal v now) as Ht. rewrite Hf in Ht.
    simpl in Ht. subst err. exists v'. by rewrite Hk.
  - apply keep_drops in Hd as ->; [|done]. pose proof (Htotal (create now) now) as Ht. rewrite Hf in Ht.
    simpl in Ht. subst err. exists v'. by rewrite Hk.
  - by apply keep_drops in Hd as ->; [|left].
Qed.

Lemma replay_cons v now nows :
  (replay decide v (now :: nows)).2 =
  (decide v now).2.1 :: (replay decide (decide v now).1 nows).2.
Proof.
  cbn [replay]. destruct (decide v now) as [v' [r err]]. simpl. by destruct (replay decide v' nows).
Qed.

Lemma alone_cons ov now nows :
  alone decide (create := create) ov (now :: nows) =
  (decide (default (create now) ov) now).2.1 ::
    alone decide (create := create) (Some (decide (default (create now) ov) now).1) nows.
Proof. unfold alone at 1. rewrite replay_cons. by destruct nows. Qed.

Lemma serve_isolated l reqs key :
  limiter_ok l →
  ∃ rs l', serve decide l reqs = Some (rs, l') ∧ limiter_ok l' ∧ length rs = length reqs ∧
    let served := servedFor key reqs rs in
    served.*2 = alone decide (create := create) (fst <$> contents (lim_store l) !! key) served.*1.
Proof.
  revert l. induction reqs as [|[[now env] k] reqs IH]; intros l Hl.
  { exists [], l. split_and!; done. }
  destruct (allow_spec (now, env) l k Hl) as (r & l1 & Ha & Hl1 & Hspec).
  destruct (IH l1 Hl1) as (rs & l2 & Hs & Hl2 & Hlen & Hrest).
  exists (r :: rs), l2. cbn [serve]. rewrite Ha, Hs. split_and!; [done|done|simpl; by rewrite Hlen|].
  destruct r as [res err]. cbn [servedFor].
  assert (match err with
          | Some _ => contents (lim_store l1) = contents (lim_store l)
          | None => ∃ v', decide (default (create now) (fst <$> contents (lim_store l) !! k)) now
                      = (v', (res, None)) ∧
              contents (lim_store l1) = <[k := (v', now)]> (contents (lim_store l))
          end) as Hstep.
  { destruct (KeyValidation.validateKey k) as [e|].
    - destruct Hspec as [Hr Hst]. injection Hr as -> ->. by rewrite Hst.
    - destruct Hspec as (victim & Hspec). exact (keep_step _ _ _ _ _ _ Hspec). }
  destruct err as [e|].
  - rewrite bool_decide_false by naive_solver. by rewrite <- Hstep.
  - destruct Hstep as (v' & Hd & Hc). rewrite Hc in Hrest. case_bool_decide as Hk.
    + destruct Hk as [-> _]. cbn [fmap list_fmap fst snd]. rewrite alone_cons, Hd. cbn [fst snd].
      f_equal. rewrite lookup_insert_eq in Hrest. exact Hrest.
    + rewrite lookup_insert_ne in Hrest by naive_solver. exact Hrest.
Qed.

(** Without a bound on the keys only blank keys are refused. *)
Lemma serve_errors l reqs rs l' :
  Options.maxKeys o <= 0 → limiter_ok l → serve decide l reqs = Some (rs, l') →
  Forall2 (fun req r => match r.2 with None => ¬ GoString.Blank req.2 | Some _ => GoString.Blank req.2 end) reqs rs.
Proof.
  intros Hmax. revert l rs. induction reqs as [|[env key] reqs IH]; intros l rs Hl; cbn [serve].
  { intros [= <- _]. constructor. }
  destruct (allow_spec env l key Hl) as (r & l1 & -> & Hl1 & Hspec).
  destruct (serve decide l1 reqs) as [[rs1 l2]|] eqn:Es; [|done]. intros [= <- ->].
  constructor; [|exact (IH l1 rs1 Hl1 Es)]. destruct (KeyValidation.validateKey key) as [e|] eqn:Ek.
  - apply KeyValidation.validateKey_Some in Ek as [_ Hb]. by destruct Hspec as [-> _].
  - apply KeyValidation.validateKey_None in Ek. destruct Hspec as [victim Hspec]. simpl.
    destruct Hspec as [v u m0 v' r _ _ Hf|victim m0 v' r _ _ _ _ Hf|m0 _ _ Hx _ _]; [| |lia].
    + pose proof (Htotal v env.1) as Ht. rewrite Hf in Ht. simpl in Ht. by rewrite Ht.
    + pose proof (Htotal (create env.1) env.1) as Ht. rewrite Hf in Ht. simpl in Ht. by rewrite Ht.
Qed.

End Facts.

End MemoryLimiter.
