(* ===== verification/Disorder.v ===== *)
(** * Disorder: the in-memory buckets when instants arrive out of order

    [Allow] reads the clock before [withState] takes the lock of a shard, so
    the decisions of concurrent calls for one key see their instants in any
    order.  Elapsed times are then negative at times: a token bucket gives
    tokens back, and may owe some; a leaky bucket holds more water than its
    capacity.  What was accrued and what is given back cancel, so the quota
    holds all the same, over the span of the instants. *)

From Stdlib Require Import ZArith Lia Bool.
From stdpp Require Import base strings list.
From S2P Require Import Prelude Float64 FloatFacts GoTime SignedFloat Core Numeric.
From S2P Require Import TokenBucket LeakyBucket SlidingWindow MemoryLimiter.

#[local] Open Scope Z_scope.

Module Disorder.
Import SignedFloat.

(** ** The books of a bucket, whatever it is made of

    [level] is what can still be taken; [accrual] is what one nanosecond adds,
    [unit] what one request takes, and [err] what a decision may be off. *)

Section Books.
Context {T : Type} (decide : T → Time → T * (Result * option error)).
Context (level : T → Z) (last : T → Time) (valid : T → Prop).
Context (cap accrual unit err bound t0 t1 : Z).

Definition inSpan (t : Time) : Prop := t0 <= t <= t1.

Hypothesis Hcap : 0 <= cap.
Hypothesis Haccrual : 0 <= accrual.
Hypothesis Herr : 0 <= err.
Hypothesis Hstep : ∀ s now,
  valid s → inSpan (last s) → inSpan now → - bound <= level s <= cap →
  ∃ s' r, decide s now = (s', (r, None)) ∧ valid s' ∧ last s' = now ∧ result_ok r ∧ level s' <= cap ∧
    level s' + (if Allowed r then unit else 0) <= level s + (now - last s) * accrual + err ∧
    (if Allowed r then 0 else Z.min 0 (level s + (now - last s) * accrual - err)) <= level s'.

(** After [k] decisions that let [c] requests pass, the first at [first]. *)
Definition books (first : Time) (k c : Z) (s : T) : Prop :=
  valid s ∧ inSpan (last s) ∧ level s <= cap ∧
  - (t1 - last s) * accrual - k * err <= level s ∧
  c * unit + level s <= cap + (last s - first) * accrual + k * err.

Lemma books_step first k c s now :
  books first k c s → inSpan first → inSpan now → 0 <= k → (t1 - t0) * accrual + k * err <= bound →
  ∃ s' r, decide s now = (s', (r, None)) ∧ result_ok r ∧
    books first (k + 1) (c + (if Allowed r then 1 else 0)) s' ∧
    (Allowed r = true → (c + 1) * unit <= cap + (t1 - t0) * accrual + (k + 1) * err).
Proof.
  intros (Hv & Hl & Hlc & Hlow & Hb) Hf Hn Hk Hbound. unfold inSpan in *.
  assert ((t1 - last s) * accrual <= (t1 - t0) * accrual) as Hspan by nia.
  destruct (Hstep s now Hv Hl Hn ltac:(lia)) as (s' & r & Hd & Hv' & Hl' & Hr & Hc' & Hup & Hlo).
  exists s', r. split_and!; [done|done| |].
  - unfold books, inSpan. rewrite Hl'. assert (0 <= (t1 - now) * accrual) by nia.
    assert (0 <= k * err) by nia. split_and!; [done|lia|lia|done| |]; destruct (Allowed r); lia.
  - intros Ha. rewrite Ha in *. assert ((now - first) * accrual <= (t1 - t0) * accrual) by nia. lia.
Qed.

Lemma books_run first nows k c s :
  books first k c s → inSpan first → Forall inSpan nows → 0 <= k →
  (t1 - t0) * accrual + (k + Z.of_nat (length nows)) * err <= bound →
  let rs := (MemoryLimiter.replay decide s nows).2 in
  Forall result_ok rs ∧
  (c * unit <= cap + (t1 - t0) * accrual + (k + Z.of_nat (length nows)) * err →
   (c + allowed_count rs) * unit <= cap + (t1 - t0) * accrual + (k + Z.of_nat (length nows)) * err).
Proof.
  intros Hs Hf Hn. revert k c s Hs. induction Hn as [|now nows Hnow Hn IH]; intros k c s Hs Hk Hb.
  { split; [constructor|]. unfold allowed_count. simpl. lia. }
  cbn [length] in *. rewrite Nat2Z.inj_succ in *.
  destruct (books_step first k c s now Hs Hf Hnow Hk) as (s' & r & Hd & Hr & Hs' & Ha); [nia|].
  cbn [MemoryLimiter.replay]. rewrite Hd. specialize (IH (k + 1) _ s' Hs' ltac:(lia) ltac:(lia)).
  destruct (MemoryLimiter.replay decide s' nows) as [s'' rs]. cbn [snd] in *. destruct IH as [IHr IHc].
  split; [by constructor|]. rewrite allowed_count_cons. intros Hc. destruct (Allowed r).
  - specialize (Ha eq_refl). replace (k + Z.succ (Z.of_nat (length nows))) with (k + 1 + Z.of_nat (length nows)) in * by lia.
    rewrite Z.add_assoc. apply IHc. nia.
  - replace (k + Z.succ (Z.of_nat (length nows))) with (k + 1 + Z.of_nat (length nows)) in * by lia.
    rewrite Z.add_0_r in IHc. rewrite Z.add_0_l. by apply IHc.
Qed.

(** A state that starts full. *)
Lemma books_quota first s nows :
  valid s → last s = first → level s = cap → inSpan first → Forall inSpan nows →
  (t1 - t0) * accrual + Z.of_nat (length nows) * err <= bound →
  let rs := (MemoryLimiter.replay decide s nows).2 in
  Forall result_ok rs ∧
  allowed_count rs * unit <= cap + (t1 - t0) * accrual + Z.of_nat (length nows) * err.
Proof.
  intros Hv Hl Hfull Hf Hn Hb. pose proof Hf as [? ?].
  destruct (books_run first nows 0 0 s) as [Hr Hq]; [|done|done|lia|exact Hb|].
  - unfold books. rewrite Hl, Hfull. split_and!; [done|done|lia|nia|nia].
  - split; [exact Hr|]. apply Hq. nia.
Qed.
End Books.

(** ** Sizes

    A span that accrues fewer than [2^53] tokens, like a capacity below [2^53],
    keeps all numbers within the range in which errors stay small. *)

Section Span.
Context `{GoArch} (capacity rate : spec_float) (t0 t1 : Time).

(** The largest magnitude of a level, times a second. *)
Definition reachOf : Z := fval capacity * GoTime.Second + 2 * ((t1 - t0) * fval rate).

(** What one decision may be off, times [2^52] seconds. *)
Definition step_error : Z := 8 * reachOf + 6 * tiny * (2 ^ 52 * GoTime.Second).

Definition span_ok : Prop :=
  Numeric.params_ok capacity rate ∧ fval capacity < 2 ^ 53 * unit_sc ∧
  0 <= t1 - t0 <= int64_max ∧ (t1 - t0) * fval rate <= 2 ^ 53 * unit_sc * GoTime.Second.

Hypothesis Hok : span_ok.

Lemma reach_bound :
  unit_sc * GoTime.Second <= reachOf < 2 ^ 55 * unit_sc * GoTime.Second ∧
  fval capacity * GoTime.Second <= reachOf ∧ 2 * ((t1 - t0) * fval rate) <= reachOf ∧ 0 <= (t1 - t0) * fval rate.
Proof.
  destruct Hok as ((_ & Hc1 & _ & Hr) & Hc & Hd & Hdr). unfold reachOf, GoTime.Second in *.
  assert (0 <= (t1 - t0) * fval rate) by nia. lia.
Qed.

(** Errors of up to [2^40] decisions stay below the reach. *)
Lemma errors_fit n :
  0 <= n <= 2 ^ 40 → (t1 - t0) * (fval rate * 2 ^ 52) + n * step_error <= reachOf * 2 ^ 52.
Proof.
  intros Hn. destruct reach_bound as (Hu & _ & Hdr & _). pose proof GoTime.tiny_small. pose proof tiny_pos.
  destruct Hok as ((_ & Hc1 & _) & _). pose proof unit_sc_pos.
  unfold step_error, reachOf, GoTime.Second in *. set (dr := (t1 - t0) * fval rate) in *.
  replace ((t1 - t0) * (fval rate * 2 ^ 52)) with (dr * 2 ^ 52) by (unfold dr; ring).
  set (e := 8 * _ + _). assert (0 <= e) by (unfold e; lia).
  assert (n * e <= 2 ^ 40 * e) by nia. unfold e in *. clearbody dr. lia.
Qed.

(** What is accrued between two instants of the span. *)
Lemma accrual_near now u :
  t0 <= now <= t1 → t0 <= u <= t1 →
  let P := F64.mul (GoTime.Seconds (GoTime.Sub now u)) rate in
  moderate P ∧ Z.abs (fval P) * GoTime.Second <= reachOf ∧
  Z.abs (fval P * (2 ^ 52 * GoTime.Second) - (now - u) * (fval rate * 2 ^ 52))
    <= 3 * reachOf + tiny * (2 ^ 52 * GoTime.Second).
Proof.
  intros Hn Hu P. destruct reach_bound as (Hreach & _ & Hdr & _). destruct Hok as ((_ & _ & Hrf & Hr) & _ & Hd & Hb).
  pose proof GoTime.tiny_small. pose proof tiny_pos. pose proof unit_sc_pos.
  assert (Z.abs (now - u) <= t1 - t0) as Hab by lia.
  assert (Z.abs (now - u) * fval rate <= (t1 - t0) * fval rate) as Hle by nia.
  assert (GoTime.Sub now u = now - u) as Hsub by (apply GoTime.Sub_exact; unfold int64_min, int64_max in *; lia).
  unfold P. rewrite Hsub.
  destruct (product_near rate (now - u) Hrf Hr ltac:(lia)) as [Hm Hne]; [unfold GoTime.Second in *; lia|].
  split; [exact Hm|]. replace ((now - u) * (fval rate * 2 ^ 52)) with ((now - u) * fval rate * 2 ^ 52) by ring.
  assert (Z.abs ((now - u) * fval rate) = Z.abs (now - u) * fval rate) as Hda by nia.
  unfold GoTime.Second in *. rewrite <- Hda in *. set (x := (now - u) * fval rate) in *. clearbody x. lia.
Qed.

(** ** The token bucket *)

Definition tokenLevel (b : TokenBucket.bucket) : Z := fval (TokenBucket.tokens b) * (2 ^ 52 * GoTime.Second).

Lemma refill_near b now :
  fin (TokenBucket.tokens b) → t0 <= TokenBucket.lastRefilled b <= t1 → t0 <= now <= t1 →
  - (reachOf * 2 ^ 52) <= tokenLevel b <= fval capacity * (2 ^ 52 * GoTime.Second) →
  let t := TokenBucket.refill capacity rate b now in
  let exact := tokenLevel b + (now - TokenBucket.lastRefilled b) * (fval rate * 2 ^ 52) in
  fin t ∧ Z.abs (fval t) <= 2 ^ 58 * unit_sc ∧ fval t <= fval capacity ∧
  fval t * (2 ^ 52 * GoTime.Second) <= exact + step_error ∧
  Z.min (fval capacity * (2 ^ 52 * GoTime.Second)) (exact - step_error) <= fval t * (2 ^ 52 * GoTime.Second).
Proof.
  intros Hf Hl Hn Hb t exact. destruct (accrual_near now _ Hn Hl) as (HPm & HPb & HPn).
  destruct reach_bound as (Hreach & Hcr & _). pose proof Hok as ((Hcf & Hc1 & _) & Hc & _).
  pose proof GoTime.tiny_small. pose proof tiny_pos. pose proof unit_sc_pos.
  unfold t, exact, TokenBucket.refill, tokenLevel, step_error, GoTime.Second in *.
  set (P := F64.mul _ rate) in *. set (x := TokenBucket.tokens b) in *.
  assert (moderate x) as Hxm by (split; [done|lia]). destruct (add_near x P Hxm HPm) as [Han Ha].
  destruct (clamp_above _ capacity Han Hcf) as [Hcn Hcv]. set (a := F64.add x P) in *.
  set (y := if F64.gt a capacity then capacity else a) in *. cbv zeta in *.
  assert (Z.abs (fval a) <= 2 ^ 58 * unit_sc) as Hab by lia.
  split_and!; [apply moderate_num; [done|lia]|lia..].
Qed.

(** A wait computed from a debt, or from an overflow. *)
Lemma debt_delay x :
  num x → 0 <= fval x <= 2 ^ 59 * unit_sc → 0 <= Numeric.durationFromSecondsCeil (F64.div x rate).
Proof.
  intros Hn Hx. destruct (moderate_num x Hn) as [Hf _]; [lia|].
  pose proof Hok as ((_ & _ & Hrf & Hr) & _). pose proof unit_sc_pos.
  apply Numeric.duration_delay; [by apply div_num|].
  apply (div_ge _ _ (S754_zero false)); fin_side; [lia|]. cbn [fval]. nia.
Qed.

Lemma token_step b now :
  fin (TokenBucket.tokens b) → inSpan t0 t1 (TokenBucket.lastRefilled b) → inSpan t0 t1 now →
  - (reachOf * 2 ^ 52) <= tokenLevel b <= fval capacity * (2 ^ 52 * GoTime.Second) →
  let exact := tokenLevel b + (now - TokenBucket.lastRefilled b) * (fval rate * 2 ^ 52) in
  ∃ b' r, TokenBucket.refillAndDecide capacity rate b now = (b', (r, None)) ∧ fin (TokenBucket.tokens b') ∧
    TokenBucket.lastRefilled b' = now ∧ result_ok r ∧ tokenLevel b' <= fval capacity * (2 ^ 52 * GoTime.Second) ∧
    tokenLevel b' + (if Allowed r then unit_sc * (2 ^ 52 * GoTime.Second) else 0) <= exact + step_error ∧
    (if Allowed r then 0 else Z.min 0 (exact - step_error)) <= tokenLevel b'.
Proof.
  intros Hf Hl Hn Hb exact. destruct (refill_near b now Hf Hl Hn Hb) as (Htf & Htb & Htc & Hup & Hlo).
  fold exact in Hup, Hlo. destruct one_exact as [Hof Hov]. pose proof unit_sc_pos.
  destruct Hok as ((Hcf & Hc1 & _) & Hc & _). unfold TokenBucket.refillAndDecide.
  set (t := TokenBucket.refill capacity rate b now) in *. set (e := step_error) in *. clearbody e exact.
  destruct (F64.ge t (F64.of_int 1)) eqn:Eg.
  - apply le_fval in Eg; fin_side. destruct (sub_int_exact t 1) as [Hsf Hsv]; [done|lia..|].
    do 2 eexists. split; [reflexivity|]. cbn [Allowed]. unfold tokenLevel, GoTime.Second in *.
    cbn [TokenBucket.tokens TokenBucket.lastRefilled] in *. rewrite Hsv.
    split_and!; [done|done| |lia|lia|lia]. split_and!; cbn [Remaining RetryAfter Allowed]; try done.
    rewrite Numeric.remainingFloor_spec by (done || lia). lia.
  - apply le_false_fval in Eg; fin_side. do 2 eexists. split; [reflexivity|]. cbn [Allowed].
    unfold tokenLevel, GoTime.Second in *. cbn [TokenBucket.tokens TokenBucket.lastRefilled] in *.
    split_and!; [done|done| |lia|lia|lia]. split_and!; cbn [Remaining RetryAfter Allowed]; try done.
    assert (moderate t) as Htm by (split; [done|lia]). assert (moderate (F64.of_int 1)) as Hom by (split; [done|lia]).
    destruct (sub_near _ t Hom Htm) as [Hsn Hsv]. pose proof GoTime.tiny_small. pose proof tiny_pos.
    apply debt_delay; [done|]. split; [apply (sub_ge _ _ (S754_zero false)); fin_side; cbn [fval]; lia|lia].
Qed.

(** The quota of one token bucket, for instants in any order. *)
Lemma token_disorder_quota first nows :
  t0 <= first <= t1 → Forall (fun t => t0 <= t <= t1) nows → Z.of_nat (length nows) <= 2 ^ 40 →
  let rs := (MemoryLimiter.replay (TokenBucket.refillAndDecide capacity rate) (TokenBucket.newBucket capacity first) nows).2 in
  Forall result_ok rs ∧
  allowed_count rs * (unit_sc * (2 ^ 52 * GoTime.Second))
    <= fval capacity * (2 ^ 52 * GoTime.Second) + (t1 - t0) * (fval rate * 2 ^ 52) + Z.of_nat (length nows) * step_error.
Proof.
  intros Hf Hn Hlen. pose proof unit_sc_pos. destruct reach_bound as (Hreach & _). pose proof tiny_pos.
  destruct (Hok) as ((Hcf & Hc1 & _ & Hr) & _).
  eapply (books_quota (TokenBucket.refillAndDecide capacity rate) tokenLevel TokenBucket.lastRefilled
    (fun b => fin (TokenBucket.tokens b)) _ _ _ _ (reachOf * 2 ^ 52) t0 t1); try done;
    [unfold GoTime.Second; lia|lia|unfold step_error, GoTime.Second in *; lia|exact token_step|].
  apply errors_fit. lia.
Qed.

(** ** The leaky bucket *)

(** The room that is left; negative when the bucket holds too much. *)
Definition room (b : LeakyBucket.leakyState) : Z :=
  (fval capacity - fval (LeakyBucket.water b)) * (2 ^ 52 * GoTime.Second).

Definition leaky_valid (b : LeakyBucket.leakyState) : Prop :=
  fin (LeakyBucket.water b) ∧ 0 <= fval (LeakyBucket.water b).

Lemma leak_near b now :
  leaky_valid b → t0 <= LeakyBucket.lastLeak b <= t1 → t0 <= now <= t1 →
  - (reachOf * 2 ^ 52) <= room b <= fval capacity * (2 ^ 52 * GoTime.Second) →
  let w := LeakyBucket.leak rate b now in
  let left := (fval capacity - fval w) * (2 ^ 52 * GoTime.Second) in
  let exact := room b + (now - LeakyBucket.lastLeak b) * (fval rate * 2 ^ 52) in
  fin w ∧ 0 <= fval w <= 2 ^ 58 * unit_sc ∧
  left <= exact + (6 * reachOf + 4 * tiny * (2 ^ 52 * GoTime.Second)) ∧
  Z.min 0 (exact - step_error) <= left.
Proof.
  intros [Hf H0] Hl Hn Hb w left exact. destruct (accrual_near now _ Hn Hl) as (HPm & HPb & HPn).
  destruct reach_bound as (Hreach & Hcr & _). pose proof Hok as ((Hcf & Hc1 & _) & Hc & _).
  pose proof GoTime.tiny_small. pose proof tiny_pos. pose proof unit_sc_pos.
  unfold left, w, exact, LeakyBucket.leak, room, step_error, GoTime.Second in *. clear left w exact.
  set (P := F64.mul _ rate) in *. set (x := LeakyBucket.water b) in *.
  assert (moderate x) as Hxm by (split; [done|lia]). destruct (sub_near x P Hxm HPm) as [Hsn Hs].
  destruct (clamp_below _ Hsn) as [Hcn Hcv]. set (a := F64.sub x P) in *. cbv zeta in *.
  set (y := if F64.lt a (F64.of_int 0) then F64.of_int 0 else a) in *.
  assert (Z.abs (fval a) <= 2 ^ 58 * unit_sc) as Hab by lia.
  split_and!; [apply moderate_num; [done|lia]|lia..].
Qed.

Lemma leaky_step b now :
  leaky_valid b → inSpan t0 t1 (LeakyBucket.lastLeak b) → inSpan t0 t1 now →
  - (reachOf * 2 ^ 52) <= room b <= fval capacity * (2 ^ 52 * GoTime.Second) →
  let exact := room b + (now - LeakyBucket.lastLeak b) * (fval rate * 2 ^ 52) in
  ∃ b' r, LeakyBucket.leakAndDecide capacity rate b now = (b', (r, None)) ∧ leaky_valid b' ∧
    LeakyBucket.lastLeak b' = now ∧ result_ok r ∧ room b' <= fval capacity * (2 ^ 52 * GoTime.Second) ∧
    room b' + (if Allowed r then unit_sc * (2 ^ 52 * GoTime.Second) else 0) <= exact + step_error ∧
    (if Allowed r then 0 else Z.min 0 (exact - step_error)) <= room b'.
Proof.
  intros Hv Hl Hn Hb exact. destruct (leak_near b now Hv Hl Hn Hb) as (Hwf & Hwb & Hup & Hlo).
  fold exact in Hup, Hlo. destruct one_exact as [Hof Hov]. pose proof unit_sc_pos.
  destruct reach_bound as (_ & Hcr & _). pose proof GoTime.tiny_small. pose proof tiny_pos.
  pose proof (Hok) as ((Hcf & Hc1 & _) & Hc & _). unfold LeakyBucket.leakAndDecide.
  set (w := LeakyBucket.leak rate b now) in *.
  assert (moderate w) as Hwm by (split; [done|lia]). assert (moderate (F64.of_int 1)) as Hom by (split; [done|lia]).
  destruct (add_near w _ Hwm Hom) as [Han Ha]. set (p := F64.add w (F64.of_int 1)) in *. rewrite Hov in Ha.
  destruct (moderate_num p Han) as [Hpf _]; [lia|].
  assert (moderate p ∧ moderate capacity) as [Hpm Hcm] by (split; (split; [done|lia])).
  destruct (F64.le p capacity) eqn:El.
  - apply le_fval in El; fin_side. destruct (sub_near capacity p Hcm Hpm) as [Hsn Hs].
    destruct (moderate_num _ Hsn) as [Hsf _]; [lia|]. do 2 eexists. split; [reflexivity|]. cbn [Allowed].
    unfold room, leaky_valid, step_error, GoTime.Second in *. cbn [LeakyBucket.water LeakyBucket.lastLeak] in *. fold p.
    assert (unit_sc <= fval p) as Hpu by (rewrite <- Hov; apply add_ge; fin_side; lia).
    clearbody exact. split_and!; [done|lia|done| |lia|lia|lia].
    split_and!; cbn [Remaining RetryAfter Allowed]; try done. fold p.
    rewrite Numeric.remainingFloor_spec by (done || lia). lia.
  - apply le_false_fval in El; fin_side. destruct (sub_near p capacity Hpm Hcm) as [Hsn Hs].
    do 2 eexists. split; [reflexivity|]. cbn [Allowed].
    unfold room, leaky_valid, step_error, GoTime.Second in *. cbn [LeakyBucket.water LeakyBucket.lastLeak] in *.
    clearbody exact. split_and!; [done|lia|done| |lia|lia|lia].
    split_and!; cbn [Remaining RetryAfter Allowed]; try done. fold p.
    apply debt_delay; [done|]. split; [apply (sub_ge _ _ (S754_zero false)); fin_side; cbn [fval]; lia|lia].
Qed.

(** The quota of one leaky bucket, for instants in any order. *)
Lemma leaky_disorder_quota first nows :
  t0 <= first <= t1 → Forall (fun t => t0 <= t <= t1) nows → Z.of_nat (length nows) <= 2 ^ 40 →
  let rs := (MemoryLimiter.replay (LeakyBucket.leakAndDecide capacity rate) (LeakyBucket.newLeaky first) nows).2 in
  Forall result_ok rs ∧
  allowed_count rs * (unit_sc * (2 ^ 52 * GoTime.Second))
    <= fval capacity * (2 ^ 52 * GoTime.Second) + (t1 - t0) * (fval rate * 2 ^ 52) + Z.of_nat (length nows) * step_error.
Proof.
  intros Hf Hn Hlen. pose proof unit_sc_pos. destruct reach_bound as (Hreach & _). pose proof tiny_pos.
  destruct (Hok) as ((Hcf & Hc1 & _ & Hr) & _).
  eapply (books_quota (LeakyBucket.leakAndDecide capacity rate) room LeakyBucket.lastLeak leaky_valid
    _ _ _ _ (reachOf * 2 ^ 52) t0 t1); try done;
    [unfold GoTime.Second; lia|lia|unfold step_error, GoTime.Second in *; lia|exact leaky_step| |].
  - unfold room. cbn [LeakyBucket.newLeaky LeakyBucket.water]. rewrite Numeric.of_int_0. cbn [fval]. lia.
  - apply errors_fit. lia.
Qed.

End Span.

(** ** The sliding window

    It has no quota then ([sliding_window_out_of_order]), but what its callers
    see stays well-formed. *)

Lemma window_disorder_ok limit window first nows :
  0 < limit →
  Forall result_ok (MemoryLimiter.replay (SlidingWindow.recordAndDecide limit window) (SlidingWindow.newWindow first) nows).2.
Proof.
  intros Hl. assert (SlidingWindow.log_size limit (SlidingWindow.newWindow first)) as Hs by (split; simpl; lia).
  revert Hs. generalize (SlidingWindow.newWindow first). induction nows as [|now nows IH]; intros st Hs; [constructor|].
  destruct (SlidingWindow.decide_any limit window Hl st now Hs) as (st' & r & Hd & Hs' & Hr).
  cbn [MemoryLimiter.replay]. rewrite Hd. specialize (IH st' Hs').
  destruct (MemoryLimiter.replay _ st' nows) as [st'' rs]. by constructor.
Qed.

End Disorder.
