(* ===== verification/Lifetimes.v ===== *)
(** * Lifetimes: keys that expire

    What one key experiences in a limiter that evicts nothing but may have a
    TTL: its decisions follow each other, except that the state may be lost
    and start afresh after an idle time of at least the TTL.  A quota survives
    that if a fresh state is no better than one that was idle for so long:
    this file proves it once for anything that keeps books ([books_kept]). *)

From Stdlib Require Import ZArith Lia Bool.
From stdpp Require Import base gmap strings list.
From S2P Require Import Prelude Core Float64 FloatFacts GoTime GoString Options ShardedStore StoreFacts StoreSpec StateStore MemoryLimiter.

#[local] Open Scope Z_scope.

Module Lifetimes.
Import MemoryLimiter.

Section Lives.
Context {T : Type} (create : Time → T) (decide : T → Time → T * (Result * option error)).
Context (stale : Time → Time → Prop).

(** The state in which a key that was left as [ov] (a state and the instant of
    its last use) is found at [now]. *)
Definition found (ov : option (T * Time)) (now : Time) (v : T) : Prop :=
  match ov with
  | None => v = create now
  | Some (w, t) => v = w ∨ v = create now ∧ stale now t
  end.

(** Decided requests of one key, with their instants and results. *)
Inductive lives : option (T * Time) → list (Time * Result) → Prop :=
| lives_nil ov : lives ov []
| lives_cons ov now v v' r served :
    found ov now v → decide v now = (v', (r, None)) → lives (Some (v', now)) served →
    lives ov ((now, r) :: served).

(** A new key is as good as one that was created at its first request. *)
Lemma lives_known served first rest :
  lives None served → served.*1 = first :: rest → lives (Some (create first, first)) served.
Proof.
  intros Hl. inversion Hl as [ov|ov now v v' r served' Hf Hd Hrest]; subst; [done|].
  rewrite fmap_cons. intros [= <- _]. apply (lives_cons _ now v v'); [by left|done..].
Qed.

(** ** Books

    [credit v]: what a state is worth.  A request costs one unit if it passes;
    time earns [gain]; each request may err by [err]; all scaled by [scale]. *)
Context (P : T → Time → Prop) (credit : T → Z) (full scale gain err : Z).
Hypothesis Hscale : 0 <= scale.
Hypothesis Hcreate : ∀ now, P (create now) now ∧ credit (create now) = full.
Hypothesis Hcredit : ∀ v t, P v t → 0 <= credit v.
Hypothesis Hdecide : ∀ v t now v' r, P v t → t <= now → decide v now = (v', (r, None)) →
  P v' now ∧
  (credit v' + (if Allowed r then unit_sc else 0)) * scale <= credit v * scale + (now - t) * gain + err.
Hypothesis Hstale : ∀ now t, t <= now → stale now t → full * scale <= (now - t) * gain.

Lemma books_kept v t served :
  lives (Some (v, t)) served → P v t → nondecreasing t served.*1 →
  allowed_count served.*2 * unit_sc * scale
    <= credit v * scale + (final t served.*1 - t) * gain + Z.of_nat (length served) * err.
Proof.
  intros Hl. remember (Some (v, t)) as ov eqn:Eov. revert v t Eov.
  induction Hl as [ov|ov now w v' r served Hf Hd _ IH]; intros v t -> Hp Hm.
  { unfold allowed_count, final. simpl. specialize (Hcredit v t Hp). nia. }
  rewrite !fmap_cons in *. cbn [fst snd] in *. destruct Hm as [Ht Hm]. rewrite allowed_count_cons, final_cons. cbn [length].
  rewrite Nat2Z.inj_succ.
  assert (P v' now ∧ (credit v' + (if Allowed r then unit_sc else 0)) * scale
    <= credit v * scale + (now - t) * gain + err) as [Hp' Hstep].
  { destruct Hf as [->|[-> Hst]]; [by eapply Hdecide|].
    destruct (Hcreate now) as [Hpc Hc]. destruct (Hdecide _ now now _ _ Hpc ltac:(lia) Hd) as [Hp' Hb].
    split; [done|]. rewrite Hc in Hb. pose proof (Hstale now t Ht Hst). specialize (Hcredit v t Hp). nia. }
  specialize (IH v' now eq_refl Hp' Hm). destruct (Allowed r); lia.
Qed.

(** A key that was not there before. *)
Lemma books_fresh served first rest :
  lives None served → served.*1 = first :: rest → nondecreasing first (first :: rest) →
  allowed_count served.*2 * unit_sc * scale
    <= full * scale + (final first rest - first) * gain + Z.of_nat (length served) * err.
Proof.
  intros Hl Hf Hm. destruct (Hcreate first) as [Hp Hc]. rewrite <- Hf in Hm.
  pose proof (books_kept _ _ _ (lives_known _ _ _ Hl Hf) Hp Hm) as Hb. rewrite Hf, final_cons, Hc in Hb. exact Hb.
Qed.
End Lives.

(** ** A limiter without eviction *)

Section Serve.
Context {E T S : Type} {create : Time → T} {store : StateStore E T S create}.
Context {o : Options.options} {laws : StateStoreLaws store o}.
Context (decide : T → Time → T * (Result * option error)).

Definition stale (now t : Time) : Prop := 0 < Options.keyTTL o ∧ Options.keyTTL o <= now - t.

Lemma stale_later now now' t : stale now t → now <= now' → stale now' t.
Proof. unfold stale. lia. Qed.

Lemma expired_stale now (v : T) t : StoreFacts.expired o now (v, t) → stale now t.
Proof.
  unfold StoreFacts.expired, stale. simpl. intros [H1 H2]. split; [done|].
  pose proof (GoTime.Sub_upper now t). lia.
Qed.

(** What the store holds of a key that was left as [ov]: the cleanup may have
    taken it away. *)
Definition holds (now : Time) (c : option (T * Time)) (ov : option (T * Time)) : Prop :=
  c = ov ∨ c = None ∧ ∃ v t, ov = Some (v, t) ∧ stale now t.

Lemma holds_later now now' c ov : holds now c ov → now <= now' → holds now' c ov.
Proof. intros [->|[-> (v & t & -> & Hs)]] Ht; [by left|]. right. split; [done|]. exists v, t. eauto using stale_later. Qed.

Hypothesis Hevict : Options.maxKeys o <= 0 ∨ Options.eviction o = Options.EvictReject.
Hypothesis Htotal : ∀ v now, (decide v now).2.2 = None.

Lemma no_victim victim : StoreSpec.victim_ok o victim → victim = None.
Proof.
  unfold StoreSpec.victim_ok, Options.EvictReject, Options.EvictLRU in *.
  intros [->|[He Hm]]; [done|]. destruct Hevict; [lia|]. rewrite He in *. done.
Qed.

Lemma drops_holds now victim (m m0 : gmap string (T * Time)) key ov :
  StoreSpec.victim_ok o victim → StoreSpec.drops (StoreSpec.gone o now victim) m m0 →
  holds now (m !! key) ov → holds now (m0 !! key) ov.
Proof.
  intros ->%no_victim [Hsub HQ] Hh. destruct (m !! key) as [[v t]|] eqn:Em.
  - destruct Hh as [<-|[? _]]; [|done]. destruct (m0 !! key) as [w|] eqn:E0.
    + eapply lookup_weaken in E0; [|exact Hsub]. left. congruence.
    + destruct (HQ _ _ Em E0) as [Hx|?]; [|done]. right. split; [done|]. eauto using expired_stale.
  - rewrite (lookup_weaken_None m0 m key Em Hsub). exact Hh.
Qed.

(** One call: on the key itself a decision, on another key nothing but
    expiry. *)
Lemma lives_call now k key m r victim m' ov :
  StoreSpec.withState_spec o create now k decide m r victim m' → holds now (m !! key) ov →
  if bool_decide (k = key ∧ r.2 = None)
  then ∃ v v', found create stale ov now v ∧ decide v now = (v', (r.1, None)) ∧ m' !! key = Some (v', now)
  else holds now (m' !! key) ov.
Proof.
  assert (∀ v v' r, decide v now = (v', r) → r.2 = None ∧ decide v now = (v', (r.1, None))) as Hn.
  { intros v v' [res err] Hd. pose proof (Htotal v now) as Ht. rewrite Hd in Ht. simpl in Ht. by subst err. }
  intros [v t m0 v' r1 Hk Hd Hf|v0 m0 v' r1 Hk Hd Hv Hsz Hf|m0 Hk He Hm Hd Hsz] Hh.
  - destruct (Hn _ _ _ Hf) as [He Hf']. case_bool_decide as Hb.
    + destruct Hb as [-> _]. exists v, v'. rewrite lookup_insert_eq. split_and!; [|done|done].
      rewrite Hk in Hh. destruct Hh as [<-|[? _]]; [by left|done].
    + rewrite lookup_insert_ne by naive_solver. eapply drops_holds; [by left|done|done].
  - destruct (Hn _ _ _ Hf) as [He Hf']. case_bool_decide as Hb.
    + destruct Hb as [-> _]. exists (create now), v'. rewrite lookup_insert_eq. split_and!; [|done|done].
      rewrite Hk in Hh. destruct Hh as [<-|[_ (v & t & -> & Hs)]]; [done|by right].
    + rewrite lookup_insert_ne by naive_solver. eapply drops_holds; done.
  - rewrite bool_decide_false by naive_solver. eapply drops_holds; [by left|done|done].
Qed.

Lemma serve_lives l reqs key t0 ov :
  limiter_ok (o := o) l → nondecreasing t0 reqs.*1.*1 → holds t0 (contents (lim_store l) !! key) ov →
  ∃ rs l', serve decide l reqs = Some (rs, l') ∧ length rs = length reqs ∧
    lives create decide stale ov (servedFor key reqs rs).
Proof.
  revert l t0 ov. induction reqs as [|[[now env] k] reqs IH]; intros l t0 ov Hl Hm Hh.
  { exists [], l. split_and!; [done|done|constructor]. }
  destruct Hm as [Ht Hm]. cbn [fst] in Ht, Hm. apply (holds_later _ now) in Hh; [|done].
  destruct (allow_spec decide (now, env) l k Hl) as ([res err] & l1 & Ha & Hl1 & Hspec). cbn [serve servedFor].
  rewrite Ha. destruct (KeyValidation.validateKey k) as [e|].
  - destruct Hspec as [[= -> ->] Hst]. rewrite <- Hst in Hh.
    destruct (IH l1 now ov Hl1 Hm Hh) as (rs & l2 & -> & Hlen & Hlv). eexists _, _.
    split_and!; [reflexivity|simpl; by rewrite Hlen|]. cbn [servedFor]. by rewrite bool_decide_false by naive_solver.
  - destruct Hspec as (victim & Hspec). pose proof (lives_call _ _ key _ _ _ _ ov Hspec Hh) as Hcall.
    cbn [fst snd] in Hcall. case_bool_decide as Hb.
    + destruct Hcall as (v & v' & Hf & Hd & Hc).
      destruct (IH l1 now (Some (v', now)) Hl1 Hm) as (rs & l2 & -> & Hlen & Hlv); [by left|].
      eexists _, _. split_and!; [reflexivity|simpl; by rewrite Hlen|]. cbn [servedFor].
      rewrite bool_decide_true by done. by apply (lives_cons _ _ _ ov now v v').
    + destruct (IH l1 now ov Hl1 Hm Hcall) as (rs & l2 & -> & Hlen & Hlv).
      eexists _, _. split_and!; [reflexivity|simpl; by rewrite Hlen|]. cbn [servedFor]. by rewrite bool_decide_false.
Qed.
End Serve.

End Lifetimes.
