(* ===== verification/MemoryLimiters.v ===== *)
(** * MemoryLimiters: the three limiters of package memory

    The constructors (guards, options, store) and [Allow] of [TokenBucket],
    [LeakyBucket] and [SlidingWindow], as instances of the [Limiter]
    interface; and what each promises to the user of the package, end to end:
    through key validation, hashing, the sharded store and the decision. *)

From Stdlib Require Import ZArith Lia Bool.
From stdpp Require Import base gmap strings list.
From S2P Require Import Prelude Float64 FloatFacts GoTime Core GoString Numeric Options.
From S2P Require Import ShardedStore StoreFacts StoreSpec StateStore MemoryLimiter Lifetimes.
From S2P Require Import TokenBucket LeakyBucket SlidingWindow.

#[local] Open Scope Z_scope.
#[local] Open Scope kaka_scope.

Module Memory.
Import MemoryLimiter.

(** What one call reads: the clock, and the visiting order of the maps. *)
Definition env (T : Type) : Type := Time * Store.range_order T.

(** ** TokenBucket *)

Record TokenBucket := mkTokenBucket {
  tb_capacity : spec_float;
  tb_rate : spec_float;
  tb_lim : limiter (Store.shardedStore TokenBucket.bucket)
}.

Definition NewTokenBucket (capacity rate : spec_float) (opts : list Options.Option)
    : outcome TokenBucket :=
  panic_if (negb (Numeric.isFinite capacity) || F64.lt capacity (F64.of_int 1))
    "memory: token bucket capacity must be >= 1" (
  panic_if (negb (Numeric.isFinite rate) || F64.le rate (F64.of_int 0))
    "memory: token bucket rate must be > 0" (
  let! o := Options.buildOptions opts in
  let! s := Store.newStateStore o in
  Returns (mkTokenBucket capacity rate (mkLimiter o s [])))).

#[export] Instance TokenBucket_Allow `{GoArch} : Limiter (env TokenBucket.bucket) TokenBucket :=
  fun e tb key =>
    match allow (create := TokenBucket.newBucket (tb_capacity tb))
            (TokenBucket.refillAndDecide (tb_capacity tb) (tb_rate tb)) e (tb_lim tb) key with
    | None => None
    | Some (r, l) => Some (r, mkTokenBucket (tb_capacity tb) (tb_rate tb) l)
    end.

(** ** LeakyBucket *)

Record LeakyBucket := mkLeakyBucket {
  lb_capacity : spec_float;
  lb_rate : spec_float;
  lb_lim : limiter (Store.shardedStore LeakyBucket.leakyState)
}.

Definition NewLeakyBucket (capacity rate : spec_float) (opts : list Options.Option)
    : outcome LeakyBucket :=
  panic_if (negb (Numeric.isFinite capacity) || F64.lt capacity (F64.of_int 1))
    "memory: leaky bucket capacity must be >= 1" (
  panic_if (negb (Numeric.isFinite rate) || F64.le rate (F64.of_int 0))
    "memory: leaky bucket rate must be > 0" (
  let! o := Options.buildOptions opts in
  let! s := Store.newStateStore o in
  Returns (mkLeakyBucket capacity rate (mkLimiter o s [])))).

#[export] Instance LeakyBucket_Allow `{GoArch} : Limiter (env LeakyBucket.leakyState) LeakyBucket :=
  fun e lb key =>
    match allow (create := LeakyBucket.newLeaky)
            (LeakyBucket.leakAndDecide (lb_capacity lb) (lb_rate lb)) e (lb_lim lb) key with
    | None => None
    | Some (r, l) => Some (r, mkLeakyBucket (lb_capacity lb) (lb_rate lb) l)
    end.

(** ** SlidingWindow *)

Record SlidingWindow := mkSlidingWindow {
  sw_limit : Z;
  sw_window : Duration;
  sw_lim : limiter (Store.shardedStore SlidingWindow.windowState)
}.

Definition NewSlidingWindow (limit : Z) (window : Duration) (opts : list Options.Option)
    : outcome SlidingWindow :=
  panic_if (limit <=? 0) "memory: sliding window limit must be > 0" (
  panic_if (window <=? 0) "memory: sliding window window must be > 0" (
  let! o := Options.buildOptions opts in
  let! s := Store.newStateStore o in
  Returns (mkSlidingWindow limit window (mkLimiter o s [])))).

#[export] Instance SlidingWindow_Allow : Limiter (env SlidingWindow.windowState) SlidingWindow :=
  fun e sw key =>
    match allow (create := SlidingWindow.newWindow)
            (SlidingWindow.recordAndDecide (sw_limit sw) (sw_window sw)) e (sw_lim sw) key with
    | None => None
    | Some (r, l) => Some (r, mkSlidingWindow (sw_limit sw) (sw_window sw) l)
    end.

(** ** Constructors *)

(** What the guards on a capacity and a rate leave. *)
Lemma bucket_guards capacity rate :
  F64.valid capacity = true → F64.valid rate = true →
  (negb (Numeric.isFinite capacity) || F64.lt capacity (F64.of_int 1) = false ∧
   negb (Numeric.isFinite rate) || F64.le rate (F64.of_int 0) = false) ↔
  Numeric.params_ok capacity rate.
Proof.
  intros Hc Hr. rewrite !orb_false_iff, !negb_false_iff, !Numeric.isFinite_fin by done.
  destruct one_exact as [H1 H1v]. unfold Numeric.params_ok. split.
  - intros [[Hcf Hlt] [Hrf Hle]]. apply lt_false_fval in Hlt; fin_side.
    rewrite Numeric.of_int_0 in Hle. apply le_false_fval in Hle; fin_side. cbn [fval] in Hle.
    split_and!; [done|lia|done|lia].
  - intros (Hcf & Hcv & Hrf & Hrv). rewrite Numeric.of_int_0.
    split_and!; [done|apply lt_false_fval; fin_side; lia|done|apply le_false_fval; fin_side; cbn [fval]; lia].
Qed.

(** A validated configuration gives an empty store. *)
Lemma build_store {T A} opts (k : Options.options → Store.shardedStore T → A) a :
  (let! o := Options.buildOptions opts in let! s := Store.newStateStore o in Returns (k o s))
    = Returns a ↔
  ∃ o, Options.buildOptions opts = Returns o ∧ a = k o (Store.newShardedStore o).
Proof.
  destruct (Options.buildOptions opts) as [o|msg] eqn:Eo; simpl; [|naive_solver].
  rewrite newStateStore_ok by by eapply Options.buildOptions_ok. simpl. naive_solver.
Qed.

Section Total.
Context `{GoArch}.

(** The decisions never fail. *)
Lemma token_no_error capacity rate b now : (TokenBucket.refillAndDecide capacity rate b now).2.2 = None.
Proof. unfold TokenBucket.refillAndDecide. by destruct (F64.ge _ _). Qed.

Lemma leaky_no_error capacity rate b now : (LeakyBucket.leakAndDecide capacity rate b now).2.2 = None.
Proof. unfold LeakyBucket.leakAndDecide. by destruct (F64.le _ _). Qed.

Lemma window_no_error limit window st now :
  (SlidingWindow.recordAndDecide limit window st now).2.2 = None.
Proof. unfold SlidingWindow.recordAndDecide. by destruct (_ <? _). Qed.
End Total.

Lemma served_sublist {E} key (reqs : list ((Time * E) * string)) rs :
  sublist (servedFor key reqs rs).*1 (reqs.*1.*1).
Proof.
  revert rs. induction reqs as [|[[now e] k] reqs IH]; intros rs; [destruct rs; constructor|].
  destruct rs as [|[r err] rs]; [apply sublist_nil_l|]. cbn [servedFor]. case_bool_decide; simpl.
  - by constructor.
  - by constructor.
Qed.

(** ** From the limiter to the shared code *)

Section Requests.
Context `{GoArch}.

Lemma token_requests capacity rate l reqs :
  requests (mkTokenBucket capacity rate l) reqs =
  match serve (create := TokenBucket.newBucket capacity)
          (TokenBucket.refillAndDecide capacity rate) l reqs with
  | None => None
  | Some (rs, l') => Some (rs, mkTokenBucket capacity rate l')
  end.
Proof.
  revert l. induction reqs as [|[e key] reqs IH]; intros l; [done|]. cbn [requests serve].
  unfold Allow at 1, TokenBucket_Allow at 1. cbn [tb_capacity tb_rate tb_lim].
  destruct (allow _ e l key) as [[r l1]|]; [|done]. rewrite IH. by destruct (serve _ l1 reqs) as [[rs l2]|].
Qed.

Lemma leaky_requests capacity rate l reqs :
  requests (mkLeakyBucket capacity rate l) reqs =
  match serve (create := LeakyBucket.newLeaky) (LeakyBucket.leakAndDecide capacity rate) l reqs with
  | None => None
  | Some (rs, l') => Some (rs, mkLeakyBucket capacity rate l')
  end.
Proof.
  revert l. induction reqs as [|[e key] reqs IH]; intros l; [done|]. cbn [requests serve].
  unfold Allow at 1, LeakyBucket_Allow at 1. cbn [lb_capacity lb_rate lb_lim].
  destruct (allow _ e l key) as [[r l1]|]; [|done]. rewrite IH. by destruct (serve _ l1 reqs) as [[rs l2]|].
Qed.

Lemma window_requests limit window l reqs :
  requests (mkSlidingWindow limit window l) reqs =
  match serve (create := SlidingWindow.newWindow) (SlidingWindow.recordAndDecide limit window) l reqs with
  | None => None
  | Some (rs, l') => Some (rs, mkSlidingWindow limit window l')
  end.
Proof.
  revert l. induction reqs as [|[e key] reqs IH]; intros l; [done|]. cbn [requests serve].
  unfold Allow at 1, SlidingWindow_Allow at 1. cbn [sw_limit sw_window sw_lim].
  destruct (allow _ e l key) as [[r l1]|]; [|done]. rewrite IH. by destruct (serve _ l1 reqs) as [[rs l2]|].
Qed.
End Requests.

(** A configuration under which a stored key stays stored: no TTL, and no
    eviction (unlimited, or rejecting). *)
Definition keeps_keys (o : Options.options) : Prop :=
  Options.keyTTL o <= 0 ∧ (Options.maxKeys o <= 0 ∨ Options.eviction o = Options.EvictReject).

(** A new limiter serves any requests, and each key as if it were alone. *)
Lemma new_isolated {T} (create : Time → T) decide o (reqs : list (env T * string)) key :
  Options.options_ok o → keeps_keys o → (∀ v now, (decide v now).2.2 = None) →
  ∃ rs l', serve (create := create) decide (mkLimiter o (Store.newShardedStore o) []) reqs = Some (rs, l') ∧
    length rs = length reqs ∧
    let served := servedFor key reqs rs in
    served.*2 = alone (create := create) decide None served.*1.
Proof.
  intros Ho Hk Hd. destruct (newStore_ok (T := T) o Ho) as [Hok Habs].
  destruct (serve_isolated (o := o) (laws := sharded_laws create o) decide Hk Hd
    (mkLimiter o (Store.newShardedStore o) []) reqs key) as (rs & l' & Hs & _ & Hlen & Hal).
  { split; [done|exact Hok]. }
  exists rs, l'. split_and!; [done|done|]. cbv zeta in *. rewrite Hal. cbn [lim_store].
  change (contents (Store.newShardedStore o)) with (StoreSpec.abs (Store.newShardedStore (T := T) o)).
  by rewrite Habs, lookup_empty.
Qed.

(** A configuration that never evicts a key: unlimited, or rejecting. *)
Definition no_eviction (o : Options.options) : Prop :=
  Options.maxKeys o <= 0 ∨ Options.eviction o = Options.EvictReject.

(** The TTL is off, or gives an empty bucket the time to fill up again; or,
    for a sliding window, is not shorter than the window. *)
Definition ttl_refills (capacity rate : spec_float) (o : Options.options) : Prop :=
  Options.keyTTL o <= 0 ∨ fval capacity * GoTime.Second <= Options.keyTTL o * fval rate.
Definition ttl_covers (window : Duration) (o : Options.options) : Prop :=
  Options.keyTTL o <= 0 ∨ window <= Options.keyTTL o.

(** A new limiter without eviction serves any requests; what a key
    experiences is a life. *)
Lemma new_lives {T} (create : Time → T) decide o (reqs : list (env T * string)) key t0 :
  Options.options_ok o → no_eviction o → (∀ v now, (decide v now).2.2 = None) → nondecreasing t0 reqs.*1.*1 →
  ∃ rs l', serve (create := create) decide (mkLimiter o (Store.newShardedStore o) []) reqs = Some (rs, l') ∧
    length rs = length reqs ∧ Lifetimes.lives create decide (Lifetimes.stale (o := o)) None (servedFor key reqs rs).
Proof.
  intros Ho Hk Hd Hm. destruct (newStore_ok (T := T) o Ho) as [Hok Habs].
  apply (Lifetimes.serve_lives (o := o) (laws := sharded_laws create o) decide Hk Hd
    (mkLimiter o (Store.newShardedStore o) []) reqs key t0 None); [split; [done|exact Hok]|done|left].
  cbn [lim_store]. change (contents (Store.newShardedStore o)) with (StoreSpec.abs (Store.newShardedStore (T := T) o)).
  by rewrite Habs, lookup_empty.
Qed.

Lemma served_nondecreasing {E} t0 key (reqs : list ((Time * E) * string)) rs now nows :
  nondecreasing t0 reqs.*1.*1 → (servedFor key reqs rs).*1 = now :: nows →
  nondecreasing now (now :: nows).
Proof.
  intros Hm Hs. eapply (nondecreasing_self t0). rewrite <- Hs.
  eapply nondecreasing_sublist; [apply served_sublist|done].
Qed.

End Memory.
