(* ===== verification/MemoryProps.v ===== *)
(** * MemoryProps: what package memory promises, end to end

    Theorems about limiters built by the package's constructors and driven
    through [Allow]: the quotas of the three algorithms per key, the contract
    every call obeys under every configuration, the bound on the number of
    keys, and the events the metric sink receives. *)

From Stdlib Require Import ZArith Lia Bool.
From stdpp Require Import base gmap strings list.
From S2P Require Import Prelude Float64 FloatFacts GoTime Core GoString Numeric Options.
From S2P Require Import ShardedStore StoreFacts StoreSpec StateStore MemoryLimiter Lifetimes.
From S2P Require Import TokenBucket LeakyBucket SlidingWindow MemoryLimiters.

#[local] Open Scope Z_scope.

Module MemoryProps.
Import MemoryLimiter Memory.

(** A visiting order, for the concrete runs below. *)
Definition anyOrder {T} : Store.range_order T := fun _ m => (map_to_list m).*1.

(** Limiters with the default options, and with at most five keys. *)
Definition exampleTokenBucket : TokenBucket :=
  mkTokenBucket (F64.of_int 2) (F64.of_int 1)
    (mkLimiter Options.defaultOptions (Store.newShardedStore Options.defaultOptions) []).
Definition exampleLeakyBucket : LeakyBucket :=
  mkLeakyBucket (F64.of_int 2) (F64.of_int 1)
    (mkLimiter Options.defaultOptions (Store.newShardedStore Options.defaultOptions) []).
Definition exampleSlidingWindow : SlidingWindow :=
  let o := Options.WithMaxKeys 5 Options.defaultOptions in
  mkSlidingWindow 2 100 (mkLimiter o (Store.newShardedStore o) []).

(** ** What a constructor that returns gives *)

Lemma new_token capacity rate opts tb :
  F64.valid capacity = true → F64.valid rate = true →
  NewTokenBucket capacity rate opts = Returns tb ↔
  Numeric.params_ok capacity rate ∧ ∃ o, Options.buildOptions opts = Returns o ∧
    tb = mkTokenBucket capacity rate (mkLimiter o (Store.newShardedStore o) []).
Proof.
  intros Hc Hr. unfold NewTokenBucket. rewrite !panic_if_Returns, build_store.
  rewrite <- (bucket_guards capacity rate Hc Hr). naive_solver.
Qed.

Lemma new_leaky capacity rate opts lb :
  F64.valid capacity = true → F64.valid rate = true →
  NewLeakyBucket capacity rate opts = Returns lb ↔
  Numeric.params_ok capacity rate ∧ ∃ o, Options.buildOptions opts = Returns o ∧
    lb = mkLeakyBucket capacity rate (mkLimiter o (Store.newShardedStore o) []).
Proof.
  intros Hc Hr. unfold NewLeakyBucket. rewrite !panic_if_Returns, build_store.
  rewrite <- (bucket_guards capacity rate Hc Hr). naive_solver.
Qed.

Lemma new_window limit window opts sw :
  NewSlidingWindow limit window opts = Returns sw ↔
  0 < limit ∧ 0 < window ∧ ∃ o, Options.buildOptions opts = Returns o ∧
    sw = mkSlidingWindow limit window (mkLimiter o (Store.newShardedStore o) []).
Proof.
  unfold NewSlidingWindow. rewrite !panic_if_Returns, build_store, !Z.leb_gt. naive_solver.
Qed.

(** ** Quotas *)

(** A key that was idle for a TTL that refills has earned a full bucket. *)
Lemma stale_refilled capacity rate o now t :
  0 <= fval rate → ttl_refills capacity rate o → t <= now → Lifetimes.stale (o := o) now t →
  fval capacity * (2 ^ 52 * GoTime.Second) <= (now - t) * (fval rate * (2 ^ 52 + 6)).
Proof.
  intros Hr [?|Httl] Ht [? Hs]; [lia|]. unfold GoTime.Second in *.
  assert (Options.keyTTL o * fval rate <= (now - t) * fval rate) by nia. nia.
Qed.

(** The requests of a key that were decided. *)
Lemma token_served_quota `{GoArch} capacity rate opts tb t0 reqs key :
  F64.valid capacity = true → F64.valid rate = true → fval capacity < 2 ^ 53 * unit_sc →
  NewTokenBucket capacity rate opts = Returns tb →
  no_eviction (lim_opts (tb_lim tb)) → ttl_refills capacity rate (lim_opts (tb_lim tb)) →
  nondecreasing t0 reqs.*1.*1 →
  ∃ rs tb', requests tb reqs = Some (rs, tb') ∧ length rs = length reqs ∧
    let served := servedFor key reqs rs in
    ∀ first rest, served.*1 = first :: rest →
      allowed_count served.*2 * unit_sc * (2 ^ 52 * GoTime.Second)
        <= fval capacity * (2 ^ 52 * GoTime.Second)
           + (final first rest - first) * (fval rate * (2 ^ 52 + 6))
           + Z.of_nat (length served) * (TokenBucket.step_error capacity * GoTime.Second).
Proof.
  intros Hcv Hrv Hc Hnew Hev Httl Hm. apply (new_token _ _ _ _ Hcv Hrv) in Hnew as (Hp & o & Ho & ->).
  pose proof Hp as (_ & _ & _ & Hr).
  destruct (new_lives (TokenBucket.newBucket capacity) (TokenBucket.refillAndDecide capacity rate)
    o reqs key t0) as (rs & l' & Hs & Hlen & Hl);
    [by eapply Options.buildOptions_ok|done|apply token_no_error|done|].
  exists rs, (mkTokenBucket capacity rate l'). rewrite token_requests, Hs. split_and!; [done|done|].
  intros served first rest Hf. pose proof (served_nondecreasing t0 key reqs rs first rest Hm Hf) as Hn.
  eapply (Lifetimes.books_fresh _ _ _ (fun b t => TokenBucket.bucket_ok capacity b ∧ TokenBucket.lastRefilled b = t)
    (fun b => fval (TokenBucket.tokens b))); [unfold GoTime.Second; lia|..|exact Hl|exact Hf|exact Hn].
  - intros now. split; [split; [by eapply TokenBucket.newBucket_ok|done]|done].
  - intros b t [[_ Hb] _]. lia.
  - intros b t now b' r [Hb <-] Ht Hd.
    destruct (TokenBucket.decide_quota capacity rate Hp Hc b now b' r Hb Ht Hd) as (Hb' & Hl' & Hq). by split.
  - intros now t. apply stale_refilled; [lia|done].
Qed.

(** C1: quota of the token bucket limiter.  A limiter that [NewTokenBucket]
    returns, configured without eviction and with no TTL or a TTL in which an
    empty bucket fills up ([ttl_refills]), answers every sequence of requests
    whose clock readings never go back; and each key, whatever the other keys
    do and however often it expires, gets at most [capacity + rate * elapsed]
    requests through (elapsed: from the key's first to its last decided
    request), up to the rounding errors. *)
Theorem memory_token_bucket_quota `{GoArch} capacity rate opts tb t0 reqs key :
  F64.valid capacity = true → F64.valid rate = true → fval capacity < 2 ^ 53 * unit_sc →
  NewTokenBucket capacity rate opts = Returns tb →
  no_eviction (lim_opts (tb_lim tb)) → ttl_refills capacity rate (lim_opts (tb_lim tb)) →
  nondecreasing t0 reqs.*1.*1 →
  ∃ rs tb', requests tb reqs = Some (rs, tb') ∧ length rs = length reqs ∧
    let served := servedFor key reqs rs in
    ∀ first rest, served.*1 = first :: rest →
      allowed_count served.*2 * unit_sc * (2 ^ 52 * GoTime.Second)
        <= fval capacity * (2 ^ 52 * GoTime.Second)
           + (final first rest - first) * (fval rate * (2 ^ 52 + 6))
           + Z.of_nat (length served) * (TokenBucket.step_error capacity * GoTime.Second).
Proof. apply token_served_quota. Qed.

(** Capacity two, one per second, and keys that expire after two seconds. *)
Definition expiring : list Options.Option :=
  [Options.WithKeyTTL (2 * GoTime.Second); Options.WithCleanupInterval GoTime.Second].
Definition expiringOptions : Options.options := foldl (fun o f => f o) Options.defaultOptions expiring.
Definition expiringTokenBucket : TokenBucket :=
  mkTokenBucket (F64.of_int 2) (F64.of_int 1) (mkLimiter expiringOptions (Store.newShardedStore expiringOptions) []).
Definition expiringLeakyBucket : LeakyBucket :=
  mkLeakyBucket (F64.of_int 2) (F64.of_int 1) (mkLimiter expiringOptions (Store.newShardedStore expiringOptions) []).
Definition expiringSlidingWindow : SlidingWindow :=
  mkSlidingWindow 2 GoTime.Second (mkLimiter expiringOptions (Store.newShardedStore expiringOptions) []).

(** Two requests and a third too many; another key; and, after three seconds,
    a request that finds the first key expired. *)
Definition expiringRequests (T : Type) : list (env T * string) :=
  [((0, anyOrder), "a"); ((0, anyOrder), "a"); ((5, anyOrder), "a"); ((9, anyOrder), "b"); ((9, anyOrder), " ");
   ((3 * GoTime.Second, anyOrder), "a")]%string.

Lemma expiring_refills : ttl_refills (F64.of_int 2) (F64.of_int 1) expiringOptions.
Proof.
  right. destruct (of_int_exact 2) as [_ ->]; [lia|]. destruct (of_int_exact 1) as [_ ->]; [lia|].
  change (Options.keyTTL expiringOptions) with (2 * GoTime.Second). pose proof unit_sc_pos. unfold GoTime.Second. lia.
Qed.

Lemma memory_token_bucket_quota_witness :
  ∃ rs tb', requests (Limiter0 := TokenBucket_Allow (H := amd64)) expiringTokenBucket (expiringRequests TokenBucket.bucket) = Some (rs, tb') ∧
    let served := servedFor "a" (expiringRequests TokenBucket.bucket) rs in
    ∀ first rest, served.*1 = first :: rest →
      allowed_count served.*2 * unit_sc * (2 ^ 52 * GoTime.Second)
        <= fval (F64.of_int 2) * (2 ^ 52 * GoTime.Second)
           + (final first rest - first) * (fval (F64.of_int 1) * (2 ^ 52 + 6))
           + Z.of_nat (length served) * (TokenBucket.step_error (F64.of_int 2) * GoTime.Second).
Proof.
  destruct (memory_token_bucket_quota (H := amd64) (F64.of_int 2) (F64.of_int 1) expiring expiringTokenBucket 0
    (expiringRequests TokenBucket.bucket) "a"%string) as (rs & tb' & Hs & _ & Hq).
  - vm_compute. reflexivity.
  - vm_compute. reflexivity.
  - apply (Numeric.int_params_ok 2 1); lia.
  - vm_compute. reflexivity.
  - left. simpl. lia.
  - exact expiring_refills.
  - simpl. unfold GoTime.Second. lia.
  - exists rs, tb'. split; [exact Hs|exact Hq].
Defined.

(** C3: quota of the leaky bucket limiter, under the same conditions: clock
    readings that never go back, no eviction, and no TTL or one in which a full
    bucket drains. *)
Theorem memory_leaky_bucket_quota `{GoArch} capacity rate opts lb t0 reqs key :
  F64.valid capacity = true → F64.valid rate = true → fval capacity < 2 ^ 53 * unit_sc →
  NewLeakyBucket capacity rate opts = Returns lb →
  no_eviction (lim_opts (lb_lim lb)) → ttl_refills capacity rate (lim_opts (lb_lim lb)) →
  nondecreasing t0 reqs.*1.*1 →
  ∃ rs lb', requests lb reqs = Some (rs, lb') ∧ length rs = length reqs ∧
    let served := servedFor key reqs rs in
    ∀ first rest, served.*1 = first :: rest →
      allowed_count served.*2 * unit_sc * (2 ^ 52 * GoTime.Second)
        <= fval capacity * (2 ^ 52 * GoTime.Second)
           + (final first rest - first) * (fval rate * (2 ^ 52 + 6))
           + Z.of_nat (length served) * (LeakyBucket.step_error capacity * GoTime.Second).
Proof.
  intros Hcv Hrv Hc Hnew Hev Httl Hm. apply (new_leaky _ _ _ _ Hcv Hrv) in Hnew as (Hp & o & Ho & ->).
  pose proof Hp as (_ & _ & _ & Hr).
  destruct (new_lives LeakyBucket.newLeaky (LeakyBucket.leakAndDecide capacity rate)
    o reqs key t0) as (rs & l' & Hs & Hlen & Hl);
    [by eapply Options.buildOptions_ok|done|apply leaky_no_error|done|].
  exists rs, (mkLeakyBucket capacity rate l'). rewrite leaky_requests, Hs. split_and!; [done|done|].
  intros served first rest Hf. pose proof (served_nondecreasing t0 key reqs rs first rest Hm Hf) as Hn.
  eapply (Lifetimes.books_fresh _ _ _ (fun b t => LeakyBucket.leaky_ok capacity b ∧ LeakyBucket.lastLeak b = t)
    (fun b => fval capacity - fval (LeakyBucket.water b))); [unfold GoTime.Second; lia|..|exact Hl|exact Hf|exact Hn].
  - intros now. split; [split; [by eapply LeakyBucket.newLeaky_ok|done]|]. cbn [LeakyBucket.newLeaky LeakyBucket.water].
    rewrite Numeric.of_int_0. cbn [fval]. lia.
  - intros b t [[_ Hb] _]. lia.
  - intros b t now b' r [Hb <-] Ht Hd.
    destruct (LeakyBucket.leaky_decide_ok capacity rate Hp Hc b now Hb Ht) as (b0 & r0 & He & Hb' & Hl' & _).
    rewrite He in Hd. injection Hd as -> ->. pose proof (LeakyBucket.step_quota capacity rate Hp Hc b now b' r Hb Ht He) as Hq.
    split; [done|]. unfold GoTime.Second in *. destruct (Allowed r); lia.
  - intros now t. apply stale_refilled; [lia|done].
Qed.

Lemma memory_leaky_bucket_quota_witness :
  ∃ rs lb', requests (Limiter0 := LeakyBucket_Allow (H := amd64)) expiringLeakyBucket (expiringRequests LeakyBucket.leakyState) = Some (rs, lb') ∧
    length rs = 6%nat.
Proof.
  destruct (memory_leaky_bucket_quota (H := amd64) (F64.of_int 2) (F64.of_int 1) expiring expiringLeakyBucket 0
    (expiringRequests LeakyBucket.leakyState) "a"%string) as (rs & lb' & Hs & Hl & _).
  - vm_compute. reflexivity.
  - vm_compute. reflexivity.
  - apply (Numeric.int_params_ok 2 1); lia.
  - vm_compute. reflexivity.
  - left. simpl. lia.
  - exact expiring_refills.
  - simpl. unfold GoTime.Second. lia.
  - exists rs, lb'. split; [exact Hs|exact Hl].
Defined.

(** The same for a sliding window: a log that was idle for the length of the
    window has nothing left in it. *)
Lemma window_lives_quota limit window o hist st t a served :
  0 < limit → 0 < window <= int64_max → ttl_covers window o →
  Lifetimes.lives SlidingWindow.newWindow (SlidingWindow.recordAndDecide limit window) (Lifetimes.stale (o := o))
    (Some (st, t)) served →
  SlidingWindow.tracks limit window hist t st → Forall (fun u => u <= t) hist → nondecreasing t served.*1 →
  Z.of_nat (length (SlidingWindow.within window a hist)) <= limit →
  Z.of_nat (length (SlidingWindow.within window a (hist ++ SlidingWindow.granted served.*1 served.*2))) <= limit.
Proof.
  intros Hl Hw Httl Hlv. remember (Some (st, t)) as ov eqn:Eov. revert hist st t Eov.
  induction Hlv as [ov|ov now w st' r served Hf Hd _ IH]; intros hist st t -> Htr Hpast Hm Ha.
  { cbn [SlidingWindow.granted fmap list_fmap]. by rewrite app_nil_r. }
  rewrite !fmap_cons in *. cbn [fst snd] in *. destruct Hm as [Ht Hm].
  assert (Forall (fun u => u <= now) hist) as Hpast' by (eapply Forall_impl; [exact Hpast|simpl; lia]).
  assert (∃ last, last <= now ∧ SlidingWindow.tracks limit window hist last w) as (last & Hle & Htr').
  { destruct Hf as [->|[-> [H0 Hs]]]; [by exists t|]. exists now. split; [lia|]. destruct Httl as [?|Httl]; [lia|].
    destruct (SlidingWindow.newWindow_tracks limit window Hl now) as [Hok _]. split; [done|].
    intros u Hu. unfold SlidingWindow.inWindow. cbn [SlidingWindow.newWindow SlidingWindow.logs].
    rewrite filter_nil. symmetry. apply filter_none.
    eapply Forall_impl; [exact Hpast|]. simpl. lia. }
  destruct (SlidingWindow.tracks_step limit window Hl Hw hist last w now Htr' Hle) as (st2 & r2 & Hd2 & Hal & _ & _ & Htr2).
  rewrite Hd2 in Hd. injection Hd as -> ->. rewrite SlidingWindow.granted_cons, app_assoc.
  apply (IH _ st' now eq_refl Htr2); [|done|].
  - rewrite Forall_app. split; [done|]. destruct (Allowed r); repeat constructor. lia.
  - destruct (Allowed r) eqn:E; [|by rewrite app_nil_r].
    apply SlidingWindow.within_step; [done|]. symmetry in Hal. by apply Z.ltb_lt.
Qed.

(** C2: quota of the sliding window limiter, without eviction and with no TTL
    or one that is not shorter than the window, on requests whose clock readings
    never go back: no interval [(a, a + window]] holds more than [limit] allowed
    requests of a key.  (With readings out of order it may:
    [sliding_window_out_of_order].) *)
Theorem memory_sliding_window_quota limit window opts sw t0 reqs key a :
  window <= int64_max → NewSlidingWindow limit window opts = Returns sw →
  no_eviction (lim_opts (sw_lim sw)) → ttl_covers window (lim_opts (sw_lim sw)) → nondecreasing t0 reqs.*1.*1 →
  ∃ rs sw', requests sw reqs = Some (rs, sw') ∧ length rs = length reqs ∧
    let served := servedFor key reqs rs in
    Z.of_nat (length (SlidingWindow.within window a
      (SlidingWindow.granted served.*1 served.*2))) <= limit.
Proof.
  intros Hw Hnew Hev Httl Hm. apply new_window in Hnew as (Hl & Hw0 & o & Ho & ->).
  destruct (new_lives SlidingWindow.newWindow (SlidingWindow.recordAndDecide limit window)
    o reqs key t0) as (rs & l' & Hs & Hlen & Hlv);
    [by eapply Options.buildOptions_ok|done|apply window_no_error|done|].
  exists rs, (mkSlidingWindow limit window l'). rewrite window_requests, Hs. split_and!; [done|done|].
  intros served. fold served in Hlv. destruct (served.*1) as [|first rest] eqn:Hf; [simpl; lia|].
  pose proof (served_nondecreasing t0 key reqs rs first rest Hm Hf) as Hn. rewrite <- Hf in Hn |- *.
  apply (window_lives_quota limit window o [] (SlidingWindow.newWindow first) first a).
  - done.
  - done.
  - exact Httl.
  - by eapply Lifetimes.lives_known.
  - by apply SlidingWindow.newWindow_tracks.
  - constructor.
  - exact Hn.
  - simpl. lia.
Qed.

Lemma memory_sliding_window_quota_witness :
  ∃ rs sw', requests expiringSlidingWindow (expiringRequests SlidingWindow.windowState) = Some (rs, sw') ∧ length rs = 6%nat ∧
    let served := servedFor "a" (expiringRequests SlidingWindow.windowState) rs in
    Z.of_nat (length (SlidingWindow.within GoTime.Second (-1) (SlidingWindow.granted served.*1 served.*2))) <= 2.
Proof.
  destruct (memory_sliding_window_quota 2 GoTime.Second expiring expiringSlidingWindow 0
    (expiringRequests SlidingWindow.windowState) "a"%string (-1)) as (rs & sw' & Hs & Hl & Hq).
  - unfold GoTime.Second, int64_max. lia.
  - vm_compute. reflexivity.
  - left. simpl. lia.
  - right. simpl. unfold GoTime.Second. lia.
  - simpl. unfold GoTime.Second. lia.
  - exists rs, sw'. split_and!; [exact Hs|exact Hl|exact Hq].
Defined.

(** ** The contract of a call *)

Lemma window_ok_later limit t t' st :
  SlidingWindow.window_ok limit t st → t <= t' → SlidingWindow.window_ok limit t' st.
Proof.
  intros [H1 H2 H3 H4] Ht. constructor; [done| |done|done].
  eapply Forall_impl; [exact H2|]. simpl. lia.
Qed.

(** What holds of a limiter of the package after a run: the configuration is
    unchanged and the keys are counted exactly and bounded. *)
Definition keys_ok {T} (o : Options.options) (l : limiter (Store.shardedStore T)) : Prop :=
  lim_opts l = o ∧
  Store.len (lim_store l) = Z.of_nat (size (StoreSpec.abs (lim_store l))) ∧
  (0 < Options.maxKeys o → Store.len (lim_store l) <= Options.maxKeys o).

Lemma new_contract {T} (create : Time → T) decide o (P : T → Time → Prop) t0 (reqs : list (env T * string)) :
  Options.options_ok o →
  (∀ now, P (create now) now) → (∀ v t t', P v t → t <= t' → P v t') →
  (∀ v t now, P v t → t <= now → ∃ v' r, decide v now = (v', (r, None)) ∧ P v' now ∧ result_ok r) →
  nondecreasing t0 reqs.*1.*1 →
  ∃ rs l', serve (create := create) decide (mkLimiter o (Store.newShardedStore o) []) reqs = Some (rs, l') ∧
    keys_ok o l' ∧
    map_Forall (fun _ v => P v.1 (final t0 reqs.*1.*1)) (StoreSpec.abs (lim_store l')) ∧
    Forall2 (fun req r => call_ok (o := o) req.2 r) reqs rs.
Proof.
  intros Ho H1 H2 H3 Hm. destruct (newStore_ok (T := T) o Ho) as [Hok Habs].
  destruct (serve_invariant (o := o) (laws := sharded_laws create o) decide P H1 H2 H3
    (mkLimiter o (Store.newShardedStore o) []) reqs t0) as (rs & l' & Hs & [Hl Hst] & Hstates & Hc).
  - split; [done|exact Hok].
  - unfold states_ok. cbn [lim_store].
    change (contents (Store.newShardedStore o)) with (StoreSpec.abs (Store.newShardedStore (T := T) o)).
    rewrite Habs. apply map_Forall_empty.
  - done.
  - exists rs, l'. split_and!; [done| |exact Hstates|exact Hc].
    pose proof (sharded_len o _ Hst) as Hlen. split_and!; [done|done|].
    rewrite Hlen. by apply (sharded_max o).
Qed.

(** All calls of a token bucket limiter. *)
Lemma token_calls_ok `{GoArch} capacity rate opts tb t0 reqs :
  F64.valid capacity = true → F64.valid rate = true → fval capacity < 2 ^ 53 * unit_sc →
  NewTokenBucket capacity rate opts = Returns tb → nondecreasing t0 reqs.*1.*1 →
  let o := lim_opts (tb_lim tb) in
  ∃ rs tb', requests tb reqs = Some (rs, tb') ∧ keys_ok o (tb_lim tb') ∧
    map_Forall (fun _ v => TokenBucket.bucket_ok capacity v.1) (StoreSpec.abs (lim_store (tb_lim tb'))) ∧
    Forall2 (fun req r => call_ok (o := o) req.2 r) reqs rs.
Proof.
  intros Hcv Hrv Hc Hnew Hm. apply (new_token _ _ _ _ Hcv Hrv) in Hnew as (Hp & o & Ho & ->).
  destruct (new_contract (TokenBucket.newBucket capacity) (TokenBucket.refillAndDecide capacity rate) o
    (fun b t => TokenBucket.bucket_ok capacity b ∧ TokenBucket.lastRefilled b <= t) t0 reqs)
    as (rs & l' & Hs & Hk & Hst & Hcalls).
  - by eapply Options.buildOptions_ok.
  - intros now. split; [by eapply TokenBucket.newBucket_ok|simpl; lia].
  - intros v t t' [? ?] ?. split; [done|lia].
  - intros v t now [Hb Hl] Ht.
    destruct (TokenBucket.decide_ok capacity rate Hp Hc v now Hb ltac:(lia)) as (b' & r & -> & Hb' & Hl' & Hr).
    exists b', r. split_and!; [done|done|lia|done].
  - done.
  - exists rs, (mkTokenBucket capacity rate l'). rewrite token_requests, Hs. split_and!; [done|done| |done].
    eapply map_Forall_impl; [exact Hst|]. simpl. tauto.
Qed.

(** C15: the token bucket limiter with a capacity below 2^53, under any options
    (TTL, key limit, rejection or eviction) and any clock that never goes back:
    every call returns; every result is well-formed; the only errors are
    [ErrInvalidKey] for blank keys and [ErrMaxKeysExceeded] from a rejecting
    store; the number of keys is counted exactly and never exceeds
    [maxKeys]; and every stored bucket stays between empty and full. *)
Theorem memory_token_bucket_contract `{GoArch} capacity rate opts tb t0 reqs :
  F64.valid capacity = true → F64.valid rate = true → fval capacity < 2 ^ 53 * unit_sc →
  NewTokenBucket capacity rate opts = Returns tb → nondecreasing t0 reqs.*1.*1 →
  let o := lim_opts (tb_lim tb) in
  ∃ rs tb', requests tb reqs = Some (rs, tb') ∧ keys_ok o (tb_lim tb') ∧
    map_Forall (fun _ v => TokenBucket.bucket_ok capacity v.1) (StoreSpec.abs (lim_store (tb_lim tb'))) ∧
    Forall2 (fun req r => call_ok (o := o) req.2 r) reqs rs.
Proof. apply token_calls_ok. Qed.

Lemma memory_token_bucket_contract_witness :
  ∃ rs tb', requests (Limiter0 := TokenBucket_Allow (H := amd64)) exampleTokenBucket
      [((0, anyOrder), "a"); ((0, anyOrder), ""); ((5, anyOrder), "a")]%string = Some (rs, tb') ∧
    keys_ok Options.defaultOptions (tb_lim tb').
Proof.
  destruct (memory_token_bucket_contract (H := amd64) (F64.of_int 2) (F64.of_int 1) [] exampleTokenBucket 0
    [((0, anyOrder), "a"); ((0, anyOrder), ""); ((5, anyOrder), "a")]%string)
    as (rs & tb' & Hs & Hk & _).
  - vm_compute. reflexivity.
  - vm_compute. reflexivity.
  - apply (Numeric.int_params_ok 2 1); lia.
  - vm_compute. reflexivity.
  - simpl. lia.
  - exists rs, tb'. split; [exact Hs|exact Hk].
Defined.

(** The same contract for the leaky bucket limiter. *)
Theorem memory_leaky_bucket_contract `{GoArch} capacity rate opts lb t0 reqs :
  F64.valid capacity = true → F64.valid rate = true → fval capacity < 2 ^ 53 * unit_sc →
  NewLeakyBucket capacity rate opts = Returns lb → nondecreasing t0 reqs.*1.*1 →
  let o := lim_opts (lb_lim lb) in
  ∃ rs lb', requests lb reqs = Some (rs, lb') ∧ keys_ok o (lb_lim lb') ∧
    map_Forall (fun _ v => LeakyBucket.leaky_ok capacity v.1) (StoreSpec.abs (lim_store (lb_lim lb'))) ∧
    Forall2 (fun req r => call_ok (o := o) req.2 r) reqs rs.
Proof.
  intros Hcv Hrv Hc Hnew Hm. apply (new_leaky _ _ _ _ Hcv Hrv) in Hnew as (Hp & o & Ho & ->).
  destruct (new_contract LeakyBucket.newLeaky (LeakyBucket.leakAndDecide capacity rate) o
    (fun b t => LeakyBucket.leaky_ok capacity b ∧ LeakyBucket.lastLeak b <= t) t0 reqs)
    as (rs & l' & Hs & Hk & Hst & Hcalls).
  - by eapply Options.buildOptions_ok.
  - intros now. split; [by eapply LeakyBucket.newLeaky_ok|simpl; lia].
  - intros v t t' [? ?] ?. split; [done|lia].
  - intros v t now [Hb Hl] Ht.
    destruct (LeakyBucket.leaky_decide_ok capacity rate Hp Hc v now Hb ltac:(lia))
      as (b' & r & -> & Hb' & Hl' & Hr & _).
    exists b', r. split_and!; [done|done|lia|done].
  - done.
  - exists rs, (mkLeakyBucket capacity rate l'). rewrite leaky_requests, Hs. split_and!; [done|done| |done].
    eapply map_Forall_impl; [exact Hst|]. simpl. tauto.
Qed.

Lemma memory_leaky_bucket_contract_witness :
  ∃ rs lb', requests (Limiter0 := LeakyBucket_Allow (H := amd64)) exampleLeakyBucket
      [((0, anyOrder), "a"); ((0, anyOrder), ""); ((5, anyOrder), "a")]%string = Some (rs, lb') ∧
    keys_ok Options.defaultOptions (lb_lim lb').
Proof.
  destruct (memory_leaky_bucket_contract (H := amd64) (F64.of_int 2) (F64.of_int 1) [] exampleLeakyBucket 0
    [((0, anyOrder), "a"); ((0, anyOrder), ""); ((5, anyOrder), "a")]%string)
    as (rs & lb' & Hs & Hk & _).
  - vm_compute. reflexivity.
  - vm_compute. reflexivity.
  - apply (Numeric.int_params_ok 2 1); lia.
  - vm_compute. reflexivity.
  - simpl. lia.
  - exists rs, lb'. split; [exact Hs|exact Hk].
Defined.

(** The same contract for the sliding window limiter; every stored log is
    sorted and holds at most [limit] instants. *)
Theorem memory_sliding_window_contract limit window opts sw t0 reqs :
  window <= int64_max → NewSlidingWindow limit window opts = Returns sw → nondecreasing t0 reqs.*1.*1 →
  let o := lim_opts (sw_lim sw) in
  ∃ rs sw', requests sw reqs = Some (rs, sw') ∧ keys_ok o (sw_lim sw') ∧
    map_Forall (fun _ v => SlidingWindow.window_ok limit (final t0 reqs.*1.*1) v.1)
      (StoreSpec.abs (lim_store (sw_lim sw'))) ∧
    Forall2 (fun req r => call_ok (o := o) req.2 r) reqs rs.
Proof.
  intros Hw Hnew Hm. apply new_window in Hnew as (Hl & Hw0 & o & Ho & ->).
  destruct (new_contract SlidingWindow.newWindow (SlidingWindow.recordAndDecide limit window) o
    (fun st t => SlidingWindow.window_ok limit t st) t0 reqs) as (rs & l' & Hs & Hk & Hst & Hcalls).
  - by eapply Options.buildOptions_ok.
  - intros now. by apply SlidingWindow.newWindow_ok.
  - intros v t t' ? ?. by eapply window_ok_later.
  - intros v t now Hok Ht.
    destruct (SlidingWindow.tracks_step limit window Hl (conj Hw0 Hw) (SlidingWindow.logs v) t v now)
      as (st' & r & Hd & _ & _ & Hr & [Hok' _]); [by split|done|].
    exists st', r. done.
  - done.
  - exists rs, (mkSlidingWindow limit window l'). rewrite window_requests, Hs. done.
Qed.

Lemma memory_sliding_window_contract_witness :
  ∃ rs sw', requests exampleSlidingWindow
      [((0, anyOrder), "a"); ((0, anyOrder), ""); ((5, anyOrder), "a")]%string = Some (rs, sw') ∧
    keys_ok (Options.WithMaxKeys 5 Options.defaultOptions) (sw_lim sw').
Proof.
  destruct (memory_sliding_window_contract 2 100 [Options.WithMaxKeys 5] exampleSlidingWindow 0
    [((0, anyOrder), "a"); ((0, anyOrder), ""); ((5, anyOrder), "a")]%string)
    as (rs & sw' & Hs & Hk & _).
  - unfold int64_max. lia.
  - vm_compute. reflexivity.
  - simpl. lia.
  - exists rs, sw'. split; [exact Hs|exact Hk].
Defined.

(** ** Constructors and events *)

(** The constructors of the bucket limiters return exactly when the capacity is
    finite and at least one, the rate finite and positive, and the options
    valid (sizes and durations not negative, a clock, a known eviction policy,
    a power of two of at most 1024 shards); otherwise they panic.  The sliding
    window's requires a positive limit and window instead. *)
Theorem memory_constructors_guard capacity rate limit window opts :
  F64.valid capacity = true → F64.valid rate = true →
  let o := Options.applyDefaults (foldl (fun o opt => opt o) Options.defaultOptions opts) in
  ((∃ tb, NewTokenBucket capacity rate opts = Returns tb) ↔
     Numeric.params_ok capacity rate ∧ Options.options_ok o) ∧
  ((∃ lb, NewLeakyBucket capacity rate opts = Returns lb) ↔
     Numeric.params_ok capacity rate ∧ Options.options_ok o) ∧
  ((∃ sw, NewSlidingWindow limit window opts = Returns sw) ↔
     0 < limit ∧ 0 < window ∧ Options.options_ok o).
Proof.
  intros Hc Hr o.
  assert ((∃ o', Options.buildOptions opts = Returns o') ↔ Options.options_ok o) as Ho.
  { rewrite <- Options.validate_ok. unfold Options.buildOptions. fold o.
    destruct (Options.validate o) as [[]|]; naive_solver. }
  rewrite <- Ho. split_and!.
  - setoid_rewrite (new_token capacity rate opts _ Hc Hr). naive_solver.
  - setoid_rewrite (new_leaky capacity rate opts _ Hc Hr). naive_solver.
  - setoid_rewrite (new_window limit window opts). naive_solver.
Qed.

Lemma memory_constructors_guard_witness :
  ∃ tb, NewTokenBucket (F64.of_int 2) (F64.of_int 1) [] = Returns tb.
Proof.
  apply (memory_constructors_guard (F64.of_int 2) (F64.of_int 1) 1 1 []).
  - vm_compute. reflexivity.
  - vm_compute. reflexivity.
  - split; [apply Numeric.int_params_ok; lia|]. apply Options.validate_ok. reflexivity.
Defined.

(** What the metric sink sees of one call, over any store that obeys the
    interface: nothing without a sink; [OnError] alone for a blank key, whose
    call leaves the store untouched; otherwise the outcome, the exact number
    of keys, and one [OnEvict] per eviction not yet reported, after which none
    is pending. *)
Theorem memory_events {E T S} {create : Time → T} {store : StateStore E T S create} {o}
    {laws : StateStoreLaws store o} decide env (l : limiter S) key :
  limiter_ok (o := o) l →
  ∃ r l', allow decide env l key = Some (r, l') ∧ limiter_ok (o := o) l' ∧
    match Options.sink o with
    | None => lim_trace l' = lim_trace l
    | Some _ =>
        match KeyValidation.validateKey key with
        | Some err =>
            lim_store l' = lim_store l ∧ r = (zeroResult, Some err) ∧
            lim_trace l' = lim_trace l ++ [OnError TierSingle err]
        | None =>
            ∃ victim, pending (lim_store l') = 0 ∧
              lim_trace l' = lim_trace l ++ outcomeEvent r
                :: SetKeys TierSingle (Z.of_nat (size (contents (lim_store l'))))
                :: replicate (Z.to_nat (pending (lim_store l) + StoreSpec.victim_count victim))
                     (OnEvict TierSingle)
        end
    end.
Proof.
  intros [Ho Hs]. unfold allow. rewrite Ho. destruct (KeyValidation.validateKey key) as [err|].
  { do 2 eexists. split_and!; [done|done|]. by destruct (Options.sink o). }
  destruct (law_withState env.2 (lim_store l) key env.1 decide Hs) as (r & s' & victim & -> & Hs' & Hp & _).
  destruct (report_spec r s' (lim_trace l) Hs') as (Hok & Hc & Htr).
  do 2 eexists. split_and!; [done|done|]. destruct (Options.sink o); [|apply Htr].
  destruct Htr as [Hp0 ->]. exists victim. rewrite Hc, Hp. done.
Qed.

Lemma memory_events_witness :
  let o := Options.WithMetricSink (Some 0%nat) Options.defaultOptions in
  let l := mkLimiter o (Store.newShardedStore o) [] in
  ∃ r l', allow (create := SlidingWindow.newWindow) (SlidingWindow.recordAndDecide 1 100)
            (7, anyOrder) l " "%string = Some (r, l') ∧
    lim_trace l' = [OnError TierSingle KeyValidation.ErrInvalidKey].
Proof.
  intros o l.
  destruct (memory_events (laws := sharded_laws SlidingWindow.newWindow o)
    (SlidingWindow.recordAndDecide 1 100) (7, anyOrder) l " "%string) as (r & l' & Ha & _ & Htr).
  - split; [reflexivity|]. apply newStore_ok. apply Options.validate_ok. reflexivity.
  - exists r, l'. split; [exact Ha|]. apply Htr.
Defined.

End MemoryProps.
