(* ===== verification/Layered.v ===== *)
(** * Layered: layered/limiter.go and layered/key_validation.go

    The two-tier limiter over any two implementations of the [Limiter]
    interface: a local layer that may deny on its own, and a remote layer that
    decides everything else.  The theorems are proved for every pair of
    layers; they show that the combination never allows what the remote layer
    did not, and touches the remote layer exactly when the documentation says. *)

From Stdlib Require Import ZArith Lia Bool.
From stdpp Require Import base strings list.
From S2P Require Import Prelude Core GoString.

#[local] Open Scope Z_scope.

Module Layered.

Definition ErrInvalidKey : error := ErrorNew "layered: invalid key".

Definition validateKey (key : string) : option error :=
  if bool_decide (GoString.TrimSpace key = EmptyString) then Some ErrInvalidKey else None.

Section Layered.
Context {EL SL ER SR : Type} {local_limiter : Limiter EL SL} {remote_limiter : Limiter ER SR}.

(** The two layers' states, the sink, and the calls it received. *)
Record layered := mkLayered {
  ll_local : SL;
  ll_remote : SR;
  ll_sink : option nat;
  ll_trace : list MetricEvent
}.

Definition Option : Type := option nat → option nat.
Definition WithMetricSink (sink : option nat) : Option := fun _ => sink.

(** Either layer may be nil. *)
Definition New (local : option SL) (remote : option SR) (opts : list Option) : outcome layered :=
  match local, remote with
  | None, _ => Panics "layered: local limiter must not be nil"
  | _, None => Panics "layered: remote limiter must not be nil"
  | Some l, Some r => Returns (mkLayered l r (foldl (fun o opt => opt o) None opts) [])
  end.

Definition emit (l : layered) (tier : string) (result : Result) : layered :=
  match ll_sink l with
  | None => l
  | Some _ =>
      mkLayered (ll_local l) (ll_remote l) (ll_sink l)
        (ll_trace l ++ [if Allowed result then OnAllowed tier result else OnRejected tier result])
  end.

Definition emitError (l : layered) (tier : string) (err : error) : layered :=
  match ll_sink l with
  | None => l
  | Some _ =>
      mkLayered (ll_local l) (ll_remote l) (ll_sink l) (ll_trace l ++ [OnError tier err])
  end.

Definition setLocal (l : layered) (s : SL) : layered :=
  mkLayered s (ll_remote l) (ll_sink l) (ll_trace l).
Definition setRemote (l : layered) (s : SR) : layered :=
  mkLayered (ll_local l) s (ll_sink l) (ll_trace l).

Definition remoteAllow (e : ER) (l : layered) (key : string)
    : option ((Result * option error) * layered) :=
  match Allow e (ll_remote l) key with
  | None => None
  | Some ((remoteResult, Some err), s) =>
      Some ((remoteResult, Some err), emitError (setRemote l s) TierRemote err)
  | Some ((remoteResult, None), s) =>
      Some ((remoteResult, None), emit (setRemote l s) TierRemote remoteResult)
  end.

#[export] Instance Layered_Allow : Limiter (EL * ER) layered :=
  fun e l key =>
    match validateKey key with
    | Some err => Some ((zeroResult, Some err), emitError l TierSingle err)
    | None =>
        match Allow e.1 (ll_local l) key with
        | None => None
        | Some ((localResult, Some err), s) =>
            remoteAllow e.2 (emitError (setLocal l s) TierLocal err) key
        | Some ((localResult, None), s) =>
            if Allowed localResult then remoteAllow e.2 (setLocal l s) key
            else Some ((localResult, None), emit (setLocal l s) TierLocal localResult)
        end
    end.

(** ** Facts *)

Lemma validateKey_cases key :
  match validateKey key with
  | Some err => err = ErrInvalidKey ∧ GoString.Blank key
  | None => ¬ GoString.Blank key
  end.
Proof. unfold validateKey. case_bool_decide as Hb; by rewrite GoString.TrimSpace_empty_iff in Hb. Qed.

(** The events one report appends. *)
Definition reported (l : layered) (evs : list MetricEvent) : list MetricEvent :=
  match ll_sink l with None => [] | Some _ => evs end.

Definition resultEvent (tier : string) (r : Result) : MetricEvent :=
  if Allowed r then OnAllowed tier r else OnRejected tier r.

Definition outcomeEvent (tier : string) (r : Result * option error) : MetricEvent :=
  match r.2 with Some err => OnError tier err | None => resultEvent tier r.1 end.

Lemma remoteAllow_spec e l key r s :
  Allow e (ll_remote l) key = Some (r, s) →
  remoteAllow e l key =
    Some (r, mkLayered (ll_local l) s (ll_sink l)
               (ll_trace l ++ reported l [outcomeEvent TierRemote r])).
Proof.
  intros Ha. unfold remoteAllow. rewrite Ha. destruct l as [sl sr [k|] tr], r as [res [err|]];
    unfold emit, emitError, reported, setRemote; simpl; rewrite ?app_nil_r; done.
Qed.

(** A layer whose calls return in every state that satisfies [I], and keep
    it. *)
Definition answers {E S} `{!Limiter E S} (I : S → Prop) : Prop :=
  ∀ s e key, I s → ∃ r s', Allow e s key = Some (r, s') ∧ I s'.

(** The outcome of one call of the combination, from the outcomes of the
    layers' calls. *)
Inductive layered_step (e : EL * ER) (key : string) (l : layered)
  : Result * option error → layered → Prop :=
| step_blank :
    GoString.Blank key →
    layered_step e key l (zeroResult, Some ErrInvalidKey)
      (mkLayered (ll_local l) (ll_remote l) (ll_sink l)
         (ll_trace l ++ reported l [OnError TierSingle ErrInvalidKey]))
| step_local_denied lr sl :
    ¬ GoString.Blank key → Allow e.1 (ll_local l) key = Some ((lr, None), sl) → Allowed lr = false →
    layered_step e key l (lr, None)
      (mkLayered sl (ll_remote l) (ll_sink l) (ll_trace l ++ reported l [OnRejected TierLocal lr]))
| step_local_allowed lr sl r sr :
    ¬ GoString.Blank key → Allow e.1 (ll_local l) key = Some ((lr, None), sl) → Allowed lr = true →
    Allow e.2 (ll_remote l) key = Some (r, sr) →
    layered_step e key l r
      (mkLayered sl sr (ll_sink l) (ll_trace l ++ reported l [outcomeEvent TierRemote r]))
| step_local_error lr err sl r sr :
    ¬ GoString.Blank key → Allow e.1 (ll_local l) key = Some ((lr, Some err), sl) →
    Allow e.2 (ll_remote l) key = Some (r, sr) →
    layered_step e key l r
      (mkLayered sl sr (ll_sink l)
         (ll_trace l ++ reported l [OnError TierLocal err; outcomeEvent TierRemote r])).

Lemma emitError_eq l tier err :
  emitError l tier err =
  mkLayered (ll_local l) (ll_remote l) (ll_sink l) (ll_trace l ++ reported l [OnError tier err]).
Proof. destruct l as [sl sr [k|] tr]; unfold emitError, reported; simpl; by rewrite ?app_nil_r. Qed.

Lemma emit_eq l tier r :
  emit l tier r =
  mkLayered (ll_local l) (ll_remote l) (ll_sink l) (ll_trace l ++ reported l [resultEvent tier r]).
Proof. destruct l as [sl sr [k|] tr]; unfold emit, reported; simpl; by rewrite ?app_nil_r. Qed.

Lemma reported_two l a b : reported l [a] ++ reported l [b] = reported l [a; b].
Proof. unfold reported. by destruct (ll_sink l). Qed.

Context (IL : SL → Prop) (IR : SR → Prop).
Hypotheses (HL : answers IL) (HR : answers IR).

Lemma allow_step e l key :
  IL (ll_local l) → IR (ll_remote l) →
  ∃ r l', Allow e l key = Some (r, l') ∧ layered_step e key l r l' ∧
    IL (ll_local l') ∧ IR (ll_remote l').
Proof.
  intros Il Ir. unfold Allow at 1, Layered_Allow. pose proof (validateKey_cases key) as Hk.
  destruct (validateKey key) as [err|].
  { destruct Hk as [-> Hb]. rewrite emitError_eq. do 2 eexists. split_and!; [done|by constructor|done|done]. }
  destruct (HL _ e.1 key Il) as ([lr [err|]] & sl & Hl & Il'); rewrite Hl;
    destruct (HR _ e.2 key Ir) as (r & sr & Hr & Ir').
  - rewrite emitError_eq. rewrite (remoteAllow_spec e.2 _ key r sr) by exact Hr. cbn [ll_local ll_sink ll_trace].
    do 2 eexists. split_and!; [done| |done|done]. rewrite <- app_assoc.
    change (reported (mkLayered _ _ _ _) [outcomeEvent TierRemote r])
      with (reported l [outcomeEvent TierRemote r]).
    change (reported (setLocal l sl) [OnError TierLocal err]) with (reported l [OnError TierLocal err]).
    rewrite reported_two. exact (step_local_error e key l lr err sl r sr Hk Hl Hr).
  - destruct (Allowed lr) eqn:Ea.
    + rewrite (remoteAllow_spec e.2 (setLocal l sl) key r sr) by exact Hr.
      do 2 eexists. split_and!; [done| |done|done]. exact (step_local_allowed e key l lr sl r sr Hk Hl Ea Hr).
    + rewrite emit_eq. do 2 eexists. split_and!; [done| |done|done].
      unfold resultEvent. rewrite Ea. exact (step_local_denied e key l lr sl Hk Hl Ea).
Qed.

(** ** Runs: the remote layer sees a subsequence of the requests, and what
    passes is exactly what it let pass *)

Definition passed (rs : list (Result * option error)) : list (Result * option error) :=
  filter (fun r => Allowed r.1 = true) rs.

Lemma step_remote e key l r l' :
  layered_step e key l r l' →
  ll_remote l' = ll_remote l ∧ Allowed r.1 = false ∨ Allow e.2 (ll_remote l) key = Some (r, ll_remote l').
Proof. intros []; simpl; auto. Qed.

Lemma run_remote l reqs :
  IL (ll_local l) → IR (ll_remote l) →
  ∃ rs l' rreqs rrs, requests l reqs = Some (rs, l') ∧
    sublist rreqs ((fun req => (req.1.2, req.2)) <$> reqs) ∧
    requests (ll_remote l) rreqs = Some (rrs, ll_remote l') ∧ passed rs = passed rrs.
Proof.
  revert l. induction reqs as [|[e key] reqs IH]; intros l Il Ir.
  { exists [], l, [], []. split_and!; [done|constructor|done|done]. }
  destruct (allow_step e l key Il Ir) as (r & l1 & Ha & Hstep & Il1 & Ir1).
  destruct (IH l1 Il1 Ir1) as (rs & l' & rreqs & rrs & Hrs & Hsub & Hrr & Hp).
  cbn [requests]. rewrite Ha, Hrs. rewrite fmap_cons. cbn [fst snd].
  destruct (step_remote _ _ _ _ _ Hstep) as [[Hsame Hden]|Hrem].
  - exists (r :: rs), l', rreqs, rrs. rewrite <- Hsame. split_and!; [done|by constructor|done|].
    unfold passed at 1. rewrite filter_cons, decide_False by by rewrite Hden. exact Hp.
  - exists (r :: rs), l', ((e.2, key) :: rreqs), (r :: rrs).
    split_and!; [done|by constructor|cbn [requests]; by rewrite Hrem, Hrr|].
    unfold passed. rewrite !filter_cons. by case_decide; [f_equal|].
Qed.

End Layered.
Arguments layered : clear implicits.
Arguments Option : clear implicits.

(** ** Properties *)

(** C18: the combination never exceeds the remote layer.  For any two layers whose
    calls return, any sequence of requests is answered; the remote layer
    serves a subsequence of it; and the requests that pass are exactly those
    the remote layer let pass, with its results. *)
Theorem layered_never_exceeds_remote {EL SL ER SR} `{!Limiter EL SL, !Limiter ER SR}
    (IL : SL → Prop) (IR : SR → Prop) (l : layered SL SR) reqs :
  answers (E := EL) IL → answers (E := ER) IR → IL (ll_local l) → IR (ll_remote l) →
  ∃ rs l' rreqs rrs, requests (E := EL * ER) l reqs = Some (rs, l') ∧
    sublist rreqs ((fun req => (req.1.2, req.2)) <$> reqs) ∧
    requests (E := ER) (ll_remote l) rreqs = Some (rrs, ll_remote l') ∧
    passed rs = passed rrs.
Proof. intros HL HR. by apply (run_remote IL IR). Qed.

(** A layer that answers every call with the same outcome and counts calls. *)
Definition scripted (r : Result * option error) : Limiter unit Z := fun _ n _ => Some (r, n + 1).

Lemma layered_never_exceeds_remote_witness :
  let l := mkLayered 0 0 None [] in
  let _ := scripted (mkResult true 5 0, None) in
  let remote := scripted (mkResult false 0 7, None) in
  ∃ rs l' rreqs rrs,
    requests (E := unit * unit) (Limiter0 := Layered_Allow (local_limiter := scripted (mkResult true 5 0, None))
      (remote_limiter := remote)) l [(((), ()), "a"); (((), ()), " ")]%string = Some (rs, l') ∧
    sublist rreqs [((), "a"); ((), " ")]%string ∧
    requests (Limiter0 := remote) 0 rreqs = Some (rrs, ll_remote l') ∧
    passed rs = passed rrs.
Proof.
  intros l loc remote.
  apply (layered_never_exceeds_remote (Limiter0 := scripted (mkResult true 5 0, None)) (Limiter1 := remote)
    (fun _ => True) (fun _ => True) l [(((), ()), "a"); (((), ()), " ")]%string).
  - intros s e key _. eexists _, _. split; [reflexivity|exact I].
  - intros s e key _. eexists _, _. split; [reflexivity|exact I].
  - exact I.
  - exact I.
Defined.

(** C32: one call, on every branch: a blank key consults neither layer; a local denial
    is returned as it is and leaves the remote layer alone; a local allowance
    or a local error hands the request to the remote layer, whose outcome,
    error included, is returned; the sink sees exactly the events of the tier
    that decided, and a swallowed local error. *)
Theorem layered_decision {EL SL ER SR} `{!Limiter EL SL, !Limiter ER SR}
    (IL : SL → Prop) (IR : SR → Prop) (l : layered SL SR) e key :
  answers (E := EL) IL → answers (E := ER) IR → IL (ll_local l) → IR (ll_remote l) →
  ∃ r l', Allow (E := EL * ER) e l key = Some (r, l') ∧ layered_step e key l r l'.
Proof.
  intros HL HR Il Ir. destruct (allow_step IL IR HL HR e l key Il Ir) as (r & l' & ? & ? & _). eauto.
Qed.

Lemma layered_decision_witness :
  let local := scripted (mkResult false 0 3, None) in
  let remote := scripted (mkResult true 9 0, None) in
  let l := mkLayered 0 0 (Some 1%nat) [] in
  ∃ r l', Layered_Allow (local_limiter := local) (remote_limiter := remote) ((), ()) l "a"%string
            = Some (r, l') ∧
    layered_step (local_limiter := local) (remote_limiter := remote) ((), ()) "a"%string l r l'.
Proof.
  intros local remote l.
  apply (layered_decision (Limiter0 := local) (Limiter1 := remote) (fun _ => True) (fun _ => True)).
  - intros s e key _. eexists _, _. split; [reflexivity|exact I].
  - intros s e key _. eexists _, _. split; [reflexivity|exact I].
  - exact I.
  - exact I.
Defined.

End Layered.
