(* ===== verification/Middleware.v ===== *)
(** * Middleware: the adapters under middleware/ (http, gin, echo, fiber)

    All four adapters turn a request into a call of a [Limiter] and act on the
    outcome: fail open or call the error handler, set the rate limit headers,
    call the denied handler or the next handler.  [serve] is that code, over
    the operations an adapter uses of its framework; the instances differ in
    the default key, in how a header is set, in the default denial, in what a
    handler returns, and in what the framework does when a handler returns
    without having called the rest of the chain: gin goes on with it, unless
    the context was aborted; in the other three the handler alone decides.
    net/http's part (canonical header names, the status line written once) is
    modelled; the operations of gin, echo and fiber are parameters, with the
    documented effect of gin's [AbortWithStatusJSON] as the class
    [GinAborts]. *)

From Stdlib Require Import ZArith Lia Bool Ascii.
From stdpp Require Import base gmap strings list pretty.
From S2P Require Import Prelude Float64 FloatFacts GoTime Core.

#[local] Open Scope Z_scope.

Module Middleware.

Definition StatusTooManyRequests : Z := 429.

(** [retryAfterSeconds], the same in the four packages. *)
Definition retryAfterSeconds `{GoArch} (d : Duration) : Z :=
  let seconds := int64_of_float (F64.ceil (GoTime.Seconds d)) in
  if seconds <? 1 then 1 else seconds.

(** What an adapter uses of its framework.  [C] is everything a handler may
    change (the response, the context), [R] what a handler returns. *)
Record adapter (C R : Type) := mkAdapter {
  packageName : string;
  defaultKey : C → string;
  setHeader : string → string → C → C;
  defaultDenied : C → C;
  returned : R;  (** the value of a bare [return], or [nil] *)
  resumes : C → bool  (** the framework runs the rest of the chain by itself *)
}.
Arguments packageName {C R} _.
Arguments defaultKey {C R} _ _.
Arguments setHeader {C R} _ _ _ _.
Arguments defaultDenied {C R} _ _.
Arguments returned {C R} _.
Arguments resumes {C R} _ _.

(** net/http's [Config]; a nil field is [None]. *)
Record Config (S C : Type) := mkConfig {
  cfg_Limiter : option S;
  KeyFunc : option (C → string);
  DeniedHandler : option (Result → C → C);
  ErrorHandler : option (error → C → C);
  DisableHeaders : bool
}.
Arguments mkConfig {S C} _ _ _ _ _.
Arguments cfg_Limiter {S C} _.
Arguments KeyFunc {S C} _.
Arguments DeniedHandler {S C} _.
Arguments ErrorHandler {S C} _.
Arguments DisableHeaders {S C} _.

(** The [Config] of gin, echo and fiber, whose denied handler does not receive
    the result (gin's deprecated field [Headers] is not read by the code). *)
Record FrameworkConfig (S C : Type) := mkFrameworkConfig {
  fc_Limiter : option S;
  fc_KeyFunc : option (C → string);
  fc_DeniedHandler : option (C → C);
  fc_ErrorHandler : option (error → C → C);
  fc_DisableHeaders : bool
}.
Arguments mkFrameworkConfig {S C} _ _ _ _ _.
Arguments fc_Limiter {S C} _.
Arguments fc_KeyFunc {S C} _.
Arguments fc_DeniedHandler {S C} _.
Arguments fc_ErrorHandler {S C} _.
Arguments fc_DisableHeaders {S C} _.

Definition lift {S C} (cfg : FrameworkConfig S C) : Config S C :=
  mkConfig (fc_Limiter cfg) (fc_KeyFunc cfg) ((fun h _ => h) <$> fc_DeniedHandler cfg)
    (fc_ErrorHandler cfg) (fc_DisableHeaders cfg).

Section Serve.
Context `{GoArch} {E S C R : Type} `{!Limiter E S}.

(** The header block. *)
Definition writeHeaders (a : adapter C R) (cfg : Config S C) (result : Result) (c : C) : C :=
  if DisableHeaders cfg then c
  else
    let c := setHeader a "X-RateLimit-Remaining" (pretty (Remaining result)) c in
    if negb (Allowed result) && (0 <? RetryAfter result)
    then setHeader a "Retry-After" (pretty (retryAfterSeconds (RetryAfter result))) c
    else c.

(** A handler returns without having called the rest of the chain. *)
Definition leave (a : adapter C R) (next : C → C * R) (c : C) : C * R :=
  if resumes a c then next c else (c, returned a).

(** The handler: [next] is the rest of the chain. *)
Definition serve (a : adapter C R) (cfg : Config S C) (next : C → C * R) (e : E) (l : S) (c : C)
    : option ((C * R) * S) :=
  let key := default (defaultKey a) (KeyFunc cfg) c in
  match Allow e l key with
  | None => None
  | Some ((result, Some err), l') =>
      match ErrorHandler cfg with
      | Some h => Some (leave a next (h err c), l')
      | None => Some (next c, l')
      end
  | Some ((result, None), l') =>
      let c := writeHeaders a cfg result c in
      if Allowed result then Some (next c, l')
      else
        let denied := default (fun _ => defaultDenied a) (DeniedHandler cfg) in
        Some (leave a next (denied result c), l')
  end.

(** The constructor of the middleware: the guard, and the handler with the
    limiter's state. *)
Definition newMiddleware (a : adapter C R) (cfg : Config S C)
    : outcome (((C → C * R) → E → S → C → option ((C * R) * S)) * S) :=
  match cfg_Limiter cfg with
  | None => Panics (packageName a +:+ " middleware: limiter must not be nil")
  | Some l => Returns (serve a cfg, l)
  end.
End Serve.

(** ** net/http *)

(** [textproto.CanonicalMIMEHeaderKey] on a header name made of token
    characters: upper case at the start and after a hyphen, else lower. *)
Definition upper (c : ascii) : ascii :=
  let n := nat_of_ascii c in
  if (Nat.leb 97 n && Nat.leb n 122)%bool then ascii_of_nat (n - 32) else c.
Definition lower (c : ascii) : ascii :=
  let n := nat_of_ascii c in
  if (Nat.leb 65 n && Nat.leb n 90)%bool then ascii_of_nat (n + 32) else c.
Fixpoint canonicalFrom (up : bool) (s : string) : string :=
  match s with
  | EmptyString => EmptyString
  | String c s =>
      String (if up then upper c else lower c) (canonicalFrom (Ascii.eqb c "-") s)
  end.
Definition canonical (s : string) : string := canonicalFrom true s.

(** Bodies: a JSON object written by [json.Encoder.Encode], or text. *)
Inductive bodyPart :=
| JSONObject (fields : list (string * string))
| Text (s : string).

Record Response := mkResponse {
  Header : gmap string string;
  Status : option Z;   (** written at most once *)
  Body : list bodyPart
}.

(** The request, as far as the code reads it ([r.RemoteAddr], [r.URL.Path]),
    with its response writer. *)
Record exchange := mkExchange { RemoteAddr : string; Path : string; resp : Response }.

Definition withResp (c : exchange) (r : Response) : exchange := mkExchange (RemoteAddr c) (Path c) r.

(** [w.Header().Set(k, v)]; [Header] is what is sent, which no longer changes
    once the status line is written. *)
Definition httpSetHeader (k v : string) (c : exchange) : exchange :=
  match Status (resp c) with
  | Some _ => c
  | None => withResp c (mkResponse (<[canonical k := v]> (Header (resp c))) None (Body (resp c)))
  end.

(** [WriteHeader]: later calls have no effect. *)
Definition httpWriteHeader (code : Z) (c : exchange) : exchange :=
  match Status (resp c) with
  | Some _ => c
  | None => withResp c (mkResponse (Header (resp c)) (Some code) (Body (resp c)))
  end.

Definition httpEncodeJSON (fields : list (string * string)) (c : exchange) : exchange :=
  withResp c (mkResponse (Header (resp c)) (Some (default 200 (Status (resp c))))
    (Body (resp c) ++ [JSONObject fields])).

(** [w.Header().Del(k)]. *)
Definition httpDelHeader (k : string) (c : exchange) : exchange :=
  match Status (resp c) with
  | Some _ => c
  | None => withResp c (mkResponse (delete (canonical k) (Header (resp c))) None (Body (resp c)))
  end.

Definition httpWrite (text : string) (c : exchange) : exchange :=
  withResp c (mkResponse (Header (resp c)) (Some (default 200 (Status (resp c))))
    (Body (resp c) ++ [Text text])).

(** [http.Error]. *)
Definition httpError (msg : string) (code : Z) (c : exchange) : exchange :=
  let c := httpDelHeader "Content-Length" c in
  let c := httpSetHeader "Content-Type" "text/plain; charset=utf-8" c in
  let c := httpSetHeader "X-Content-Type-Options" "nosniff" c in
  let c := httpWriteHeader code c in
  httpWrite (msg +:+ String (ascii_of_nat 10) EmptyString) c.

Definition httpDenied (c : exchange) : exchange :=
  let c := httpSetHeader "Content-Type" "application/json" c in
  let c := httpWriteHeader StatusTooManyRequests c in
  httpEncodeJSON [("error", "too many requests")]%string c.

Definition httpAdapter : adapter exchange unit :=
  mkAdapter _ _ "http" RemoteAddr httpSetHeader httpDenied tt (fun _ => false).

Definition httpMiddleware `{GoArch} {E S} `{!Limiter E S} (cfg : Config S exchange) :=
  newMiddleware httpAdapter cfg.

(** ** gin, echo and fiber *)

Section Frameworks.
(** What gin's [*gin.Context], echo's [Context] and fiber's [*Ctx] offer. *)
Context {GinCtx EchoCtx FiberCtx : Type}.
Context (ClientIP : GinCtx → string) (ginHeader : string → string → GinCtx → GinCtx)
        (AbortWithStatusJSON : Z → list (string * string) → GinCtx → GinCtx) (IsAborted : GinCtx → bool).
Context (RealIP : EchoCtx → string) (echoSetHeader : string → string → EchoCtx → EchoCtx)
        (echoJSON : Z → list (string * string) → EchoCtx → EchoCtx).
Context (IP : FiberCtx → string) (fiberSet : string → string → FiberCtx → FiberCtx)
        (fiberStatus : Z → FiberCtx → FiberCtx) (fiberJSON : list (string * string) → FiberCtx → FiberCtx).

(** The defaults each constructor fills in. *)
Definition ginAdapter : adapter GinCtx unit :=
  mkAdapter _ _ "gin" ClientIP ginHeader
    (AbortWithStatusJSON StatusTooManyRequests [("error", "too many requests")]%string) tt
    (fun c => negb (IsAborted c)).

Definition echoAdapter : adapter EchoCtx (option error) :=
  mkAdapter _ _ "echo" RealIP echoSetHeader
    (echoJSON StatusTooManyRequests [("error", "too many requests")]%string) None (fun _ => false).

Definition fiberAdapter : adapter FiberCtx (option error) :=
  mkAdapter _ _ "fiber" IP fiberSet
    (fun c => fiberJSON [("error", "too many requests")]%string (fiberStatus StatusTooManyRequests c)) None
    (fun _ => false).

(** The constructors. *)
Context `{GoArch} {E S : Type} `{!Limiter E S}.

Definition ginMiddleware (cfg : FrameworkConfig S GinCtx) := newMiddleware ginAdapter (lift cfg).
Definition echoMiddleware (cfg : FrameworkConfig S EchoCtx) := newMiddleware echoAdapter (lift cfg).
Definition fiberMiddleware (cfg : FrameworkConfig S FiberCtx) := newMiddleware fiberAdapter (lift cfg).

(** "Abort prevents pending handlers from being called"; AbortWithStatusJSON
    "calls Abort and then JSON internally". *)
Class GinAborts := aborts code body c : IsAborted (AbortWithStatusJSON code body c) = true.
End Frameworks.

(** ** Requests that stop at the adapter *)

(** After its denied handler, and after its error handler, the request goes no
    further. *)
Definition stops {S C R} (a : adapter C R) (cfg : Config S C) : Prop :=
  (∀ r c, resumes a (default (fun _ => defaultDenied a) (DeniedHandler cfg) r c) = false) ∧
  (∀ h, ErrorHandler cfg = Some h → ∀ err c, resumes a (h err c) = false).

(** The four adapters, each with a configuration that its package accepts.  A
    handler of gin's that is not the default one must abort. *)
Section Adapters.
Context {GinCtx EchoCtx FiberCtx : Type}.
Context (ClientIP : GinCtx → string) (ginHeader : string → string → GinCtx → GinCtx)
        (AbortWithStatusJSON : Z → list (string * string) → GinCtx → GinCtx) (IsAborted : GinCtx → bool).
Context (RealIP : EchoCtx → string) (echoSetHeader : string → string → EchoCtx → EchoCtx)
        (echoJSON : Z → list (string * string) → EchoCtx → EchoCtx).
Context (IP : FiberCtx → string) (fiberSet : string → string → FiberCtx → FiberCtx)
        (fiberStatus : Z → FiberCtx → FiberCtx) (fiberJSON : list (string * string) → FiberCtx → FiberCtx).

Definition ginHandlersAbort {S} (cfg : FrameworkConfig S GinCtx) : Prop :=
  (∀ h, fc_DeniedHandler cfg = Some h → ∀ c, IsAborted (h c) = true) ∧
  (∀ h, fc_ErrorHandler cfg = Some h → ∀ err c, IsAborted (h err c) = true).

Inductive configured {S} : ∀ {C R}, adapter C R → Config S C → Prop :=
| configured_http cfg : configured httpAdapter cfg
| configured_gin cfg : ginHandlersAbort cfg →
    configured (ginAdapter ClientIP ginHeader AbortWithStatusJSON IsAborted) (lift cfg)
| configured_echo cfg : configured (echoAdapter RealIP echoSetHeader echoJSON) (lift cfg)
| configured_fiber cfg : configured (fiberAdapter IP fiberSet fiberStatus fiberJSON) (lift cfg).

Lemma configured_stops {S C R} (a : adapter C R) (cfg : Config S C) :
  GinAborts AbortWithStatusJSON IsAborted → configured a cfg → stops a cfg.
Proof.
  intros Habort [cfg'|cfg' [Hd He]|cfg'|cfg']; try done. split.
  - intros r c. unfold lift. cbn [DeniedHandler defaultDenied ginAdapter resumes].
    destruct (fc_DeniedHandler cfg') as [h|] eqn:E; simpl; [by rewrite (Hd h eq_refl)|by rewrite Habort].
  - intros h Hh err c. cbn [resumes ginAdapter]. by rewrite (He h Hh).
Qed.
End Adapters.

(** ** Whole seconds *)

(** A float just above [k] that every sum of [k] seconds and at least a
    nanosecond reaches. *)
Lemma above_int k :
  0 <= k < 2 ^ 22 →
  ∃ z, num z ∧ k * unit_sc < fval z ∧ fval z <= k * unit_sc + sc (-31).
Proof.
  intros Hk. pose proof (sc_pos (-31) ltac:(lia)) as Hs.
  pose proof (unit_sc_split (-31) ltac:(lia)) as Hu. change (- -31) with 31 in Hu.
  destruct (float_of_mantissa (k * 2 ^ 31 + 1) (-31)) as (z & Hz & Hzv); [lia|lia| |].
  - pose proof (int_lt_inf (2 ^ 23) ltac:(lia)). nia.
  - exists z. split; [done|]. rewrite Hzv. nia.
Qed.

Lemma nanos_above n :
  1 <= n < 1000000000 →
  sc (-31) <= fval (F64.div (F64.of_int n) (F64.of_int 1000000000)).
Proof.
  intros Hn. destruct GoTime.billion_exact as [Hb Hbv]. pose proof (sc_pos (-31) ltac:(lia)) as Hs.
  pose proof (unit_sc_split (-31) ltac:(lia)) as Hu. change (- -31) with 31 in Hu.
  destruct (of_int_exact n) as [Hf Hv]; [lia|]. pose proof unit_sc_pos.
  destruct (float_of_mantissa 1 (-31)) as (z & Hz & Hzv); [lia|lia| |].
  { pose proof (int_lt_inf 1 ltac:(lia)). lia. }
  rewrite Z.mul_1_l in Hzv. rewrite <- Hzv. apply div_ge; fin_side; [lia|]. nia.
Qed.

(** A part of a second is visible in the float up to 2^22 seconds. *)
Lemma Seconds_strict d :
  0 <= d < 2 ^ 22 * GoTime.Second → d mod GoTime.Second ≠ 0 →
  d / GoTime.Second * unit_sc < fval (GoTime.Seconds d).
Proof.
  intros Hd Hn. unfold GoTime.Seconds. destruct (GoTime.quot_rem_nonneg d) as [-> ->]; [lia|].
  assert (0 <= d mod GoTime.Second < 1000000000) as Hm by (apply Z.mod_pos_bound; unfold GoTime.Second; lia).
  assert (0 <= d / GoTime.Second < 2 ^ 22) as Hq.
  { split; [apply Z.div_pos; unfold GoTime.Second; lia|].
    apply Z.div_lt_upper_bound; unfold GoTime.Second in *; lia. }
  set (k := d / GoTime.Second) in *. set (n := d mod GoTime.Second) in *.
  destruct (above_int k Hq) as (z & Hz & Hlo & Hhi). destruct (of_int_exact k) as [Hkf Hkv]; [lia|].
  destruct (GoTime.frac_seconds n Hm) as [Hff _]. pose proof (nanos_above n ltac:(lia)) as Hna.
  apply (Z.lt_le_trans _ (fval z)); [done|]. apply add_ge; fin_side. lia.
Qed.

Lemma ceil_seconds `{GoArch} d :
  0 < d < 2 ^ 22 * GoTime.Second → retryAfterSeconds d = (d + GoTime.Second - 1) / GoTime.Second.
Proof.
  intros Hd. assert (0 <= d <= int64_max) as Hr by (unfold int64_max, GoTime.Second in *; lia).
  destruct (GoTime.Seconds_bounds d Hr) as [Hf Hb]. pose proof unit_sc_pos as Hu.
  assert (0 <= d / GoTime.Second < 2 ^ 22) as Hk.
  { split; [apply Z.div_pos; unfold GoTime.Second; lia|].
    apply Z.div_lt_upper_bound; unfold GoTime.Second in *; lia. }
  assert (d = GoTime.Second * (d / GoTime.Second) + d mod GoTime.Second) as Hdm
    by (apply Z.div_mod; unfold GoTime.Second; lia).
  assert (0 <= d mod GoTime.Second < GoTime.Second) as Hm by (apply Z.mod_pos_bound; unfold GoTime.Second; lia).
  assert (- (- fval (GoTime.Seconds d) / unit_sc) = (d + GoTime.Second - 1) / GoTime.Second) as Hceil.
  { destruct (Z.eq_dec (d mod GoTime.Second) 0) as [Hz|Hnz].
    - assert (fval (GoTime.Seconds d) = d / GoTime.Second * unit_sc) as ->.
      { unfold GoTime.Seconds. destruct (GoTime.quot_rem_nonneg d) as [-> ->]; [lia|]. rewrite Hz.
        change (F64.div (F64.of_int 0) (F64.of_int 1000000000)) with (S754_zero false).
        destruct (of_int_exact (d / GoTime.Second)) as [Hif Hiv]; [lia|].
        destruct (add_zero_exact _ (S754_zero false) Hif I eq_refl) as [_ ->]. exact Hiv. }
      rewrite <- Z.mul_opp_l, Z.div_mul, Z.opp_involutive by lia.
      apply Z.div_unique with (r := GoTime.Second - 1); unfold GoTime.Second in *; lia.
    - pose proof (Seconds_strict d ltac:(lia) Hnz) as Hst.
      transitivity (d / GoTime.Second + 1).
      + assert (- fval (GoTime.Seconds d) / unit_sc = - (d / GoTime.Second + 1)) as ->; [|lia].
        symmetry. apply Z.div_unique with (r := (d / GoTime.Second + 1) * unit_sc - fval (GoTime.Seconds d)); lia.
      + apply Z.div_unique with (r := d mod GoTime.Second - 1); unfold GoTime.Second in *; lia. }
  destruct (ceil_spec (GoTime.Seconds d) Hf) as [Hcf Hcv]; [nia|]. rewrite Hceil in Hcv.
  assert (1 <= (d + GoTime.Second - 1) / GoTime.Second <= 2 ^ 22) as Hres.
  { split; [apply Z.div_le_lower_bound; unfold GoTime.Second; lia|].
    enough ((d + GoTime.Second - 1) / GoTime.Second < 2 ^ 22 + 1) by lia.
    apply Z.div_lt_upper_bound; unfold GoTime.Second in *; lia. }
  unfold retryAfterSeconds. rewrite int64_of_float_spec; [|done|nia|nia]. rewrite Hcv, Z.div_mul by lia.
  zbool; lia.
Qed.

(** ** Properties *)

(** [Retry-After] is the exact ceiling.  For every positive delay below 2^22
    seconds (48 days) the adapters report the delay rounded up to whole
    seconds, although they compute it in floating point: a client that waits
    that long has waited long enough, and not a second more. *)
Theorem retry_after_exact `{GoArch} d :
  0 < d < 2 ^ 22 * GoTime.Second →
  retryAfterSeconds d = (d + GoTime.Second - 1) / GoTime.Second ∧
  (retryAfterSeconds d - 1) * GoTime.Second < d <= retryAfterSeconds d * GoTime.Second.
Proof.
  intros Hd. rewrite ceil_seconds by done. split; [done|].
  pose proof (Z.div_mod (d + GoTime.Second - 1) GoTime.Second ltac:(unfold GoTime.Second; lia)).
  pose proof (Z.mod_pos_bound (d + GoTime.Second - 1) GoTime.Second ltac:(unfold GoTime.Second; lia)).
  unfold GoTime.Second in *. lia.
Qed.

Lemma retry_after_exact_witness :
  retryAfterSeconds (H := amd64) 1000000001 = (1000000001 + GoTime.Second - 1) / GoTime.Second ∧
  (retryAfterSeconds (H := amd64) 1000000001 - 1) * GoTime.Second < 1000000001
    <= retryAfterSeconds (H := amd64) 1000000001 * GoTime.Second.
Proof. apply (retry_after_exact (H := amd64)). unfold GoTime.Second. lia. Defined.

(** In every adapter a denied request, and a request whose error a handler
    takes, never reaches the next handler through the adapter: the outcome
    does not depend on it.  A request that passes, or an error without a
    handler (fail open), is exactly the next handler's outcome, on a context
    to which nothing but the headers was written. *)
Theorem middleware_gate `{GoArch} {E S C R} `{!Limiter E S} (a : adapter C R) (cfg : Config S C)
    handler l0 next e l c result err l' :
  newMiddleware a cfg = Returns (handler, l0) → stops a cfg →
  Allow e l (default (defaultKey a) (KeyFunc cfg) c) = Some ((result, err), l') →
  cfg_Limiter cfg = Some l0 ∧
  match err with
  | Some er =>
      match ErrorHandler cfg with
      | Some h => ∀ next', handler next' e l c = Some ((h er c, returned a), l')
      | None => handler next e l c = Some (next c, l')
      end
  | None =>
      if Allowed result then
        handler next e l c =
          Some (next (if DisableHeaders cfg then c
                      else setHeader a "X-RateLimit-Remaining" (pretty (Remaining result)) c), l')
      else ∀ next', handler next' e l c = handler next e l c
  end.
Proof.
  unfold newMiddleware. destruct (cfg_Limiter cfg) as [l1|]; [|done]. intros [= <- <-] [Hd He] Ha. split; [done|].
  unfold serve, leave. rewrite Ha. destruct err as [er|].
  - destruct (ErrorHandler cfg) as [h|]; [|done]. intros next'. by rewrite (He h).
  - destruct (Allowed result) eqn:Ea; [unfold writeHeaders; by rewrite Ea|]. intros next'. by rewrite !Hd.
Qed.

(** A limiter that always gives the same outcome, for the witnesses. *)
Definition constant (r : Result * option error) : Limiter unit unit := fun _ s _ => Some (r, s).

Definition exampleExchange : exchange := mkExchange "10.0.0.1:4000" "/api/test" (mkResponse ∅ None []).

Lemma middleware_gate_witness :
  serve (H := amd64) (Limiter0 := constant (mkResult false 0 1500000000, None)) httpAdapter
    (mkConfig (Some tt) None None None false) (fun c => (httpWriteHeader 200 c, tt)) tt tt exampleExchange =
  serve (H := amd64) (Limiter0 := constant (mkResult false 0 1500000000, None)) httpAdapter
    (mkConfig (Some tt) None None None false) (fun c => (c, tt)) tt tt exampleExchange.
Proof.
  refine (proj2 (middleware_gate (H := amd64) (Limiter0 := constant (mkResult false 0 1500000000, None))
    httpAdapter (mkConfig (Some tt) None None None false) _ tt (fun c => (c, tt)) tt tt exampleExchange
    (mkResult false 0 1500000000) None tt eq_refl (conj (fun _ _ => eq_refl) (fun _ _ _ _ => eq_refl)) eq_refl) _).
Defined.

(** The response of the net/http adapter to a denied request, with the default
    handler and headers: status 429, the JSON body, [X-RateLimit-Remaining],
    and [Retry-After] exactly when the limiter asks for a delay, in whole
    seconds rounded up. *)
Theorem http_denied_response `{GoArch} {E S} `{!Limiter E S} (cfg : Config S exchange) next e l c result l' :
  Allow e l (default RemoteAddr (KeyFunc cfg) c) = Some ((result, None), l') → Allowed result = false →
  DeniedHandler cfg = None → DisableHeaders cfg = false → Status (resp c) = None → Header (resp c) = ∅ →
  RetryAfter result < 2 ^ 22 * GoTime.Second →
  ∃ c', serve httpAdapter cfg next e l c = Some ((c', tt), l') ∧
    Status (resp c') = Some 429 ∧
    Body (resp c') = Body (resp c) ++ [JSONObject [("error", "too many requests")]%string] ∧
    Header (resp c') !! "X-Ratelimit-Remaining"%string = Some (pretty (Remaining result)) ∧
    Header (resp c') !! "Content-Type"%string = Some "application/json"%string ∧
    Header (resp c') !! "Retry-After"%string =
      (if 0 <? RetryAfter result
       then Some (pretty ((RetryAfter result + GoTime.Second - 1) / GoTime.Second)) else None).
Proof.
  intros Ha Hd Hdh Hh Hs He Hr. unfold serve. cbn [defaultKey httpAdapter]. rewrite Ha, Hd, Hdh.
  eexists. split; [reflexivity|]. unfold writeHeaders. rewrite Hh, Hd. cbn [negb andb default].
  destruct (Z.ltb_spec 0 (RetryAfter result)) as [Hpos|Hneg];
    [rewrite (ceil_seconds (RetryAfter result)) by lia|];
    unfold httpAdapter, httpDenied, httpSetHeader, httpWriteHeader, httpEncodeJSON, withResp, setHeader, defaultDenied;
    rewrite Hs; cbn [resp Status Header Body RemoteAddr]; rewrite He; by split_and!.
Qed.

Lemma http_denied_response_witness :
  ∃ c', serve (H := amd64) (Limiter0 := constant (mkResult false 0 1500000000, None)) httpAdapter
          (mkConfig (Some tt) None None None false) (fun c => (c, tt)) tt tt exampleExchange = Some ((c', tt), tt) ∧
    Status (resp c') = Some 429 ∧
    Body (resp c') = [JSONObject [("error", "too many requests")]%string] ∧
    Header (resp c') !! "X-Ratelimit-Remaining"%string = Some "0"%string ∧
    Header (resp c') !! "Content-Type"%string = Some "application/json"%string ∧
    Header (resp c') !! "Retry-After"%string = Some "2"%string.
Proof.
  apply (http_denied_response (H := amd64) (Limiter0 := constant (mkResult false 0 1500000000, None))
    (mkConfig (Some tt) None None None false) (fun c => (c, tt)) tt tt exampleExchange
    (mkResult false 0 1500000000) tt).
  - reflexivity.
  - reflexivity.
  - reflexivity.
  - reflexivity.
  - reflexivity.
  - reflexivity.
  - unfold GoTime.Second. simpl. lia.
Defined.

End Middleware.
