(* ===== verification/Concurrent.v ===== *)
(** * Concurrent: the sharded store under concurrent calls

    Goroutines that call [withState] of memory/sharded_store.go at the same
    time.  A goroutine is a program counter in the code of [withState] and of
    what it calls; a step runs it from one synchronisation (taking or
    releasing a lock, an operation on the atomic counter [live]) to the next,
    so every order in which the goroutines' locks and atomic operations may
    interleave is a sequence of steps.  Code between two synchronisations
    works on the shard whose lock is held and is one step.

    The shards themselves, and the functions that change one, are those of
    ShardedStore.v. *)

From Stdlib Require Import ZArith Lia Bool.
From stdpp Require Import base gmap strings list relations.
From S2P Require Import Prelude Core GoTime Hash Options ShardedStore StoreFacts StoreSpec.

#[local] Open Scope Z_scope.

Module Concurrent.
Import Store.

Section Model.
Context {T : Type} (create : Time → T) (fn : T → Time → T * (Result * option error)).

(** The expired entries that a cleanup pass has found and not yet deleted. *)
Inductive batch :=
| Keys (ks : list string)
| Elems (es : list (nat * lruEntry T)).

(** What follows a cleanup pass: on a hit the function is run on the state;
    on a miss a slot is reserved; in a sweep the remaining shards follow. *)
Inductive cont :=
| AfterHit (v : T)
| AfterMiss
| AfterSweep (rest : list nat).

Inductive pc :=
| Idle
| Lock                              (** [sh.mu.Lock()] in [withState] *)
| Lookup                            (** the first lookup of the key *)
| Clean (j : nat) (b : batch) (k : cont)  (** deleting in shard [j] *)
| Run (v : T)                       (** [fn(v, now)] *)
| Reserve                           (** [reserveSlot] is called *)
| Load (swept : bool)               (** top of its loop: [live.Load()] *)
| Cas (n : Z) (swept : bool)        (** [live.CompareAndSwap(n, n+1)] *)
| Full (swept : bool)               (** the branch for a full store *)
| SweepCall                         (** [sweepExpired] is called *)
| SweepLock                         (** [sweepMu.Lock()] *)
| Sweep (rest : list nat)           (** the loop over the shards *)
| StillFull                         (** [live.Load() >= maxKeys], unlocked *)
| EvictOther (rest : list nat)      (** the loop of [evictAnyOther] *)
| Relock                            (** [sh.mu.Lock()] in [reserveSlot] *)
| Recheck                           (** a slot is reserved: look up again *)
| Reject.                           (** [ErrMaxKeysExceeded] *)

Record goroutine := mkGoroutine {
  g_key : string;
  g_now : Time;
  g_shard : nat;  (** [sh := s.shardFor(key)] *)
  g_pc : pc
}.

(** A call that has returned, in the order in which calls return. *)
Definition event : Type := string * Time * (Result * option error).

(** ** Locks *)

Inductive lock := ShardMu (j : nat) | SweepMu.

(** The shard whose lock a goroutine holds. *)
Definition holds (g : goroutine) : option nat :=
  match g_pc g with
  | Lookup | Run _ | Reserve | Load _ | Cas _ _ | Full _ | Recheck | Reject => Some (g_shard g)
  | Clean j _ _ => Some j
  | Idle | Lock | SweepCall | SweepLock | Sweep _ | StillFull | EvictOther _ | Relock => None
  end.

Definition holdsSweep (g : goroutine) : bool :=
  match g_pc g with
  | Sweep _ | Clean _ _ (AfterSweep _) => true
  | _ => false
  end.

(** The lock that the next step of a goroutine takes. *)
Definition wants (g : goroutine) : option lock :=
  match g_pc g with
  | Lock | Relock => Some (ShardMu (g_shard g))
  | SweepLock => Some SweepMu
  | Sweep (j :: _) => Some (ShardMu j)
  | EvictOther (j :: _) => if Nat.eqb j (g_shard g) then None else Some (ShardMu j)
  | _ => None
  end.

Definition lockFree (gs : list goroutine) (l : lock) : bool :=
  match l with
  | ShardMu j => forallb (fun g => negb (bool_decide (holds g = Some j))) gs
  | SweepMu => forallb (fun g => negb (holdsSweep g)) gs
  end.

Definition canStep (gs : list goroutine) (g : goroutine) : bool :=
  match g_pc g, wants g with
  | Idle, _ => false
  | _, None => true
  | _, Some l => lockFree gs l
  end.

(** ** The operations on a shard *)

(** [cleanupMap] and [cleanupLRU] up to their second loop: the early returns,
    [lastCleanup], and the entries found expired. *)
Definition startClean (ord : range_order T) (s : shardedStore T) (j : nat) (now : Time)
    : shardedStore T * batch :=
  let sh := shardAt s j in
  let due := cleanupDue (opts s) now (lastCleanup sh) in
  let s' := replaceShard s j
              (mkShard (items sh) (orderItems sh) (order sh) (nextElem sh) now) in
  if isLRU s then
    if due then
      (s', Elems (filter (fun elem => isExpired (opts s) now (lruLastSeen elem.2) = true)
                    (take Options.cleanupBatchSize (order sh))))
    else (s, Elems [])
  else
    if due then
      (s', Keys (filter (fun key => itemExpired (opts s) now (items sh) key = true)
                   (take Options.cleanupBatchSize (ord j (items sh)))))
    else (s, Keys []).

(** One iteration of that loop. *)
Definition deleteNext (s : shardedStore T) (j : nat) (b : batch) : option (shardedStore T * batch) :=
  match b with
  | Keys [] | Elems [] => None
  | Keys (k :: ks) => Some (setShard s j (deleteItem (shardAt s j, live s) k), Keys ks)
  | Elems (e :: es) => Some (setShard s j (deleteElem (shardAt s j, live s) e), Elems es)
  end.

(** Look the key up; if it is there, mark it as used now. *)
Definition touchKey (s : shardedStore T) (i : nat) (key : string) (now : Time)
    : option (T * shardedStore T) :=
  let sh := shardAt s i in
  if isLRU s then
    match orderItems sh !! key ≫= (fun id => pair id <$> elemAt id (order sh)) with
    | Some (id, entry) => Some (lruValue entry, replaceShard s i (touchElem sh id entry now))
    | None => None
    end
  else
    match items sh !! key with
    | Some entry => Some (value entry, replaceShard s i (touchItem sh key entry now))
    | None => None
    end.

(** Store a new key. *)
Definition insertKey (s : shardedStore T) (i : nat) (key : string) (now : Time) (v : T)
    : shardedStore T :=
  let sh := shardAt s i in
  if isLRU s then
    replaceShard s i (mkShard (items sh) (<[key := nextElem sh]> (orderItems sh))
      ((nextElem sh, mkLruEntry key v now) :: order sh) (S (nextElem sh)) (lastCleanup sh))
  else
    replaceShard s i (mkShard (<[key := mkKeyEntry v now]> (items sh)) (orderItems sh) (order sh)
      (nextElem sh) (lastCleanup sh)).

(** [fn(v, now)], which writes through the state pointer. *)
Definition runFn (s : shardedStore T) (i : nat) (key : string) (now : Time) (v : T)
    : shardedStore T * (Result * option error) :=
  let '(v', r) := fn v now in (storeState s i key v', r).

(** ** One step of one goroutine *)

(** Where [reserveSlot] goes on after [sweepExpired]. *)
Definition afterSweep (s : shardedStore T) : pc := if isLRU s then StillFull else Relock.

(** The store after the step, the next program counter, and the result if the
    call returns. *)
Definition advance (ord : range_order T) (s : shardedStore T) (g : goroutine)
    : shardedStore T * pc * option (Result * option error) :=
  let 'mkGoroutine key now i p := g in
  let max := Options.maxKeys (opts s) in
  match p with
  | Idle => (s, Idle, None)
  | Lock => (s, Lookup, None)
  | Lookup =>
      match touchKey s i key now with
      | Some (v, s) => let '(s, b) := startClean ord s i now in (s, Clean i b (AfterHit v), None)
      | None => let '(s, b) := startClean ord s i now in (s, Clean i b AfterMiss, None)
      end
  | Clean j b k =>
      match deleteNext s j b with
      | Some (s, b) => (s, Clean j b k, None)
      | None =>
          match k with
          | AfterHit v => (s, Run v, None)
          | AfterMiss => (s, Reserve, None)
          | AfterSweep rest => (s, Sweep rest, None)
          end
      end
  | Run v => let '(s, r) := runFn s i key now v in (s, Idle, Some r)
  | Reserve =>
      if max <=? 0 then (withLive s (live s + 1), Recheck, None) else (s, Load false, None)
  | Load swept => (s, if live s <? max then Cas (live s) swept else Full swept, None)
  | Cas n swept =>
      if live s =? n then (withLive s (n + 1), Recheck, None) else (s, Load swept, None)
  | Full swept =>
      if isLRU s then
        let '(evicted, s) := evictFrom s i in
        (s, if evicted then Load swept else if swept then StillFull else SweepCall, None)
      else (s, if swept then Reject else SweepCall, None)
  | SweepCall =>
      (s, if (Options.keyTTL (opts s) <=? 0) || (Options.cleanupInterval (opts s) <=? 0)
          then afterSweep s else SweepLock, None)
  | SweepLock =>
      if GoTime.Sub now (lastSweep s) <? Options.cleanupInterval (opts s)
      then (s, afterSweep s, None)
      else (mkStore (shards s) (opts s) (live s) now (evicts s),
            Sweep (seq 0 (length (shards s))), None)
  | Sweep [] => (s, afterSweep s, None)
  | Sweep (j :: rest) =>
      let '(s, b) := startClean ord s j now in (s, Clean j b (AfterSweep rest), None)
  | StillFull =>
      (s, if max <=? live s then EvictOther (seq 0 (length (shards s))) else Relock, None)
  | EvictOther [] => (s, Relock, None)
  | EvictOther (j :: rest) =>
      if Nat.eqb j i then (s, EvictOther rest, None)
      else let '(evicted, s) := evictFrom s j in
           (s, if evicted then Relock else EvictOther rest, None)
  | Relock => (s, Load true, None)
  | Recheck =>
      match touchKey s i key now with
      | Some (v, s) =>
          let '(s, r) := runFn (withLive s (live s - 1)) i key now v in (s, Idle, Some r)
      | None =>
          let v := create now in
          let '(s, r) := runFn (insertKey s i key now v) i key now v in (s, Idle, Some r)
      end
  | Reject => (s, Idle, Some (zeroResult, Some Options.ErrMaxKeysExceeded))
  end.

(** ** The system *)

Record config := mkConfig {
  c_store : shardedStore T;
  c_gs : list goroutine;
  c_hist : list event
}.

Definition start (o : Options.options) (n : nat) : config :=
  mkConfig (newShardedStore o) (replicate n (mkGoroutine "" 0 0 Idle)) [].

(** Goroutine [t] calls [withState(key, now, fn)]. *)
Definition call (c : config) (t : nat) (key : string) (now : Time) : config :=
  mkConfig (c_store c)
    (<[t := mkGoroutine key now (shardFor (c_store c) key) Lock]> (c_gs c)) (c_hist c).

(** Goroutine [t], which is [g], takes a step. *)
Definition move (ord : range_order T) (c : config) (t : nat) (g : goroutine) : config :=
  let '(s, p, r) := advance ord (c_store c) g in
  mkConfig s (<[t := mkGoroutine (g_key g) (g_now g) (g_shard g) p]> (c_gs c))
    (c_hist c ++ match r with Some r => [(g_key g, g_now g, r)] | None => [] end).

Inductive cstep : config → config → Prop :=
| step_call c t g key now :
    c_gs c !! t = Some g → g_pc g = Idle → cstep c (call c t key now)
| step_move ord c t g :
    c_gs c !! t = Some g → canStep (c_gs c) g = true → range_order_ok ord →
    cstep c (move ord c t g).

(** An executable scheduler: at each point, the goroutine to run, and the
    call it makes if it is idle.  Maps are visited in the order of their
    representation. *)
Definition someOrder : range_order T := fun _ m => (map_to_list m).*1.

Definition schedule (c : config) (step : nat * option (string * Time)) : option config :=
  match c_gs c !! step.1, step.2 with
  | Some g, Some (key, now) =>
      match g_pc g with Idle => Some (call c step.1 key now) | _ => None end
  | Some g, None => if canStep (c_gs c) g then Some (move someOrder c step.1 g) else None
  | None, _ => None
  end.

Fixpoint execute (c : config) (steps : list (nat * option (string * Time))) : option config :=
  match steps with
  | [] => Some c
  | st :: rest => match schedule c st with Some c' => execute c' rest | None => None end
  end.

(** ** The atomic store

    The specification: a finite map and the calls that have returned.  A call
    decides on the state of its key in one step; in between, entries may be
    marked as used or dropped, if they have expired or the store evicts. *)

Definition discards (o : Options.options) (now : Time) (k : string) (v : T * Time) : Prop :=
  StoreFacts.expired o now v ∨ (Options.eviction o = Options.EvictLRU ∧ 0 < Options.maxKeys o).

Inductive astep (o : Options.options) :
    gmap string (T * Time) * list event → gmap string (T * Time) * list event → Prop :=
| astep_drop now m m' h :
    StoreSpec.drops (discards o now) m m' → astep o (m, h) (m', h)
| astep_touch key now v t m h :
    m !! key = Some (v, t) → astep o (m, h) (<[key := (v, now)]> m, h)
| astep_decide key now m h v' r :
    fn (default (create now) (fst <$> m !! key)) now = (v', r) →
    (m !! key = None → 0 < Options.maxKeys o → Z.of_nat (size m) < Options.maxKeys o) →
    astep o (m, h) (<[key := (v', now)]> m, h ++ [(key, now, r)])
| astep_full key now m h :
    Options.eviction o = Options.EvictReject → 0 < Options.maxKeys o →
    astep o (m, h)
      (m, h ++ [(key, now, (zeroResult, Some Options.ErrMaxKeysExceeded))]).

End Model.

Arguments batch : clear implicits.
Arguments cont : clear implicits.
Arguments pc : clear implicits.
Arguments goroutine : clear implicits.
Arguments config : clear implicits.

End Concurrent.
