(* ===== verification/ConcurrentFacts.v ===== *)
(** * ConcurrentFacts: the invariant of concurrent executions

    What holds between any two steps of any goroutines: no lock is held
    twice, the counter is the number of stored keys plus the number of
    goroutines that hold a reservation, and each goroutine's local data agree
    with the shard it has locked. *)

From Stdlib Require Import ZArith Lia Bool.
From stdpp Require Import base gmap strings list relations.
From S2P Require Import Prelude Core GoTime Hash Options ShardedStore StoreFacts StoreSpec StateStore Concurrent.

#[local] Open Scope Z_scope.

Module ConcurrentFacts.
Import Store StoreFacts StoreSpec Concurrent.

Section Facts.
Context {T : Type} (create : Time → T) (fn : T → Time → T * (Result * option error)).
Implicit Types (s : shardedStore T) (g : goroutine T) (ord : range_order T).

(** ** Steps change only what is locked *)

Definition within (j : nat) s s' : Prop :=
  opts s' = opts s ∧ length (shards s') = length (shards s) ∧
  ∀ j', j' ≠ j → shardAt s' j' = shardAt s j'.

Lemma within_refl j s : within j s s.
Proof. done. Qed.

Lemma within_trans j s1 s2 s3 : within j s1 s2 → within j s2 s3 → within j s1 s3.
Proof.
  intros (H1 & H2 & H3) (H4 & H5 & H6). split_and!; [congruence|congruence|].
  intros j' Hj. by rewrite H6, H3.
Qed.

Lemma setShard_within j s b : within j s (setShard s j b).
Proof.
  split_and!; [done|by simpl; rewrite length_insert|]. intros j' Hj. unfold shardAt. simpl.
  by rewrite list_lookup_insert_ne.
Qed.

Lemma replaceShard_within j s sh : within j s (replaceShard s j sh).
Proof. apply setShard_within. Qed.

Lemma withLive_within j s n : within j s (withLive s n).
Proof. done. Qed.

Lemma evictFrom_within j s : within j s (evictFrom s j).2.
Proof.
  unfold evictFrom. destruct (last _); [|done].
  split_and!; [done|by simpl; rewrite length_insert|]. intros j' Hj. unfold shardAt. simpl.
  by rewrite list_lookup_insert_ne.
Qed.

Lemma storeState_within j s key v : within j s (storeState s j key v).
Proof. unfold storeState. destruct (isLRU s); apply replaceShard_within. Qed.

Lemma startClean_within ord j s now : within j s (startClean ord s j now).1.
Proof. unfold startClean. repeat case_match; simpl; (apply replaceShard_within || done). Qed.

Lemma deleteNext_within j s b s' b' : deleteNext s j b = Some (s', b') → within j s s'.
Proof. unfold deleteNext. intros. repeat case_match; simplify_eq; apply setShard_within. Qed.

Lemma touchKey_within j s key now v s' : touchKey s j key now = Some (v, s') → within j s s'.
Proof. unfold touchKey. intros. repeat case_match; simplify_eq; apply replaceShard_within. Qed.

Lemma insertKey_within j s key now v : within j s (insertKey s j key now v).
Proof. unfold insertKey. case_match; apply replaceShard_within. Qed.

Lemma runFn_within j s key now v : within j s (runFn fn s j key now v).1.
Proof. unfold runFn. destruct (fn v now). apply storeState_within. Qed.

#[local] Hint Resolve within_refl withLive_within evictFrom_within startClean_within
  deleteNext_within touchKey_within insertKey_within runFn_within within_trans : kaka.

(** The shard a step may change: the one whose lock is held or taken. *)
Definition reach_shard g : nat :=
  match holds g, wants g with
  | Some j, _ => j
  | None, Some (ShardMu j) => j
  | None, _ => g_shard g
  end.

(** With no shard lock, a step leaves every shard alone. *)
Lemma advance_within ord s g :
  let '(s', _, _) := advance create fn ord s g in
  within (reach_shard g) s s' ∧
  (holds g = None → (∀ j, wants g ≠ Some (ShardMu j)) → shards s' = shards s).
Proof.
  destruct g as [key now i p].
  destruct p as [| | |j b k| | | | | | | |[|j rest]| |[|j rest]| | |]; unfold reach_shard; cbn [advance holds wants g_pc g_shard].
  all: try (split; [done|by intros]).
  - (* Lookup *) destruct (touchKey s i key now) as [[v s1]|] eqn:E.
    + pose proof (startClean_within ord i s1 now). destruct (startClean ord s1 i now) as [s2 b].
      split; [|done]. eauto with kaka.
    + pose proof (startClean_within ord i s now). by destruct (startClean ord s i now).
  - (* Clean *) destruct (deleteNext s j b) as [[s1 b1]|] eqn:E; [split; [|done]; eauto with kaka|].
    by destruct k.
  - pose proof (runFn_within i s key now v). by destruct (runFn fn s i key now v).
  - destruct (_ <=? _); done.
  - destruct (_ =? _); done.
  - destruct (isLRU s); [|by repeat case_match]. pose proof (evictFrom_within i s).
    by destruct (evictFrom s i).
  - by destruct (_ <? _).
  - pose proof (startClean_within ord j s now). destruct (startClean ord s j now). split; [done|].
    intros _ Hw. by destruct (Hw j).
  - destruct (Nat.eqb j i) eqn:E; [by split|]. pose proof (evictFrom_within j s).
    destruct (evictFrom s j). split; [done|]. intros _ Hw. by destruct (Hw j).
  - destruct (touchKey s i key now) as [[v s1]|] eqn:E.
    + pose proof (runFn_within i (withLive s1 (live s1 - 1)) key now v).
      destruct (runFn fn _ i key now v). split; [|done]. simpl in *.
      apply touchKey_within in E. eapply within_trans; [exact E|]. done.
    + pose proof (runFn_within i (insertKey s i key now (create now)) key now (create now)).
      destruct (runFn fn _ i key now _). split; [|done]. eauto with kaka.
Qed.

Lemma advance_frame ord s g j :
  holds g ≠ Some j → wants g ≠ Some (ShardMu j) →
  let '(s', _, _) := advance create fn ord s g in
  opts s' = opts s ∧ length (shards s') = length (shards s) ∧ shardAt s' j = shardAt s j.
Proof.
  intros Hh Hw. pose proof (advance_within ord s g) as Ha. unfold reach_shard in Ha.
  destruct (advance create fn ord s g) as [[s' p'] r]. destruct Ha as [(Ho & Hl & Hs) Hn].
  split_and!; [done|done|]. destruct (holds g) as [j'|]; [apply Hs; congruence|].
  destruct (wants g) as [[j'|]|]; [apply Hs; congruence|unfold shardAt; rewrite Hn; done..].
Qed.

Lemma advance_opts ord s g :
  let '(s', _, _) := advance create fn ord s g in
  opts s' = opts s ∧ length (shards s') = length (shards s).
Proof.
  pose proof (advance_within ord s g) as Ha.
  destruct (advance create fn ord s g) as [[s' p'] r]. destruct Ha as [(Ho & Hl & _) _]. done.
Qed.

Definition next g (p : pc T) : goroutine T := mkGoroutine (g_key g) (g_now g) (g_shard g) p.

(** Outside a sweep a goroutine cleans its own shard. *)
Definition home g : Prop :=
  match g_pc g with
  | Clean j _ (AfterHit _) | Clean j _ AfterMiss => j = g_shard g
  | _ => True
  end.

(** A lock that is held after a step was held before or was taken by it. *)
Lemma advance_locks ord s g :
  home g →
  let '(_, p, _) := advance create fn ord s g in
  (∀ j, holds (next g p) = Some j → holds g = Some j ∨ wants g = Some (ShardMu j)) ∧
  (holdsSweep (next g p) = true → holdsSweep g = true ∨ wants g = Some SweepMu).
Proof.
  destruct g as [key now i p]. unfold home, holds, holdsSweep, wants, next. cbn [g_pc g_key g_now g_shard].
  destruct p as [| | |j b k| | | | | | | |[|j rest]| |[|j rest]| | |]; cbn [advance].
  all: unfold afterSweep, runFn, startClean, evictFrom; repeat case_match; simplify_eq/=; naive_solver.
Qed.

(** ** The operations on a shard *)

Definition batch_ok s (j : nat) (now : Time) (b : batch T) : Prop :=
  match b with
  | Keys ks =>
      isLRU s = false ∧
      ∀ k e, k ∈ ks → items (shardAt s j) !! k = Some e → expired (opts s) now (value e, lastSeen e)
  | Elems es =>
      isLRU s = true ∧ NoDup es.*1 ∧
      ∀ p, p ∈ es → p ∈ order (shardAt s j) ∧ expired (opts s) now (lruValue p.2, lruLastSeen p.2)
  end.

Definition stored s (i : nat) (key : string) (v : T) (now : Time) : Prop :=
  shard_map (shardAt s i) !! key = Some (v, now).

Lemma within_isLRU j s s' : within j s s' → isLRU s' = isLRU s.
Proof. intros (Ho & _). unfold isLRU. by rewrite Ho. Qed.

Lemma shardAt_put s i sh : (i < length (shards s))%nat → shardAt (replaceShard s i sh) i = sh.
Proof. intros Hi. unfold shardAt. simpl. by rewrite list_lookup_insert_eq. Qed.

(** Recording the time of a cleanup changes no binding. *)
Lemma stamp_ok n s j now :
  store_inv n s → (j < length (shards s))%nat →
  let s' := replaceShard s j (setLastCleanup (shardAt s j) now) in
  store_inv n s' ∧ abs s' = abs s.
Proof.
  intros Hinv Hj s'. pose proof (shardAt_lookup s j Hj) as Hl. split.
  - eapply (replace_inv n n s s' j _ (setLastCleanup (shardAt s j) now)); eauto; simpl.
    + apply (shardAt_inv n s Hinv j Hj).
    + intros k Hk. by eapply inv_placed.
    + apply (inv_max n s Hinv).
    + by apply (inv_evicts n).
  - unfold abs, s'. simpl. rewrite list_fmap_insert. f_equal. apply list_insert_id.
    by rewrite list_lookup_fmap, Hl.
Qed.

Lemma startClean_ok n ord s j now :
  store_inv n s → (j < length (shards s))%nat →
  let '(s', b) := startClean ord s j now in
  store_inv n s' ∧ abs s' = abs s ∧ batch_ok s' j now b ∧
  shard_map (shardAt s' j) = shard_map (shardAt s j).
Proof.
  intros Hinv Hj. destruct (stamp_ok n s j now Hinv Hj) as [Hi Ha].
  pose proof (shardAt_put s j (setLastCleanup (shardAt s j) now) Hj) as Hsh.
  unfold startClean. destruct (isLRU s) eqn:El; destruct (cleanupDue _ now _) eqn:Ed.
  - split_and!; [done..| |unfold setLastCleanup in Hsh; by rewrite Hsh].
    unfold batch_ok. unfold setLastCleanup in Hsh. rewrite Hsh. apply cleanupDue_ttl in Ed as [Ed _].
    pose proof (shardAt_inv n s Hinv j Hj) as Hok. rewrite El in Hok. destruct Hok as [_ [_ Hid _ _]].
    split_and!; [done| |].
    + eapply sublist_NoDup; [exact Hid|]. apply fmap_sublist.
      etrans; [apply sublist_filter|apply sublist_take].
    + intros p [He Hp]%list_elem_of_filter. apply Z.leb_le in He. split; [|by split].
      simpl. eapply elem_of_sublist; [exact Hp|apply sublist_take].
  - split_and!; try done. split_and!; [done|constructor|]. intros p Hp. by apply not_elem_of_nil in Hp.
  - split_and!; [done..| |unfold setLastCleanup in Hsh; by rewrite Hsh].
    unfold batch_ok. unfold setLastCleanup in Hsh. rewrite Hsh. apply cleanupDue_ttl in Ed as [Ed _].
    split; [done|]. intros k e [Hk _]%list_elem_of_filter He. simpl in He. unfold itemExpired in Hk.
    rewrite He in Hk. apply Z.leb_le in Hk. by split.
  - split_and!; try done. split; [done|]. intros k e Hk. by apply not_elem_of_nil in Hk.
Qed.

(** One deletion of a cleanup pass: an expired binding goes, and no other. *)
Lemma deleteNext_ok n s j now b s' b' :
  store_inv n s → (j < length (shards s))%nat → batch_ok s j now b →
  deleteNext s j b = Some (s', b') →
  store_inv n s' ∧ drops (expiredAt (opts s) now) (abs s) (abs s') ∧ batch_ok s' j now b' ∧
  ∀ key v, stored s j key v now → stored s' j key v now.
Proof.
  intros Hinv Hj Hb Hd. pose proof (shardAt_inv n s Hinv j Hj) as Hsh.
  assert (∀ bl, pruned (isLRU s) (expired (opts s) now) (shardAt s j, live s) bl →
    store_inv n (setShard s j bl) ∧ drops (expiredAt (opts s) now) (abs s) (abs (setShard s j bl)) ∧
    ∀ key v, stored s j key v now → stored (setShard s j bl) j key v now) as Hput.
  { intros bl Hp. destruct (setShard_shrinks n _ s j bl Hinv Hj Hp) as (Hi & _ & _ & _ & Hdr).
    split_and!; [done|done|]. intros key v Hk. unfold stored in *.
    rewrite (shardAt_put s j bl.1 Hj : shardAt (setShard s j bl) j = bl.1).
    destruct Hp as (_ & Hsub & HQ & _). simpl in *. destruct (shard_map bl.1 !! key) as [w|] eqn:E.
    - eapply lookup_weaken in E; [|exact Hsub]. congruence.
    - exfalso. by apply (fresh_not_expired (opts s) now v), (HQ key). }
  pose proof (fun bl => shardAt_put s j bl.1 Hj : shardAt (setShard s j bl) j = bl.1) as Hat.
  destruct b as [[|k ks]|[|e es]]; cbn [deleteNext] in Hd; try discriminate Hd; apply Some_inj, pair_eq in Hd as [<- <-].
  - destruct Hb as [El Hks]. rewrite El in Hsh.
    destruct (deleteItem_pruned (expired (opts s) now) _ (live s) k Hsh) as [Hp Hit].
    { intros e He. eapply Hks; [by left|done]. }
    destruct (Hput (deleteItem (shardAt s j, live s) k)) as (H1 & H2 & H3); [by rewrite El|].
    split_and!; try done. split; [done|]. intros k' e Hk'. rewrite Hat, Hit. intros He.
    apply lookup_delete_Some in He as [_ He]. eapply Hks; [by right|done].
  - destruct Hb as (El & Hnd & Hes). rewrite El in Hsh.
    destruct (Hes e) as [He HQ]; [by left|].
    destruct (deleteElem_pruned (expired (opts s) now) _ (live s) e Hsh He HQ) as [Hp Hor].
    destruct (Hput (deleteElem (shardAt s j, live s) e)) as (H1 & H2 & H3); [by rewrite El|].
    rewrite fmap_cons in Hnd. apply NoDup_cons in Hnd as [Hn Hnd].
    split_and!; try done. split_and!; [done|done|]. intros p Hp'. rewrite Hat, Hor.
    destruct (Hes p) as [Hpo HQp]; [by right|]. split; [|done]. apply listRemove_elem. split; [done|].
    intros Heq. apply Hn. rewrite <- Heq. by apply list_elem_of_fmap_2.
Qed.

Section Key.
Context (n : Z) (s : shardedStore T) (key : string) (now : Time).
Hypothesis Hinv : store_inv n s.

Lemma touchKey_ok :
  match touchKey s (shardFor s key) key now with
  | Some (v, s') =>
      (∃ t, abs s !! key = Some (v, t)) ∧ store_inv n s' ∧ abs s' = <[key := (v, now)]> (abs s)
  | None => abs s !! key = None
  end.
Proof.
  pose proof (shardFor_lt n s Hinv key) as Hi.
  pose proof (shardAt_inv n s Hinv _ Hi) as Hsh. pose proof (abs_lookup n s Hinv key) as Hk.
  unfold touchKey. destruct (isLRU s) eqn:El.
  - fold (lruLookup (shardAt s (shardFor s key)) key). rewrite lruLookup_map in Hk by done.
    destruct (lruLookup _ key) as [[id e]|] eqn:E; simpl in Hk; [|done]. split; [eauto|].
    apply rebind_store; [done|done|done|]. rewrite El. by apply touchElem_rebinds.
  - rewrite items_lookup in Hk by done.
    destruct (items _ !! key) as [e|] eqn:E; simpl in Hk; [|done]. split; [eauto|].
    apply rebind_store; [done|done|done|]. rewrite El. by apply touchItem_rebinds.
Qed.

Lemma runFn_ok v v' r :
  abs s !! key = Some (v, now) → fn v now = (v', r) →
  (runFn fn s (shardFor s key) key now v).2 = r ∧
  store_inv n (runFn fn s (shardFor s key) key now v).1 ∧
  abs (runFn fn s (shardFor s key) key now v).1 = <[key := (v', now)]> (abs s).
Proof.
  intros Hk Hf. unfold runFn. rewrite Hf.
  destruct (storeState_ok n s key v' v now Hinv Hk) as (H1 & H2 & _). done.
Qed.
End Key.

Lemma insertKey_ok n s key now v :
  store_inv (n + 1) s → abs s !! key = None →
  store_inv n (insertKey s (shardFor s key) key now v) ∧
  abs (insertKey s (shardFor s key) key now v) = <[key := (v, now)]> (abs s).
Proof.
  intros Hinv Hk. pose proof (shardFor_lt _ s Hinv key) as Hi.
  pose proof (shardAt_inv _ s Hinv _ Hi) as Hsh. rewrite (abs_lookup _ s Hinv key) in Hk.
  unfold insertKey. destruct (isLRU s) eqn:El; (apply add_store; [done|done|done|]); rewrite El.
  - by apply pushElem_adds.
  - rewrite items_lookup in Hk by done. apply fmap_None in Hk. by apply insertItem_adds.
Qed.

(** ** What each goroutine knows *)

Definition pc_ok s g : Prop :=
  let max := Options.maxKeys (opts s) in
  let shardsOk := Forall (fun j => (j < length (shards s))%nat) in
  match g_pc g with
  | Idle => True
  | p =>
      g_shard g = shardFor s (g_key g) ∧
      match p with
      | Clean j b k =>
          (j < length (shards s))%nat ∧ batch_ok s j (g_now g) b ∧
          match k with
          | AfterHit v => j = g_shard g ∧ stored s j (g_key g) v (g_now g)
          | AfterMiss => j = g_shard g
          | AfterSweep rest => 0 < max ∧ shardsOk rest
          end
      | Run v => stored s (g_shard g) (g_key g) v (g_now g)
      | Load _ | Full _ | SweepCall | SweepLock | Relock => 0 < max
      | Cas n _ => 0 < max ∧ n < max
      | Sweep rest => 0 < max ∧ shardsOk rest
      | StillFull => 0 < max ∧ isLRU s = true
      | EvictOther rest => 0 < max ∧ isLRU s = true ∧ shardsOk rest
      | Reject => 0 < max ∧ isLRU s = false
      | _ => True
      end
  end.

(** A goroutine between its reservation and the insertion. *)
Definition reserved g : nat := match g_pc g with Recheck => 1 | _ => 0 end.

Lemma pc_ok_home s g : pc_ok s g → home g.
Proof. unfold pc_ok, home. destruct g as [key now i p]. cbn [g_pc]. destruct p; try done. destruct k; naive_solver. Qed.

(** It depends on the locked shard only. *)
Lemma pc_ok_frame s s' g :
  opts s' = opts s → length (shards s') = length (shards s) →
  (∀ j, holds g = Some j → shardAt s' j = shardAt s j) → pc_ok s g → pc_ok s' g.
Proof.
  intros Ho Hl Hs. unfold pc_ok, stored, batch_ok, isLRU. rewrite Ho, Hl.
  rewrite (shardFor_length s s' _ Hl). unfold holds in Hs.
  destruct g as [key now i []]; cbn [g_pc g_key g_now g_shard] in *; try done; rewrite Hs; done.
Qed.

Lemma all_shards s : Forall (fun j => (j < length (shards s))%nat) (seq 0 (length (shards s))).
Proof. apply Forall_forall. intros j Hj%elem_of_seq. lia. Qed.

(** *** A step keeps the invariant, and does what the atomic store may do *)

Definition step_ok (n : Z) s g s' (p : pc T) (r : option (Result * option error)) : Prop :=
  store_inv (n + Z.of_nat (reserved (next g p))) s' ∧ pc_ok s' (next g p) ∧
  ∀ h, astep create fn (opts s) (abs s, h)
         (abs s', h ++ match r with Some r => [(g_key g, g_now g, r)] | None => [] end).

Lemma astep_same o m h : astep create fn o (m, h) (m, h ++ []).
Proof. rewrite app_nil_r. apply (astep_drop create fn o 0). apply drops_refl. Qed.

Lemma astep_expire o now m m' h :
  drops (expiredAt o now) m m' → astep create fn o (m, h) (m', h ++ []).
Proof.
  rewrite app_nil_r. intros Hd. apply (astep_drop create fn o now). eapply drops_weaken; [|exact Hd].
  intros k v Hv. by left.
Qed.

Lemma astep_evict n o s s' k h :
  evicted_one n s s' k → isLRU s = true → opts s = o → 0 < Options.maxKeys o →
  astep create fn o (abs s, h) (abs s', h ++ []).
Proof.
  rewrite app_nil_r. intros (_ & _ & _ & _ & _ & -> & _) El <- Hm.
  apply (astep_drop create fn _ 0). split; [apply delete_subseteq|]. intros k' v Hk Hn. right.
  split; [|done]. by apply Z.eqb_eq.
Qed.

Lemma inv_add0 n s : store_inv n s → store_inv (n + Z.of_nat 0) s.
Proof. by rewrite Z.add_0_r. Qed.

Section Step.
Context (n : Z) (ord : range_order T) (s : shardedStore T) (key : string) (now : Time).
Hypothesis Hn : 0 <= n.
Let i := shardFor s key.
Let outcome (p : pc T) : Prop :=
  let '(s', p', r) := advance create fn ord s (mkGoroutine key now i p) in
  step_ok n s (mkGoroutine key now i p) s' p' r.

(** Steps that only move on. *)
Lemma stay_ok p p' r :
  store_inv n s → pc_ok s (mkGoroutine key now i p') → reserved (mkGoroutine key now i p') = 0%nat →
  r = None → step_ok n s (mkGoroutine key now i p) s p' r.
Proof.
  intros Hinv Hp Hr ->. split_and!; [|done|intros h; apply astep_same].
  unfold next. cbn [g_key g_now g_shard]. rewrite Hr. by apply inv_add0.
Qed.

(** Starting a cleanup pass of shard [j], in a store that differs from the
    one at the start of the step at most by a touched key. *)
Lemma startClean_step s1 j k p :
  store_inv n s1 → within j s s1 → (j < length (shards s))%nat →
  (∀ h, astep create fn (opts s) (abs s, h) (abs s1, h)) →
  match k with
  | AfterHit v => j = i ∧ abs s1 !! key = Some (v, now)
  | AfterMiss => j = i
  | AfterSweep rest =>
      0 < Options.maxKeys (opts s) ∧ Forall (fun j => (j < length (shards s))%nat) rest
  end →
  let '(s', b) := startClean ord s1 j now in
  step_ok n s (mkGoroutine key now i p) s' (Clean j b k) None.
Proof.
  intros H1 Hw Hj Ha Hk. pose proof Hw as (Ho & Hl & _).
  assert ((j < length (shards s1))%nat) as Hj1 by lia.
  pose proof (startClean_ok n ord s1 j now H1 Hj1) as Hc.
  pose proof (startClean_within ord j s1 now) as Hw2.
  destruct (startClean ord s1 j now) as [s2 b]. destruct Hc as (H2 & Hab & Hb & Hm).
  destruct (within_trans _ _ _ _ Hw Hw2) as (Ho2 & Hl2 & _). simpl in *.
  split_and!; [by apply inv_add0| |intros h; rewrite app_nil_r, Hab; apply Ha].
  unfold pc_ok. cbn [g_pc next g_key g_now g_shard]. rewrite Ho2, Hl2, (shardFor_length s s2 key Hl2).
  split_and!; [done|done|done|]. destruct k as [v| |rest]; [|done|done].
  destruct Hk as [-> Hk]. split; [done|]. unfold stored. rewrite Hm.
  rewrite (abs_lookup n s1 H1), (shardFor_length s s1 key Hl) in Hk. done.
Qed.

Lemma lookup_step : store_inv n s → outcome Lookup.
Proof.
  intros Hinv. unfold outcome. cbn [advance]. pose proof (touchKey_ok n s key now Hinv) as Ht.
  pose proof (shardFor_lt n s Hinv key) as Hi. fold i in Ht, Hi.
  destruct (touchKey s i key now) as [[v s1]|] eqn:E.
  - destruct Ht as ([t Hk] & H1 & Ha). apply touchKey_within in E.
    pose proof (startClean_step s1 i (AfterHit v) Lookup H1 E Hi) as Hs.
    destruct (startClean ord s1 i now). apply Hs.
    + intros h. rewrite Ha. by apply (astep_touch create fn _ key now v t).
    + split; [done|]. rewrite Ha. apply lookup_insert_eq.
  - pose proof (startClean_step s i AfterMiss Lookup Hinv (within_refl i s) Hi) as Hs.
    destruct (startClean ord s i now). apply Hs; [|done].
    intros h. rewrite <- (app_nil_r h) at 2. apply astep_same.
Qed.

Lemma clean_step j b k :
  store_inv n s → pc_ok s (mkGoroutine key now i (Clean j b k)) → outcome (Clean j b k).
Proof.
  intros Hinv (Hg & Hj & Hb & Hk). unfold outcome. cbn [advance].
  cbn [g_pc g_key g_now g_shard] in *. destruct (deleteNext s j b) as [[s1 b1]|] eqn:E.
  - destruct (deleteNext_ok n s j now b s1 b1 Hinv Hj Hb E) as (H1 & Hd & Hb1 & Hst).
    apply deleteNext_within in E as (Ho & Hl & _).
    split_and!; [by apply inv_add0| |intros h; by eapply astep_expire].
    unfold pc_ok. cbn [g_pc next g_key g_now g_shard]. rewrite Ho, Hl, (shardFor_length s s1 key Hl).
    split_and!; try done. destruct k; [|done..]. destruct Hk as [-> Hk]. by split; [|apply Hst].
  - destruct k as [v| |rest]; apply stay_ok; try done; unfold pc_ok; cbn; [|naive_solver..].
    destruct Hk as [-> Hk]. done.
Qed.

Lemma run_step v :
  store_inv n s → stored s i key v now → outcome (Run v).
Proof.
  intros Hinv Hst. unfold outcome. cbn [advance]. unfold stored in Hst.
  rewrite <- (abs_lookup n s Hinv) in Hst. destruct (fn v now) as [v' r] eqn:Ef.
  destruct (runFn_ok n s key now Hinv v v' r Hst Ef) as (Hr & H1 & Ha). fold i in Hr, H1, Ha.
  destruct (runFn fn s i key now v) as [s1 r1]. simpl in *. subst r1.
  split_and!; [by apply inv_add0|done|]. intros h. simpl. rewrite Ha.
  apply astep_decide; [by rewrite Hst|by rewrite Hst].
Qed.

(** The insertion, or the use of a key that another goroutine has inserted
    in the meantime, which gives the reservation back. *)
Lemma recheck_step : store_inv (n + 1) s → outcome Recheck.
Proof.
  intros Hinv. unfold outcome. cbn [advance].
  pose proof (touchKey_ok _ s key now Hinv) as Ht. fold i in Ht.
  destruct (touchKey s i key now) as [[v s1]|] eqn:E.
  - destruct Ht as ([t Hk] & H1 & Ha). apply touchKey_within in E as (Ho & Hl & _).
    assert (store_inv n (withLive s1 (live s1 - 1))) as H2.
    { destruct H1 as [? ? ? ? Hv Hm ?]. constructor; try done; unfold total in *; simpl; [lia|].
      intros ?. specialize (Hm ltac:(done)). lia. }
    destruct (fn v now) as [v' r] eqn:Ef.
    destruct (runFn_ok n _ key now H2 v v' r) as (Hr & H3 & Ha3);
      [change (abs (withLive s1 _)) with (abs s1); rewrite Ha; apply lookup_insert_eq|done|].
    change (abs (withLive s1 _)) with (abs s1) in Ha3. rewrite Ha, insert_insert_eq in Ha3.
    rewrite (shardFor_length s (withLive s1 (live s1 - 1)) key Hl) in Hr, H3, Ha3. fold i in Hr, H3, Ha3.
    destruct (runFn fn _ i key now v) as [s4 r1]. simpl in *. subst r1.
    split_and!; [by apply inv_add0|done|]. intros h. simpl. rewrite Ha3.
    apply astep_decide; [by rewrite Hk|by rewrite Hk].
  - destruct (insertKey_ok n s key now (create now) Hinv Ht) as [H1 Ha]. fold i in H1, Ha.
    destruct (insertKey_within i s key now (create now)) as (Ho & Hl & _).
    destruct (fn (create now) now) as [v' r] eqn:Ef.
    destruct (runFn_ok n _ key now H1 (create now) v' r) as (Hr & H3 & Ha3);
      [rewrite Ha; apply lookup_insert_eq|done|].
    rewrite Ha, insert_insert_eq in Ha3. rewrite (shardFor_length s _ key Hl) in Hr, H3, Ha3. fold i in Hr, H3, Ha3.
    destruct (runFn fn _ i key now _) as [s4 r1]. simpl in *. subst r1.
    split_and!; [by apply inv_add0|done|]. intros h. simpl. rewrite Ha3.
    apply astep_decide; [by rewrite Ht|]. intros _ Hm.
    pose proof (live_eq _ s Hinv). pose proof (inv_max _ s Hinv Hm). lia.
Qed.

Lemma evict_step j p p1 p0 :
  store_inv n s → isLRU s = true → 0 < Options.maxKeys (opts s) → (j < length (shards s))%nat →
  (∀ s', within j s s' → pc_ok s' (mkGoroutine key now i p1)) → pc_ok s (mkGoroutine key now i p0) →
  reserved (mkGoroutine key now i p1) = 0%nat → reserved (mkGoroutine key now i p0) = 0%nat →
  let '(evicted, s') := evictFrom s j in
  step_ok n s (mkGoroutine key now i p) s' (if evicted then p1 else p0) None.
Proof.
  intros Hinv El Hm Hj Hp1 Hp0 Hr1 Hr0. pose proof (evictFrom_within j s) as Hw.
  destruct (evictFrom_cases n s j Hinv El Hj) as [[-> _]|(s' & k & He & Hone & _)].
  { by apply stay_ok. }
  rewrite He in *. split_and!.
  - unfold next. cbn [g_key g_now g_shard]. rewrite Hr1. apply inv_add0, Hone.
  - by apply Hp1.
  - intros h. by eapply astep_evict.
Qed.

End Step.

Lemma afterSweep_ok s key now :
  0 < Options.maxKeys (opts s) →
  pc_ok s (mkGoroutine key now (shardFor s key) (afterSweep s)) ∧
  reserved (mkGoroutine key now (shardFor s key) (afterSweep s)) = 0%nat.
Proof. intros Hm. unfold pc_ok, afterSweep, reserved. destruct (isLRU s) eqn:E; simpl; rewrite ?E; done. Qed.

(** Taking a slot: the counter grows by one and so do the reservations. *)
Lemma take_slot n s key now p :
  0 <= n → store_inv n s → (0 < Options.maxKeys (opts s) → live s < Options.maxKeys (opts s)) →
  let i := shardFor s key in
  step_ok n s (mkGoroutine key now i p) (withLive s (live s + 1)) Recheck None.
Proof.
  intros Hn Hinv Hlt i. split_and!; [by apply (withLive_inv n)|done|intros h; apply astep_same].
Qed.

Lemma full_step n ord s key now swept :
  store_inv n s → 0 < Options.maxKeys (opts s) →
  let g := mkGoroutine key now (shardFor s key) (Full swept) in
  let '(s', p, r) := advance create fn ord s g in step_ok n s g s' p r.
Proof.
  intros H0 Hm. cbn [advance]. destruct (isLRU s) eqn:El.
  - pose proof (evict_step n s key now (shardFor s key) (Full swept) (Load swept)
      (if swept then StillFull else SweepCall) H0 El Hm (shardFor_lt n s H0 key)) as He.
    destruct (evictFrom s (shardFor s key)) as [ev s1]. destruct ev, swept; apply He; try done;
      intros s2 (Ho & Hl & _); unfold pc_ok; cbn; rewrite Ho, (shardFor_length s s2 key Hl); done.
  - destruct swept; by apply stay_ok.
Qed.

Lemma sweepLock_step n ord s key now :
  store_inv n s → 0 < Options.maxKeys (opts s) →
  let g := mkGoroutine key now (shardFor s key) SweepLock in
  let '(s', p, r) := advance create fn ord s g in step_ok n s g s' p r.
Proof.
  intros H0 Hm. cbn [advance]. destruct (_ <? _).
  { destruct (afterSweep_ok s key now Hm). by apply stay_ok. }
  split_and!; [|split_and!; [done|done|exact (all_shards s)]|intros h; apply astep_same].
  apply inv_add0. by destruct H0; constructor.
Qed.

Lemma advance_ok n ord s g :
  0 <= n → store_inv (n + Z.of_nat (reserved g)) s → pc_ok s g → g_pc g ≠ Idle →
  let '(s', p, r) := advance create fn ord s g in step_ok n s g s' p r.
Proof.
  intros Hn Hinv Hp Hpc. destruct g as [key now i p]. cbn [g_pc] in Hpc.
  assert (i = shardFor s key) as -> by (unfold pc_ok in Hp; simpl in Hp; by destruct p; try destruct Hp).
  assert (p = Recheck ∨ p ≠ Recheck) as [->|Hne] by (destruct p; auto).
  { by apply recheck_step. }
  assert (store_inv n s) as H0.
  { destruct p; simpl in Hinv; rewrite ?Z.add_0_r in Hinv; done. }
  clear Hinv. destruct p as [| | |j b k|v| |swept|c swept|swept| | |[|j rest]| |[|j rest]| | |];
    try done; cbn [advance].
  - by apply stay_ok.
  - by apply lookup_step.
  - by apply clean_step.
  - apply run_step; [done|done|]. by destruct Hp.
  - destruct (Z.leb_spec (Options.maxKeys (opts s)) 0); [apply take_slot; [done|done|lia]|].
    by apply stay_ok.
  - destruct Hp as [_ Hm]. destruct (Z.ltb_spec (live s) (Options.maxKeys (opts s))); by apply stay_ok.
  - destruct Hp as (_ & Hm & Hc). destruct (Z.eqb_spec (live s) c) as [<-|]; [|by apply stay_ok].
    apply take_slot; [done|done|]. cbn in *. lia.
  - destruct Hp as [_ Hm]. by apply full_step.
  - destruct Hp as [_ Hm]. destruct (_ || _); [|by apply stay_ok].
    destruct (afterSweep_ok s key now Hm). by apply stay_ok.
  - destruct Hp as [_ Hm]. by apply sweepLock_step.
  - destruct Hp as (_ & Hm & _). destruct (afterSweep_ok s key now Hm). by apply stay_ok.
  - destruct Hp as (_ & Hm & Hr). apply Forall_cons in Hr as [Hj Hr].
    pose proof (startClean_step n ord s key now s j (AfterSweep rest) (Sweep (j :: rest)) H0
      (within_refl j s) Hj) as Hs.
    destruct (startClean ord s j now). apply Hs; [|done].
    intros h. rewrite <- (app_nil_r h) at 2. apply astep_same.
  - destruct Hp as (_ & Hm & El). destruct (_ <=? _); apply stay_ok; try done.
    split_and!; [done|done|done|apply all_shards].
  - destruct Hp as (_ & Hm & _). by apply stay_ok.
  - destruct Hp as (_ & Hm & El & Hr). apply Forall_cons in Hr as [Hj Hr].
    destruct (Nat.eqb j (shardFor s key)); [by apply stay_ok|].
    pose proof (evict_step n s key now j (EvictOther (j :: rest)) Relock (EvictOther rest) H0 El Hm Hj) as He.
    destruct (evictFrom s j) as [ev s1]. apply He; try done.
    intros s2 (Ho & Hl & _). unfold pc_ok. cbn. by rewrite Ho, (shardFor_length s s2 key Hl).
  - by apply stay_ok.
  - destruct Hp as (_ & Hm & El). split_and!; [by apply inv_add0|done|].
    intros h. simpl. apply astep_full; [|done]. pose proof (Options.ok_eviction _ (inv_opts n s H0)) as He.
    apply Z.eqb_neq in El. tauto.
Qed.

(** ** The invariant of a configuration *)

Definition reservations (c : config T) : Z := Z.of_nat (sum_list_with reserved (c_gs c)).

Record cinv (c : config T) : Prop := {
  cinv_store : store_inv (reservations c) (c_store c);
  cinv_pcs : ∀ t g, c_gs c !! t = Some g → pc_ok (c_store c) g;
  cinv_mutex : ∀ t u g g' j, c_gs c !! t = Some g → c_gs c !! u = Some g' →
    holds g = Some j → holds g' = Some j → t = u;
  cinv_sweep : ∀ t u g g', c_gs c !! t = Some g → c_gs c !! u = Some g' →
    holdsSweep g = true → holdsSweep g' = true → t = u
}.

Lemma sum_gs_insert (gs : list (goroutine T)) t g g' :
  gs !! t = Some g →
  (sum_list_with reserved (<[t := g']> gs) + reserved g = sum_list_with reserved gs + reserved g')%nat.
Proof.
  revert t. induction gs as [|g0 gs IH]; intros [|t] H; simplify_eq/=; [lia|]. specialize (IH t H). lia.
Qed.

Lemma lockFree_shard (gs : list (goroutine T)) j t g :
  lockFree gs (ShardMu j) = true → gs !! t = Some g → holds g ≠ Some j.
Proof.
  unfold lockFree. intros Hf Hg Hh. rewrite forallb_forall in Hf.
  specialize (Hf g). rewrite bool_decide_true in Hf by done. simpl in Hf. 
  assert (false = true) by (apply Hf, list_elem_of_In; by eapply list_elem_of_lookup_2). done.
Qed.

Lemma lockFree_sweep (gs : list (goroutine T)) t g :
  lockFree gs SweepMu = true → gs !! t = Some g → holdsSweep g = false.
Proof.
  unfold lockFree. intros Hf Hg. rewrite forallb_forall in Hf. apply negb_true_iff.
  apply Hf, list_elem_of_In. by eapply list_elem_of_lookup_2.
Qed.

(** At most one goroutine satisfies [H]. *)
Definition unique (H : goroutine T → Prop) (gs : list (goroutine T)) : Prop :=
  ∀ t u g g', gs !! t = Some g → gs !! u = Some g' → H g → H g' → t = u.

Lemma unique_insert H gs t g g' :
  unique H gs → gs !! t = Some g →
  (H g' → H g ∨ ∀ u gu, gs !! u = Some gu → ¬ H gu) → unique H (<[t := g']> gs).
Proof.
  intros Hu Ht Hnew a b ga gb Ha Hb HHa HHb.
  apply list_lookup_insert_Some in Ha as [(<- & <- & _)|[Hna Ha]],
    Hb as [(<- & <- & _)|[Hnb Hb]]; [done| | |by eapply Hu].
  - destruct (Hnew HHa) as [Hg|Hfree]; [by eapply Hu|by destruct (Hfree b gb Hb)].
  - destruct (Hnew HHb) as [Hg|Hfree]; [by eapply Hu|by destruct (Hfree a ga Ha)].
Qed.

Lemma canStep_spec (gs : list (goroutine T)) g :
  canStep gs g = true →
  g_pc g ≠ Idle ∧
  (∀ j, wants g = Some (ShardMu j) → ∀ u gu, gs !! u = Some gu → holds gu ≠ Some j) ∧
  (wants g = Some SweepMu → ∀ u gu, gs !! u = Some gu → holdsSweep gu = false).
Proof.
  intros Hc. assert (g_pc g ≠ Idle) as Hne by (intros Hi; unfold canStep in Hc; by rewrite Hi in Hc).
  assert (∀ l, wants g = Some l → lockFree gs l = true) as Hf.
  { intros l Hl. unfold canStep in Hc. rewrite Hl in Hc. by destruct (g_pc g). }
  split_and!; [done|..].
  - intros j Hw u gu. by apply lockFree_shard, Hf.
  - intros Hw u gu. by apply lockFree_sweep, Hf.
Qed.

Section Move.
Context (ord : range_order T) (c : config T) (t : nat) (g : goroutine T).
Hypothesis Hc : cinv c.
Hypothesis Hg : c_gs c !! t = Some g.
Hypothesis Hstep : canStep (c_gs c) g = true.

(** The locked shard of another goroutine does not change. *)
Lemma move_frame u gu :
  u ≠ t → c_gs c !! u = Some gu → pc_ok (c_store (move create fn ord c t g)) gu.
Proof.
  intros Hne Hu. destruct (canStep_spec _ _ Hstep) as (_ & Hw & _).
  pose proof (advance_opts ord (c_store c) g) as Ho.
  pose proof (fun j => advance_frame ord (c_store c) g j) as Hf. unfold move.
  destruct (advance create fn ord (c_store c) g) as [[s' p] r]. destruct Ho as [Ho Hl]. simpl.
  eapply pc_ok_frame; [exact Ho|exact Hl| |by eapply cinv_pcs].
  intros j Hj. apply Hf; [|intros Hwj; by eapply Hw].
  intros Hh. apply Hne. by eapply (cinv_mutex c Hc u t gu g j).
Qed.

Lemma move_inv :
  let c' := move create fn ord c t g in
  cinv c' ∧ opts (c_store c') = opts (c_store c) ∧
  astep create fn (opts (c_store c)) (abs (c_store c), c_hist c) (abs (c_store c'), c_hist c').
Proof.
  destruct (canStep_spec _ _ Hstep) as (Hne & Hw & Hws). pose proof Hc as [Hst Hpcs Hmx Hsw].
  pose proof (sum_gs_insert (c_gs c) t g) as Hsum. unfold reservations in Hst.
  set (n := Z.of_nat (sum_list_with reserved (c_gs c)) - Z.of_nat (reserved g)) in *.
  assert (0 <= n) as Hn.
  { specialize (Hsum (next g Idle) Hg). unfold n. unfold reserved at 4 in Hsum. simpl in Hsum. lia. }
  pose proof (advance_ok n ord (c_store c) g Hn) as Hok. pose proof move_frame as Hframe.
  pose proof (advance_locks ord (c_store c) g (pc_ok_home _ _ (Hpcs t g Hg))) as Hlk.
  pose proof (advance_opts ord (c_store c) g) as Ho. unfold move in *.
  destruct (advance create fn ord (c_store c) g) as [[s' p] r]. simpl in *.
  destruct Hok as (H1 & H2 & H3); [|by apply (Hpcs t)|done|].
  { unfold n. replace (_ - _ + _) with (Z.of_nat (sum_list_with reserved (c_gs c))) by lia. done. }
  destruct Hlk as [Hl1 Hl2]. split_and!; [|by destruct Ho|done]. constructor; simpl.
  - unfold reservations. simpl. specialize (Hsum (next g p) Hg).
    replace (Z.of_nat _) with (n + Z.of_nat (reserved (next g p))) by (unfold n, next in *; lia). done.
  - intros u gu Hu. apply list_lookup_insert_Some in Hu as [(<- & <- & _)|[Hnu Hu]]; [done|].
    by apply (Hframe u).
  - intros a b ga gb j Ha Hb.
    refine (unique_insert (fun g => holds g = Some j) _ t g _ _ Hg _ a b ga gb Ha Hb).
    + intros a' b' ga' gb'. by apply Hmx.
    + intros Hh. destruct (Hl1 j Hh); [by left|right]. by apply Hw.
  - eapply (unique_insert (fun g => holdsSweep g = true)); [done|done|].
    intros Hh. destruct (Hl2 Hh); [by left|right]. intros u gu Hu. by rewrite (Hws ltac:(done) u gu Hu).
Qed.
End Move.

Lemma call_inv c t g key now :
  cinv c → c_gs c !! t = Some g → g_pc g = Idle →
  cinv (call c t key now).
Proof.
  intros [Hst Hpcs Hmx Hsw] Hg Hidle. unfold call. set (g' := mkGoroutine _ _ _ _). constructor; simpl.
  - unfold reservations in *. simpl. pose proof (sum_gs_insert (c_gs c) t g g' Hg) as Hsum.
    unfold reserved at 2 4 in Hsum. rewrite Hidle in Hsum. simpl in Hsum.
    replace (sum_list_with reserved (<[t:=g']> (c_gs c))) with (sum_list_with reserved (c_gs c)) by lia.
    done.
  - intros u gu Hu. apply list_lookup_insert_Some in Hu as [(<- & <- & _)|[Hnu Hu]]; [done|].
    by eapply Hpcs.
  - intros a b ga gb j Ha Hb.
    refine (unique_insert (fun g => holds g = Some j) _ t g _ _ Hg _ a b ga gb Ha Hb); [|done].
    intros a' b' ga' gb'. by apply Hmx.
  - eapply (unique_insert (fun g => holdsSweep g = true)); [done|done|by left].
Qed.

Lemma start_inv o m : Options.options_ok o → cinv (start (T := T) o m) ∧ abs (c_store (start (T := T) o m)) = ∅.
Proof.
  intros Ho. destruct (newStore_ok (T := T) o Ho) as [[Hinv _] Ha]. split; [|done].
  assert (∀ t g, c_gs (start (T := T) o m) !! t = Some g → g = mkGoroutine "" 0 0 Idle) as Hidle
    by by intros t g [-> _]%lookup_replicate.
  constructor.
  - assert (sum_list_with reserved (c_gs (start (T := T) o m)) = 0%nat) as Hz.
    { simpl. clear. induction m as [|m IH]; simpl; done. }
    unfold reservations. by rewrite Hz.
  - by intros t g ->%Hidle.
  - by intros t u g g' j ->%Hidle.
  - by intros t u g g' ->%Hidle.
Qed.

(** Idle goroutines hold no reservation. *)
Lemma idle_reservations (c : config T) :
  Forall (fun g => g_pc g = Idle) (c_gs c) → reservations c = 0.
Proof.
  unfold reservations. induction 1 as [|g gs Hg _ IH]; [done|]. simpl. unfold reserved at 1.
  rewrite Hg. lia.
Qed.

(** ** Reachable configurations *)

Lemma creach_inv o m c :
  Options.options_ok o → rtc (cstep create fn) (start o m) c →
  cinv c ∧ opts (c_store c) = o ∧ rtc (astep create fn o) (∅, []) (abs (c_store c), c_hist c).
Proof.
  intros Ho Hr. destruct (start_inv o m Ho) as [H0 Ha0].
  revert c Hr. apply (rtc_ind_r (fun c => cinv c ∧ opts (c_store c) = o ∧
    rtc (astep create fn o) (∅, []) (abs (c_store c), c_hist c))).
  { split_and!; [done|done|]. by rewrite Ha0. }
  intros c1 c2 _ Hs IH.
  destruct IH as (H1 & Ho1 & Ha1). destruct Hs as [c1 t g key now Hg Hi|ord c1 t g Hg Hcan _].
  - split_and!; [by eapply call_inv|done|done].
  - destruct (move_inv ord c1 t g H1 Hg Hcan) as (H2 & Ho2 & Ha2). rewrite Ho1 in *.
    split_and!; [done|congruence|]. eapply rtc_r; [exact Ha1|exact Ha2].
Qed.

Lemma execute_reach c steps c' : execute create fn c steps = Some c' → rtc (cstep create fn) c c'.
Proof.
  revert c. induction steps as [|[t act] steps IH]; intros c He; simpl in He; [by injection He as ->|].
  destruct (schedule create fn c (t, act)) as [c1|] eqn:Es; [|done].
  eapply rtc_l; [|by apply IH]. unfold schedule in Es. simpl in Es.
  destruct (c_gs c !! t) as [g|] eqn:Eg; [|done]. destruct act as [[key now]|].
  - destruct (g_pc g) eqn:Ep; try done. injection Es as <-. by eapply step_call.
  - destruct (canStep (c_gs c) g) eqn:Ec; [|done]. injection Es as <-. apply step_move; [done|done|].
    by intros i m.
Qed.

End Facts.
End ConcurrentFacts.
