(* ===== verification/ConcurrentProps.v ===== *)
(** * ConcurrentProps: what the sharded store promises to concurrent callers

    Every execution of any number of goroutines refines the atomic store;
    the counter and the key limit are exact at every point; the locks cannot
    deadlock; and the decisions about one key are those of one caller that
    makes them one after another. *)

From Stdlib Require Import ZArith Lia Bool.
From stdpp Require Import base gmap strings list relations.
From S2P Require Import Prelude Core GoTime Hash Options ShardedStore StoreFacts StoreSpec StateStore.
From S2P Require Import MemoryLimiter Concurrent ConcurrentFacts.

#[local] Open Scope Z_scope.

Module ConcurrentProps.
Import Store Concurrent ConcurrentFacts.

(** ** No deadlock *)

Section Deadlock.
Context {T : Type}.
Implicit Types (g : goroutine T) (gs : list (goroutine T)).

Lemma holds_wants g j : holds g = Some j → wants g = None ∧ g_pc g ≠ Idle.
Proof. unfold holds, wants. by destruct (g_pc g). Qed.

Lemma canStep_free gs g :
  g_pc g ≠ Idle → (∀ l, wants g = Some l → lockFree gs l = true) → canStep gs g = true.
Proof. intros Hne Hf. unfold canStep. destruct (wants g) as [l|]; [rewrite Hf by done|]; by destruct (g_pc g). Qed.

(** Either a lock is free or a goroutine of the list holds it. *)
Lemma lockFree_or gs l :
  lockFree gs l = true ∨
  ∃ t g, gs !! t = Some g ∧ match l with ShardMu j => holds g = Some j | SweepMu => holdsSweep g = true end.
Proof.
  destruct (lockFree gs l) eqn:E; [by left|right].
  destruct l as [j|]; unfold lockFree in E;
    apply not_true_iff_false in E; rewrite forallb_forall in E.
  - destruct (decide (Exists (fun g => holds g = Some j) gs)) as [(g & Hg & Hh)%Exists_exists|Hn].
    + apply list_elem_of_lookup in Hg as [t Hg]. eauto.
    + exfalso. apply E. intros g Hg%list_elem_of_In. rewrite bool_decide_false; [done|].
      intros Hh. apply Hn. by apply Exists_exists; exists g.
  - destruct (decide (Exists (fun g => holdsSweep g = true) gs)) as [(g & Hg & Hh)%Exists_exists|Hn].
    + apply list_elem_of_lookup in Hg as [t Hg]. eauto.
    + exfalso. apply E. intros g Hg%list_elem_of_In. apply negb_true_iff, not_true_iff_false.
      intros Hh. apply Hn. by apply Exists_exists; exists g.
Qed.

(** A goroutine that takes a shard lock or none gets on, or the holder of
    that lock does. *)
Lemma shard_progress gs t g :
  gs !! t = Some g → g_pc g ≠ Idle → wants g ≠ Some SweepMu →
  ∃ u gu, gs !! u = Some gu ∧ canStep gs gu = true.
Proof.
  intros Hg Hne Hw. destruct (wants g) as [[j|]|] eqn:E; [|done|].
  - destruct (lockFree_or gs (ShardMu j)) as [Hf|(u & gu & Hu & Hh)].
    + exists t, g. split; [done|]. apply canStep_free; [done|]. intros l. rewrite E. congruence.
    + apply holds_wants in Hh as [Hwu Hnu]. exists u, gu. split; [done|].
      apply canStep_free; [done|]. by rewrite Hwu.
  - exists t, g. split; [done|]. apply canStep_free; [done|]. by rewrite E.
Qed.

Lemma progress gs t g :
  gs !! t = Some g → g_pc g ≠ Idle → ∃ u gu, gs !! u = Some gu ∧ canStep gs gu = true.
Proof.
  intros Hg Hne. destruct (wants g) as [[j|]|] eqn:E; [by apply (shard_progress gs t g); rewrite ?E| |
    by apply (shard_progress gs t g); rewrite ?E].
  destruct (lockFree_or gs SweepMu) as [Hf|(u & gu & Hu & Hh)].
  - exists t, g. split; [done|]. apply canStep_free; [done|]. intros l. rewrite E. congruence.
  - apply (shard_progress gs u gu Hu); unfold holdsSweep, wants in *; destruct (g_pc gu) as [| | |?|?|?|?|?|?|?|?|[|]|?|?|?|?|?]; done.
Qed.
End Deadlock.

(** ** Decisions about one key *)

(** The calls for [key] that were decided, with their instants and results,
    in the order in which they returned. *)
Definition servedIn (key : string) (h : list event) : list (Time * Result) :=
  omap (fun e => let '(k, now, (r, err)) := e in
          if bool_decide (k = key ∧ err = None) then Some (now, r) else None) h.

Section Serial.
Context {T : Type} (create : Time → T) (fn : T → Time → T * (Result * option error)).
Context (o : Options.options).
Hypothesis Hkeep : Options.keyTTL o <= 0 ∧ (Options.maxKeys o <= 0 ∨ Options.eviction o = Options.EvictReject).
Hypothesis Htotal : ∀ v now, (fn v now).2.2 = None.

Lemma keep_all now (m m' : gmap string (T * Time)) :
  StoreSpec.drops (discards o now) m m' → m' = m.
Proof.
  intros [Hsub HQ]. apply map_eq. intros k. destruct (m' !! k) as [v|] eqn:E.
  - symmetry. by eapply lookup_weaken.
  - destruct (m !! k) as [v|] eqn:Em; [|done]. exfalso. destruct Hkeep as [Httl Hev].
    unfold Options.EvictReject in Hev.
    destruct (HQ k v Em E) as [[? _]|[He ?]]; [lia|unfold Options.EvictLRU in He; lia].
Qed.

Lemma replay_snoc v nows now :
  let '(v1, rs) := MemoryLimiter.replay fn v nows in
  MemoryLimiter.replay fn v (nows ++ [now]) = ((fn v1 now).1, rs ++ [(fn v1 now).2.1]).
Proof.
  revert v. induction nows as [|t nows IH]; intros v.
  - simpl. by destruct (fn v now) as [v' [r e]].
  - cbn [MemoryLimiter.replay app]. destruct (fn v t) as [v' [r e]]. specialize (IH v').
    destruct (MemoryLimiter.replay fn v' nows) as [v1 rs]. by rewrite IH.
Qed.

(** What the history says about a key in state [ov]. *)
Definition serial (ov : option T) (served : list (Time * Result)) : Prop :=
  match ov, served with
  | None, [] => True
  | Some v, (first, _) :: _ => MemoryLimiter.replay fn (create first) served.*1 = (v, served.*2)
  | _, _ => False
  end.

Lemma serial_step ov served now v' r err :
  serial ov served → fn (default (create now) ov) now = (v', (r, err)) →
  serial (Some v') (served ++ [(now, r)]).
Proof.
  intros Hs Hf. unfold serial in Hs. destruct ov as [v|], served as [|[first r0] served]; try done.
  - unfold serial. rewrite <- app_comm_cons. cbv iota beta. rewrite app_comm_cons, !fmap_app.
    pose proof (replay_snoc (create first) ((first, r0) :: served).*1 now) as Hr. rewrite Hs in Hr.
    simpl in Hf. rewrite Hf in Hr. exact Hr.
  - simpl in *. by rewrite Hf.
Qed.

Lemma servedIn_app key h e :
  servedIn key (h ++ [e]) = servedIn key h ++ servedIn key [e].
Proof. unfold servedIn. by rewrite omap_app. Qed.

Lemma astep_serial key a a' :
  astep create fn o a a' → serial (fst <$> a.1 !! key) (servedIn key a.2) →
  serial (fst <$> a'.1 !! key) (servedIn key a'.2).
Proof.
  intros [now m m' h Hd|k now v t m h Hk|k now m h v' [r err] Hf _|k now m h _ _]; simpl; intros Hs.
  - by rewrite (keep_all now m m' Hd).
  - destruct (decide (k = key)) as [->|]; [|by rewrite lookup_insert_ne].
    rewrite lookup_insert_eq. by rewrite Hk in Hs.
  - rewrite servedIn_app. unfold servedIn at 2. simpl.
    destruct (decide (k = key)) as [->|Hne].
    + pose proof (Htotal (default (create now) (fst <$> m !! key)) now) as Hn. rewrite Hf in Hn.
      simpl in Hn. subst err. rewrite bool_decide_true by done. rewrite lookup_insert_eq.
      by eapply serial_step.
    + rewrite bool_decide_false by naive_solver. by rewrite app_nil_r, lookup_insert_ne.
  - rewrite servedIn_app. unfold servedIn at 2. simpl.
    rewrite bool_decide_false by naive_solver. by rewrite app_nil_r.
Qed.

Lemma reach_serial key a a' :
  rtc (astep create fn o) a a' → serial (fst <$> a.1 !! key) (servedIn key a.2) →
  serial (fst <$> a'.1 !! key) (servedIn key a'.2).
Proof. induction 1 as [|a1 a2 a3 Hs _ IH]; [done|]. intros H. apply IH. by eapply astep_serial. Qed.

Lemma serial_alone ov served :
  serial ov served → served.*2 = MemoryLimiter.alone fn (create := create) None served.*1.
Proof.
  unfold serial. destruct ov as [v|], served as [|[first r0] served]; try done.
  intros Hr. change (((first, r0) :: served).*1) with (first :: served.*1) in *.
  unfold MemoryLimiter.alone. simpl default. by rewrite Hr.
Qed.
End Serial.

Lemma reach_alone {T} (create : Time → T) fn o n c key :
  Options.options_ok o → rtc (cstep create fn) (start o n) c →
  Options.keyTTL o <= 0 ∧ (Options.maxKeys o <= 0 ∨ Options.eviction o = Options.EvictReject) →
  (∀ v now, (fn v now).2.2 = None) →
  (servedIn key (c_hist c)).*2 =
    MemoryLimiter.alone fn (create := create) None (servedIn key (c_hist c)).*1.
Proof.
  intros Ho Hr Hkeep Htotal. destruct (creach_inv create fn o n c Ho Hr) as (_ & _ & Ha).
  eapply serial_alone, (reach_serial create fn o Hkeep Htotal key _ _ Ha). done.
Qed.

(** ** Properties *)

(** A state that counts its uses, and schedules for two goroutines, used by
    the witnesses below. *)
Definition useCount (v : Z) (now : Time) : Z * (Result * option error) :=
  (v + 1, (mkResult true v 0, None)).

Definition twoShards (maxKeys policy : Z) : Options.options :=
  Options.mkOptions maxKeys 0 0 (Some Options.realClock) policy 2 None.

Lemma twoShards_ok maxKeys policy :
  0 <= maxKeys → policy = Options.EvictReject ∨ policy = Options.EvictLRU →
  Options.options_ok (twoShards maxKeys policy).
Proof. intros Hm Hp. constructor; simpl; try done. exists 1. done. Qed.

Definition runs (t n : nat) : list (nat * option (string * Time)) := replicate n (t, None).

(** Two calls for a new key on a full store: both release their lock, both
    evict another key, both reserve a slot, and the second finds the key that
    the first has inserted. *)
Definition raceSchedule : list (nat * option (string * Time)) :=
  [(0%nat, Some ("a", 0))] ++ runs 0 7 ++ [(0%nat, Some ("c", 1))] ++ runs 0 7 ++
  [(0%nat, Some ("b", 2)); (1%nat, Some ("b", 3))] ++
  runs 0 6 ++ runs 1 6 ++ runs 0 2 ++ runs 1 2 ++ runs 0 1 ++ runs 1 1 ++
  runs 0 3 ++ runs 0 1 ++ runs 1 3.

Definition raceConfig : config Z :=
  default (start (twoShards 2 Options.EvictLRU) 2)
    (execute (fun _ => 0) useCount (start (twoShards 2 Options.EvictLRU) 2) raceSchedule).

Lemma raceConfig_reached :
  rtc (cstep (fun _ => 0) useCount) (start (twoShards 2 Options.EvictLRU) 2) raceConfig.
Proof. apply (execute_reach _ _ _ raceSchedule). vm_compute. reflexivity. Qed.

(** C5: refinement under concurrency.  Whatever the number of goroutines and
    however their locks and atomic operations interleave, what the store
    contains and what its callers were told is a behaviour of the atomic
    store, in which each call is one step. *)
Theorem concurrent_refinement {T} (create : Time → T) fn o n c :
  Options.options_ok o → rtc (cstep create fn) (start o n) c →
  rtc (astep create fn o) (∅, []) (StoreSpec.abs (c_store c), c_hist c).
Proof. intros Ho Hr. by apply (creach_inv create fn o n c Ho Hr). Qed.

Lemma concurrent_refinement_witness :
  length (c_hist raceConfig) = 3%nat ∧
  rtc (astep (fun _ => 0) useCount (twoShards 2 Options.EvictLRU)) (∅, [])
    (StoreSpec.abs (c_store raceConfig), c_hist raceConfig).
Proof.
  split; [vm_compute; reflexivity|].
  apply (concurrent_refinement (fun _ => 0) useCount (twoShards 2 Options.EvictLRU) 2 raceConfig).
  - apply twoShards_ok; [lia|by right].
  - exact raceConfig_reached.
Defined.

(** C12: the counter is exact under concurrency.  At every point of every
    execution no shard lock is held twice, [live] is the number of stored
    keys plus the number of goroutines that have reserved a slot and not yet
    filled it, and this sum never exceeds a positive [maxKeys]; between calls
    [live] is the number of stored keys. *)
Theorem concurrent_live_exact {T} (create : Time → T) fn o n c :
  Options.options_ok o → rtc (cstep create fn) (start o n) c →
  (∀ t u g g' j, c_gs c !! t = Some g → c_gs c !! u = Some g' →
     holds g = Some j → holds g' = Some j → t = u) ∧
  live (c_store c) = Z.of_nat (size (StoreSpec.abs (c_store c))) + reservations c ∧
  0 <= reservations c ∧
  (0 < Options.maxKeys o → live (c_store c) <= Options.maxKeys o) ∧
  (Forall (fun g => g_pc g = Idle) (c_gs c) →
     len (c_store c) = Z.of_nat (size (StoreSpec.abs (c_store c)))).
Proof.
  intros Ho Hr. destruct (creach_inv create fn o n c Ho Hr) as (Hc & <- & _).
  pose proof (StoreSpec.live_eq _ _ (cinv_store c Hc)) as Hl. unfold len.
  split_and!; [apply (cinv_mutex c Hc)|done|unfold reservations; lia|
    apply (StoreSpec.inv_max _ _ (cinv_store c Hc))|].
  intros Hidle. pose proof (idle_reservations c Hidle). lia.
Qed.

(** In this configuration the second goroutine holds a reservation for a key
    that is stored. *)
Lemma concurrent_live_exact_witness :
  live (c_store raceConfig) = 2 ∧ reservations raceConfig = 1 ∧
  live (c_store raceConfig) =
    Z.of_nat (size (StoreSpec.abs (c_store raceConfig))) + reservations raceConfig.
Proof.
  split; [vm_compute; reflexivity|]. split; [vm_compute; reflexivity|].
  apply (concurrent_live_exact (fun _ => 0) useCount (twoShards 2 Options.EvictLRU) 2 raceConfig).
  - apply twoShards_ok; [lia|by right].
  - exact raceConfig_reached.
Defined.

(** C13: no deadlock.  As long as a call is in progress, some goroutine inside
    a call can take a step: the locks of the shards and of the sweep are
    never waited for in a cycle. *)
Theorem concurrent_no_deadlock {T} (create : Time → T) fn (c : config T) t g :
  c_gs c !! t = Some g → g_pc g ≠ Idle →
  ∃ u gu, c_gs c !! u = Some gu ∧ g_pc gu ≠ Idle ∧
    ∀ ord, range_order_ok ord → cstep create fn c (move create fn ord c u gu).
Proof.
  intros Hg Hne. destruct (progress (c_gs c) t g Hg Hne) as (u & gu & Hu & Hs).
  exists u, gu. split_and!; [done|by destruct (canStep_spec _ _ Hs)|].
  intros ord Hord. by apply step_move.
Qed.

(** One goroutine sweeps and another waits for [sweepMu]. *)
Lemma concurrent_no_deadlock_witness :
  let c := mkConfig (newShardedStore (twoShards 1 Options.EvictReject))
             [mkGoroutine "a" 0 0 (Sweep [0%nat; 1%nat]); mkGoroutine "b" 0 1 SweepLock] [] in
  canStep (c_gs c) (mkGoroutine "b" 0 1 SweepLock) = false ∧
  ∃ u gu, c_gs c !! u = Some gu ∧ g_pc gu ≠ Idle ∧
    ∀ ord, range_order_ok ord →
      cstep (fun _ => 0) useCount c (move (fun _ => 0) useCount ord c u gu).
Proof.
  intros c. split; [reflexivity|].
  apply (concurrent_no_deadlock (fun _ => 0) useCount c 1 (mkGoroutine "b" 0 1 SweepLock));
    [reflexivity|discriminate].
Defined.

(** Decisions about one key are serial.  When stored keys stay (no TTL, no
    eviction), the results that concurrent calls for a key receive are, in the
    order in which the calls return, those of the decision function applied
    to the key's state one call after another. *)
Theorem concurrent_key_serial {T} (create : Time → T) fn o n c key :
  Options.options_ok o → rtc (cstep create fn) (start o n) c →
  Options.keyTTL o <= 0 ∧ (Options.maxKeys o <= 0 ∨ Options.eviction o = Options.EvictReject) →
  (∀ v now, (fn v now).2.2 = None) →
  (servedIn key (c_hist c)).*2 =
    MemoryLimiter.alone fn (create := create) None (servedIn key (c_hist c)).*1.
Proof. apply reach_alone. Qed.

(** Two goroutines interleave on one key, a third call uses another key. *)
Definition serialSchedule : list (nat * option (string * Time)) :=
  [(0%nat, Some ("a", 0)); (1%nat, Some ("a", 5))] ++ runs 0 4 ++ [(2%nat, Some ("b", 1))] ++
  runs 2 3 ++ runs 0 3 ++ runs 1 2 ++ runs 2 4 ++ runs 1 2.

Definition serialConfig : config Z :=
  default (start (twoShards 2 Options.EvictReject) 3)
    (execute (fun _ => 0) useCount (start (twoShards 2 Options.EvictReject) 3) serialSchedule).

Lemma concurrent_key_serial_witness :
  servedIn "a" (c_hist serialConfig) = [(0, mkResult true 0 0); (5, mkResult true 1 0)] ∧
  (servedIn "a" (c_hist serialConfig)).*2 =
    MemoryLimiter.alone useCount (create := fun _ => 0) None (servedIn "a" (c_hist serialConfig)).*1.
Proof.
  split; [vm_compute; reflexivity|].
  apply (concurrent_key_serial (fun _ => 0) useCount (twoShards 2 Options.EvictReject) 3 serialConfig "a").
  - apply twoShards_ok; [lia|by left].
  - apply (execute_reach _ _ _ serialSchedule). vm_compute. reflexivity.
  - simpl. split; [lia|by right].
  - reflexivity.
Defined.


End ConcurrentProps.
