(* ===== verification/ConcurrentSeq.v ===== *)
(** * ConcurrentSeq: an undisturbed call is a call of the sequential model

    The steps that a goroutine takes when no other is inside a call add up to
    the operations of ShardedStore.v: a cleanup pass, a sweep, the search for
    a shard to evict from, the loop of [reserveSlot], and [withState]. *)

From Stdlib Require Import ZArith Lia Bool.
From stdpp Require Import base gmap strings list relations.
From S2P Require Import Prelude Core GoTime Hash Options ShardedStore StoreFacts StoreSpec StateStore.
From S2P Require Import Concurrent ConcurrentFacts ConcurrentProps.

#[local] Open Scope Z_scope.

Module ConcurrentSeq.
Import Store StoreFacts StoreSpec Concurrent ConcurrentFacts.

Section Local.
Context {T : Type} (create : Time → T) (fn : T → Time → T * (Result * option error)).
Context (ord : range_order T) (key : string) (now : Time) (i : nat).
Implicit Types (s : shardedStore T) (p : pc T).

(** Steps of one goroutine, inside its call. *)
Inductive lstep : shardedStore T * pc T → shardedStore T * pc T → Prop :=
| lstep_intro s p s' p' :
    p ≠ Idle → advance create fn ord s (mkGoroutine key now i p) = (s', p', None) →
    lstep (s, p) (s', p').

Notation "a ⇝ b" := (rtc lstep a b) (at level 70).

Lemma lstep_l s p s1 p1 a :
  p ≠ Idle → advance create fn ord s (mkGoroutine key now i p) = (s1, p1, None) →
  (s1, p1) ⇝ a → (s, p) ⇝ a.
Proof. intros Hp Ha Hr. eapply rtc_l; [|exact Hr]. by constructor. Qed.

Definition contPc (k : cont T) : pc T :=
  match k with AfterHit v => Run v | AfterMiss => Reserve | AfterSweep rest => Sweep rest end.

Lemma done_deleting s j b k : deleteNext s j b = None → (s, Clean j b k) ⇝ (s, contPc k).
Proof.
  intros Hd. eapply lstep_l; [done| |reflexivity]. cbn [advance]. rewrite Hd. by destruct k.
Qed.

Lemma setShard_twice s j a b : setShard (setShard s j a) j b = setShard s j b.
Proof. unfold setShard. simpl. by rewrite list_insert_insert_eq. Qed.

Lemma delete_keys ks s j sh lv k :
  (j < length (shards s))%nat →
  (setShard s j (sh, lv), Clean j (Keys ks) k) ⇝ (setShard s j (foldl deleteItem (sh, lv) ks), contPc k).
Proof.
  intros Hj. revert sh lv. induction ks as [|x ks IH]; intros sh lv; [by apply done_deleting|].
  eapply lstep_l; [done| |]; [cbn [advance deleteNext]; reflexivity|].
  rewrite (shardAt_put s j sh Hj : shardAt (setShard s j (sh, lv)) j = sh).
  change (live (setShard s j (sh, lv))) with lv. rewrite setShard_twice. cbn [foldl].
  destruct (deleteItem (sh, lv) x) as [sh' lv']. apply IH.
Qed.

Lemma delete_elems es s j sh lv k :
  (j < length (shards s))%nat →
  (setShard s j (sh, lv), Clean j (Elems es) k) ⇝ (setShard s j (foldl deleteElem (sh, lv) es), contPc k).
Proof.
  intros Hj. revert sh lv. induction es as [|x es IH]; intros sh lv; [by apply done_deleting|].
  eapply lstep_l; [done| |]; [cbn [advance deleteNext]; reflexivity|].
  rewrite (shardAt_put s j sh Hj : shardAt (setShard s j (sh, lv)) j = sh).
  change (live (setShard s j (sh, lv))) with lv. rewrite setShard_twice. cbn [foldl].
  destruct (deleteElem (sh, lv) x) as [sh' lv']. apply IH.
Qed.

Lemma setShard_same s j : (j < length (shards s))%nat → setShard s j (shardAt s j, live s) = s.
Proof.
  intros Hj. unfold setShard. simpl. rewrite list_insert_id by by apply shardAt_lookup. by destruct s.
Qed.

(** A cleanup pass. *)
Lemma clean_run s j k :
  (j < length (shards s))%nat →
  let '(s1, b) := startClean ord s j now in (s1, Clean j b k) ⇝ (cleanup ord s j now, contPc k).
Proof.
  intros Hj. unfold startClean, cleanup, cleanupLRU, cleanupMap.
  destruct (isLRU s); destruct (cleanupDue _ now _).
  - by apply delete_elems.
  - rewrite setShard_same by done. by apply done_deleting.
  - by apply delete_keys.
  - rewrite setShard_same by done. by apply done_deleting.
Qed.

Lemma cleanup_len s j : length (shards (cleanup ord s j now)) = length (shards s).
Proof. unfold cleanup. case_match; simpl; by rewrite length_insert. Qed.

Lemma cleanup_opts s j : opts (cleanup ord s j now) = opts s.
Proof. unfold cleanup. by case_match. Qed.

Lemma sweep_loop rest s :
  Forall (fun j => (j < length (shards s))%nat) rest →
  (s, Sweep rest) ⇝ (foldl (fun s j => cleanup ord s j now) s rest, Sweep []).
Proof.
  revert s. induction rest as [|j rest IH]; intros s Hr; [done|].
  apply Forall_cons in Hr as [Hj Hr]. pose proof (clean_run s j (AfterSweep rest) Hj) as Hc.
  destruct (startClean ord s j now) as [s1 b] eqn:E.
  eapply lstep_l; [done|cbn [advance]; by rewrite E|]. etrans; [exact Hc|]. cbn [contPc foldl].
  apply IH. by rewrite cleanup_len.
Qed.

Lemma isLRU_opts s s' : opts s' = opts s → isLRU s' = isLRU s.
Proof. intros Ho. unfold isLRU. by rewrite Ho. Qed.

(** The global sweep. *)
Lemma sweep_run s : (s, SweepCall) ⇝ (sweepExpired ord s now, afterSweep s).
Proof.
  unfold sweepExpired. eapply rtc_l; [by constructor|]. cbn [advance]. destruct (_ || _); [done|].
  destruct (_ <? _) eqn:E; (eapply lstep_l; [done|cbn [advance]; by rewrite E|]); [done|].
  set (s0 := mkStore _ _ _ _ _).
  etrans; [apply (sweep_loop _ s0), (all_shards s)|].
  set (s1 := foldl _ s0 _). eapply rtc_l; [by constructor|]. cbn [advance].
  assert (isLRU s1 = isLRU s) as El; [|unfold afterSweep; by rewrite El].
  apply isLRU_opts. unfold s1. generalize (seq 0 (length (shards s))).
  assert (opts s0 = opts s) as Ho by done. revert Ho. generalize s0. clear.
  intros s0 Ho l. revert s0 Ho. induction l as [|j l IH]; intros s0 Ho; [done|]. simpl. apply IH.
  by rewrite cleanup_opts.
Qed.

(** The search for another shard to evict from. *)
Lemma evictOther_run rest s : (s, EvictOther rest) ⇝ (evictFirst s i rest, Relock).
Proof.
  revert s. induction rest as [|j rest IH]; intros s; [by apply rtc_once; constructor|].
  cbn [evictFirst]. destruct (Nat.eqb j i) eqn:Ej.
  { eapply lstep_l; [done|cbn [advance]; by rewrite Ej|]. apply IH. }
  destruct (evictFrom s j) as [ev s1] eqn:E.
  eapply lstep_l; [done|cbn [advance]; by rewrite Ej, E|]. destruct ev; [done|apply IH].
Qed.

(** The loop of [reserveSlot]. *)
Lemma reserve_loop fuel swept s b s' :
  reserveLoop fuel ord swept s i now = Some (b, s') →
  (s, Load swept) ⇝ (s', if b then Recheck else Reject).
Proof.
  revert swept s. induction fuel as [|fuel IH]; intros swept s; [done|]. cbn [reserveLoop].
  destruct (live s <? Options.maxKeys (opts s)) eqn:El.
  { intros [= <- <-]. eapply lstep_l; [done|cbn [advance]; by rewrite El|].
    eapply lstep_l; [done|cbn [advance]; by rewrite Z.eqb_refl|]. done. }
  intros Hl. eapply lstep_l; [done|cbn [advance]; by rewrite El|].
  destruct (isLRU s) eqn:Em.
  - destruct (evictFrom s i) as [ev s1] eqn:Ee.
    eapply lstep_l; [done|cbn [advance]; by rewrite Em, Ee|]. destruct ev; [by apply IH|].
    set (s2 := if swept then s1 else sweepExpired ord s1 now) in *.
    assert (isLRU s1 = true) as Em1.
    { rewrite <- Em. apply isLRU_opts. pose proof (evictFrom_within i s) as (Ho & _). by rewrite Ee in Ho. }
    trans (s2, @StillFull T).
    { unfold s2. destruct swept; [done|]. pose proof (sweep_run s1) as Hs.
      unfold afterSweep in Hs. by rewrite Em1 in Hs. }
    destruct (Options.maxKeys (opts s2) <=? live s2) eqn:Ef;
      (eapply lstep_l; [done|cbn [advance]; by rewrite Ef|]).
    + etrans; [apply evictOther_run|]. eapply lstep_l; [done|done|]. by apply IH.
    + eapply lstep_l; [done|done|]. by apply IH.
  - destruct swept; (eapply lstep_l; [done|cbn [advance]; by rewrite Em|]).
    + by injection Hl as <- <-.
    + etrans; [apply sweep_run|]. unfold afterSweep. rewrite Em.
      eapply lstep_l; [done|done|]. by apply IH.
Qed.

Lemma reserve_run s b s' :
  reserveSlot ord s i now = Some (b, s') → (s, Reserve) ⇝ (s', if b then Recheck else Reject).
Proof.
  unfold reserveSlot. destruct (Options.maxKeys (opts s) <=? 0) eqn:E.
  - intros [= <- <-]. eapply lstep_l; [done|cbn [advance]; by rewrite E|]. done.
  - intros Hr. eapply lstep_l; [done|cbn [advance]; by rewrite E|]. by eapply reserve_loop.
Qed.

(** [getOrCreateMap] and [getOrCreateLRU] in the terms of the steps. *)
Definition getOrCreateSteps s : option (option T * shardedStore T) :=
  match touchKey s i key now with
  | Some (v, s) => Some (Some v, cleanup ord s i now)
  | None =>
      match reserveSlot ord (cleanup ord s i now) i now with
      | None => None
      | Some (false, s) => Some (None, s)
      | Some (true, s) =>
          match touchKey s i key now with
          | Some (v, s) => Some (Some v, withLive s (live s - 1))
          | None => Some (Some (create now), insertKey s i key now (create now))
          end
      end
  end.

Lemma run_isLRU a b : a ⇝ b → isLRU b.1 = isLRU a.1.
Proof.
  induction 1 as [|a1 a2 a3 Hs _ IH]; [done|]. rewrite IH. destruct Hs as [s p s1 p1 _ Ha].
  pose proof (advance_opts create fn ord s (mkGoroutine key now i p)) as Ho. rewrite Ha in Ho.
  destruct Ho as [Ho _]. by apply isLRU_opts.
Qed.

Lemma getOrCreate_steps s :
  (if isLRU s then getOrCreateLRU ord create s i key now
   else getOrCreateMap ord create s i key now) = getOrCreateSteps s.
Proof.
  assert (∀ b s2, reserveSlot ord (cleanup ord s i now) i now = Some (b, s2) → isLRU s2 = isLRU s) as Hm.
  { intros b s2 Hr. pose proof (run_isLRU _ _ (reserve_run _ _ _ Hr)) as Hl.
    simpl in Hl. rewrite Hl. apply isLRU_opts, cleanup_opts. }
  unfold getOrCreateSteps, getOrCreateLRU, getOrCreateMap, touchKey, insertKey.
  destruct (isLRU s) eqn:El.
  - destruct (_ ≫= _) as [[id e]|]; [done|].
    destruct (reserveSlot ord _ i now) as [[[] s2]|]; [|done|done]. rewrite (Hm true s2 eq_refl).
    by destruct (_ ≫= _) as [[id e]|].
  - destruct (items _ !! key) as [e|]; [done|].
    destruct (reserveSlot ord _ i now) as [[[] s2]|]; [|done|done]. rewrite (Hm true s2 eq_refl).
    by destruct (items _ !! key) as [e|].
Qed.

(** A whole call: the steps up to the last one, which returns. *)
Lemma call_run s r s' :
  i = shardFor s key → (i < length (shards s))%nat →
  withState ord create s key now fn = Some (r, s') →
  ∃ s1 p1, (s, Lock) ⇝ (s1, p1) ∧ p1 ≠ Idle ∧
    advance create fn ord s1 (mkGoroutine key now i p1) = (s', Idle, Some r).
Proof.
  intros Hi Hlt. unfold withState. rewrite <- Hi, getOrCreate_steps. unfold getOrCreateSteps.
  destruct (touchKey s i key now) as [[v s1]|] eqn:Et.
  - intros Hw. exists (cleanup ord s1 i now), (Run v). split_and!; [|done|].
    + pose proof (clean_run s1 i (AfterHit v)) as Hc.
      destruct (startClean ord s1 i now) as [s2 b] eqn:Es. eapply lstep_l; [done|done|].
      eapply lstep_l; [done|cbn [advance]; by rewrite Et, Es|]. apply Hc.
      apply touchKey_within in Et as (_ & -> & _). done.
    + cbn [advance]. unfold runFn. destruct (fn v now) as [v' r']. by injection Hw as -> ->.
  - assert ((s, Lock) ⇝ (cleanup ord s i now, Reserve)) as Hc.
    { pose proof (clean_run s i AfterMiss Hlt) as Hc.
      destruct (startClean ord s i now) as [s2 b] eqn:Es. eapply lstep_l; [done|done|].
      eapply lstep_l; [done|cbn [advance]; by rewrite Et, Es|]. apply Hc. }
    destruct (reserveSlot ord _ i now) as [[[] s2]|] eqn:Er; [| |done].
    + apply reserve_run in Er. intros Hw. exists s2, Recheck.
      split_and!; [by etrans|done|]. cbn [advance]. unfold runFn.
      destruct (touchKey s2 i key now) as [[v s3]|].
      * destruct (fn v now) as [v' r']. by injection Hw as -> ->.
      * destruct (fn (create now) now) as [v' r']. by injection Hw as -> ->.
    + apply reserve_run in Er. intros [= <- <-]. exists s2, Reject. split_and!; [by etrans|done|done].
Qed.

End Local.

(** ** Running in a system whose other goroutines are idle *)

Section Quiet.
Context {T : Type} (create : Time → T) (fn : T → Time → T * (Result * option error)).
Implicit Types (g : goroutine T) (gs : list (goroutine T)).

Definition quiet gs : Prop := Forall (fun g => g_pc g = Idle) gs.

Lemma quiet_canStep gs t g : quiet gs → g_pc g ≠ Idle → canStep (<[t := g]> gs) g = true.
Proof.
  intros Hq Hne. apply ConcurrentProps.canStep_free; [done|]. intros l Hl.
  destruct (ConcurrentProps.lockFree_or (<[t := g]> gs) l) as [Hf|(u & gu & Hu & Hh)]; [done|exfalso].
  apply list_lookup_insert_Some in Hu as [(<- & <- & _)|[_ Hu]].
  - unfold wants, holds, holdsSweep in *. destruct l; destruct (g_pc g); try done;
      by repeat case_match.
  - eapply Forall_lookup_1 in Hu; [|exact Hq]. unfold holds, holdsSweep in Hh. rewrite Hu in Hh.
    by destruct l.
Qed.

Section Lift.
Context (ord : range_order T) (key : string) (now : Time) (i : nat).
Context (gs : list (goroutine T)) (t : nat) (h : list event).
Hypothesis Hord : range_order_ok ord.
Hypothesis Hq : quiet gs.
Hypothesis Ht : (t < length gs)%nat.

Definition at_pc (a : shardedStore T * pc T) : config T :=
  mkConfig a.1 (<[t := mkGoroutine key now i a.2]> gs) h.

Lemma lift_move s p s' p' r :
  p ≠ Idle → advance create fn ord s (mkGoroutine key now i p) = (s', p', r) →
  cstep create fn (at_pc (s, p))
    (mkConfig s' (<[t := mkGoroutine key now i p']> gs)
       (h ++ match r with Some r => [(key, now, r)] | None => [] end)).
Proof.
  intros Hp Ha.
  assert (c_gs (at_pc (s, p)) !! t = Some (mkGoroutine key now i p)) as Hg
    by by apply list_lookup_insert_eq.
  pose proof (step_move create fn ord _ t _ Hg (quiet_canStep gs t (mkGoroutine key now i p) Hq Hp) Hord) as Hs.
  unfold move in Hs. cbn [c_store at_pc fst] in Hs. rewrite Ha in Hs. simpl in Hs.
  by rewrite list_insert_insert_eq in Hs.
Qed.

Lemma lift_run a b :
  rtc (lstep create fn ord key now i) a b → rtc (cstep create fn) (at_pc a) (at_pc b).
Proof.
  induction 1 as [|a1 a2 a3 Hs _ IH]; [done|]. eapply rtc_l; [|exact IH].
  destruct Hs as [s p s1 p1 Hp Ha]. pose proof (lift_move s p s1 p1 None Hp Ha) as Hm.
  by rewrite app_nil_r in Hm.
Qed.
End Lift.
End Quiet.

(** C14: sequential behaviour.  A call made while no other call is in progress
    runs to its end and does exactly what the sequential [withState] does: the
    same result, the same store. *)
Theorem concurrent_sequential {T} (create : Time → T) fn o n c ord t key now :
  Options.options_ok o → rtc (cstep create fn) (start o n) c → quiet (c_gs c) →
  (t < length (c_gs c))%nat → range_order_ok ord →
  ∃ r s' gs', withState ord create (c_store c) key now fn = Some (r, s') ∧ quiet gs' ∧
    rtc (cstep create fn) c (mkConfig s' gs' (c_hist c ++ [(key, now, r)])).
Proof.
  intros Ho Hr Hq Ht Hord. destruct (creach_inv create fn o n c Ho Hr) as ([Hinv _ _ _] & _ & _).
  assert (reservations c = 0) as Hz.
  { by apply idle_reservations. }
  rewrite Hz in Hinv. pose proof (shardFor_lt 0 _ Hinv key) as Hi.
  destruct (withState_refines ord create (c_store c) key now fn Hinv) as (r & s' & _ & Hw & _).
  destruct (call_run create fn ord key now (shardFor (c_store c) key) (c_store c) r s' eq_refl Hi Hw)
    as (s1 & p1 & Hrun & Hne & Hlast).
  set (gs' := <[t := mkGoroutine key now (shardFor (c_store c) key) Idle]> (c_gs c)).
  exists r, s', gs'. split_and!; [done|by apply Forall_insert|].
  eapply (lift_run create fn ord key now _ (c_gs c) t (c_hist c) Hord Hq Ht) in Hrun.
  destruct (lookup_lt_is_Some_2 _ _ Ht) as [g Hg].
  eapply rtc_l.
  { apply (step_call create fn c t g key now Hg). by eapply (Forall_lookup_1 _ _ _ _ Hq). }
  eapply rtc_r; [exact Hrun|].
  exact (lift_move create fn ord key now _ (c_gs c) t (c_hist c) Hord Hq Ht s1 p1 s' Idle (Some r) Hne Hlast).
Qed.

Lemma concurrent_sequential_witness :
  let o := ConcurrentProps.twoShards 2 Options.EvictReject in
  let c := start (T := Z) o 2 in
  (0 < length (c_gs c))%nat ∧
  ∃ r s' gs', withState someOrder (fun _ => 0) (c_store c) "a" 7 ConcurrentProps.useCount = Some (r, s') ∧
    quiet gs' ∧ rtc (cstep (fun _ => 0) ConcurrentProps.useCount) c
      (mkConfig s' gs' (c_hist c ++ [("a", 7, r)])).
Proof.
  intros o c. split; [simpl; lia|].
  apply (concurrent_sequential (fun _ => 0) ConcurrentProps.useCount o 2 c someOrder 0 "a" 7).
  - apply ConcurrentProps.twoShards_ok; [lia|by left].
  - reflexivity.
  - repeat constructor.
  - simpl; lia.
  - by intros i m.
Defined.

End ConcurrentSeq.
