(* ===== verification/ConcurrentQuota.v ===== *)
(** * ConcurrentQuota: the quotas of the buckets under concurrency

    Any number of goroutines call [Allow] of one token or leaky bucket limiter.
    Each reads the clock before it takes a lock, so a key's decisions see
    instants in any order (Disorder.v); their interleaving in the store is
    that of Concurrent.v.  The quota of a key holds over the span of the
    instants, whatever the schedule. *)

From Stdlib Require Import ZArith Lia Bool.
From stdpp Require Import base gmap strings list relations.
From S2P Require Import Prelude Float64 FloatFacts GoTime Core Numeric Options ShardedStore.
From S2P Require Import TokenBucket LeakyBucket StateStore MemoryLimiter MemoryLimiters MemoryProps.
From S2P Require Import SignedFloat Disorder Concurrent ConcurrentFacts ConcurrentProps.

#[local] Open Scope Z_scope.

Module ConcurrentQuota.
Import Concurrent ConcurrentFacts ConcurrentProps MemoryLimiter Memory.

(** A limiter that keeps its keys. *)
Definition keeps (o : Options.options) : Prop :=
  Options.keyTTL o <= 0 ∧ (Options.maxKeys o <= 0 ∨ Options.eviction o = Options.EvictReject).

(** A history that is served alone is a run of a state that starts fresh. *)
Lemma served_replay {T} (create : Time → T) fn (served : list (Time * Result)) :
  served.*2 = MemoryLimiter.alone fn (create := create) None served.*1 →
  served = [] ∨ ∃ first, first ∈ served.*1 ∧
    served.*2 = (MemoryLimiter.replay fn (create first) served.*1).2.
Proof.
  destruct served as [|[first r] served]; [by left|]. intros Hs. right. exists first.
  split; [rewrite fmap_cons; apply list_elem_of_here|]. rewrite Hs. by rewrite fmap_cons.
Qed.

Section Quota.
Context `{GoArch} (capacity rate : spec_float) (t0 t1 : Time).

(** What a key's calls may be let through, in units of [2^-52] nanorequests. *)
Definition quota (n : nat) : Z :=
  fval capacity * (2 ^ 52 * GoTime.Second) + (t1 - t0) * (fval rate * 2 ^ 52)
  + Z.of_nat n * Disorder.step_error capacity rate t0 t1.

Definition within_quota (served : list (Time * Result)) : Prop :=
  Forall result_ok served.*2 ∧
  allowed_count served.*2 * (unit_sc * (2 ^ 52 * GoTime.Second)) <= quota (length served).

Lemma empty_quota : Disorder.span_ok capacity rate t0 t1 → within_quota [].
Proof.
  intros Hok. destruct (Disorder.reach_bound capacity rate t0 t1 Hok) as (_ & _ & _ & Hdr).
  destruct Hok as ((_ & Hc & _) & _). pose proof unit_sc_pos.
  split; [constructor|]. unfold quota, GoTime.Second. simpl.
  change (allowed_count []) with 0. lia.
Qed.

Lemma replay_quota {T} (create : Time → T) fn (served : list (Time * Result)) :
  Disorder.span_ok capacity rate t0 t1 →
  (∀ first nows, t0 <= first <= t1 → Forall (fun t => t0 <= t <= t1) nows → Z.of_nat (length nows) <= 2 ^ 40 →
     let rs := (MemoryLimiter.replay fn (create first) nows).2 in
     Forall result_ok rs ∧ allowed_count rs * (unit_sc * (2 ^ 52 * GoTime.Second)) <= quota (length nows)) →
  served.*2 = MemoryLimiter.alone fn (create := create) None served.*1 →
  Forall (fun t => t0 <= t <= t1) served.*1 → Z.of_nat (length served) <= 2 ^ 40 →
  within_quota served.
Proof.
  intros Hok Hq Hs Hin Hlen. destruct (served_replay create fn served Hs) as [->|(first & Hf & Hr)];
    [by apply empty_quota|]. rewrite Forall_forall in Hin. pose proof (Hin first Hf) as Hfirst.
  rewrite <- Forall_forall in Hin. destruct (Hq first served.*1 Hfirst Hin) as [Hok' Hc]; [by rewrite length_fmap|].
  rewrite length_fmap in Hc. split; rewrite Hr; [exact Hok'|exact Hc].
Qed.
End Quota.

(** C6: the quota of a token bucket limiter under concurrency.  Any number of
    goroutines call a limiter that [NewTokenBucket] returns and that keeps its
    keys; their locks and atomic operations interleave in any way, and their
    clock readings, all between [t0] and [t1], may be decided out of order.  At
    every point, the calls for a key that have returned got well-formed
    results, and at most [capacity + rate * (t1 - t0)] of them passed, up to
    the rounding of the float operations.  (Up to [2^40] calls, a span of at
    most 292 years that accrues at most [2^53] tokens.) *)
Theorem concurrent_token_bucket_quota `{GoArch} capacity rate opts tb n c key t0 t1 :
  F64.valid capacity = true → F64.valid rate = true → fval capacity < 2 ^ 53 * unit_sc →
  NewTokenBucket capacity rate opts = Returns tb → keeps (lim_opts (tb_lim tb)) →
  0 <= t1 - t0 <= int64_max → (t1 - t0) * fval rate <= 2 ^ 53 * unit_sc * GoTime.Second →
  rtc (cstep (TokenBucket.newBucket capacity) (TokenBucket.refillAndDecide capacity rate))
    (start (lim_opts (tb_lim tb)) n) c →
  Forall (fun t => t0 <= t <= t1) (servedIn key (c_hist c)).*1 →
  Z.of_nat (length (servedIn key (c_hist c))) <= 2 ^ 40 →
  within_quota capacity rate t0 t1 (servedIn key (c_hist c)).
Proof.
  intros Hcv Hrv Hc Hnew Hk Hd Hdr Hreach Hin Hlen.
  apply (MemoryProps.new_token _ _ _ _ Hcv Hrv) in Hnew as (Hp & o & Ho & ->). cbn [tb_lim lim_opts] in *.
  assert (Disorder.span_ok capacity rate t0 t1) as Hok by (split_and!; try done; lia).
  eapply (replay_quota capacity rate t0 t1 (TokenBucket.newBucket capacity)
    (TokenBucket.refillAndDecide capacity rate)); [done| | |done|done].
  - intros first nows. exact (Disorder.token_disorder_quota capacity rate t0 t1 Hok first nows).
  - eapply reach_alone; [by eapply Options.buildOptions_ok|exact Hreach|exact Hk|]. apply token_no_error.
Qed.

(** The same for a leaky bucket limiter, whose bucket may hold more than
    its capacity while instants go back. *)
Theorem concurrent_leaky_bucket_quota `{GoArch} capacity rate opts lb n c key t0 t1 :
  F64.valid capacity = true → F64.valid rate = true → fval capacity < 2 ^ 53 * unit_sc →
  NewLeakyBucket capacity rate opts = Returns lb → keeps (lim_opts (lb_lim lb)) →
  0 <= t1 - t0 <= int64_max → (t1 - t0) * fval rate <= 2 ^ 53 * unit_sc * GoTime.Second →
  rtc (cstep LeakyBucket.newLeaky (LeakyBucket.leakAndDecide capacity rate)) (start (lim_opts (lb_lim lb)) n) c →
  Forall (fun t => t0 <= t <= t1) (servedIn key (c_hist c)).*1 →
  Z.of_nat (length (servedIn key (c_hist c))) <= 2 ^ 40 →
  within_quota capacity rate t0 t1 (servedIn key (c_hist c)).
Proof.
  intros Hcv Hrv Hc Hnew Hk Hd Hdr Hreach Hin Hlen.
  apply (MemoryProps.new_leaky _ _ _ _ Hcv Hrv) in Hnew as (Hp & o & Ho & ->). cbn [lb_lim lim_opts] in *.
  assert (Disorder.span_ok capacity rate t0 t1) as Hok by (split_and!; try done; lia).
  eapply (replay_quota capacity rate t0 t1 LeakyBucket.newLeaky (LeakyBucket.leakAndDecide capacity rate));
    [done| | |done|done].
  - intros first nows. exact (Disorder.leaky_disorder_quota capacity rate t0 t1 Hok first nows).
  - eapply reach_alone; [by eapply Options.buildOptions_ok|exact Hreach|exact Hk|]. apply leaky_no_error.
Qed.

(** ** Witnesses: the call that read the clock last is decided first *)

Definition lateFirst : list (nat * option (string * Time)) :=
  [(0%nat, Some ("a", GoTime.Second)); (1%nat, Some ("a", 0))] ++ runs 0 5 ++ runs 1 4 ++
  [(0%nat, Some ("a", GoTime.Second))] ++ runs 0 4.

Definition tokenRace : config TokenBucket.bucket :=
  let create := TokenBucket.newBucket (F64.of_int 2) in
  let fn := TokenBucket.refillAndDecide (H := amd64) (F64.of_int 2) (F64.of_int 1) in
  default (start Options.defaultOptions 2) (execute create fn (start Options.defaultOptions 2) lateFirst).

Definition leakyRace : config LeakyBucket.leakyState :=
  let fn := LeakyBucket.leakAndDecide (H := amd64) (F64.of_int 2) (F64.of_int 1) in
  default (start Options.defaultOptions 2) (execute LeakyBucket.newLeaky fn (start Options.defaultOptions 2) lateFirst).

Lemma tokenRace_served :
  servedIn "a" (c_hist tokenRace) =
  [(GoTime.Second, mkResult true 1 0); (0, mkResult false 0 GoTime.Second); (GoTime.Second, mkResult true 0 0)].
Proof. vm_compute. reflexivity. Qed.

Lemma tokenRace_reached :
  rtc (cstep (TokenBucket.newBucket (F64.of_int 2)) (TokenBucket.refillAndDecide (H := amd64) (F64.of_int 2) (F64.of_int 1)))
    (start Options.defaultOptions 2) tokenRace.
Proof. apply (execute_reach _ _ _ lateFirst). vm_compute. reflexivity. Qed.

Lemma leakyRace_served :
  servedIn "a" (c_hist leakyRace) =
  [(GoTime.Second, mkResult true 1 0); (0, mkResult false 0 GoTime.Second); (GoTime.Second, mkResult true 0 0)].
Proof. vm_compute. reflexivity. Qed.

Lemma leakyRace_reached :
  rtc (cstep LeakyBucket.newLeaky (LeakyBucket.leakAndDecide (H := amd64) (F64.of_int 2) (F64.of_int 1)))
    (start Options.defaultOptions 2) leakyRace.
Proof. apply (execute_reach _ _ _ lateFirst). vm_compute. reflexivity. Qed.

Lemma second_accrues : (GoTime.Second - 0) * fval (F64.of_int 1) <= 2 ^ 53 * unit_sc * GoTime.Second.
Proof. destruct one_exact as [_ ->]. pose proof unit_sc_pos. unfold GoTime.Second. lia. Qed.


Lemma concurrent_token_bucket_quota_witness :
  length (servedIn "a" (c_hist tokenRace)) = 3%nat ∧
  within_quota (F64.of_int 2) (F64.of_int 1) 0 GoTime.Second (servedIn "a" (c_hist tokenRace)).
Proof.
  split; [vm_compute; reflexivity|].
  apply (concurrent_token_bucket_quota (H := amd64) (F64.of_int 2) (F64.of_int 1) [] MemoryProps.exampleTokenBucket 2).
  - vm_compute. reflexivity.
  - vm_compute. reflexivity.
  - apply (Numeric.int_params_ok 2 1); lia.
  - vm_compute. reflexivity.
  - split; [simpl; lia|left; simpl; lia].
  - unfold GoTime.Second, int64_max. lia.
  - exact second_accrues.
  - exact tokenRace_reached.
  - rewrite tokenRace_served. repeat constructor; unfold GoTime.Second; simpl; lia.
  - rewrite tokenRace_served. simpl. lia.
Defined.

Lemma concurrent_leaky_bucket_quota_witness :
  length (servedIn "a" (c_hist leakyRace)) = 3%nat ∧
  within_quota (F64.of_int 2) (F64.of_int 1) 0 GoTime.Second (servedIn "a" (c_hist leakyRace)).
Proof.
  split; [vm_compute; reflexivity|].
  apply (concurrent_leaky_bucket_quota (H := amd64) (F64.of_int 2) (F64.of_int 1) [] MemoryProps.exampleLeakyBucket 2).
  - vm_compute. reflexivity.
  - vm_compute. reflexivity.
  - apply (Numeric.int_params_ok 2 1); lia.
  - vm_compute. reflexivity.
  - split; [simpl; lia|left; simpl; lia].
  - unfold GoTime.Second, int64_max. lia.
  - exact second_accrues.
  - exact leakyRace_reached.
  - rewrite leakyRace_served. repeat constructor; unfold GoTime.Second; simpl; lia.
  - rewrite leakyRace_served. simpl. lia.
Defined.

End ConcurrentQuota.
