(* ===== verification/Redis.v ===== *)
(** * Redis: the Go side of package redis

    Options, the error policy, the script cache ([Script.Load], [Script.Run])
    and [Allow] of the three Redis limiters: what is sent to the server, how
    replies are decoded, and how failures degrade.  The client library and the
    server behind it are a parameter ([RedisClient]); what the script cache
    relies on is stated as laws ([RedisScripting]). *)

From Stdlib Require Import ZArith Lia Bool Ascii.
From stdpp Require Import base strings list pretty.
From S2P Require Import Prelude Float64 FloatFacts GoTime Core GoString Numeric.

#[local] Open Scope Z_scope.
#[local] Open Scope kaka_scope.

Module Redis.

(** ** Errors and options (limiter.go, options.go, key.go) *)

Definition ErrRedisUnavailable : error := ErrorNew "kaka/redis: redis unavailable".
Definition ErrScript : error := ErrorNew "kaka/redis: script error".
Definition ErrBlankKey : error := ErrorNew "kaka/redis: key must not be blank".

Definition validateKey (key : string) : option error :=
  if bool_decide (GoString.TrimSpace key = EmptyString) then Some ErrBlankKey else None.

(** [ErrorPolicy] is an [int]. *)
Definition ErrorFailClosed : Z := 0.
Definition ErrorFailOpen : Z := 1.

Record Options := mkOptions {
  keyPrefix : string;
  keyTTL : Duration;
  policy : Z;
  onError : option nat;  (** the registered callback, by identity *)
  sink : option nat
}.

Definition Option : Type := Options → Options.

Definition defaultOptions : Options := mkOptions "kaka:" (30 * GoTime.Minute) ErrorFailClosed None None.

Definition WithKeyPrefix (prefix : string) : Option := fun o =>
  mkOptions prefix (keyTTL o) (policy o) (onError o) (sink o).
Definition WithKeyTTL (ttl : Duration) : Option := fun o =>
  mkOptions (keyPrefix o) ttl (policy o) (onError o) (sink o).
Definition WithErrorPolicy (p : Z) : Option := fun o =>
  mkOptions (keyPrefix o) (keyTTL o) p (onError o) (sink o).
Definition WithOnError (fn : option nat) : Option := fun o =>
  mkOptions (keyPrefix o) (keyTTL o) (policy o) fn (sink o).
Definition WithMetricSink (s : option nat) : Option := fun o =>
  mkOptions (keyPrefix o) (keyTTL o) (policy o) (onError o) s.

(** ** The client *)

(** Values that a script reply unmarshals to. *)
Inductive reply :=
| RInt (z : Z)
| RString (s : string)
| RNil
| RArray (l : list reply).

(** Arguments of a script. *)
Inductive scriptArg :=
| ArgFloat (x : spec_float)
| ArgInt (z : Z)
| ArgString (s : string).

(** [%T] of a reply. *)
Definition typeName (r : reply) : string :=
  match r with
  | RInt _ => "int64"
  | RString _ => "string"
  | RNil => "<nil>"
  | RArray _ => "[]interface {}"
  end.

(** go-redis and the server: [W] is their state; an error is its message. *)
Class RedisClient (W : Type) := {
  ScriptLoad : W → string → (string + string) * W;
  EvalSha : W → string → list string → list scriptArg → (reply + string) * W
}.

(** ** Script (script.go) *)

Record Script := mkScript { scriptName : string; scriptBody : string; sha : string }.

Definition NewScript (name body : string) : Script := mkScript name body "".

(** [strings.Contains]. *)
Fixpoint contains (s pat : string) : bool :=
  String.prefix pat s ||
  match s with
  | EmptyString => false
  | String _ s => contains s pat
  end.

Definition isNoScriptErr (msg : string) : bool := contains msg "NOSCRIPT".

Section Run.
Context {W : Type} {client : RedisClient W}.

Definition Load (s : Script) (w : W) : (Script + error) * W :=
  match ScriptLoad w (scriptBody s) with
  | (inl sha', w') => (inl (mkScript (scriptName s) (scriptBody s) sha'), w')
  | (inr msg, w') =>
      (inr (ErrorWrap ErrRedisUnavailable ("load " +:+ scriptName s +:+ ": " +:+ msg)), w')
  end.

(** Returns the reply or an error, the script with its cached SHA, and the
    state of the client. *)
Definition Run (s : Script) (w : W) (keys : list string) (args : list scriptArg)
    : (reply + error) * Script * W :=
  let loaded := if bool_decide (sha s = "") then Load s w else (inl s, w) in
  match loaded with
  | (inr err, w) => (inr err, s, w)
  | (inl s, w) =>
      match EvalSha w (sha s) keys args with
      | (inl res, w) => (inl res, s, w)
      | (inr msg, w) =>
          if isNoScriptErr msg then
            match Load s w with
            | (inr err, w) => (inr err, s, w)
            | (inl s, w) =>
                match EvalSha w (sha s) keys args with
                | (inl res, w) => (inl res, s, w)
                | (inr msg, w) =>
                    (inr (ErrorWrap ErrScript ("run " +:+ scriptName s +:+ ": " +:+ msg)), s, w)
                end
            end
          else (inr (ErrorWrap ErrScript ("run " +:+ scriptName s +:+ ": " +:+ msg)), s, w)
      end
  end.

(** ** The shared base (limiter.go) *)

(** A limiter: its options, its script, the client, the calls the sink and the
    error callback received. *)
Record limiter := mkLimiter {
  lim_opts : Options;
  lim_script : Script;
  lim_client : W;
  lim_trace : list MetricEvent;
  lim_errors : list error
}.

Definition keyFor (l : limiter) (key : string) : string := keyPrefix (lim_opts l) +:+ key.

Definition callOnError (l : limiter) (err : error) : limiter :=
  match onError (lim_opts l) with
  | None => l
  | Some _ =>
      mkLimiter (lim_opts l) (lim_script l) (lim_client l) (lim_trace l) (lim_errors l ++ [err])
  end.

Definition fallback (l : limiter) (err : error) : Result * limiter :=
  let l := callOnError l err in
  if policy (lim_opts l) =? ErrorFailOpen then (mkResult true 0 0, l) else (mkResult false 0 0, l).

Definition emit (l : limiter) (result : Result) : limiter :=
  match sink (lim_opts l) with
  | None => l
  | Some _ =>
      mkLimiter (lim_opts l) (lim_script l) (lim_client l)
        (lim_trace l ++ [if Allowed result then OnAllowed TierSingle result else OnRejected TierSingle result])
        (lim_errors l)
  end.

Definition emitError (l : limiter) (err : error) : limiter :=
  match sink (lim_opts l) with
  | None => l
  | Some _ =>
      mkLimiter (lim_opts l) (lim_script l) (lim_client l)
        (lim_trace l ++ [OnError TierSingle err]) (lim_errors l)
  end.

(** ** Allow (token_bucket.go, leaky_bucket.go, sliding_window_log.go) *)

(** The three lines of every failure branch. *)
Definition degrade (l : limiter) (err : error) : Result * limiter :=
  let l := emitError l err in
  let '(result, l) := fallback l err in
  (result, emit l result).

(** 64-bit wrap-around of the product [time.Duration(retryMs) * time.Millisecond]. *)
Definition wrap64 (z : Z) : Z := (z + 2 ^ 63) mod 2 ^ 64 - 2 ^ 63.

(** The two checks on the reply, and the result. *)
Definition decode (res : reply) : Result + error :=
  match res with
  | RArray [a; b; c] =>
      match a, b, c with
      | RInt allowed, RInt remaining, RInt retryMs =>
          inl (mkResult (allowed =? 1) remaining (wrap64 (retryMs * GoTime.Millisecond)))
      | _, _, _ => inr (ErrorWrap ErrScript ("unexpected result element type " +:+ typeName res))
      end
  | _ => inr (ErrorWrap ErrScript ("unexpected result type " +:+ typeName res))
  end.

(** [Allow], with the script arguments of the algorithm. *)
Definition allow (args : list scriptArg) (l : limiter) (key : string)
    : (Result * option error) * limiter :=
  match validateKey key with
  | Some err => ((zeroResult, Some err), emitError l err)
  | None =>
      let '(out, script, w) := Run (lim_script l) (lim_client l) [keyFor l key] args in
      let l := mkLimiter (lim_opts l) script w (lim_trace l) (lim_errors l) in
      match out with
      | inr err => let '(result, l) := degrade l err in ((result, None), l)
      | inl res =>
          match decode res with
          | inr wrap => let '(result, l) := degrade l wrap in ((result, None), l)
          | inl result => ((result, None), emit l result)
          end
      end
  end.

End Run.
Arguments limiter : clear implicits.

Definition newLimiter {W} (client : W) (script : Script) (opts : list Option) : limiter W :=
  mkLimiter (foldl (fun o opt => opt o) defaultOptions opts) script client [] [].

(** ** The three limiters *)

Section Limiters.
Context {W : Type} {client : RedisClient W}.

(** The embedded Lua files. *)
Context (tokenBucketScript leakyBucketScript slidingWindowLogScript : string).

(** A bucket limiter of this package: the base, the capacity and the rate. *)
Record TokenBucket := mkTokenBucket { tb_base : limiter W; tb_capacity : spec_float; tb_rate : spec_float }.
Record LeakyBucket := mkLeakyBucket { lb_base : limiter W; lb_capacity : spec_float; lb_rate : spec_float }.
Record SlidingWindow := mkSlidingWindow { sw_base : limiter W; sw_limit : Z; sw_window : Duration }.

Definition NewTokenBucket (c : W) (capacity rate : spec_float) (opts : list Option) : outcome TokenBucket :=
  panic_if (negb (Numeric.isFinite capacity) || F64.lt capacity (F64.of_int 1))
    "kaka/redis: token bucket capacity must be >= 1" (
  panic_if (negb (Numeric.isFinite rate) || F64.le rate (F64.of_int 0))
    "kaka/redis: token bucket rate must be > 0" (
  Returns (mkTokenBucket (newLimiter c (NewScript "token_bucket" tokenBucketScript) opts) capacity rate))).

Definition NewLeakyBucket (c : W) (capacity rate : spec_float) (opts : list Option) : outcome LeakyBucket :=
  panic_if (negb (Numeric.isFinite capacity) || F64.lt capacity (F64.of_int 1))
    "kaka/redis: leaky bucket capacity must be >= 1" (
  panic_if (negb (Numeric.isFinite rate) || F64.le rate (F64.of_int 0))
    "kaka/redis: leaky bucket rate must be > 0" (
  Returns (mkLeakyBucket (newLimiter c (NewScript "leaky_bucket" leakyBucketScript) opts) capacity rate))).

Definition NewSlidingWindow (c : W) (limit : Z) (window : Duration) (opts : list Option)
    : outcome SlidingWindow :=
  panic_if (limit <=? 0) "kaka/redis: sliding window limit must be > 0" (
  panic_if (window <=? 0) "kaka/redis: sliding window window must be > 0" (
  Returns (mkSlidingWindow
    (newLimiter c (NewScript "sliding_window_log" slidingWindowLogScript) opts) limit window))).

Definition ttlMs (l : limiter W) : Z := GoTime.Milliseconds (keyTTL (lim_opts l)).

(** [strconv.FormatUint(n, 16)]. *)
Definition hexDigit (n : Z) : ascii :=
  ascii_of_nat (Z.to_nat (if n <? 10 then 48 + n else 87 + n)).
Fixpoint formatHex (fuel : nat) (n : Z) (acc : string) : string :=
  match fuel with
  | O => acc
  | S fuel =>
      let acc := String (hexDigit (n mod 16)) acc in
      if n / 16 =? 0 then acc else formatHex fuel (n / 16) acc
  end.
Definition FormatUint16 (n : Z) : string := formatHex 16 n "".

#[export] Instance TokenBucket_Allow : Limiter unit TokenBucket := fun _ tb key =>
  let '(r, l) := allow [ArgFloat (tb_capacity tb); ArgFloat (tb_rate tb); ArgInt (ttlMs (tb_base tb))]
                   (tb_base tb) key in
  Some (r, mkTokenBucket l (tb_capacity tb) (tb_rate tb)).

#[export] Instance LeakyBucket_Allow : Limiter unit LeakyBucket := fun _ lb key =>
  let '(r, l) := allow [ArgFloat (lb_capacity lb); ArgFloat (lb_rate lb); ArgInt (ttlMs (lb_base lb))]
                   (lb_base lb) key in
  Some (r, mkLeakyBucket l (lb_capacity lb) (lb_rate lb)).

(** The environment of a call is the random [uint64] that salts the member. *)
#[export] Instance SlidingWindow_Allow : Limiter Z SlidingWindow := fun rand sw key =>
  let '(r, l) := allow [ArgInt (sw_limit sw); ArgInt (GoTime.Milliseconds (sw_window sw));
                        ArgInt (ttlMs (sw_base sw)); ArgString (FormatUint16 rand)]
                   (sw_base sw) key in
  Some (r, mkSlidingWindow l (sw_limit sw) (sw_window sw)).

End Limiters.
Arguments TokenBucket : clear implicits.
Arguments LeakyBucket : clear implicits.
Arguments SlidingWindow : clear implicits.

(** ** What the script cache relies on *)

(** The documented behaviour of SCRIPT LOAD and EVALSHA on a server that is
    reachable: scripts are cached under a digest of their body; EVALSHA of a
    cached script executes it; EVALSHA of any other digest has no effect and
    fails with a NOSCRIPT error.  The cache may be empty at any time. *)
Class RedisScripting (W : Type) (client : RedisClient W) := {
  digest : string → string;
  cached : W → string → bool;
  remember : W → string → W;
  execute : W → string → list string → list scriptArg → (reply + string) * W;
  digest_nonempty body : digest body ≠ "";
  load_law w body : ScriptLoad w body = (inl (digest body), remember w body);
  remember_law w body : cached (remember w body) body = true;
  eval_cached w body keys args :
    cached w body = true → EvalSha w (digest body) keys args = execute w body keys args;
  eval_missing w body keys args :
    cached w body = false →
    ∃ msg, EvalSha w (digest body) keys args = (inr msg, w) ∧ isNoScriptErr msg = true;
  execute_law w body keys args msg w' :
    execute w body keys args = (inr msg, w') → isNoScriptErr msg = false
}.

Section RunFacts.
Context {W : Type} {client : RedisClient W} {scripting : RedisScripting W client}.

(** The script's cached SHA is empty or right. *)
Definition script_ok (s : Script) : Prop := sha s = "" ∨ sha s = digest (scriptBody s).

(** The state in which the script is executed. *)
Definition ready (s : Script) (w : W) : W :=
  if bool_decide (sha s = "") then remember w (scriptBody s)
  else if cached w (scriptBody s) then w else remember w (scriptBody s).

(** What [Run] makes of the outcome of the execution. *)
Definition runOutcome (s : Script) (out : reply + string) : reply + error :=
  match out with
  | inl res => inl res
  | inr msg => inr (ErrorWrap ErrScript ("run " +:+ scriptName s +:+ ": " +:+ msg))
  end.

Lemma Load_law s w :
  Load s w = (inl (mkScript (scriptName s) (scriptBody s) (digest (scriptBody s))),
              remember w (scriptBody s)).
Proof. unfold Load. by rewrite load_law. Qed.

Lemma run_cached s w keys args :
  sha s = digest (scriptBody s) → cached w (scriptBody s) = true →
  Run s w keys args =
    (runOutcome s (execute w (scriptBody s) keys args).1, s, (execute w (scriptBody s) keys args).2).
Proof.
  intros Hs Hc. unfold Run. rewrite bool_decide_false by (rewrite Hs; apply digest_nonempty).
  rewrite Hs, (eval_cached w (scriptBody s) keys args Hc).
  destruct (execute w (scriptBody s) keys args) as [[res|msg] w'] eqn:E; [done|].
  by rewrite (execute_law _ _ _ _ _ _ E).
Qed.

Lemma run_once s w keys args :
  script_ok s →
  ∃ s', Run s w keys args =
      (runOutcome s (execute (ready s w) (scriptBody s) keys args).1, s',
       (execute (ready s w) (scriptBody s) keys args).2) ∧
    scriptName s' = scriptName s ∧ scriptBody s' = scriptBody s ∧ sha s' = digest (scriptBody s).
Proof.
  intros Hok. set (s1 := mkScript (scriptName s) (scriptBody s) (digest (scriptBody s))).
  destruct (decide (sha s = "")) as [He|Hne].
  - exists s1. split; [|done]. unfold ready. rewrite (bool_decide_true _ He).
    pose proof (run_cached s1 (remember w (scriptBody s)) keys args eq_refl (remember_law _ _)) as Hr.
    unfold Run in *. rewrite (bool_decide_true _ He), Load_law. fold s1.
    rewrite bool_decide_false in Hr by apply digest_nonempty. exact Hr.
  - destruct Hok as [|Hs]; [done|]. unfold ready. rewrite (bool_decide_false _ Hne).
    destruct (cached w (scriptBody s)) eqn:Hc.
    + exists s. split; [by apply run_cached|done].
    + exists s1. split; [|done]. unfold Run. rewrite (bool_decide_false _ Hne), Hs.
      destruct (eval_missing w (scriptBody s) keys args Hc) as (msg & -> & ->). rewrite Load_law.
      cbn [sha]. rewrite (eval_cached _ _ keys args (remember_law w (scriptBody s))).
      by destruct (execute _ _ keys args) as [[res|msg'] w'].
Qed.
End RunFacts.

(** ** One call *)

Section AllowFacts.
Context {W : Type} {client : RedisClient W}.
Implicit Types l : limiter W.

(** Both errors of the package are visible to [errors.Is]. *)
Definition package_error (err : error) : Prop :=
  errors_Is err ErrRedisUnavailable = true ∨ errors_Is err ErrScript = true.

Lemma wrap_is target d : errors_Is (ErrorWrap target d) target = true.
Proof.
  cbn [errors_Is]. destruct target; cbn [errors_Is]; rewrite (bool_decide_true (_ = _) eq_refl), orb_true_l;
    apply orb_true_r.
Qed.

Lemma Load_error s w err w' : Load s w = (inr err, w') → package_error err.
Proof.
  unfold Load. destruct (ScriptLoad w (scriptBody s)) as [[sha'|msg] w1]; intros [= <- <-].
  left. apply wrap_is.
Qed.

Lemma Run_error s w keys args err s' w' : Run s w keys args = (inr err, s', w') → package_error err.
Proof.
  unfold Run. destruct (if bool_decide (sha s = "") then Load s w else (inl s, w)) as [[s1|e] w1] eqn:El.
  - destruct (EvalSha w1 (sha s1) keys args) as [[res|msg] w2]; [done|]. destruct (isNoScriptErr msg).
    + destruct (Load s1 w2) as [[s2|e2] w3] eqn:El2.
      * destruct (EvalSha w3 (sha s2) keys args) as [[res|msg2] w4]; intros [= <- <- <-].
        right. apply wrap_is.
      * intros [= <- <- <-]. by eapply Load_error.
    + intros [= <- <- <-]. right. apply wrap_is.
  - intros [= <- <- <-]. case_bool_decide; [by eapply Load_error|done].
Qed.

Lemma decode_error res err : decode res = inr err → package_error err.
Proof.
  unfold decode. intros H. right.
  repeat case_match; simplify_eq; exact (wrap_is ErrScript _).
Qed.

(** The events a registered sink, and the errors a registered callback, get. *)
Definition seen l (evs : list MetricEvent) : list MetricEvent :=
  match sink (lim_opts l) with None => [] | Some _ => evs end.
Definition called l (errs : list error) : list error :=
  match onError (lim_opts l) with None => [] | Some _ => errs end.

Definition resultEvent (r : Result) : MetricEvent :=
  if Allowed r then OnAllowed TierSingle r else OnRejected TierSingle r.

Lemma redis_emit_eq l r :
  emit l r = mkLimiter (lim_opts l) (lim_script l) (lim_client l)
    (lim_trace l ++ seen l [resultEvent r]) (lim_errors l).
Proof. destruct l as [o sc w tr er]; unfold emit, seen; simpl. destruct (sink o); by rewrite ?app_nil_r. Qed.

Lemma redis_emitError_eq l err :
  emitError l err = mkLimiter (lim_opts l) (lim_script l) (lim_client l)
    (lim_trace l ++ seen l [OnError TierSingle err]) (lim_errors l).
Proof. destruct l as [o sc w tr er]; unfold emitError, seen; simpl. destruct (sink o); by rewrite ?app_nil_r. Qed.

Lemma degrade_eq l err :
  let r := mkResult (policy (lim_opts l) =? ErrorFailOpen) 0 0 in
  degrade l err = (r, mkLimiter (lim_opts l) (lim_script l) (lim_client l)
    (lim_trace l ++ seen l [OnError TierSingle err; resultEvent r]) (lim_errors l ++ called l [err])).
Proof.
  destruct l as [[pre ttl p oe sk] sc w tr er].
  unfold degrade, fallback, callOnError, emit, emitError, seen, called, resultEvent; simpl.
  destruct sk, oe; simpl; destruct (p =? ErrorFailOpen); simpl; rewrite ?app_nil_r, <- ?app_assoc; done.
Qed.

End AllowFacts.

(** ** Properties *)

(** C33: no Redis failure reaches the caller as an error.  For any client and server,
    a call on a key that is not blank returns no error: either the decoded
    reply, reported to the sink; or, when loading, running or decoding fails,
    the result the policy prescribes (allowed exactly under
    [ErrorFailOpen]), with the error passed once to the callback and once to
    the sink, before the decision.  A blank key is an error and contacts
    nobody. *)
Theorem redis_error_policy {W} `{!RedisClient W} args (l : limiter W) key :
  match validateKey key with
  | Some err =>
      err = ErrBlankKey ∧ GoString.Blank key ∧
      allow args l key = ((zeroResult, Some ErrBlankKey),
        mkLimiter (lim_opts l) (lim_script l) (lim_client l)
          (lim_trace l ++ seen l [OnError TierSingle ErrBlankKey]) (lim_errors l))
  | None =>
      ∃ result script w tr errs,
        allow args l key = ((result, None), mkLimiter (lim_opts l) script w tr errs) ∧
        (Run (lim_script l) (lim_client l) [keyPrefix (lim_opts l) +:+ key] args).1.2 = script ∧
        (Run (lim_script l) (lim_client l) [keyPrefix (lim_opts l) +:+ key] args).2 = w ∧
        ((∃ res, (Run (lim_script l) (lim_client l) [keyPrefix (lim_opts l) +:+ key] args).1.1 = inl res ∧
            decode res = inl result ∧ errs = lim_errors l ∧
            tr = lim_trace l ++ seen l [resultEvent result]) ∨
         (∃ err, package_error err ∧
            result = mkResult (policy (lim_opts l) =? ErrorFailOpen) 0 0 ∧
            errs = lim_errors l ++ called l [err] ∧
            tr = lim_trace l ++ seen l [OnError TierSingle err; resultEvent result]))
  end.
Proof.
  unfold allow. destruct (validateKey key) as [err|] eqn:Ek.
  - unfold validateKey in Ek. case_bool_decide as Hb; [|done]. injection Ek as <-.
    rewrite GoString.TrimSpace_empty_iff in Hb. by rewrite redis_emitError_eq.
  - unfold keyFor. destruct (Run _ _ _ _) as [[[res|err] script] w] eqn:Er.
    + destruct (decode res) as [result|err] eqn:Ed.
      * rewrite redis_emit_eq. do 5 eexists. split_and!; [done..|]. left. exists res. by split_and!.
      * rewrite degrade_eq. do 5 eexists. split_and!; [done..|]. right. exists err.
        split; [by eapply decode_error|done].
    + rewrite degrade_eq. do 5 eexists. split_and!; [done..|]. right. exists err.
      split; [by eapply Run_error|done].
Qed.

(** The script is executed exactly once per call.  On a reachable server, whether
    the SHA is cached in the limiter or not, and whether the server still has
    the script or has flushed it, [Run] executes the script's body exactly
    once, on the keys and arguments it was given, and leaves the right SHA
    cached. *)
Theorem redis_script_runs_once {W} {client : RedisClient W} {scripting : RedisScripting W client}
    (s : Script) (w : W) keys args :
  script_ok s →
  ∃ s', Run s w keys args =
      (runOutcome s (execute (ready s w) (scriptBody s) keys args).1, s',
       (execute (ready s w) (scriptBody s) keys args).2) ∧
    scriptName s' = scriptName s ∧ scriptBody s' = scriptBody s ∧ sha s' = digest (scriptBody s).
Proof. apply run_once. Qed.

(** A server that remembers scripts, counts executions, and always answers
    the same. *)
Definition toyClient : RedisClient (list string * Z) := {|
  ScriptLoad w body := (inl (String "d" body), (body :: w.1, w.2));
  EvalSha w sha keys args :=
    match sha with
    | EmptyString => (inr "NOSCRIPT No matching script", w)
    | String _ body =>
        if bool_decide (body ∈ w.1) then (inl (RArray [RInt 1; RInt 4; RInt 0]), (w.1, w.2 + 1))
        else (inr "NOSCRIPT No matching script", w)
    end
|}.

Definition toyScripting : RedisScripting (list string * Z) toyClient.
Proof.
  refine {|
    digest body := String "d" body;
    cached w body := bool_decide (body ∈ w.1);
    remember w body := (body :: w.1, w.2);
    execute w body keys args := (inl (RArray [RInt 1; RInt 4; RInt 0]), (w.1, w.2 + 1))
  |}; try done.
  - intros w body. apply bool_decide_true. simpl. by left.
  - intros w body keys args Hc. simpl. by rewrite Hc.
  - intros w body keys args Hc. simpl. rewrite Hc. by eexists.
Defined.

Lemma redis_script_runs_once_witness :
  ∃ s', Run (client := toyClient) (mkScript "token_bucket" "body" "dbody") ([], 0) ["kaka:a"]%string [] =
      (inl (RArray [RInt 1; RInt 4; RInt 0]), s', (["body"]%string, 1)) ∧
    scriptName s' = "token_bucket"%string ∧ scriptBody s' = "body"%string ∧ sha s' = "dbody"%string.
Proof.
  apply (redis_script_runs_once (scripting := toyScripting) (mkScript "token_bucket" "body" "dbody") ([], 0)
    ["kaka:a"]%string []).
  right. reflexivity.
Defined.

End Redis.
