(* ===== verification/ScriptConcurrent.v ===== *)
(** * ScriptConcurrent: concurrent calls of one Script (redis/script.go)

    A [Script] is shared by all requests of a limiter.  Its SHA is guarded by
    a lock, but [Run] reads it, loads the script and evaluates it in separate
    steps, between which other goroutines, other clients and restarts of the
    server may come.  One step is one access to the SHA under the lock or one
    command on the server. *)

From Stdlib Require Import ZArith Lia Bool.
From stdpp Require Import base strings list.
From S2P Require Import Prelude Core Redis.

#[local] Open Scope Z_scope.

Module ScriptConcurrent.

(** ** Goroutines inside [Run] *)

(** Where a goroutine is: the boolean tells the second attempt, after a
    NOSCRIPT error, from the first. *)
Inductive pc :=
| Check                                (** [s.getSHA() == ""] *)
| Loading (again : bool)               (** [client.ScriptLoad] *)
| Store (again : bool) (loaded : string)  (** [s.sha = sha] *)
| Read (again : bool)                  (** [s.getSHA()], the argument of [EvalSha] *)
| Eval (again : bool) (read : string)  (** [client.EvalSha] *)
| Done (out : Redis.reply + error).

Record goroutine := mkGoroutine {
  g_keys : list string;
  g_args : list Redis.scriptArg;
  g_pc : pc
}.

(** The shared script's SHA, the server, the goroutines, and which goroutine
    executed the script's body in which state of the server. *)
Record config (W : Type) := mkConfig {
  c_sha : string;
  c_server : W;
  c_goroutines : list goroutine;
  c_executed : list (nat * W)
}.
#[global] Arguments mkConfig {W}.
#[global] Arguments c_sha {W}.
#[global] Arguments c_server {W}.
#[global] Arguments c_goroutines {W}.
#[global] Arguments c_executed {W}.

Section Run.
Context {W : Type} {client : Redis.RedisClient W}.
Context (name body : string).

(** One step of [Run]: the SHA, the server and the program counter
    afterwards. *)
Definition advance (sha : string) (w : W) (keys : list string) (args : list Redis.scriptArg) (p : pc)
    : string * W * pc :=
  match p with
  | Check => (sha, w, if bool_decide (sha = "") then Loading false else Read false)
  | Loading again =>
      match Redis.ScriptLoad w body with
      | (inl loaded, w) => (sha, w, Store again loaded)
      | (inr msg, w) =>
          (sha, w, Done (inr (ErrorWrap Redis.ErrRedisUnavailable ("load " +:+ name +:+ ": " +:+ msg))))
      end
  | Store again loaded => (loaded, w, Read again)
  | Read again => (sha, w, Eval again sha)
  | Eval again read =>
      match Redis.EvalSha w read keys args with
      | (inl res, w) => (sha, w, Done (inl res))
      | (inr msg, w) =>
          (sha, w,
           if negb again && Redis.isNoScriptErr msg then Loading true
           else Done (inr (ErrorWrap Redis.ErrScript ("run " +:+ name +:+ ": " +:+ msg))))
      end
  | Done out => (sha, w, Done out)
  end.

(** A goroutine that runs alone. *)
Fixpoint drive (fuel : nat) (sha : string) (w : W) (keys : list string) (args : list Redis.scriptArg) (p : pc)
    : option ((Redis.reply + error) * string * W) :=
  match p with
  | Done out => Some (out, sha, w)
  | _ =>
      match fuel with
      | O => None
      | S fuel => let '(sha, w, p) := advance sha w keys args p in drive fuel sha w keys args p
      end
  end.

Lemma drive_step n sha w keys args p :
  drive (S n) sha w keys args p =
    let '(sha, w, p) := advance sha w keys args p in drive n sha w keys args p.
Proof. destruct p; [reflexivity..|]. by destruct n. Qed.

Lemma drive_Done n sha w keys args out : drive n sha w keys args (Done out) = Some (out, sha, w).
Proof. by destruct n. Qed.

Ltac drive_advance := rewrite drive_step; cbn [advance].

(** Nine steps are enough, and alone they are [Run]. *)
Lemma drive_Run sha w keys args :
  drive 9 sha w keys args Check =
    let '(out, s, w') := Redis.Run (Redis.mkScript name body sha) w keys args in Some (out, Redis.sha s, w').
Proof.
  assert (Hfrom : ∀ n sha w, drive (6 + n) sha w keys args (Read false) =
    let '(out, s, w') :=
      match Redis.EvalSha w sha keys args with
      | (inl res, w) => (inl res, Redis.mkScript name body sha, w)
      | (inr msg, w) =>
          if Redis.isNoScriptErr msg then
            match Redis.Load (Redis.mkScript name body sha) w with
            | (inr err, w) => (inr err, Redis.mkScript name body sha, w)
            | (inl s, w) =>
                match Redis.EvalSha w (Redis.sha s) keys args with
                | (inl res, w) => (inl res, s, w)
                | (inr msg, w) =>
                    (inr (ErrorWrap Redis.ErrScript ("run " +:+ Redis.scriptName s +:+ ": " +:+ msg)), s, w)
                end
            end
          else (inr (ErrorWrap Redis.ErrScript ("run " +:+ name +:+ ": " +:+ msg)), Redis.mkScript name body sha, w)
      end in
    Some (out, Redis.sha s, w')).
  { intros n sha' w'. cbn [Nat.add]. do 2 drive_advance.
    destruct (Redis.EvalSha w' sha' keys args) as [[res|msg] w1]; [by rewrite drive_Done|].
    cbn [negb andb]. destruct (Redis.isNoScriptErr msg); [|by rewrite drive_Done]. unfold Redis.Load.
    cbn [Redis.scriptBody Redis.scriptName]. drive_advance.
    destruct (Redis.ScriptLoad w1 body) as [[loaded|msg'] w2]; [|by rewrite drive_Done].
    do 3 drive_advance. cbn [Redis.sha Redis.scriptName].
    by destruct (Redis.EvalSha w2 loaded keys args) as [[res|msg'] w3]; cbn [negb andb]; rewrite drive_Done. }
  unfold Redis.Run. cbn [Redis.sha]. drive_advance. destruct (bool_decide (sha = "")).
  - unfold Redis.Load at 1. cbn [Redis.scriptBody Redis.scriptName]. drive_advance.
    destruct (Redis.ScriptLoad w body) as [[loaded|msg] w1]; [|by rewrite drive_Done].
    drive_advance. exact (Hfrom 0%nat loaded w1).
  - exact (Hfrom 2%nat sha w).
Qed.

(** ** Interleavings *)

Context {scripting : Redis.RedisScripting W client}.

(** Does this step execute the script's body? *)
Definition executes (w : W) (p : pc) : bool :=
  match p with
  | Eval _ read => bool_decide (read = Redis.digest body) && Redis.cached w body
  | _ => false
  end.

(** A step of goroutine [i]; nothing if there is no such goroutine. *)
Definition step (i : nat) (c : config W) : config W :=
  match c_goroutines c !! i with
  | None => c
  | Some g =>
      let '(sha, w, p) := advance (c_sha c) (c_server c) (g_keys g) (g_args g) (g_pc g) in
      mkConfig sha w (<[i := mkGoroutine (g_keys g) (g_args g) p]> (c_goroutines c))
        (c_executed c ++ if executes (c_server c) (g_pc g) then [(i, c_server c)] else [])
  end.

(** A move of the system: a step of a goroutine, or anything that others do
    to the server: other processes, time passing, a flush, a restart. *)
Inductive move :=
| Step (i : nat)
| Others (f : W → W).

Definition play (c : config W) (m : move) : config W :=
  match m with
  | Step i => step i c
  | Others f => mkConfig (c_sha c) (f (c_server c)) (c_goroutines c) (c_executed c)
  end.

(** Calls that start at the same time. *)
Definition start (sha : string) (w : W) (calls : list (list string * list Redis.scriptArg)) : config W :=
  mkConfig sha w ((fun call => mkGoroutine call.1 call.2 Check) <$> calls) [].

Definition plays (c : config W) (sched : list move) : config W := foldl play c sched.

(** The states of the server in which goroutine [i] executed the body. *)
Definition runsOf (i : nat) (log : list (nat * W)) : list W :=
  snd <$> filter (fun e => e.1 = i) log.

(** The number of steps that a schedule gives to goroutine [i]. *)
Fixpoint turns (i : nat) (sched : list move) : nat :=
  match sched with
  | [] => 0
  | Step j :: sched => if Nat.eqb i j then S (turns i sched) else turns i sched
  | Others _ :: sched => turns i sched
  end.

(** Others do not flush the script. *)
Definition keeps (m : move) : Prop :=
  match m with
  | Step _ => True
  | Others f => ∀ w, Redis.cached w body = true → Redis.cached (f w) body = true
  end.

(** ** Every goroutine finishes after nine turns *)

Definition rank (p : pc) : nat :=
  match p with
  | Check => 9
  | Loading again => if again then 4 else 8
  | Store again _ => if again then 3 else 7
  | Read again => if again then 2 else 6
  | Eval again _ => if again then 1 else 5
  | Done _ => 0
  end.

Lemma rank_zero p : rank p = 0%nat → ∃ out, p = Done out.
Proof. destruct p as [|[]|[]|[]|[]|out]; try discriminate. by exists out. Qed.

Lemma rank_advance sha w keys args p : (rank (advance sha w keys args p).2 <= pred (rank p))%nat.
Proof.
  destruct p as [|again|again loaded|again|again read|out]; cbn [advance];
    try (destruct again); repeat case_match; simplify_eq; cbn [snd rank]; lia.
Qed.

Lemma goroutine_step i j c g :
  c_goroutines c !! j = Some g →
  c_goroutines (step i c) !! j =
    Some (if Nat.eqb j i
          then mkGoroutine (g_keys g) (g_args g) (advance (c_sha c) (c_server c) (g_keys g) (g_args g) (g_pc g)).2
          else g).
Proof.
  intros Hj. unfold step. destruct (Nat.eqb_spec j i) as [->|Hne].
  - rewrite Hj. destruct (advance _ _ _ _ _) as [[sha w] p]. simpl.
    rewrite list_lookup_insert_eq; [done|]. by eapply lookup_lt_Some.
  - destruct (c_goroutines c !! i) as [g'|]; [|done].
    destruct (advance _ _ _ _ _) as [[sha w] p]. simpl. by rewrite list_lookup_insert_ne by done.
Qed.

Lemma goroutine_plays sched c j g :
  c_goroutines c !! j = Some g →
  ∃ p, c_goroutines (plays c sched) !! j = Some (mkGoroutine (g_keys g) (g_args g) p) ∧
    (rank p <= rank (g_pc g) - turns j sched)%nat.
Proof.
  revert c g. induction sched as [|[i|f] sched IH]; intros c g Hj; simpl.
  - exists (g_pc g). destruct g; simpl. split; [done|lia].
  - destruct (IH (step i c) _ (goroutine_step i j c g Hj)) as (p & Hp & Hr).
    exists p. destruct (Nat.eqb j i); simpl in *; split; [done| |done|done].
    pose proof (rank_advance (c_sha c) (c_server c) (g_keys g) (g_args g) (g_pc g)). lia.
  - by apply IH.
Qed.

(** ** What a goroutine knows *)

Definition noScript (out : Redis.reply + error) : Prop :=
  ∃ msg, Redis.isNoScriptErr msg = true ∧
    out = inr (ErrorWrap Redis.ErrScript ("run " +:+ name +:+ ": " +:+ msg)).

(** The body was executed in state [w] with this outcome. *)
Definition outcomeIn (keys : list string) (args : list Redis.scriptArg) (w : W) : Redis.reply + error :=
  Redis.runOutcome (Redis.mkScript name body "") (Redis.execute w body keys args).1.

(** [ran]: the states in which the goroutine executed the body; [held]: the
    script cannot have been flushed since the goroutine last loaded it. *)
Definition knows (sha : string) (w : W) (ran : list W) (held : Prop) (g : goroutine) : Prop :=
  match g_pc g with
  | Check => ran = []
  | Loading _ => ran = []
  | Store again loaded => ran = [] ∧ loaded = Redis.digest body ∧ (held → again = true → Redis.cached w body = true)
  | Read again => ran = [] ∧ sha = Redis.digest body ∧ (held → again = true → Redis.cached w body = true)
  | Eval again read => ran = [] ∧ read = Redis.digest body ∧ (held → again = true → Redis.cached w body = true)
  | Done out =>
      (∃ w0, ran = [w0] ∧ Redis.cached w0 body = true ∧ out = outcomeIn (g_keys g) (g_args g) w0) ∨
      (ran = [] ∧ noScript out ∧ ¬ held)
  end.

Definition sha_ok (sha : string) : Prop := sha = "" ∨ sha = Redis.digest body.

Lemma knows_advance sha w held g :
  sha_ok sha → knows sha w [] held g → (∀ out, g_pc g ≠ Done out) →
  let '(sha', w', p) := advance sha w (g_keys g) (g_args g) (g_pc g) in
  sha_ok sha' ∧
  knows sha' w' (if executes w (g_pc g) then [w] else []) held (mkGoroutine (g_keys g) (g_args g) p).
Proof.
  destruct g as [keys args p]; unfold knows; cbn [g_pc g_keys g_args]. intros Hs Hk Hd.
  destruct p as [|again|again loaded|again|again read|out]; cbn [advance executes].
  - split; [done|]. case_bool_decide; cbn; [done|]. destruct Hs; [done|]. by split_and!.
  - rewrite Redis.load_law. split; [done|]. split_and!; [done..|]. intros _ _. apply Redis.remember_law.
  - destruct Hk as (Hr & -> & Hc). split; [by right|done].
  - done.
  - destruct Hk as (Hr & -> & Hc). rewrite (bool_decide_true _ eq_refl), andb_true_l.
    destruct (Redis.cached w body) eqn:Ec.
    + rewrite (Redis.eval_cached _ _ _ _ Ec).
      destruct (Redis.execute w body keys args) as [[res|msg] w'] eqn:Ee; (split; [done|]).
      * left. exists w. unfold outcomeIn. by rewrite Ee, Ec.
      * rewrite (Redis.execute_law _ _ _ _ _ _ Ee), andb_false_r.
        left. exists w. unfold outcomeIn. by rewrite Ee, Ec.
    + destruct (Redis.eval_missing w body keys args Ec) as (msg & -> & Hm). split; [done|].
      rewrite Hm, andb_true_r. destruct again; cbn; [|done]. right. split_and!; [done|by exists msg|].
      intros Hh. by specialize (Hc Hh eq_refl).
  - by destruct (Hd out).
Qed.

(** Executing the script leaves it in the server's cache. *)
Definition retains : Prop :=
  ∀ w keys args, Redis.cached w body = true → Redis.cached (Redis.execute w body keys args).2 body = true.

(** What a goroutine knows survives the steps of others. *)
Lemma knows_stable sha sha' w w' ran held g :
  (sha = Redis.digest body → sha' = Redis.digest body) →
  (held → Redis.cached w body = true → Redis.cached w' body = true) →
  knows sha w ran held g → knows sha' w' ran held g.
Proof.
  unfold knows. intros Hs Hc. destruct (g_pc g); naive_solver.
Qed.

Lemma sha_advance sha w keys args p :
  sha = Redis.digest body → knows sha w [] False (mkGoroutine keys args p) →
  (advance sha w keys args p).1.1 = Redis.digest body.
Proof.
  intros -> Hk. destruct p as [|again|again loaded|again|again read|out]; cbn [advance]; try done.
  - by rewrite Redis.load_law.
  - by destruct Hk as (_ & -> & _).
  - by destruct (Redis.EvalSha w read keys args) as [[res|msg] w'].
Qed.

Lemma cached_advance sha w keys args p :
  retains → knows sha w [] False (mkGoroutine keys args p) → (∀ out, p ≠ Done out) →
  Redis.cached w body = true → Redis.cached (advance sha w keys args p).1.2 body = true.
Proof.
  intros Hret Hk Hd Hc. destruct p as [|again|again loaded|again|again read|out]; cbn [advance]; try done.
  - rewrite Redis.load_law. apply Redis.remember_law.
  - destruct Hk as (_ & -> & _). rewrite (Redis.eval_cached _ _ _ _ Hc). pose proof (Hret w keys args Hc) as Hr.
    by destruct (Redis.execute w body keys args) as [[res|msg] w'].
Qed.

(** ** The invariant of all schedules *)

Definition invariant (held : Prop) (c : config W) : Prop :=
  sha_ok (c_sha c) ∧
  ∀ i g, c_goroutines c !! i = Some g → knows (c_sha c) (c_server c) (runsOf i (c_executed c)) held g.

Lemma runsOf_app i log log' : runsOf i (log ++ log') = runsOf i log ++ runsOf i log'.
Proof. unfold runsOf. by rewrite filter_app, fmap_app. Qed.

Lemma runsOf_single i j w : runsOf i [(j, w)] = if Nat.eqb i j then [w] else [].
Proof.
  unfold runsOf. rewrite filter_cons, filter_nil. simpl. destruct (Nat.eqb_spec i j); case_decide; naive_solver.
Qed.

Lemma knows_running sha w ran held keys args p :
  rank p ≠ 0%nat → knows sha w ran held (mkGoroutine keys args p) →
  ran = [] ∧ knows sha w [] False (mkGoroutine keys args p) ∧ (∀ out, p ≠ Done out).
Proof. unfold knows. destruct p; naive_solver. Qed.

Lemma invariant_step held i c : (held → retains) → invariant held c → invariant held (step i c).
Proof.
  intros Hret [Hs Hk]. unfold step. destruct (c_goroutines c !! i) as [g|] eqn:Hi; [|done].
  pose proof (Hk i g Hi) as Hg. destruct g as [keys args p]. cbn [g_keys g_args g_pc] in *.
  destruct (decide (rank p = 0%nat)) as [Hp|Hp].
  { destruct (rank_zero p Hp) as [out ->]. cbn [advance executes]. rewrite app_nil_r, list_insert_id by done. by split. }
  destruct (knows_running _ _ _ _ _ _ _ Hp Hg) as (Hran & Hg' & Hd). rewrite Hran in Hg.
  pose proof (knows_advance _ _ _ _ Hs Hg Hd) as Ha.
  pose proof (fun H => sha_advance _ _ _ _ _ H Hg') as Hsha.
  pose proof (fun H H' => cached_advance _ _ _ _ _ (Hret H) Hg' Hd H') as Hc. cbn [g_keys g_args g_pc] in Ha.
  destruct (advance (c_sha c) (c_server c) keys args p) as [[sha w] p']. destruct Ha as [Hs' Ha].
  split; [exact Hs'|]. cbn [c_sha c_server c_goroutines c_executed]. intros j g' Hj. rewrite runsOf_app.
  destruct (decide (j = i)) as [->|Hne].
  - rewrite list_lookup_insert_eq in Hj by (by eapply lookup_lt_Some). injection Hj as <-. rewrite Hran.
    destruct (executes (c_server c) p); [|exact Ha]. rewrite runsOf_single, Nat.eqb_refl. exact Ha.
  - rewrite list_lookup_insert_ne in Hj by done.
    replace (runsOf j (if executes (c_server c) p then [(i, c_server c)] else [])) with (@nil W).
    + rewrite app_nil_r. exact (knows_stable _ _ _ _ _ _ _ Hsha Hc (Hk j g' Hj)).
    + destruct (executes (c_server c) p); [|done]. rewrite runsOf_single. by destruct (Nat.eqb_spec j i).
Qed.

Lemma invariant_plays held sched c :
  (held → retains) → (held → Forall keeps sched) → invariant held c → invariant held (plays c sched).
Proof.
  intros Hret. revert c. induction sched as [|m sched IH]; intros c Hk Hi; [done|].
  apply IH; [intros H; by destruct (proj1 (Forall_cons _ _ _) (Hk H))|]. destruct m as [i|f]; [by apply invariant_step|].
  destruct Hi as [Hs Hg]. split; [done|]. intros i g Hi. simpl in *.
  refine (knows_stable _ _ _ _ _ _ _ id _ (Hg i g Hi)). intros H. by destruct (proj1 (Forall_cons _ _ _) (Hk H)) as [Hf _]; apply Hf.
Qed.

Lemma invariant_start held sha w calls : sha_ok sha → invariant held (start sha w calls).
Proof.
  intros Hs. split; [done|]. intros i g Hi. simpl in Hi. rewrite list_lookup_fmap in Hi.
  destruct (calls !! i); [|done]. by injection Hi as <-.
Qed.

End Run.

(** ** Properties *)

(** C34: a [Script] is safe for concurrent use.  However the steps of
    concurrent calls of [Run], those of other clients and flushes of the
    server interleave, no call executes the script's body twice; every call
    returns after at most nine steps of its own; what it returns is the outcome of
    its one execution, on its own keys and arguments, or a script error of a
    body that was never executed; and the latter cannot happen as long as nobody flushes the
    server's scripts.  The SHA in the script stays empty or right. *)
Theorem redis_script_concurrent {W} {client : Redis.RedisClient W}
    {scripting : Redis.RedisScripting W client} name body sha (w : W) calls sched i keys args :
  sha_ok body sha → calls !! i = Some (keys, args) →
  let c := plays name body (start sha w calls) sched in
  sha_ok body (c_sha c) ∧
  (length (runsOf i (c_executed c)) <= 1)%nat ∧
  ((9 <= turns i sched)%nat →
   ∃ out, c_goroutines c !! i = Some (mkGoroutine keys args (Done out)) ∧
     ((∃ w0, runsOf i (c_executed c) = [w0] ∧ Redis.cached w0 body = true ∧
         out = outcomeIn name body keys args w0) ∨
      (runsOf i (c_executed c) = [] ∧ noScript name out ∧ ¬ (retains body ∧ Forall (keeps body) sched)))).
Proof.
  intros Hs Hi c.
  assert (Hc : invariant name body (retains body ∧ Forall (keeps body) sched) c).
  { apply invariant_plays; [by intros []..|]. by apply invariant_start. }
  destruct (goroutine_plays name body sched (start sha w calls) i (mkGoroutine keys args Check))
    as (p & Hp & Hr); [simpl; by rewrite list_lookup_fmap, Hi|].
  destruct Hc as [Hs' Hk]. specialize (Hk i _ Hp). split; [exact Hs'|]. fold c in Hp. cbn in Hp, Hr. split.
  - destruct (decide (rank p = 0%nat)) as [H0|H0].
    + destruct (rank_zero p H0) as [out ->]. destruct Hk as [(w0 & -> & _)|[-> _]]; simpl; lia.
    + destruct (knows_running _ _ _ _ _ _ _ _ _ H0 Hk) as (-> & _). simpl; lia.
  - intros Ht. assert (H0 : rank p = 0%nat) by lia. destruct (rank_zero p H0) as [out ->].
    exists out. split; [exact Hp|exact Hk].
Qed.

(** Two calls race to load the script, and the server loses it right before
    the first of them executes it. *)
Definition race : list (move (W := list string * Z)) :=
  [Step 0; Step 1; Step 1; Step 0; Step 0; Step 1; Step 0; Others (fun w => ([], w.2)); Step 0; Step 0;
   Step 1; Step 0; Step 1; Step 0; Step 0; Step 0].

Definition raceCalls : list (list string * list Redis.scriptArg) :=
  [(["kaka:a"]%string, []); (["kaka:b"]%string, [])].

Definition raceEnd : config (list string * Z) :=
  plays (client := Redis.toyClient) (scripting := Redis.toyScripting) "token_bucket" "body"
    (start "" ([], 0) raceCalls) race.

Lemma redis_script_concurrent_witness :
  (length (runsOf 0 (c_executed raceEnd)) <= 1)%nat ∧ (9 <= turns 0 race)%nat ∧
  c_server raceEnd = (["body"]%string, 2) ∧
  ∃ out, c_goroutines raceEnd !! 0%nat = Some (mkGoroutine ["kaka:a"]%string [] (Done out)) ∧
    ((∃ w0, runsOf 0 (c_executed raceEnd) = [w0] ∧
        Redis.cached (RedisScripting := Redis.toyScripting) w0 "body" = true ∧
        out = outcomeIn (scripting := Redis.toyScripting) "token_bucket" "body" ["kaka:a"]%string [] w0) ∨
     (runsOf 0 (c_executed raceEnd) = [] ∧ noScript "token_bucket" out ∧
        ¬ (retains (scripting := Redis.toyScripting) "body" ∧
           Forall (keeps (scripting := Redis.toyScripting) "body") race))).
Proof.
  destruct (redis_script_concurrent (scripting := Redis.toyScripting) "token_bucket" "body" "" ([], 0)
    raceCalls race 0 ["kaka:a"]%string []) as (_ & Hone & Hdone); [by left|reflexivity|].
  split; [exact Hone|]. split; [vm_compute; lia|]. split; [vm_compute; reflexivity|].
  apply Hdone. vm_compute. lia.
Defined.

End ScriptConcurrent.
