(* ===== verification/RedisScripts.v ===== *)
(** * RedisScripts: the Lua scripts under redis/scripts

    The three scripts that decide inside the server, statement by statement.
    A script is a function of [KEYS] and [ARGV] in a monad of computations
    that call the server and may fail; Lua numbers are binary64 floats.  The
    server is a parameter: [redis.call] and the conversions between numbers
    and strings are fields of the class [RedisServer]. *)

From Stdlib Require Import ZArith Lia Bool.
From stdpp Require Import base gmap strings list.
From S2P Require Import Prelude Float64 FloatFacts GoTime Core Redis.

#[local] Open Scope Z_scope.

Module Scripts.
Export Redis (reply(..), scriptArg(..)).

(** ** What a script uses of its host *)

(** [W] is the state of the server.  [redis_call] is [redis.call] with its
    arguments as strings, and the reply as Lua sees it ([RNil] is [false]); an
    error stops the script.  [tonumber] is Lua's; [tostring] is the conversion
    that [redis.call] applies to an argument that is a number; [integer] is the
    conversion of a Lua number to an integer reply; [formatArg] is how the
    client writes a script argument. *)
Class RedisServer (W : Type) := {
  redis_call : W → list string → (reply + string) * W;
  tonumber : string → option spec_float;
  tostring : spec_float → string;
  integer : spec_float → Z;
  formatArg : scriptArg → string
}.

(** [math.floor]. *)
Definition floor (x : spec_float) : spec_float :=
  match x with
  | S754_finite s m e =>
      if F64.mag_frac m e then
        binary_normalize F64.prec F64.emax
          (if s then - (F64.mag_floor m e + 1) else F64.mag_floor m e) 0 s
      else x
  | _ => x
  end.

(** ** Computations *)

Definition M (W A : Type) : Type := W → (A + string) * W.

Definition ret {W A} (a : A) : M W A := fun w => (inl a, w).
Definition raise {W A} (msg : string) : M W A := fun w => (inr msg, w).
Definition bind {W A B} (m : M W A) (k : A → M W B) : M W B := fun w =>
  match m w with
  | (inl a, w') => k a w'
  | (inr msg, w') => (inr msg, w')
  end.

Declare Scope lua_scope.
Delimit Scope lua_scope with lua.
Notation "'let*' x ':=' m 'in' k" := (bind m (fun x => k))
  (at level 200, x pattern, m at level 100, k at level 200) : lua_scope.
Open Scope lua_scope.

Section Scripts.
Context {W : Type} {server : RedisServer W}.

Definition call (args : list string) : M W reply := fun w => redis_call w args.

(** [tonumber] of a reply; [None] is [nil]. *)
Definition replyNumber (r : reply) : option spec_float :=
  match r with
  | RInt z => Some (F64.of_int z)
  | RString s => tonumber s
  | _ => None
  end.

(** The use of a value that must be a number.  The bucket scripts check their
    numbers before the first command that writes, so that a missing one has
    no other effect, wherever the script would stop. *)
Definition need (x : option spec_float) : M W spec_float :=
  match x with
  | Some x => ret x
  | None => raise "attempt to use a nil value as a number"
  end.

(** The elements of a table; a missing one is [nil]. *)
Definition elements (r : reply) : list reply :=
  match r with RArray l => l | _ => [] end.
Definition at_index (r : reply) (i : nat) : reply := default RNil (elements r !! i).

(** An argument of [redis.call] that must be a string. *)
Definition needString (x : option string) : M W string :=
  match x with
  | Some x => ret x
  | None => raise "Lua redis() command arguments must be strings or integers"
  end.

(** [KEYS[1]]. *)
Definition theKey (KEYS : list string) : M W string := needString (KEYS !! 0%nat).

(** [tonumber(ARGV[i + 1])]. *)
Definition argNumber (ARGV : list string) (i : nat) : option spec_float := ARGV !! i ≫= tonumber.

(** The first two lines of every script: the server's time in milliseconds. *)
Definition nowMs : M W spec_float :=
  let* t := call ["TIME"] in
  let* sec := need (replyNumber (at_index t 0)) in
  let* usec := need (replyNumber (at_index t 1)) in
  ret (F64.add (F64.mul sec (F64.of_int 1000)) (floor (F64.div usec (F64.of_int 1000)))).

(** [if ttl_ms > 0 then redis.call('PEXPIRE', KEYS[1], ttl_ms) end]. *)
Definition expireKey (key : string) (ttl_ms : option spec_float) : M W unit :=
  let* ttl := need ttl_ms in
  if F64.gt ttl (F64.of_int 0)
  then let* _ := call ["PEXPIRE"; key; tostring ttl] in ret tt
  else ret tt.

(** [return {allowed, remaining, retry_after_ms}]. *)
Definition answer (allowed remaining retry_after_ms : spec_float) : reply :=
  RArray [RInt (integer allowed); RInt (integer remaining); RInt (integer retry_after_ms)].

(** The state that a bucket script loads: the number in the first field and
    the time in the second, with the guard against a clock that went back; or
    the initial state.  The last component is the time to use. *)
Definition loadState (key level_field time_field : string) (initial now : spec_float)
    : M W (spec_float * spec_float * spec_float) :=
  let* fields := call ["HMGET"; key; level_field; time_field] in
  match at_index fields 0 with
  | RNil => ret (initial, now, now)
  | f =>
      let* level := need (replyNumber f) in
      let* last := need (replyNumber (at_index fields 1)) in
      ret (level, last, if F64.lt now last then last else now)
  end.

(** ** token_bucket.lua *)

Definition refillMs (capacity rate tokens elapsed : spec_float) : spec_float :=
  if F64.gt elapsed (F64.of_int 0) then
    let tokens := F64.add tokens (F64.div (F64.mul elapsed rate) (F64.of_int 1000)) in
    if F64.gt tokens capacity then capacity else tokens
  else tokens.

(** The new level, [allowed], [remaining] and [retry_after_ms]. *)
Definition tokenDecide (rate tokens : spec_float) : spec_float * spec_float * spec_float * spec_float :=
  if F64.ge tokens (F64.of_int 1) then
    let tokens := F64.sub tokens (F64.of_int 1) in
    (tokens, F64.of_int 1, floor tokens, F64.of_int 0)
  else
    (tokens, F64.of_int 0, F64.of_int 0,
     F64.ceil (F64.div (F64.mul (F64.sub (F64.of_int 1) tokens) (F64.of_int 1000)) rate)).

Definition tokenBucketLua (KEYS ARGV : list string) : M W reply :=
  let* now := nowMs in
  let* capacity := need (argNumber ARGV 0) in
  let* rate := need (argNumber ARGV 1) in
  let ttl_ms := argNumber ARGV 2 in
  let* key := theKey KEYS in
  let* (tokens, last, now) := loadState key "tokens" "last_refilled_ms" capacity now in
  let elapsed := F64.sub now last in
  let tokens := refillMs capacity rate tokens elapsed in
  let '(tokens, allowed, remaining, retry_after_ms) := tokenDecide rate tokens in
  let* _ := call ["HSET"; key; "tokens"; tostring tokens; "last_refilled_ms"; tostring now] in
  let* _ := expireKey key ttl_ms in
  ret (answer allowed remaining retry_after_ms).

(** ** leaky_bucket.lua *)

Definition leakMs (rate water elapsed : spec_float) : spec_float :=
  if F64.gt elapsed (F64.of_int 0) then
    let water := F64.sub water (F64.div (F64.mul elapsed rate) (F64.of_int 1000)) in
    if F64.lt water (F64.of_int 0) then F64.of_int 0 else water
  else water.

Definition leakyDecide (capacity rate water : spec_float)
    : spec_float * spec_float * spec_float * spec_float :=
  if F64.le (F64.add water (F64.of_int 1)) capacity then
    let water := F64.add water (F64.of_int 1) in
    (water, F64.of_int 1, floor (F64.sub capacity water), F64.of_int 0)
  else
    let overflow := F64.sub (F64.add water (F64.of_int 1)) capacity in
    (water, F64.of_int 0, F64.of_int 0,
     F64.ceil (F64.div (F64.mul overflow (F64.of_int 1000)) rate)).

Definition leakyBucketLua (KEYS ARGV : list string) : M W reply :=
  let* now := nowMs in
  let* capacity := need (argNumber ARGV 0) in
  let* rate := need (argNumber ARGV 1) in
  let ttl_ms := argNumber ARGV 2 in
  let* key := theKey KEYS in
  let* (water, last, now) := loadState key "water" "last_leak_ms" (F64.of_int 0) now in
  let elapsed := F64.sub now last in
  let water := leakMs rate water elapsed in
  let '(water, allowed, remaining, retry_after_ms) := leakyDecide capacity rate water in
  let* _ := call ["HSET"; key; "water"; tostring water; "last_leak_ms"; tostring now] in
  let* _ := expireKey key ttl_ms in
  ret (answer allowed remaining retry_after_ms).

(** ** sliding_window_log.lua *)

Definition slidingWindowLua (KEYS ARGV : list string) : M W reply :=
  let* now := nowMs in
  let limit := argNumber ARGV 0 in
  let* window_ms := need (argNumber ARGV 1) in
  let ttl_ms := argNumber ARGV 2 in
  let member := ARGV !! 3%nat in
  let* key := theKey KEYS in
  let window_start := F64.sub now window_ms in
  let* _ := call ["ZREMRANGEBYSCORE"; key; "-inf"; tostring window_start] in
  let* card := call ["ZCARD"; key] in
  let* count := need (replyNumber card) in
  let* limit := need limit in
  let* (allowed, remaining, retry_after_ms) :=
    (if F64.lt count limit then
       let* member := needString member in
       let* _ := call ["ZADD"; key; tostring now; member] in
       ret (F64.of_int 1, F64.sub (F64.sub limit count) (F64.of_int 1), F64.of_int 0)
     else
       let* oldest := call ["ZRANGE"; key; tostring (F64.of_int 0); tostring (F64.of_int 0); "WITHSCORES"] in
       let* score := need (replyNumber (at_index oldest 1)) in
       ret (F64.of_int 0, F64.of_int 0, F64.sub (F64.add score window_ms) now)) in
  let* _ := expireKey key ttl_ms in
  ret (answer allowed remaining retry_after_ms).

End Scripts.

(** ** What the scripts rely on

    The documented behaviour of the commands, on the parts of the state that
    they read and write. *)

Inductive rvalue :=
| VNone
| VHash (h : gmap string string)
| VZset (z : gmap string spec_float)
| VOther.

Definition opt_reply (x : option string) : reply :=
  match x with Some s => RString s | None => RNil end.

(** A key that holds a hash, or nothing. *)
Definition hash_of (v : rvalue) : option (gmap string string) :=
  match v with VNone => Some ∅ | VHash h => Some h | _ => None end.
Definition zset_of (v : rvalue) : option (gmap string spec_float) :=
  match v with VNone => Some ∅ | VZset z => Some z | _ => None end.

Class RedisServerLaws (W : Type) (server : RedisServer W) := {
  (** The server's clock in microseconds, what it stores, and when a key
      expires, in milliseconds. *)
  clock : W → Z;
  stored : W → string → rvalue;
  deadline : W → string → option Z;

  tonumber_tostring x : fin x → tonumber (tostring x) = Some x;
  integer_law x : fin x → int64_min <= F64.trunc x <= int64_max → integer x = F64.trunc x;
  arg_float x : fin x → tonumber (formatArg (ArgFloat x)) = Some x;
  arg_int z : int64_min <= z <= int64_max → tonumber (formatArg (ArgInt z)) = Some (F64.of_int z);
  arg_string s : formatArg (ArgString s) = s;

  time_law w : ∃ sec usec w', redis_call w ["TIME"] = (inl (RArray [RString sec; RString usec]), w') ∧
    tonumber sec = Some (F64.of_int (clock w / 1000000)) ∧
    tonumber usec = Some (F64.of_int (clock w mod 1000000)) ∧
    clock w' = clock w ∧ stored w' = stored w;
  hmget_law w k f1 f2 h : hash_of (stored w k) = Some h →
    ∃ w', redis_call w ["HMGET"; k; f1; f2] =
        (inl (RArray [opt_reply (h !! f1); opt_reply (h !! f2)]), w') ∧
      clock w' = clock w ∧ stored w' = stored w;
  hset_law w k f1 v1 f2 v2 h : hash_of (stored w k) = Some h →
    ∃ n w', redis_call w ["HSET"; k; f1; v1; f2; v2] = (inl (RInt n), w') ∧
      clock w' = clock w ∧ stored w' k = VHash (<[f2 := v2]> (<[f1 := v1]> h)) ∧
      ∀ k', k' ≠ k → stored w' k' = stored w k';
  pexpire_law w k z : 0 < z < 2 ^ 53 →
    ∃ n w', redis_call w ["PEXPIRE"; k; tostring (F64.of_int z)] = (inl (RInt n), w') ∧
      clock w' = clock w ∧ stored w' = stored w ∧
      (stored w k ≠ VNone → deadline w' k = Some (clock w / 1000 + z));
  zrem_law w k x z : zset_of (stored w k) = Some z → fin x →
    ∃ n w', redis_call w ["ZREMRANGEBYSCORE"; k; "-inf"; tostring x] = (inl (RInt n), w') ∧
      clock w' = clock w ∧
      zset_of (stored w' k) = Some (filter (fun p => F64.le p.2 x = false) z) ∧
      ∀ k', k' ≠ k → stored w' k' = stored w k';
  zcard_law w k z : zset_of (stored w k) = Some z →
    ∃ w', redis_call w ["ZCARD"; k] = (inl (RInt (Z.of_nat (size z))), w') ∧
      clock w' = clock w ∧ stored w' = stored w;
  zadd_law w k x m z : zset_of (stored w k) = Some z → fin x →
    ∃ n w', redis_call w ["ZADD"; k; tostring x; m] = (inl (RInt n), w') ∧
      clock w' = clock w ∧ zset_of (stored w' k) = Some (<[m := x]> z) ∧
      ∀ k', k' ≠ k → stored w' k' = stored w k';
  zrange_law w k z : zset_of (stored w k) = Some z → z ≠ ∅ → map_Forall (fun _ x => fin x) z →
    ∃ m x s w', redis_call w ["ZRANGE"; k; tostring (F64.of_int 0); tostring (F64.of_int 0); "WITHSCORES"] =
        (inl (RArray [RString m; RString s]), w') ∧
      z !! m = Some x ∧ tonumber s = Some x ∧ (∀ m' y, z !! m' = Some y → fval x <= fval y) ∧
      clock w' = clock w ∧ stored w' = stored w
}.

(** Time passes on the server: keys whose deadline is reached are gone. *)
Class RedisExpiry (W : Type) (server : RedisServer W) (laws : RedisServerLaws W server) := {
  pass : W → Z → W;
  pass_clock w d : 0 <= d → clock (pass w d) = clock w + d;
  pass_stored w d k : 0 <= d →
    stored (pass w d) k =
      match deadline w k with
      | Some t => if t <=? (clock w + d) / 1000 then VNone else stored w k
      | None => stored w k
      end
}.

End Scripts.
