(* ===== verification/LuaFacts.v ===== *)
(** * LuaFacts: the arithmetic of the scripts

    Lua numbers that hold integers below 2^53 are computed with exactly; the
    server's time in milliseconds is such a number; what a bucket gains or
    loses over a number of milliseconds is bounded. *)

From Stdlib Require Import ZArith Lia Bool.
From stdpp Require Import base gmap strings list.
From S2P Require Import Prelude Float64 FloatFacts GoTime Core Numeric Redis RedisScripts.

#[local] Open Scope Z_scope.

Module LuaFacts.
Import Scripts.

(** ** Integers *)

(** [x] holds the integer [z]. *)
Definition holdsZ (x : spec_float) (z : Z) : Prop := fin x ∧ fval x = z * unit_sc.

Lemma holdsZ_of_int z : Z.abs z < 2 ^ 53 → holdsZ (F64.of_int z) z.
Proof. apply of_int_exact. Qed.

(** A rounding of an integer below 2^53 holds it. *)
Lemma rnds_int X D f z :
  rnds X D f → num f → Z.abs z < 2 ^ 53 → z * unit_sc * D = X → holdsZ f z.
Proof.
  intros Hr Hn Hz HX. destruct (of_int_exact z Hz) as [Hf Hv].
  assert (fval f = fval (F64.of_int z)) as Heq.
  { eapply rnds_eq; [exact Hr|by apply fin_num|]. by rewrite Hv. }
  split; [|by rewrite Heq]. apply num_fin; [done|]. rewrite Heq. by apply fin_bound.
Qed.

Section Int.
Context (x y : spec_float) (a b : Z).
Hypothesis Hx : holdsZ x a.
Hypothesis Hy : holdsZ y b.

Lemma add_int : Z.abs (a + b) < 2 ^ 53 → holdsZ (F64.add x y) (a + b).
Proof.
  destruct Hx as [Hxf Hxv], Hy as [Hyf Hyv]. intros Hz.
  eapply rnds_int; [by apply add_rnds|by apply add_num|done|]. lia.
Qed.

Lemma sub_int : Z.abs (a - b) < 2 ^ 53 → holdsZ (F64.sub x y) (a - b).
Proof.
  destruct Hx as [Hxf Hxv], Hy as [Hyf Hyv]. intros Hz.
  eapply rnds_int; [by apply sub_rnds|by apply sub_num|done|]. lia.
Qed.

Lemma mul_int : Z.abs (a * b) < 2 ^ 53 → holdsZ (F64.mul x y) (a * b).
Proof.
  destruct Hx as [Hxf Hxv], Hy as [Hyf Hyv]. intros Hz.
  eapply rnds_int; [by apply mul_rnds|by apply mul_num|done|]. rewrite Hxv, Hyv. ring.
Qed.

Lemma lt_int : F64.lt x y = (a <? b).
Proof.
  destruct Hx as [Hxf Hxv], Hy as [Hyf Hyv]. pose proof unit_sc_pos. destruct (Z.ltb_spec a b).
  - apply lt_fval; fin_side. nia.
  - apply lt_false_fval; fin_side. nia.
Qed.

Lemma le_int : F64.le x y = (a <=? b).
Proof.
  destruct Hx as [Hxf Hxv], Hy as [Hyf Hyv]. pose proof unit_sc_pos. destruct (Z.leb_spec a b).
  - apply le_fval; fin_side. nia.
  - apply le_false_fval; fin_side. nia.
Qed.

Lemma trunc_int : 0 <= a → F64.trunc x = a.
Proof.
  destruct Hx as [Hxf Hxv]. intros Ha. pose proof unit_sc_pos.
  rewrite trunc_spec by (done || nia). rewrite Hxv. apply Z.div_mul. lia.
Qed.
End Int.

(** ** [math.floor] *)

Lemma floor_spec x :
  fin x → 0 <= fval x → fin (floor x) ∧ fval (floor x) = fval x / unit_sc * unit_sc.
Proof.
  intros Hf Hp. pose proof unit_sc_pos as Hu.
  destruct (fin_nonneg x Hf Hp) as [H0|(m & e & -> & Hb)].
  { rewrite H0, Z.div_0_l, Z.mul_0_l by lia. destruct x as [s|s| |s m e]; try done.
    cbn [fval] in H0. cbn [fin] in Hf. pose proof (mag_pos m e Hf). destruct s; cbn in H0; lia. }
  pose proof (bounded_cases _ _ Hb) as (He & Hm & _). cbn [fval cond_Zopp] in *.
  cbn [floor]. rewrite mag_frac_spec by lia.
  pose proof (Z.div_mod (Z.pos m * sc e) unit_sc ltac:(lia)) as Hdm.
  destruct (Z.eqb_spec (Z.pos m * sc e mod unit_sc) 0) as [Hz|Hnz]; cbn [negb].
  { cbn [fval cond_Zopp]. split; [done|lia]. }
  assert (e < 0) as Hneg.
  { destruct (Z.lt_ge_cases e 0); [done|exfalso]. apply Hnz.
    rewrite sc_nonneg_exp, Z.mul_assoc, Z.mod_mul by lia. done. }
  pose proof (frac_small m e Hb Hneg) as Hsmall. rewrite mag_floor_spec by lia.
  set (q := Z.pos m * sc e / unit_sc) in *.
  assert (0 <= q) by (apply Z.div_pos; lia).
  pose proof (Z.mod_pos_bound (Z.pos m * sc e) unit_sc Hu).
  assert (q < 2 ^ 53) by nia.
  destruct (binary_normalize_exact q 0 false) as [Hnf Hnv]; [lia|lia| |].
  { change (sc 0) with unit_sc. apply int_lt_inf. lia. }
  change (sc 0) with unit_sc in Hnv. done.
Qed.

(** The milliseconds of a number of microseconds. *)
Lemma floor_millis x u :
  holdsZ x u → 0 <= u < 1000000 → holdsZ (floor (F64.div x (F64.of_int 1000))) (u / 1000).
Proof.
  intros [Hf Hv] Hu. pose proof unit_sc_pos as Hus.
  destruct (of_int_exact 1000) as [Htf Htv]; [lia|]. set (q := u / 1000).
  pose proof (Z.div_mod u 1000 ltac:(lia)) as Hdm. pose proof (Z.mod_pos_bound u 1000 ltac:(lia)).
  fold q in Hdm. assert (0 <= q < 1000) as Hq by (unfold q; split; [apply Z.div_pos; lia|apply Z.div_lt_upper_bound; lia]).
  set (d := F64.div x (F64.of_int 1000)).
  (* a float just below the next integer *)
  destruct (binary_normalize_exact ((q + 1) * 2 ^ 40 - 1) (-40) false) as [Hbf Hbv]; [lia|lia| |].
  { pose proof (sc_mono (-40) 0 ltac:(lia)) as Hs. change (sc 0) with unit_sc in Hs.
    pose proof (int_lt_inf (2 ^ 53) ltac:(lia)). pose proof (sc_pos (-40) ltac:(lia)). nia. }
  set (hi := binary_normalize F64.prec F64.emax ((q + 1) * 2 ^ 40 - 1) (-40) false) in *.
  pose proof (unit_sc_split (-40) ltac:(lia)) as Hsp. change (2 ^ (- -40)) with (2 ^ 40) in Hsp.
  pose proof (sc_pos (-40) ltac:(lia)) as Hsc.
  destruct (of_int_exact q) as [Hqf Hqv]; [lia|].
  assert (fval (F64.of_int q) <= fval d <= fval hi) as Hd.
  { split; [apply div_ge|apply div_le]; fin_side; try lia; rewrite ?Hqv, ?Hbv, Hv, Htv, ?Hsp; nia. }
  assert (fin d) as Hdf.
  { eapply (fin_between _ (F64.of_int q) hi); fin_side; [|exact Hd]. apply div_num; [done|done|lia]. }
  destruct (floor_spec d Hdf) as [Hff Hfv]; [rewrite Hqv in Hd; nia|].
  split; [done|]. rewrite Hfv. f_equal. rewrite Hqv, Hbv in Hd.
  symmetry. apply (Z.div_unique _ _ q (fval d - q * unit_sc)); [left; rewrite Hsp in *; nia|lia].
Qed.

(** ** What accrues over some milliseconds: [elapsed * rate / 1000] *)

Definition accrued (rate elapsed : spec_float) : spec_float :=
  F64.div (F64.mul elapsed rate) (F64.of_int 1000).

(** It exceeds the exact amount by a factor of at most [1 + 3 * 2^-52], or by a
    few of the smallest floats, unless it is more than any bucket holds. *)
Lemma accrued_upper rate e n :
  fin rate → 0 < fval rate → holdsZ e n → 0 <= n →
  num (accrued rate e) ∧ 0 <= fval (accrued rate e) ∧
  (fval (accrued rate e) * 2 ^ 52 * 1000 <= n * fval rate * (2 ^ 52 + 3) + 1002 * tiny * 2 ^ 52 ∨
   2 ^ 53 * unit_sc * 1000 <= n * fval rate).
Proof.
  intros Hrf Hr [Hef Hev] Hn. pose proof unit_sc_pos as Hu. pose proof tiny_pos as Ht.
  destruct (of_int_exact 1000) as [Htf Htv]; [lia|]. unfold accrued.
  destruct (mul_nonneg e rate Hef Hrf) as [Hmn Hm0]; [nia|lia|].
  pose proof (mul_upper e rate Hef Hrf ltac:(nia)) as Hmu. rewrite Hev in Hmu.
  assert (fval (F64.mul e rate) * 2 ^ 52 <= n * fval rate * (2 ^ 52 + 1) + tiny * 2 ^ 52) as Hmu'.
  { apply (Z.mul_le_mono_pos_r _ _ unit_sc Hu). lia. }
  clear Hmu. set (m := F64.mul e rate) in *.
  destruct (num_nonneg_cases m Hmn Hm0) as [Hmf|Hinf].
  - split_and!; [apply div_num; [done|done|lia]|apply (div_ge _ _ (S754_zero false)); fin_side; cbn [fval]; nia|].
    left. pose proof (div_upper m _ Hmf Htf Hm0 ltac:(lia)) as Hd. rewrite Htv in Hd.
    set (P := fval (F64.div m (F64.of_int 1000))) in *. set (mv := fval m) in *.
    set (nr := n * fval rate) in *. assert (0 <= nr) by (unfold nr; nia). clearbody P mv nr.
    assert (P * 1000 * 2 ^ 52 <= mv * (2 ^ 52 + 1) + 1000 * tiny * 2 ^ 52) as Hd'.
    { apply (Z.mul_le_mono_pos_r _ _ unit_sc Hu). lia. }
    lia.
  - rewrite Hinf in *.
    assert (F64.div (S754_infinity false) (F64.of_int 1000) = S754_infinity false) as -> by reflexivity.
    pose proof inf_sc_pos. split_and!; [done|cbn [fval cond_Zopp]; lia|right].
    pose proof (int_lt_inf (2 ^ 70) ltac:(lia)) as Hi. cbn [fval cond_Zopp] in Hmu'.
    pose proof GoTime.tiny_small. lia.
Qed.

(** What a bucket of this capacity may gain beyond the exact accrual when one
    request is decided. *)
Definition step_error (capacity : spec_float) : Z := 3 * fval capacity + 4 * tiny * 2 ^ 52.

Section Buckets.
Context (capacity rate : spec_float).
Hypothesis Hp : Numeric.params_ok capacity rate.
Hypothesis Hcap : fval capacity < 2 ^ 53 * unit_sc.

Lemma elapsed_positive e n : holdsZ e n → F64.gt e (F64.of_int 0) = (0 <? n).
Proof. intros He. exact (lt_int _ _ 0 n (holdsZ_of_int 0 ltac:(lia)) He). Qed.

(** A refill never takes tokens away, never exceeds the capacity, and adds
    little more than what accrues. *)
Lemma refillMs_spec t e n :
  fin t → 0 <= fval t <= fval capacity → holdsZ e n → 0 <= n →
  let t' := refillMs capacity rate t e in
  fin t' ∧ fval t <= fval t' <= fval capacity ∧
  (fval t' - fval t) * 2 ^ 52 * 1000
    <= n * fval rate * (2 ^ 52 + 3) + step_error capacity * 1000.
Proof.
  intros Hf Ht He Hn t'. destruct Hp as (Hcf & Hc1 & Hrf & Hr). pose proof unit_sc_pos.
  pose proof tiny_pos. unfold t', refillMs, step_error. rewrite (elapsed_positive e n He).
  assert (0 <= n * fval rate) as Hnr by nia.
  destruct (Z.ltb_spec 0 n) as [Hpos|Hz]; [|split_and!; [done|lia|lia|lia]].
  fold (accrued rate e). destruct (accrued_upper rate e n Hrf Hr He Hn) as (Hpn & Hp0 & Hup).
  destruct (add_grows t _ Hf Hpn Hp0) as [Han Hag].
  destruct (clamp_above _ capacity Han Hcf) as [Hcn Hcv]. cbv zeta in Hcn, Hcv.
  set (P := accrued rate e) in *.
  assert (fval t <= Z.min (fval (F64.add t P)) (fval capacity) <= fval capacity) as Hb by lia.
  rewrite Hcv. split_and!; [|lia|lia|].
  { eapply (fin_between _ t capacity); fin_side. rewrite Hcv. lia. }
  destruct Hup as [Hup|Hbig]; [|lia].
  destruct (Z.le_gt_cases (fval capacity) (fval t + fval P)) as [Hge|Hlt]; [lia|].
  destruct (num_nonneg_cases P Hpn Hp0) as [HPf|HPi].
  - pose proof (add_upper t P Hf HPf ltac:(lia)). lia.
  - rewrite HPi in Hlt. pose proof (fin_bound capacity Hcf). cbn [fval cond_Zopp] in Hlt. lia.
Qed.

(** A leak never adds water, never goes below zero, and frees little more
    than what leaks. *)
Lemma leakMs_spec w e n :
  fin w → 0 <= fval w <= fval capacity → holdsZ e n → 0 <= n →
  let w' := leakMs rate w e in
  fin w' ∧ 0 <= fval w' <= fval w ∧
  (fval w - fval w') * 2 ^ 52 * 1000
    <= n * fval rate * (2 ^ 52 + 3) + (fval capacity + 3 * tiny * 2 ^ 52) * 1000.
Proof.
  intros Hf Hw He Hn w'. destruct Hp as (Hcf & Hc1 & Hrf & Hr). pose proof unit_sc_pos.
  pose proof tiny_pos. unfold w', leakMs. rewrite (elapsed_positive e n He).
  assert (0 <= n * fval rate) as Hnr by nia.
  destruct (Z.ltb_spec 0 n) as [Hpos|Hz]; [|split_and!; [done|lia|lia|lia]].
  fold (accrued rate e). destruct (accrued_upper rate e n Hrf Hr He Hn) as (Hpn & Hp0 & Hup).
  destruct (sub_shrinks w _ Hf Hpn Hp0) as [Hsn Hss].
  destruct (clamp_below _ Hsn) as [Hcn Hcv]. cbv zeta in Hcn, Hcv.
  set (P := accrued rate e) in *. rewrite Hcv. split_and!; [|lia|lia|].
  { eapply (fin_between _ (S754_zero false) w); fin_side. rewrite Hcv. cbn [fval]. lia. }
  destruct Hup as [Hup|Hbig]; [|lia].
  destruct (Z.le_gt_cases (fval w) (fval P)) as [Hle|Hgt]; [lia|].
  pose proof (fin_bound capacity Hcf). destruct (num_nonneg_cases P Hpn Hp0) as [HPf|HPi].
  - pose proof (rnds_lower (fval w - fval P) _ ltac:(lia) (sub_rnds w P Hf HPf)). lia.
  - rewrite HPi in Hgt. cbn [fval cond_Zopp] in Hgt. lia.
Qed.
End Buckets.


(** ** The wait of a denial: [math.ceil(x * 1000 / rate)] *)

(** Below one there is a gap of at least [2^-53]. *)
Lemma below_one t : fin t → 0 <= fval t < unit_sc → fval t + sc (-53) <= unit_sc.
Proof.
  intros Hf Ht. pose proof (sc_mono (-53) 0 ltac:(lia)) as Hs. change (sc 0) with unit_sc in Hs.
  destruct (fin_nonneg t Hf ltac:(lia)) as [H0|(m & e & -> & Hb)]; [lia|].
  pose proof (bounded_cases _ _ Hb) as (He & Hm & _). cbn [fval cond_Zopp] in *.
  assert (e < 0) as Hneg.
  { destruct (Z.lt_ge_cases e 0); [done|exfalso].
    pose proof (sc_mono 0 e ltac:(lia)) as Hm0. change (sc 0) with unit_sc in Hm0.
    pose proof unit_sc_pos. nia. }
  pose proof (sc_pos e ltac:(lia)) as Hsc. pose proof (unit_sc_split e ltac:(lia)) as Hus.
  destruct (Z.le_gt_cases (-53) e) as [Hge|Hlt].
  - pose proof (sc_mono (-53) e ltac:(lia)). rewrite Hus in Ht |- *. destruct Ht as [_ Hlt].
    apply Z.mul_lt_mono_pos_r in Hlt; [|done].
    assert ((Z.pos m + 1) * sc e <= 2 ^ (- e) * sc e) by (apply Z.mul_le_mono_nonneg_r; lia). lia.
  - pose proof (sc_mono e (-54) ltac:(lia)) as Hse. pose proof (unit_sc_split (-54) ltac:(lia)) as Hu4.
    change (2 ^ (- -54)) with (2 ^ 54) in Hu4. replace (-53) with (-54 + 1) by lia.
    rewrite sc_add by lia. change (2 ^ 1) with 2. nia.
Qed.

(** From one on, floats are multiples of [2^-52]. *)
Lemma above_one x : fin x → unit_sc <= fval x → ∃ k, fval x = k * sc (-52).
Proof.
  intros Hf Hx. pose proof unit_sc_pos.
  destruct (fin_nonneg x Hf ltac:(lia)) as [H0|(m & e & -> & Hb)]; [lia|].
  pose proof (bounded_cases _ _ Hb) as (He & Hm & _). cbn [fval cond_Zopp] in *.
  assert (-52 <= e) as Hge.
  { destruct (Z.le_gt_cases (-52) e) as [|Hlt]; [done|exfalso].
    pose proof (sc_mono e (-53) ltac:(lia)). pose proof (unit_sc_split (-53) ltac:(lia)) as Hu.
    change (2 ^ (- -53)) with (2 ^ 53) in Hu.
    assert (Z.pos m * sc e < 2 ^ 53 * sc e) by (apply Z.mul_lt_mono_pos_r; [apply sc_pos|]; lia). lia. }
  exists (Z.pos m * 2 ^ (e + 52)). replace e with (-52 + (e + 52)) at 1 by lia.
  rewrite sc_add by lia. ring.
Qed.

Lemma gap_above_one x y :
  fin x → fin y → unit_sc <= fval y → fval y < fval x → sc (-52) <= fval x - fval y.
Proof.
  intros Hx Hy H1 Hlt. destruct (above_one x Hx ltac:(lia)) as [k Hk].
  destruct (above_one y Hy H1) as [l Hl]. pose proof (sc_pos (-52) ltac:(lia)) as Hs.
  rewrite Hk, Hl in *. apply Z.mul_lt_mono_pos_r in Hlt; [|done].
  assert ((l + 1) * sc (-52) <= k * sc (-52)) by (apply Z.mul_le_mono_nonneg_r; lia). lia.
Qed.

Definition waitMs (rate x : spec_float) : spec_float :=
  F64.ceil (F64.div (F64.mul x (F64.of_int 1000)) rate).

(** A rate of at least one per 10^9 seconds keeps the wait far below the range
    of a duration; and it is never zero. *)
Lemma waitMs_spec rate x :
  fin rate → 0 < fval rate → unit_sc <= fval rate * 10 ^ 9 →
  fin x → sc (-53) <= fval x <= 4 * unit_sc →
  ∃ r, holdsZ (waitMs rate x) r ∧ 1 <= r <= 4 * 10 ^ 12.
Proof.
  intros Hrf Hr Hr9 Hf Hx. pose proof unit_sc_pos as Hu. pose proof (sc_pos (-53) ltac:(lia)) as Hs3.
  destruct (of_int_exact 1000) as [Htf Htv]; [lia|]. destruct (of_int_exact 4000) as [H2f H2v]; [lia|].
  destruct (of_int_exact (4 * 10 ^ 12)) as [Hzf Hzv]; [lia|].
  destruct (binary_normalize_exact 1 (-50) false) as [Hlf Hlv]; [lia|lia| |].
  { pose proof (sc_mono (-50) 0 ltac:(lia)) as Hs. change (sc 0) with unit_sc in Hs.
    pose proof (int_lt_inf 1 ltac:(lia)). lia. }
  destruct (binary_normalize_exact 1 (-1074) false) as [Hmf Hmv]; [lia|lia| |].
  { pose proof (sc_mono (-1074) 0 ltac:(lia)) as Hs. change (sc 0) with unit_sc in Hs.
    pose proof (int_lt_inf 1 ltac:(lia)). lia. }
  set (lo := binary_normalize F64.prec F64.emax 1 (-50) false) in *.
  set (mn := binary_normalize F64.prec F64.emax 1 (-1074) false) in *.
  assert (sc (-50) = 8 * sc (-53)) as H50.
  { replace (-50) with (-53 + 3) by lia. rewrite sc_add by lia. change (2 ^ 3) with 8. lia. }
  set (m := F64.mul x (F64.of_int 1000)).
  assert (fval lo <= fval m <= fval (F64.of_int 4000)) as Hm.
  { split; [apply mul_ge|apply mul_le]; fin_side; rewrite ?Hlv, ?H2v, Htv; nia. }
  assert (fin m) as Hmfin.
  { eapply (fin_between _ lo (F64.of_int 4000)); fin_side; [by apply mul_num|done]. }
  set (d := F64.div m rate).
  assert (sc (-1074) * inf_sc = sc (-50) * unit_sc) as Hinf.
  { change unit_sc with (sc 0). unfold inf_sc. rewrite !sc_pow, <- !Z.pow_add_r by lia. f_equal. }
  pose proof (fin_bound rate Hrf) as Hrb. pose proof (sc_pos (-1074) ltac:(lia)) as Hmin.
  assert (fval mn <= fval d <= fval (F64.of_int (4 * 10 ^ 12))) as Hd.
  { rewrite Hlv, H2v in Hm. split.
    - apply div_ge; fin_side; [exact Hr|]. rewrite Hmv, Z.mul_1_l. clear -Hinf Hrb Hmin Hm Hu Hr. nia.
    - apply div_le; fin_side; [exact Hr|]. rewrite Hzv. clear -Hm Hr9 Hu Hr. nia. }
  assert (fin d) as Hdf.
  { eapply (fin_between _ mn (F64.of_int (4 * 10 ^ 12))); fin_side; [by apply div_num|exact Hd]. }
  rewrite Hmv, Hzv in Hd. destruct (ceil_spec d Hdf ltac:(lia)) as [Hcf Hcv].
  exists (- (- fval d / unit_sc)). split; [by split|].
  pose proof (Z.div_mod (- fval d) unit_sc ltac:(lia)).
  pose proof (Z.mod_pos_bound (- fval d) unit_sc Hu). nia.
Qed.

(** A rate between one per 10^12 and one per 9.3 * 10^9 seconds makes the wait
    for almost a whole token longer than the largest duration. *)
Lemma waitMs_slow rate x :
  fin rate → 0 < fval rate → fval rate * (93 * 10 ^ 8) <= unit_sc <= fval rate * 10 ^ 12 →
  fin x → 127 * sc (-7) <= fval x <= unit_sc →
  ∃ r, holdsZ (waitMs rate x) r ∧ 9223372036855 <= r ∧
    ∀ hi, hi <= 10 ^ 12 → unit_sc <= fval rate * hi → r <= hi * 1000.
Proof.
  intros Hrf Hr Hr9 Hf Hx. pose proof unit_sc_pos as Hu. pose proof (sc_pos (-7) ltac:(lia)) as Hs7.
  pose proof (unit_sc_split (-7) ltac:(lia)) as Hu7. change (2 ^ (- -7)) with 128 in Hu7.
  destruct (of_int_exact 1000) as [Htf Htv]; [lia|]. destruct (of_int_exact 9223372036855) as [Hlf Hlv]; [lia|].
  destruct (float_of_mantissa 127000 (-7)) as (lo & Hlo & Hlov); [lia|lia| |].
  { pose proof (int_lt_inf 1000 ltac:(lia)). lia. }
  set (m := F64.mul x (F64.of_int 1000)).
  assert (fval lo <= fval m <= fval (F64.of_int 1000)) as Hm
    by (split; [apply mul_ge|apply mul_le]; fin_side; rewrite ?Hlov, Htv; nia).
  assert (fin m) as Hmf.
  { apply num_fin; [by apply mul_num|]. pose proof (fin_bound _ Htf). lia. }
  set (d := F64.div m rate).
  assert (fval (F64.of_int 9223372036855) <= fval d) as Hd0.
  { apply div_ge; fin_side; [exact Hr|]. rewrite Hlv. clear -Hm Hlov Hr9 Hu7 Hs7 Hr. nia. }
  assert (∀ hi, hi <= 10 ^ 12 → unit_sc <= fval rate * hi → fval d <= hi * 1000 * unit_sc) as Hd1.
  { intros hi Hhi Hru. assert (0 < hi) as Hpos by nia. destruct (of_int_exact (hi * 1000)) as [Hhf Hhv]; [lia|].
    rewrite <- Hhv. apply div_le; fin_side; [exact Hr|]. rewrite Hhv. clear -Hm Htv Hru Hu Hr Hpos. nia. }
  assert (fin d) as Hdf.
  { apply num_fin; [by apply div_num|]. specialize (Hd1 (10 ^ 12) ltac:(lia) ltac:(lia)).
    pose proof (int_lt_inf (10 ^ 12 * 1000) ltac:(lia)). lia. }
  destruct (ceil_spec d Hdf ltac:(lia)) as [Hcf Hcv].
  exists (- (- fval d / unit_sc)). split; [by split|].
  pose proof (Z.div_mod (- fval d) unit_sc ltac:(lia)). pose proof (Z.mod_pos_bound (- fval d) unit_sc Hu).
  split; [nia|]. intros hi Hhi Hru. specialize (Hd1 hi Hhi Hru). nia.
Qed.

End LuaFacts.
