(* ===== verification/RedisScriptFacts.v ===== *)
(** * RedisScriptFacts: what the scripts do on a server that obeys the laws

    How a bucket and a log are represented in the server's data, and one
    execution of each script: its reply, the representation afterwards, and
    that nothing but its key changes. *)

From Stdlib Require Import ZArith Lia Bool.
From stdpp Require Import base gmap strings list.
From S2P Require Import Prelude Float64 FloatFacts GoTime Core Numeric LeakyBucket Redis RedisScripts LuaFacts.

#[local] Open Scope Z_scope.

Module ScriptFacts.
Import Scripts LuaFacts.

Section Facts.
Context {W : Type} {server : RedisServer W} {laws : RedisServerLaws W server}.
Implicit Types (w : W) (k : string).

Lemma bind_inl {A B} (m : M W A) (f : A → M W B) w a w' :
  m w = (inl a, w') → bind m f w = f a w'.
Proof. unfold bind. by intros ->. Qed.

Lemma need_some x w : need (Some x) w = (inl x, w).
Proof. done. Qed.

Lemma at_0 (x y : reply) : at_index (RArray [x; y]) 0 = x.
Proof. done. Qed.
Lemma at_1 (x y : reply) : at_index (RArray [x; y]) 1 = y.
Proof. done. Qed.

(** Run the first statement, whose outcome is the equation [H]. *)
Ltac run H := rewrite (bind_inl _ _ _ _ _ H); cbv beta iota zeta.

(** Only [k] may differ, and time stands still. *)
Definition frame k w w' : Prop := clock w' = clock w ∧ ∀ k', k' ≠ k → stored w' k' = stored w k'.

Lemma frame_refl k w : frame k w w.
Proof. done. Qed.
Lemma frame_same k w w' : clock w' = clock w → stored w' = stored w → frame k w w'.
Proof. intros Hc Hs. split; [done|]. intros. by rewrite Hs. Qed.
Lemma frame_trans k w1 w2 w3 : frame k w1 w2 → frame k w2 w3 → frame k w1 w3.
Proof. intros [H1 H2] [H3 H4]. split; [congruence|]. intros k' Hk. rewrite H4, H2; done. Qed.

(** The server's clock: microseconds, below the year 38000. *)
Definition clock_ok w : Prop := 0 <= clock w < 2 ^ 60.
Definition ms w : Z := clock w / 1000.

Lemma ms_range w : clock_ok w → 0 <= ms w < 2 ^ 51.
Proof. unfold clock_ok, ms. intros. split; [apply Z.div_pos; lia|apply Z.div_lt_upper_bound; lia]. Qed.

Lemma nowMs_spec w :
  clock_ok w →
  ∃ now w', nowMs w = (inl now, w') ∧ holdsZ now (ms w) ∧ clock w' = clock w ∧ stored w' = stored w.
Proof.
  intros Hc. destruct (time_law w) as (sec & usec & w' & Hcall & Hs & Hu & Hck & Hst).
  unfold nowMs, call. run Hcall. rewrite at_0, at_1. cbn [replyNumber].
  rewrite Hs, Hu. rewrite !(bind_inl _ _ _ _ _ (need_some _ _)). do 2 eexists. split; [reflexivity|].
  split_and!; [|done|done]. unfold clock_ok, ms in *.
  pose proof (Z.div_mod (clock w) 1000000 ltac:(lia)) as Hdm.
  pose proof (Z.mod_pos_bound (clock w) 1000000 ltac:(lia)) as Hmb.
  assert (0 <= clock w / 1000000 < 2 ^ 41) as Hsec
    by (split; [apply Z.div_pos; lia|apply Z.div_lt_upper_bound; lia]).
  assert (clock w / 1000 = clock w / 1000000 * 1000 + clock w mod 1000000 / 1000) as ->.
  { rewrite Hdm at 1.
    replace (1000000 * (clock w / 1000000) + clock w mod 1000000)
      with (clock w mod 1000000 + clock w / 1000000 * 1000 * 1000) by lia.
    rewrite Z.div_add by lia. lia. }
  assert (0 <= clock w mod 1000000 / 1000 < 1000) as Hus
    by (split; [apply Z.div_pos; lia|apply Z.div_lt_upper_bound; lia]).
  apply add_int; [| |lia].
  - apply mul_int; [apply holdsZ_of_int; lia|apply holdsZ_of_int; lia|lia].
  - apply floor_millis; [apply holdsZ_of_int; lia|lia].
Qed.

Lemma argNumber_at (ARGV : list string) i s x :
  ARGV !! i = Some s → tonumber s = Some x → argNumber ARGV i = Some x.
Proof. unfold argNumber. intros -> Hx. done. Qed.

(** The end of every script. *)
Lemma expireKey_spec k ttl w :
  Z.abs ttl < 2 ^ 53 →
  ∃ w', expireKey k (Some (F64.of_int ttl)) w = (inl tt, w') ∧
    clock w' = clock w ∧ stored w' = stored w ∧
    (0 < ttl → stored w k ≠ VNone → deadline w' k = Some (ms w + ttl)).
Proof.
  intros Ht. unfold expireKey. rewrite (bind_inl _ _ _ _ _ (need_some _ _)).
  rewrite (elapsed_positive _ ttl (holdsZ_of_int ttl Ht)).
  destruct (Z.ltb_spec 0 ttl) as [Hpos|Hz].
  - destruct (pexpire_law w k ttl ltac:(lia)) as (n & w' & Hcall & Hc & Hs & Hd).
    exists w'. unfold call. run Hcall. split_and!; [done|done|done|]. intros _. exact Hd.
  - exists w. split_and!; [done|done|done|lia].
Qed.

(** ** Buckets *)

(** The bucket of [k]: none, or a level and the time of its last update. *)
Inductive bucket_at (lf tf : string) w k : option (spec_float * Z) → Prop :=
| bucket_none : stored w k = VNone → bucket_at lf tf w k None
| bucket_some h level lastf last :
    stored w k = VHash h → h !! lf = Some (tostring level) → h !! tf = Some (tostring lastf) →
    fin level → holdsZ lastf last → 0 <= last < 2 ^ 51 →
    bucket_at lf tf w k (Some (level, last)).

Lemma bucket_at_frame lf tf w w' k v : stored w' k = stored w k → bucket_at lf tf w k v → bucket_at lf tf w' k v.
Proof.
  intros Hs [Hn|h level lastf last H1 H2 H3 H4 H5 H6].
  - apply bucket_none. congruence.
  - eapply bucket_some; eauto. congruence.
Qed.

Lemma bucket_hash lf tf w k v : bucket_at lf tf w k v → ∃ h, hash_of (stored w k) = Some h.
Proof. intros [->|h level lastf last -> _ _ _ _ _]; eauto. Qed.

(** Loading: the initial level at the present time, or what is stored, with
    the later of the two times. *)
Lemma loadState_spec lf tf w k v initial now n :
  bucket_at lf tf w k v → holdsZ now n →
  let '(level, last) := default (initial, n) v in
  ∃ lastf nowf w', loadState k lf tf initial now w = (inl (level, lastf, nowf), w') ∧
    holdsZ lastf last ∧ holdsZ nowf (Z.max n last) ∧ clock w' = clock w ∧ stored w' = stored w.
Proof.
  intros [Hn|h level lastf last Hst Hl Ht Hf Hz Hr] Hnow; cbn [default].
  - destruct (hmget_law w k lf tf ∅) as (w' & Hcall & Hc & Hs); [by rewrite Hn|].
    exists now, now, w'. unfold loadState, call. run Hcall. rewrite !lookup_empty, at_0. cbn [opt_reply].
    split_and!; try done. by rewrite Z.max_id.
  - destruct (hmget_law w k lf tf h) as (w' & Hcall & Hc & Hs); [by rewrite Hst|].
    exists lastf, (if F64.lt now lastf then lastf else now), w'.
    unfold loadState, call. run Hcall. rewrite Hl, Ht, at_0, at_1. cbn [opt_reply replyNumber].
    rewrite !tonumber_tostring by (done || apply Hz). rewrite !(bind_inl _ _ _ _ _ (need_some _ _)).
    split_and!; try done. rewrite (lt_int now lastf n last Hnow Hz).
    destruct (Z.ltb_spec n last); [rewrite Z.max_r by lia|rewrite Z.max_l by lia]; done.
Qed.

(** Storing. *)
Lemma storeState_spec lf tf w k h level nowf n :
  lf ≠ tf → hash_of (stored w k) = Some h → fin level → holdsZ nowf n → 0 <= n < 2 ^ 51 →
  ∃ m w', redis_call w ["HSET"; k; lf; tostring level; tf; tostring nowf] = (inl (RInt m), w') ∧
    frame k w w' ∧ bucket_at lf tf w' k (Some (level, n)).
Proof.
  intros Hne Hh Hf Hz Hn.
  destruct (hset_law w k lf (tostring level) tf (tostring nowf) h Hh) as (m & w' & Hcall & Hc & Hs & Ho).
  exists m, w'. split_and!; [done|by split|].
  eapply (bucket_some lf tf w' k _ level nowf n); [exact Hs| | |done|done|done].
  - rewrite lookup_insert_ne by done. apply lookup_insert_eq.
  - apply lookup_insert_eq.
Qed.

(** The books of one decision: [room] is what a bucket can still give. *)
Definition ledger (capacity rate : spec_float) (room last room' last' : Z) (allowed : bool) : Prop :=
  (room' + (if allowed then unit_sc else 0)) * 2 ^ 52 * 1000
    <= room * 2 ^ 52 * 1000 + (last' - last) * fval rate * (2 ^ 52 + 3) + step_error capacity * 1000.

(** A reply that [decode] turns into a result. *)
Definition reply_of (allowed : bool) (remaining retry : Z) : reply :=
  RArray [RInt (if allowed then 1 else 0); RInt remaining; RInt retry].

Definition reply_range (allowed : bool) (remaining retry : Z) : Prop :=
  if allowed then 0 <= remaining < 2 ^ 53 ∧ retry = 0
  else remaining = 0 ∧ 1 <= retry <= 4 * 10 ^ 12.

Lemma integer_int x z : holdsZ x z → 0 <= z < 2 ^ 63 → integer x = z.
Proof.
  intros Hx Hz. rewrite integer_law by (apply Hx || rewrite (trunc_int x z Hx) by lia; unfold int64_min, int64_max; lia).
  apply (trunc_int x z Hx). lia.
Qed.

Lemma answer_int a x r (allowed : bool) remaining retry :
  holdsZ a (if allowed then 1 else 0) → holdsZ x remaining → holdsZ r retry →
  0 <= remaining < 2 ^ 63 → 0 <= retry < 2 ^ 63 → answer a x r = reply_of allowed remaining retry.
Proof.
  intros Ha Hx Hr H1 H2. unfold answer, reply_of.
  rewrite (integer_int a _ Ha) by (destruct allowed; lia).
  by rewrite (integer_int x _ Hx), (integer_int r _ Hr).
Qed.

(** *** The decisions *)

Section Decide.
Context (capacity rate : spec_float).
Hypothesis Hp : Numeric.params_ok capacity rate.
Hypothesis Hcap : fval capacity < 2 ^ 53 * unit_sc.
Hypothesis Hrate : unit_sc <= fval rate * 10 ^ 9.

(** What a decision returns: the level afterwards, and the numbers of the
    reply. *)
Definition decided (out : spec_float * spec_float * spec_float * spec_float)
    (level : spec_float) (allowed : bool) (remaining retry : Z) : Prop :=
  let '(l, a, x, r) := out in
  l = level ∧ fin level ∧ 0 <= fval level <= fval capacity ∧
  holdsZ a (if allowed then 1 else 0) ∧ holdsZ x remaining ∧ holdsZ r retry ∧
  reply_range allowed remaining retry.

(** The same without bounds on the numbers of the reply. *)
Definition replies (out : spec_float * spec_float * spec_float * spec_float)
    (level : spec_float) (allowed : bool) (remaining retry : Z) : Prop :=
  let '(l, a, x, r) := out in
  l = level ∧ fin level ∧
  holdsZ a (if allowed then 1 else 0) ∧ holdsZ x remaining ∧ holdsZ r retry ∧
  0 <= remaining < 2 ^ 63 ∧ 0 <= retry < 2 ^ 63.

Lemma decided_replies out level allowed remaining retry :
  decided out level allowed remaining retry →
  replies out level allowed remaining retry ∧
  0 <= fval level <= fval capacity ∧ reply_range allowed remaining retry.
Proof.
  destruct out as [[[l a] x] r]. intros (Hl & Hf & Hv & Ha & Hx & Hr & Hrange). split_and!; try done; [|apply Hv..].
  unfold reply_range in Hrange. split_and!; try done; destruct allowed; lia.
Qed.

Lemma replies_answer out level allowed remaining retry :
  replies out level allowed remaining retry →
  let '(_, a, x, r) := out in answer a x r = reply_of allowed remaining retry.
Proof. destruct out as [[[l a] x] r]. intros (_ & _ & Ha & Hx & Hr & H1 & H2). by apply answer_int. Qed.

Lemma floor_int x : fin x → 0 <= fval x → holdsZ (floor x) (fval x / unit_sc).
Proof. intros Hf H0. destruct (floor_spec x Hf H0). done. Qed.

(** With a whole token the request passes and takes it; without, it is
    denied and must wait. *)
Lemma tokenDecide_spec t :
  fin t → 0 <= fval t <= fval capacity →
  ∃ level allowed remaining retry, decided (tokenDecide rate t) level allowed remaining retry ∧
    allowed = (unit_sc <=? fval t) ∧
    fval t = fval level + (if allowed then unit_sc else 0) ∧
    (allowed = true → remaining = fval level / unit_sc).
Proof.
  intros Hf Ht. destruct Hp as (Hcf & Hc1 & Hrf & Hr). pose proof unit_sc_pos as Hu.
  destruct one_exact as [Hof Hov]. unfold tokenDecide.
  destruct (Z.leb_spec unit_sc (fval t)) as [H1|H1].
  - assert (F64.ge t (F64.of_int 1) = true) as -> by (apply le_fval; fin_side; lia).
    destruct (sub_int_exact t 1) as [Hsf Hsv]; [done|lia..|].
    set (t' := F64.sub t (F64.of_int 1)) in *. exists t', true, (fval t' / unit_sc), 0.
    assert (0 <= fval t' / unit_sc < 2 ^ 53) as Hq
      by (split; [apply Z.div_pos; lia|apply Z.div_lt_upper_bound; lia]).
    split_and!; [|done|lia|done].
    split_and!; [done|done|lia|lia|apply holdsZ_of_int; lia|apply floor_int; [done|lia]
      |apply holdsZ_of_int; lia|split; [lia|done]].
  - assert (F64.ge t (F64.of_int 1) = false) as -> by (apply le_false_fval; fin_side; lia).
    pose proof (below_one t Hf ltac:(lia)) as Hgap. set (x := F64.sub (F64.of_int 1) t).
    destruct (binary_normalize_exact 1 (-53) false) as [Hlf Hlv]; [lia|lia| |].
    { pose proof (sc_mono (-53) 0 ltac:(lia)) as Hs. change (sc 0) with unit_sc in Hs.
      pose proof (int_lt_inf 1 ltac:(lia)). lia. }
    set (lo := binary_normalize F64.prec F64.emax 1 (-53) false) in *.
    assert (fval lo <= fval x <= fval (F64.of_int 1)) as Hx
      by (split; [apply sub_ge|apply sub_le]; fin_side; lia).
    assert (fin x) as Hxf by (eapply (fin_between _ lo (F64.of_int 1)); fin_side; [by apply sub_num|done]).
    destruct (waitMs_spec rate x Hrf Hr Hrate Hxf ltac:(lia)) as (r & Hw & Hr12).
    exists t, false, 0, r. split_and!; [|done|lia|done].
    split_and!; [done|done|lia|lia|apply holdsZ_of_int; lia|apply holdsZ_of_int; lia|exact Hw|split; [done|lia]].
Qed.

(** With room for a drop the request passes and adds it; without, it is
    denied and must wait. *)
Lemma leakyDecide_spec wt :
  fin wt → 0 <= fval wt <= fval capacity →
  ∃ level allowed remaining retry, decided (leakyDecide capacity rate wt) level allowed remaining retry ∧
    level = (if allowed then F64.add wt (F64.of_int 1) else wt) ∧
    allowed = (fval (F64.add wt (F64.of_int 1)) <=? fval capacity) ∧
    (fval wt + (if allowed then unit_sc else 0)) * 2 ^ 52
      <= fval level * 2 ^ 52 + 2 * fval capacity + tiny * 2 ^ 52 ∧
    (allowed = true → remaining = fval (F64.sub capacity level) / unit_sc).
Proof.
  intros Hf Hw. pose proof Hp as (Hcf & Hc1 & Hrf & Hr). pose proof unit_sc_pos as Hu. pose proof tiny_pos.
  pose proof (LeakyBucket.poured_fin capacity wt Hf Hw Hcap) as Hpf.
  destruct (LeakyBucket.poured_num wt Hf ltac:(lia)) as (_ & Hge & Hu1).
  pose proof (LeakyBucket.poured_lower capacity rate Hp Hcap wt Hf Hw) as Hlow.
  unfold LeakyBucket.poured in *. unfold leakyDecide. set (p := F64.add wt (F64.of_int 1)) in *.
  destruct (Z.leb_spec (fval p) (fval capacity)) as [H1|H1].
  - assert (F64.le p capacity = true) as -> by (apply le_fval; fin_side; lia).
    set (x := F64.sub capacity p).
    assert (fval (S754_zero false) <= fval x <= fval capacity) as Hx
      by (split; [apply sub_ge|apply sub_le]; fin_side; cbn [fval]; lia).
    assert (fin x) as Hxf by (eapply (fin_between _ (S754_zero false) capacity); fin_side; [by apply sub_num|done]).
    cbn [fval] in Hx. exists p, true, (fval x / unit_sc), 0.
    assert (0 <= fval x / unit_sc < 2 ^ 53) as Hq
      by (split; [apply Z.div_pos; lia|apply Z.div_lt_upper_bound; lia]).
    split_and!; [|done|done|lia|done].
    split_and!; [done|done|lia|lia|apply holdsZ_of_int; lia|apply floor_int; [done|lia]
      |apply holdsZ_of_int; lia|split; [lia|done]].
  - assert (F64.le p capacity = false) as -> by (apply le_false_fval; fin_side; lia).
    set (x := F64.sub p capacity). destruct one_exact as [Hof Hov].
    pose proof (gap_above_one p capacity Hpf Hcf Hc1 H1) as Hgap.
    pose proof (sc_pos (-53) ltac:(lia)) as Hs3. pose proof (sc_mono (-53) (-52) ltac:(lia)) as Hs32.
    destruct (binary_normalize_exact 1 (-53) false) as [Hlf Hlv]; [lia|lia| |].
    { pose proof (sc_mono (-53) 0 ltac:(lia)) as Hs. change (sc 0) with unit_sc in Hs.
      pose proof (int_lt_inf 1 ltac:(lia)). lia. }
    set (lo := binary_normalize F64.prec F64.emax 1 (-53) false) in *.
    destruct (of_int_exact 4) as [H4f H4v]; [lia|].
    assert (fval p * 2 ^ 52 <= (fval wt + unit_sc) * (2 ^ 52 + 1) + tiny * 2 ^ 52) as Hup.
    { pose proof (add_upper wt _ Hf Hof ltac:(lia)) as Hau. rewrite Hov in Hau. exact Hau. }
    assert (fval lo <= fval x <= fval (F64.of_int 4)) as Hx.
    { split; [apply sub_ge|apply sub_le]; fin_side; [lia|]. rewrite H4v. pose proof GoTime.tiny_small. lia. }
    assert (fin x) as Hxf by (eapply (fin_between _ lo (F64.of_int 4)); fin_side; [by apply sub_num|done]).
    destruct (waitMs_spec rate x Hrf Hr Hrate Hxf ltac:(lia)) as (r & Hwt & Hr12).
    exists wt, false, 0, r. split_and!; [|done|done|lia|done].
    split_and!; [done|done|lia|lia|apply holdsZ_of_int; lia|apply holdsZ_of_int; lia|exact Hwt|split; [done|lia]].
Qed.
(** With a rate of less than one token per 295 years a denial asks for a wait
    beyond the range of a duration. *)
Definition slow : Prop := fval rate * (93 * 10 ^ 8) <= unit_sc <= fval rate * 10 ^ 12.
Definition overlong (retry : Z) : Prop :=
  9223372036855 <= retry ∧ ∀ hi, hi <= 10 ^ 12 → unit_sc <= fval rate * hi → retry <= hi * 1000.

Lemma tokenDecide_slow t :
  slow → fin t → 0 <= 128 * fval t <= unit_sc →
  ∃ retry, replies (tokenDecide rate t) t false 0 retry ∧ overlong retry.
Proof.
  intros Hs Hf Ht. destruct Hp as (_ & _ & Hrf & Hr). destruct one_exact as [Hof Hov]. pose proof unit_sc_pos as Hu.
  pose proof (unit_sc_split (-7) ltac:(lia)) as Hu7. change (2 ^ (- -7)) with 128 in Hu7. unfold tokenDecide.
  assert (F64.ge t (F64.of_int 1) = false) as -> by (apply le_false_fval; fin_side; lia).
  set (x := F64.sub (F64.of_int 1) t). pose proof (int_lt_inf 1 ltac:(lia)) as Hinf.
  destruct (float_of_mantissa 127 (-7)) as (lo & Hlo & Hlov); [lia|lia|lia|].
  assert (fval lo <= fval x <= fval (F64.of_int 1)) as Hx by (split; [apply sub_ge|apply sub_le]; fin_side; lia).
  assert (fin x) as Hxf by (apply num_fin; [by apply sub_num|lia]).
  destruct (waitMs_slow rate x Hrf Hr Hs Hxf ltac:(lia)) as (r & Hw & Hlong & Hup).
  pose proof (Hup (10 ^ 12) ltac:(lia) (proj2 Hs)).
  exists r. split; [|by split].
  split_and!; [done|done|apply holdsZ_of_int; lia|apply holdsZ_of_int; lia|exact Hw|lia..].
Qed.
End Decide.

(** *** One execution *)

(** The last statements of a bucket script. *)
Lemma finish_spec lf tf w k h level nowf n ttl (out : reply) :
  lf ≠ tf → hash_of (stored w k) = Some h → fin level → holdsZ nowf n → 0 <= n < 2 ^ 51 →
  Z.abs ttl < 2 ^ 53 →
  ∃ w', (let* _ := call ["HSET"; k; lf; tostring level; tf; tostring nowf] in
         let* _ := expireKey k (Some (F64.of_int ttl)) in ret out) w = (inl out, w') ∧
    frame k w w' ∧ bucket_at lf tf w' k (Some (level, n)) ∧
    (0 < ttl → deadline w' k = Some (ms w + ttl)).
Proof.
  intros Hne Hh Hf Hz Hn Ht.
  destruct (storeState_spec lf tf w k h level nowf n Hne Hh Hf Hz Hn) as (m & w1 & Hcall & Hfr & Hb).
  destruct (expireKey_spec k ttl w1 Ht) as (w2 & He & Hc & Hs & Hd).
  exists w2. unfold call. run Hcall. run He. split_and!; [done| | |].
  - eapply frame_trans; [exact Hfr|]. by apply frame_same.
  - eapply bucket_at_frame; [|exact Hb]. by rewrite Hs.
  - intros Hpos. rewrite Hd; [|done|by inversion Hb; congruence].
    destruct Hfr as [Hcw _]. unfold ms. by rewrite Hcw.
Qed.

Section Execute.
Context (capacity rate : spec_float) (ttl : Z).
Hypothesis Hp : Numeric.params_ok capacity rate.
Hypothesis Hcap : fval capacity < 2 ^ 53 * unit_sc.
Hypothesis Hrate : unit_sc <= fval rate * 10 ^ 9.
Hypothesis Httl : Z.abs ttl < 2 ^ 53.

Definition bucketArgs : list string := formatArg <$> [ArgFloat capacity; ArgFloat rate; ArgInt ttl].

Lemma bucketArgs_numbers :
  argNumber bucketArgs 0 = Some capacity ∧ argNumber bucketArgs 1 = Some rate ∧
  argNumber bucketArgs 2 = Some (F64.of_int ttl).
Proof.
  destruct Hp as (Hcf & _ & Hrf & _). split_and!; (eapply argNumber_at; [reflexivity|]).
  - by apply arg_float.
  - by apply arg_float.
  - apply arg_int. unfold int64_min, int64_max. lia.
Qed.

(** A level within the capacity. *)
Definition level_ok (v : option (spec_float * Z)) : Prop :=
  match v with Some (level, _) => 0 <= fval level <= fval capacity | None => True end.

(** A decision without elapsed time, on a level that counts exactly: it
    passes if and only if there is room for one, and takes exactly one. *)
Definition exactly (whole : spec_float → Prop) (room : spec_float → Z) (level level' : spec_float)
    (allowed : bool) (remaining : Z) : Prop :=
  whole level →
  whole level' ∧ allowed = (unit_sc <=? room level) ∧
  room level' = room level - (if allowed then unit_sc else 0) ∧
  (allowed = true → remaining = room level' / unit_sc).

(** What one execution does to the bucket in state [v]: its reply, its new
    state, and its books. *)
Definition executes (lf tf : string) (initial : spec_float) (whole : spec_float → Prop) (room : spec_float → Z)
    (script : list string → list string → M W reply) w k (v : option (spec_float * Z)) : Prop :=
  let level := (default (initial, ms w) v).1 in
  let last := (default (initial, ms w) v).2 in
  let now := Z.max (ms w) last in
  ∃ level' allowed remaining retry w',
    script [k] bucketArgs w = (inl (reply_of allowed remaining retry), w') ∧ frame k w w' ∧
    bucket_at lf tf w' k (Some (level', now)) ∧ level_ok (Some (level', now)) ∧
    reply_range allowed remaining retry ∧
    ledger capacity rate (room level) last (room level') now allowed ∧
    (now = last → exactly whole room level level' allowed remaining) ∧
    (0 < ttl → deadline w' k = Some (ms w + ttl)).

Lemma bucket_last lf tf w k v initial :
  clock_ok w → bucket_at lf tf w k v → 0 <= (default (initial, ms w) v).2 < 2 ^ 51.
Proof. intros Hc%ms_range [?|h level lastf last _ _ _ _ _ Hl]; done. Qed.

Lemma bucket_fin lf tf w k v initial :
  fin initial → bucket_at lf tf w k v → fin (default (initial, ms w) v).1.
Proof. intros Hf [?|h level lastf last _ _ _ Hl _ _]; done. Qed.

(** Both bucket scripts load, update, decide and store. *)
Section Generic.
Context (lf tf : string) (initial : spec_float) (whole : spec_float → Prop) (room : spec_float → Z).
Context (update : spec_float → spec_float → spec_float).
Context (choose : spec_float → spec_float * spec_float * spec_float * spec_float).
Hypothesis Hfields : lf ≠ tf.
Hypothesis Hinit : fin initial ∧ 0 <= fval initial <= fval capacity.
Hypothesis Hstep : ∀ level e n, fin level → 0 <= fval level <= fval capacity → holdsZ e n → 0 <= n →
  ∃ level' allowed remaining retry,
    decided capacity (choose (update level e)) level' allowed remaining retry ∧
    (n = 0 → exactly whole room level level' allowed remaining) ∧
    ∀ last, ledger capacity rate (room level) last (room level') (last + n) allowed.

Definition bucketLua k : M W reply :=
  let* now := nowMs in
  let* (level, last, now) := loadState k lf tf initial now in
  let '(level, allowed, remaining, retry) := choose (update level (F64.sub now last)) in
  let* _ := call ["HSET"; k; lf; tostring level; tf; tostring now] in
  let* _ := expireKey k (Some (F64.of_int ttl)) in
  ret (answer allowed remaining retry).

(** One run, for any outcome of the decision that a reply can carry. *)
Lemma bucketLua_runs w k v (Q : spec_float → bool → Z → Z → Prop) :
  let level := (default (initial, ms w) v).1 in
  let last := (default (initial, ms w) v).2 in
  let now := Z.max (ms w) last in
  clock_ok w → bucket_at lf tf w k v →
  (∀ e, holdsZ e (now - last) → ∃ level' allowed remaining retry,
     replies (choose (update level e)) level' allowed remaining retry ∧ Q level' allowed remaining retry) →
  ∃ level' allowed remaining retry w',
    bucketLua k w = (inl (reply_of allowed remaining retry), w') ∧ frame k w w' ∧
    bucket_at lf tf w' k (Some (level', now)) ∧ (0 < ttl → deadline w' k = Some (ms w + ttl)) ∧
    Q level' allowed remaining retry.
Proof.
  intros level last n Hc Hb HQ. destruct (nowMs_spec w Hc) as (now & w1 & Hnow & Hz & Hck & Hst).
  pose proof (bucket_at_frame _ _ w w1 k v ltac:(by rewrite Hst) Hb) as Hb1.
  pose proof (loadState_spec _ _ w1 k v initial now (ms w) Hb1 Hz) as Hload.
  pose proof (bucket_last _ _ w k v initial Hc Hb) as Hlast. pose proof (ms_range w Hc) as Hms.
  subst level last n. destruct (default (initial, ms w) v) as [t last]. cbn [fst snd] in *.
  destruct Hload as (lastf & nowf & w2 & Hload & Hlz & Hnz & Hck2 & Hst2).
  set (n := Z.max (ms w) last) in *.
  assert (holdsZ (F64.sub nowf lastf) (n - last)) as Hel by (apply sub_int; [done|done|lia]).
  destruct (HQ _ Hel) as (level & allowed & remaining & retry & Hrep & Hq).
  pose proof (replies_answer _ _ _ _ _ Hrep) as Hans.
  destruct (bucket_hash _ _ w1 k v Hb1) as [h Hh]. rewrite <- Hst2 in Hh.
  unfold bucketLua. run Hnow. run Hload.
  destruct (choose (update t (F64.sub nowf lastf))) as [[[l a] x] r]. rewrite Hans.
  destruct Hrep as (-> & Hlf & _).
  destruct (finish_spec lf tf w2 k h level nowf n ttl (reply_of allowed remaining retry)
    Hfields Hh Hlf Hnz ltac:(lia) Httl) as (w3 & -> & Hfr & Hb3 & Hd).
  exists level, allowed, remaining, retry, w3. split_and!; [done| |done| |done].
  - eapply frame_trans; [|exact Hfr]. apply frame_same; congruence.
  - intros Hpos. rewrite (Hd Hpos). unfold ms. by rewrite Hck2, Hck.
Qed.

Lemma bucketLua_executes script w k v :
  script [k] bucketArgs w = bucketLua k w → clock_ok w → bucket_at lf tf w k v → level_ok v →
  executes lf tf initial whole room script w k v.
Proof.
  intros Heq Hc Hb Hl. destruct Hinit as [Hif Hiv].
  pose proof (bucket_fin _ _ w k v initial Hif Hb) as Hfin.
  assert (0 <= fval (default (initial, ms w) v).1 <= fval capacity) as Hlv
    by (destruct v as [[? ?]|]; simpl in *; lia).
  unfold executes. rewrite Heq. set (level := (default (initial, ms w) v).1) in *.
  set (last := (default (initial, ms w) v).2). set (n := Z.max (ms w) last).
  destruct (bucketLua_runs w k v (fun level' allowed remaining retry =>
      level_ok (Some (level', n)) ∧ reply_range allowed remaining retry ∧
      ledger capacity rate (room level) last (room level') n allowed ∧
      (n = last → exactly whole room level level' allowed remaining)) Hc Hb)
    as (level' & allowed & remaining & retry & w' & H1 & H2 & H3 & H4 & H5 & H6 & H7 & H8).
  - fold level last n. intros e He.
    destruct (Hstep level e _ Hfin Hlv He ltac:(lia)) as (level' & allowed & remaining & retry & Hdec & Hex & Hbook).
    destruct (decided_replies capacity _ _ _ _ _ Hdec) as (Hrep & Hlb & Hrange).
    exists level', allowed, remaining, retry.
    split; [exact Hrep|]. split; [exact Hlb|]. split; [exact Hrange|]. split; [|intros; apply Hex; lia].
    specialize (Hbook last). by replace (last + (n - last)) with n in Hbook by lia.
  - exists level', allowed, remaining, retry, w'. by split_and!.
Qed.
End Generic.

(** A script that evaluates its arguments first. *)
Ltac script_args :=
  destruct bucketArgs_numbers as (A0 & A1 & A2);
  match goal with w : W |- _ => destruct (nowMs w) as [[now|msg] w1] end; [|done];
  rewrite ?A0, ?A1, ?A2; reflexivity.

Lemma tokenBucketLua_eq k w :
  tokenBucketLua [k] bucketArgs w =
  bucketLua "tokens" "last_refilled_ms" capacity (refillMs capacity rate) (tokenDecide rate) k w.
Proof. unfold tokenBucketLua, bucketLua, bind. script_args. Qed.

Lemma leakyBucketLua_eq k w :
  leakyBucketLua [k] bucketArgs w =
  bucketLua "water" "last_leak_ms" (F64.of_int 0) (leakMs rate) (leakyDecide capacity rate) k w.
Proof. unfold leakyBucketLua, bucketLua, bind. script_args. Qed.

(** Without elapsed time nothing accrues and nothing leaks. *)
Lemma refillMs_still t e : holdsZ e 0 → refillMs capacity rate t e = t.
Proof. intros He. unfold refillMs. by rewrite (elapsed_positive e 0 He). Qed.
Lemma leakMs_still t e : holdsZ e 0 → leakMs rate t e = t.
Proof. intros He. unfold leakMs. by rewrite (elapsed_positive e 0 He). Qed.

(** A whole number of drops. *)
Definition whole_drops (l : spec_float) : Prop := ∃ n : Z, 0 <= n ∧ fval l = n * unit_sc.

Lemma leaky_exactly t level (allowed : bool) remaining :
  fin t → 0 <= fval t <= fval capacity →
  level = (if allowed then F64.add t (F64.of_int 1) else t) →
  allowed = (fval (F64.add t (F64.of_int 1)) <=? fval capacity) →
  (allowed = true → remaining = fval (F64.sub capacity level) / unit_sc) →
  exactly whole_drops (fun l => fval capacity - fval l) t level allowed remaining.
Proof.
  intros Hf Ht Hlev Hall Hrem (n & Hk & Hkv). pose proof Hp as (Hcf & _). pose proof unit_sc_pos as Hu.
  assert (n < 2 ^ 53) as Hk53 by nia.
  pose proof (LeakyBucket.poured_int t n Hf Hkv ltac:(lia)) as Hpv.
  pose proof (LeakyBucket.poured_fin capacity t Hf Ht Hcap) as Hpf. unfold LeakyBucket.poured in *.
  rewrite Hpv in Hall. destruct allowed; subst level.
  - symmetry in Hall. apply Z.leb_le in Hall. split_and!; [exists (n + 1); lia|symmetry; apply Z.leb_le; lia|lia|].
    intros _. rewrite Hrem by done. f_equal. destruct (of_int_exact (n + 1)) as [Hif Hiv]; [nia|].
    destruct (sub_int_exact capacity (n + 1)) as [_ Hsv]; [done|nia|lia|done|]. rewrite Hpv, <- Hsv.
    eapply rnds_eq; [by apply sub_rnds|by apply sub_num|]. rewrite Hsv. lia.
  - symmetry in Hall. apply Z.leb_gt in Hall. split_and!; [exists n; lia|symmetry; apply Z.leb_gt; lia|lia|done].
Qed.

(** A denial at such a rate, on a bucket that is almost empty and was updated
    in the last 10^8 ms. *)
Lemma tokenBucketLua_slow w k level last :
  slow rate → fval capacity <= 2 ^ 40 * unit_sc → clock_ok w →
  bucket_at "tokens" "last_refilled_ms" w k (Some (level, last)) →
  0 <= 256 * fval level <= unit_sc → ms w - last <= 10 ^ 8 →
  ∃ level' retry w', tokenBucketLua [k] bucketArgs w = (inl (reply_of false 0 retry), w') ∧ overlong rate retry ∧
    frame k w w' ∧ bucket_at "tokens" "last_refilled_ms" w' k (Some (level', Z.max (ms w) last)).
Proof.
  clear Hrate. intros Hs Hc40 Hc Hb Hl Hms. destruct (Hp) as (Hcf & Hc1 & Hrf & Hr). pose proof unit_sc_pos.
  destruct (bucketLua_runs "tokens" "last_refilled_ms" capacity (refillMs capacity rate) (tokenDecide rate)
    ltac:(done) w k _ (fun _ allowed remaining retry => allowed = false ∧ remaining = 0 ∧ overlong rate retry) Hc Hb)
    as (level' & allowed & remaining & retry & w' & Hrun & Hfr & Hb' & _ & -> & -> & Hlong).
  - cbn [default fst snd id]. intros e He. pose proof (bucket_fin _ _ w k _ capacity Hcf Hb) as Hlf. cbn in Hlf.
    destruct (refillMs_spec capacity rate Hp Hcap level e _ Hlf ltac:(lia) He ltac:(lia)) as (Htf & Ht & Hgain).
    set (t := refillMs capacity rate level e) in *.
    assert ((Z.max (ms w) last - last) * fval rate <= 10 ^ 8 * fval rate) as Hn by nia.
    unfold step_error, slow in *. pose proof GoTime.tiny_small.
    destruct (tokenDecide_slow capacity rate Hp t Hs Htf) as (retry & Hrep & Hlong); [lia|]. by exists t, false, 0, retry.
  - rewrite tokenBucketLua_eq. by exists level', retry, w'.
Qed.

Lemma tokenBucket_executes w k v :
  clock_ok w → bucket_at "tokens" "last_refilled_ms" w k v → level_ok v →
  executes "tokens" "last_refilled_ms" capacity (fun _ => True) fval tokenBucketLua w k v.
Proof.
  destruct (Hp) as (Hcf & Hc1 & _). pose proof unit_sc_pos.
  apply (bucketLua_executes _ _ _ _ _ (refillMs capacity rate) (tokenDecide rate));
    [done|split; [done|lia]| |by rewrite tokenBucketLua_eq].
  intros t e n Hf Hv He Hn.
  destruct (refillMs_spec capacity rate Hp Hcap t e n Hf Hv He Hn) as (Htf & Htv & Hgain).
  destruct (tokenDecide_spec capacity rate Hp Hcap Hrate _ Htf ltac:(lia))
    as (level & allowed & remaining & retry & Hdec & Hall & Hbook & Hrem).
  exists level, allowed, remaining, retry. split_and!; [done| |].
  - intros -> _. rewrite (refillMs_still t e He) in Hall, Hbook. split_and!; [done|done|lia|done].
  - intros last. unfold ledger. rewrite <- Hbook. lia.
Qed.

Lemma leakyBucket_executes w k v :
  clock_ok w → bucket_at "water" "last_leak_ms" w k v → level_ok v →
  executes "water" "last_leak_ms" (F64.of_int 0) whole_drops (fun l => fval capacity - fval l) leakyBucketLua w k v.
Proof.
  destruct (Hp) as (Hcf & Hc1 & _). pose proof unit_sc_pos. destruct (of_int_exact 0) as [H0f H0v]; [lia|].
  apply (bucketLua_executes _ _ _ _ _ (leakMs rate) (leakyDecide capacity rate));
    [done|split; [done|lia]| |by rewrite leakyBucketLua_eq].
  intros t e n Hf Hv He Hn.
  destruct (leakMs_spec capacity rate Hp Hcap t e n Hf Hv He Hn) as (Htf & Htv & Hgain).
  destruct (leakyDecide_spec capacity rate Hp Hcap Hrate _ Htf ltac:(lia))
    as (level & allowed & remaining & retry & Hdec & Hlev & Hall & Hbook & Hrem).
  exists level, allowed, remaining, retry. split_and!; [done| |].
  - intros ->. rewrite (leakMs_still t e He) in Hlev, Hall. by apply leaky_exactly.
  - intros last. unfold ledger, step_error. lia.
Qed.
End Execute.

(** ** The log *)

(** The log of [k]: members with their times, each a score of the sorted set. *)
Definition score_ok (x : spec_float) (t : Z) : Prop := holdsZ x t ∧ 0 <= t < 2 ^ 51.

Definition log_at w k (m : gmap string Z) : Prop :=
  Z.of_nat (size m) < 2 ^ 53 ∧
  ∃ z, zset_of (stored w k) = Some z ∧ map_Forall2 (fun _ => score_ok) z m.

Lemma log_at_frame w w' k m : stored w' k = stored w k → log_at w k m → log_at w' k m.
Proof. unfold log_at. by intros ->. Qed.

Lemma scores_lookup (z : gmap string spec_float) (m : gmap string Z) i :
  map_Forall2 (fun _ => score_ok) z m →
  match z !! i, m !! i with
  | Some x, Some t => score_ok x t
  | None, None => True
  | _, _ => False
  end.
Proof. intros Hz. specialize (Hz i). by destruct (z !! i), (m !! i); inversion Hz. Qed.

Lemma scores_intro (z : gmap string spec_float) (m : gmap string Z) :
  (∀ i, match z !! i, m !! i with
        | Some x, Some t => score_ok x t
        | None, None => True
        | _, _ => False
        end) → map_Forall2 (fun _ => score_ok) z m.
Proof. intros Hz i. specialize (Hz i). destruct (z !! i), (m !! i); try done; constructor; done. Qed.

Lemma scores_size (z : gmap string spec_float) (m : gmap string Z) :
  map_Forall2 (fun _ => score_ok) z m → size z = size m.
Proof. intros Hz. rewrite <- !size_dom. by rewrite (map_Forall2_dom_L _ _ _ Hz). Qed.

(** Removing the members up to a bound. *)
Lemma scores_prune (z : gmap string spec_float) (m : gmap string Z) b t :
  map_Forall2 (fun _ => score_ok) z m → holdsZ b t →
  map_Forall2 (fun _ => score_ok) (filter (fun p => F64.le p.2 b = false) z) (filter (fun p => t < p.2) m).
Proof.
  intros Hz Hb. apply scores_intro. intros i. pose proof (scores_lookup z m i Hz) as Hi.
  rewrite !map_lookup_filter. destruct (z !! i) as [x|], (m !! i) as [u|]; try done. simpl.
  destruct Hi as [Hx Hu]. pose proof (le_int x b u t Hx Hb) as Hle.
  destruct (Z.leb_spec u t); repeat case_guard; simpl in *; try done; try lia; congruence.
Qed.

Section Window.
Context (limit window ttl : Z) (member : string).
Hypothesis Hlimit : 0 < limit < 2 ^ 53.
Hypothesis Hwindow : 0 <= window < 2 ^ 51.
Hypothesis Httl : Z.abs ttl < 2 ^ 53.

Definition windowArgs : list string :=
  formatArg <$> [ArgInt limit; ArgInt window; ArgInt ttl; ArgString member].

Lemma windowArgs_numbers :
  argNumber windowArgs 0 = Some (F64.of_int limit) ∧ argNumber windowArgs 1 = Some (F64.of_int window) ∧
  argNumber windowArgs 2 = Some (F64.of_int ttl) ∧ windowArgs !! 3%nat = Some member.
Proof.
  split_and!; [eapply argNumber_at; [reflexivity|apply arg_int; unfold int64_min, int64_max; lia]..|].
  unfold windowArgs. cbn. by rewrite arg_string.
Qed.

(** The entries inside the window that ends now. *)
Definition inside (now : Z) (m : gmap string Z) : gmap string Z := filter (fun p => now - window < p.2) m.

(** The log and the reply after one execution. *)
Definition decides (now : Z) (m m' : gmap string Z) (allowed : bool) (remaining retry : Z) : Prop :=
  let n := Z.of_nat (size (inside now m)) in
  allowed = (n <? limit) ∧
  m' = (if allowed then <[member := now]> (inside now m) else inside now m) ∧
  (if allowed then remaining = limit - n - 1 ∧ retry = 0
   else remaining = 0 ∧ ∃ mem oldest, inside now m !! mem = Some oldest ∧
     (∀ mem' t, inside now m !! mem' = Some t → oldest <= t) ∧ retry = oldest + window - now).

(** The branch of [slidingWindowLua] on the count. *)
Definition countBranch (k : string) (now count : spec_float) : M W (spec_float * spec_float * spec_float) :=
  if F64.lt count (F64.of_int limit) then
    let* m := needString (Some member) in
    let* _ := call ["ZADD"; k; tostring now; m] in
    ret (F64.of_int 1, F64.sub (F64.sub (F64.of_int limit) count) (F64.of_int 1), F64.of_int 0)
  else
    let* oldest := call ["ZRANGE"; k; tostring (F64.of_int 0); tostring (F64.of_int 0); "WITHSCORES"] in
    let* score := need (replyNumber (at_index oldest 1)) in
    ret (F64.of_int 0, F64.of_int 0, F64.sub (F64.add score (F64.of_int window)) now).

Lemma countBranch_spec w k m now n :
  log_at w k (inside n m) → holdsZ now n → 0 <= n < 2 ^ 51 →
  ∃ a x r allowed remaining retry m' w',
    countBranch k now (F64.of_int (Z.of_nat (size (inside n m)))) w = (inl (a, x, r), w') ∧
    answer a x r = reply_of allowed remaining retry ∧ decides n m m' allowed remaining retry ∧
    frame k w w' ∧ log_at w' k m' ∧ (m' ≠ ∅ → stored w' k ≠ VNone).
Proof.
  intros [Hsz (z & Hz & Hsc)] Hnow Hn. unfold countBranch, decides.
  set (c := Z.of_nat (size (inside n m))) in *.
  assert (holdsZ (F64.of_int c) c) as Hc by (apply holdsZ_of_int; lia).
  assert (holdsZ (F64.of_int limit) limit) as Hl by (apply holdsZ_of_int; lia).
  assert (holdsZ (F64.of_int 0) 0) as H0 by (apply holdsZ_of_int; lia).
  assert (holdsZ (F64.of_int 1) 1) as H1 by (apply holdsZ_of_int; lia).
  rewrite (lt_int _ _ c limit Hc Hl). destruct (Z.ltb_spec c limit) as [Hlt|Hge].
  - destruct (zadd_law w k now member z Hz (proj1 Hnow)) as (q & w' & Hcall & Hck & Hz' & Ho).
    do 3 eexists. exists true, (limit - c - 1), 0, (<[member := n]> (inside n m)), w'.
    rewrite (bind_inl _ _ _ _ _ (eq_refl : needString (Some member) w = _)).
    unfold call. run Hcall. split_and!; [reflexivity| |done|done|done|done|by split| |].
    + apply answer_int; [done| |done|lia|lia]. apply sub_int; [apply sub_int; [done|done|lia]|done|lia].
    + split.
      * rewrite map_size_insert. destruct (inside n m !! member); simpl; lia.
      * exists (<[member := now]> z). split; [done|]. apply map_Forall2_insert_2; [by split|exact Hsc].
    + intros _ Hnone. rewrite Hnone in Hz'. injection Hz' as Hz'. symmetry in Hz'. by apply insert_non_empty in Hz'.
  - assert (z ≠ ∅) as Hne.
    { intros ->. apply map_Forall2_empty_inv_l in Hsc. unfold c in Hge. rewrite Hsc, map_size_empty in Hge. lia. }
    destruct (zrange_law w k z Hz Hne) as (mem & x & s & w' & Hcall & Hx & Hs & Hmin & Hck & Hst).
    { intros i y Hy. pose proof (scores_lookup _ _ i Hsc) as Hi. rewrite Hy in Hi.
      destruct (inside n m !! i); [apply Hi|done]. }
    pose proof (scores_lookup _ _ mem Hsc) as Hm. rewrite Hx in Hm.
    destruct (inside n m !! mem) as [o|] eqn:Eo; [|done]. destruct Hm as [Hxo Hor].
    assert (n - window < o) as Hin by by apply map_lookup_filter_Some in Eo as [_ ?].
    do 3 eexists. exists false, 0, (o + window - n), (inside n m), w'.
    unfold call. run Hcall. rewrite at_1. cbn [replyNumber]. rewrite Hs.
    rewrite (bind_inl _ _ _ _ _ (need_some _ _)). split_and!; [reflexivity| |done|done|done| | | |].
    + apply answer_int; [done|done| |lia|lia].
      apply sub_int; [apply add_int; [done|apply holdsZ_of_int; lia|lia]|done|lia].
    + exists mem, o. split_and!; [done| |done]. intros mem' u Hu.
      pose proof (scores_lookup _ _ mem' Hsc) as Hy. rewrite Hu in Hy.
      destruct (z !! mem') as [y|] eqn:Ey; [|done]. destruct Hy as [[Hyf Hyv] _]. destruct Hxo as [_ Hxv].
      pose proof (Hmin mem' y Ey) as Hle. pose proof unit_sc_pos. rewrite Hyv, Hxv in Hle.
      by apply Z.mul_le_mono_pos_r in Hle.
    + by apply frame_same.
    + split; [done|]. exists z. by rewrite Hst.
    + intros _ Hnone. rewrite Hst in Hnone. rewrite Hnone in Hz. by simplify_eq/=.
Qed.

Lemma slidingWindow_executes w k m :
  clock_ok w → log_at w k m →
  ∃ allowed remaining retry m' w',
    slidingWindowLua [k] windowArgs w = (inl (reply_of allowed remaining retry), w') ∧
    decides (ms w) m m' allowed remaining retry ∧ frame k w w' ∧ log_at w' k m' ∧
    (0 < ttl → m' ≠ ∅ → deadline w' k = Some (ms w + ttl)).
Proof.
  intros Hc [Hsz (z & Hz & Hsc)]. destruct windowArgs_numbers as (A0 & A1 & A2 & A3).
  destruct (nowMs_spec w Hc) as (now & w1 & Hnow & Hn & Hck1 & Hst1).
  pose proof (ms_range w Hc) as Hms. rewrite <- Hst1 in Hz.
  assert (holdsZ (F64.sub now (F64.of_int window)) (ms w - window)) as Hws
    by (apply sub_int; [done|apply holdsZ_of_int; lia|lia]).
  destruct (zrem_law w1 k _ z Hz (proj1 Hws)) as (q & w2 & Hrem & Hck2 & Hz2 & Ho2).
  pose proof (scores_prune z m _ _ Hsc Hws) as Hsc2. fold (inside (ms w) m) in Hsc2.
  destruct (zcard_law w2 k _ Hz2) as (w3 & Hcard & Hck3 & Hst3). rewrite (scores_size _ _ Hsc2) in Hcard.
  assert (size (inside (ms w) m) ≤ size m)%nat as Hle by (apply map_subseteq_size, map_filter_subseteq).
  assert (log_at w3 k (inside (ms w) m)) as Hlog3.
  { split; [lia|]. rewrite Hst3. eauto. }
  destruct (countBranch_spec w3 k m now (ms w) Hlog3 Hn Hms)
    as (a & x & r & allowed & remaining & retry & m' & w4 & Hbr & Hans & Hdec & Hfr & Hlog4 & Hne4).
  destruct (expireKey_spec k ttl w4 Httl) as (w5 & Hexp & Hck5 & Hst5 & Hdl).
  exists allowed, remaining, retry, m', w5. split_and!; [|done| | |].
  - unfold slidingWindowLua. run Hnow. rewrite A0, A1, A2, A3.
    rewrite !(bind_inl _ _ _ _ _ (need_some _ _)). cbn [theKey default].
    rewrite (bind_inl _ _ _ _ _ (eq_refl : ret k w1 = _)). unfold call at 1. run Hrem.
    unfold call at 1. run Hcard. cbn [replyNumber]. rewrite !(bind_inl _ _ _ _ _ (need_some _ _)).
    unfold countBranch in Hbr. run Hbr. run Hexp. by rewrite Hans.
  - eapply frame_trans; [|eapply frame_trans; [exact Hfr|by apply frame_same]].
    split; [congruence|]. intros k' Hk'. rewrite Hst3, Ho2, Hst1 by done. done.
  - eapply log_at_frame; [|exact Hlog4]. by rewrite Hst5.
  - intros Hpos Hne. rewrite Hdl; [|done|by apply Hne4]. destruct Hfr as [Hf _].
    unfold ms. by rewrite Hf, Hck3, Hck2, Hck1.
Qed.
End Window.

End Facts.
End ScriptFacts.
