(* ===== verification/RedisCalls.v ===== *)
(** * RedisCalls: the Redis limiters end to end

    A call of [Allow] on a limiter of package redis, through the script cache,
    the script, the server's data and the decoding of the reply.  Any number
    of limiters, in any number of processes, may use one key; between two
    calls the server does whatever it does, as long as it keeps the key. *)

From Stdlib Require Import ZArith Lia Bool.
From stdpp Require Import base gmap strings list sorting.
From S2P Require Import Prelude Float64 FloatFacts GoTime Core GoString Numeric SlidingWindow.
From S2P Require Import Redis RedisScripts LuaFacts RedisScriptFacts.

#[local] Open Scope Z_scope.

Module RedisCalls.
Import Scripts LuaFacts ScriptFacts.

(** The server executes the embedded files as Lua does. *)
Class ScriptHost {W : Type} (client : Redis.RedisClient W) (scripting : Redis.RedisScripting W client)
    (server : RedisServer W) (laws : RedisServerLaws W server)
    (tokenBucketScript leakyBucketScript slidingWindowLogScript : string) := {
  host_token w keys args :
    Redis.execute w tokenBucketScript keys args = tokenBucketLua keys (formatArg <$> args) w;
  host_leaky w keys args :
    Redis.execute w leakyBucketScript keys args = leakyBucketLua keys (formatArg <$> args) w;
  host_window w keys args :
    Redis.execute w slidingWindowLogScript keys args = slidingWindowLua keys (formatArg <$> args) w;
  remember_data w body :
    clock (Redis.remember w body) = clock w ∧ stored (Redis.remember w body) = stored w
}.

Section Calls.
Context {W : Type} {client : Redis.RedisClient W} {scripting : Redis.RedisScripting W client}.
Context {server : RedisServer W} {laws : RedisServerLaws W server} {tokenSrc leakySrc windowSrc : string}.
Context {host : ScriptHost client scripting server laws tokenSrc leakySrc windowSrc}.
Implicit Types (w : W) (k : string).

Lemma ready_data s w : clock (Redis.ready s w) = clock w ∧ stored (Redis.ready s w) = stored w.
Proof. unfold Redis.ready. repeat case_match; try done; apply remember_data. Qed.

(** A limiter at work: connected to the server in state [w], with a script
    whose cached SHA is empty or right. *)
Record instance (body : string) w k (l : Redis.limiter W) (key : string) : Prop := {
  inst_client : Redis.lim_client l = w;
  inst_script : Redis.script_ok (Redis.lim_script l);
  inst_body : Redis.scriptBody (Redis.lim_script l) = body;
  inst_key : Redis.validateKey key = None;
  inst_name : Redis.keyFor l key = k;
  inst_ttl : int64_min <= Redis.keyTTL (Redis.lim_opts l) <= int64_max
}.

Lemma ttl_small (l : Redis.limiter W) :
  int64_min <= Redis.keyTTL (Redis.lim_opts l) <= int64_max → Z.abs (Redis.ttlMs l) < 2 ^ 53.
Proof.
  unfold Redis.ttlMs, GoTime.Milliseconds, GoTime.Millisecond, int64_min, int64_max. intros Ht.
  pose proof (Z.quot_rem (Redis.keyTTL (Redis.lim_opts l)) 1000000 ltac:(lia)).
  pose proof (Z.rem_bound_abs (Redis.keyTTL (Redis.lim_opts l)) 1000000 ltac:(lia)). lia.
Qed.

Lemma decode_reply allowed remaining retry :
  Redis.decode (reply_of allowed remaining retry) =
    inl (mkResult allowed remaining (Redis.wrap64 (retry * GoTime.Millisecond))).
Proof. unfold Redis.decode, reply_of. do 2 f_equal. by destruct allowed. Qed.

Lemma wrap64_small z : 0 <= z <= int64_max → Redis.wrap64 z = z.
Proof. intros Hz. unfold Redis.wrap64, int64_max in *. rewrite Z.mod_small by lia. lia. Qed.

(** Between [2^63] and [2^64] a product wraps around to a negative number. *)
Lemma wrap64_negative z : 2 ^ 63 <= z < 2 ^ 64 → Redis.wrap64 z < 0.
Proof.
  intros Hz. unfold Redis.wrap64. replace (z + 2 ^ 63) with (z - 2 ^ 63 + 1 * 2 ^ 64) by lia.
  rewrite Z.mod_add, Z.mod_small by lia. lia.
Qed.

(** When the script answers, [Allow] returns its answer, with the delay in
    nanoseconds as 64 bits hold it, and the limiter can be called again. *)
Lemma allow_reply lua body w k l key args allowed remaining retry w' :
  (∀ w keys args, Redis.execute w body keys args = lua keys (formatArg <$> args) w) →
  instance body w k l key →
  lua [k] (formatArg <$> args) (Redis.ready (Redis.lim_script l) w) = (inl (reply_of allowed remaining retry), w') →
  ∃ l', Redis.allow args l key =
      ((mkResult allowed remaining (Redis.wrap64 (retry * GoTime.Millisecond)), None), l') ∧
    instance body w' k l' key.
Proof.
  intros Hexec [Hw Hs Hb Hk Hn Ht] Hlua. unfold Redis.allow. rewrite Hk, Hn, Hw.
  destruct (Redis.run_once (Redis.lim_script l) w [k] args Hs) as (s' & -> & _ & Hsb & Hsha).
  rewrite Hb, Hexec, Hlua. cbn [fst snd Redis.runOutcome]. rewrite decode_reply.
  eexists. split; [done|]. rewrite Redis.redis_emit_eq. constructor; simpl; try done; [|congruence].
  right. congruence.
Qed.

Lemma allow_script lua body w k l key args allowed remaining retry w' :
  (∀ w keys args, Redis.execute w body keys args = lua keys (formatArg <$> args) w) →
  instance body w k l key →
  lua [k] (formatArg <$> args) (Redis.ready (Redis.lim_script l) w) = (inl (reply_of allowed remaining retry), w') →
  0 <= retry * GoTime.Millisecond <= int64_max →
  ∃ l', Redis.allow args l key = ((mkResult allowed remaining (retry * GoTime.Millisecond), None), l') ∧
    instance body w' k l' key.
Proof.
  intros Hexec Hi Hlua Hr. destruct (allow_reply _ _ _ _ _ _ _ _ _ _ _ Hexec Hi Hlua) as (l' & Ha & Hi').
  rewrite (wrap64_small _ Hr) in Ha. eauto.
Qed.

(** ** Histories *)

(** Calls on one key of the server: what each read from its environment, the
    server's time in milliseconds, and its result. *)
Record event (E : Type) := mkEvent { ev_env : E; ev_ms : Z; ev_result : Result }.
#[global] Arguments mkEvent {E}.
#[global] Arguments ev_env {E}.
#[global] Arguments ev_ms {E}.
#[global] Arguments ev_result {E}.

Definition results {E} (es : list (event E)) : list Result := ev_result <$> es.
Definition instants {E} (es : list (event E)) : list Z := ev_ms <$> es.

(** Between two calls anything may happen that keeps the key. *)
Inductive history {E} (step : E → W → Result → W → Prop) k : W → list (event E) → W → Prop :=
| history_nil w : history step k w [] w
| history_cons w w1 e r w2 es w3 :
    stored w1 k = stored w k → clock_ok w1 → step e w1 r w2 → history step k w2 es w3 →
    history step k w (mkEvent e (ms w1) r :: es) w3.

(** *** Buckets *)

(** A bucket on the server, through the limiter: the result, the bucket
    afterwards, the books, and the deadline of the key. *)
Definition bucket_step (lf tf : string) (initial : spec_float) (whole : spec_float → Prop) (room : spec_float → Z)
    (capacity rate : spec_float) (ttl : Z) w k v (r : Result) w' : Prop :=
  let level := (default (initial, ms w) v).1 in
  let last := (default (initial, ms w) v).2 in
  let now := Z.max (ms w) last in
  ∃ level', bucket_at lf tf w' k (Some (level', now)) ∧ level_ok capacity (Some (level', now)) ∧
    result_ok r ∧ ledger capacity rate (room level) last (room level') now (Allowed r) ∧
    (now = last → exactly whole room level level' (Allowed r) (Remaining r)) ∧
    frame k w w' ∧ (0 < ttl → deadline w' k = Some (ms w + ttl)).

Lemma bucket_call lf tf initial whole room lua body capacity rate w k l key v :
  (∀ w keys args, Redis.execute w body keys args = lua keys (formatArg <$> args) w) →
  instance body w k l key →
  executes capacity rate (Redis.ttlMs l) lf tf initial whole room lua (Redis.ready (Redis.lim_script l) w) k v →
  ∃ r l', Redis.allow [ArgFloat capacity; ArgFloat rate; ArgInt (Redis.ttlMs l)] l key = ((r, None), l') ∧
    instance body (Redis.lim_client l') k l' key ∧
    bucket_step lf tf initial whole room capacity rate (Redis.ttlMs l) w k v r (Redis.lim_client l').
Proof.
  intros Hexec Hi (level' & allowed & remaining & retry & w' & Hlua & Hfr & Hb & Hl & Hrange & Hled & Hex & Hd).
  destruct (ready_data (Redis.lim_script l) w) as [Hrc Hrs].
  assert (ms (Redis.ready (Redis.lim_script l) w) = ms w) as Hms by (unfold ms; by rewrite Hrc).
  rewrite Hms in *. unfold reply_range in Hrange.
  destruct (allow_script lua body w k l key _ allowed remaining retry w' Hexec Hi Hlua) as (l' & Ha & Hi').
  { unfold GoTime.Millisecond, int64_max. destruct allowed; lia. }
  destruct (inst_client _ _ _ _ _ Hi'). exists (mkResult allowed remaining (retry * GoTime.Millisecond)), l'.
  split_and!; [done|done|]. exists level'. split_and!; [done|done| |done|done| |done].
  - unfold result_ok, GoTime.Millisecond. simpl. destruct allowed; (split_and!; [lia|lia|lia|]); lia || done.
  - eapply frame_trans; [by apply frame_same|exact Hfr].
Qed.

Section Params.
Context (capacity rate : spec_float).
Hypothesis Hp : Numeric.params_ok capacity rate.
Hypothesis Hcap : fval capacity < 2 ^ 53 * unit_sc.
Hypothesis Hrate : unit_sc <= fval rate * 10 ^ 9.

(** Parameters and data of the bucket scripts. *)
Definition token_step := bucket_step "tokens" "last_refilled_ms" capacity (fun _ => True) fval capacity rate.
Definition leaky_step :=
  bucket_step "water" "last_leak_ms" (F64.of_int 0) whole_drops (fun l => fval capacity - fval l) capacity rate.

(** Every call returns a result, and leaves a bucket for the next one. *)
Lemma token_allow tb w k key v :
  Redis.tb_capacity tb = capacity → Redis.tb_rate tb = rate →
  instance tokenSrc w k (Redis.tb_base tb) key → clock_ok w →
  bucket_at "tokens" "last_refilled_ms" w k v → level_ok capacity v →
  ∃ r tb', Redis.TokenBucket_Allow tt tb key = Some ((r, None), tb') ∧
    instance tokenSrc (Redis.lim_client (Redis.tb_base tb')) k (Redis.tb_base tb') key ∧
    token_step (Redis.ttlMs (Redis.tb_base tb)) w k v r (Redis.lim_client (Redis.tb_base tb')).
Proof.
  intros Hc Hr Hi Hck Hb Hl. destruct (ready_data (Redis.lim_script (Redis.tb_base tb)) w) as [Hrc Hrs].
  destruct (bucket_call "tokens" "last_refilled_ms" capacity (fun _ => True) fval tokenBucketLua tokenSrc capacity rate
    w k _ key v host_token Hi) as (r & l' & Ha & Hi' & Hst).
  { apply tokenBucket_executes; try done; [apply ttl_small, Hi|unfold clock_ok; by rewrite Hrc|].
    eapply bucket_at_frame; [|exact Hb]. by rewrite Hrs. }
  unfold Redis.TokenBucket_Allow. rewrite Hc, Hr, Ha. by do 2 eexists.
Qed.

(** With a rate so low that a wait is beyond the range of a duration: a denial
    of a bucket that is almost empty. *)
Lemma token_allow_slow tb w k key level last :
  slow rate → fval capacity <= 2 ^ 40 * unit_sc →
  Redis.tb_capacity tb = capacity → Redis.tb_rate tb = rate →
  instance tokenSrc w k (Redis.tb_base tb) key → clock_ok w →
  bucket_at "tokens" "last_refilled_ms" w k (Some (level, last)) →
  0 <= 256 * fval level <= unit_sc → ms w - last <= 10 ^ 8 →
  ∃ retry tb', overlong rate retry ∧
    Redis.TokenBucket_Allow tt tb key =
      Some ((mkResult false 0 (Redis.wrap64 (retry * GoTime.Millisecond)), None), tb') ∧
    instance tokenSrc (Redis.lim_client (Redis.tb_base tb')) k (Redis.tb_base tb') key.
Proof.
  clear Hrate. intros Hs Hc40 Hc Hr Hi Hck Hb Hl Hlast. destruct (ready_data (Redis.lim_script (Redis.tb_base tb)) w) as [Hrc Hrs].
  destruct (tokenBucketLua_slow capacity rate (Redis.ttlMs (Redis.tb_base tb)) Hp Hcap (ttl_small _ (inst_ttl _ _ _ _ _ Hi))
    (Redis.ready (Redis.lim_script (Redis.tb_base tb)) w) k level last Hs Hc40)
    as (level' & retry & w' & Hlua & Hlong & _); [unfold clock_ok; by rewrite Hrc| |done|unfold ms in *; by rewrite Hrc|].
  { eapply bucket_at_frame; [|exact Hb]. by rewrite Hrs. }
  destruct (allow_reply tokenBucketLua tokenSrc w k _ key _ _ _ _ w' host_token Hi Hlua) as (l' & Ha & Hi').
  exists retry. eexists. split; [exact Hlong|]. unfold Redis.TokenBucket_Allow. rewrite Hc, Hr. unfold bucketArgs in Ha.
  rewrite Ha. split; [reflexivity|]. simpl. destruct (inst_client _ _ _ _ _ Hi'). exact Hi'.
Qed.

Lemma leaky_allow lb w k key v :
  Redis.lb_capacity lb = capacity → Redis.lb_rate lb = rate →
  instance leakySrc w k (Redis.lb_base lb) key → clock_ok w →
  bucket_at "water" "last_leak_ms" w k v → level_ok capacity v →
  ∃ r lb', Redis.LeakyBucket_Allow tt lb key = Some ((r, None), lb') ∧
    instance leakySrc (Redis.lim_client (Redis.lb_base lb')) k (Redis.lb_base lb') key ∧
    leaky_step (Redis.ttlMs (Redis.lb_base lb)) w k v r (Redis.lim_client (Redis.lb_base lb')).
Proof.
  intros Hc Hr Hi Hck Hb Hl. destruct (ready_data (Redis.lim_script (Redis.lb_base lb)) w) as [Hrc Hrs].
  destruct (bucket_call "water" "last_leak_ms" (F64.of_int 0) whole_drops (fun l => fval capacity - fval l)
    leakyBucketLua leakySrc capacity rate w k _ key v host_leaky Hi) as (r & l' & Ha & Hi' & Hst).
  { apply leakyBucket_executes; try done; [apply ttl_small, Hi|unfold clock_ok; by rewrite Hrc|].
    eapply bucket_at_frame; [|exact Hb]. by rewrite Hrs. }
  unfold Redis.LeakyBucket_Allow. rewrite Hc, Hr, Ha. by do 2 eexists.
Qed.

(** A call of [Allow] on some token bucket limiter of this capacity and rate. *)
Definition tokenCall k (_ : unit) w (r : Result) w' : Prop :=
  ∃ tb tb' key, Redis.tb_capacity tb = capacity ∧ Redis.tb_rate tb = rate ∧
    instance tokenSrc w k (Redis.tb_base tb) key ∧
    Redis.TokenBucket_Allow tt tb key = Some ((r, None), tb') ∧ Redis.lim_client (Redis.tb_base tb') = w'.

Definition leakyCall k (_ : unit) w (r : Result) w' : Prop :=
  ∃ lb lb' key, Redis.lb_capacity lb = capacity ∧ Redis.lb_rate lb = rate ∧
    instance leakySrc w k (Redis.lb_base lb) key ∧
    Redis.LeakyBucket_Allow tt lb key = Some ((r, None), lb') ∧ Redis.lim_client (Redis.lb_base lb') = w'.

Lemma tokenCall_step k e w r w' v :
  tokenCall k e w r w' → clock_ok w → bucket_at "tokens" "last_refilled_ms" w k v → level_ok capacity v →
  ∃ ttl, token_step ttl w k v r w'.
Proof.
  intros (tb & tb' & key & Hc & Hr & Hi & Ha & <-) Hck Hb Hl.
  destruct (token_allow tb w k key v Hc Hr Hi Hck Hb Hl) as (r' & tb'' & Ha' & _ & Hst).
  rewrite Ha' in Ha. apply Some_inj, pair_eq in Ha as [[= ->] ->]. eauto.
Qed.

Lemma leakyCall_step k e w r w' v :
  leakyCall k e w r w' → clock_ok w → bucket_at "water" "last_leak_ms" w k v → level_ok capacity v →
  ∃ ttl, leaky_step ttl w k v r w'.
Proof.
  intros (lb & lb' & key & Hc & Hr & Hi & Ha & <-) Hck Hb Hl.
  destruct (leaky_allow lb w k key v Hc Hr Hi Hck Hb Hl) as (r' & lb'' & Ha' & _ & Hst).
  rewrite Ha' in Ha. apply Some_inj, pair_eq in Ha as [[= ->] ->]. eauto.
Qed.
End Params.

Section Bucket.
Context (capacity rate : spec_float) (k lf tf : string) (initial : spec_float).
Context (whole : spec_float → Prop) (room : spec_float → Z).
Context {E : Type} (step : E → W → Result → W → Prop).
Hypothesis Hroom : ∀ l, 0 <= fval l <= fval capacity → 0 <= room l.
Hypothesis Hstep : ∀ e w r w' v, step e w r w' → clock_ok w → bucket_at lf tf w k v → level_ok capacity v →
  ∃ ttl, bucket_step lf tf initial whole room capacity rate ttl w k v r w'.

(** The latest of some instants. *)
Definition latest (t : Z) (l : list Z) : Z := foldl Z.max t l.

Lemma latest_ge t l : t <= latest t l.
Proof. revert t. induction l as [|u l IH]; intros t; simpl; [lia|]. specialize (IH (Z.max t u)). lia. Qed.

(** The books of a history that starts with a bucket. *)
Lemma history_books w es w' level last :
  history step k w es w' → bucket_at lf tf w k (Some (level, last)) → level_ok capacity (Some (level, last)) →
  Forall result_ok (results es) ∧
  allowed_count (results es) * unit_sc * 2 ^ 52 * 1000
    <= room level * 2 ^ 52 * 1000 + (latest last (instants es) - last) * fval rate * (2 ^ 52 + 3)
       + Z.of_nat (length es) * step_error capacity * 1000.
Proof.
  intros Hh. revert level last. induction Hh as [w|w w1 e r w2 es w3 Hs Hc Hst _ IH]; intros level last Hb Hl.
  { split; [constructor|]. unfold allowed_count, latest. simpl. specialize (Hroom level Hl). lia. }
  apply (bucket_at_frame lf tf w w1) in Hb; [|done].
  destruct (Hstep e w1 r w2 _ Hst Hc Hb Hl) as (ttl & level' & Hb' & Hl' & Hr & Hled & _).
  cbn [default fst snd id] in *. destruct (IH level' _ Hb' Hl') as [Hrs Hcount]. split; [by constructor|].
  unfold results, instants. rewrite !fmap_cons. cbn [ev_result ev_ms].
  rewrite allowed_count_cons. cbn [length]. unfold latest, results, instants in *. cbn [foldl]. unfold ledger in Hled.
  rewrite (Z.max_comm last). set (t := Z.max (ms w1) last) in *.
  set (f := foldl Z.max t _) in *. set (n := allowed_count _) in *.
  replace ((f - last) * fval rate) with ((f - t) * fval rate + (t - last) * fval rate) by ring.
  destruct (Allowed r); lia.
Qed.

(** A history that starts without one. *)
Lemma history_quota w es w' :
  history step k w es w' → stored w k = VNone → fin initial → 0 <= fval initial <= fval capacity →
  room initial = fval capacity →
  Forall result_ok (results es) ∧
  ∀ first rest, instants es = first :: rest →
    allowed_count (results es) * unit_sc * 2 ^ 52 * 1000
      <= fval capacity * 2 ^ 52 * 1000 + (latest first rest - first) * fval rate * (2 ^ 52 + 3)
         + Z.of_nat (length es) * step_error capacity * 1000.
Proof.
  intros Hh Hn Hif Hiv Hri. destruct Hh as [w|w w1 e r w2 es w3 Hs Hc Hst Hh]; [split; [constructor|done]|].
  assert (bucket_at lf tf w1 k None) as Hb by (apply bucket_none; congruence).
  destruct (Hstep e w1 r w2 None Hst Hc Hb I) as (ttl & level' & Hb' & Hl' & Hr & Hled & _).
  cbn [default fst snd id] in *. rewrite Z.max_id in *.
  destruct (history_books _ _ _ _ _ Hh Hb' Hl') as [Hrs Hcount]. split; [by constructor|].
  unfold results, instants in *. rewrite !fmap_cons. cbn [ev_result ev_ms]. intros first rest [= <- <-].
  rewrite allowed_count_cons. cbn [length]. unfold ledger in Hled.
  rewrite Hri in Hled. set (n := allowed_count _) in *. destruct (Allowed r); lia.
Qed.

(** *** Bursts *)

(** Calls that the server serves at one instant, on a key with a bucket of
    that instant or with none. *)
Lemma burst_books w es w' v t i e :
  0 <= fval initial <= fval capacity →
  history step k w es w' → bucket_at lf tf w k v → level_ok capacity v →
  (default (initial, t) v).2 = t → whole (default (initial, t) v).1 →
  Forall (fun u => u = t) (instants es) → es !! i = Some e →
  let n := room (default (initial, t) v).1 / unit_sc in
  Allowed (ev_result e) = (Z.of_nat i <? n) ∧
  (Allowed (ev_result e) = true → Remaining (ev_result e) = n - 1 - Z.of_nat i).
Proof.
  intros Hinit Hh. revert v i.
  induction Hh as [w|w w1 e0 r w2 es w3 Hs Hc Hst _ IH]; intros v i Hb Hl Hlast Hw Ht Hi; [done|].
  unfold instants in Ht. rewrite fmap_cons, Forall_cons in Ht. cbn [ev_ms] in Ht. destruct Ht as [Ht Hts].
  apply (bucket_at_frame lf tf w w1) in Hb; [|done]. pose proof unit_sc_pos as Hu.
  destruct (Hstep e0 w1 r w2 _ Hst Hc Hb Hl) as (ttl & level' & Hb' & Hl' & Hr & _ & Hex & _).
  rewrite Ht, Hlast, Z.max_id in *.
  assert (0 <= fval (default (initial, t) v).1 <= fval capacity) as Hlv by (destruct v as [[? ?]|]; simpl in *; lia).
  set (level := (default (initial, t) v).1) in *.
  destruct (Hex eq_refl Hw) as (Hw' & Ha & Hroom' & Hrem).
  pose proof (Hroom level Hlv) as H0. pose proof (Hroom level' Hl') as H0'.
  destruct i as [|i]; simpl in Hi; [injection Hi as <-; cbn [ev_result]|].
  - destruct (Allowed r); symmetry in Ha; [apply Z.leb_le in Ha|apply Z.leb_gt in Ha].
    + assert (room level / unit_sc = room level' / unit_sc + 1) as Hn.
      { replace (room level) with (room level' + 1 * unit_sc) by lia. by rewrite Z.div_add by lia. }
      pose proof (Z.div_pos (room level') unit_sc H0' Hu). rewrite Hrem by done.
      split; [symmetry; apply Z.ltb_lt; lia|lia].
    + rewrite (Z.div_small (room level)) by lia. done.
  - destruct (IH (Some (level', t)) i Hb' Hl' eq_refl Hw' Hts Hi) as [Hai Hri]. cbn [default fst id] in Hai, Hri. rewrite Hai. rewrite Hai in Hri.
    destruct (Allowed r); symmetry in Ha; [apply Z.leb_le in Ha|apply Z.leb_gt in Ha].
    + assert (room level / unit_sc = room level' / unit_sc + 1) as Hn.
      { replace (room level) with (room level' + 1 * unit_sc) by lia. by rewrite Z.div_add by lia. }
      split; [zbool; done || lia|]. intros Hx. rewrite Hri by done. lia.
    + assert (room level' = room level) as Heq by lia. rewrite Heq in *. rewrite (Z.div_small (room level)) in * by lia.
      split; [zbool; done || lia|]. intros Hx. apply Z.ltb_lt in Hx. lia.
Qed.
End Bucket.

End Calls.
End RedisCalls.
