(* ===== verification/RedisWindow.v ===== *)
(** * RedisWindow: the sliding window limiter of package redis, end to end

    The sorted set of a key against the log of memory/sliding_window_log.go:
    the same instants, so the same decisions, in milliseconds.  The member of
    an entry is the random number of the call in base 16; [FormatUint16] is
    injective, so distinct numbers are distinct members. *)

From Stdlib Require Import ZArith Lia Bool Ascii.
From stdpp Require Import base gmap strings list sorting.
From S2P Require Import Prelude Float64 FloatFacts GoTime Core GoString Numeric SlidingWindow.
From S2P Require Import Redis RedisScripts LuaFacts RedisScriptFacts RedisCalls.

#[local] Open Scope Z_scope.

Module RedisWindow.
Import Scripts LuaFacts ScriptFacts RedisCalls.

(** ** Members *)

(** [strconv.ParseUint(s, 16, 64)] without the range check. *)
Definition hexValue (c : ascii) : option Z :=
  let n := Z.of_nat (nat_of_ascii c) in
  if (48 <=? n) && (n <=? 57) then Some (n - 48)
  else if (97 <=? n) && (n <=? 102) then Some (n - 87)
  else None.

Fixpoint parseHex (s : string) (acc : Z) : option Z :=
  match s with
  | EmptyString => Some acc
  | String c s => match hexValue c with Some d => parseHex s (acc * 16 + d) | None => None end
  end.

Lemma hexValue_digit d : 0 <= d < 16 → hexValue (Redis.hexDigit d) = Some d.
Proof.
  intros Hd. assert (d ∈ seqZ 0 16) as Hin by (apply elem_of_seqZ; lia). clear Hd. revert d Hin.
  apply Forall_forall. cbn. repeat (constructor; [reflexivity|]). constructor.
Qed.

Lemma parseHex_format fuel n acc :
  0 <= n < 16 ^ Z.of_nat fuel → (0 < fuel)%nat →
  parseHex (Redis.formatHex fuel n acc) 0 = parseHex acc n.
Proof.
  revert n acc. induction fuel as [|fuel IH]; intros n acc Hn Hf; [lia|]. cbn [Redis.formatHex].
  pose proof (Z.mod_pos_bound n 16 ltac:(lia)) as Hm. pose proof (Z.div_mod n 16 ltac:(lia)) as Hdm.
  rewrite Nat2Z.inj_succ, Z.pow_succ_r in Hn by lia.
  destruct (Z.eqb_spec (n / 16) 0) as [H0|H0].
  - cbn [parseHex]. rewrite hexValue_digit by done. f_equal. lia.
  - rewrite IH.
    + cbn [parseHex]. rewrite hexValue_digit by done. f_equal. lia.
    + split; [apply Z.div_pos; lia|apply Z.div_lt_upper_bound; lia].
    + destruct fuel; [|lia]. exfalso. apply H0, Z.div_small. simpl in Hn. lia.
Qed.

Lemma parseHex_FormatUint n : 0 <= n < 2 ^ 64 → parseHex (Redis.FormatUint16 n) 0 = Some n.
Proof. intros Hn. unfold Redis.FormatUint16. by rewrite parseHex_format by (simpl; lia). Qed.

Lemma FormatUint_inj n n' :
  0 <= n < 2 ^ 64 → 0 <= n' < 2 ^ 64 → Redis.FormatUint16 n = Redis.FormatUint16 n' → n = n'.
Proof.
  intros Hn Hn' Heq. apply Some_inj. rewrite <- (parseHex_FormatUint n Hn), <- (parseHex_FormatUint n' Hn').
  by rewrite Heq.
Qed.

(** ** The sorted set as a log *)

Definition times (m : gmap string Z) : list Z := (map_to_list m).*2.

Lemma times_inside window now m :
  times (inside window now m) ≡ₚ SlidingWindow.inWindow window now (times m).
Proof.
  unfold times, inside, SlidingWindow.inWindow. rewrite map_filter_alt, map_to_list_to_map.
  - induction (map_to_list m) as [|[x t] l IH]; [done|]. rewrite fmap_cons, !filter_cons. simpl.
    repeat case_decide; simpl; try lia; by rewrite IH.
  - eapply sublist_NoDup; [apply (NoDup_fst_map_to_list m)|]. apply fmap_sublist, sublist_filter.
Qed.

Lemma times_insert m x t : m !! x = None → times (<[x := t]> m) ≡ₚ times m ++ [t].
Proof. intros Hx. unfold times. rewrite map_to_list_insert by done. rewrite fmap_cons. simpl. apply Permutation_cons_append. Qed.

Lemma times_length m : length (times m) = size m.
Proof. unfold times. by rewrite length_fmap, length_map_to_list. Qed.

Lemma elem_times m t : t ∈ times m ↔ ∃ x, m !! x = Some t.
Proof.
  unfold times. rewrite list_elem_of_fmap. split.
  - intros ([x u] & -> & Hin%elem_of_map_to_list). eauto.
  - intros [x Hx%elem_of_map_to_list]. by exists (x, t).
Qed.

(** ** One call *)

(** A result of the memory limiter run on milliseconds, as a result of this one. *)
Definition inMillis (r : Result) : Result :=
  mkResult (Allowed r) (Remaining r) (RetryAfter r * GoTime.Millisecond).

Lemma granted_inMillis nows rs :
  SlidingWindow.granted nows (inMillis <$> rs) = SlidingWindow.granted nows rs.
Proof.
  revert nows. induction rs as [|r rs IH]; intros [|now nows]; try done. rewrite fmap_cons. cbn [SlidingWindow.granted].
  by rewrite IH.
Qed.

(** A window of at least a millisecond. *)
Lemma windowMs_positive window :
  GoTime.Millisecond <= window <= int64_max → 0 < GoTime.Milliseconds window <= int64_max.
Proof.
  unfold GoTime.Milliseconds, GoTime.Millisecond, int64_max. intros Hw.
  rewrite Z.quot_div_nonneg by lia. split; [apply Z.div_str_pos; lia|apply Z.div_le_upper_bound; lia].
Qed.

Section Window.
Context {W : Type} {client : Redis.RedisClient W} {scripting : Redis.RedisScripting W client}.
Context {server : RedisServer W} {laws : RedisServerLaws W server} {tokenSrc leakySrc windowSrc : string}.
Context {host : ScriptHost client scripting server laws tokenSrc leakySrc windowSrc}.
Implicit Types (w : W) (k : string).

Context (limit : Z) (window : Duration).
Hypothesis Hlimit : 0 < limit < 2 ^ 53.
Hypothesis Hwindow : 0 < window <= int64_max.

Definition windowMs : Z := GoTime.Milliseconds window.

Lemma windowMs_range : 0 <= windowMs ∧ windowMs * GoTime.Millisecond <= window ∧ windowMs < 2 ^ 44.
Proof.
  unfold windowMs, GoTime.Milliseconds, GoTime.Millisecond, int64_max in *. rewrite Z.quot_div_nonneg by lia.
  pose proof (Z.mul_div_le window 1000000 ltac:(lia)). pose proof (Z.div_pos window 1000000 ltac:(lia)).
  split_and!; lia.
Qed.

(** What a call does to the log of its key. *)
Definition window_step (ttl rand : Z) w k (m : gmap string Z) (r : Result) w' : Prop :=
  ∃ m' allowed remaining retry,
    decides limit windowMs (Redis.FormatUint16 rand) (ms w) m m' allowed remaining retry ∧
    r = mkResult allowed remaining (retry * GoTime.Millisecond) ∧ log_at w' k m' ∧ frame k w w' ∧
    (0 < ttl → deadline w' k = Some (ms w + ttl)).

Lemma decides_nonempty member now m m' allowed remaining retry :
  decides limit windowMs member now m m' allowed remaining retry → m' ≠ ∅.
Proof.
  intros (_ & -> & Hret). destruct allowed; [apply insert_non_empty|].
  destruct Hret as (_ & x & o & Ho & _) . intros He. by rewrite He in Ho.
Qed.

(** The log holds nothing from the future. *)
Definition log_past (t : Z) (m : gmap string Z) : Prop := map_Forall (fun _ u => u <= t) m.

Lemma window_allow rand sw w k key m :
  Redis.sw_limit sw = limit → Redis.sw_window sw = window →
  instance windowSrc w k (Redis.sw_base sw) key → clock_ok w → log_at w k m → log_past (ms w) m →
  ∃ r sw', Redis.SlidingWindow_Allow rand sw key = Some ((r, None), sw') ∧
    instance windowSrc (Redis.lim_client (Redis.sw_base sw')) k (Redis.sw_base sw') key ∧
    window_step (Redis.ttlMs (Redis.sw_base sw)) rand w k m r (Redis.lim_client (Redis.sw_base sw')).
Proof.
  intros Hl Hw Hi Hck Hlog Hpast. pose proof windowMs_range as Hwm.
  destruct (ready_data (Redis.lim_script (Redis.sw_base sw)) w) as [Hrc Hrs].
  set (w0 := Redis.ready _ w) in *. assert (ms w0 = ms w) as Hms by (unfold ms; by rewrite Hrc).
  destruct (slidingWindow_executes limit windowMs (Redis.ttlMs (Redis.sw_base sw)) (Redis.FormatUint16 rand)
    Hlimit ltac:(lia) (ttl_small _ (inst_ttl _ _ _ _ _ Hi)) w0 k m)
    as (allowed & remaining & retry & m' & w' & Hlua & Hdec & Hfr & Hlog' & Hdl);
    [unfold clock_ok; by rewrite Hrc|by eapply log_at_frame; [|exact Hlog]; rewrite Hrs|].
  rewrite Hms in Hdec, Hdl.
  destruct (allow_script slidingWindowLua windowSrc w k (Redis.sw_base sw) key _ allowed remaining retry w'
    host_window Hi Hlua) as (l' & Ha & Hi').
  { destruct Hdec as (_ & _ & Hret). destruct allowed; [destruct Hret as [_ ->]; unfold int64_max; lia|].
    destruct Hret as (_ & x & o & Ho & _ & ->). apply map_lookup_filter_Some in Ho as [Ho Hin].
    specialize (Hpast x o Ho). simpl in *. unfold GoTime.Millisecond, int64_max in *. lia. }
  destruct (inst_client _ _ _ _ _ Hi').
  unfold Redis.SlidingWindow_Allow. rewrite Hl, Hw. fold windowMs. rewrite Ha. do 2 eexists.
  split_and!; [done|done|]. exists m', allowed, remaining, retry. split_and!; [done|done|done| |].
  - eapply frame_trans; [by apply frame_same|exact Hfr].
  - intros Hpos. apply Hdl; [done|]. by eapply decides_nonempty.
Qed.

(** The numbers of a call make a well-formed result. *)
Lemma window_step_ok ttl rand w k m r w' :
  log_past (ms w) m → window_step ttl rand w k m r w' → result_ok r ∧ RetryAfter r <= window.
Proof.
  intros Hpast (m' & allowed & remaining & retry & (Ha & _ & Hret) & -> & _). pose proof windowMs_range as Hwm.
  unfold result_ok, GoTime.Millisecond in *. cbn [Allowed Remaining RetryAfter]. destruct allowed.
  - destruct Hret as [-> ->]. symmetry in Ha. apply Z.ltb_lt in Ha. split_and!; [lia|lia|lia|done|lia].
  - destruct Hret as (-> & x & o & Ho & _ & ->). apply map_lookup_filter_Some in Ho as [Ho Hin].
    specialize (Hpast x o Ho). simpl in *. split_and!; [lia|lia|done|done|lia].
Qed.

(** Without entries inside the window the call passes. *)
Lemma window_step_empty ttl rand w k m r w' :
  inside windowMs (ms w) m = ∅ → window_step ttl rand w k m r w' → r = mkResult true (limit - 1) 0.
Proof.
  intros He (m' & allowed & remaining & retry & (Ha & _ & Hret) & -> & _). rewrite He in *.
  rewrite map_size_empty in *. assert (allowed = true) as -> by (rewrite Ha; apply Z.ltb_lt; lia).
  destruct Hret as [-> ->]. f_equal. lia.
Qed.

(** ** Against the memory limiter *)

(** The sorted set holds the same instants as the log of the memory limiter. *)
Record mirrors (last : Z) (m : gmap string Z) (st : SlidingWindow.windowState) : Prop := {
  mirrors_ok : SlidingWindow.window_ok limit last st;
  mirrors_times : times m ≡ₚ SlidingWindow.logs st
}.

Lemma mirrors_past last t m st : mirrors last m st → last <= t → log_past t m.
Proof.
  intros [Hok Ht] Hle x u Hx. assert (u ∈ SlidingWindow.logs st) as Hin by (rewrite <- Ht; apply elem_times; eauto).
  pose proof (SlidingWindow.ok_past _ _ _ Hok) as Hp. rewrite Forall_forall in Hp. specialize (Hp u Hin).
  simpl in Hp. lia.
Qed.

Lemma mirrors_size last m st : mirrors last m st → Z.of_nat (size m) < 2 ^ 53.
Proof. intros [Hok Ht]. pose proof (SlidingWindow.ok_len _ _ _ Hok). rewrite <- times_length, Ht. lia. Qed.

Hypothesis Hmillis : 0 < windowMs.

(** What a decision needs: the entries inside the window agree. *)
Lemma agrees_step last m st now member m' allowed remaining retry :
  SlidingWindow.window_ok limit last st → last <= now →
  times (inside windowMs now m) ≡ₚ SlidingWindow.inWindow windowMs now (SlidingWindow.logs st) →
  inside windowMs now m !! member = None →
  decides limit windowMs member now m m' allowed remaining retry →
  ∃ st', SlidingWindow.recordAndDecide limit windowMs st now = (st', (mkResult allowed remaining retry, None)) ∧
    mirrors now m' st'.
Proof.
  intros Hok Hle Hin Hfresh (Ha & Hm' & Hret). pose proof windowMs_range as Hwm.
  destruct (SlidingWindow.decide_spec limit windowMs ltac:(lia) ltac:(unfold int64_max; lia) last st now Hok Hle)
    as (st' & r & -> & Hok' & Hal & Hlog & Hrem & Hra & Hrd).
  rewrite <- (Permutation_length Hin), times_length in Hal, Hrem. rewrite <- Ha in Hal.
  destruct r as [ra rr rt]. cbn [Allowed Remaining RetryAfter] in *. subst ra rr m'.
  exists st'. destruct allowed.
  - destruct Hret as [-> ->]. rewrite Hra by done. split; [done|]. split; [done|].
    by rewrite Hlog, times_insert, Hin.
  - destruct Hret as (-> & x & o & Ho & Hmin & ->).
    destruct (Hrd eq_refl) as (t & rest & Hl0 & -> & _). rewrite Hl0 in Hin, Hlog.
    assert (o = t) as ->; [|split; [done|]; split; [done|]; by rewrite Hlog].
    assert (o ∈ t :: rest) as Ho' by (rewrite <- Hin; apply elem_times; eauto).
    assert (t ∈ times (inside windowMs now m)) as [x' Hx']%elem_times by (rewrite Hin; by left).
    pose proof (Hmin x' t Hx'). pose proof (SlidingWindow.ok_sorted _ _ _ Hok') as Hs. rewrite Hlog in Hs.
    apply list_elem_of_lookup in Ho' as [i Hi]. pose proof (sorted_lookup _ 0 i t o Hs eq_refl Hi ltac:(lia)). lia.
Qed.

Lemma mirrors_step last m st now member m' allowed remaining retry :
  mirrors last m st → last <= now → inside windowMs now m !! member = None →
  decides limit windowMs member now m m' allowed remaining retry →
  ∃ st', SlidingWindow.recordAndDecide limit windowMs st now = (st', (mkResult allowed remaining retry, None)) ∧
    mirrors now m' st'.
Proof.
  intros [Hok Ht] Hle. apply (agrees_step last); [done|done|].
  rewrite times_inside. unfold SlidingWindow.inWindow. by rewrite Ht.
Qed.

(** An empty log agrees with one whose entries have all left the window. *)
Lemma stale_step last st now member m' allowed remaining retry :
  SlidingWindow.window_ok limit last st → last + windowMs <= now →
  decides limit windowMs member now ∅ m' allowed remaining retry →
  ∃ st', SlidingWindow.recordAndDecide limit windowMs st now = (st', (mkResult allowed remaining retry, None)) ∧
    mirrors now m' st'.
Proof.
  intros Hok Hle. pose proof windowMs_range. apply (agrees_step last); [done|lia| |].
  - unfold inside. rewrite map_filter_empty. unfold SlidingWindow.inWindow. rewrite filter_none; [done|].
    eapply Forall_impl; [apply (SlidingWindow.ok_past _ _ _ Hok)|]. simpl. lia.
  - unfold inside. by rewrite map_filter_empty.
Qed.

(** *** Histories *)

(** A call of [Allow] on some limiter of this limit and window, with the
    random number of the call. *)
Definition windowCall k (rand : Z) w (r : Result) w' : Prop :=
  ∃ sw sw' key, Redis.sw_limit sw = limit ∧ Redis.sw_window sw = window ∧
    instance windowSrc w k (Redis.sw_base sw) key ∧
    Redis.SlidingWindow_Allow rand sw key = Some ((r, None), sw') ∧ Redis.lim_client (Redis.sw_base sw') = w'.

Lemma windowCall_step k rand w r w' m :
  windowCall k rand w r w' → clock_ok w → log_at w k m → log_past (ms w) m →
  ∃ ttl, window_step ttl rand w k m r w'.
Proof.
  intros (sw & sw' & key & Hl & Hw & Hi & Ha & <-) Hck Hlog Hpast.
  destruct (window_allow rand sw w k key m Hl Hw Hi Hck Hlog Hpast) as (r' & sw'' & Ha' & _ & Hst).
  rewrite Ha' in Ha. apply Some_inj, pair_eq in Ha as [[= ->] ->]. eauto.
Qed.

(** Random numbers of a history: 64 bits, and no two alike. *)
Definition salts_ok (rands : list Z) : Prop := NoDup rands ∧ Forall (fun n => 0 <= n < 2 ^ 64) rands.

(** No member of the log is one of the numbers to come. *)
Definition unused (rands : list Z) (m : gmap string Z) : Prop :=
  ∀ n, n ∈ rands → m !! Redis.FormatUint16 n = None.

Lemma unused_step n rands m m' now allowed remaining retry :
  salts_ok (n :: rands) → unused (n :: rands) m →
  decides limit windowMs (Redis.FormatUint16 n) now m m' allowed remaining retry → unused rands m'.
Proof.
  intros [[Hn _]%NoDup_cons [Hr Hrs]%Forall_cons] Hu (_ & -> & _) n' Hn'.
  assert (inside windowMs now m !! Redis.FormatUint16 n' = None) as Hin.
  { apply map_lookup_filter_None. left. apply Hu. by right. }
  destruct allowed; [|done]. rewrite lookup_insert_ne; [done|]. intros Heq. apply Hn.
  rewrite Forall_forall in Hrs. by rewrite (FormatUint_inj n n' Hr (Hrs n' Hn') Heq).
Qed.

Definition salts (es : list (event Z)) : list Z := ev_env <$> es.

(** The results of a history are those of the memory limiter on the same
    instants. *)
Lemma history_mirrors k w es w' m st last :
  history (windowCall k) k w es w' → log_at w k m → mirrors last m st →
  nondecreasing last (instants es) → salts_ok (salts es) → unused (salts es) m →
  results es = inMillis <$> (SlidingWindow.run limit windowMs st (instants es)).2.
Proof.
  intros Hh. revert m st last. induction Hh as [w|w w1 n r w2 es w3 Hs Hc Hst _ IH];
    intros m st last Hlog Hmir Hmono Hsalt Hun; [done|].
  unfold results, instants, salts in *. rewrite fmap_cons in Hmono, Hsalt, Hun. destruct Hmono as [Hle Hmono].
  cbn [ev_env ev_ms] in *. apply (log_at_frame w w1) in Hlog; [|done].
  destruct (windowCall_step k n w1 r w2 m Hst Hc Hlog (mirrors_past _ _ _ _ Hmir Hle))
    as (ttl & m' & allowed & remaining & retry & Hdec & -> & Hlog' & _).
  destruct (mirrors_step last m st (ms w1) (Redis.FormatUint16 n) m' allowed remaining retry Hmir Hle) as (st' & Hd & Hmir');
    [apply map_lookup_filter_None; left; apply Hun; by left|done|].
  pose proof (unused_step _ _ _ _ _ _ _ _ Hsalt Hun Hdec) as Hun'.
  destruct Hsalt as [[_ Hnd]%NoDup_cons [_ Hrs]%Forall_cons].
  rewrite !fmap_cons. cbn [SlidingWindow.run ev_ms ev_result]. rewrite Hd.
  specialize (IH m' st' (ms w1) Hlog' Hmir' Hmono (conj Hnd Hrs) Hun').
  destruct (SlidingWindow.run limit windowMs st' (ev_ms <$> es)) as [st'' rs]. cbn [snd] in *. rewrite fmap_cons.
  by rewrite IH.
Qed.

End Window.

(** ** Property *)

(** C35: the member of a log entry determines the random number of its call:
    reading [strconv.FormatUint(n, 16)] back gives [n], so that two calls with
    different numbers never overwrite each other's entry. *)
Theorem redis_member_roundtrip n n' :
  0 <= n < 2 ^ 64 → 0 <= n' < 2 ^ 64 →
  parseHex (Redis.FormatUint16 n) 0 = Some n ∧
  (Redis.FormatUint16 n = Redis.FormatUint16 n' ↔ n = n').
Proof.
  intros Hn Hn'. split; [by apply parseHex_FormatUint|]. split; [by apply FormatUint_inj|]. by intros ->.
Qed.

Lemma redis_member_roundtrip_witness :
  parseHex (Redis.FormatUint16 (2 ^ 64 - 1)) 0 = Some (2 ^ 64 - 1) ∧
  (Redis.FormatUint16 (2 ^ 64 - 1) = Redis.FormatUint16 255 ↔ 2 ^ 64 - 1 = 255).
Proof. apply redis_member_roundtrip; lia. Defined.

End RedisWindow.
