(* ===== verification/RedisSim.v ===== *)
(** * RedisSim: a server that obeys the laws

    A small Redis: a clock, hashes and sorted sets with expiry, the script
    cache, and the three scripts.  It instantiates every interface that the
    theorems about package redis assume, so their hypotheses can hold, and it
    runs: the witnesses evaluate calls on it. *)

From Stdlib Require Import ZArith Lia Bool Ascii.
From stdpp Require Import base gmap strings list.
From S2P Require Import Prelude Float64 FloatFacts GoTime Core.
From S2P Require Import Redis RedisScripts LuaFacts RedisScriptFacts RedisCalls.

#[local] Open Scope Z_scope.

Module Sim.
Import Scripts LuaFacts ScriptFacts RedisCalls.

(** ** Numbers as strings *)

Definition float_code (x : spec_float) : bool + (bool + (unit + (bool * positive * Z))) :=
  match x with
  | S754_zero s => inl s
  | S754_infinity s => inr (inl s)
  | S754_nan => inr (inr (inl tt))
  | S754_finite s m e => inr (inr (inr (s, m, e)))
  end.
Definition code_float (c : bool + (bool + (unit + (bool * positive * Z)))) : spec_float :=
  match c with
  | inl s => S754_zero s
  | inr (inl s) => S754_infinity s
  | inr (inr (inl _)) => S754_nan
  | inr (inr (inr (s, m, e))) => S754_finite s m e
  end.

Fixpoint bits (p : positive) : string :=
  match p with
  | xH => EmptyString
  | xO p => String "0" (bits p)
  | xI p => String "1" (bits p)
  end.
Fixpoint ofBits (s : string) : positive :=
  match s with
  | EmptyString => xH
  | String c s => if bool_decide (c = "0"%char) then xO (ofBits s) else xI (ofBits s)
  end.

Lemma ofBits_bits p : ofBits (bits p) = p.
Proof. induction p as [p IH|p IH|]; cbn; by rewrite ?IH. Qed.

Definition showFloat (x : spec_float) : string := bits (encode (float_code x)).
Definition readFloat (s : string) : option spec_float := code_float <$> decode (ofBits s).

Lemma readFloat_show x : readFloat (showFloat x) = Some x.
Proof. unfold readFloat, showFloat. rewrite ofBits_bits, decode_encode. by destruct x. Qed.

(** ** The state and the commands *)

Record state := mkState {
  now_us : Z;
  data : gmap string rvalue;
  expiry : gmap string Z;
  scripts : list string
}.

Definition value (w : state) (k : string) : rvalue := default VNone (data w !! k).

Definition put (w : state) (k : string) (v : rvalue) : state :=
  mkState (now_us w) (<[k := v]> (data w)) (expiry w) (scripts w).

Definition expire (w : state) (k : string) (z : Z) : state :=
  mkState (now_us w) (data w) (<[k := now_us w / 1000 + z]> (expiry w)) (scripts w).

Definition wrongType : reply + string := inr "WRONGTYPE Operation against a key holding the wrong kind of value".
Definition badCommand : reply + string := inr "ERR unknown command or arguments".

(** An entry with the smallest score. *)
Fixpoint smallest (l : list (string * spec_float)) : option (string * spec_float) :=
  match l with
  | [] => None
  | p :: l =>
      match smallest l with
      | None => Some p
      | Some q => if F64.le p.2 q.2 then Some p else Some q
      end
  end.

Definition onHash (w : state) (k : string) (f : gmap string string → (reply + string) * state)
    : (reply + string) * state :=
  match hash_of (value w k) with Some h => f h | None => (wrongType, w) end.
Definition onZset (w : state) (k : string) (f : gmap string spec_float → (reply + string) * state)
    : (reply + string) * state :=
  match zset_of (value w k) with Some z => f z | None => (wrongType, w) end.

Definition command (w : state) (args : list string) : (reply + string) * state :=
  match args with
  | [c] =>
      if String.eqb c "TIME" then
        (inl (RArray [RString (showFloat (F64.of_int (now_us w / 1000000)));
                      RString (showFloat (F64.of_int (now_us w mod 1000000)))]), w)
      else (badCommand, w)
  | [c; k] =>
      if String.eqb c "ZCARD" then onZset w k (fun z => (inl (RInt (Z.of_nat (size z))), w))
      else (badCommand, w)
  | [c; k; a] =>
      if String.eqb c "PEXPIRE" then
        match readFloat a with
        | Some x => (inl (RInt 1), match value w k with VNone => w | _ => expire w k (F64.trunc x) end)
        | None => (badCommand, w)
        end
      else (badCommand, w)
  | [c; k; a; b] =>
      if String.eqb c "HMGET" then
        onHash w k (fun h => (inl (RArray [opt_reply (h !! a); opt_reply (h !! b)]), w))
      else if String.eqb c "ZREMRANGEBYSCORE" then
        onZset w k (fun z =>
          match readFloat b with
          | Some x => (inl (RInt 0), put w k (VZset (filter (fun p => F64.le p.2 x = false) z)))
          | None => (badCommand, w)
          end)
      else if String.eqb c "ZADD" then
        onZset w k (fun z =>
          match readFloat a with
          | Some x => (inl (RInt 1), put w k (VZset (<[b := x]> z)))
          | None => (badCommand, w)
          end)
      else (badCommand, w)
  | [c; k; _; _; _] =>
      if String.eqb c "ZRANGE" then
        onZset w k (fun z =>
          (inl (RArray match smallest (map_to_list z) with
                       | Some (m, x) => [RString m; RString (showFloat x)]
                       | None => []
                       end), w))
      else (badCommand, w)
  | [c; k; f1; v1; f2; v2] =>
      if String.eqb c "HSET" then
        onHash w k (fun h => (inl (RInt 2), put w k (VHash (<[f2 := v2]> (<[f1 := v1]> h)))))
      else (badCommand, w)
  | _ => (badCommand, w)
  end.

#[export] Instance simServer : RedisServer state := {|
  redis_call := command;
  tonumber := readFloat;
  tostring := showFloat;
  integer := F64.trunc;
  formatArg a :=
    match a with
    | ArgFloat x => showFloat x
    | ArgInt z => showFloat (F64.of_int z)
    | ArgString s => s
    end
|}.

Lemma smallest_spec l :
  l ≠ [] → Forall (fun p => fin p.2) l →
  ∃ p, smallest l = Some p ∧ p ∈ l ∧ Forall (fun q => fval p.2 <= fval q.2) l.
Proof.
  induction l as [|p l IH]; [done|]. intros _ [Hp Hl]%Forall_cons. cbn [smallest].
  destruct l as [|q l']; [exists p; cbn [smallest]; split_and!; [done|by left|]; repeat constructor; lia|].
  destruct IH as (q0 & -> & Hin & Hmin); [done|done|].
  assert (fin q0.2) as Hq by (rewrite Forall_forall in Hl; by apply Hl).
  destruct (F64.le p.2 q0.2) eqn:Hle.
  - exists p. split_and!; [done|by left|]. apply le_fval in Hle; [|fin_side..]. constructor; [lia|].
    eapply Forall_impl; [exact Hmin|]. simpl. intros r Hr. lia.
  - exists q0. split_and!; [done|by right|]. apply le_false_fval in Hle; [|fin_side..]. constructor; [lia|done].
Qed.

Lemma value_put w k v k' : value (put w k v) k' = if bool_decide (k' = k) then v else value w k'.
Proof.
  unfold value, put. cbn [data]. case_bool_decide as Hk; [subst; by rewrite lookup_insert_eq|].
  by rewrite lookup_insert_ne.
Qed.

Lemma value_put_eq w k v : value (put w k v) k = v.
Proof. rewrite value_put. by rewrite bool_decide_true. Qed.
Lemma value_put_ne w k v k' : k' ≠ k → value (put w k v) k' = value w k'.
Proof. intros. rewrite value_put. by rewrite bool_decide_false. Qed.

Lemma hash_command w k h f : hash_of (value w k) = Some h → onHash w k f = f h.
Proof. unfold onHash. by intros ->. Qed.
Lemma zset_command w k z f : zset_of (value w k) = Some z → onZset w k f = f z.
Proof. unfold onZset. by intros ->. Qed.

#[export] Instance simLaws : RedisServerLaws state simServer.
Proof.
  refine {| clock := now_us; stored := value; deadline w k := expiry w !! k |}; cbn [redis_call tonumber tostring simServer].
  - intros x _. apply readFloat_show.
  - done.
  - intros x _. apply readFloat_show.
  - intros z _. apply readFloat_show.
  - done.
  - intros w. do 3 eexists. split_and!; [reflexivity|apply readFloat_show|apply readFloat_show|done|done].
  - intros w k f1 f2 h Hh. exists w. cbn. by rewrite (hash_command _ _ h).
  - intros w k f1 v1 f2 v2 h Hh. do 2 eexists. cbn. rewrite (hash_command _ _ h) by done.
    split_and!; [done|done|apply value_put_eq|intros; by apply value_put_ne].
  - intros w k z Hz. do 2 eexists. cbn. rewrite readFloat_show. split_and!; [done|by destruct (value w k)| |].
    + by destruct (value w k).
    + rewrite (trunc_int _ z (holdsZ_of_int z ltac:(lia))) by lia.
      destruct (value w k); intros; cbn; try done; apply lookup_insert_eq.
  - intros w k x z Hz Hx. do 2 eexists. cbn. rewrite (zset_command _ _ z) by done. rewrite readFloat_show.
    split_and!; [done|done|by rewrite value_put_eq|intros; by apply value_put_ne].
  - intros w k z Hz. exists w. cbn. by rewrite (zset_command _ _ z).
  - intros w k x m z Hz Hx. do 2 eexists. cbn. rewrite (zset_command _ _ z) by done. rewrite readFloat_show.
    split_and!; [done|done|by rewrite value_put_eq|intros; by apply value_put_ne].
  - intros w k z Hz Hne Hfin. cbn. rewrite (zset_command _ _ z) by done.
    destruct (smallest_spec (map_to_list z)) as ([m x] & -> & Hin & Hmin).
    { intros Hnil. apply Hne. by apply map_to_list_empty_iff. }
    { apply Forall_forall. intros [m x] Hin%elem_of_map_to_list. by apply (Hfin m). }
    exists m, x, (showFloat x), w. split_and!; [done|by apply elem_of_map_to_list|apply readFloat_show| |done|done].
    intros m' y Hy%elem_of_map_to_list. rewrite Forall_forall in Hmin. apply (Hmin _ Hy).
Defined.

(** ** Time *)

(** The key has no deadline, or one after the instant. *)
Definition alive (w : state) (us : Z) (k : string) : bool :=
  match expiry w !! k with Some t => us / 1000 <? t | None => true end.

Definition advance (w : state) (d : Z) : state :=
  mkState (now_us w + d) (filter (fun p => alive w (now_us w + d) p.1 = true) (data w)) (expiry w) (scripts w).

#[export] Instance simExpiry : RedisExpiry state simServer simLaws.
Proof.
  refine {| pass := advance |}; [done|]. intros w d k _. cbn. unfold value, advance. cbn [data].
  rewrite map_lookup_filter. unfold alive.
  destruct (data w !! k) as [v|]; cbn; [|by destruct (expiry w !! k); [case_match|]].
  destruct (expiry w !! k) as [t|]; cbn; [|done].
  rewrite Z.leb_antisym. by destruct (Z.ltb_spec ((now_us w + d) / 1000) t).
Defined.

(** ** Scripts *)

(** The bodies under which the three scripts are known. *)
Definition tokenSrc : string := "token_bucket.lua".
Definition leakySrc : string := "leaky_bucket.lua".
Definition windowSrc : string := "sliding_window_log.lua".

Definition interpret (w : state) (body : string) (keys : list string) (args : list scriptArg)
    : (reply + string) * state :=
  let argv := formatArg <$> args in
  if String.eqb body tokenSrc then tokenBucketLua keys argv w
  else if String.eqb body leakySrc then leakyBucketLua keys argv w
  else if String.eqb body windowSrc then slidingWindowLua keys argv w
  else (inr "ERR script", w).

Definition learn (w : state) (body : string) : state :=
  mkState (now_us w) (data w) (expiry w) (body :: scripts w).

Definition noScript : reply + string := inr "NOSCRIPT No matching script".

#[export] Instance simClient : Redis.RedisClient state := {|
  Redis.ScriptLoad w body := (inl (String "d" body), learn w body);
  Redis.EvalSha w sha keys args :=
    match sha with
    | EmptyString => (noScript, w)
    | String _ body =>
        if bool_decide (body ∈ scripts w) then interpret w body keys args else (noScript, w)
    end
|}.

(** No error of a script looks like a missing script. *)
Definition tame {A} (m : M state A) : Prop :=
  ∀ w msg w', m w = (inr msg, w') → Redis.isNoScriptErr msg = false.

Lemma tame_ret {A} (a : A) : tame (ret a).
Proof. done. Qed.
Lemma tame_raise {A} msg : Redis.isNoScriptErr msg = false → tame (raise (A := A) msg).
Proof. intros H w msg' w' [= <- _]. done. Qed.
Lemma tame_bind {A B} (m : M state A) (f : A → M state B) : tame m → (∀ a, tame (f a)) → tame (bind m f).
Proof.
  intros Hm Hf w msg w'. unfold bind. destruct (m w) as [[a|msg'] w1] eqn:E; [apply Hf|].
  intros [= <- _]. by eapply Hm.
Qed.
Lemma tame_need x : tame (need x).
Proof. destruct x; [apply tame_ret|by apply tame_raise]. Qed.
Lemma tame_needString x : tame (needString x).
Proof. destruct x; [apply tame_ret|by apply tame_raise]. Qed.
Lemma tame_call args : tame (call args).
Proof.
  intros w msg w'. unfold call. cbn [redis_call simServer]. unfold command, onHash, onZset, badCommand, wrongType.
  repeat case_match; intros [= <- _]; reflexivity.
Qed.

Create HintDb tame.
#[local] Hint Resolve tame_ret tame_bind tame_need tame_needString tame_call : tame.

Ltac tame_script :=
  repeat first
    [ progress auto with tame
    | apply tame_bind; [|intros]
    | case_match ].

Lemma tame_now : tame nowMs.
Proof. unfold nowMs. tame_script. Qed.
Lemma tame_expire k t : tame (expireKey k t).
Proof. unfold expireKey. tame_script. Qed.
Lemma tame_load k lf tf i n : tame (loadState k lf tf i n).
Proof. unfold loadState. tame_script. Qed.
#[local] Hint Resolve tame_now tame_expire tame_load : tame.

Lemma tame_token keys args : tame (tokenBucketLua keys args).
Proof. unfold tokenBucketLua, theKey. tame_script. Qed.
Lemma tame_leaky keys args : tame (leakyBucketLua keys args).
Proof. unfold leakyBucketLua, theKey. tame_script. Qed.
Lemma tame_window keys args : tame (slidingWindowLua keys args).
Proof. unfold slidingWindowLua, theKey. tame_script. Qed.

#[export] Instance simScripting : Redis.RedisScripting state simClient.
Proof.
  refine {|
    Redis.digest body := String "d" body;
    Redis.cached w body := bool_decide (body ∈ scripts w);
    Redis.remember := learn;
    Redis.execute := interpret
  |}.
  - done.
  - done.
  - intros w body. apply bool_decide_true. by left.
  - intros w body keys args Hc. cbn. by rewrite Hc.
  - intros w body keys args Hc. cbn. rewrite Hc. by eexists.
  - intros w body keys args msg w'. unfold interpret. repeat case_match;
      [apply tame_token|apply tame_leaky|apply tame_window|by intros [= <- _]].
Defined.

#[export] Instance simHost : ScriptHost simClient simScripting simServer simLaws tokenSrc leakySrc windowSrc.
Proof. constructor; done. Defined.

(** An empty server, at one second past the epoch, and limiters connected to
    it. *)
Definition empty : state := mkState 1000000 ∅ ∅ [].

End Sim.
