(* ===== verification/RedisProps.v ===== *)
(** * RedisProps: the properties of the Redis limiters

    Theorems about whole histories of calls on one key, by any number of
    limiters that share a server, and their witnesses on the simulated
    server. *)

From Stdlib Require Import ZArith Lia Bool.
From stdpp Require Import base gmap strings list.
From S2P Require Import Prelude Float64 FloatFacts GoTime Core GoString Numeric SlidingWindow.
From S2P Require Import Redis RedisScripts LuaFacts RedisScriptFacts RedisCalls RedisWindow RedisSim.

#[local] Open Scope Z_scope.

Module RedisProps.
Import Scripts LuaFacts ScriptFacts RedisCalls RedisWindow.

Section Props.
Context {W : Type} {client : Redis.RedisClient W} {scripting : Redis.RedisScripting W client}.
Context {server : RedisServer W} {laws : RedisServerLaws W server} {tokenSrc leakySrc windowSrc : string}.
Context {host : ScriptHost client scripting server laws tokenSrc leakySrc windowSrc}.
Implicit Types (w : W) (k : string).

(** What a call must do, as seen by the caller and the server: return a
    well-formed result and no error, leave the limiter ready for the next
    call, touch no other key, and leave a well-formed value under its own. *)
Definition answers {S} (body : string) w k key (base : S → Redis.limiter W) (wf : W → Prop)
    (out : option ((Result * option error) * S)) : Prop :=
  ∃ r s, out = Some ((r, None), s) ∧ result_ok r ∧
    instance body (Redis.lim_client (base s)) k (base s) key ∧
    frame k w (Redis.lim_client (base s)) ∧ wf (Redis.lim_client (base s)).

(** A well-formed bucket, or none. *)
Definition bucket_wf (lf tf : string) (capacity : spec_float) k w : Prop :=
  ∃ v, bucket_at lf tf w k v ∧ level_ok capacity v.

(** A well-formed log, or none. *)
Definition log_wf k w : Prop := ∃ m, log_at w k m ∧ log_past (ms w) m.

Definition rates_ok (capacity rate : spec_float) : Prop :=
  Numeric.params_ok capacity rate ∧ fval capacity < 2 ^ 53 * unit_sc ∧ unit_sc <= fval rate * 10 ^ 9.

Lemma bucket_step_wf lf tf initial whole room capacity rate ttl w k v r w' :
  bucket_step lf tf initial whole room capacity rate ttl w k v r w' →
  result_ok r ∧ frame k w w' ∧ bucket_wf lf tf capacity k w'.
Proof. intros (level' & Hb & Hl & Hr & _ & _ & Hf & _). split_and!; [done|done|]. by eexists. Qed.

Lemma window_step_wf limit window ttl rand w k m r w' :
  log_past (ms w) m → window_step limit window ttl rand w k m r w' → log_wf k w'.
Proof.
  intros Hp (m' & allowed & remaining & retry & (_ & -> & _) & _ & Hlog & [Hc _] & _). eexists. split; [exact Hlog|].
  assert (ms w' = ms w) as -> by (unfold ms; by rewrite Hc).
  assert (log_past (ms w) (inside (windowMs window) (ms w) m)) as Hin.
  { intros x t [Hx _]%map_lookup_filter_Some. by apply (Hp x). }
  destruct allowed; [|done]. apply map_Forall_insert_2; [lia|done].
Qed.

(** C7: quota of the distributed token bucket.  Any number of limiters of one
    capacity and rate, in any number of processes, call [Allow] on one key of
    a server, in any order; between two calls anything may happen that keeps
    the key, and the server's clock may go back.  If the key starts absent,
    every result is well-formed, and at most [capacity + rate * elapsed] of
    the calls pass, where [elapsed] is the time from the first call to the
    latest time seen, up to the rounding of Lua's float operations: a factor
    [1 + 3 * 2^-52] on the accrual, and per call [3 * capacity * 2^-52] tokens
    plus four times the smallest float. *)
Theorem redis_token_bucket_quota capacity rate k w es w' :
  Numeric.params_ok capacity rate → fval capacity < 2 ^ 53 * unit_sc → unit_sc <= fval rate * 10 ^ 9 →
  history (tokenCall (tokenSrc := tokenSrc) capacity rate k) k w es w' → stored w k = VNone →
  Forall result_ok (results es) ∧
  ∀ first rest, instants es = first :: rest →
    allowed_count (results es) * unit_sc * 2 ^ 52 * 1000
      <= fval capacity * 2 ^ 52 * 1000 + (latest first rest - first) * fval rate * (2 ^ 52 + 3)
         + Z.of_nat (length es) * step_error capacity * 1000.
Proof.
  intros Hp Hcap Hrate Hh Hn. pose proof Hp as (Hf & H1 & _). pose proof unit_sc_pos.
  eapply (history_quota capacity rate k "tokens" "last_refilled_ms" capacity (fun _ => True) fval); [lia| |exact Hh|done|done|lia|done].
  intros. eapply tokenCall_step; done.
Qed.

(** Quota of the distributed leaky bucket, under the same conditions and
    with the same bound. *)
Theorem redis_leaky_bucket_quota capacity rate k w es w' :
  Numeric.params_ok capacity rate → fval capacity < 2 ^ 53 * unit_sc → unit_sc <= fval rate * 10 ^ 9 →
  history (leakyCall (leakySrc := leakySrc) capacity rate k) k w es w' → stored w k = VNone →
  Forall result_ok (results es) ∧
  ∀ first rest, instants es = first :: rest →
    allowed_count (results es) * unit_sc * 2 ^ 52 * 1000
      <= fval capacity * 2 ^ 52 * 1000 + (latest first rest - first) * fval rate * (2 ^ 52 + 3)
         + Z.of_nat (length es) * step_error capacity * 1000.
Proof.
  intros Hp Hcap Hrate Hh Hn. pose proof Hp as (Hf & H1 & _). pose proof unit_sc_pos.
  destruct (of_int_exact 0) as [H0f H0v]; [lia|].
  eapply (history_quota capacity rate k "water" "last_leak_ms" (F64.of_int 0) whole_drops (fun l => fval capacity - fval l));
    [lia| |exact Hh|done|done|lia|lia].
  intros. eapply leakyCall_step; done.
Qed.

(** C20: bursts.  Of the calls that the server serves within one millisecond, on
    a key that starts absent, a distributed token bucket and a distributed
    leaky bucket let through exactly the first [floor capacity], with
    [Remaining] counting down to zero, and deny all the others. *)
Theorem redis_bucket_burst capacity rate k w es w' t i e :
  Numeric.params_ok capacity rate → fval capacity < 2 ^ 53 * unit_sc → unit_sc <= fval rate * 10 ^ 9 →
  history (tokenCall (tokenSrc := tokenSrc) capacity rate k) k w es w' ∨
    history (leakyCall (leakySrc := leakySrc) capacity rate k) k w es w' →
  stored w k = VNone → Forall (fun u => u = t) (instants es) → es !! i = Some e →
  let n := fval capacity / unit_sc in
  Allowed (ev_result e) = (Z.of_nat i <? n) ∧
  (Allowed (ev_result e) = true → Remaining (ev_result e) = n - 1 - Z.of_nat i).
Proof.
  intros Hp Hcap Hrate Hh Hn Ht Hi n. pose proof Hp as (Hf & H1 & _). pose proof unit_sc_pos. destruct Hh as [Hh|Hh].
  - eapply (burst_books capacity rate k "tokens" "last_refilled_ms" capacity (fun _ => True) fval _ ltac:(lia)
      (fun e w r w' v => tokenCall_step capacity rate Hp Hcap Hrate k e w r w' v) w es w' None t i e);
      [lia|done|by apply bucket_none|done..].
  - destruct (of_int_exact 0) as [H0f H0v]; [lia|].
    assert (n = (fval capacity - fval (F64.of_int 0)) / unit_sc) as -> by (unfold n; f_equal; lia).
    eapply (burst_books capacity rate k "water" "last_leak_ms" (F64.of_int 0) whole_drops
      (fun l => fval capacity - fval l) _ ltac:(lia)
      (fun e w r w' v => leakyCall_step capacity rate Hp Hcap Hrate k e w r w' v) w es w' None t i e);
      [lia|done|by apply bucket_none|done|done|exists 0; split; [lia|exact H0v]|done..].
Qed.

(** A history of window calls, against the in-memory decision. *)
Lemma history_window limit window k w es w' t0 :
  0 < limit < 2 ^ 53 → GoTime.Millisecond <= window <= int64_max →
  history (windowCall (windowSrc := windowSrc) limit window k) k w es w' → stored w k = VNone →
  nondecreasing t0 (instants es) → salts_ok (salts es) →
  results es =
    inMillis <$> (SlidingWindow.run limit (GoTime.Milliseconds window) (SlidingWindow.newWindow t0) (instants es)).2 ∧
  ∀ a, Z.of_nat (length (SlidingWindow.within (GoTime.Milliseconds window) a
    (SlidingWindow.granted (instants es) (results es)))) <= limit.
Proof.
  intros Hl Hw Hh Hn Hm Hs. pose proof (windowMs_positive window Hw) as Hwm.
  fold (windowMs window) in *. unfold GoTime.Millisecond in Hw.
  assert (results es = inMillis <$> (SlidingWindow.run limit (windowMs window) (SlidingWindow.newWindow t0) (instants es)).2) as Hr.
  { eapply (history_mirrors limit window Hl ltac:(lia) ltac:(lia) k w es w' ∅); try done.
    - split; [by rewrite map_size_empty|]. exists ∅. rewrite Hn. split; [done|]. apply map_Forall2_empty.
    - split; [apply SlidingWindow.newWindow_ok; lia|]. done. }
  split; [done|]. intros a. rewrite Hr, granted_inMillis.
  eapply (SlidingWindow.window_run_quota limit (windowMs window) ltac:(lia) ltac:(lia) [] t0);
    [by apply SlidingWindow.newWindow_tracks; lia|done|simpl; lia].
Qed.

(** C8: the distributed sliding window decides as the in-memory one.  In any
    history of calls on a key that starts absent, by any number of limiters of
    one limit and window (at least one millisecond), while the server's clock
    does not go back and the random members do not repeat, the results are
    those of the in-memory decision on the same instants in milliseconds;
    and no interval of the length of the window (in whole milliseconds) holds
    more than [limit] allowed calls. *)
Theorem redis_sliding_window_matches_memory limit window k w es w' t0 :
  0 < limit < 2 ^ 53 → GoTime.Millisecond <= window <= int64_max →
  history (windowCall (windowSrc := windowSrc) limit window k) k w es w' → stored w k = VNone →
  nondecreasing t0 (instants es) → salts_ok (salts es) →
  results es =
    inMillis <$> (SlidingWindow.run limit (GoTime.Milliseconds window) (SlidingWindow.newWindow t0) (instants es)).2 ∧
  ∀ a, Z.of_nat (length (SlidingWindow.within (GoTime.Milliseconds window) a
    (SlidingWindow.granted (instants es) (results es)))) <= limit.
Proof. apply history_window. Qed.

(** C16: the Redis limiters and their scripts are total and well-typed.  On a
    server that holds a well-formed value under the key, or none, [Allow] of
    each of the three limiters (with a cached SHA or without, with the script
    in the server's cache or not) returns no error and a well-formed result:
    the script never stops on a [nil], never gets a WRONGTYPE, and its reply
    decodes.  The value under the key stays well-formed, no other key
    changes, and the limiter can be called again. *)
Theorem redis_calls_well_typed w k key :
  clock_ok w →
  (∀ tb : Redis.TokenBucket W, rates_ok (Redis.tb_capacity tb) (Redis.tb_rate tb) →
     instance tokenSrc w k (Redis.tb_base tb) key →
     bucket_wf "tokens" "last_refilled_ms" (Redis.tb_capacity tb) k w →
     answers tokenSrc w k key Redis.tb_base (bucket_wf "tokens" "last_refilled_ms" (Redis.tb_capacity tb) k)
       (Redis.TokenBucket_Allow tt tb key)) ∧
  (∀ lb : Redis.LeakyBucket W, rates_ok (Redis.lb_capacity lb) (Redis.lb_rate lb) →
     instance leakySrc w k (Redis.lb_base lb) key →
     bucket_wf "water" "last_leak_ms" (Redis.lb_capacity lb) k w →
     answers leakySrc w k key Redis.lb_base (bucket_wf "water" "last_leak_ms" (Redis.lb_capacity lb) k)
       (Redis.LeakyBucket_Allow tt lb key)) ∧
  (∀ (sw : Redis.SlidingWindow W) rand, 0 < Redis.sw_limit sw < 2 ^ 53 → 0 < Redis.sw_window sw <= int64_max →
     instance windowSrc w k (Redis.sw_base sw) key → log_wf k w →
     answers windowSrc w k key Redis.sw_base (log_wf k) (Redis.SlidingWindow_Allow rand sw key)).
Proof.
  intros Hc. split_and!.
  - intros tb (Hp & Hcap & Hrate) Hi (v & Hb & Hl).
    destruct (token_allow _ _ Hp Hcap Hrate tb w k key v eq_refl eq_refl Hi Hc Hb Hl) as (r & tb' & Ha & Hi' & Hst).
    apply bucket_step_wf in Hst as (Hr & Hf & Hw). exists r, tb'. done.
  - intros lb (Hp & Hcap & Hrate) Hi (v & Hb & Hl).
    destruct (leaky_allow _ _ Hp Hcap Hrate lb w k key v eq_refl eq_refl Hi Hc Hb Hl) as (r & lb' & Ha & Hi' & Hst).
    apply bucket_step_wf in Hst as (Hr & Hf & Hw). exists r, lb'. done.
  - intros sw rand Hl Hw Hi (m & Hlog & Hp).
    destruct (window_allow _ _ Hl Hw rand sw w k key m eq_refl eq_refl Hi Hc Hlog Hp) as (r & sw' & Ha & Hi' & Hst).
    destruct (window_step_ok _ _ Hw _ _ _ _ _ _ _ Hp Hst) as [Hr _].
    pose proof (window_step_wf _ _ _ _ _ _ _ _ _ Hp Hst) as Hwf.
    destruct Hst as (m' & ? & ? & ? & _ & _ & _ & Hf & _). exists r, sw'. done.
Qed.

(** C36: a window below one millisecond limits nothing.  The constructor accepts
    it, but [Allow] sends the window in whole milliseconds, which is zero: the
    script removes every entry, and every call passes with [limit - 1]
    remaining. *)
Theorem redis_window_submillisecond (sw : Redis.SlidingWindow W) rand w k key :
  0 < Redis.sw_limit sw < 2 ^ 53 → 0 < Redis.sw_window sw < GoTime.Millisecond →
  instance windowSrc w k (Redis.sw_base sw) key → clock_ok w → log_wf k w →
  ∃ sw', Redis.SlidingWindow_Allow rand sw key = Some ((mkResult true (Redis.sw_limit sw - 1) 0, None), sw').
Proof.
  intros Hl Hw Hi Hc (m & Hlog & Hp). unfold GoTime.Millisecond in Hw.
  destruct (window_allow (Redis.sw_limit sw) (Redis.sw_window sw) Hl ltac:(unfold int64_max; lia) rand sw w k key m eq_refl eq_refl Hi Hc Hlog Hp)
    as (r & sw' & Ha & Hi' & Hst).
  exists sw'. rewrite Ha. rewrite (window_step_empty _ _ Hl _ _ _ _ m r _) with (2 := Hst); [done|].
  assert (windowMs (Redis.sw_window sw) = 0) as -> by (apply Z.quot_small; unfold GoTime.Millisecond; lia).
  apply map_empty. intros x. apply map_lookup_filter_None. right. intros t Ht. specialize (Hp x t Ht). simpl in *. lia.
Qed.

(** C37: the lifetime of a key.  After a call at [ms w] with a positive TTL the
    server keeps the log until [ms w + ttl], and from then on the next call
    finds no log and passes with [limit - 1] remaining, whatever the length of
    the window: with a window longer than the TTL (30 minutes by default) more
    than [limit] requests pass inside one window. *)
Theorem redis_window_lifetime {expiry : RedisExpiry W server laws} (sw sw' : Redis.SlidingWindow W)
    rand w k key r d :
  0 < Redis.sw_limit sw < 2 ^ 53 → 0 < Redis.sw_window sw <= int64_max →
  instance windowSrc w k (Redis.sw_base sw) key → clock_ok w → log_wf k w →
  Redis.SlidingWindow_Allow rand sw key = Some ((r, None), sw') →
  0 < Redis.ttlMs (Redis.sw_base sw) → 0 <= d → clock w + d < 2 ^ 60 →
  let w' := Redis.lim_client (Redis.sw_base sw') in
  let gone := ms w + Redis.ttlMs (Redis.sw_base sw) <=? (clock w + d) / 1000 in
  (gone = false → stored (pass w' d) k = stored w' k) ∧
  (gone = true → ∀ sw2 rand2, Redis.sw_limit sw2 = Redis.sw_limit sw → Redis.sw_window sw2 = Redis.sw_window sw →
    instance windowSrc (pass w' d) k (Redis.sw_base sw2) key →
    ∃ sw3, Redis.SlidingWindow_Allow rand2 sw2 key = Some ((mkResult true (Redis.sw_limit sw - 1) 0, None), sw3)).
Proof.
  intros Hl Hw Hi Hc (m & Hlog & Hp) Ha Httl Hd Hck w' gone.
  destruct (window_allow _ _ Hl Hw rand sw w k key m eq_refl eq_refl Hi Hc Hlog Hp) as (r' & sw'' & Ha' & _ & Hst).
  rewrite Ha' in Ha. apply Some_inj, pair_eq in Ha as [[= ->] ->]. fold w' in Hst.
  destruct Hst as (m' & ? & ? & ? & _ & _ & _ & [Hcw _] & Hdl). specialize (Hdl Httl).
  pose proof (pass_stored w' d k Hd) as Hs. rewrite Hdl, Hcw in Hs. fold gone in Hs.
  destruct gone; (split; [done|]); [intros _|done].
  intros sw2 rand2 Hl2 Hw2 Hi2. rewrite <- Hl2, <- Hw2 in *.
  assert (log_at (pass w' d) k ∅) as Hlog2.
  { split; [by rewrite map_size_empty|]. exists ∅. rewrite Hs. split; [done|]. apply map_Forall2_empty. }
  destruct (window_allow _ _ Hl Hw rand2 sw2 (pass w' d) k key ∅ eq_refl eq_refl Hi2) as (r2 & sw3 & Ha2 & _ & Hst2);
    [|done|apply map_Forall_empty|].
  { unfold clock_ok in *. rewrite pass_clock by done. rewrite Hcw. lia. }
  exists sw3. rewrite Ha2. rewrite (window_step_empty _ _ Hl _ _ _ _ _ _ _) with (2 := Hst2); done.
Qed.

(** C38: [RetryAfter] wraps around.  The constructors accept any positive rate,
    but the delay is computed as [retryMs * time.Millisecond] in 64 bits.  On a
    server that obeys the laws, for every rate of less than one token per
    9.3 * 10^9 seconds (down to one per 10^12) and a bucket that holds at most
    1/256 of a token and was updated in the last 10^8 ms, the request is denied
    without an error after a delay that is out of the range of a duration: the
    result carries it modulo [2^64], which is a negative [RetryAfter] for every
    rate of at least one token per 1.8 * 10^10 seconds. *)
Theorem redis_retry_overflow tb w k key level last :
  Numeric.params_ok (Redis.tb_capacity tb) (Redis.tb_rate tb) → fval (Redis.tb_capacity tb) <= 2 ^ 40 * unit_sc →
  fval (Redis.tb_rate tb) * (93 * 10 ^ 8) <= unit_sc <= fval (Redis.tb_rate tb) * 10 ^ 12 →
  instance tokenSrc w k (Redis.tb_base tb) key → clock_ok w →
  bucket_at "tokens" "last_refilled_ms" w k (Some (level, last)) →
  0 <= 256 * fval level <= unit_sc → ms w - last <= 10 ^ 8 →
  ∃ r tb' retryMs, Redis.TokenBucket_Allow tt tb key = Some ((r, None), tb') ∧
    Allowed r = false ∧ Remaining r = 0 ∧
    int64_max < retryMs * GoTime.Millisecond ∧ RetryAfter r = Redis.wrap64 (retryMs * GoTime.Millisecond) ∧
    (unit_sc <= fval (Redis.tb_rate tb) * (18 * 10 ^ 9) → RetryAfter r < 0).
Proof.
  intros Hp Hc Hs Hi Hck Hb Hl Hlast. pose proof unit_sc_pos.
  destruct (token_allow_slow (Redis.tb_capacity tb) (Redis.tb_rate tb) Hp ltac:(lia) tb w k key level last
    Hs Hc eq_refl eq_refl Hi Hck Hb Hl Hlast) as (retryMs & tb' & [Hlong Hup] & Ha & _).
  do 2 eexists. exists retryMs. split; [exact Ha|]. cbn [Allowed Remaining RetryAfter].
  unfold GoTime.Millisecond, int64_max. split_and!; [done|done|lia|done|]. intros Hneg.
  specialize (Hup (18 * 10 ^ 9) ltac:(lia) Hneg). apply wrap64_negative. lia.
Qed.

End Props.

(** ** Witnesses *)

Import Sim.

Definition simBase (w : state) (src : string) (opts : list Redis.Option) : Redis.limiter state :=
  Redis.newLimiter w (Redis.NewScript "script" src) opts.

Lemma sim_instance w src key :
  Redis.validateKey key = None → instance src w ("kaka:" +:+ key) (simBase w src []) key.
Proof. intros Hk. constructor; [done|by left|done|done|done|]. split; vm_compute; discriminate. Qed.

(** Three calls on a token bucket of capacity two that gains one token per
    second: two at once, and one half a second later. *)
Definition tokenAt (w : state) : Redis.TokenBucket state :=
  Redis.mkTokenBucket (simBase w tokenSrc []) (F64.of_int 2) (F64.of_int 1).
Definition tokenAfter (w : state) : Redis.TokenBucket state :=
  match Redis.TokenBucket_Allow tt (tokenAt w) "a" with Some (_, tb) => tb | None => tokenAt w end.
Definition tokenNext (w : state) : state := Redis.lim_client (Redis.tb_base (tokenAfter w)).

Definition tokenEvents : list (event unit) :=
  [mkEvent tt 1000 (mkResult true 1 0); mkEvent tt 1000 (mkResult true 0 0);
   mkEvent tt 1500 (mkResult false 0 500000000)].

Lemma history_at {E} (step : E → state → Result → state → Prop) k w w1 e t r w2 es w3 :
  value w1 k = value w k → (0 <=? now_us w1) && (now_us w1 <? 2 ^ 60) = true → now_us w1 / 1000 = t →
  step e w1 r w2 → history step k w2 es w3 → history step k w (mkEvent e t r :: es) w3.
Proof.
  intros Hs Hc Ht Hst Hh. change (ms w1 = t) in Ht. subst t.
  apply (history_cons step k w w1 e r w2); [done|split; simpl; lia|done..].
Qed.

Ltac sim_call tb tb' :=
  exists tb, tb', "a"%string; split_and!;
    [reflexivity|reflexivity|apply sim_instance; reflexivity|vm_compute; reflexivity|vm_compute; reflexivity].

Lemma sim_token_history :
  history (tokenCall (tokenSrc := tokenSrc) (F64.of_int 2) (F64.of_int 1) "kaka:a") "kaka:a" empty tokenEvents
    (tokenNext (advance (tokenNext (tokenNext empty)) 500000)).
Proof.
  set (s1 := tokenNext empty). set (s2 := tokenNext s1). set (s3 := advance s2 500000).
  apply (history_at _ _ empty empty tt _ _ s1); [reflexivity..|sim_call (tokenAt empty) (tokenAfter empty)|].
  apply (history_at _ _ s1 s1 tt _ _ s2); [reflexivity|vm_compute; reflexivity..|sim_call (tokenAt s1) (tokenAfter s1)|].
  apply (history_at _ _ s2 s3 tt _ _ (tokenNext s3)); [vm_compute; reflexivity..|sim_call (tokenAt s3) (tokenAfter s3)|].
  constructor.
Qed.

Lemma sim_rates : rates_ok (F64.of_int 2) (F64.of_int 1).
Proof.
  destruct (Numeric.int_params_ok 2 1) as [Hp Hc]; [lia|lia|]. split_and!; [done|done|].
  destruct (of_int_exact 1) as [_ ->]; [lia|]. pose proof unit_sc_pos. lia.
Qed.

Lemma redis_token_bucket_quota_witness :
  results tokenEvents = [mkResult true 1 0; mkResult true 0 0; mkResult false 0 500000000] ∧
  (Forall result_ok (results tokenEvents) ∧
   ∀ first rest, instants tokenEvents = first :: rest →
    allowed_count (results tokenEvents) * unit_sc * 2 ^ 52 * 1000
      <= fval (F64.of_int 2) * 2 ^ 52 * 1000 + (latest first rest - first) * fval (F64.of_int 1) * (2 ^ 52 + 3)
         + Z.of_nat (length tokenEvents) * step_error (F64.of_int 2) * 1000).
Proof.
  split; [reflexivity|]. destruct sim_rates as (Hp & Hc & Hr).
  eapply (redis_token_bucket_quota (F64.of_int 2) (F64.of_int 1)); [exact Hp|exact Hc|exact Hr|exact sim_token_history|reflexivity].
Defined.

(** Three calls at one instant. *)
Definition burstEvents : list (event unit) :=
  [mkEvent tt 1000 (mkResult true 1 0); mkEvent tt 1000 (mkResult true 0 0);
   mkEvent tt 1000 (mkResult false 0 1000000000)].

Lemma sim_token_burst :
  history (tokenCall (tokenSrc := tokenSrc) (F64.of_int 2) (F64.of_int 1) "kaka:a") "kaka:a" empty burstEvents
    (tokenNext (tokenNext (tokenNext empty))).
Proof.
  set (s1 := tokenNext empty). set (s2 := tokenNext s1).
  apply (history_at _ _ empty empty tt _ _ s1); [reflexivity..|sim_call (tokenAt empty) (tokenAfter empty)|].
  apply (history_at _ _ s1 s1 tt _ _ s2); [reflexivity|vm_compute; reflexivity..|sim_call (tokenAt s1) (tokenAfter s1)|].
  apply (history_at _ _ s2 s2 tt _ _ (tokenNext s2)); [vm_compute; reflexivity..|sim_call (tokenAt s2) (tokenAfter s2)|].
  constructor.
Qed.

Lemma redis_bucket_burst_witness :
  let n := fval (F64.of_int 2) / unit_sc in
  false = (Z.of_nat 2 <? n) ∧ (false = true → 0 = n - 1 - Z.of_nat 2).
Proof.
  destruct sim_rates as (Hp & Hc & Hr).
  eapply (redis_bucket_burst (F64.of_int 2) (F64.of_int 1) "kaka:a" empty burstEvents _ 1000 2
    (mkEvent tt 1000 (mkResult false 0 1000000000)) Hp Hc Hr).
  - left. exact sim_token_burst.
  - reflexivity.
  - repeat constructor.
  - reflexivity.
Defined.

(** The same calls on a leaky bucket. *)
Definition leakyAt (w : state) : Redis.LeakyBucket state :=
  Redis.mkLeakyBucket (simBase w leakySrc []) (F64.of_int 2) (F64.of_int 1).
Definition leakyAfter (w : state) : Redis.LeakyBucket state :=
  match Redis.LeakyBucket_Allow tt (leakyAt w) "a" with Some (_, lb) => lb | None => leakyAt w end.
Definition leakyNext (w : state) : state := Redis.lim_client (Redis.lb_base (leakyAfter w)).

Lemma sim_leaky_history :
  history (leakyCall (leakySrc := leakySrc) (F64.of_int 2) (F64.of_int 1) "kaka:a") "kaka:a" empty tokenEvents
    (leakyNext (advance (leakyNext (leakyNext empty)) 500000)).
Proof.
  set (s1 := leakyNext empty). set (s2 := leakyNext s1). set (s3 := advance s2 500000).
  apply (history_at _ _ empty empty tt _ _ s1); [reflexivity..|sim_call (leakyAt empty) (leakyAfter empty)|].
  apply (history_at _ _ s1 s1 tt _ _ s2); [reflexivity|vm_compute; reflexivity..|sim_call (leakyAt s1) (leakyAfter s1)|].
  apply (history_at _ _ s2 s3 tt _ _ (leakyNext s3)); [vm_compute; reflexivity..|sim_call (leakyAt s3) (leakyAfter s3)|].
  constructor.
Qed.

Lemma redis_leaky_bucket_quota_witness :
  Forall result_ok (results tokenEvents) ∧
   ∀ first rest, instants tokenEvents = first :: rest →
    allowed_count (results tokenEvents) * unit_sc * 2 ^ 52 * 1000
      <= fval (F64.of_int 2) * 2 ^ 52 * 1000 + (latest first rest - first) * fval (F64.of_int 1) * (2 ^ 52 + 3)
         + Z.of_nat (length tokenEvents) * step_error (F64.of_int 2) * 1000.
Proof.
  destruct sim_rates as (Hp & Hc & Hr).
  eapply (redis_leaky_bucket_quota (F64.of_int 2) (F64.of_int 1)); [exact Hp|exact Hc|exact Hr|exact sim_leaky_history|reflexivity].
Defined.

(** The same calls on a window of two requests per second. *)
Definition windowAt (w : state) : Redis.SlidingWindow state :=
  Redis.mkSlidingWindow (simBase w windowSrc []) 2 GoTime.Second.
Definition windowAfter (rand : Z) (w : state) : Redis.SlidingWindow state :=
  match Redis.SlidingWindow_Allow rand (windowAt w) "a" with Some (_, sw) => sw | None => windowAt w end.
Definition windowNext (rand : Z) (w : state) : state := Redis.lim_client (Redis.sw_base (windowAfter rand w)).

Definition windowEvents : list (event Z) :=
  [mkEvent 7 1000 (mkResult true 1 0); mkEvent 8 1000 (mkResult true 0 0);
   mkEvent 9 1500 (mkResult false 0 500000000)].

Lemma sim_window_history :
  history (windowCall (windowSrc := windowSrc) 2 GoTime.Second "kaka:a") "kaka:a" empty windowEvents
    (windowNext 9 (advance (windowNext 8 (windowNext 7 empty)) 500000)).
Proof.
  set (s1 := windowNext 7 empty). set (s2 := windowNext 8 s1). set (s3 := advance s2 500000).
  apply (history_at _ _ empty empty 7 _ _ s1); [reflexivity..|sim_call (windowAt empty) (windowAfter 7 empty)|].
  apply (history_at _ _ s1 s1 8 _ _ s2); [reflexivity|vm_compute; reflexivity..|sim_call (windowAt s1) (windowAfter 8 s1)|].
  apply (history_at _ _ s2 s3 9 _ _ (windowNext 9 s3)); [vm_compute; reflexivity..|sim_call (windowAt s3) (windowAfter 9 s3)|].
  constructor.
Qed.

Lemma redis_sliding_window_matches_memory_witness :
  results windowEvents =
    inMillis <$> (SlidingWindow.run 2 (GoTime.Milliseconds GoTime.Second) (SlidingWindow.newWindow 0) (instants windowEvents)).2 ∧
  ∀ a, Z.of_nat (length (SlidingWindow.within (GoTime.Milliseconds GoTime.Second) a
    (SlidingWindow.granted (instants windowEvents) (results windowEvents)))) <= 2.
Proof.
  eapply (redis_sliding_window_matches_memory 2 GoTime.Second).
  - lia.
  - split; vm_compute; discriminate.
  - exact sim_window_history.
  - reflexivity.
  - repeat split; vm_compute; discriminate.
  - split; [apply (bool_decide_unpack _); vm_compute; exact I|].
    change (salts windowEvents) with [7; 8; 9]. rewrite !Forall_cons, Forall_nil. lia.
Defined.

(** A key that the server does not hold is well-formed. *)
Lemma sim_fresh_log : log_wf "kaka:a" empty.
Proof.
  exists ∅. split; [|apply map_Forall_empty]. split; [by rewrite map_size_empty|].
  exists ∅. split; [done|apply map_Forall2_empty].
Qed.

Lemma sim_clock : clock_ok empty.
Proof. split; vm_compute; done. Qed.

Lemma redis_calls_well_typed_witness :
  answers tokenSrc empty "kaka:a" "a" Redis.tb_base (bucket_wf "tokens" "last_refilled_ms" (F64.of_int 2) "kaka:a")
    (Redis.TokenBucket_Allow tt (tokenAt empty) "a") ∧
  answers leakySrc empty "kaka:a" "a" Redis.lb_base (bucket_wf "water" "last_leak_ms" (F64.of_int 2) "kaka:a")
    (Redis.LeakyBucket_Allow tt (leakyAt empty) "a") ∧
  answers windowSrc empty "kaka:a" "a" Redis.sw_base (log_wf "kaka:a") (Redis.SlidingWindow_Allow 7 (windowAt empty) "a").
Proof.
  destruct (redis_calls_well_typed empty "kaka:a" "a" sim_clock) as (Ht & Hl & Hw). split_and!.
  - apply Ht; [exact sim_rates|apply sim_instance; reflexivity|]. exists None. split; [by apply bucket_none|exact I].
  - apply Hl; [exact sim_rates|apply sim_instance; reflexivity|]. exists None. split; [by apply bucket_none|exact I].
  - apply Hw; [simpl; lia|split; vm_compute; done|apply sim_instance; reflexivity|exact sim_fresh_log].
Defined.

Lemma redis_window_submillisecond_witness :
  ∃ sw', Redis.SlidingWindow_Allow 7 (Redis.mkSlidingWindow (simBase empty windowSrc []) 1 1000) "a" =
    Some ((mkResult true (1 - 1) 0, None), sw').
Proof.
  apply (redis_window_submillisecond (Redis.mkSlidingWindow (simBase empty windowSrc []) 1 1000) 7 empty "kaka:a" "a").
  - simpl. lia.
  - split; vm_compute; done.
  - apply sim_instance. reflexivity.
  - exact sim_clock.
  - exact sim_fresh_log.
Defined.

(** A window of one request per hour, with the default lifetime of half an
    hour: a second request half an hour later. *)
Definition hourly (w : state) : Redis.SlidingWindow state :=
  Redis.mkSlidingWindow (simBase w windowSrc []) 1 (60 * GoTime.Minute).
Definition hourlyAfter : Redis.SlidingWindow state :=
  match Redis.SlidingWindow_Allow 7 (hourly empty) "a" with Some (_, sw) => sw | None => hourly empty end.
Definition halfHour : Z := 30 * 60 * 1000000.
Definition hourlyLater : state := advance (Redis.lim_client (Redis.sw_base hourlyAfter)) halfHour.

Lemma redis_window_lifetime_witness :
  ∃ sw3, Redis.SlidingWindow_Allow 8 (hourly hourlyLater) "a" = Some ((mkResult true (1 - 1) 0, None), sw3).
Proof.
  eapply (redis_window_lifetime (hourly empty) hourlyAfter 7 empty "kaka:a" "a" (mkResult true 0 0) halfHour).
  - simpl. lia.
  - split; vm_compute; done.
  - apply sim_instance. reflexivity.
  - exact sim_clock.
  - exact sim_fresh_log.
  - vm_compute. reflexivity.
  - reflexivity.
  - unfold halfHour. lia.
  - reflexivity.
  - reflexivity.
  - reflexivity.
  - reflexivity.
  - apply sim_instance. reflexivity.
Defined.

(** One token per 2^34 seconds, and a server where the only token of the
    bucket was taken at this instant. *)
Definition slowRate : spec_float := F64.div (F64.of_int 1) (F64.of_int (2 ^ 34)).
Definition emptied : state :=
  put empty "kaka:a" (VHash {["tokens" := showFloat (F64.of_int 0); "last_refilled_ms" := showFloat (F64.of_int 1000)]}).

Lemma redis_retry_overflow_witness :
  ∃ r tb', Redis.TokenBucket_Allow tt (Redis.mkTokenBucket (simBase emptied tokenSrc []) (F64.of_int 1) slowRate) "a"
      = Some ((r, None), tb') ∧
    Allowed r = false ∧ RetryAfter r < 0.
Proof.
  destruct (redis_retry_overflow (Redis.mkTokenBucket (simBase emptied tokenSrc []) (F64.of_int 1) slowRate)
    emptied "kaka:a" "a" (F64.of_int 0) 1000) as (r & tb' & retryMs & Ha & Hd & _ & _ & _ & Hneg).
  - destruct (Numeric.int_params_ok 1 1) as [(Hcf & Hc1 & _) _]; [lia|lia|].
    split; [exact Hcf|]. split; [exact Hc1|]. split; [vm_compute; reflexivity|]. apply Z.ltb_lt. vm_compute. reflexivity.
  - apply Z.leb_le. vm_compute. reflexivity.
  - split; apply Z.leb_le; vm_compute; reflexivity.
  - apply sim_instance. reflexivity.
  - split; vm_compute; done.
  - apply (bucket_some _ _ _ _ {["tokens" := showFloat (F64.of_int 0); "last_refilled_ms" := showFloat (F64.of_int 1000)]}
      (F64.of_int 0) (F64.of_int 1000) 1000).
    + reflexivity.
    + reflexivity.
    + reflexivity.
    + exact I.
    + apply holdsZ_of_int. lia.
    + lia.
  - split; apply Z.leb_le; vm_compute; reflexivity.
  - apply Z.leb_le. vm_compute. reflexivity.
  - exists r, tb'. split; [exact Ha|]. split; [exact Hd|]. apply Hneg. apply Z.leb_le. vm_compute. reflexivity.
Defined.

(** From an empty server, with one token per 10^10 seconds: the first request
    passes, the second is denied with a negative [RetryAfter]. *)
Example retry_overflow_reached :
  ∃ tb tb1 tb2,
    Redis.NewTokenBucket tokenSrc empty (F64.of_int 1) (F64.div (F64.of_int 1) (F64.of_int (10 ^ 10))) [] = Returns tb ∧
    Redis.TokenBucket_Allow tt tb "a" = Some ((mkResult true 0 0, None), tb1) ∧
    Redis.TokenBucket_Allow tt tb1 "a" = Some ((mkResult false 0 (- 8446744073709551616), None), tb2).
Proof.
  pose (tb := Redis.mkTokenBucket (Redis.newLimiter empty (Redis.NewScript "token_bucket" tokenSrc) [])
    (F64.of_int 1) (F64.div (F64.of_int 1) (F64.of_int (10 ^ 10)))).
  pose (next t := match Redis.TokenBucket_Allow tt t "a" with Some (_, t') => t' | None => t end).
  exists tb, (next tb), (next (next tb)). split_and!; vm_compute; reflexivity.
Qed.

End RedisProps.
