(* ===== verification/RedisExpiring.v ===== *)
(** * RedisExpiring: keys that expire on the server

    Every script renews the lifetime of its key with PEXPIRE, 30 minutes by
    default; a key that nobody uses for so long is deleted, and the next call
    starts afresh.  Here the histories of RedisCalls.v let the key expire: the
    quotas survive if the TTL gives a bucket the time to fill up, or is not
    shorter than the window. *)

From Stdlib Require Import ZArith Lia Bool.
From stdpp Require Import base gmap strings list sorting.
From S2P Require Import Prelude Float64 FloatFacts GoTime Core GoString Numeric SlidingWindow.
From S2P Require Import Redis RedisScripts LuaFacts RedisScriptFacts RedisCalls RedisWindow RedisSim RedisProps.

#[local] Open Scope Z_scope.

Module RedisExpiring.
Import Scripts LuaFacts ScriptFacts RedisCalls RedisWindow RedisProps.

Section Expiring.
Context {W : Type} {client : Redis.RedisClient W} {scripting : Redis.RedisScripting W client}.
Context {server : RedisServer W} {laws : RedisServerLaws W server} {tokenSrc leakySrc windowSrc : string}.
Context {host : ScriptHost client scripting server laws tokenSrc leakySrc windowSrc}.
Implicit Types (w : W) (k : string).

(** Between two calls: time passes, other keys are used, and the key stays as
    it is or expires at its deadline. *)
Definition between k w w' : Prop :=
  ms w <= ms w' ∧
  (stored w' k = stored w k ∧ deadline w' k = deadline w k ∨
   stored w' k = VNone ∧ ∃ d, deadline w k = Some d ∧ d <= ms w').

Lemma between_trans k w1 w2 w3 : between k w1 w2 → between k w2 w3 → between k w1 w3.
Proof.
  intros [Ht1 H1] [Ht2 H2]. split; [lia|]. destruct H1 as [[Hs1 Hd1]|[Hn1 (d & Hd & Hle)]].
  - destruct H2 as [[Hs2 Hd2]|[Hn2 (d & Hd & Hle)]]; [left; split; congruence|].
    right. split; [done|]. exists d. split; [congruence|done].
  - right. split; [destruct H2 as [[-> _]|[-> _]]; done|]. exists d. split; [done|lia].
Qed.

(** Calls on one key, as [history] of RedisCalls.v. *)
Inductive lifespan {E} (step : E → W → Result → W → Prop) k : W → list (event E) → W → Prop :=
| lifespan_nil w : lifespan step k w [] w
| lifespan_cons w w1 e r w2 es w3 :
    between k w w1 → clock_ok w1 → step e w1 r w2 → lifespan step k w2 es w3 →
    lifespan step k w (mkEvent e (ms w1) r :: es) w3.

(** ** Buckets *)

Section Bucket.
Context (capacity rate : spec_float) (k lf tf : string) (initial : spec_float).
Context (whole : spec_float → Prop) (room : spec_float → Z) (ttl_min : Z).
Context {E : Type} (step : E → W → Result → W → Prop).
Hypothesis Hroom : ∀ l, 0 <= fval l <= fval capacity → 0 <= room l.
Hypothesis Hinitial : 0 <= fval initial <= fval capacity ∧ room initial = fval capacity.
Hypothesis Hrate : 0 <= fval rate.
Hypothesis Httl : 0 < ttl_min ∧ fval capacity * 1000 <= ttl_min * fval rate.
Hypothesis Hstep : ∀ e w r w' v, step e w r w' → clock_ok w → bucket_at lf tf w k v → level_ok capacity v →
  ∃ ttl, ttl_min <= ttl ∧ bucket_step lf tf initial whole room capacity rate ttl w k v r w'.

(** One call on a bucket, or on none: the books from any earlier bucket that
    it replaces. *)
Lemma expiring_step w w1 e r w2 level last :
  bucket_at lf tf w k (Some (level, last)) → level_ok capacity (Some (level, last)) → last <= ms w →
  (∃ d, deadline w k = Some d ∧ last + ttl_min <= d) →
  between k w w1 → clock_ok w1 → step e w1 r w2 →
  result_ok r ∧ last <= ms w1 ∧ ms w2 = ms w1 ∧
  ∃ level', bucket_at lf tf w2 k (Some (level', ms w1)) ∧ level_ok capacity (Some (level', ms w1)) ∧
    (∃ d, deadline w2 k = Some d ∧ ms w1 + ttl_min <= d) ∧
    ledger capacity rate (room level) last (room level') (ms w1) (Allowed r).
Proof.
  intros Hb Hl Hlast (d & Hd & Hdl) [Ht Hbw] Hc Hst.
  assert (∃ v, bucket_at lf tf w1 k v ∧ level_ok capacity v ∧
    (v = Some (level, last) ∨ v = None ∧ last + ttl_min <= ms w1)) as (v & Hb1 & Hl1 & Hv).
  { destruct Hbw as [[Hs _]|[Hn (d' & Hd' & Hle)]].
    - exists (Some (level, last)). split_and!; [by eapply bucket_at_frame|done|by left].
    - exists None. split_and!; [by apply bucket_none|done|]. right. split; [done|].
      rewrite Hd in Hd'. injection Hd' as <-. lia. }
  destruct (Hstep e w1 r w2 v Hst Hc Hb1 Hl1) as (ttl & Hmin & level' & Hb' & Hl' & Hr & Hled & _ & [Hck _] & Hdead).
  assert (ms w2 = ms w1) as Hms by (unfold ms; by rewrite Hck).
  split_and!; [done|lia|done|]. exists level'.
  assert (Z.max (ms w1) (default (initial, ms w1) v).2 = ms w1) as Hmax
    by (destruct Hv as [->|[-> _]]; cbn [default snd id]; lia).
  rewrite Hmax in *. split_and!; [done|done|exists (ms w1 + ttl); split; [apply Hdead; lia|lia]|].
  destruct Hv as [->|[-> Hstale]]; cbn [default fst snd id] in *; [exact Hled|].
  destruct Hinitial as [_ Hri]. unfold ledger in *. rewrite Hri in Hled. pose proof (Hroom level Hl).
  assert (ttl_min * fval rate <= (ms w1 - last) * fval rate) by nia. lia.
Qed.

Lemma expiring_books w es w' level last :
  lifespan step k w es w' → bucket_at lf tf w k (Some (level, last)) → level_ok capacity (Some (level, last)) →
  last <= ms w → (∃ d, deadline w k = Some d ∧ last + ttl_min <= d) →
  Forall result_ok (results es) ∧
  allowed_count (results es) * unit_sc * 2 ^ 52 * 1000
    <= room level * 2 ^ 52 * 1000 + (final last (instants es) - last) * fval rate * (2 ^ 52 + 3)
       + Z.of_nat (length es) * step_error capacity * 1000.
Proof.
  intros Hh. revert level last. induction Hh as [w|w w1 e r w2 es w3 Hbw Hc Hst _ IH]; intros level last Hb Hl Hlast Hd.
  { split; [constructor|]. unfold allowed_count, final. simpl. specialize (Hroom level Hl). lia. }
  destruct (expiring_step w w1 e r w2 level last Hb Hl Hlast Hd Hbw Hc Hst)
    as (Hr & Hle & Hms & level' & Hb' & Hl' & Hd' & Hled).
  destruct (IH level' (ms w1) Hb' Hl' ltac:(lia) Hd') as [Hrs Hcount]. split; [by constructor|].
  unfold results, instants in *. rewrite !fmap_cons. cbn [ev_result ev_ms length].
  rewrite allowed_count_cons, final_cons, Nat2Z.inj_succ. unfold ledger in Hled.
  set (f := final (ms w1) _) in *. set (n := allowed_count _) in *.
  replace ((f - last) * fval rate) with ((f - ms w1) * fval rate + (ms w1 - last) * fval rate) by ring.
  destruct (Allowed r); lia.
Qed.

(** Calls on a key that starts absent. *)
Lemma expiring_quota w es w' :
  lifespan step k w es w' → stored w k = VNone →
  Forall result_ok (results es) ∧
  ∀ first rest, instants es = first :: rest →
    allowed_count (results es) * unit_sc * 2 ^ 52 * 1000
      <= fval capacity * 2 ^ 52 * 1000 + (final first rest - first) * fval rate * (2 ^ 52 + 3)
         + Z.of_nat (length es) * step_error capacity * 1000.
Proof.
  intros Hh Hn. destruct Hh as [w|w w1 e r w2 es w3 [Ht Hbw] Hc Hst Hh]; [split; [constructor|done]|].
  assert (bucket_at lf tf w1 k None) as Hb by (apply bucket_none; destruct Hbw as [[-> _]|[-> _]]; done).
  destruct (Hstep e w1 r w2 None Hst Hc Hb I) as (ttl & Hmin & level' & Hb' & Hl' & Hr & Hled & _ & [Hck _] & Hdead).
  assert (ms w2 = ms w1) as Hms by (unfold ms; by rewrite Hck).
  cbn [default fst snd id] in *. rewrite Z.max_id in *. destruct Hinitial as [_ Hri].
  destruct (expiring_books _ _ _ _ _ Hh Hb' Hl') as [Hrs Hcount]; [lia|exists (ms w1 + ttl); split; [apply Hdead; lia|lia]|].
  split; [by constructor|].
  unfold results, instants in *. rewrite !fmap_cons. cbn [ev_result ev_ms]. intros first rest [= <- <-].
  rewrite allowed_count_cons. cbn [length]. rewrite Nat2Z.inj_succ. unfold ledger in Hled. rewrite Hri in Hled.
  set (n := allowed_count _) in *. destruct (Allowed r); lia.
Qed.
End Bucket.

(** ** Calls of limiters with a long enough TTL *)

Definition lastingToken ttl_min capacity rate k (_ : unit) w (r : Result) w' : Prop :=
  ∃ tb tb' key, Redis.tb_capacity tb = capacity ∧ Redis.tb_rate tb = rate ∧
    ttl_min <= Redis.ttlMs (Redis.tb_base tb) ∧ instance tokenSrc w k (Redis.tb_base tb) key ∧
    Redis.TokenBucket_Allow tt tb key = Some ((r, None), tb') ∧ Redis.lim_client (Redis.tb_base tb') = w'.

Definition lastingLeaky ttl_min capacity rate k (_ : unit) w (r : Result) w' : Prop :=
  ∃ lb lb' key, Redis.lb_capacity lb = capacity ∧ Redis.lb_rate lb = rate ∧
    ttl_min <= Redis.ttlMs (Redis.lb_base lb) ∧ instance leakySrc w k (Redis.lb_base lb) key ∧
    Redis.LeakyBucket_Allow tt lb key = Some ((r, None), lb') ∧ Redis.lim_client (Redis.lb_base lb') = w'.

Definition lastingWindow ttl_min limit window k (rand : Z) w (r : Result) w' : Prop :=
  ∃ sw sw' key, Redis.sw_limit sw = limit ∧ Redis.sw_window sw = window ∧
    ttl_min <= Redis.ttlMs (Redis.sw_base sw) ∧ instance windowSrc w k (Redis.sw_base sw) key ∧
    Redis.SlidingWindow_Allow rand sw key = Some ((r, None), sw') ∧ Redis.lim_client (Redis.sw_base sw') = w'.

Section Params.
Context (capacity rate : spec_float) (ttl_min : Z).
Hypothesis Hp : Numeric.params_ok capacity rate.
Hypothesis Hcap : fval capacity < 2 ^ 53 * unit_sc.
Hypothesis Hrate : unit_sc <= fval rate * 10 ^ 9.

Lemma lastingToken_step k e w r w' v :
  lastingToken ttl_min capacity rate k e w r w' → clock_ok w →
  bucket_at "tokens" "last_refilled_ms" w k v → level_ok capacity v →
  ∃ ttl, ttl_min <= ttl ∧ token_step capacity rate ttl w k v r w'.
Proof.
  intros (tb & tb' & key & Hc & Hr & Ht & Hi & Ha & <-) Hck Hb Hl.
  destruct (token_allow capacity rate Hp Hcap Hrate tb w k key v Hc Hr Hi Hck Hb Hl) as (r' & tb'' & Ha' & _ & Hst).
  rewrite Ha' in Ha. apply Some_inj, pair_eq in Ha as [[= ->] ->]. eauto.
Qed.

Lemma lastingLeaky_step k e w r w' v :
  lastingLeaky ttl_min capacity rate k e w r w' → clock_ok w →
  bucket_at "water" "last_leak_ms" w k v → level_ok capacity v →
  ∃ ttl, ttl_min <= ttl ∧ leaky_step capacity rate ttl w k v r w'.
Proof.
  intros (lb & lb' & key & Hc & Hr & Ht & Hi & Ha & <-) Hck Hb Hl.
  destruct (leaky_allow capacity rate Hp Hcap Hrate lb w k key v Hc Hr Hi Hck Hb Hl) as (r' & lb'' & Ha' & _ & Hst).
  rewrite Ha' in Ha. apply Some_inj, pair_eq in Ha as [[= ->] ->]. eauto.
Qed.

Hypothesis Httl : 0 < ttl_min ∧ fval capacity * 1000 <= ttl_min * fval rate.

(** The quota of the buckets, whether or not keys expire. *)
Lemma lasting_quota k w es w' :
  lifespan (lastingToken ttl_min capacity rate k) k w es w' ∨ lifespan (lastingLeaky ttl_min capacity rate k) k w es w' →
  stored w k = VNone →
  Forall result_ok (results es) ∧
  ∀ first rest, instants es = first :: rest →
    allowed_count (results es) * unit_sc * 2 ^ 52 * 1000
      <= fval capacity * 2 ^ 52 * 1000 + (final first rest - first) * fval rate * (2 ^ 52 + 3)
         + Z.of_nat (length es) * step_error capacity * 1000.
Proof.
  intros Hh Hn. pose proof Hp as (Hf & H1 & _ & Hr). pose proof unit_sc_pos. destruct Hh as [Hh|Hh].
  - eapply (expiring_quota capacity rate k "tokens" "last_refilled_ms" capacity (fun _ => True) fval ttl_min
      (lastingToken ttl_min capacity rate k)); [|split; [lia|done]|lia|exact Httl| |exact Hh|exact Hn]; [intros; lia|].
    intros. eapply lastingToken_step; done.
  - destruct (of_int_exact 0) as [H0f H0v]; [lia|].
    eapply (expiring_quota capacity rate k "water" "last_leak_ms" (F64.of_int 0) whole_drops (fun l => fval capacity - fval l)
      ttl_min (lastingLeaky ttl_min capacity rate k)); [|split; lia|lia|exact Httl| |exact Hh|exact Hn]; [intros; lia|].
    intros. eapply lastingLeaky_step; done.
Qed.
End Params.

(** ** Sliding windows *)

Section Window.
Context (limit : Z) (window : Duration) (ttl_min : Z).
Hypothesis Hlimit : 0 < limit < 2 ^ 53.
Hypothesis Hwindow : 0 < window <= int64_max.
Hypothesis Hmillis : 0 < windowMs window.
Hypothesis Httl : windowMs window <= ttl_min.

Lemma lastingWindow_step k rand w r w' m :
  lastingWindow ttl_min limit window k rand w r w' → clock_ok w → log_at w k m → log_past (ms w) m →
  ∃ ttl, ttl_min <= ttl ∧ window_step limit window ttl rand w k m r w'.
Proof.
  intros (sw & sw' & key & Hl & Hw & Ht & Hi & Ha & <-) Hck Hlog Hpast.
  destruct (window_allow limit window Hlimit Hwindow rand sw w k key m Hl Hw Hi Hck Hlog Hpast) as (r' & sw'' & Ha' & _ & Hst).
  rewrite Ha' in Ha. apply Some_inj, pair_eq in Ha as [[= ->] ->]. eauto.
Qed.

(** The log on the server agrees with the one in memory, and lives long
    enough, or the key was not used before. *)
Definition lasts w k last (m : gmap string Z) st : Prop :=
  log_at w k m ∧ mirrors limit last m st ∧
  (m = ∅ ∧ SlidingWindow.logs st = [] ∨ last <= ms w ∧ ∃ d, deadline w k = Some d ∧ last + windowMs window <= d).

(** One call: the results agree, and so do the logs afterwards. *)
Lemma expiring_window_step w w1 n rands r w2 k last m st :
  lasts w k last m st → last <= ms w1 → salts_ok (n :: rands) → unused (n :: rands) m →
  between k w w1 → clock_ok w1 → lastingWindow ttl_min limit window k n w1 r w2 →
  ∃ m' st' r', SlidingWindow.recordAndDecide limit (windowMs window) st (ms w1) = (st', (r', None)) ∧
    r = inMillis r' ∧ unused rands m' ∧ lasts w2 k (ms w1) m' st'.
Proof.
  intros (Hlog & Hmir & Hlive) Hle Hsalt Hun [Ht Hbw] Hc Hst.
  pose proof (windowMs_range window Hwindow) as Hwm.
  assert (∀ m1, log_at w1 k m1 → log_past (ms w1) m1 → unused (n :: rands) m1 →
    (∀ m' allowed remaining retry, decides limit (windowMs window) (Redis.FormatUint16 n) (ms w1) m1 m' allowed remaining retry →
      ∃ st', SlidingWindow.recordAndDecide limit (windowMs window) st (ms w1) =
        (st', (mkResult allowed remaining retry, None)) ∧ mirrors limit (ms w1) m' st') →
    ∃ m' st' r', SlidingWindow.recordAndDecide limit (windowMs window) st (ms w1) = (st', (r', None)) ∧
      r = inMillis r' ∧ unused rands m' ∧ lasts w2 k (ms w1) m' st') as Hcall.
  { intros m1 Hlog1 Hpast Hun1 Hdecide.
    destruct (lastingWindow_step k n w1 r w2 m1 Hst Hc Hlog1 Hpast)
      as (ttl & Hmin & m' & allowed & remaining & retry & Hdec & -> & Hlog' & [Hck _] & Hdl).
    destruct (Hdecide _ _ _ _ Hdec) as (st' & Hd & Hmir'). assert (ms w2 = ms w1) as Hms by (unfold ms; by rewrite Hck).
    exists m', st'. eexists. split_and!; [exact Hd|done|by eapply unused_step|]. split_and!; [done|done|]. right.
    split; [lia|]. exists (ms w1 + ttl). split; [apply Hdl; lia|lia]. }
  destruct Hbw as [[Hs _]|[Hn (d & Hd & Hdle)]].
  - apply (Hcall m); [by eapply log_at_frame|by eapply mirrors_past|done|].
    intros m' allowed remaining retry. apply (mirrors_step limit window Hlimit Hwindow Hmillis last); [done|done|].
    apply map_lookup_filter_None. left. apply Hun. by left.
  - apply (Hcall ∅); [split; [by rewrite map_size_empty|]; exists ∅; rewrite Hn; split; [done|apply map_Forall2_empty]
      |apply map_Forall_empty|by intros ? _|].
    intros m' allowed remaining retry Hdec. destruct Hlive as [[-> Hl]|[_ (d' & Hd' & Hld)]].
    + apply (mirrors_step limit window Hlimit Hwindow Hmillis last ∅) with (member := Redis.FormatUint16 n); [done|done| |done].
      unfold inside. by rewrite map_filter_empty.
    + apply (stale_step limit window Hlimit Hwindow Hmillis last) with (member := Redis.FormatUint16 n);
        [apply Hmir| |done]. rewrite Hd in Hd'. injection Hd' as <-. lia.
Qed.

Lemma expiring_mirrors k w es w' m st last :
  lifespan (lastingWindow ttl_min limit window k) k w es w' →
  lasts w k last m st →
  nondecreasing last (instants es) → salts_ok (salts es) → unused (salts es) m →
  results es = inMillis <$> (SlidingWindow.run limit (windowMs window) st (instants es)).2.
Proof.
  intros Hh. revert m st last. induction Hh as [w|w w1 n r w2 es w3 Hbw Hc Hst _ IH];
    intros m st last Hla Hmono Hsalt Hun; [done|].
  unfold results, instants, salts in *. rewrite fmap_cons in Hmono, Hsalt, Hun. destruct Hmono as [Hle Hmono].
  cbn [ev_env ev_ms] in *.
  destruct (expiring_window_step w w1 n _ r w2 k last m st Hla Hle Hsalt Hun Hbw Hc Hst) as (m' & st' & r' & Hd & -> & Hun' & Hla').
  destruct Hsalt as [[_ Hnd]%NoDup_cons [_ Hrs]%Forall_cons].
  rewrite !fmap_cons. cbn [SlidingWindow.run ev_ms ev_result]. rewrite Hd.
  specialize (IH m' st' (ms w1) Hla' Hmono (conj Hnd Hrs) Hun').
  destruct (SlidingWindow.run limit (windowMs window) st' (ev_ms <$> es)) as [st'' rs]. cbn [snd] in *. rewrite fmap_cons.
  by rewrite IH.
Qed.
End Window.

(** ** Properties *)

(** C9: the quota of distributed buckets whose keys expire.  Any number of
    token bucket limiters, or leaky bucket limiters, of one capacity and rate
    call [Allow] on one key, and between two calls the key stays as it is or
    expires at its deadline.  If the TTL of every limiter is at least the time
    in which an empty bucket fills up ([capacity <= ttl * rate]; the default
    is 30 minutes), then every result is well-formed and at most
    [capacity + rate * elapsed] calls pass, just as if the key had been kept. *)
Theorem redis_expiring_quota capacity rate ttl_min k w es w' :
  Numeric.params_ok capacity rate → fval capacity < 2 ^ 53 * unit_sc → unit_sc <= fval rate * 10 ^ 9 →
  0 < ttl_min → fval capacity * 1000 <= ttl_min * fval rate →
  lifespan (lastingToken ttl_min capacity rate k) k w es w' ∨ lifespan (lastingLeaky ttl_min capacity rate k) k w es w' →
  stored w k = VNone →
  Forall result_ok (results es) ∧
  ∀ first rest, instants es = first :: rest →
    allowed_count (results es) * unit_sc * 2 ^ 52 * 1000
      <= fval capacity * 2 ^ 52 * 1000 + (final first rest - first) * fval rate * (2 ^ 52 + 3)
         + Z.of_nat (length es) * step_error capacity * 1000.
Proof. intros Hp Hc Hr Ht Htr. by apply (lasting_quota capacity rate ttl_min Hp Hc Hr (conj Ht Htr)). Qed.

(** C10: expiry is invisible to a distributed sliding window whose TTL is not
    shorter than the window.  In any history of calls on a key that starts
    absent and may expire at its deadlines, by any number of limiters of one
    limit and window (at least one millisecond), while the server's clock does
    not go back and the random members do not repeat, the results are those of
    the in-memory decision on the same instants, which forgets nothing. *)
Theorem redis_expiring_window limit window ttl_min k w es w' t0 :
  0 < limit < 2 ^ 53 → GoTime.Millisecond <= window <= int64_max → GoTime.Milliseconds window <= ttl_min →
  lifespan (lastingWindow ttl_min limit window k) k w es w' → stored w k = VNone →
  nondecreasing t0 (instants es) → salts_ok (salts es) →
  results es =
    inMillis <$> (SlidingWindow.run limit (GoTime.Milliseconds window) (SlidingWindow.newWindow t0) (instants es)).2.
Proof.
  intros Hl Hw Httl Hh Hn Hm Hs. pose proof (windowMs_positive window Hw) as Hwm.
  fold (windowMs window) in *. unfold GoTime.Millisecond in Hw.
  eapply (expiring_mirrors limit window ttl_min Hl ltac:(lia) ltac:(lia) Httl k w es w' ∅); [exact Hh| |exact Hm|exact Hs|done].
  split_and!.
  - split; [by rewrite map_size_empty|]. exists ∅. rewrite Hn. split; [done|]. apply map_Forall2_empty.
  - split; [apply SlidingWindow.newWindow_ok; lia|done].
  - by left.
Qed.

End Expiring.
(** ** Witnesses: keys that live for three seconds *)

Import Sim.

Definition shortLived : list Redis.Option := [Redis.WithKeyTTL (3 * GoTime.Second)].

Definition tokenShort (w : state) : Redis.TokenBucket state :=
  Redis.mkTokenBucket (simBase w Sim.tokenSrc shortLived) (F64.of_int 2) (F64.of_int 1).
Definition tokenShortAfter (w : state) : Redis.TokenBucket state :=
  match Redis.TokenBucket_Allow tt (tokenShort w) "a" with Some (_, tb) => tb | None => tokenShort w end.
Definition tokenShortNext (w : state) : state := Redis.lim_client (Redis.tb_base (tokenShortAfter w)).

Definition windowShort (w : state) : Redis.SlidingWindow state :=
  Redis.mkSlidingWindow (simBase w Sim.windowSrc shortLived) 2 GoTime.Second.
Definition windowShortAfter (rand : Z) (w : state) : Redis.SlidingWindow state :=
  match Redis.SlidingWindow_Allow rand (windowShort w) "a" with Some (_, sw) => sw | None => windowShort w end.
Definition windowShortNext (rand : Z) (w : state) : state := Redis.lim_client (Redis.sw_base (windowShortAfter rand w)).

(** Three calls at once, and a fourth after the key has expired. *)
Definition shortTokenEvents : list (event unit) :=
  [mkEvent tt 1000 (mkResult true 1 0); mkEvent tt 1000 (mkResult true 0 0);
   mkEvent tt 1000 (mkResult false 0 1000000000); mkEvent tt 4000 (mkResult true 1 0)].
Definition shortWindowEvents : list (event Z) :=
  [mkEvent 7 1000 (mkResult true 1 0); mkEvent 8 1000 (mkResult true 0 0);
   mkEvent 9 1000 (mkResult false 0 1000000000); mkEvent 10 4000 (mkResult true 1 0)].

Lemma lifespan_at {E} (step : E → state → Result → state → Prop) k w w1 e t r w2 es w3 :
  between k w w1 → (0 <=? now_us w1) && (now_us w1 <? 2 ^ 60) = true → now_us w1 / 1000 = t →
  step e w1 r w2 → lifespan step k w2 es w3 → lifespan step k w (mkEvent e t r :: es) w3.
Proof.
  intros Hs Hc Ht Hst Hh. change (ms w1 = t) in Ht. subst t.
  apply (lifespan_cons step k w w1 e r w2); [done|split; simpl; lia|done..].
Qed.

Ltac sim_kept := split; [vm_compute; discriminate|left; split; vm_compute; reflexivity].
Ltac sim_expired d := split; [vm_compute; discriminate|right; split; [vm_compute; reflexivity|
  exists d; split; [vm_compute; reflexivity|vm_compute; discriminate]]].
Ltac sim_lasting x x' :=
  exists x, x', "a"%string; split_and!;
    [reflexivity|reflexivity|vm_compute; discriminate|constructor; [done|by left|done|reflexivity|done|split; vm_compute; discriminate]
    |vm_compute; reflexivity|vm_compute; reflexivity].

Lemma short_tokens :
  ∃ w', lifespan (lastingToken (tokenSrc := Sim.tokenSrc) 2000 (F64.of_int 2) (F64.of_int 1) "kaka:a") "kaka:a" empty
    shortTokenEvents w'.
Proof.
  set (s1 := tokenShortNext empty). set (s2 := tokenShortNext s1). set (s3 := tokenShortNext s2).
  set (s4 := advance s3 3000000). exists (tokenShortNext s4).
  apply (lifespan_at _ _ empty empty tt _ _ s1); [sim_kept|reflexivity..|sim_lasting (tokenShort empty) (tokenShortAfter empty)|].
  apply (lifespan_at _ _ s1 s1 tt _ _ s2); [sim_kept|vm_compute; reflexivity..|sim_lasting (tokenShort s1) (tokenShortAfter s1)|].
  apply (lifespan_at _ _ s2 s2 tt _ _ s3); [sim_kept|vm_compute; reflexivity..|sim_lasting (tokenShort s2) (tokenShortAfter s2)|].
  apply (lifespan_at _ _ s3 s4 tt _ _ (tokenShortNext s4));
    [sim_expired 4000|vm_compute; reflexivity..|sim_lasting (tokenShort s4) (tokenShortAfter s4)|].
  constructor.
Qed.

Lemma redis_expiring_quota_witness :
  allowed_count (results shortTokenEvents) = 3 ∧
  ∀ first rest, instants shortTokenEvents = first :: rest →
    allowed_count (results shortTokenEvents) * unit_sc * 2 ^ 52 * 1000
      <= fval (F64.of_int 2) * 2 ^ 52 * 1000 + (final first rest - first) * fval (F64.of_int 1) * (2 ^ 52 + 3)
         + Z.of_nat (length shortTokenEvents) * step_error (F64.of_int 2) * 1000.
Proof.
  split; [reflexivity|]. destruct sim_rates as (Hp & Hc & Hr). destruct short_tokens as [w' Hh].
  eapply (redis_expiring_quota (F64.of_int 2) (F64.of_int 1) 2000);
    [exact Hp|exact Hc|exact Hr|lia| |left; exact Hh|reflexivity].
  destruct (of_int_exact 2) as [_ ->]; [lia|]. destruct (of_int_exact 1) as [_ ->]; [lia|]. lia.
Defined.

Lemma short_windows :
  ∃ w', lifespan (lastingWindow (windowSrc := Sim.windowSrc) 1000 2 GoTime.Second "kaka:a") "kaka:a" empty
    shortWindowEvents w'.
Proof.
  set (s1 := windowShortNext 7 empty). set (s2 := windowShortNext 8 s1). set (s3 := windowShortNext 9 s2).
  set (s4 := advance s3 3000000). exists (windowShortNext 10 s4).
  apply (lifespan_at _ _ empty empty 7 _ _ s1); [sim_kept|reflexivity..|sim_lasting (windowShort empty) (windowShortAfter 7 empty)|].
  apply (lifespan_at _ _ s1 s1 8 _ _ s2); [sim_kept|vm_compute; reflexivity..|sim_lasting (windowShort s1) (windowShortAfter 8 s1)|].
  apply (lifespan_at _ _ s2 s2 9 _ _ s3); [sim_kept|vm_compute; reflexivity..|sim_lasting (windowShort s2) (windowShortAfter 9 s2)|].
  apply (lifespan_at _ _ s3 s4 10 _ _ (windowShortNext 10 s4));
    [sim_expired 4000|vm_compute; reflexivity..|sim_lasting (windowShort s4) (windowShortAfter 10 s4)|].
  constructor.
Qed.

Lemma redis_expiring_window_witness :
  results shortWindowEvents =
    inMillis <$> (SlidingWindow.run 2 (GoTime.Milliseconds GoTime.Second) (SlidingWindow.newWindow 0) (instants shortWindowEvents)).2.
Proof.
  destruct short_windows as [w' Hh]. eapply (redis_expiring_window 2 GoTime.Second 1000).
  - lia.
  - split; vm_compute; discriminate.
  - vm_compute. discriminate.
  - exact Hh.
  - reflexivity.
  - repeat split; vm_compute; discriminate.
  - split; [apply (bool_decide_unpack _); vm_compute; exact I|].
    change (salts shortWindowEvents) with [7; 8; 9; 10]. rewrite !Forall_cons, Forall_nil. lia.
Defined.

End RedisExpiring.
