(* ===== verification/LayeredRedis.v ===== *)
(** * LayeredRedis: layered limiters in front of one Redis server

    The deployment that package layered is written for: any number of
    processes, each with a layered limiter whose remote layer is a Redis
    bucket on a common server, and whose local layer is any limiter at all.
    Calls that a local layer denies leave the server alone; the others are
    calls of the Redis limiter, so the history of all calls contains a history
    of Redis calls with the same allowed requests, and the quota of
    RedisProps.v holds for the whole fleet. *)

From Stdlib Require Import ZArith Lia Bool.
From stdpp Require Import base gmap strings list.
From S2P Require Import Prelude Float64 FloatFacts GoTime Core GoString Numeric SlidingWindow Layered.
From S2P Require Import Redis RedisScripts LuaFacts RedisScriptFacts RedisCalls RedisWindow RedisSim RedisProps RedisExpiring.

#[local] Open Scope Z_scope.

Module LayeredRedis.
Import Scripts LuaFacts ScriptFacts RedisCalls RedisWindow Sim RedisProps.

#[local] Existing Instance Redis.TokenBucket_Allow.
#[local] Existing Instance Redis.LeakyBucket_Allow.
#[local] Existing Instance Redis.SlidingWindow_Allow.

(** ** What a call of the combination does to its remote layer *)

Section Remote.
Context {EL SL ER SR : Type} {local_limiter : Limiter EL SL} {remote_limiter : Limiter ER SR}.

Lemma remoteAllow_remote e (l : Layered.layered SL SR) key r l' :
  Layered.remoteAllow e l key = Some (r, l') →
  Allow e (Layered.ll_remote l) key = Some (r, Layered.ll_remote l').
Proof.
  unfold Layered.remoteAllow. destruct (Allow e (Layered.ll_remote l) key) as [[[res [err|]] s]|]; [| |done];
    intros [= <- <-]; by rewrite ?Layered.emitError_eq, ?Layered.emit_eq.
Qed.

(** A call that returns has left the remote layer alone and denied, or failed,
    the request, or has returned what the remote layer returned. *)
Lemma call_remote e (l : Layered.layered SL SR) key r l' :
  Layered.Layered_Allow e l key = Some (r, l') →
  Layered.ll_remote l' = Layered.ll_remote l ∧ Allowed r.1 = false ∨
  Allow e.2 (Layered.ll_remote l) key = Some (r, Layered.ll_remote l').
Proof.
  unfold Layered.Layered_Allow. destruct (Layered.validateKey key).
  { intros [= <- <-]. left. by rewrite Layered.emitError_eq. }
  destruct (Allow e.1 (Layered.ll_local l) key) as [[[res [err|]] s]|]; [| |done].
  - intros H%remoteAllow_remote. right. by rewrite Layered.emitError_eq in H.
  - destruct (Allowed res) eqn:Ea.
    + intros H%remoteAllow_remote. by right.
    + intros [= <- <-]. left. by rewrite Layered.emit_eq.
Qed.
End Remote.

(** ** Histories of a fleet *)

Section Fleet.
Context {W : Type} {client : Redis.RedisClient W} {scripting : Redis.RedisScripting W client}.
Context {server : RedisServer W} {laws : RedisServerLaws W server} {tokenSrc leakySrc windowSrc : string}.
Context {host : ScriptHost client scripting server laws tokenSrc leakySrc windowSrc}.
Context {EL SL : Type} {local_limiter : Limiter EL SL}.
Implicit Types (w : W) (k : string).

(** A call of some layered limiter whose remote layer [usable] describes:
    which limiter it is, connected to the server in state [w]. *)
Definition layeredCall {ER SR} `{!Limiter ER SR} (base : SR → Redis.limiter W) (usable : W → SR → string → Prop)
    (e : EL * ER) w (r : Result) w' : Prop :=
  ∃ (l l' : Layered.layered SL SR) key err, usable w (Layered.ll_remote l) key ∧
    Layered.Layered_Allow e l key = Some ((r, err), l') ∧
    Redis.lim_client (base (Layered.ll_remote l')) = w'.

Definition usesToken capacity rate k w (tb : Redis.TokenBucket W) (key : string) : Prop :=
  Redis.tb_capacity tb = capacity ∧ Redis.tb_rate tb = rate ∧ instance tokenSrc w k (Redis.tb_base tb) key.
Definition usesLeaky capacity rate k w (lb : Redis.LeakyBucket W) (key : string) : Prop :=
  Redis.lb_capacity lb = capacity ∧ Redis.lb_rate lb = rate ∧ instance leakySrc w k (Redis.lb_base lb) key.
Definition usesWindow limit window k w (sw : Redis.SlidingWindow W) (key : string) : Prop :=
  Redis.sw_limit sw = limit ∧ Redis.sw_window sw = window ∧ instance windowSrc w k (Redis.sw_base sw) key.

(** Over a Redis token bucket, a Redis leaky bucket, a Redis sliding window. *)
Definition layeredToken capacity rate k := layeredCall Redis.tb_base (usesToken capacity rate k).
Definition layeredLeaky capacity rate k := layeredCall Redis.lb_base (usesLeaky capacity rate k).
Definition layeredWindow limit window k := layeredCall Redis.sw_base (usesWindow limit window k).

(** A Redis limiter returns no error for a key that is not blank. *)
Lemma allow_no_error args (l l' : Redis.limiter W) key r err :
  Redis.validateKey key = None → Redis.allow args l key = ((r, err), l') → err = None.
Proof.
  intros Hk. unfold Redis.allow. rewrite Hk. destruct (Redis.Run _ _ _ _) as [[out s] w].
  repeat case_match; naive_solver.
Qed.

Lemma layeredCall_cases {ER SR} `{!Limiter ER SR} (base : SR → Redis.limiter W) usable e w r w' :
  (∀ w s key, usable w s key → Redis.lim_client (base s) = w) →
  (∀ w s key e r err s', usable w s key → Allow e s key = Some ((r, err), s') → err = None) →
  layeredCall base usable e w r w' →
  w' = w ∧ Allowed r = false ∨
  ∃ s s' key, usable w s key ∧ Allow e.2 s key = Some ((r, None), s') ∧ Redis.lim_client (base s') = w'.
Proof.
  intros Hcl Hne (l & l' & key & err & Hu & Ha & <-).
  destruct (call_remote _ _ _ _ _ Ha) as [[-> Hd]|Hrem]; [left; split; [by eapply Hcl|exact Hd]|right].
  do 3 eexists. split_and!; [exact Hu| |done]. by rewrite Hrem, (Hne _ _ _ _ _ _ _ Hu Hrem).
Qed.

(** What the three limiters have in common here. *)
Lemma token_client w (tb : Redis.TokenBucket W) capacity rate k key :
  usesToken capacity rate k w tb key → Redis.lim_client (Redis.tb_base tb) = w.
Proof. by intros (_ & _ & []). Qed.
Lemma leaky_client w (lb : Redis.LeakyBucket W) capacity rate k key :
  usesLeaky capacity rate k w lb key → Redis.lim_client (Redis.lb_base lb) = w.
Proof. by intros (_ & _ & []). Qed.
Lemma window_client w (sw : Redis.SlidingWindow W) limit window k key :
  usesWindow limit window k w sw key → Redis.lim_client (Redis.sw_base sw) = w.
Proof. by intros (_ & _ & []). Qed.

Ltac never_fails :=
  match goal with |- context [Redis.allow ?a ?l ?key] => destruct (Redis.allow a l key) as [[? ?] ?] eqn:? end;
  intros [= -> -> _]; eapply allow_no_error; [eapply inst_key|]; eassumption.

Lemma token_never_fails w (tb : Redis.TokenBucket W) capacity rate k key e r err tb' :
  usesToken capacity rate k w tb key → Allow e tb key = Some ((r, err), tb') → err = None.
Proof. destruct e. intros (_ & _ & Hi). unfold Allow, Redis.TokenBucket_Allow. never_fails. Qed.
Lemma leaky_never_fails w (lb : Redis.LeakyBucket W) capacity rate k key e r err lb' :
  usesLeaky capacity rate k w lb key → Allow e lb key = Some ((r, err), lb') → err = None.
Proof. destruct e. intros (_ & _ & Hi). unfold Allow, Redis.LeakyBucket_Allow. never_fails. Qed.
Lemma window_never_fails w (sw : Redis.SlidingWindow W) limit window k key e r err sw' :
  usesWindow limit window k w sw key → Allow e sw key = Some ((r, err), sw') → err = None.
Proof. intros (_ & _ & Hi). unfold Allow, Redis.SlidingWindow_Allow. never_fails. Qed.

Lemma layeredToken_cases capacity rate k e w r w' :
  layeredToken capacity rate k e w r w' →
  w' = w ∧ Allowed r = false ∨ tokenCall (tokenSrc := tokenSrc) capacity rate k e.2 w r w'.
Proof.
  intros H. apply layeredCall_cases in H as [?|(s & s' & key & (? & ? & ?) & ? & ?)];
    [by left|right; by exists s, s', key|intros ???; apply token_client|intros ???????; apply token_never_fails].
Qed.

Lemma layeredLeaky_cases capacity rate k e w r w' :
  layeredLeaky capacity rate k e w r w' →
  w' = w ∧ Allowed r = false ∨ leakyCall (leakySrc := leakySrc) capacity rate k e.2 w r w'.
Proof.
  intros H. apply layeredCall_cases in H as [?|(s & s' & key & (? & ? & ?) & ? & ?)];
    [by left|right; by exists s, s', key|intros ???; apply leaky_client|intros ???????; apply leaky_never_fails].
Qed.

Lemma layeredWindow_cases limit window k e w r w' :
  layeredWindow limit window k e w r w' →
  w' = w ∧ Allowed r = false ∨ RedisWindow.windowCall (windowSrc := windowSrc) limit window k e.2 w r w'.
Proof.
  intros H. apply layeredCall_cases in H as [?|(s & s' & key & (? & ? & ?) & ? & ?)];
    [by left|right; by exists s, s', key|intros ???; apply window_client|intros ???????; apply window_never_fails].
Qed.

(** The same for limiters whose keys live at least [ttl_min] milliseconds. *)
Definition lastingLayeredToken ttl_min capacity rate k :=
  layeredCall Redis.tb_base (fun w tb key => ttl_min <= Redis.ttlMs (Redis.tb_base tb) ∧ usesToken capacity rate k w tb key).
Definition lastingLayeredLeaky ttl_min capacity rate k :=
  layeredCall Redis.lb_base (fun w lb key => ttl_min <= Redis.ttlMs (Redis.lb_base lb) ∧ usesLeaky capacity rate k w lb key).

Lemma lastingLayeredToken_cases ttl_min capacity rate k e w r w' :
  lastingLayeredToken ttl_min capacity rate k e w r w' →
  w' = w ∧ Allowed r = false ∨ RedisExpiring.lastingToken (tokenSrc := tokenSrc) ttl_min capacity rate k e.2 w r w'.
Proof.
  intros H. apply layeredCall_cases in H as [?|(s & s' & key & (? & ? & ? & ?) & ? & ?)];
    [by left|right; by exists s, s', key|intros ??? [_ ?]; by eapply token_client|intros ??????? [_ ?]; by eapply token_never_fails].
Qed.

Lemma lastingLayeredLeaky_cases ttl_min capacity rate k e w r w' :
  lastingLayeredLeaky ttl_min capacity rate k e w r w' →
  w' = w ∧ Allowed r = false ∨ RedisExpiring.lastingLeaky (leakySrc := leakySrc) ttl_min capacity rate k e.2 w r w'.
Proof.
  intros H. apply layeredCall_cases in H as [?|(s & s' & key & (? & ? & ? & ?) & ? & ?)];
    [by left|right; by exists s, s', key|intros ??? [_ ?]; by eapply leaky_client|intros ??????? [_ ?]; by eapply leaky_never_fails].
Qed.

(** *** The Redis calls inside a history of the fleet *)

(** An event, as the remote layer sees it. *)
Definition remoteView {E} (ev : event (EL * E)) : event E :=
  mkEvent (ev_env ev).2 (ev_ms ev) (ev_result ev).

Definition isAllowed {E} (ev : event E) : Prop := Allowed (ev_result ev) = true.
#[local] Instance isAllowed_dec {E} (ev : event E) : Decision (isAllowed ev).
Proof. unfold isAllowed. apply _. Defined.

Lemma fleet_history {E} (lstep : EL * E → W → Result → W → Prop) (step : E → W → Result → W → Prop) k w es w' u :
  (∀ e w r w', lstep e w r w' → w' = w ∧ Allowed r = false ∨ step e.2 w r w') →
  history lstep k w es w' → stored u k = stored w k →
  ∃ es' u', history step k u es' u' ∧ sublist es' (remoteView <$> es) ∧
    filter isAllowed es' = filter isAllowed (remoteView <$> es).
Proof.
  intros Hcases Hh. revert u. induction Hh as [w|w w1 e r w2 es w3 Hs Hc Hst _ IH]; intros u Hu.
  { exists [], u. split_and!; constructor. }
  rewrite fmap_cons. destruct (Hcases _ _ _ _ Hst) as [[-> Hd]|Hstep].
  - destruct (IH u) as (es' & u' & Hh' & Hsub & Hf); [congruence|]. exists es', u'. split_and!; [done|by constructor|].
    rewrite filter_cons_False; [exact Hf|]. unfold isAllowed. simpl. by rewrite Hd.
  - destruct (IH w2 eq_refl) as (es' & u' & Hh' & Hsub & Hf).
    exists (mkEvent e.2 (ms w1) r :: es'), u'. split_and!.
    + apply history_cons with w2; [congruence|done..].
    + by constructor.
    + unfold remoteView at 1. simpl. rewrite !filter_cons, Hf. done.
Qed.

Lemma fleet_lifespan {E} (lstep : EL * E → W → Result → W → Prop) (step : E → W → Result → W → Prop) k w es w' u :
  (∀ e w r w', lstep e w r w' → w' = w ∧ Allowed r = false ∨ step e.2 w r w') →
  RedisExpiring.lifespan lstep k w es w' → RedisExpiring.between k u w →
  ∃ es' u', RedisExpiring.lifespan step k u es' u' ∧ sublist es' (remoteView <$> es) ∧
    filter isAllowed es' = filter isAllowed (remoteView <$> es).
Proof.
  intros Hcases Hh. revert u. induction Hh as [w|w w1 e r w2 es w3 Hs Hc Hst _ IH]; intros u Hu.
  { exists [], u. split_and!; constructor. }
  rewrite fmap_cons. pose proof (RedisExpiring.between_trans _ _ _ _ Hu Hs) as Hu1.
  destruct (Hcases _ _ _ _ Hst) as [[-> Hd]|Hstep].
  - destruct (IH u Hu1) as (es' & u' & Hh' & Hsub & Hf). exists es', u'. split_and!; [done|by constructor|].
    rewrite filter_cons_False; [exact Hf|]. unfold isAllowed. simpl. by rewrite Hd.
  - destruct (IH w2) as (es' & u' & Hh' & Hsub & Hf); [split; [lia|by left]|].
    exists (mkEvent e.2 (ms w1) r :: es'), u'. split_and!.
    + apply RedisExpiring.lifespan_cons with w2; done.
    + by constructor.
    + unfold remoteView at 1. simpl. rewrite !filter_cons, Hf. done.
Qed.

Lemma allowed_count_events {E} (es : list (event E)) :
  allowed_count (results es) = Z.of_nat (length (filter isAllowed es)).
Proof.
  induction es as [|ev es IH]; [done|]. unfold results in *. rewrite fmap_cons, allowed_count_cons, IH, filter_cons.
  destruct (decide (isAllowed ev)) as [Ha|Ha%not_true_is_false]; unfold isAllowed in Ha; rewrite Ha; simpl; lia.
Qed.

Lemma granted_events {E} (es : list (event E)) :
  SlidingWindow.granted (instants es) (results es) = ev_ms <$> filter isAllowed es.
Proof.
  induction es as [|ev es IH]; [done|]. unfold results, instants in *. rewrite !fmap_cons, filter_cons.
  cbn [SlidingWindow.granted].
  destruct (decide (isAllowed ev)) as [Ha|Ha%not_true_is_false]; unfold isAllowed in Ha; rewrite Ha;
    [by rewrite fmap_cons, IH|exact IH].
Qed.

Lemma filter_remoteView {E} (es : list (event (EL * E))) :
  filter isAllowed (remoteView <$> es) = remoteView <$> filter isAllowed es.
Proof.
  induction es as [|ev es IH]; [done|]. rewrite fmap_cons, !filter_cons, IH.
  destruct (decide (isAllowed ev)) as [Ha|Ha], (decide (isAllowed (remoteView ev))) as [Ha'|Ha'];
    [reflexivity|by destruct Ha'|by destruct Ha|reflexivity].
Qed.

Lemma instants_remoteView {E} (es : list (event (EL * E))) : instants (remoteView <$> es) = instants es.
Proof. unfold instants. rewrite <- list_fmap_compose. reflexivity. Qed.

Lemma latest_le t1 t l : t <= t1 → Forall (fun u => u <= t1) l → latest t l <= t1.
Proof.
  unfold latest. intros Ht Hl. revert t Ht. induction Hl as [|u l Hu _ IH]; intros t Ht; simpl; [done|].
  apply IH. lia.
Qed.

Lemma final_latest t l : final t l <= latest t l.
Proof.
  revert t. unfold latest. induction l as [|u l IH]; intros t; [unfold final; simpl; lia|].
  rewrite final_cons. simpl. specialize (IH u). assert (foldl Z.max u l <= foldl Z.max (Z.max t u) l); [|lia].
  clear IH. generalize (Z.le_max_r t u). generalize (Z.max t u). revert u. induction l as [|v l IH]; intros u m Hm; simpl; [done|].
  apply IH. lia.
Qed.

(** A bound on the Redis calls is a bound on the fleet's. *)
Lemma fleet_quota {E} capacity rate (es : list (event (EL * E))) (es' : list (event E)) t0 t1 :
  Numeric.params_ok capacity rate →
  (∀ first rest, instants es' = first :: rest →
    allowed_count (results es') * unit_sc * 2 ^ 52 * 1000
      <= fval capacity * 2 ^ 52 * 1000 + (latest first rest - first) * fval rate * (2 ^ 52 + 3)
         + Z.of_nat (length es') * step_error capacity * 1000) →
  sublist es' (remoteView <$> es) → filter isAllowed es' = filter isAllowed (remoteView <$> es) →
  t0 <= t1 → Forall (fun u => t0 <= u <= t1) (instants es) →
  allowed_count (results es) * unit_sc * 2 ^ 52 * 1000
    <= fval capacity * 2 ^ 52 * 1000 + (t1 - t0) * fval rate * (2 ^ 52 + 3)
       + Z.of_nat (length es) * step_error capacity * 1000.
Proof.
  intros (Hf & Hc & Hrf & Hr) Hq Hsub Hfil Ht Hin.
  assert (Hn : allowed_count (results es) = allowed_count (results es')).
  { by rewrite !allowed_count_events, Hfil, filter_remoteView, length_fmap. }
  assert (Hlen : (length es' <= length es)%nat).
  { apply sublist_length in Hsub. by rewrite length_fmap in Hsub. }
  assert (Herr : 0 <= step_error capacity).
  { pose proof unit_sc_pos. pose proof tiny_pos. unfold step_error. lia. }
  assert (Hin' : Forall (fun u => t0 <= u <= t1) (instants es')).
  { rewrite <- instants_remoteView in Hin. unfold instants in *.
    eapply Forall_sublist; [|exact Hin]. by apply fmap_sublist. }
  rewrite Hn. pose proof unit_sc_pos. destruct (instants es') as [|first rest] eqn:Ei.
  - assert (es' = []) as -> by (by destruct es').
    change (allowed_count (results [])) with 0. nia.
  - specialize (Hq first rest eq_refl). apply Forall_cons in Hin' as [Hfirst Hrest].
    assert (latest first rest <= t1).
    { apply latest_le; [lia|]. eapply Forall_impl; [exact Hrest|]. simpl. lia. }
    assert ((latest first rest - first) * fval rate <= (t1 - t0) * fval rate) by nia.
    assert (Z.of_nat (length es') * step_error capacity <= Z.of_nat (length es) * step_error capacity) by nia. lia.
Qed.

(** ** Properties *)

(** The quota of a fleet of layered limiters.  Any number of layered
    limiters, with any local limiters, over Redis token buckets of one
    capacity and rate, or over Redis leaky buckets, call [Allow] for one key of
    one server, in any order, with anything between two calls that keeps the
    key.  Within any time span that contains all the calls, at most [capacity
    + rate * span] requests pass, up to the rounding of the scripts: no local
    layer, whatever it decides or fails to decide, lets more requests through
    than the server's one bucket holds. *)
Theorem layered_redis_quota capacity rate k w es w' t0 t1 :
  Numeric.params_ok capacity rate → fval capacity < 2 ^ 53 * unit_sc → unit_sc <= fval rate * 10 ^ 9 →
  history (layeredToken capacity rate k) k w es w' ∨ history (layeredLeaky capacity rate k) k w es w' →
  stored w k = VNone → t0 <= t1 → Forall (fun u => t0 <= u <= t1) (instants es) →
  allowed_count (results es) * unit_sc * 2 ^ 52 * 1000
    <= fval capacity * 2 ^ 52 * 1000 + (t1 - t0) * fval rate * (2 ^ 52 + 3)
       + Z.of_nat (length es) * step_error capacity * 1000.
Proof.
  intros Hp Hcap Hrate Hh Hn Ht Hin. pose proof Hp as (Hf & H1 & _). pose proof unit_sc_pos. destruct Hh as [Hh|Hh].
  - destruct (fleet_history _ (tokenCall capacity rate k) k w es w' w (layeredToken_cases _ _ _) Hh eq_refl)
      as (es' & u' & Hh' & Hsub & Hfil).
    refine (fleet_quota capacity rate es es' t0 t1 Hp _ Hsub Hfil Ht Hin).
    eapply (history_quota capacity rate k "tokens" "last_refilled_ms" capacity (fun _ => True) fval);
      [lia| |exact Hh'|done|done|lia|done]. intros. eapply tokenCall_step; done.
  - destruct (fleet_history _ (leakyCall capacity rate k) k w es w' w (layeredLeaky_cases _ _ _) Hh eq_refl)
      as (es' & u' & Hh' & Hsub & Hfil). destruct (of_int_exact 0) as [H0f H0v]; [lia|].
    refine (fleet_quota capacity rate es es' t0 t1 Hp _ Hsub Hfil Ht Hin).
    eapply (history_quota capacity rate k "water" "last_leak_ms" (F64.of_int 0) whole_drops (fun l => fval capacity - fval l));
      [lia| |exact Hh'|done|done|lia|lia]. intros. eapply leakyCall_step; done.
Qed.

(** C11: the fleet's quota when keys expire.  As above, but between two calls
    the key may also expire at its deadline, while the server's clock does not
    go back: the quota holds if the TTL of every Redis limiter is at least the
    time in which an empty bucket fills up. *)
Theorem layered_expiring_quota capacity rate ttl_min k w es w' t0 t1 :
  Numeric.params_ok capacity rate → fval capacity < 2 ^ 53 * unit_sc → unit_sc <= fval rate * 10 ^ 9 →
  0 < ttl_min → fval capacity * 1000 <= ttl_min * fval rate →
  RedisExpiring.lifespan (lastingLayeredToken ttl_min capacity rate k) k w es w' ∨
    RedisExpiring.lifespan (lastingLayeredLeaky ttl_min capacity rate k) k w es w' →
  stored w k = VNone → t0 <= t1 → Forall (fun u => t0 <= u <= t1) (instants es) →
  allowed_count (results es) * unit_sc * 2 ^ 52 * 1000
    <= fval capacity * 2 ^ 52 * 1000 + (t1 - t0) * fval rate * (2 ^ 52 + 3)
       + Z.of_nat (length es) * step_error capacity * 1000.
Proof.
  intros Hp Hcap Hrate Ht Htr Hh Hn Ht01 Hin. pose proof Hp as (_ & _ & _ & Hr).
  assert (∃ es' u', (RedisExpiring.lifespan (RedisExpiring.lastingToken (tokenSrc := tokenSrc) ttl_min capacity rate k) k w es' u' ∨
      RedisExpiring.lifespan (RedisExpiring.lastingLeaky (leakySrc := leakySrc) ttl_min capacity rate k) k w es' u') ∧
    sublist es' (remoteView <$> es) ∧ filter isAllowed es' = filter isAllowed (remoteView <$> es))
    as (es' & u' & Hh' & Hsub & Hfil).
  { destruct Hh as [Hh|Hh].
    - destruct (fleet_lifespan _ _ k w es w' w (lastingLayeredToken_cases _ _ _ _) Hh) as (es' & u' & ? & ?);
        [split; [lia|by left]|]. eauto.
    - destruct (fleet_lifespan _ _ k w es w' w (lastingLayeredLeaky_cases _ _ _ _) Hh) as (es' & u' & ? & ?);
        [split; [lia|by left]|]. eauto. }
  refine (fleet_quota capacity rate es es' t0 t1 Hp _ Hsub Hfil Ht01 Hin). intros first rest Hi.
  destruct (RedisExpiring.lasting_quota capacity rate ttl_min Hp Hcap Hrate (conj Ht Htr) k w es' u' Hh' Hn) as [_ Hq].
  specialize (Hq first rest Hi). pose proof (final_latest first rest).
  assert ((final first rest - first) * fval rate <= (latest first rest - first) * fval rate) by nia. lia.
Qed.

(** The same fleet over Redis sliding windows: no interval of the length
    of the window holds more than [limit] requests that passed, while the
    server's clock does not go back and random members do not repeat. *)
Theorem layered_redis_window limit window k w es w' t0 :
  0 < limit < 2 ^ 53 → GoTime.Millisecond <= window <= int64_max →
  history (layeredWindow limit window k) k w es w' → stored w k = VNone →
  nondecreasing t0 (instants es) → salts_ok (salts (remoteView <$> es)) →
  ∀ a, Z.of_nat (length (SlidingWindow.within (GoTime.Milliseconds window) a
    (SlidingWindow.granted (instants es) (results es)))) <= limit.
Proof.
  intros Hl Hw Hh Hn Hm [Hs1 Hs2] a.
  destruct (fleet_history _ (windowCall limit window k) k w es w' w (layeredWindow_cases _ _ _) Hh eq_refl)
    as (es' & u' & Hh' & Hsub & Hfil).
  replace (SlidingWindow.granted (instants es) (results es)) with (SlidingWindow.granted (instants es') (results es')).
  - eapply (history_window limit window k w es' u' t0); [done..| |].
    + rewrite <- instants_remoteView in Hm. eapply nondecreasing_sublist; [|exact Hm]. by apply fmap_sublist.
    + assert (Hss : sublist (salts es') (salts (remoteView <$> es))) by by apply fmap_sublist.
      split; [by eapply sublist_NoDup|by eapply Forall_sublist].
  - rewrite !granted_events, Hfil, filter_remoteView, <- list_fmap_compose. done.
Qed.

End Fleet.
(** ** Witnesses: a fleet on the simulated server *)

(** A local layer that the environment switches on and off. *)
Definition switch : Limiter bool unit := fun on s _ => Some ((mkResult on 0 0, None), s).

Definition front {SR} (remote : SR) : Layered.layered unit SR := Layered.mkLayered tt remote None [].

(** Two calls pass; in between, a local layer denies one; half a second later
    the server denies one. *)
Definition fleetEvents : list (event (bool * unit)) :=
  [mkEvent (true, tt) 1000 (mkResult true 1 0); mkEvent (false, tt) 1000 (mkResult false 0 0);
   mkEvent (true, tt) 1000 (mkResult true 0 0); mkEvent (true, tt) 1500 (mkResult false 0 500000000)].

Ltac fleet_call l l' :=
  exists (front l), (front l'), "a"%string, None; split_and!;
    [split_and!; [reflexivity|reflexivity|apply sim_instance; reflexivity]|vm_compute; reflexivity|vm_compute; reflexivity].

Lemma fleet_tokens :
  history (layeredToken (tokenSrc := tokenSrc) (local_limiter := switch) (F64.of_int 2) (F64.of_int 1) "kaka:a")
    "kaka:a" empty fleetEvents (tokenNext (advance (tokenNext (tokenNext empty)) 500000)).
Proof.
  set (s1 := tokenNext empty). set (s2 := tokenNext s1). set (s3 := advance s2 500000).
  apply (history_at _ _ empty empty (true, tt) _ _ s1); [reflexivity..|fleet_call (tokenAt empty) (tokenAfter empty)|].
  apply (history_at _ _ s1 s1 (false, tt) _ _ s1); [reflexivity|vm_compute; reflexivity..|fleet_call (tokenAt s1) (tokenAt s1)|].
  apply (history_at _ _ s1 s1 (true, tt) _ _ s2); [reflexivity|vm_compute; reflexivity..|fleet_call (tokenAt s1) (tokenAfter s1)|].
  apply (history_at _ _ s2 s3 (true, tt) _ _ (tokenNext s3)); [vm_compute; reflexivity..|fleet_call (tokenAt s3) (tokenAfter s3)|].
  constructor.
Qed.

Lemma layered_redis_quota_witness :
  allowed_count (results fleetEvents) = 2 ∧
  allowed_count (results fleetEvents) * unit_sc * 2 ^ 52 * 1000
    <= fval (F64.of_int 2) * 2 ^ 52 * 1000 + (1500 - 1000) * fval (F64.of_int 1) * (2 ^ 52 + 3)
       + Z.of_nat (length fleetEvents) * step_error (F64.of_int 2) * 1000.
Proof.
  split; [reflexivity|]. destruct sim_rates as (Hp & Hc & Hr).
  eapply (layered_redis_quota (F64.of_int 2) (F64.of_int 1));
    [exact Hp|exact Hc|exact Hr|left; exact fleet_tokens|reflexivity|lia|].
  change (instants fleetEvents) with [1000; 1000; 1000; 1500]. rewrite !Forall_cons, Forall_nil. lia.
Defined.

(** Two calls pass, a local layer denies one, and after the key has expired
    another one passes. *)
Definition fleetShortEvents : list (event (bool * unit)) :=
  [mkEvent (true, tt) 1000 (mkResult true 1 0); mkEvent (true, tt) 1000 (mkResult true 0 0);
   mkEvent (false, tt) 1000 (mkResult false 0 0); mkEvent (true, tt) 4000 (mkResult true 1 0)].

Ltac fleet_lasting l l' :=
  exists (front l), (front l'), "a"%string, None; split_and!;
    [vm_compute; discriminate|split_and!; [reflexivity|reflexivity|constructor; [done|by left|done|reflexivity|done|split; vm_compute; discriminate]]
    |vm_compute; reflexivity|vm_compute; reflexivity].

Lemma fleet_short :
  ∃ w', RedisExpiring.lifespan (lastingLayeredToken (tokenSrc := tokenSrc) (local_limiter := switch) 2000 (F64.of_int 2)
    (F64.of_int 1) "kaka:a") "kaka:a" empty fleetShortEvents w'.
Proof.
  set (s1 := RedisExpiring.tokenShortNext empty). set (s2 := RedisExpiring.tokenShortNext s1).
  set (s3 := advance s2 3000000). exists (RedisExpiring.tokenShortNext s3).
  apply (RedisExpiring.lifespan_at _ _ empty empty (true, tt) _ _ s1); [RedisExpiring.sim_kept|reflexivity..| |].
  { fleet_lasting (RedisExpiring.tokenShort empty) (RedisExpiring.tokenShortAfter empty). }
  apply (RedisExpiring.lifespan_at _ _ s1 s1 (true, tt) _ _ s2); [RedisExpiring.sim_kept|vm_compute; reflexivity..| |].
  { fleet_lasting (RedisExpiring.tokenShort s1) (RedisExpiring.tokenShortAfter s1). }
  apply (RedisExpiring.lifespan_at _ _ s2 s2 (false, tt) _ _ s2); [RedisExpiring.sim_kept|vm_compute; reflexivity..| |].
  { fleet_lasting (RedisExpiring.tokenShort s2) (RedisExpiring.tokenShort s2). }
  apply (RedisExpiring.lifespan_at _ _ s2 s3 (true, tt) _ _ (RedisExpiring.tokenShortNext s3));
    [RedisExpiring.sim_expired 4000|vm_compute; reflexivity..| |].
  { fleet_lasting (RedisExpiring.tokenShort s3) (RedisExpiring.tokenShortAfter s3). }
  constructor.
Qed.

Lemma layered_expiring_quota_witness :
  allowed_count (results fleetShortEvents) = 3 ∧
  allowed_count (results fleetShortEvents) * unit_sc * 2 ^ 52 * 1000
    <= fval (F64.of_int 2) * 2 ^ 52 * 1000 + (4000 - 1000) * fval (F64.of_int 1) * (2 ^ 52 + 3)
       + Z.of_nat (length fleetShortEvents) * step_error (F64.of_int 2) * 1000.
Proof.
  split; [reflexivity|]. destruct sim_rates as (Hp & Hc & Hr). destruct fleet_short as [w' Hh].
  eapply (layered_expiring_quota (F64.of_int 2) (F64.of_int 1) 2000);
    [exact Hp|exact Hc|exact Hr|lia| |left; exact Hh|reflexivity|lia|].
  - destruct (of_int_exact 2) as [_ ->]; [lia|]. destruct (of_int_exact 1) as [_ ->]; [lia|]. lia.
  - change (instants fleetShortEvents) with [1000; 1000; 1000; 4000]. rewrite !Forall_cons, Forall_nil. lia.
Defined.

Definition fleetWindowEvents : list (event (bool * Z)) :=
  [mkEvent (true, 7) 1000 (mkResult true 1 0); mkEvent (false, 5) 1000 (mkResult false 0 0);
   mkEvent (true, 8) 1000 (mkResult true 0 0); mkEvent (true, 9) 1500 (mkResult false 0 500000000)].

Lemma fleet_windows :
  history (layeredWindow (windowSrc := windowSrc) (local_limiter := switch) 2 GoTime.Second "kaka:a")
    "kaka:a" empty fleetWindowEvents (windowNext 9 (advance (windowNext 8 (windowNext 7 empty)) 500000)).
Proof.
  set (s1 := windowNext 7 empty). set (s2 := windowNext 8 s1). set (s3 := advance s2 500000).
  apply (history_at _ _ empty empty (true, 7) _ _ s1); [reflexivity..|fleet_call (windowAt empty) (windowAfter 7 empty)|].
  apply (history_at _ _ s1 s1 (false, 5) _ _ s1); [reflexivity|vm_compute; reflexivity..|fleet_call (windowAt s1) (windowAt s1)|].
  apply (history_at _ _ s1 s1 (true, 8) _ _ s2); [reflexivity|vm_compute; reflexivity..|fleet_call (windowAt s1) (windowAfter 8 s1)|].
  apply (history_at _ _ s2 s3 (true, 9) _ _ (windowNext 9 s3)); [vm_compute; reflexivity..|fleet_call (windowAt s3) (windowAfter 9 s3)|].
  constructor.
Qed.

Lemma layered_redis_window_witness :
  ∀ a, Z.of_nat (length (SlidingWindow.within (GoTime.Milliseconds GoTime.Second) a
    (SlidingWindow.granted (instants fleetWindowEvents) (results fleetWindowEvents)))) <= 2.
Proof.
  eapply (layered_redis_window 2 GoTime.Second _ _ _ _ 0).
  - lia.
  - split; vm_compute; discriminate.
  - exact fleet_windows.
  - reflexivity.
  - repeat split; vm_compute; discriminate.
  - split; [apply (bool_decide_unpack _); vm_compute; exact I|].
    change (salts (remoteView <$> fleetWindowEvents)) with [7; 5; 8; 9]. rewrite !Forall_cons, Forall_nil. lia.
Defined.

End LayeredRedis.
