(* ===== verification/ContractTest.v ===== *)
(** * ContractTest: the shared behaviour tests (internal/contracttest)

    The test helpers that every implementation of the [Limiter] interface is
    run through, as functions of any limiter: a test passes, fails with the
    format string of its [t.Fatal], or hangs.  The calls of concurrent
    workers take effect one after another, in an order that the model is
    given, each with the clock reading it brought (concurrent_refinement and
    ConcurrentSeq.v justify this for package memory).  The in-memory limiters
    pass, whatever that order and whatever the order of the readings, when the
    test is not too slow. *)

From Stdlib Require Import ZArith Lia Bool Ascii.
From stdpp Require Import base strings list.
From S2P Require Import Prelude Float64 FloatFacts GoTime Core GoString Numeric Options.
From S2P Require Import StateStore ShardedStore StoreSpec TokenBucket LeakyBucket SlidingWindow.
From S2P Require Import MemoryLimiter MemoryLimiters MemoryProps.

#[local] Open Scope Z_scope.
#[local] Open Scope kaka_scope.

Module ContractTest.

(** ** The helpers *)

Inductive verdict (S : Type) :=
| Passed (limiter : S)
| Fatal (msg : string)
| Hung.
#[global] Arguments Passed {S}.
#[global] Arguments Fatal {S}.
#[global] Arguments Hung {S}.

Definition fatal_if {S} (b : bool) (msg : string) (rest : verdict S) : verdict S :=
  if b then Fatal msg else rest.

Definition failed (err : option error) : bool := match err with Some _ => true | None => false end.

(** The number of goroutines. *)
Definition workers : nat := 32.

(** What the calls of the four tests read from their environment; for the
    concurrent tests, the workers in the order in which their calls take
    effect. *)
Record testEnv (E : Type) := mkTestEnv {
  first_call : E;
  second_call : E;
  same_key : list (nat * E);
  multiple_keys : list (nat * E);
  empty_key : E;
  blank_key : E
}.
#[global] Arguments mkTestEnv {E}.
#[global] Arguments first_call {E}.
#[global] Arguments second_call {E}.
#[global] Arguments same_key {E}.
#[global] Arguments multiple_keys {E}.
#[global] Arguments empty_key {E}.
#[global] Arguments blank_key {E}.

Section Tests.
Context {E S : Type} {L : Limiter E S}.

Definition call (e : E) (key : string) (limiter : S) (k : Result → option error → S → verdict S) : verdict S :=
  match Allow e limiter key with
  | None => Hung
  | Some ((result, err), limiter) => k result err limiter
  end.

Definition runResultBoundaryTest (env : testEnv E) (limiter : S) : verdict S :=
  call (first_call env) "user:1" limiter (fun allowed err limiter =>
  fatal_if (failed err) "unexpected error on first allow: %v" (
  fatal_if (negb (Allowed allowed)) "expected first request to be allowed" (
  fatal_if (Remaining allowed <? 0) "expected non-negative remaining on allow, got %d" (
  fatal_if (negb (RetryAfter allowed =? 0)) "expected retryAfter=0 on allow, got %v" (
  call (second_call env) "user:1" limiter (fun denied err limiter =>
  fatal_if (failed err) "unexpected error on second allow: %v" (
  fatal_if (Allowed denied) "expected second request to be denied" (
  fatal_if (negb (Remaining denied =? 0)) "expected remaining=0 on deny, got %d" (
  fatal_if (RetryAfter denied <? 0) "expected non-negative retryAfter on deny, got %v" (
  fatal_if (RetryAfter denied =? 0) "expected positive retryAfter on deny" (
  Passed limiter))))))))))).

(** The loop over the results of the workers. *)
Fixpoint checkOutcomes (outs : list (Result * option error)) : option string :=
  match outs with
  | [] => None
  | (result, err) :: outs =>
      if failed err then Some "unexpected error during concurrent allow: %v"
      else if Remaining result <? 0 then Some "expected non-negative remaining, got %d"
      else if RetryAfter result <? 0 then Some "expected non-negative retryAfter, got %v"
      else checkOutcomes outs
  end.

(** Start the workers, wait for all of them, check what they sent. *)
Definition runWorkers (keyOf : nat → string) (schedule : list (nat * E)) (limiter : S) : verdict S :=
  match requests limiter ((fun p => (p.2, keyOf p.1)) <$> schedule) with
  | None => Hung
  | Some (outs, limiter) =>
      match checkOutcomes outs with Some msg => Fatal msg | None => Passed limiter end
  end.

Definition sharedKey (_ : nat) : string := "user:shared".
Definition workerKey (i : nat) : string :=
  "user:" +:+ String (ascii_of_nat (48 + i mod 4)) EmptyString.

Definition runConcurrentSameKeyTest (env : testEnv E) (limiter : S) : verdict S :=
  runWorkers sharedKey (same_key env) limiter.

Definition runConcurrentMultipleKeysTest (env : testEnv E) (limiter : S) : verdict S :=
  runWorkers workerKey (multiple_keys env) limiter.

Definition runBlankKeyErrorTest (env : testEnv E) (limiter : S) : verdict S :=
  call (empty_key env) "" limiter (fun _ err limiter =>
  fatal_if (negb (failed err)) "expected error for empty key" (
  call (blank_key env) "   " limiter (fun _ err limiter =>
  fatal_if (negb (failed err)) "expected error for blank key" (
  Passed limiter)))).

Definition andThen (v : verdict S) (k : S → verdict S) : verdict S :=
  match v with Passed limiter => k limiter | _ => v end.

(** The body of [t.Run]. *)
Definition runCase (env : testEnv E) (limiter : S) : verdict S :=
  andThen (runResultBoundaryTest env limiter) (fun limiter =>
  andThen (runConcurrentSameKeyTest env limiter) (fun limiter =>
  andThen (runConcurrentMultipleKeysTest env limiter) (fun limiter =>
  runBlankKeyErrorTest env limiter))).

End Tests.

(** A case: its name, the limiter it makes, and what the test reads while it
    runs. *)
Record LimiterCase := mkCase {
  Name : string;
  CaseEnv : Type;
  CaseState : Type;
  CaseLimiter : Limiter CaseEnv CaseState;
  New : outcome CaseState;
  case_env : testEnv CaseEnv
}.

Inductive subtest :=
| SubPassed
| SubFailed (msg : string)
| SubHung
| SubPanicked (msg : string).

Definition runSubtest (tc : LimiterCase) : subtest :=
  match New tc with
  | Panics msg => SubPanicked msg
  | Returns limiter =>
      match runCase (L := CaseLimiter tc) (case_env tc) limiter with
      | Passed _ => SubPassed
      | Fatal msg => SubFailed msg
      | Hung => SubHung
      end
  end.

(** The outcome of every subtest, by name. *)
Definition RunLimiterBehaviorTests (cases : list LimiterCase) : list (string * subtest) :=
  (fun tc => (Name tc, runSubtest tc)) <$> cases.

(** ** When a case passes *)

Section Passing.
Context {E S : Type} {L : Limiter E S}.

(** The calls of a case, in order. *)
Definition calls (env : testEnv E) : list (E * string) :=
  [(first_call env, "user:1"); (second_call env, "user:1")] ++
  ((fun p => (p.2, sharedKey p.1)) <$> same_key env) ++
  ((fun p => (p.2, workerKey p.1)) <$> multiple_keys env) ++
  [(empty_key env, ""); (blank_key env, "   ")].

Lemma requests_app (l : S) (xs ys : list (E * string)) :
  requests l (xs ++ ys) =
  match requests l xs with
  | None => None
  | Some (rs, l') =>
      match requests l' ys with None => None | Some (rs', l'') => Some (rs ++ rs', l'') end
  end.
Proof.
  revert l. induction xs as [|[e key] xs IH]; intros l; cbn [requests app].
  { by destruct (requests l ys) as [[rs l']|]. }
  destruct (Allow e l key) as [[r l1]|]; [|done]. rewrite IH.
  destruct (requests l1 xs) as [[rs l2]|]; [|done]. by destruct (requests l2 ys) as [[rs' l3]|].
Qed.

Lemma requests_length (l : S) (xs : list (E * string)) rs l' :
  requests l xs = Some (rs, l') → length rs = length xs.
Proof.
  revert l rs. induction xs as [|[e key] xs IH]; intros l rs; cbn [requests]; [by intros [= <- _]|].
  destruct (Allow e l key) as [[r l1]|]; [|done]. destruct (requests l1 xs) as [[rs1 l2]|] eqn:Er; [|done].
  intros [= <- ->]. simpl. f_equal. by eapply IH.
Qed.

(** A result that the loop over the outcomes accepts. *)
Definition fine (r : Result * option error) : Prop := r.2 = None ∧ 0 <= Remaining r.1 ∧ 0 <= RetryAfter r.1.

Lemma checkOutcomes_fine outs : Forall fine outs → checkOutcomes outs = None.
Proof.
  induction 1 as [|[r err] outs (He & H1 & H2) _ IH]; [done|]. simpl in *. subst err. simpl.
  zbool; [lia..|done].
Qed.

(** What the results must be for the case to pass. *)
Definition first_ok (r : Result * option error) : Prop :=
  fine r ∧ Allowed r.1 = true ∧ RetryAfter r.1 = 0.
Definition second_ok (r : Result * option error) : Prop :=
  fine r ∧ Allowed r.1 = false ∧ Remaining r.1 = 0 ∧ 0 < RetryAfter r.1.

(** A blank key must fail, any other must not. *)
Definition call_fine (c : E * string) (r : Result * option error) : Prop :=
  (GoString.Blank c.2 → r.2 ≠ None) ∧ (¬ GoString.Blank c.2 → fine r).

Lemma sharedKey_valid i : ¬ GoString.Blank (sharedKey i).
Proof. rewrite <- GoString.TrimSpace_empty_iff. vm_compute. discriminate. Qed.

Lemma workerKey_valid i : ¬ GoString.Blank (workerKey i).
Proof.
  rewrite <- GoString.TrimSpace_empty_iff. unfold workerKey.
  assert (i mod 4 < 4)%nat as Hi by (apply Nat.mod_upper_bound; lia).
  destruct (i mod 4)%nat as [|[|[|[|n]]]]; [vm_compute; discriminate..|lia].
Qed.

Lemma runWorkers_passes keyOf schedule l rs l' :
  (∀ i, ¬ GoString.Blank (keyOf i)) →
  requests l ((fun p => (p.2, keyOf p.1)) <$> schedule) = Some (rs, l') →
  Forall2 call_fine ((fun p => (p.2, keyOf p.1)) <$> schedule) rs →
  runWorkers keyOf schedule l = Passed l'.
Proof.
  intros Hk Hreq Hrs. unfold runWorkers. rewrite Hreq, checkOutcomes_fine; [done|].
  eapply Forall2_Forall_r; [exact Hrs|]. apply Forall_fmap, Forall_forall. intros [i e] _ r [_ Hr]. apply Hr, Hk.
Qed.

(** The condition on the results of all calls under which the case passes. *)
Lemma runCase_passes l env rs l' :
  requests l (calls env) = Some (rs, l') → Forall2 call_fine (calls env) rs →
  (∃ r1 r2 rest, rs = r1 :: r2 :: rest ∧ first_ok r1 ∧ second_ok r2) →
  runCase env l = Passed l'.
Proof.
  intros Hreq Hf (r1 & r2 & rest & -> & H1 & H2). unfold calls in *. rewrite !requests_app in Hreq.
  unfold runCase, runResultBoundaryTest, call. cbn [requests app] in Hreq.
  destruct (Allow (first_call env) l "user:1") as [[[a1 e1] l1]|]; [|done].
  destruct (Allow (second_call env) l1 "user:1") as [[[a2 e2] l2]|]; [|done].
  set (xs := (fun p : nat * E => (p.2, sharedKey p.1)) <$> same_key env) in *.
  set (ys := (fun p : nat * E => (p.2, workerKey p.1)) <$> multiple_keys env) in *.
  rewrite !requests_app in Hreq. destruct (requests l2 xs) as [[rs1 l3]|] eqn:E1; [|done].
  rewrite requests_app in Hreq. destruct (requests l3 ys) as [[rs2 l4]|] eqn:E2; [|done].
  cbn [requests] in Hreq.
  destruct (Allow (empty_key env) l4 "") as [[[a5 e5] l5]|] eqn:E5; [|done].
  destruct (Allow (blank_key env) l5 "   ") as [[[a6 e6] l6]|] eqn:E6; [|done].
  injection Hreq as <- <- <- <-.
  destruct H1 as ((He1 & Hn1 & _) & Ha1 & Hr1). destruct H2 as ((He2 & _ & _) & Ha2 & Hm2 & Hr2).
  cbn [fst snd] in *. subst e1 e2. cbn [failed fatal_if]. rewrite Ha1, Ha2, Hr1, Hm2.
  replace (Remaining a1 <? 0) with false by (symmetry; apply Z.ltb_ge; lia).
  replace (RetryAfter a2 <? 0) with false by (symmetry; apply Z.ltb_ge; lia).
  replace (RetryAfter a2 =? 0) with false by (symmetry; apply Z.eqb_neq; lia).
  cbn [negb Z.eqb fatal_if andThen].
  cbn [app] in Hf. apply Forall2_cons in Hf as [_ Hf]. apply Forall2_cons in Hf as [_ Hf].
  apply Forall2_app_inv in Hf as [Hf1 Hf]; [|symmetry; by eapply requests_length].
  apply Forall2_app_inv in Hf as [Hf2 Hf]; [|symmetry; by eapply requests_length].
  apply Forall2_cons in Hf as [[Hb5 _] Hf]. apply Forall2_cons in Hf as [[Hb6 _] _].
  unfold runConcurrentSameKeyTest. rewrite (runWorkers_passes _ _ _ _ _ sharedKey_valid E1 Hf1). cbn [andThen].
  unfold runConcurrentMultipleKeysTest. rewrite (runWorkers_passes _ _ _ _ _ workerKey_valid E2 Hf2). cbn [andThen].
  unfold runBlankKeyErrorTest, call. rewrite E5.
  destruct e5 as [e5|]; [|by destruct Hb5; [by apply GoString.TrimSpace_empty_iff|]]. cbn [failed negb fatal_if].
  rewrite E6. destruct e6 as [e6|]; [done|]. by destruct Hb6; [by apply GoString.TrimSpace_empty_iff|].
Qed.

End Passing.

(** ** The in-memory limiters *)

Import MemoryLimiter Memory MemoryProps.

(** Each of the workers makes one call; the calls take effect in any order,
    and the clock readings of the workers come in any order as well, since a
    worker reads the clock before it waits for a lock; all readings lie within
    292 years; and the second call, which the same goroutine makes after the
    first, comes within [gap] of it. *)
Definition timely {X} (gap : Duration) (env : testEnv (Time * X)) : Prop :=
  (same_key env).*1 ≡ₚ seq 0 workers ∧ (multiple_keys env).*1 ≡ₚ seq 0 workers ∧
  (∃ t0 t1, t1 - t0 <= int64_max ∧ Forall (fun t => t0 <= t <= t1) (calls env).*1.*1) ∧
  (first_call env).1 <= (second_call env).1 <= (first_call env).1 + gap.

Lemma timely_calls {X} gap (env : testEnv (Time * X)) : timely gap env → Z.of_nat (length (calls env)) <= 2 ^ 40.
Proof.
  intros (H1%Permutation_length & H2%Permutation_length & _). unfold calls.
  rewrite length_fmap, length_seq in H1, H2. rewrite !length_app, !length_fmap, H1, H2. unfold workers. simpl. lia.
Qed.

Section Memory.
Context {T : Type} (create : Time → T) (decide : T → Time → T * (Result * option error)) (gap : Duration).
Hypothesis Hany : ∀ t0 t1 first nows, t1 - t0 <= int64_max → t0 <= first <= t1 →
  Forall (fun t => t0 <= t <= t1) nows → Z.of_nat (length nows) <= 2 ^ 40 →
  Forall result_ok (replay decide (create first) nows).2.
Hypothesis Htotal : ∀ v now, (decide v now).2.2 = None.
Hypothesis Hfirst : ∀ now, Allowed (decide (create now) now).2.1 = true.
Hypothesis Hsecond : ∀ now now', now <= now' <= now + gap →
  let r := (decide (decide (create now) now).1 now').2.1 in Allowed r = false ∧ 0 < RetryAfter r.

(** What any calls on a new limiter give, in any order of their instants. *)
Lemma memory_outcomes (reqs : list (Memory.env T * string)) t0 t1 :
  t1 - t0 <= int64_max → Forall (fun t => t0 <= t <= t1) reqs.*1.*1 → Z.of_nat (length reqs) <= 2 ^ 40 →
  ∃ rs l', serve (create := create) decide
      (mkLimiter Options.defaultOptions (Store.newShardedStore Options.defaultOptions) []) reqs = Some (rs, l') ∧
    Forall2 (fun c r => match r.2 with
                        | None => ¬ GoString.Blank c.2 ∧ result_ok r.1
                        | Some _ => GoString.Blank c.2 end) reqs rs ∧
    ∀ key, (servedFor key reqs rs).*2 = alone decide (create := create) None (servedFor key reqs rs).*1.
Proof.
  intros Hspan Hin Hlen. assert (Options.options_ok Options.defaultOptions) as Ho
    by (apply (Options.buildOptions_ok []); reflexivity).
  assert (∀ key, ∃ rs l', serve (create := create) decide
      (mkLimiter Options.defaultOptions (Store.newShardedStore Options.defaultOptions) []) reqs = Some (rs, l') ∧
    length rs = length reqs ∧ (servedFor key reqs rs).*2 = alone decide (create := create) None (servedFor key reqs rs).*1) as Hkey.
  { intros key. apply new_isolated; [exact Ho|split; [done|by left]|exact Htotal]. }
  destruct (Hkey ""%string) as (rs & l' & Hs & Hrl & _). exists rs, l'.
  assert (∀ key, (servedFor key reqs rs).*2 = alone decide (create := create) None (servedFor key reqs rs).*1) as Halone.
  { intros key. destruct (Hkey key) as (rs1 & l1 & Hs1 & _ & Ha). rewrite Hs in Hs1. by injection Hs1 as <- <-. }
  split_and!; [exact Hs| |exact Halone].
  destruct (newStore_ok (T := T) Options.defaultOptions Ho) as [Hok _].
  assert (limiter_ok (laws := sharded_laws create Options.defaultOptions)
    (mkLimiter Options.defaultOptions (Store.newShardedStore Options.defaultOptions) [])) as Hl by (split; [done|exact Hok]).
  pose proof (serve_errors (laws := sharded_laws create Options.defaultOptions) decide Htotal _ reqs rs l' (Z.le_refl _) Hl Hs) as Herr.
  pose proof (servedFor_elem reqs rs Hrl) as Helem. rewrite Forall2_lookup in *. intros i.
  specialize (Herr i). specialize (Helem i). destruct (reqs !! i) as [[[now e] key]|] eqn:Ei, (rs !! i) as [[r err]|]; inversion Herr; inversion Helem; subst; constructor.
  cbn [fst snd] in *. destruct err; [done|]. split; [done|].
  assert (r ∈ (servedFor key reqs rs).*2) as Hr by (apply list_elem_of_fmap; exists (now, r); eauto).
  rewrite Halone in Hr. assert (Forall (fun t => t0 <= t <= t1) (servedFor key reqs rs).*1) as Hin'
    by (eapply Forall_sublist; [apply served_sublist|exact Hin]).
  assert (length (servedFor key reqs rs).*1 <= length reqs)%nat as Hsl.
  { pose proof (sublist_length _ _ (served_sublist key reqs rs)) as Hsl. by rewrite !length_fmap in Hsl; rewrite length_fmap. }
  unfold alone in Hr. destruct (servedFor key reqs rs).*1 as [|first nows] eqn:En; [by apply not_elem_of_nil in Hr|].
  pose proof (proj1 (proj1 (Forall_cons _ _ _) Hin')) as Hfst.
  pose proof (Hany t0 t1 first (first :: nows) Hspan Hfst Hin' ltac:(lia)) as Hok'. rewrite Forall_forall in Hok'. by apply Hok'.
Qed.

Lemma memory_passes (env : testEnv (Memory.env T)) :
  timely gap env →
  ∃ rs l', serve (create := create) decide
      (mkLimiter Options.defaultOptions (Store.newShardedStore Options.defaultOptions) []) (calls env) = Some (rs, l') ∧
    Forall2 call_fine (calls env) rs ∧
    ∃ r1 r2 rest, rs = r1 :: r2 :: rest ∧ first_ok r1 ∧ second_ok r2.
Proof.
  intros Ht. pose proof (timely_calls gap env Ht) as Hlen. destruct Ht as (_ & _ & (t0 & t1 & Hspan & Hin) & Hgap).
  destruct (memory_outcomes (calls env) t0 t1 Hspan Hin Hlen) as (rs & l' & Hs & Hcalls & Halone).
  specialize (Halone "user:1"%string). exists rs, l'. split; [done|]. split.
  { eapply Forall2_impl; [exact Hcalls|]. intros c [r [e|]]; cbn [fst snd]; [intros Hb; split; [done|by intros []]|].
    intros [Hb (H1 & H2 & _)]. split; [intros Hbl; destruct (Hb Hbl)|intros _; split; [reflexivity|by split]]. }
  unfold calls in Hcalls, Halone. cbn [app] in *.
  apply Forall2_cons_inv_l in Hcalls as ([r1 e1] & rs1 & Hc1 & Hcalls & ->).
  apply Forall2_cons_inv_l in Hcalls as ([r2 e2] & rs2 & Hc2 & Hcalls & ->).
  assert (¬ GoString.Blank "user:1") as Hv by (rewrite <- GoString.TrimSpace_empty_iff; vm_compute; discriminate).
  cbn [fst snd] in Hc1, Hc2. destruct e1 as [e1|]; [destruct (Hv Hc1)|]. destruct e2 as [e2|]; [destruct (Hv Hc2)|].
  unfold Memory.env in *. destruct (first_call env) as [u1 x1], (second_call env) as [u2 x2]. cbn [fst] in Hgap.
  cbn [servedFor] in Halone. rewrite !bool_decide_true in Halone by (split; reflexivity).
  rewrite !fmap_cons in Halone. cbn [fst snd] in Halone. rewrite !alone_cons in Halone. cbn [default] in Halone.
  injection Halone as Hr1 Hr2 _. specialize (Hfirst u1). destruct (Hsecond u1 u2 Hgap) as [Hd2 Hp2].
  unfold id in Hr2. rewrite <- Hr1 in Hfirst. rewrite <- Hr2 in Hd2, Hp2.
  destruct Hc1 as [_ (Hm1 & Ha1 & Hz1 & _)], Hc2 as [_ (Hm2 & Ha2 & _ & Hz2)]. cbn [fst snd] in *.
  exists (r1, None), (r2, None), rs2. unfold first_ok, second_ok, fine. cbn [fst snd].
  split_and!; first [reflexivity|assumption|exact (Hz1 Hfirst)|exact (Hz2 Hd2)].
Qed.
End Memory.

End ContractTest.
