(* ===== verification/ContractProps.v ===== *)
(** * ContractProps: the in-memory limiters pass the shared behaviour tests

    The three cases of limiter_behavior_test.go: a token bucket and a leaky
    bucket of capacity one and rate one, and a window of one request per
    second. *)

From Stdlib Require Import ZArith Lia Bool.
From stdpp Require Import base strings list.
From S2P Require Import Prelude Float64 FloatFacts GoTime Core GoString Numeric Options.
From S2P Require Import ShardedStore TokenBucket LeakyBucket SlidingWindow.
From S2P Require Import MemoryLimiter Disorder MemoryLimiters MemoryProps ContractTest.

#[local] Open Scope Z_scope.

Module ContractProps.
Import MemoryLimiter Memory MemoryProps ContractTest.

(** ** The second request of a full bucket *)

Definition one : spec_float := F64.of_int 1.

Lemma one_ok : Numeric.params_ok one one ∧ fval one < 2 ^ 53 * unit_sc.
Proof. apply (Numeric.int_params_ok 1 1); lia. Qed.

(** Half a second. *)
Definition pause : Duration := 500 * GoTime.Millisecond.

(** A quarter. *)
Lemma quarter_exact : ∃ q, fin q ∧ unit_sc = 4 * fval q.
Proof.
  destruct (binary_normalize_exact 1 (-2) false) as [Hqf Hqv]; [lia|lia| |].
  { pose proof (sc_mono (-2) 0 ltac:(lia)) as Hs. change (sc 0) with unit_sc in Hs.
    pose proof (int_lt_inf 1 ltac:(lia)). lia. }
  eexists. split; [exact Hqf|]. pose proof (unit_sc_split (-2) ltac:(lia)) as Hsp.
  change (2 ^ (- -2)) with 4 in Hsp. lia.
Qed.

(** A wait of a quarter of a second or more is a positive delay. *)
Lemma quarter_delay a b d :
  fin a → fin b → unit_sc <= 4 * (fval a - fval b) → fval a <= 4 * unit_sc → 0 <= fval b →
  Numeric.delay_of (F64.div (F64.sub a b) one) d → 0 < d.
Proof.
  intros Ha Hb Hx H4 Hb0 Hd. eapply Numeric.delay_positive; [exact Hd|]. pose proof unit_sc_pos as Hu.
  destruct one_exact as [Hof Hov]. destruct Numeric.eps_fin as [Hef Hev]. destruct GoTime.billion_exact as [Hbf Hbv].
  destruct quarter_exact as (q & Hqf & Hqv). fold one in Hof, Hov. set (x := F64.sub a b) in *.
  assert (fval q <= fval x <= fval a) as Hqx by (split; [apply sub_ge|apply sub_le]; fin_side; lia).
  assert (fin x) as Hf by (eapply (fin_between _ q a); fin_side; [by apply sub_num|done]).
  set (s := F64.div x one) in *.
  assert (fval q <= fval s <= fval x) as Hs.
  { split; [apply div_ge|apply div_le]; fin_side; [lia|nia|lia|nia]. }
  assert (fin s) as Hsf by (eapply (fin_between _ q x); fin_side; [apply div_num; fin_side; lia|done]).
  unfold Numeric.nanosOf. change GoTime.Second with 1000000000. apply mul_ge; fin_side. rewrite Hbv. nia.
Qed.

Section Arch.
Context `{GoArch}.

Lemma token_first now :
  ∃ t, TokenBucket.refillAndDecide one one (TokenBucket.newBucket one now) now =
    (TokenBucket.mkBucket t now, (mkResult true 0 0, None)) ∧ fin t ∧ fval t = 0.
Proof.
  destruct one_ok as [Hp Hc]. destruct one_exact as [Hof Hov]. fold one in Hof, Hov. pose proof unit_sc_pos.
  pose proof (TokenBucket.newBucket_ok one one Hp now) as Hb.
  destruct (TokenBucket.refill_bounds one one Hp _ now Hb ltac:(simpl; lia)) as [_ Hr]. cbn [TokenBucket.newBucket TokenBucket.tokens] in Hr.
  destruct (TokenBucket.decide_allow one one Hp Hc _ now Hb ltac:(simpl; lia) ltac:(lia)) as (t & Hd & Hf & Ht).
  assert (fval t = 0) as Hz by lia. exists t. split_and!; [|done|done]. rewrite Hd, Hz. done.
Qed.

Lemma token_second now now' :
  now <= now' <= now + pause →
  let r := (TokenBucket.refillAndDecide one one
    (TokenBucket.refillAndDecide one one (TokenBucket.newBucket one now) now).1 now').2.1 in
  Allowed r = false ∧ 0 < RetryAfter r.
Proof.
  intros Ht. destruct (token_first now) as (t & -> & Hf & Hz). cbn [fst].
  destruct one_ok as [Hp Hc]. destruct one_exact as [Hof Hov]. fold one in Hof, Hov. pose proof unit_sc_pos.
  assert (TokenBucket.bucket_ok one (TokenBucket.mkBucket t now)) as Hb by (split; cbn [TokenBucket.tokens]; [done|lia]).
  destruct (TokenBucket.refill_bounds one one Hp _ now' Hb ltac:(simpl; lia)) as [Hrf Hrb].
  pose proof (TokenBucket.refill_gain one one Hp _ now' Hb ltac:(simpl; lia)) as Hg.
  cbn [TokenBucket.tokens TokenBucket.lastRefilled] in *. unfold TokenBucket.step_error in Hg.
  set (x := TokenBucket.refill one one _ now') in *. rewrite Hz, Hov in Hg. pose proof GoTime.tiny_small. pose proof tiny_pos.
  assert (4 * fval x <= 3 * unit_sc) as Hx.
  { unfold pause, GoTime.Millisecond, GoTime.Second in *.
    assert ((now' - now) * unit_sc <= 500000000 * unit_sc) by nia. nia. }
  destruct (TokenBucket.decide_deny one one Hp _ now' Hb ltac:(simpl; lia) ltac:(fold x; lia)) as (d & -> & Hd).
  split; [done|]. cbn [fst snd RetryAfter]. fold x in Hd. unfold TokenBucket.wait in Hd. fold one in Hd.
  eapply quarter_delay; [exact Hof|exact Hrf|lia|lia| |exact Hd]. lia.
Qed.

Lemma leaky_first now :
  ∃ w, LeakyBucket.leakAndDecide one one (LeakyBucket.newLeaky now) now =
    (LeakyBucket.mkLeaky w now, (mkResult true 0 0, None)) ∧ fin w ∧ fval w = unit_sc.
Proof.
  destruct one_ok as [Hp Hc]. destruct one_exact as [Hof Hov]. fold one in Hof, Hov. pose proof unit_sc_pos.
  pose proof (LeakyBucket.newLeaky_ok one one Hp now) as Hb. destruct (of_int_exact 0) as [Hzf Hzv]; [lia|].
  destruct (LeakyBucket.leak_bounds one one Hp _ now Hb ltac:(simpl; lia)) as [Hlf Hlb].
  cbn [LeakyBucket.newLeaky LeakyBucket.water] in Hlb. set (l := LeakyBucket.leak one _ now) in *.
  destruct (LeakyBucket.poured_num l Hlf ltac:(lia)) as (_ & _ & Hge).
  assert (fval (LeakyBucket.poured l) <= fval one) as Hle
    by (unfold LeakyBucket.poured; fold one; apply add_le; fin_side; lia).
  destruct (LeakyBucket.leaky_decide_allow one one Hp _ now Hb ltac:(simpl; lia) Hle ltac:(lia)) as (Hd & Hf & Hs).
  fold l in Hd, Hf, Hs. exists (LeakyBucket.poured l). split_and!; [|done|lia]. rewrite Hd.
  assert (fval (F64.sub one (LeakyBucket.poured l)) = 0) as ->; [|done].
  assert (fval (F64.sub one (LeakyBucket.poured l)) <= fval (S754_zero false)) as Hle0
    by (apply sub_le; fin_side; cbn [fval]; lia). cbn [fval] in Hle0. lia.
Qed.

Lemma leaky_second now now' :
  now <= now' <= now + pause →
  let r := (LeakyBucket.leakAndDecide one one
    (LeakyBucket.leakAndDecide one one (LeakyBucket.newLeaky now) now).1 now').2.1 in
  Allowed r = false ∧ 0 < RetryAfter r.
Proof.
  intros Ht. destruct (leaky_first now) as (w & -> & Hf & Hz). cbn [fst].
  destruct one_ok as [Hp Hc]. destruct one_exact as [Hof Hov]. fold one in Hof, Hov. pose proof unit_sc_pos.
  assert (LeakyBucket.leaky_ok one (LeakyBucket.mkLeaky w now)) as Hb by (split; cbn [LeakyBucket.water]; [done|lia]).
  destruct (LeakyBucket.leak_bounds one one Hp _ now' Hb ltac:(simpl; lia)) as [Hlf Hlb].
  pose proof (LeakyBucket.leak_loss one one Hp _ now' Hb ltac:(simpl; lia)) as Hg.
  cbn [LeakyBucket.water LeakyBucket.lastLeak] in *. set (l := LeakyBucket.leak one _ now') in *.
  set (d := GoTime.Sub now' now) in *.
  assert (0 <= d <= int64_max) as Hd by (split; [apply GoTime.Sub_nonneg; lia|apply GoTime.Sub_range]).
  pose proof (GoTime.Sub_le now' now ltac:(lia)) as Hdle. fold d in Hdle.
  pose proof (GoTime.product_upper one d Hof ltac:(lia) Hd) as Hpu. pose proof GoTime.tiny_small. pose proof tiny_pos.
  set (P := fval (F64.mul _ one)) in *. rewrite Hz, Hov in *.
  assert (unit_sc <= 3 * fval l) as Hl.
  { unfold pause, GoTime.Millisecond, GoTime.Second in *.
    assert (d * unit_sc <= 500000000 * unit_sc) by nia. nia. }
  pose proof (LeakyBucket.poured_lower one one Hp Hc l Hlf ltac:(lia)) as Hpl.
  pose proof (LeakyBucket.poured_fin one l Hlf ltac:(lia) Hc) as Hpf. rewrite Hov in Hpl.
  assert (fval (LeakyBucket.poured l) <= 4 * unit_sc) as Hpu4.
  { destruct (of_int_exact 4) as [H4f H4v]; [lia|]. rewrite <- H4v. unfold LeakyBucket.poured. fold one. apply add_le; fin_side. lia. }
  destruct (LeakyBucket.leaky_decide_deny one one Hp _ now' Hb ltac:(simpl; lia) ltac:(fold l; nia) Hc) as (dl & -> & Hdl).
  split; [done|]. cbn [fst snd RetryAfter]. fold l in Hdl. unfold LeakyBucket.wait in Hdl.
  eapply quarter_delay; [exact Hpf|exact Hof|lia|lia| |exact Hdl]. lia.
Qed.
End Arch.

Lemma window_second now now' :
  now <= now' <= now + pause →
  let r := (SlidingWindow.recordAndDecide 1 GoTime.Second
    (SlidingWindow.recordAndDecide 1 GoTime.Second (SlidingWindow.newWindow now) now).1 now').2.1 in
  Allowed r = false ∧ 0 < RetryAfter r.
Proof.
  intros Ht. assert (0 < GoTime.Second <= int64_max) as Hw by (split; vm_compute; done).
  destruct (SlidingWindow.decide_spec 1 GoTime.Second ltac:(lia) Hw now (SlidingWindow.newWindow now) now
    (SlidingWindow.newWindow_ok 1 ltac:(lia) now now) ltac:(lia)) as (st & r1 & -> & Hok & Ha & Hlog & _).
  assert (SlidingWindow.logs st = [now]) as Hl by (rewrite Hlog, Ha; reflexivity). cbn [fst].
  destruct (SlidingWindow.decide_spec 1 GoTime.Second ltac:(lia) Hw now st now' Hok ltac:(lia))
    as (st' & r & -> & _ & Ha' & _ & _ & _ & Hr).
  cbn [fst snd]. assert (SlidingWindow.inWindow GoTime.Second now' [now] = [now]) as Hin.
  { unfold SlidingWindow.inWindow. rewrite filter_cons, decide_True, filter_nil; [done|].
    unfold pause, GoTime.Millisecond, GoTime.Second in *. lia. }
  rewrite Hl, Hin in Ha'. assert (Allowed r = false) as Hf by done. destruct (Hr Hf) as (? & ? & _ & _ & ?). split; [done|lia].
Qed.

(** ** The three cases *)

Definition tokenCase `{GoArch} (env : testEnv (Memory.env TokenBucket.bucket)) : LimiterCase :=
  mkCase "memory token bucket" _ _ TokenBucket_Allow (NewTokenBucket one one []) env.
Definition leakyCase `{GoArch} (env : testEnv (Memory.env LeakyBucket.leakyState)) : LimiterCase :=
  mkCase "memory leaky bucket" _ _ LeakyBucket_Allow (NewLeakyBucket one one []) env.
Definition windowCase (env : testEnv (Memory.env SlidingWindow.windowState)) : LimiterCase :=
  mkCase "memory sliding window" _ _ SlidingWindow_Allow (NewSlidingWindow 1 GoTime.Second []) env.

(** A limiter without options. *)
Definition fresh {T} : limiter (Store.shardedStore T) :=
  mkLimiter Options.defaultOptions (Store.newShardedStore Options.defaultOptions) [].

Lemma token_new : NewTokenBucket one one [] = Returns (mkTokenBucket one one fresh).
Proof. vm_compute. reflexivity. Qed.
Lemma leaky_new : NewLeakyBucket one one [] = Returns (mkLeakyBucket one one fresh).
Proof. vm_compute. reflexivity. Qed.
Lemma window_new : NewSlidingWindow 1 GoTime.Second [] = Returns (mkSlidingWindow 1 GoTime.Second fresh).
Proof. vm_compute. reflexivity. Qed.

Lemma subtest_passes {E S} (L : Limiter E S) name l env rs l' :
  requests l (calls env) = Some (rs, l') → Forall2 call_fine (calls env) rs →
  (∃ r1 r2 rest, rs = r1 :: r2 :: rest ∧ first_ok r1 ∧ second_ok r2) →
  runSubtest (mkCase name E S L (Returns l) env) = SubPassed.
Proof. intros Hr Hf Hx. unfold runSubtest. cbn [New]. cbn [case_env CaseLimiter]. by rewrite (runCase_passes l env rs l'). Qed.

(** A span of readings, in which one token per second accrues. *)
Lemma one_span t0 t1 : t1 - t0 <= int64_max → t0 <= t1 → Disorder.span_ok one one t0 t1.
Proof.
  intros Hs Ht. destruct one_ok as [Hp Hc]. destruct one_exact as [Hof Hov]. fold one in Hov. pose proof unit_sc_pos.
  split_and!; [done|done|lia|done|]. rewrite Hov. unfold int64_max, GoTime.Second in *. nia.
Qed.

Lemma tokenCase_passes `{GoArch} env : timely pause env → runSubtest (tokenCase env) = SubPassed.
Proof.
  intros Ht. destruct (memory_passes (TokenBucket.newBucket one) (TokenBucket.refillAndDecide one one) pause) with (env := env)
    as (rs & l' & Hs & Hf & Hx).
  - intros t0 t1 first nows Hs Hfst Hn Hlen.
    by apply (Disorder.token_disorder_quota one one t0 t1 (one_span t0 t1 Hs ltac:(lia)) first nows).
  - apply token_no_error.
  - intros now. by destruct (token_first now) as (t & -> & _).
  - apply token_second.
  - done.
  - unfold tokenCase. rewrite token_new.
    eapply subtest_passes; [|exact Hf|exact Hx]. rewrite token_requests. unfold fresh. rewrite Hs. reflexivity.
Qed.

Lemma leakyCase_passes `{GoArch} env : timely pause env → runSubtest (leakyCase env) = SubPassed.
Proof.
  intros Ht. destruct (memory_passes LeakyBucket.newLeaky (LeakyBucket.leakAndDecide one one) pause) with (env := env)
    as (rs & l' & Hs & Hf & Hx).
  - intros t0 t1 first nows Hs Hfst Hn Hlen.
    by apply (Disorder.leaky_disorder_quota one one t0 t1 (one_span t0 t1 Hs ltac:(lia)) first nows).
  - apply leaky_no_error.
  - intros now. by destruct (leaky_first now) as (t & -> & _).
  - apply leaky_second.
  - done.
  - unfold leakyCase. rewrite leaky_new.
    eapply subtest_passes; [|exact Hf|exact Hx]. rewrite leaky_requests. unfold fresh. rewrite Hs. reflexivity.
Qed.

Lemma windowCase_passes env : timely pause env → runSubtest (windowCase env) = SubPassed.
Proof.
  intros Ht. assert (0 < GoTime.Second <= int64_max) as Hw by (split; vm_compute; done).
  destruct (memory_passes SlidingWindow.newWindow (SlidingWindow.recordAndDecide 1 GoTime.Second) pause) with (env := env)
    as (rs & l' & Hs & Hf & Hx).
  - intros t0 t1 first nows _ _ _ _. by apply Disorder.window_disorder_ok.
  - apply window_no_error.
  - done.
  - apply window_second.
  - done.
  - unfold windowCase. rewrite window_new.
    eapply subtest_passes; [|exact Hf|exact Hx]. rewrite window_requests. unfold fresh. rewrite Hs. reflexivity.
Qed.

(** C21: the in-memory limiters pass the shared behaviour tests, all four, for
    the three limiters of limiter_behavior_test.go: the first request passes,
    the second is denied with a positive delay, concurrent workers on one key
    and on four keys get no error and no negative number, and blank keys are
    refused.  The workers' calls take effect in any order, and their clock
    readings come in any order too, as they do when a worker reads the clock
    and then waits for a lock.  Two conditions: the second request comes
    within half a second of the first, not before it; and all readings lie
    within 292 years. *)
Theorem memory_limiters_shared_behavior `{GoArch} envT envL envW :
  timely pause envT → timely pause envL → timely pause envW →
  RunLimiterBehaviorTests [tokenCase envT; leakyCase envL; windowCase envW] =
    [("memory token bucket", SubPassed); ("memory leaky bucket", SubPassed);
     ("memory sliding window", SubPassed)]%string.
Proof.
  intros HT HL HW. unfold RunLimiterBehaviorTests. rewrite !fmap_cons, fmap_nil.
  by rewrite tokenCase_passes, leakyCase_passes, windowCase_passes.
Qed.

(** A run of the tests: one microsecond per call, and the workers get the locks
    in the opposite order of their clock readings. *)
Definition exampleEnv {T} : testEnv (Memory.env T) :=
  let at_us n := (Z.of_nat n * 1000, anyOrder) in
  mkTestEnv (at_us 0%nat) (at_us 1%nat)
    ((fun w => (w, at_us (2 + w)%nat)) <$> reverse (seq 0 workers))
    ((fun w => (w, at_us (34 + w)%nat)) <$> reverse (seq 0 workers))
    (at_us 66%nat) (at_us 67%nat).

Lemma example_timely {T} : timely pause (exampleEnv (T := T)).
Proof.
  split_and!; [exact (reverse_Permutation (seq 0 workers))|exact (reverse_Permutation (seq 0 workers))| |vm_compute; discriminate..].
  exists 0, 1000000. split; [vm_compute; discriminate|]. apply (bool_decide_unpack _). vm_compute. exact I.
Qed.

Lemma memory_limiters_shared_behavior_witness :
  RunLimiterBehaviorTests [tokenCase (H := amd64) exampleEnv; leakyCase (H := amd64) exampleEnv; windowCase exampleEnv] =
    [("memory token bucket", SubPassed); ("memory leaky bucket", SubPassed);
     ("memory sliding window", SubPassed)]%string.
Proof. apply (memory_limiters_shared_behavior (H := amd64)); apply example_timely. Defined.

End ContractProps.
