(* ===== verification/Examples.v ===== *)
(** * Examples: programs put together from the packages (examples/)

    A middleware adapter over an in-memory limiter, serving a sequence of
    requests, and the wiring of the example programs.  The quota of the
    limiter becomes a bound on the requests of a client that reach the
    handler behind the middleware. *)

From Stdlib Require Import ZArith Lia Bool Ascii.
From stdpp Require Import base gmap strings list.
From S2P Require Import Prelude Float64 FloatFacts GoTime Core GoString Numeric Options.
From S2P Require Import ShardedStore StateStore TokenBucket MemoryLimiter MemoryLimiters MemoryProps.
From S2P Require Import Layered Middleware Redis.

#[local] Open Scope Z_scope.
#[local] Open Scope kaka_scope.

Module Examples.
Import MemoryLimiter Memory MemoryProps Middleware.

(** ** A middleware at work *)

(** Requests one after another, each with what its call of the limiter reads. *)
Fixpoint serveAll {E S C R} (handler : E → S → C → option ((C * R) * S)) (l : S) (reqs : list (E * C))
    : option (list (C * R) * S) :=
  match reqs with
  | [] => Some ([], l)
  | (e, c) :: reqs =>
      match handler e l c with
      | None => None
      | Some (out, l) =>
          match serveAll handler l reqs with None => None | Some (outs, l) => Some (out :: outs, l) end
      end
  end.

Section Tagged.
Context `{GoArch} {E S C R : Type} {L : Limiter E S} (a : adapter C R) (cfg : Config S C).

(** The same adapter, reporting whether the next handler was called. *)
Definition tagged : adapter C bool :=
  mkAdapter C bool (packageName a) (defaultKey a) (setHeader a) (defaultDenied a) false (resumes a).

(** The key of a request. *)
Definition keyOf (c : C) : string := default (defaultKey a) (KeyFunc cfg) c.

(** Serving with the tag instead of the next handler. *)
Definition probe : E → S → C → option ((C * bool) * S) := serve tagged cfg (fun c => (c, true)).

(** Whether an outcome of the limiter lets the request through. *)
Definition reaches (r : Result * option error) : bool :=
  match r.2 with
  | Some _ => match ErrorHandler cfg with Some _ => false | None => true end
  | None => Allowed r.1
  end.

(** The tag is true exactly when the request is the next handler's, on the
    context that the tag comes with. *)
Definition agrees (next : C → C * R) (out : C * R) (tag : C * bool) : Prop :=
  out = if tag.2 then next tag.1 else (tag.1, returned a).

Lemma serve_probe next e l c r l' :
  stops a cfg → Allow e l (keyOf c) = Some (r, l') →
  ∃ out tag, serve a cfg next e l c = Some (out, l') ∧ probe e l c = Some (tag, l') ∧
    agrees next out tag ∧ tag.2 = reaches r.
Proof.
  intros [Hd He] Ha. destruct r as [res [err|]]; unfold probe, serve, leave, keyOf, reaches, agrees in *;
    cbn [defaultKey tagged returned resumes defaultDenied fst snd] in *; rewrite Ha.
  - destruct (ErrorHandler cfg) as [h|]; [rewrite (He h eq_refl)|]; do 2 eexists; split_and!; done.
  - unfold writeHeaders. cbn [setHeader tagged].
    destruct (Allowed res); [|rewrite Hd]; do 2 eexists; split_and!; done.
Qed.

Lemma serveAll_probe next l reqs rs l' :
  stops a cfg → requests l ((fun q => (q.1, keyOf q.2)) <$> reqs) = Some (rs, l') →
  ∃ outs tags, serveAll (serve a cfg next) l reqs = Some (outs, l') ∧ serveAll probe l reqs = Some (tags, l') ∧
    Forall2 (agrees next) outs tags ∧ tags.*2 = reaches <$> rs.
Proof.
  intros Hstop. revert l rs. induction reqs as [|[e c] reqs IH]; intros l rs; cbn [serveAll].
  { intros [= <- <-]. exists [], []. by split_and!. }
  rewrite fmap_cons. cbn [requests fst snd]. destruct (Allow e l (keyOf c)) as [[r l1]|] eqn:Ea; [|done].
  destruct (requests l1 _) as [[rs1 l2]|] eqn:Er; [|done]. intros [= <- ->].
  destruct (serve_probe next e l c r l1 Hstop Ea) as (out & tag & -> & -> & Hag & Ht).
  destruct (IH l1 rs1 Er) as (outs & tags & -> & -> & Hall & Htags).
  exists (out :: outs), (tag :: tags). split_and!; [done|done|by constructor|].
  rewrite !fmap_cons. by rewrite Ht, Htags.
Qed.

End Tagged.

(** The requests of one client, with their instants and tags; [kf] is what a
    client is known by. *)
Fixpoint hits {C X B} (kf : C → string) (key : string) (reqs : list ((Time * X) * C)) (tags : list (B * bool))
    : list (Time * bool) :=
  match reqs, tags with
  | ((now, _), c) :: reqs, (_, b) :: tags =>
      if bool_decide (kf c = key) then (now, b) :: hits kf key reqs tags else hits kf key reqs tags
  | _, _ => []
  end.

(** How many of some requests were let through. *)
Definition through (l : list (Time * bool)) : Z := Z.of_nat (length (filter (fun p => p.2 = true) l)).

Lemma hits_served {S C R X B} (a : adapter C R) (cfg : Config S C) key
    (reqs : list ((Time * X) * C)) rs (tags : list (B * bool)) :
  length rs = length reqs → tags.*2 = reaches cfg <$> rs →
  Forall2 (fun q r => keyOf a cfg q.2 = key → r.2 = None) reqs rs →
  hits (keyOf a cfg) key reqs tags = (fun p => (p.1, Allowed p.2)) <$> servedFor key ((fun q => (q.1, keyOf a cfg q.2)) <$> reqs) rs.
Proof.
  intros Hlen Htags Hall. revert tags Htags.
  induction Hall as [|[[now x] c] [r err] reqs rs Hq Hall IH]; intros tags Htags.
  { by destruct tags. }
  destruct tags as [|[b t] tags]; [done|]. rewrite !fmap_cons in Htags. injection Htags as Ht Htags.
  rewrite fmap_cons. cbn [hits servedFor fst snd] in *. injection Hlen as Hlen. specialize (IH Hlen tags Htags).
  destruct (decide (keyOf a cfg c = key)) as [Hk|Hk].
  - rewrite (Hq Hk) in *. rewrite !bool_decide_true by done. rewrite fmap_cons, IH. simpl. by rewrite Ht.
  - rewrite !bool_decide_false by naive_solver. exact IH.
Qed.

Lemma through_allowed (l : list (Time * Result)) :
  through ((fun p => (p.1, Allowed p.2)) <$> l) = allowed_count l.*2.
Proof.
  unfold through, allowed_count. do 2 f_equal. induction l as [|[t r] l IH]; [done|].
  rewrite !fmap_cons, !filter_cons. simpl. case_decide; simpl; by rewrite ?IH.
Qed.

(** ** The quota behind a middleware *)

Section Quota.
Context `{GoArch} {C R : Type} (a : adapter C R) (cfg : Config TokenBucket C).

(** The calls that a middleware makes for its requests. *)
Definition callsOf (reqs : list (env TokenBucket.bucket * C)) : list (env TokenBucket.bucket * string) :=
  (fun q => (q.1, keyOf a cfg q.2)) <$> reqs.

Lemma callsOf_instants t0 reqs : nondecreasing t0 reqs.*1.*1 → nondecreasing t0 (callsOf reqs).*1.*1.
Proof.
  revert t0. induction reqs as [|q reqs IH]; intros t0; [done|]. intros [Ht Hm]. split; [exact Ht|by apply IH].
Qed.

(** Without a bound on the keys, a key that is not blank gets no error. *)
Lemma token_no_errors capacity rate opts tb t0 reqs :
  F64.valid capacity = true → F64.valid rate = true → fval capacity < 2 ^ 53 * unit_sc →
  NewTokenBucket capacity rate opts = Returns tb → Options.maxKeys (lim_opts (tb_lim tb)) <= 0 →
  nondecreasing t0 reqs.*1.*1 →
  ∃ rs tb', requests tb (callsOf reqs) = Some (rs, tb') ∧
    Forall2 (fun q r => ¬ GoString.Blank (keyOf a cfg q.2) → r.2 = None) reqs rs.
Proof.
  intros Hcv Hrv Hc Hnew Hmax Hm.
  destruct (token_calls_ok capacity rate opts tb t0 (callsOf reqs) Hcv Hrv Hc Hnew) as (rs & tb' & Hr & _ & _ & Hall);
    [exact (callsOf_instants t0 reqs Hm)|].
  exists rs, tb'. split; [done|]. unfold callsOf in Hall. rewrite Forall2_fmap_l in Hall.
  eapply Forall2_impl; [exact Hall|]. intros q [r [err|]] Hc1 Hb; [|done]. unfold call_ok in Hc1. simpl in *.
  destruct Hc1 as [_ [[_ Hbl]|(_ & _ & _ & Hpos)]]; [done|lia].
Qed.

(** What a run of the middleware gives, for any next handler. *)
Lemma middleware_served capacity rate opts tb next t0 reqs key :
  stops a cfg → F64.valid capacity = true → F64.valid rate = true → fval capacity < 2 ^ 53 * unit_sc →
  NewTokenBucket capacity rate opts = Returns tb →
  ttl_refills capacity rate (lim_opts (tb_lim tb)) → Options.maxKeys (lim_opts (tb_lim tb)) <= 0 →
  ¬ GoString.Blank key → nondecreasing t0 reqs.*1.*1 →
  ∃ outs tags tb',
    serveAll (serve a cfg next) tb reqs = Some (outs, tb') ∧ serveAll (probe a cfg) tb reqs = Some (tags, tb') ∧
    Forall2 (agrees a next) outs tags ∧
    ∀ first rest, (hits (keyOf a cfg) key reqs tags).*1 = first :: rest →
      through (hits (keyOf a cfg) key reqs tags) * unit_sc * (2 ^ 52 * GoTime.Second)
        <= fval capacity * (2 ^ 52 * GoTime.Second)
           + (final first rest - first) * (fval rate * (2 ^ 52 + 6))
           + Z.of_nat (length (hits (keyOf a cfg) key reqs tags)) * (TokenBucket.step_error capacity * GoTime.Second).
Proof.
  intros Hstop Hcv Hrv Hc Hnew Httl Hmax Hkey Hm.
  destruct (token_no_errors capacity rate opts tb t0 reqs Hcv Hrv Hc Hnew Hmax Hm) as (rs & tb' & Hr & Hne).
  destruct (token_served_quota capacity rate opts tb t0 (callsOf reqs) key Hcv Hrv Hc Hnew) as (rs' & tb'' & Hr' & Hlen & Hq);
    [by left|exact Httl|exact (callsOf_instants t0 reqs Hm)|].
  pose proof (eq_trans (eq_sym Hr) Hr') as Heq. apply Some_inj, pair_eq in Heq as [<- <-].
  destruct (serveAll_probe a cfg next tb reqs rs tb' Hstop Hr) as (outs & tags & Ho & Ht & Hag & Htags).
  exists outs, tags, tb'. split_and!; [done|done|done|].
  unfold callsOf in Hlen. rewrite length_fmap in Hlen.
  rewrite (hits_served a cfg key reqs rs tags Hlen Htags).
  - rewrite through_allowed, <- list_fmap_compose, length_fmap. exact Hq.
  - eapply Forall2_impl; [exact Hne|]. intros q r Hb Heq. apply Hb. by rewrite Heq.
Qed.
End Quota.

(** ** The key of the net/http examples *)

(** [strings.IndexByte] and [strings.LastIndexByte]. *)
Fixpoint indexByte (c : ascii) (s : string) : option nat :=
  match s with
  | EmptyString => None
  | String x s => if Ascii.eqb x c then Some 0%nat else S <$> indexByte c s
  end.
Fixpoint lastIndexByte (c : ascii) (s : string) : option nat :=
  match s with
  | EmptyString => None
  | String x s =>
      match lastIndexByte c s with
      | Some n => Some (S n)
      | None => if Ascii.eqb x c then Some 0%nat else None
      end
  end.

Definition dropBytes (n : nat) (s : string) : string := String.substring n (String.length s - n) s.

(** The host that [net.SplitHostPort] returns, [None] if it returns an error. *)
Definition SplitHostPort (hostport : string) : option string :=
  match lastIndexByte ":" hostport with
  | None => None
  | Some i =>
      let check host j k :=
        match indexByte "[" (dropBytes j hostport), indexByte "]" (dropBytes k hostport) with
        | None, None => Some host
        | _, _ => None
        end in
      if String.prefix "[" hostport then
        match indexByte "]" hostport with
        | None => None
        | Some e =>
            if Nat.eqb (e + 1) (String.length hostport) then None
            else if Nat.eqb (e + 1) i then check (String.substring 1 (e - 1) hostport) 1%nat (e + 1)%nat
            else None
        end
      else
        let host := String.substring 0 i hostport in
        match indexByte ":" host with
        | Some _ => None
        | None => check host 0%nat 0%nat
        end
  end.

(** [KeyFunc] of http-example and redis-example. *)
Definition clientHost (addr : string) : string := default addr (SplitHostPort addr).

Example split_v4 : SplitHostPort "10.0.0.1:4000" = Some "10.0.0.1".
Proof. reflexivity. Qed.
Example split_v6 : SplitHostPort "[::1]:80" = Some "::1".
Proof. reflexivity. Qed.
Example split_bare : SplitHostPort "::1" = None.
Proof. reflexivity. Qed.

(** ** The example programs

    What [main] builds before it listens; what routes requests behind the
    middleware is the argument [mux], the routes themselves are below. *)

(** How the start ends: with a server, in [log.Fatalf], or in a panic. *)
Inductive startup (A : Type) : Type :=
| Serves (a : A)
| Fatal (format : string) (args : list string)
| Crashes (msg : string).
Arguments Serves {A} a.
Arguments Fatal {A} format args.
Arguments Crashes {A} msg.

Definition started {A} (m : outcome A) : startup A :=
  match m with
  | Returns a => Serves a
  | Panics msg => Crashes msg
  end.

(** The handlers of the routes of http-example and redis-example; [id] is
    [r.PathValue("id")].  A map is encoded with its keys in order. *)
Definition StatusOK : Z := 200.

Definition writeJSON (status : Z) (body : list (string * string)) (c : exchange) : exchange * unit :=
  let c := httpSetHeader "Content-Type" "application/json" c in
  let c := httpWriteHeader status c in
  (httpEncodeJSON body c, tt).

Definition testRoute : exchange → exchange * unit := writeJSON StatusOK [("message", "success")]%string.
Definition userRoute (id : string) : exchange → exchange * unit :=
  writeJSON StatusOK [("message", "user info"); ("user_id", id)]%string.
Definition layeredRoute : exchange → exchange * unit := writeJSON StatusOK [("message", "layered success")]%string.

(** The address of the server, and a client after a successful ping. *)
Section Connect.
Context (Getenv : string → string) {W : Type} (NewClient : string → W) (Ping : W → option string * W).

Definition redisAddr : string :=
  let addr := Getenv "REDIS_ADDR" in
  if bool_decide (addr = "") then "127.0.0.1:6379" else addr.

Definition connectRedis (format : string) : startup W :=
  match Ping (NewClient redisAddr) with
  | (Some err, _) => Fatal format [redisAddr; err]
  | (None, w) => Serves w
  end.
End Connect.

Section Programs.
Context `{GoArch}.

(** http-example. *)
Definition httpExampleConfig (limiter : TokenBucket) : Config TokenBucket exchange :=
  mkConfig (Some limiter) (Some (fun c => clientHost (RemoteAddr c))) None None false.

Definition httpExample (mux : exchange → exchange * unit) :=
  let! limiter := NewTokenBucket (F64.of_int 2) (F64.of_int 1) [] in
  let! middleware := httpMiddleware (httpExampleConfig limiter) in
  Returns (middleware.1 mux, middleware.2).

(** gin-example, echo-example and fiber-example; [router], [app]: the routes. *)
Section Frameworks.
Context {GinCtx EchoCtx FiberCtx : Type}.
Context (ClientIP : GinCtx → string) (ginHeader : string → string → GinCtx → GinCtx)
        (AbortWithStatusJSON : Z → list (string * string) → GinCtx → GinCtx) (IsAborted : GinCtx → bool).
Context (RealIP : EchoCtx → string) (echoSetHeader : string → string → EchoCtx → EchoCtx)
        (echoJSON : Z → list (string * string) → EchoCtx → EchoCtx).
Context (IP : FiberCtx → string) (fiberSet : string → string → FiberCtx → FiberCtx)
        (fiberStatus : Z → FiberCtx → FiberCtx) (fiberJSON : list (string * string) → FiberCtx → FiberCtx).

Definition ginExample (router : GinCtx → GinCtx * unit) :=
  let! limiter := NewTokenBucket (F64.of_int 10) (F64.of_int 2) [] in
  let! middleware := ginMiddleware ClientIP ginHeader AbortWithStatusJSON IsAborted
    (mkFrameworkConfig (Some limiter) (Some ClientIP) None None false) in
  Returns (middleware.1 router, middleware.2).

Definition echoExample (router : EchoCtx → EchoCtx * option error) :=
  let! limiter := NewTokenBucket (F64.of_int 10) (F64.of_int 1) [Options.WithMaxKeys 10000; Options.WithKeyTTL 0] in
  let! middleware := echoMiddleware RealIP echoSetHeader echoJSON
    (mkFrameworkConfig (Some limiter) None None None false) in
  Returns (middleware.1 router, middleware.2).

Definition fiberExample (router : FiberCtx → FiberCtx * option error) :=
  let! limiter := NewTokenBucket (F64.of_int 10) (F64.of_int 1) [Options.WithMaxKeys 10000; Options.WithKeyTTL 0] in
  let! middleware := fiberMiddleware IP fiberSet fiberStatus fiberJSON
    (mkFrameworkConfig (Some limiter) None None None false) in
  Returns (middleware.1 router, middleware.2).
End Frameworks.

(** redis-example: one limiter that asks Redis every time, and one with a
    local layer in front, under keys of its own. *)
Definition redisExampleLimiters {W} {client : Redis.RedisClient W} (tokenBucketScript : string) (redis : W) :=
  let! limiter := Redis.NewTokenBucket tokenBucketScript redis (F64.of_int 2) (F64.of_int 1) [] in
  let! local := NewTokenBucket (F64.of_int 2) (F64.of_int 1) [] in
  let! remote := Redis.NewTokenBucket tokenBucketScript redis (F64.of_int 2) (F64.of_int 1)
    [Redis.WithKeyPrefix "kaka:layered:"] in
  let! layeredLimiter := Layered.New (Some local) (Some remote) [] in
  Returns (limiter, layeredLimiter).

(** The two routes, each behind its limiter, with the client host as the key. *)
Definition redisExample {W} {client : Redis.RedisClient W} (tokenBucketScript : string) (redis : W)
    (testMux layeredMux : exchange → exchange * unit) :=
  let! limiters := redisExampleLimiters tokenBucketScript redis in
  let keyFunc c := clientHost (RemoteAddr c) in
  let! test := httpMiddleware (Limiter0 := Redis.TokenBucket_Allow) (mkConfig (Some limiters.1) (Some keyFunc) None None false) in
  let! layered := httpMiddleware
    (Limiter0 := Layered.Layered_Allow (local_limiter := TokenBucket_Allow) (remote_limiter := Redis.TokenBucket_Allow))
    (mkConfig (Some limiters.2) (Some keyFunc) None None false) in
  Returns ((test.1 testMux, test.2), (layered.1 layeredMux, layered.2)).

Definition redisExampleMain {W} {client : Redis.RedisClient W} (Getenv : string → string) (NewClient : string → W)
    (Ping : W → option string * W) (tokenBucketScript : string) (testMux layeredMux : exchange → exchange * unit) :=
  match connectRedis Getenv NewClient Ping "cannot connect to redis at %s: %v" with
  | Serves redis => started (redisExample tokenBucketScript redis testMux layeredMux)
  | Fatal format args => Fatal format args
  | Crashes msg => Crashes msg
  end.
End Programs.

Lemma redis_new {W} {client : Redis.RedisClient W} src (redis : W) opts :
  Redis.NewTokenBucket src redis (F64.of_int 2) (F64.of_int 1) opts =
  Returns (Redis.mkTokenBucket (Redis.newLimiter redis (Redis.NewScript "token_bucket" src) opts) (F64.of_int 2) (F64.of_int 1)).
Proof. reflexivity. Qed.

Ltac memory_starts :=
  match goal with
  | |- context [NewTokenBucket ?c ?r ?o] =>
      destruct (NewTokenBucket c r o) eqn:E; [|exfalso; vm_compute in E; discriminate]; clear E
  end.

(** The other programs start as well. *)
Lemma examples_start `{GoArch} {G EC F W} ip hd js ab ip' hd' js' ip'' hd'' st js'' rg re rf
    {client : Redis.RedisClient W} src (redis : W) m m' :
  (∃ h l, ginExample (GinCtx := G) ip hd js ab rg = Returns (h, l)) ∧
  (∃ h l, echoExample (EchoCtx := EC) ip' hd' js' re = Returns (h, l)) ∧
  (∃ h l, fiberExample (FiberCtx := F) ip'' hd'' st js'' rf = Returns (h, l)) ∧
  (∃ h l h' ll, redisExample src redis m m' = Returns ((h, l), (h', ll)) ∧
     Layered.ll_remote ll = Redis.mkTokenBucket (Redis.newLimiter redis (Redis.NewScript "token_bucket" src)
       [Redis.WithKeyPrefix "kaka:layered:"]) (F64.of_int 2) (F64.of_int 1)).
Proof.
  split_and!; [unfold ginExample|unfold echoExample|unfold fiberExample|unfold redisExample, redisExampleLimiters; rewrite !redis_new];
    memory_starts; [by do 2 eexists..|by do 4 eexists].
Qed.

(** redis-example serves exactly if Redis answers the ping. *)
Lemma redis_example_starts `{GoArch} {W} {client : Redis.RedisClient W} Getenv (NewClient : string → W) Ping src m m' :
  match (Ping (NewClient (redisAddr Getenv))).1 with
  | None => ∃ s, redisExampleMain Getenv NewClient Ping src m m' = Serves s
  | Some err => redisExampleMain Getenv NewClient Ping src m m' =
      Fatal "cannot connect to redis at %s: %v" [redisAddr Getenv; err]
  end.
Proof.
  unfold redisExampleMain, connectRedis. destruct (Ping _) as [[err|] w]; cbn [fst]; [done|].
  destruct (redisExample src w m m') as [s|msg] eqn:E; [by eexists|exfalso].
  unfold redisExample, redisExampleLimiters in E. rewrite !redis_new in E. revert E. by memory_starts.
Qed.

(** ** Properties *)

(** Nothing reaches the handler behind a denial of the net/http adapter: the
    answer is 429. *)
Definition refused (c : exchange) (tag : exchange * bool) : Prop :=
  tag.2 = false → Status (resp c) = None → Status (resp tag.1) = Some StatusTooManyRequests.

Lemma probe_refused `{GoArch} {E S} {L : Limiter E S} (cfg : Config S exchange) e l c tag l' :
  ErrorHandler cfg = None → DeniedHandler cfg = None →
  probe httpAdapter cfg e l c = Some (tag, l') → refused c tag.
Proof.
  intros He Hd. unfold probe, serve, leave. cbn [resumes tagged httpAdapter]. destruct (Allow _ _ _) as [[[r [err|]] l1]|]; [|..|done].
  - rewrite He. by intros [= <- _].
  - destruct (Allowed r) eqn:Ea; intros [= <- _]; [done|]. intros _ Hs. rewrite Hd. cbn [default snd fst].
    unfold writeHeaders. rewrite Ea. cbn [setHeader tagged httpAdapter defaultDenied].
    repeat case_match; unfold httpDenied, httpEncodeJSON, httpWriteHeader, httpSetHeader, withResp;
      repeat (cbn [resp Status Header Body]; rewrite ?Hs); done.
Qed.

(** A route behind the net/http adapter: every answer is one JSON object, with
    status 200 and the route's body or with status 429 and the error. *)
Lemma route_answers `{GoArch} {E S} {L : Limiter E S} (cfg : Config S exchange) body e l c out l' :
  ErrorHandler cfg = None → DeniedHandler cfg = None → Status (resp c) = None →
  serve httpAdapter cfg (writeJSON StatusOK body) e l c = Some (out, l') →
  Header (resp out.1) !! "Content-Type"%string = Some "application/json"%string ∧
  ((Status (resp out.1) = Some StatusOK ∧ Body (resp out.1) = Body (resp c) ++ [JSONObject body]) ∨
   (Status (resp out.1) = Some StatusTooManyRequests ∧
    Body (resp out.1) = Body (resp c) ++ [JSONObject [("error", "too many requests")]%string])).
Proof.
  intros He Hd Hs. unfold serve, leave. cbn [resumes httpAdapter]. destruct (Allow _ _ _) as [[[r [err|]] l1]|]; [rewrite He| |done].
  2: unfold writeHeaders; destruct (Allowed r), (DisableHeaders cfg); cbn [negb andb];
     rewrite ?Hd; cbn [default]; try case_match.
  all: intros [= <- _]; cbn [httpAdapter setHeader defaultDenied fst];
    unfold writeJSON, httpDenied, httpEncodeJSON, httpWriteHeader, httpSetHeader, withResp;
    repeat (cbn [resp Status Header Body fst default]; rewrite ?Hs);
    (split; [apply lookup_insert_eq|first [by left | by right]]).
Qed.

Lemma serveAll_Forall {E S C R} (handler : E → S → C → option ((C * R) * S)) (Q : C → C * R → Prop) :
  (∀ e l c out l', handler e l c = Some (out, l') → Q c out) →
  ∀ reqs l outs l', serveAll handler l reqs = Some (outs, l') → Forall2 (fun q out => Q q.2 out) reqs outs.
Proof.
  intros HQ. induction reqs as [|[e c] reqs IH]; intros l outs l'; cbn [serveAll].
  { intros [= <- _]. constructor. }
  destruct (handler e l c) as [[out l1]|] eqn:Eh; [|done].
  destruct (serveAll handler l1 reqs) as [[outs1 l2]|] eqn:Es; [|done]. intros [= <- _].
  constructor; [by eapply HQ|by eapply IH].
Qed.

Lemma hits_length {C X B} (kf : C → string) key (reqs : list ((Time * X) * C)) (tags : list (B * bool)) :
  (length (hits kf key reqs tags) <= length reqs)%nat.
Proof.
  revert tags. induction reqs as [|[[now x] c] reqs IH]; intros [|[b t] tags]; cbn [hits length]; try lia.
  specialize (IH tags). case_bool_decide; simpl; lia.
Qed.

(** The quota of a limiter with a whole capacity and rate, in whole requests;
    [slack] pays for the rounding. *)
Lemma quota_whole c r slack n d len :
  1 <= c < 2 ^ 50 → 0 <= r < 2 ^ 53 →
  n * unit_sc * (2 ^ 52 * GoTime.Second)
    <= fval (F64.of_int c) * (2 ^ 52 * GoTime.Second) + d * (fval (F64.of_int r) * (2 ^ 52 + 6))
       + len * (TokenBucket.step_error (F64.of_int c) * GoTime.Second) →
  0 <= len → 6 * (d * r) + len * (c + 1) * GoTime.Second <= slack * 2 ^ 52 →
  n <= c + (d * r + slack) / GoTime.Second.
Proof.
  intros Hcr Hrr. destruct (of_int_exact c) as [_ Hc]; [lia|]. destruct (of_int_exact r) as [_ Hr]; [lia|].
  unfold TokenBucket.step_error. rewrite Hc, Hr. intros Hq Hl Hs.
  pose proof unit_sc_pos as Hu. pose proof GoTime.tiny_small. pose proof tiny_pos. unfold GoTime.Second in *.
  assert (len * (c * unit_sc + 2 * tiny * 2 ^ 52) <= len * ((c + 1) * unit_sc)) as Hlen by nia.
  assert (n * (2 ^ 52 * 1000000000)
    <= c * (2 ^ 52 * 1000000000) + d * r * (2 ^ 52 + 6) + len * (c + 1) * 1000000000) as Hn.
  { apply (Z.mul_le_mono_pos_r _ _ unit_sc Hu). nia. }
  assert (n - c <= (d * r + slack) / 1000000000); [|lia]. apply Z.div_le_lower_bound; lia.
Qed.

(** C17: quota behind a middleware.  Each of the four adapters, over any
    operations of its framework, configured with a token bucket limiter without
    a bound on its keys, and without a TTL or with one in which a bucket fills
    up, in front of any handler; for gin, [AbortWithStatusJSON] aborts the
    context and so do the configured denied and error handlers, since gin runs
    the rest of the chain by itself otherwise.  Every sequence of requests
    whose clock readings do not go back is served; each request either is
    exactly what the next handler makes of it or does not depend on the next
    handler at all; and at most [capacity + rate * elapsed] requests of a
    client (a key that is not blank) reach the next handler, through the
    adapter or through the framework, up to the rounding errors. *)
Theorem middleware_token_bucket_quota `{GoArch} {G EC F C R} ip hd (js : Z → list (string * string) → G → G) ab
    rip ehd (ejs : Z → list (string * string) → EC → EC) fip fst fss (fjs : list (string * string) → F → F)
    `{!GinAborts js ab} (a : adapter C R) (cfg : Config TokenBucket C)
    capacity rate opts tb next t0 reqs key :
  configured ip hd js ab rip ehd ejs fip fst fss fjs a cfg →
  F64.valid capacity = true → F64.valid rate = true → fval capacity < 2 ^ 53 * unit_sc →
  NewTokenBucket capacity rate opts = Returns tb → cfg_Limiter cfg = Some tb →
  ttl_refills capacity rate (lim_opts (tb_lim tb)) → Options.maxKeys (lim_opts (tb_lim tb)) <= 0 →
  ¬ GoString.Blank key → nondecreasing t0 reqs.*1.*1 →
  ∃ handler outs tags tb', newMiddleware a cfg = Returns (handler, tb) ∧
    serveAll (handler next) tb reqs = Some (outs, tb') ∧ serveAll (probe a cfg) tb reqs = Some (tags, tb') ∧
    Forall2 (agrees a next) outs tags ∧
    ∀ first rest, (hits (keyOf a cfg) key reqs tags).*1 = first :: rest →
      through (hits (keyOf a cfg) key reqs tags) * unit_sc * (2 ^ 52 * GoTime.Second)
        <= fval capacity * (2 ^ 52 * GoTime.Second)
           + (final first rest - first) * (fval rate * (2 ^ 52 + 6))
           + Z.of_nat (length (hits (keyOf a cfg) key reqs tags)) * (TokenBucket.step_error capacity * GoTime.Second).
Proof.
  intros Hconf Hcv Hrv Hc Hnew Hcfg Httl Hmax Hkey Hm. assert (stops a cfg) as Hstop by (by eapply configured_stops).
  destruct (middleware_served a cfg capacity rate opts tb next t0 reqs key Hstop Hcv Hrv Hc Hnew Httl Hmax Hkey Hm)
    as (outs & tags & tb' & Hserve).
  exists (serve a cfg), outs, tags, tb'. split; [|exact Hserve]. unfold newMiddleware. by rewrite Hcfg.
Qed.

(** C22: the http-example.  The program starts; it answers any sequence of
    (fewer than 2^40) requests whose clock readings never go back; a request that does not reach the routes is answered with status
    429; and of the requests of one client host, sent over a time of less than
    six days, at most two, and one more for every second since the first,
    reach the routes (with a tolerance of 2.1 ms for the rounding of the float
    operations). *)
Theorem http_example_quota `{GoArch} mux t0 reqs host :
  nondecreasing t0 reqs.*1.*1 → ¬ GoString.Blank host → Z.of_nat (length reqs) < 2 ^ 40 →
  ∃ handler tb outs tags tb', httpExample mux = Returns (handler, tb) ∧
    serveAll handler tb reqs = Some (outs, tb') ∧
    serveAll (probe httpAdapter (httpExampleConfig tb)) tb reqs = Some (tags, tb') ∧
    Forall2 (agrees httpAdapter mux) outs tags ∧ Forall2 (fun q tag => refused q.2 tag) reqs tags ∧
    ∀ first rest, (hits (fun c => clientHost (RemoteAddr c)) host reqs tags).*1 = first :: rest →
      final first rest - first < 2 ^ 49 →
      through (hits (fun c => clientHost (RemoteAddr c)) host reqs tags)
        <= 2 + (final first rest - first + 2 ^ 21) / GoTime.Second.
Proof.
  intros Hm Hh Hlen. destruct (Numeric.int_params_ok 2 1) as [_ Hc]; [lia|lia|].
  assert (NewTokenBucket (F64.of_int 2) (F64.of_int 1) [] = Returns exampleTokenBucket) as Hnew
    by (vm_compute; reflexivity).
  set (cfg := httpExampleConfig exampleTokenBucket).
  destruct (middleware_served httpAdapter cfg (F64.of_int 2) (F64.of_int 1) [] exampleTokenBucket mux t0 reqs host)
    as (outs & tags & tb' & Hs & Hp & Hag & Hq); try done; [by left|].
  change (keyOf httpAdapter cfg) with (fun c => clientHost (RemoteAddr c)) in Hq.
  exists (serve httpAdapter cfg mux), exampleTokenBucket, outs, tags, tb'. fold cfg.
  split_and!; [unfold httpExample; by rewrite Hnew|done|done|done| |].
  - eapply (serveAll_Forall (probe httpAdapter cfg) refused); [|exact Hp].
    intros e l c out l'. by apply probe_refused.
  - intros first rest Hf Hd. pose proof (hits_length (fun c => clientHost (RemoteAddr c)) host reqs tags).
    rewrite <- (Z.mul_1_r (final first rest - first)).
    apply (quota_whole 2 1 _ _ _ _ ltac:(lia) ltac:(lia) (Hq first rest Hf)); unfold GoTime.Second; lia.
Qed.

(** Three requests of a client at once and one of another. *)
Definition exampleRequests : list (env TokenBucket.bucket * exchange) :=
  let req t addr := ((t, anyOrder), mkExchange addr "/api/test" (mkResponse ∅ None [])) in
  [req 0 "10.0.0.1:4000"%string; req 1 "10.0.0.1:4001"%string; req 2 "10.0.0.1:4002"%string; req 3 "10.0.0.2:4000"%string].

(** A context with what the adapter needs of gin's. *)
Record toyContext := mkToyContext { toyIP : string; toyHeaders : list (string * string); toyAborted : bool; toyCode : Z }.

Definition toyHeader (k v : string) (c : toyContext) : toyContext :=
  mkToyContext (toyIP c) (toyHeaders c ++ [(k, v)]) (toyAborted c) (toyCode c).
Definition toyAbort (code : Z) (body : list (string * string)) (c : toyContext) : toyContext :=
  mkToyContext (toyIP c) (toyHeaders c) true code.
Definition toyEcho (code : Z) (body : list (string * string)) (c : unit) : unit := c.

Instance toy_aborts : GinAborts toyAbort toyAborted.
Proof. by intros code body c. Qed.

(** gin's adapter over it, with the default denial and a limiter of 2. *)
Definition toyAdapter : adapter toyContext unit := ginAdapter toyIP toyHeader toyAbort toyAborted.
Definition toyConfig : Config TokenBucket toyContext :=
  lift (mkFrameworkConfig (Some exampleTokenBucket) (Some toyIP) None None false).
Definition toyRequests : list (env TokenBucket.bucket * toyContext) :=
  (fun t => ((t, anyOrder), mkToyContext "10.0.0.1" [] false 0)) <$> [0; 1; 2; 3].

Lemma middleware_token_bucket_quota_witness :
  ∃ handler outs tags tb',
    newMiddleware (H := amd64) (Limiter0 := TokenBucket_Allow (H := amd64)) toyAdapter toyConfig =
      Returns (handler, exampleTokenBucket) ∧
    serveAll (handler (fun c => (toyHeader "X-Served" "1" c, tt))) exampleTokenBucket toyRequests = Some (outs, tb') ∧
    serveAll (probe (H := amd64) (L := TokenBucket_Allow (H := amd64)) toyAdapter toyConfig)
      exampleTokenBucket toyRequests = Some (tags, tb') ∧
    Forall2 (agrees toyAdapter (fun c => (toyHeader "X-Served" "1" c, tt))) outs tags.
Proof.
  destruct (middleware_token_bucket_quota (H := amd64) toyIP toyHeader toyAbort toyAborted
    (fun _ : unit => ""%string) (fun _ _ c => c) toyEcho (fun _ : unit => ""%string) (fun _ _ c => c) (fun _ c => c)
    (fun _ c => c) toyAdapter toyConfig
    (F64.of_int 2) (F64.of_int 1) [] exampleTokenBucket (fun c => (toyHeader "X-Served" "1" c, tt)) 0 toyRequests "10.0.0.1")
    as (handler & outs & tags & tb' & H1 & H2 & H3 & H4 & _).
  - apply configured_gin. split; intros h [=].
  - vm_compute. reflexivity.
  - vm_compute. reflexivity.
  - apply (Numeric.int_params_ok 2 1); lia.
  - vm_compute. reflexivity.
  - reflexivity.
  - left. simpl. lia.
  - simpl. lia.
  - rewrite <- GoString.TrimSpace_empty_iff. vm_compute. discriminate.
  - simpl. lia.
  - exists handler, outs, tags, tb'. split_and!; [exact H1|exact H2|exact H3|exact H4].
Defined.

(** Of its four requests two are served; the others end aborted, with 429. *)
Example toy_served :
  (fun p => toyCode p.1) <$> default [] (fst <$> serveAll (serve (H := amd64) (Limiter0 := TokenBucket_Allow (H := amd64))
    toyAdapter toyConfig (fun c => (mkToyContext (toyIP c) (toyHeaders c) false 200, tt))) exampleTokenBucket toyRequests)
  = [200; 200; 429; 429].
Proof. vm_compute. reflexivity. Qed.

Lemma http_example_quota_witness :
  ∃ handler tb outs tags tb', httpExample (H := amd64) testRoute = Returns (handler, tb) ∧
    serveAll handler tb exampleRequests = Some (outs, tb') ∧
    serveAll (probe (H := amd64) (L := TokenBucket_Allow (H := amd64)) httpAdapter (httpExampleConfig tb)) tb exampleRequests
      = Some (tags, tb') ∧
    Forall2 (fun q tag => refused q.2 tag) exampleRequests tags.
Proof.
  destruct (http_example_quota (H := amd64) testRoute 0 exampleRequests "10.0.0.1")
    as (handler & tb & outs & tags & tb' & H1 & H2 & H3 & _ & H4 & _).
  - simpl. lia.
  - rewrite <- GoString.TrimSpace_empty_iff. vm_compute. discriminate.
  - simpl. lia.
  - exists handler, tb, outs, tags, tb'. split_and!; [exact H1|exact H2|exact H3|exact H4].
Defined.

End Examples.
