(* ===== verification/Bench.v ===== *)
(** * Bench: the load target of benchmarks/

    benchmarks/compare/middleware.go, a net/http middleware over one limiter of
    golang.org/x/time/rate, and benchmarks/cmd/bench-server/main.go, which puts
    one of five limiters in front of the same routes and keeps "/metrics" out
    of the limiting.  Limiters and clients of other projects are parameters;
    [crc32.ChecksumIEEE], which spreads the clients over a pool of keys, is
    modelled. *)

From Stdlib Require Import ZArith Lia Bool Ascii.
From stdpp Require Import base gmap strings list pretty.
From S2P Require Import Prelude Float64 FloatFacts GoTime Core GoString Numeric Options.
From S2P Require Import ShardedStore StateStore TokenBucket MemoryLimiter MemoryLimiters MemoryProps.
From S2P Require Import Layered Middleware Redis Examples.

#[local] Open Scope Z_scope.
#[local] Open Scope kaka_scope.

Module Bench.
Import MemoryLimiter Memory MemoryProps Middleware Examples.

(** ** crc32.ChecksumIEEE *)

(** The reversed IEEE polynomial. *)
Definition poly : Z := 0xEDB88320.

(** An entry of the table: eight times one bit. *)
Fixpoint tableBits (n : nat) (crc : Z) : Z :=
  match n with
  | O => crc
  | S n => tableBits n (if Z.odd crc then Z.lxor (Z.shiftr crc 1) poly else Z.shiftr crc 1)
  end.
Definition table (b : Z) : Z := tableBits 8 b.

Definition not32 (x : Z) : Z := Z.lxor x (2 ^ 32 - 1).

Fixpoint crcLoop (crc : Z) (s : string) : Z :=
  match s with
  | EmptyString => crc
  | String c s =>
      crcLoop (Z.lxor (table (Z.lxor (Z.land crc 255) (GoString.byte_val c))) (Z.shiftr crc 8)) s
  end.

Definition ChecksumIEEE (s : string) : Z := not32 (crcLoop (not32 0) s).

Example crc_check : ChecksumIEEE "123456789" = 0xCBF43926.
Proof. reflexivity. Qed.

(** ** compare.RateLimitMiddleware *)

Section Compare.
(** A limiter of x/time/rate; [XAllow now l] is [l.Allow()]. *)
Context {X : Type} (XAllow : Time → X → bool * X).

Definition RateLimitMiddleware (next : exchange → exchange * unit) (now : Time) (l : X) (c : exchange)
    : option ((exchange * unit) * X) :=
  let (ok, l) := XAllow now l in
  if ok then Some (next c, l)
  else Some ((httpError "too many requests" StatusTooManyRequests c, tt), l).
End Compare.

(** ** ululeAdapter *)

(** What the adapter reads of a [limiter.Context]. *)
Record ululeContext := mkUluleContext { Reached : bool; ctxRemaining : Z }.

Section Adapter.
Context {U : Type} (Get : U → string → (ululeContext + error) * U).

Definition ululeAdapter_Allow : Limiter unit U := fun _ u key =>
  let (r, u) := Get u key in
  match r with
  | inr err => Some ((mkResult false 0 0, Some err), u)
  | inl c => Some ((mkResult (negb (Reached c)) (ctxRemaining c) 0, None), u)
  end.
End Adapter.

(** ** bench-server *)

(** The command line, parsed; [maxkeys] is a uint. *)
Record flags := mkFlags { impl : string; keymode : string; maxkeys : Z; keyttl : Duration }.

Definition defaultFlags : flags := mkFlags "kaka" "fixed" 0 0.

(** Conversion of a uint to an int. *)
Definition int_of_uint (n : Z) : Z := if n <? 2 ^ 63 then n else n - 2 ^ 64.

(** A handler with the state of its limiter; a call reads an [senv]. *)
Record server := mkServer {
  senv : Type;
  sstate : Type;
  shandler : senv → sstate → exchange → option ((exchange * unit) * sstate);
  sinit : sstate
}.

(** The route "/api/test": the status line is left to the first write. *)
Definition apiTest (c : exchange) : exchange * unit :=
  let c := httpSetHeader "Content-Type" "application/json" c in
  (httpEncodeJSON [("message", "success")]%string c, tt).

(** The guard that keeps "/metrics" away from the limiter. *)
Definition combined {E S} (metricsMux : exchange → exchange * unit)
    (handler : E → S → exchange → option ((exchange * unit) * S)) (e : E) (l : S) (c : exchange)
    : option ((exchange * unit) * S) :=
  if bool_decide (Path c = "/metrics")
  then Some (metricsMux c, l)
  else handler e l c.

(** The options of the limiter of "kaka". *)
Definition kakaOptions (f : flags) : list Options.Option :=
  (if 0 <? maxkeys f then [Options.WithMaxKeys (int_of_uint (maxkeys f))] else []) ++
  (if 0 <? keyttl f then [Options.WithKeyTTL (keyttl f)] else []).

Definition globalKey (c : exchange) : string := "global".
Definition manyKey (c : exchange) : string :=
  "user:" +:+ pretty (Z.rem (ChecksumIEEE (RemoteAddr c)) 10000).

Definition keyFuncOf (mode : string) : option (exchange → string) :=
  if bool_decide (mode = "fixed") then Some globalKey
  else if bool_decide (mode = "remote") then Some RemoteAddr
  else if bool_decide (mode = "many") then Some manyKey
  else None.

Definition benchConfig {S} (limiter : S) (keyFunc : exchange → string) : Config S exchange :=
  mkConfig (Some limiter) (Some keyFunc) None None false.

(** [httpmiddleware.Middleware(httpmiddleware.Config{...})(mux)]. *)
Definition behind `{GoArch} {E S} (L : Limiter E S) (limiter : S) (keyFunc : exchange → string)
    (mux : exchange → exchange * unit) : outcome server :=
  let! m := httpMiddleware (Limiter0 := L) (benchConfig limiter keyFunc) in
  Returns (mkServer E S (m.1 mux) m.2).

Section Main.
Context `{GoArch}.
(** The routes, and the environment. *)
Context (mux metricsMux : exchange → exchange * unit) (Getenv : string → string).
(** go-redis. *)
Context {W : Type} {client : Redis.RedisClient W} (NewClient : string → W) (Ping : W → option string * W).
Context (tokenBucketScript : string).
(** x/time/rate. *)
Context {X : Type} (NewXLimiter : Z → Z → X) (XAllow : Time → X → bool * X).
(** ulule/limiter: the store with its prefix, and the limiter with the limit
    per period. *)
Context {Store U : Type} (NewStoreWithOptions : W → string → Store + string)
        (NewUlule : Store → Duration → Z → U) (Get : U → string → (ululeContext + error) * U).

(** The client of "redis" and "layered". *)
Definition connect : startup W := connectRedis Getenv NewClient Ping "redis at %s: %v".

Definition kakaServer (f : flags) : startup server :=
  match NewTokenBucket (F64.of_int 100) (F64.of_int 10) (kakaOptions f) with
  | Panics msg => Crashes msg
  | Returns limiter =>
      match keyFuncOf (keymode f) with
      | None => Fatal "unknown keymode %q" [keymode f]
      | Some keyFunc => started (behind TokenBucket_Allow limiter keyFunc mux)
      end
  end.

Definition xtimeServer : startup server :=
  Serves (mkServer Time X (RateLimitMiddleware XAllow mux) (NewXLimiter 10 100)).

Definition redisServer : startup server :=
  match connect with
  | Serves w =>
      started (let! limiter := Redis.NewTokenBucket tokenBucketScript w (F64.of_int 100) (F64.of_int 10) [] in
               behind Redis.TokenBucket_Allow limiter globalKey mux)
  | Fatal format args => Fatal format args
  | Crashes msg => Crashes msg
  end.

Definition layeredServer : startup server :=
  match connect with
  | Serves w =>
      started (let! local := NewTokenBucket (F64.of_int 100) (F64.of_int 10) [] in
               let! remote := Redis.NewTokenBucket tokenBucketScript w (F64.of_int 100) (F64.of_int 10) [] in
               let! limiter := Layered.New (Some local) (Some remote) [] in
               behind (Layered.Layered_Allow (local_limiter := TokenBucket_Allow)
                         (remote_limiter := Redis.TokenBucket_Allow)) limiter globalKey mux)
  | Fatal format args => Fatal format args
  | Crashes msg => Crashes msg
  end.

Definition ululeServer : startup server :=
  match NewStoreWithOptions (NewClient (redisAddr Getenv)) "ulule" with
  | inr err => Fatal "ulule store: %v" [err]
  | inl store =>
      started (behind (ululeAdapter_Allow Get) (NewUlule store GoTime.Second 100) globalKey mux)
  end.

(** The switch over the implementations, and the guard around the result. *)
Definition implServer (f : flags) : startup server :=
  if bool_decide (impl f = "kaka") then kakaServer f
  else if bool_decide (impl f = "xtime") then xtimeServer
  else if bool_decide (impl f = "redis") then redisServer
  else if bool_decide (impl f = "layered") then layeredServer
  else if bool_decide (impl f = "ulule") then ululeServer
  else Fatal "unknown impl %q" [impl f].

Definition benchMain (f : flags) : startup server :=
  match implServer f with
  | Serves s => Serves (mkServer (senv s) (sstate s) (combined metricsMux (shandler s)) (sinit s))
  | Fatal format args => Fatal format args
  | Crashes msg => Crashes msg
  end.
End Main.

(** ** Facts *)

(** *** The checksum is a 32-bit word *)

Lemma lxor_word a b : 0 <= a < 2 ^ 32 → 0 <= b < 2 ^ 32 → 0 <= Z.lxor a b < 2 ^ 32.
Proof.
  intros [Ha Ha'] [Hb Hb']. split; [apply Z.lxor_nonneg; tauto|].
  destruct (Z.eq_dec (Z.lxor a b) 0) as [->|Hn]; [lia|].
  assert (0 <= Z.lxor a b) by (apply Z.lxor_nonneg; tauto).
  apply Z.log2_lt_pow2; [lia|]. pose proof (Z.log2_lxor a b Ha Hb).
  assert (∀ x, 0 <= x < 2 ^ 32 → Z.log2 x < 32) as Hlog.
  { intros x Hx. destruct (Z.eq_dec x 0) as [->|]; [by vm_compute|]. apply Z.log2_lt_pow2; lia. }
  pose proof (Hlog a ltac:(lia)). pose proof (Hlog b ltac:(lia)). lia.
Qed.

Lemma shiftr_word a n : 0 <= n → 0 <= a < 2 ^ 32 → 0 <= Z.shiftr a n < 2 ^ 32.
Proof.
  intros Hn Ha. rewrite Z.shiftr_div_pow2 by done. pose proof (Z.pow_pos_nonneg 2 n).
  split; [apply Z.div_pos; lia|]. apply Z.div_lt_upper_bound; [lia|]. nia.
Qed.

Lemma table_word n b : 0 <= b < 2 ^ 32 → 0 <= tableBits n b < 2 ^ 32.
Proof.
  revert b. induction n as [|n IH]; intros b Hb; [done|]. cbn [tableBits]. apply IH.
  pose proof (shiftr_word b 1 ltac:(lia) Hb). destruct (Z.odd b); [|done].
  apply lxor_word; [done|unfold poly; lia].
Qed.

Lemma crcLoop_word s crc : 0 <= crc < 2 ^ 32 → 0 <= crcLoop crc s < 2 ^ 32.
Proof.
  revert crc. induction s as [|c s IH]; intros crc Hc; [done|]. cbn [crcLoop]. apply IH.
  apply lxor_word; [|apply shiftr_word; lia]. apply table_word, lxor_word.
  - change 255 with (Z.ones 8). rewrite Z.land_ones by lia. pose proof (Z.mod_pos_bound crc (2 ^ 8)). lia.
  - unfold GoString.byte_val. pose proof (Ascii.N_ascii_bounded c). lia.
Qed.

Lemma ChecksumIEEE_word s : 0 <= ChecksumIEEE s < 2 ^ 32.
Proof.
  unfold ChecksumIEEE, not32. apply lxor_word; [|lia]. apply crcLoop_word. by vm_compute.
Qed.

(** *** The pool of keys *)

Definition pool : list string := (fun n => "user:" +:+ pretty (Z.of_nat n)) <$> seq 0 (Z.to_nat 10000).

Lemma manyKey_pool c : manyKey c ∈ pool.
Proof.
  unfold manyKey, pool. pose proof (ChecksumIEEE_word (RemoteAddr c)).
  pose proof (Z.rem_bound_pos (ChecksumIEEE (RemoteAddr c)) 10000).
  apply list_elem_of_fmap. exists (Z.to_nat (Z.rem (ChecksumIEEE (RemoteAddr c)) 10000)).
  rewrite Z2Nat.id by lia. split; [done|]. apply elem_of_seq. lia.
Qed.

Lemma pool_size (m : gset string) : (∀ k, k ∈ m → k ∈ pool) → Z.of_nat (size m) <= 10000.
Proof.
  intros Hm. assert (m ⊆ list_to_set pool) as Hsub.
  { intros k Hk. apply elem_of_list_to_set. by apply Hm. }
  apply subseteq_size in Hsub. rewrite size_list_to_set in Hsub.
  - unfold pool in Hsub. rewrite length_fmap, length_seq in Hsub. lia.
  - apply NoDup_fmap_2; [|apply NoDup_seq].
    intros x y Hxy. apply (inj (String.append "user:")), (inj pretty) in Hxy. lia.
Qed.

(** *** Requests for the metrics *)

(** The requests that the limiter sees. *)
Definition limited {E} (q : E * exchange) : Prop := Path q.2 ≠ "/metrics".
#[local] Instance limited_dec {E} (q : E * exchange) : Decision (limited q).
Proof. unfold limited. apply _. Defined.

(** The answers to the limited requests, and to the others. *)
Definition limitedOuts {E A} (reqs : list (E * exchange)) (outs : list A) : list A :=
  (filter (fun p => limited p.1) (zip reqs outs)).*2.
Definition metricsOnly {E A} (metricsMux : exchange → A) (reqs : list (E * exchange)) (outs : list A) : Prop :=
  Forall2 (fun q out => ¬ limited q → out = metricsMux q.2) reqs outs.

Lemma combined_serveAll {E S} metricsMux (handler : E → S → exchange → option ((exchange * unit) * S)) l reqs outs l' :
  serveAll handler l (filter limited reqs) = Some (outs, l') →
  ∃ all, serveAll (combined metricsMux handler) l reqs = Some (all, l') ∧
    metricsOnly metricsMux reqs all ∧ limitedOuts reqs all = outs.
Proof.
  revert l outs. induction reqs as [|[e c] reqs IH]; intros l outs.
  { intros [= <- <-]. exists []. split_and!; [done|constructor|done]. }
  rewrite filter_cons. unfold limitedOuts, metricsOnly in *. cbn [serveAll]. unfold combined at 1.
  destruct (decide (limited (e, c))) as [Hl|Hl].
  - cbn [serveAll]. rewrite bool_decide_false by exact Hl.
    destruct (handler e l c) as [[out l1]|]; [|done].
    destruct (serveAll handler l1 _) as [[outs1 l2]|] eqn:Es; [|done]. intros [= <- <-].
    destruct (IH l1 outs1 Es) as (all & -> & Hm & Ho). exists (out :: all).
    split_and!; [done|by constructor|]. cbn [zip_with]. rewrite filter_cons_True by done.
    rewrite fmap_cons. by rewrite Ho.
  - intros Hs. destruct (IH l outs Hs) as (all & Ha & Hm & Ho).
    rewrite bool_decide_true by (unfold limited in Hl; by apply dec_stable in Hl). rewrite Ha.
    exists (metricsMux c :: all). split_and!; [done|by constructor|].
    cbn [zip_with]. by rewrite filter_cons_False.
Qed.

(** *** The limiter of "kaka" *)

Definition kakaBuilt (f : flags) : Options.options :=
  Options.mkOptions (if 0 <? maxkeys f then int_of_uint (maxkeys f) else 0) (Z.max 0 (keyttl f))
    (if 0 <? keyttl f then GoTime.Minute else 0) (Some Options.realClock) Options.EvictReject
    Options.defaultShardCount None.

Lemma kaka_applied f :
  Options.applyDefaults (foldl (fun o opt => opt o) Options.defaultOptions (kakaOptions f)) = kakaBuilt f.
Proof.
  unfold kakaOptions, kakaBuilt, Options.applyDefaults.
  destruct (0 <? maxkeys f), (Z.ltb_spec 0 (keyttl f)) as [Ht|Ht]; simpl;
    rewrite ?(proj2 (Z.ltb_lt 0 (keyttl f)) Ht); unfold Options.WithMaxKeys, Options.defaultOptions; simpl; f_equal; lia.
Qed.

(** A capacity of 100 and a rate of 10 pass the guards. *)
Lemma bench_guards opts :
  NewTokenBucket (F64.of_int 100) (F64.of_int 10) opts =
  (let! o := Options.buildOptions opts in let! s := Store.newStateStore o in
   Returns (mkTokenBucket (F64.of_int 100) (F64.of_int 10) (mkLimiter o s []))).
Proof.
  unfold NewTokenBucket. destruct (bucket_guards (F64.of_int 100) (F64.of_int 10)) as [_ Hg]; [by vm_compute..|].
  destruct Hg as [-> ->]; [by apply Numeric.int_params_ok|done].
Qed.

Definition kakaLimiter (f : flags) : TokenBucket :=
  mkTokenBucket (F64.of_int 100) (F64.of_int 10) (mkLimiter (kakaBuilt f) (Store.newShardedStore (kakaBuilt f)) []).

Lemma kaka_new f :
  0 <= maxkeys f < 2 ^ 63 →
  Options.options_ok (kakaBuilt f) ∧ Options.maxKeys (kakaBuilt f) = maxkeys f ∧
  NewTokenBucket (F64.of_int 100) (F64.of_int 10) (kakaOptions f) = Returns (kakaLimiter f).
Proof.
  intros Hm. assert (Options.maxKeys (kakaBuilt f) = maxkeys f) as Hk.
  { simpl. unfold int_of_uint. zbool; lia. }
  assert (Options.options_ok (kakaBuilt f)) as Hok.
  { constructor; [rewrite Hk; lia|simpl; lia|simpl; unfold GoTime.Minute, GoTime.Second; zbool; lia|done|by left|].
    exists 6. split; [lia|done]. }
  split_and!; [done|done|]. rewrite bench_guards.
  unfold Options.buildOptions. rewrite kaka_applied, (proj2 (Options.validate_ok _) Hok).
  cbn [obind]. by rewrite newStateStore_ok.
Qed.

Lemma kaka_refused f :
  2 ^ 63 <= maxkeys f < 2 ^ 64 →
  NewTokenBucket (F64.of_int 100) (F64.of_int 10) (kakaOptions f) = Panics "memory: maxKeys must be >= 0".
Proof.
  intros Hm. rewrite bench_guards. unfold Options.buildOptions. rewrite kaka_applied.
  unfold Options.validate. replace (Options.maxKeys (kakaBuilt f) <? 0) with true; [done|].
  simpl. unfold int_of_uint. zbool; lia.
Qed.

(** *** Starting *)

Section Properties.
Context `{GoArch} (mux metricsMux : exchange → exchange * unit) (Getenv : string → string).
Context {W : Type} {client : Redis.RedisClient W} (NewClient : string → W) (Ping : W → option string * W).
Context (tokenBucketScript : string).
Context {X : Type} (NewXLimiter : Z → Z → X) (XAllow : Time → X → bool * X).
Context {Store U : Type} (NewStoreWithOptions : W → string → Store + string)
        (NewUlule : Store → Duration → Z → U) (Get : U → string → (ululeContext + error) * U).

#[local] Notation main := (benchMain mux metricsMux Getenv NewClient Ping tokenBucketScript NewXLimiter XAllow
                             NewStoreWithOptions NewUlule Get).
#[local] Notation addr := (redisAddr Getenv).

(** What a start needs. *)
Definition startable (f : flags) : Prop :=
  impl f = "kaka" ∧ maxkeys f < 2 ^ 63 ∧ keymode f ∈ ["fixed"; "remote"; "many"] ∨
  impl f = "xtime" ∨
  (impl f = "redis" ∨ impl f = "layered") ∧ (Ping (NewClient addr)).1 = None ∨
  impl f = "ulule" ∧ (∃ store, NewStoreWithOptions (NewClient addr) "ulule" = inl store).

(** How it ends in [log.Fatalf]. *)
Definition fatal (f : flags) (format : string) (args : list string) : Prop :=
  impl f = "kaka" ∧ maxkeys f < 2 ^ 63 ∧ keymode f ∉ ["fixed"; "remote"; "many"] ∧
    format = "unknown keymode %q" ∧ args = [keymode f] ∨
  (impl f = "redis" ∨ impl f = "layered") ∧ format = "redis at %s: %v" ∧
    (∃ err, (Ping (NewClient addr)).1 = Some err ∧ args = [addr; err]) ∨
  impl f = "ulule" ∧ format = "ulule store: %v" ∧
    (∃ err, NewStoreWithOptions (NewClient addr) "ulule" = inr err ∧ args = [err]) ∨
  impl f ∉ ["kaka"; "xtime"; "redis"; "layered"; "ulule"] ∧ format = "unknown impl %q" ∧ args = [impl f].

Lemma keyFuncOf_known mode : (∃ kf, keyFuncOf mode = Some kf) ↔ mode ∈ ["fixed"; "remote"; "many"].
Proof.
  unfold keyFuncOf. rewrite !elem_of_cons, elem_of_nil. repeat case_bool_decide.
  1-3: split; [tauto|by eexists].
  split; [by intros [kf Hkf]|tauto].
Qed.

Lemma kaka_server f :
  0 <= maxkeys f < 2 ^ 63 →
  kakaServer mux f =
  match keyFuncOf (keymode f) with
  | None => Fatal "unknown keymode %q" [keymode f]
  | Some kf => Serves (mkServer (env TokenBucket.bucket) TokenBucket
                 (serve httpAdapter (benchConfig (kakaLimiter f) kf) mux) (kakaLimiter f))
  end.
Proof.
  intros Hm. unfold kakaServer. destruct (kaka_new f Hm) as (_ & _ & ->). by destruct (keyFuncOf _).
Qed.

(** The other servers, once their connection stands. *)
Lemma redis_remote (w : W) :
  Redis.NewTokenBucket tokenBucketScript w (F64.of_int 100) (F64.of_int 10) [] =
  Returns (Redis.mkTokenBucket (Redis.newLimiter w (Redis.NewScript "token_bucket" tokenBucketScript) [])
    (F64.of_int 100) (F64.of_int 10)).
Proof. reflexivity. Qed.

Lemma redis_server : ∃ s, redisServer mux Getenv NewClient Ping tokenBucketScript =
  match (Ping (NewClient addr)).1 with
  | None => Serves s
  | Some err => Fatal "redis at %s: %v" [addr; err]
  end.
Proof.
  unfold redisServer, connect, connectRedis. destruct (Ping (NewClient addr)) as [[err|] w]; cbn [fst].
  - exists (mkServer unit unit (fun _ _ _ => None) tt). done.
  - rewrite redis_remote. by eexists.
Qed.

Lemma layered_server : ∃ s, layeredServer mux Getenv NewClient Ping tokenBucketScript =
  match (Ping (NewClient addr)).1 with
  | None => Serves s
  | Some err => Fatal "redis at %s: %v" [addr; err]
  end.
Proof.
  unfold layeredServer, connect, connectRedis. destruct (Ping (NewClient addr)) as [[err|] w]; cbn [fst].
  - exists (mkServer unit unit (fun _ _ _ => None) tt). done.
  - rewrite redis_remote. destruct (kaka_new defaultFlags) as (_ & _ & Hk); [simpl; lia|].
    change (kakaOptions defaultFlags) with (@nil Options.Option) in Hk. rewrite Hk. by eexists.
Qed.

Lemma ulule_server : ∃ s, ululeServer mux Getenv NewClient NewStoreWithOptions NewUlule Get =
  match NewStoreWithOptions (NewClient addr) "ulule" with
  | inl store => Serves (s store)
  | inr err => Fatal "ulule store: %v" [err]
  end.
Proof. eexists (fun store => _). unfold ululeServer. by destruct (NewStoreWithOptions _ _). Qed.

(** The first match of the switch decides. *)
Lemma implServer_cases f :
  let server := implServer mux Getenv NewClient Ping tokenBucketScript NewXLimiter XAllow NewStoreWithOptions NewUlule Get f in
  impl f = "kaka" ∧ server = kakaServer mux f ∨
  impl f = "xtime" ∧ (∃ s, server = Serves s) ∨
  (impl f = "redis" ∨ impl f = "layered") ∧
    (∃ s, server = match (Ping (NewClient addr)).1 with
                   | None => Serves s
                   | Some err => Fatal "redis at %s: %v" [addr; err]
                   end) ∨
  impl f = "ulule" ∧
    (∃ s, server = match NewStoreWithOptions (NewClient addr) "ulule" with
                   | inl store => Serves (s store)
                   | inr err => Fatal "ulule store: %v" [err]
                   end) ∨
  impl f ∉ ["kaka"; "xtime"; "redis"; "layered"; "ulule"] ∧ server = Fatal "unknown impl %q" [impl f].
Proof.
  unfold implServer. rewrite !elem_of_cons, elem_of_nil.
  case_bool_decide; [by left|right]. case_bool_decide; [left; split; [done|by eexists]|right].
  case_bool_decide as Hr; [left; split; [by left|exact redis_server]|].
  case_bool_decide as Hl; [left; split; [by right|exact layered_server]|right].
  case_bool_decide; [left; split; [done|exact ulule_server]|right]. split; [naive_solver|done].
Qed.

(** The three endings: each start has one, and no start has two. *)
Definition crashes (f : flags) (msg : string) : Prop :=
  impl f = "kaka" ∧ 2 ^ 63 <= maxkeys f ∧ msg = "memory: maxKeys must be >= 0".

Lemma main_ends f :
  0 <= maxkeys f < 2 ^ 64 →
  match main f with
  | Serves _ => startable f
  | Fatal format args => fatal f format args
  | Crashes msg => crashes f msg
  end.
Proof.
  intros Hm. unfold benchMain, startable, fatal, crashes.
  destruct (implServer_cases f) as [[Hi ->]|[[Hi [s ->]]|[[Hi [s ->]]|[[Hi [s ->]]|[Hi ->]]]]].
  - destruct (Z_lt_le_dec (maxkeys f) (2 ^ 63)) as [Hlt|Hle].
    + rewrite kaka_server by lia. pose proof (keyFuncOf_known (keymode f)) as Hk.
      destruct (keyFuncOf (keymode f)) as [kf|]; left; split_and!; try done.
      * apply Hk. by eexists.
      * intros [? ?]%Hk. done.
    + unfold kakaServer. rewrite kaka_refused by lia. done.
  - by right; left.
  - destruct (Ping _).1 as [err|] eqn:Ep; [right; left|right; right; left]; eauto.
  - destruct (NewStoreWithOptions _ _) as [store|err] eqn:Es; [right; right; right|right; right; left]; eauto.
  - by right; right; right.
Qed.

(** Two endings of the same start contradict each other. *)
Ltac contradict_ends :=
  unfold startable, fatal, crashes in *;
  repeat match goal with
  | H : _ ∧ _ |- _ => destruct H
  | H : _ ∨ _ |- _ => destruct H
  | H : ∃ _, _ |- _ => destruct H
  | H : impl ?f = _, H' : impl ?f ∉ _ |- _ => rewrite H, !not_elem_of_cons in H'
  end; first [congruence | lia].

Lemma startable_not_fatal f format args : startable f → ¬ fatal f format args.
Proof. intros Hs Hf. contradict_ends. Qed.

Lemma startable_not_crashes f msg : startable f → ¬ crashes f msg.
Proof. intros Hs Hf. contradict_ends. Qed.

Lemma fatal_not_crashes f format args msg : fatal f format args → ¬ crashes f msg.
Proof. intros Hs Hf. contradict_ends. Qed.

Lemma fatal_unique f format args format' args' :
  fatal f format args → fatal f format' args' → format = format' ∧ args = args'.
Proof. intros Hs Hf. split; contradict_ends. Qed.

(** C39: the start of the bench server.  Whatever the other projects' code does,
    the server starts exactly for a known implementation whose needs are met
    (a known key mode; a Redis that answers a ping; a store that opens), ends
    in [log.Fatalf] with the message of the cause otherwise, and crashes
    exactly when a bound on the keys does not fit an int. *)
Theorem bench_startup f :
  0 <= maxkeys f < 2 ^ 64 →
  ((∃ s, main f = Serves s) ↔ startable f) ∧
  (∀ format args, main f = Fatal format args ↔ fatal f format args) ∧
  (∀ msg, main f = Crashes msg ↔ crashes f msg).
Proof.
  intros Hm. pose proof (main_ends f Hm) as He. destruct (main f) as [s|fmt xs|m]; split_and!.
  - split; [done|by eexists].
  - intros format args. split; [done|]. by intros ?%startable_not_fatal.
  - intros msg. split; [done|]. by intros ?; eapply startable_not_crashes in He.
  - split; [by intros [? ?]|]. by intros ?%(startable_not_fatal f fmt xs).
  - intros format args. split; [by intros [= <- <-]|]. intros Hf.
    by destruct (fatal_unique f fmt xs format args He Hf) as [-> ->].
  - intros msg. split; [done|]. by intros ?%(fatal_not_crashes f fmt xs).
  - split; [by intros [? ?]|]. intros Hs. by eapply startable_not_crashes in He.
  - intros format args. split; [done|]. intros Hf. by eapply fatal_not_crashes in He.
  - intros msg. split; [by intros [= <-]|]. destruct He as (_ & _ & ->). by intros (_ & _ & ->).
Qed.
(** *** Serving *)

Lemma kaka_main f kf :
  impl f = "kaka" → 0 <= maxkeys f < 2 ^ 63 → keyFuncOf (keymode f) = Some kf →
  main f = Serves (mkServer (env TokenBucket.bucket) TokenBucket
    (combined metricsMux (serve httpAdapter (benchConfig (kakaLimiter f) kf) mux)) (kakaLimiter f)).
Proof.
  intros Hi Hm Hk. unfold benchMain, implServer. rewrite bool_decide_true by done.
  rewrite kaka_server by done. by rewrite Hk.
Qed.

(** The fixed key makes every limited request one of the same client. *)
Lemma hits_global {E B} (reqs : list ((Time * E) * exchange)) (tags : list (B * bool)) :
  length tags = length reqs →
  (hits globalKey "global" reqs tags).*1 = reqs.*1.*1 ∧ through (hits globalKey "global" reqs tags)
    = Z.of_nat (length (filter (fun tag => tag.2 = true) tags)).
Proof.
  unfold through. revert tags. induction reqs as [|[[now x] c] reqs IH]; intros [|[b t] tags] Hl; try done.
  injection Hl as Hl. destruct (IH tags Hl) as [H1 H2]. cbn [hits]. rewrite bool_decide_true by done.
  rewrite !fmap_cons. cbn [fst]. split; [by rewrite H1|]. rewrite !filter_cons. cbn [snd].
  case_decide; cbn [length]; lia.
Qed.

Lemma kaka_refills f :
  keyttl f <= 0 ∨ 10 * GoTime.Second <= keyttl f →
  ttl_refills (F64.of_int 100) (F64.of_int 10) (lim_opts (tb_lim (kakaLimiter f))).
Proof.
  unfold ttl_refills, GoTime.Second. cbn [kakaLimiter tb_lim lim_opts kakaBuilt Options.keyTTL].
  intros [Ht|Ht]; [left; lia|right].
  destruct (of_int_exact 100) as [_ ->]; [lia|]. destruct (of_int_exact 10) as [_ ->]; [lia|].
  pose proof unit_sc_pos. nia.
Qed.

Lemma limited_instants {E} t0 (reqs : list ((Time * E) * exchange)) :
  nondecreasing t0 reqs.*1.*1 → nondecreasing t0 (filter limited reqs).*1.*1.
Proof. apply nondecreasing_sublist, fmap_sublist, fmap_sublist, sublist_filter. Qed.

(** C24: the bench server under load.  With the default implementation and the
    default key mode, no bound on the keys, and a TTL that is off or at least
    ten seconds: the server starts and answers any sequence of (fewer than 2^40)
    requests whose clock readings never go back; those
    for "/metrics" are answered by their own handler and cost nothing; of the
    others, taken together, at most 100, and 10 more for every second since
    the first, reach the routes, and the rest are answered with status 429
    (over a time of less than six days, with a tolerance of seven
    hundredths of a request for the rounding of the float operations). *)
Theorem bench_fixed_quota f t0 reqs :
  impl f = "kaka" → keymode f = "fixed" → maxkeys f = 0 →
  keyttl f <= 0 ∨ 10 * GoTime.Second <= keyttl f →
  nondecreasing t0 reqs.*1.*1 → Z.of_nat (length reqs) < 2 ^ 40 →
  ∃ handler tb outs tags tb', main f = Serves (mkServer (env TokenBucket.bucket) TokenBucket handler tb) ∧
    serveAll handler tb reqs = Some (outs, tb') ∧ metricsOnly metricsMux reqs outs ∧
    serveAll (probe httpAdapter (benchConfig tb globalKey)) tb (filter limited reqs) = Some (tags, tb') ∧
    Forall2 (agrees httpAdapter mux) (limitedOuts reqs outs) tags ∧
    Forall2 (fun q tag => refused q.2 tag) (filter limited reqs) tags ∧
    ∀ first rest, (filter limited reqs).*1.*1 = first :: rest → final first rest - first < 2 ^ 49 →
      Z.of_nat (length (filter (fun tag => tag.2 = true) tags))
        <= 100 + ((final first rest - first) * 10 + 2 ^ 26) / GoTime.Second.
Proof.
  intros Hi Hk Hmk Httl Hm Hlen. destruct (Numeric.int_params_ok 100 10) as [_ Hc]; [lia|lia|].
  destruct (kaka_new f) as (_ & Hmax & Hnew); [lia|].
  set (cfg := benchConfig (kakaLimiter f) globalKey).
  destruct (middleware_served httpAdapter cfg (F64.of_int 100) (F64.of_int 10) (kakaOptions f) (kakaLimiter f)
    mux t0 (filter limited reqs) "global") as (outs & tags & tb' & Hs & Hp & Hag & Hq).
  2, 3: by vm_compute.
  1-3: done.
  - by apply kaka_refills.
  - cbn [kakaLimiter tb_lim lim_opts]. rewrite Hmax. lia.
  - rewrite <- GoString.TrimSpace_empty_iff. by vm_compute.
  - by apply limited_instants.
  - destruct (combined_serveAll metricsMux _ _ _ _ _ Hs) as (all & Ha & Hmet & <-).
    assert (Forall2 (fun q tag => refused q.2 tag) (filter limited reqs) tags) as Href.
    { eapply (serveAll_Forall (probe httpAdapter cfg) refused); [|exact Hp]. intros e l c out l'. by apply probe_refused. }
    do 5 eexists. split_and!; [apply kaka_main; [done|lia|by rewrite Hk]|exact Ha|done|exact Hp|done|done|].
    change (keyOf httpAdapter cfg) with globalKey in Hq.
    destruct (hits_global (filter limited reqs) tags) as [H1 H2]; [symmetry; by eapply Forall2_length|].
    rewrite H1, H2 in Hq. intros first rest Hf Hd.
    pose proof (length_filter limited reqs) as Hll. pose proof (hits_length globalKey "global" (filter limited reqs) tags).
    apply (quota_whole 100 10 _ _ _ _ ltac:(lia) ltac:(lia) (Hq first rest Hf)); unfold GoTime.Second; lia.
Qed.

(** What a limiter with keys of the pool holds. *)
Lemma pool_footprint f (reqs : list (env TokenBucket.bucket * string)) :
  Options.options_ok (kakaBuilt f) → (∀ q, q ∈ reqs → q.2 ∈ pool) →
  ∃ rs tb', requests (kakaLimiter f) reqs = Some (rs, tb') ∧ Store.len (lim_store (tb_lim tb')) <= 10000.
Proof.
  intros Ho Hpool. unfold kakaLimiter. rewrite token_requests.
  destruct (newStore_ok (T := TokenBucket.bucket) (kakaBuilt f) Ho) as [Hok Habs].
  destruct (serve_keys (laws := sharded_laws (TokenBucket.newBucket (F64.of_int 100)) (kakaBuilt f))
    (TokenBucket.refillAndDecide (F64.of_int 100) (F64.of_int 10))
    (mkLimiter (kakaBuilt f) (Store.newShardedStore (kakaBuilt f)) []) reqs) as (rs & l' & -> & [_ Hl'] & Hdom).
  { split; [done|exact Hok]. }
  do 2 eexists. split; [done|]. cbn [tb_lim]. rewrite (sharded_len (kakaBuilt f) _ Hl').
  rewrite <- size_dom. apply pool_size. intros k Hk%Hdom. cbn [contents sharded_laws lim_store] in Hk.
  rewrite Habs, dom_empty_L, (left_id_L ∅ (∪)), elem_of_list_to_set in Hk.
  apply list_elem_of_fmap in Hk as (q & -> & Hq). by apply Hpool.
Qed.

(** C25: the bench server with many clients.  In key mode "many", whatever the
    bound on the keys and the TTL, the server answers any sequence of requests
    from any number of addresses, in any order of instants, and its limiter
    never holds more than 10000 keys. *)
Theorem bench_many_footprint f reqs :
  impl f = "kaka" → keymode f = "many" → 0 <= maxkeys f < 2 ^ 63 →
  ∃ handler tb outs tb', main f = Serves (mkServer (env TokenBucket.bucket) TokenBucket handler tb) ∧
    serveAll handler tb reqs = Some (outs, tb') ∧ metricsOnly metricsMux reqs outs ∧
    Store.len (lim_store (tb_lim tb')) <= 10000.
Proof.
  intros Hi Hk Hm. destruct (kaka_new f Hm) as (Hok & _ & _).
  set (cfg := benchConfig (kakaLimiter f) manyKey).
  destruct (pool_footprint f ((fun q => (q.1, keyOf httpAdapter cfg q.2)) <$> filter limited reqs) Hok)
    as (rs & tb' & Hr & Hlen).
  { intros q (p & -> & _)%list_elem_of_fmap. apply manyKey_pool. }
  destruct (serveAll_probe httpAdapter cfg mux _ _ _ _ ltac:(done) Hr) as (outs & _ & Hs & _).
  destruct (combined_serveAll metricsMux _ _ _ _ _ Hs) as (all & Ha & Hmet & _).
  do 4 eexists. split_and!; [apply kaka_main; [done|done|by rewrite Hk]|exact Ha|done|done].
Qed.

End Properties.

(** ** Witnesses *)

(** A Redis that is down, and the simplest limiters of the other projects. *)
Definition deadClient : Redis.RedisClient unit := {|
  Redis.ScriptLoad w _ := (inr "connection refused"%string, w);
  Redis.EvalSha w _ _ _ := (inr "connection refused"%string, w)
|}.

Definition deadMain (f : flags) : startup server :=
  benchMain (H := amd64) (client := deadClient) apiTest testRoute (fun _ => ""%string) (fun _ => tt)
    (fun w => (Some "connection refused"%string, w)) "script" (fun _ _ => tt) (fun _ x => (true, x))
    (fun _ _ => inl (B := string) tt) (fun _ _ _ => tt) (fun u _ => (inl (mkUluleContext false 99), u)) f.

(** Two requests for a route and one for the metrics. *)
Definition benchRequests : list (env TokenBucket.bucket * exchange) :=
  let req t path := ((t, anyOrder), mkExchange "10.0.0.1:4000" path (mkResponse ∅ None [])) in
  [req 0 "/api/test"%string; req 1 "/metrics"%string; req 2 "/api/test"%string].

Lemma bench_startup_witness :
  (∀ format args, deadMain (mkFlags "redis" "fixed" 0 0) = Fatal format args ↔
     fatal (fun _ => ""%string) (fun _ => tt) (fun w => (Some "connection refused"%string, w))
       (fun _ _ => inl (B := string) tt) (mkFlags "redis" "fixed" 0 0) format args) ∧
  deadMain (mkFlags "redis" "fixed" 0 0) = Fatal "redis at %s: %v" ["127.0.0.1:6379"; "connection refused"]%string.
Proof.
  split; [|vm_compute; reflexivity].
  apply (bench_startup (H := amd64) (client := deadClient) apiTest testRoute (fun _ => ""%string) (fun _ => tt)
    (fun w => (Some "connection refused"%string, w)) "script" (fun _ _ => tt) (fun _ x => (true, x))
    (fun _ _ => inl (B := string) tt) (fun _ _ _ => tt) (fun u _ => (inl (mkUluleContext false 99), u))
    (mkFlags "redis" "fixed" 0 0)).
  simpl. lia.
Defined.

Lemma bench_fixed_quota_witness :
  ∃ handler tb outs tb', deadMain defaultFlags = Serves (mkServer (env TokenBucket.bucket) TokenBucket handler tb) ∧
    serveAll handler tb benchRequests = Some (outs, tb') ∧ metricsOnly testRoute benchRequests outs.
Proof.
  destruct (bench_fixed_quota (H := amd64) (client := deadClient) apiTest testRoute (fun _ => ""%string) (fun _ => tt)
    (fun w => (Some "connection refused"%string, w)) "script" (fun _ _ => tt) (fun _ x => (true, x))
    (fun _ _ => inl (B := string) tt) (fun _ _ _ => tt) (fun u _ => (inl (mkUluleContext false 99), u))
    defaultFlags 0 benchRequests) as (handler & tb & outs & tags & tb' & H1 & H2 & H3 & _).
  - reflexivity.
  - reflexivity.
  - reflexivity.
  - left. simpl. lia.
  - simpl. lia.
  - simpl. lia.
  - exists handler, tb, outs, tb'. split_and!; [exact H1|exact H2|exact H3].
Defined.

Lemma bench_many_footprint_witness :
  ∃ handler tb outs tb',
    deadMain (mkFlags "kaka" "many" 0 0) = Serves (mkServer (env TokenBucket.bucket) TokenBucket handler tb) ∧
    serveAll handler tb benchRequests = Some (outs, tb') ∧ Store.len (lim_store (tb_lim tb')) <= 10000.
Proof.
  destruct (bench_many_footprint (H := amd64) (client := deadClient) apiTest testRoute (fun _ => ""%string) (fun _ => tt)
    (fun w => (Some "connection refused"%string, w)) "script" (fun _ _ => tt) (fun _ x => (true, x))
    (fun _ _ => inl (B := string) tt) (fun _ _ _ => tt) (fun u _ => (inl (mkUluleContext false 99), u))
    (mkFlags "kaka" "many" 0 0) benchRequests) as (handler & tb & outs & tb' & H1 & H2 & _ & H4).
  - reflexivity.
  - reflexivity.
  - simpl. lia.
  - exists handler, tb, outs, tb'. split_and!; [exact H1|exact H2|exact H4].
Defined.

End Bench.
