(* ===== verification/RedisDemo.v ===== *)
(** * RedisDemo: examples/redis-example over one server

    The program of examples/redis-example at work.  Its two limiters share one
    client, and so one server: the limiter of "/api/test" and the remote layer
    of the limiter of "/api/layered" see each other's effects.  The second has
    a key prefix of its own, "so the demo routes keep independent buckets";
    here is what that gives to the clients of the two routes. *)

From Stdlib Require Import ZArith Lia Bool Ascii.
From stdpp Require Import base gmap strings list pretty.
From S2P Require Import Prelude Float64 FloatFacts GoTime Core GoString Numeric Options Layered.
From S2P Require Import ShardedStore StateStore TokenBucket MemoryLimiter MemoryLimiters MemoryProps Middleware.
From S2P Require Import Redis RedisScripts LuaFacts RedisScriptFacts RedisCalls RedisSim RedisProps LayeredRedis Examples.

#[local] Open Scope Z_scope.

Module RedisDemo.
Import Scripts LuaFacts ScriptFacts RedisCalls RedisProps Middleware Examples.

(** ** The program *)

Section Program.
Context `{GoArch} {W : Type} {client : Redis.RedisClient W}.

(** The two handlers that [root] is given. *)
Inductive demoRoute := TestRoute | LayeredRoute.

Abbreviation testLimiter := (Redis.TokenBucket W).
Abbreviation layeredLimiter := (Layered.layered Memory.TokenBucket (Redis.TokenBucket W)).

(** The server, and the two limiters that talk to it. *)
Record demo := mkDemo { d_server : W; d_test : testLimiter; d_layered : layeredLimiter }.

(** A limiter with its client on the server as it is now. *)
Definition onServer (w : W) (tb : testLimiter) : testLimiter :=
  let l := Redis.tb_base tb in
  Redis.mkTokenBucket (Redis.mkLimiter (Redis.lim_opts l) (Redis.lim_script l) w (Redis.lim_trace l) (Redis.lim_errors l))
    (Redis.tb_capacity tb) (Redis.tb_rate tb).

Definition serverOf (tb : testLimiter) : W := Redis.lim_client (Redis.tb_base tb).

(** A request that [root] hands to one of its handlers; [env] is what the
    in-memory layer reads (its clock, the order of its maps). *)
Definition serveDemo (testHandler : unit → testLimiter → exchange → option ((exchange * unit) * testLimiter))
    (layeredHandler : Memory.env TokenBucket.bucket * unit → layeredLimiter → exchange →
      option ((exchange * unit) * layeredLimiter))
    (route : demoRoute) (env : Memory.env TokenBucket.bucket) (d : demo) (c : exchange)
    : option ((exchange * unit) * demo) :=
  match route with
  | TestRoute =>
      match testHandler tt (onServer (d_server d) (d_test d)) c with
      | None => None
      | Some (out, tb) => Some (out, mkDemo (serverOf tb) tb (d_layered d))
      end
  | LayeredRoute =>
      let l := d_layered d in
      match layeredHandler (env, tt) (Layered.setRemote l (onServer (d_server d) (Layered.ll_remote l))) c with
      | None => None
      | Some (out, l) => Some (out, mkDemo (serverOf (Layered.ll_remote l)) (d_test d) l)
      end
  end.
End Program.

#[local] Existing Instance Redis.TokenBucket_Allow.
#[local] Existing Instance Memory.TokenBucket_Allow.

(** What the limiter of a route says to a host. *)
Definition asksDemo `{GoArch} {W} {client : Redis.RedisClient W} (route : demoRoute)
    (env : Memory.env TokenBucket.bucket) (d : demo (W := W)) (host : string)
    : option ((Result * option error) * demo (W := W)) :=
  match route with
  | TestRoute =>
      match Allow tt (onServer (d_server d) (d_test d)) host with
      | None => None
      | Some (r, tb) => Some (r, mkDemo (serverOf tb) tb (d_layered d))
      end
  | LayeredRoute =>
      let l := d_layered d in
      match Layered.Layered_Allow (env, tt) (Layered.setRemote l (onServer (d_server d) (Layered.ll_remote l))) host with
      | None => None
      | Some (r, l) => Some (r, mkDemo (serverOf (Layered.ll_remote l)) (d_test d) l)
      end
  end.

(** What a client gets: the answer of the route, after the headers, or 429. *)
Definition answered (mux : exchange → exchange * unit) (c : exchange) (r : Result * option error) (out : exchange * unit) : Prop :=
  match r.2 with
  | Some _ => out = mux c
  | None =>
      if Allowed r.1 then out = mux (httpSetHeader "X-RateLimit-Remaining" (pretty (Remaining r.1)) c)
      else Status (resp c) = None → Status (resp out.1) = Some StatusTooManyRequests
  end.

(** ** The keys on the server *)

Definition prefixOf (route : demoRoute) : string :=
  match route with TestRoute => "kaka:" | LayeredRoute => "kaka:layered:" end.
Definition serverKey (route : demoRoute) (host : string) : string := prefixOf route +:+ host.

(** The keys of the two limiters, and those of others that use the default
    prefix. *)
Definition ours (k : string) : Prop := ∃ rest, k = "kaka:" +:+ rest.

Lemma serverKey_ours route host : ours (serverKey route host).
Proof. destruct route; by eexists. Qed.

(** The buckets of the two routes are independent, unless a host looks like a
    key of the other route. *)
Lemma serverKey_independent route host route' host' :
  serverKey route host = serverKey route' host' →
  (∀ rest, host ≠ "layered:" +:+ rest) → (∀ rest, host' ≠ "layered:" +:+ rest) →
  route = route' ∧ host = host'.
Proof.
  destruct route, route'; unfold serverKey; simpl; intros [= Hk] H1 H2; try done.
  - by destruct (H1 host').
  - by destruct (H2 host).
Qed.

(** ** Visits *)

(** A request that was served: the time of the server, and the answer. *)
Record visit := mkVisit { v_route : demoRoute; v_request : exchange; v_ms : Z; v_answer : exchange * unit }.

Definition v_host (v : visit) : string := clientHost (RemoteAddr (v_request v)).

(** Visits of clients, on one bucket of the server, that were not turned away. *)
Definition letIn (k : string) (v : visit) : Prop :=
  serverKey (v_route v) (v_host v) = k ∧ GoString.TrimSpace (v_host v) ≠ EmptyString ∧
  Status (resp (v_answer v).1) ≠ Some StatusTooManyRequests.
#[export] Instance letIn_dec k v : Decision (letIn k v).
Proof. unfold letIn. apply _. Defined.

Definition entries (k : string) (vs : list visit) : Z := Z.of_nat (length (filter (letIn k) vs)).

Section Facts.
Context `{GoArch} {W : Type} {client : Redis.RedisClient W} {scripting : Redis.RedisScripting W client}.
Context {server : RedisServer W} {laws : RedisServerLaws W server} {tokenSrc leakySrc windowSrc : string}.
Context {host : ScriptHost client scripting server laws tokenSrc leakySrc windowSrc}.
Implicit Types (w : W) (k : string).

Abbreviation two := (F64.of_int 2).
Abbreviation one := (F64.of_int 1).
Abbreviation wf := (bucket_wf "tokens" "last_refilled_ms" two).

Lemma demo_rates : rates_ok two one.
Proof.
  destruct (Numeric.int_params_ok 2 1) as [Hp Hc]; [lia|lia|]. split_and!; [done|done|].
  destruct one_exact as [_ ->]. pose proof unit_sc_pos. lia.
Qed.

(** *** One of the two Redis limiters *)

Record demoLimiter (prefix : string) (tb : Redis.TokenBucket W) : Prop := {
  dl_capacity : Redis.tb_capacity tb = two;
  dl_rate : Redis.tb_rate tb = one;
  dl_script : Redis.script_ok (Redis.lim_script (Redis.tb_base tb));
  dl_body : Redis.scriptBody (Redis.lim_script (Redis.tb_base tb)) = tokenSrc;
  dl_prefix : Redis.keyPrefix (Redis.lim_opts (Redis.tb_base tb)) = prefix;
  dl_ttl : int64_min <= Redis.keyTTL (Redis.lim_opts (Redis.tb_base tb)) <= int64_max
}.

Lemma onServer_ok prefix tb w : demoLimiter prefix tb → demoLimiter prefix (onServer w tb).
Proof. intros []. by constructor. Qed.

(** A call leaves the options as they are. *)
Lemma emit_opts (l : Redis.limiter W) r : Redis.lim_opts (Redis.emit l r) = Redis.lim_opts l.
Proof. unfold Redis.emit. by case_match. Qed.
Lemma emitError_opts (l : Redis.limiter W) err : Redis.lim_opts (Redis.emitError l err) = Redis.lim_opts l.
Proof. unfold Redis.emitError. by case_match. Qed.

Lemma degrade_opts (l : Redis.limiter W) err : Redis.lim_opts (Redis.degrade l err).2 = Redis.lim_opts l.
Proof.
  rewrite <- (emitError_opts l err). unfold Redis.degrade, Redis.fallback, Redis.callOnError.
  repeat case_match; simplify_eq/=; by rewrite emit_opts.
Qed.

Lemma allow_opts args (l : Redis.limiter W) key : Redis.lim_opts (Redis.allow args l key).2 = Redis.lim_opts l.
Proof.
  unfold Redis.allow. destruct (Redis.validateKey key); [apply emitError_opts|].
  destruct (Redis.Run _ _ _ _) as [[out s] w]. destruct out as [res|err].
  - destruct (Redis.decode res) as [r|err]; [exact (emit_opts _ r)|].
    pose proof (degrade_opts (Redis.mkLimiter (Redis.lim_opts l) s w (Redis.lim_trace l) (Redis.lim_errors l)) err).
    by destruct (Redis.degrade _ err).
  - pose proof (degrade_opts (Redis.mkLimiter (Redis.lim_opts l) s w (Redis.lim_trace l) (Redis.lim_errors l)) err).
    by destruct (Redis.degrade _ err).
Qed.

(** A call for a key that is blank returns an error and leaves the server alone. *)
Lemma blank_call prefix tb w key :
  demoLimiter prefix tb → GoString.Blank key →
  ∃ tb', Redis.TokenBucket_Allow tt (onServer w tb) key = Some ((zeroResult, Some Redis.ErrBlankKey), tb') ∧
    demoLimiter prefix tb' ∧ serverOf tb' = w.
Proof.
  intros [] Hb. unfold Redis.TokenBucket_Allow, Redis.allow, Redis.validateKey.
  rewrite bool_decide_true by by apply GoString.TrimSpace_empty_iff. eexists. split; [done|].
  unfold Redis.emitError, serverOf. case_match; by split; [constructor|].
Qed.

(** Any other call is one on the bucket of its key, and on no other key. *)
Lemma demo_call prefix tb w key :
  demoLimiter prefix tb → ¬ GoString.Blank key → clock_ok w → wf (prefix +:+ key) w →
  ∃ r tb', Redis.TokenBucket_Allow tt (onServer w tb) key = Some ((r, None), tb') ∧ demoLimiter prefix tb' ∧
    tokenCall (tokenSrc := tokenSrc) two one (prefix +:+ key) tt w r (serverOf tb') ∧
    frame (prefix +:+ key) w (serverOf tb') ∧ wf (prefix +:+ key) (serverOf tb').
Proof.
  intros Hd Hk Hc (v & Hb & Hl). destruct demo_rates as (Hp & Hcap & Hrate).
  pose proof (onServer_ok prefix tb w Hd) as Hd'. destruct Hd' as [H1 H2 H3 H4 H5 H6].
  assert (instance tokenSrc w (prefix +:+ key) (Redis.tb_base (onServer w tb)) key) as Hi.
  { constructor; try done; [|by unfold Redis.keyFor; rewrite H5].
    unfold Redis.validateKey. by rewrite bool_decide_false by by rewrite GoString.TrimSpace_empty_iff. }
  destruct (token_allow two one Hp Hcap Hrate (onServer w tb) w _ key v H1 H2 Hi Hc Hb Hl) as (r & tb' & Ha & Hi' & Hst).
  exists r, tb'. apply bucket_step_wf in Hst as (_ & Hf & Hw). split_and!; [exact Ha| | |exact Hf|exact Hw].
  - unfold Redis.TokenBucket_Allow in Ha. pose proof (allow_opts
      [ArgFloat (Redis.tb_capacity (onServer w tb)); ArgFloat (Redis.tb_rate (onServer w tb));
       ArgInt (Redis.ttlMs (Redis.tb_base (onServer w tb)))] (Redis.tb_base (onServer w tb)) key) as Ho.
    destruct (Redis.allow _ _ _) as [r0 l]. injection Ha as _ <-. cbn [snd] in Ho. destruct Hi'.
    constructor; cbn [Redis.tb_base Redis.tb_capacity Redis.tb_rate] in *; try done; by rewrite Ho.
  - exists (onServer w tb), tb', key. by split_and!.
Qed.

(** *** The program *)

(** The local layer. *)
Definition localOk (tb : Memory.TokenBucket) : Prop :=
  MemoryLimiter.limiter_ok (laws := sharded_laws (TokenBucket.newBucket two) Options.defaultOptions) (Memory.tb_lim tb) ∧
  Memory.tb_capacity tb = two.

Lemma wf_frame k k' w w' : frame k w w' → wf k w' → wf k' w → wf k' w'.
Proof.
  intros [_ Hf] Hk Hk'. destruct (decide (k' = k)) as [->|Hne]; [done|].
  destruct Hk' as (v & Hb & Hl). exists v. split; [|done]. by eapply bucket_at_frame; [apply Hf|].
Qed.

(** The server, and one of the two limiters on it. *)
Definition sound w : Prop := clock_ok w ∧ ∀ k, ours k → wf k w.
Definition connected route (tb : Redis.TokenBucket W) : Prop := demoLimiter (prefixOf route) tb ∧ sound (serverOf tb).

(** What a request of a host does to the server. *)
Definition effect route (key : string) w (r : Result * option error) w' : Prop :=
  (GoString.Blank key ∨ r.2 = None) ∧
  (w' = w ∧ Allowed r.1 = false ∨
   tokenCall (tokenSrc := tokenSrc) two one (serverKey route key) tt w r.1 w' ∧ frame (serverKey route key) w w').

(** Every call of a limiter of the program returns. *)
Lemma limiter_effect route tb key :
  connected route tb →
  ∃ r tb', Redis.TokenBucket_Allow tt tb key = Some (r, tb') ∧ connected route tb' ∧
    effect route key (serverOf tb) r (serverOf tb').
Proof.
  intros [Hd [Hc Hw]]. assert (onServer (serverOf tb) tb = tb) as Heq by by destruct tb as [[] ? ?].
  destruct (decide (GoString.TrimSpace key = EmptyString)) as [Hb|Hb];
    rewrite GoString.TrimSpace_empty_iff in Hb.
  - destruct (blank_call _ tb (serverOf tb) key Hd Hb) as (tb1 & Ha & Hd1 & Hs). do 2 eexists.
    rewrite Heq in Ha. split; [exact Ha|]. unfold connected. rewrite Hs. split; [done|]. split; by left.
  - destruct (demo_call _ tb (serverOf tb) key Hd Hb Hc) as (r & tb1 & Ha & Hd1 & Ht & Hf & Hwf); [apply Hw, (serverKey_ours route)|].
    rewrite Heq in Ha. do 2 eexists. split; [exact Ha|]. split; [|split; by right]. split; [done|]. split.
    + destruct Hf as [Hck _]. unfold clock_ok. by rewrite Hck.
    + intros k Hk. eapply wf_frame; [exact Hf|exact Hwf|by apply Hw].
Qed.

(** Every call of the local layer returns. *)
Lemma local_answers : Layered.answers (E := Memory.env TokenBucket.bucket) localOk.
Proof.
  intros tb e key [Hok Hc]. unfold Allow, Memory.TokenBucket_Allow. rewrite Hc.
  destruct (MemoryLimiter.allow_spec (laws := sharded_laws (TokenBucket.newBucket two) Options.defaultOptions)
    (TokenBucket.refillAndDecide two (Memory.tb_rate tb)) e (Memory.tb_lim tb) key Hok) as (r & l' & -> & Hok' & _).
  do 2 eexists. split; [reflexivity|]. by split.
Qed.

Lemma remote_answers : Layered.answers (E := unit) (connected LayeredRoute).
Proof. intros tb [] key Htb. destruct (limiter_effect _ tb key Htb) as (r & tb' & Ha & Htb' & _). eauto. Qed.

Record demo_ok (d : demo (W := W)) : Prop := {
  do_test : demoLimiter "kaka:" (d_test d);
  do_local : localOk (Layered.ll_local (d_layered d));
  do_remote : demoLimiter "kaka:layered:" (Layered.ll_remote (d_layered d));
  do_server : ∀ k, ours k → wf k (d_server d)
}.

(** The program answers every request. *)
Lemma asks_effect route env d key :
  demo_ok d → clock_ok (d_server d) →
  ∃ r d', asksDemo route env d key = Some (r, d') ∧ demo_ok d' ∧ effect route key (d_server d) r (d_server d').
Proof.
  intros [Ht Hl Hr Hk] Hc. destruct route; unfold asksDemo.
  - destruct (limiter_effect TestRoute (onServer (d_server d) (d_test d)) key) as (r & tb & Ha & [Htb [_ Hk']] & He).
    { split; [by apply onServer_ok|done]. }
    unfold Allow. rewrite Ha. do 2 eexists. split; [reflexivity|]. by split.
  - set (l := Layered.setRemote _ _). assert (connected LayeredRoute (Layered.ll_remote l)) as Hcon by (split; [by apply onServer_ok|done]).
    destruct (Layered.allow_step localOk (connected LayeredRoute) local_answers remote_answers (env, tt) l key Hl Hcon)
      as (r & l' & Ha & Hst & Hl' & [Hr' [_ Hk']]).
    unfold Allow in Ha. rewrite Ha. do 2 eexists. split; [reflexivity|]. split; [by split|].
    destruct (limiter_effect LayeredRoute _ key Hcon) as (r1 & tb1 & Ha1 & _ & He).
    destruct Hst as [Hb|lr sl _ _ Hden|lr sl r sr _ _ _ Hrem|lr err sl r sr _ _ Hrem]; cbn [d_server Layered.ll_remote].
    + split; by left.
    + split; [by right|by left].
    + unfold Allow in Hrem. cbn [snd] in Hrem. rewrite Ha1 in Hrem. by injection Hrem as -> ->.
    + unfold Allow in Hrem. cbn [snd] in Hrem. rewrite Ha1 in Hrem. by injection Hrem as -> ->.
Qed.

(** *** The handlers *)

Lemma serve_answered {E S} {L : Limiter E S} (l0 : S) mux e l c r l' :
  Allow e l (clientHost (RemoteAddr c)) = Some (r, l') →
  ∃ out, serve httpAdapter (mkConfig (Some l0) (Some (fun c => clientHost (RemoteAddr c))) None None false) mux e l c
    = Some (out, l') ∧ answered mux c r out.
Proof.
  intros Ha. unfold serve, leave. cbn [resumes httpAdapter KeyFunc default from_option ErrorHandler DeniedHandler]. unfold id. rewrite Ha. unfold answered.
  destruct r as [r [err|]]; cbn [fst snd]; [by eexists|]. unfold writeHeaders. cbn [DisableHeaders].
  destruct (Allowed r); cbn [negb andb]; (eexists; split; [reflexivity|]); [done|].
  intros Hs. cbn [httpAdapter setHeader defaultDenied fst].
  case_match; unfold httpDenied, httpEncodeJSON, httpWriteHeader, httpSetHeader, withResp;
    repeat (cbn [resp Status Header Body]; rewrite ?Hs); done.
Qed.

Definition muxOf (testMux layeredMux : exchange → exchange * unit) (route : demoRoute) : exchange → exchange * unit :=
  match route with TestRoute => testMux | LayeredRoute => layeredMux end.

(** What [main] builds. *)
Lemma example_built w m m' h1 l1 h2 l2 :
  redisExample tokenSrc w m m' = Returns ((h1, l1), (h2, l2)) → (∀ k, ours k → stored w k = VNone) →
  demo_ok (mkDemo w l1 l2) ∧
  ∀ route env d c r d', asksDemo route env d (clientHost (RemoteAddr c)) = Some (r, d') →
    ∃ out, serveDemo h1 h2 route env d c = Some (out, d') ∧ answered (muxOf m m' route) c r out.
Proof.
  assert (Memory.NewTokenBucket (F64.of_int 2) (F64.of_int 1) [] = Returns MemoryProps.exampleTokenBucket) as Hnew
    by (vm_compute; reflexivity).
  unfold redisExample, redisExampleLimiters. rewrite !redis_new. rewrite Hnew. intros [= <- <- <- <-] Hk. split.
  - constructor; [by constructor; try by left| |by constructor; try by left|].
    + split; [|done]. split; [done|]. apply newStore_ok. by apply (Options.buildOptions_ok []).
    + intros k Ho. exists None. split; [apply bucket_none, Hk, Ho|done].
  - intros route env d c r d'. unfold asksDemo, serveDemo. destruct route.
    + destruct (Allow _ _ _) as [[r1 tb]|] eqn:Ea; [|done]. intros [= <- <-].
      edestruct (serve_answered (L := Redis.TokenBucket_Allow)) as (out & -> & Hout); [exact Ea|]. eauto.
    + destruct (Layered.Layered_Allow _ _ _) as [[r1 l']|] eqn:Ea; [|done]. intros [= <- <-].
      edestruct (serve_answered (L := Layered.Layered_Allow (local_limiter := Memory.TokenBucket_Allow) (remote_limiter := Redis.TokenBucket_Allow))) as (out & -> & Hout); [exact Ea|]. eauto.
Qed.

(** *** The program at work *)

Definition at_server w (d : demo (W := W)) : demo := mkDemo w (d_test d) (d_layered d).

(** Requests one after another; between two of them anything may happen that
    keeps the keys with the default prefix. *)
Inductive demoRun h1 h2 : demo → list visit → demo → Prop :=
| demoRun_nil d : demoRun h1 h2 d [] d
| demoRun_cons d w1 route env c out d1 vs d2 :
    (∀ k, ours k → stored w1 k = stored (d_server d) k) → clock_ok w1 → Status (resp c) = None →
    serveDemo h1 h2 route env (at_server w1 d) c = Some (out, d1) → demoRun h1 h2 d1 vs d2 →
    demoRun h1 h2 d (mkVisit route c (ms w1) out :: vs) d2.

Section Run.
Context (m m' : exchange → exchange * unit).
Context (h1 : unit → Redis.TokenBucket W → exchange → option ((exchange * unit) * Redis.TokenBucket W)).
Context (h2 : Memory.env TokenBucket.bucket * unit → Layered.layered Memory.TokenBucket (Redis.TokenBucket W) → exchange →
  option ((exchange * unit) * Layered.layered Memory.TokenBucket (Redis.TokenBucket W))).
Hypothesis Hserve : ∀ route env d c r d', asksDemo route env d (clientHost (RemoteAddr c)) = Some (r, d') →
  ∃ out, serveDemo h1 h2 route env d c = Some (out, d') ∧ answered (muxOf m m' route) c r out.

Lemma at_server_ok w d : (∀ k, ours k → stored w k = stored (d_server d) k) → demo_ok d → demo_ok (at_server w d).
Proof.
  intros Hs [? ? ? Hk]. constructor; try done. intros k Ho. destruct (Hk k Ho) as (v & Hb & Hl).
  exists v. split; [|done]. by eapply bucket_at_frame; [apply Hs|].
Qed.

(** One request. *)
Lemma serve_effect route env d c :
  demo_ok d → clock_ok (d_server d) →
  ∃ out r d', serveDemo h1 h2 route env d c = Some (out, d') ∧ demo_ok d' ∧ answered (muxOf m m' route) c r out ∧
    effect route (clientHost (RemoteAddr c)) (d_server d) r (d_server d').
Proof.
  intros Hd Hc. destruct (asks_effect route env d (clientHost (RemoteAddr c)) Hd Hc) as (r & d' & Ha & Hd' & He).
  destruct (Hserve _ _ _ _ _ _ Ha) as (out & Hs & Ho). by exists out, r, d'.
Qed.

(** A client is let in only on an allowed result. *)
Lemma letIn_allowed k route c t r out :
  letIn k (mkVisit route c t out) → Status (resp c) = None → answered (muxOf m m' route) c r out →
  (GoString.Blank (clientHost (RemoteAddr c)) ∨ r.2 = None) → Allowed r.1 = true.
Proof.
  intros (_ & Hb & Hst) Hs Ha He. unfold v_host in Hb. cbn [v_request v_answer] in *.
  rewrite GoString.TrimSpace_empty_iff in Hb. destruct He as [|He]; [done|]. unfold answered in Ha. rewrite He in Ha.
  destruct (Allowed r.1); [done|]. by destruct Hst; apply Ha.
Qed.

(** The calls on one bucket behind a run. *)
Lemma run_history d vs d' k u :
  demoRun h1 h2 d vs d' → demo_ok d → ours k → stored u k = stored (d_server d) k →
  demo_ok d' ∧
  ∃ es u', history (tokenCall (tokenSrc := tokenSrc) two one k) k u es u' ∧ entries k vs <= allowed_count (results es) ∧
    sublist (instants es) (v_ms <$> vs).
Proof.
  intros Hrun Hd Ho. revert u Hd. unfold entries.
  induction Hrun as [d|d w1 route env c out d1 vs d2 Hkeep Hc Hfresh Hs _ IH]; intros u Hd Hu.
  { split; [done|]. exists [], u. split_and!; [constructor|done|constructor]. }
  destruct (serve_effect route env (at_server w1 d) c (at_server_ok w1 d Hkeep Hd) Hc) as (out' & r & d1' & Hs' & Hd1 & Ha & Herr & He).
  rewrite Hs' in Hs. injection Hs as -> ->. cbn [at_server d_server] in He. specialize (Hkeep k Ho).
  assert (letIn k (mkVisit route c (ms w1) out) → Allowed r.1 = true) as Hin.
  { intros Hl. by eapply letIn_allowed. }
  rewrite fmap_cons. cbn [v_ms].
  match goal with |- ?G => assert (stored (d_server d1) k = stored w1 k → ¬ letIn k (mkVisit route c (ms w1) out) → G) as Hskip end.
  { intros Hst Hn. destruct (IH u Hd1 ltac:(congruence)) as (Hd2 & es & u' & Hh & Hn' & Hsub).
    rewrite filter_cons_False by exact Hn. split; [exact Hd2|]. exists es, u'. split_and!; [exact Hh|exact Hn'|by constructor]. }
  destruct He as [[Hw Hden]|[Hcall Hf]].
  { apply Hskip; [by rewrite Hw|]. intros Hl. specialize (Hin Hl). congruence. }
  destruct (decide (serverKey route (clientHost (RemoteAddr c)) = k)) as [<-|Hne].
  - destruct (IH (d_server d1) Hd1 eq_refl) as (Hd2 & es & u' & Hh & Hn' & Hsub). split; [done|].
    exists (mkEvent tt (ms w1) r.1 :: es), u'. split_and!.
    + eapply history_cons; [congruence|done|exact Hcall|exact Hh].
    + unfold results. rewrite fmap_cons, allowed_count_cons, filter_cons. cbn [ev_result]. unfold results in Hn'.
      case_decide as Hl; [rewrite (Hin Hl); cbn [length]; lia|]. destruct (Allowed r.1); lia.
    + by constructor.
  - apply Hskip; [apply Hf; congruence|]. by intros [? _].
Qed.

End Run.

(** *** The bound, in whole requests *)

Lemma entries_whole n d len :
  n * unit_sc * 2 ^ 52 * 1000
    <= fval two * 2 ^ 52 * 1000 + d * fval one * (2 ^ 52 + 3) + len * step_error two * 1000 →
  0 <= len → 3 * d + 7000 * len < 2 ^ 52 → n <= 2 + d / 1000.
Proof.
  destruct (of_int_exact 2) as [_ Hc]; [lia|]. destruct (of_int_exact 1) as [_ Hr]; [lia|].
  unfold step_error. rewrite Hc, Hr. intros Hq Hl Hs.
  pose proof unit_sc_pos as Hu. pose proof GoTime.tiny_small. pose proof tiny_pos.
  assert (len * (3 * (2 * unit_sc) + 4 * tiny * 2 ^ 52) <= len * (7 * unit_sc)) as Hlen by nia.
  assert (n * (2 ^ 52 * 1000) <= 2 * (2 ^ 52 * 1000) + d * (2 ^ 52 + 3) + len * 7000) as Hn.
  { apply (Z.mul_le_mono_pos_r _ _ unit_sc Hu). nia. }
  assert (n - 2 <= d / 1000); [|lia]. apply Z.div_le_lower_bound; lia.
Qed.

(** *** The program *)

(** An answer is the route's, with the header that tells how many requests are
    left, or 429. *)
Definition routeOr429 (m m' : exchange → exchange * unit) (v : visit) : Prop :=
  GoString.TrimSpace (v_host v) = EmptyString ∨
  Status (resp (v_answer v).1) = Some StatusTooManyRequests ∨
  ∃ left, v_answer v = muxOf m m' (v_route v) (httpSetHeader "X-RateLimit-Remaining" left (v_request v)).

Lemma run_answers m m' h1 h2 d vs d' :
  (∀ route env d c r d', asksDemo route env d (clientHost (RemoteAddr c)) = Some (r, d') →
    ∃ out, serveDemo h1 h2 route env d c = Some (out, d') ∧ answered (muxOf m m' route) c r out) →
  demoRun h1 h2 d vs d' → demo_ok d → Forall (routeOr429 m m') vs.
Proof.
  intros Hserve Hrun. induction Hrun as [d|d w1 route env c out d1 vs d2 Hkeep Hc Hfresh Hs _ IH]; intros Hd; [constructor|].
  destruct (serve_effect m m' h1 h2 Hserve route env (at_server w1 d) c (at_server_ok w1 d Hkeep Hd) Hc)
    as (out' & r & d1' & Hs' & Hd1 & Ha & Herr & _).
  rewrite Hs' in Hs. injection Hs as -> ->. constructor; [|by apply IH]. unfold routeOr429, v_host. cbn [v_request v_answer v_route].
  destruct Herr as [Hb|Hn]; [left; by apply GoString.TrimSpace_empty_iff|]. unfold answered in Ha. rewrite Hn in Ha.
  destruct (Allowed r.1); [right; right; by eexists|right; left; by apply Ha].
Qed.

Lemma demo_quota m m' h1 h2 d vs d' :
  (∀ route env d c r d', asksDemo route env d (clientHost (RemoteAddr c)) = Some (r, d') →
    ∃ out, serveDemo h1 h2 route env d c = Some (out, d') ∧ answered (muxOf m m' route) c r out) →
  demoRun h1 h2 d vs d' → demo_ok d → (∀ k, ours k → stored (d_server d) k = VNone) →
  ∀ route client t0 t1, t0 <= t1 <= t0 + 10 ^ 14 → Z.of_nat (length vs) <= 10 ^ 11 →
    Forall (fun v => t0 <= v_ms v <= t1) vs → entries (serverKey route client) vs <= 2 + (t1 - t0) / 1000.
Proof.
  intros Hserve Hrun Hd Hnone route cl t0 t1 Ht Hlen Hspan. pose proof (serverKey_ours route cl) as Ho.
  destruct (run_history m m' h1 h2 Hserve _ _ _ _ (d_server d) Hrun Hd Ho eq_refl) as (_ & es & u & Hh & Hn & Hsub).
  assert (sublist (instants es) (v_ms <$> vs) → Z.of_nat (length es) <= Z.of_nat (length vs)) as Hle.
  { intros Hl%sublist_length. unfold instants in Hl. rewrite !length_fmap in Hl. lia. }
  specialize (Hle Hsub). assert (Forall (fun u => t0 <= u <= t1) (instants es)) as Hin.
  { eapply Forall_sublist; [exact Hsub|]. by apply Forall_fmap. }
  destruct demo_rates as (Hp & Hcap & Hrate). pose proof Hp as (Hf & H1 & _). pose proof unit_sc_pos.
  destruct (history_quota two one (serverKey route cl) "tokens" "last_refilled_ms" two (fun _ => True) fval
    (tokenCall (tokenSrc := tokenSrc) two one (serverKey route cl))) with (w := d_server d) (es := es) (w' := u) as [_ Hq];
    [lia|intros; by eapply tokenCall_step|done|by apply Hnone|done|lia|done|].
  etrans; [exact Hn|]. destruct (instants es) as [|first rest] eqn:Ei.
  { assert (es = []) as -> by by destruct es. unfold allowed_count. simpl. pose proof (Z.div_pos (t1 - t0) 1000). lia. }
  apply Forall_cons in Hin as [Hfirst Hrest]. specialize (Hq first rest eq_refl).
  pose proof (latest_ge first rest).
  assert (latest first rest <= t1).
  { apply LayeredRedis.latest_le; [lia|]. eapply Forall_impl; [exact Hrest|]. simpl. lia. }
  etrans; [eapply entries_whole; [exact Hq|lia|lia]|]. pose proof (Z.div_le_mono (latest first rest - first) (t1 - t0) 1000). lia.
Qed.

(** C23: the redis-example.  Its two limiters share one Redis, on which no key
    with the default prefix exists at the start; requests to either route
    arrive in any order, and between two of them anything may happen that
    keeps these keys.  Then every next request is answered; each answer to a
    client whose host is not blank is 429 or the answer of the route with the
    header that tells what is left; and of the requests on one bucket of the
    server (a host at a route), over any span of time, at most two and one for
    every second are not turned away, without any tolerance, for up to 10^11
    requests over up to 10^14 milliseconds. *)
Theorem redis_example_quota w m m' h1 l1 h2 l2 vs d :
  redisExample tokenSrc w m m' = Returns ((h1, l1), (h2, l2)) → (∀ k, ours k → stored w k = VNone) →
  demoRun h1 h2 (mkDemo w l1 l2) vs d →
  (∀ w1 route env c, (∀ k, ours k → stored w1 k = stored (d_server d) k) → clock_ok w1 →
     is_Some (serveDemo h1 h2 route env (at_server w1 d) c)) ∧
  Forall (routeOr429 m m') vs ∧
  ∀ route client t0 t1, t0 <= t1 <= t0 + 10 ^ 14 → Z.of_nat (length vs) <= 10 ^ 11 →
    Forall (fun v => t0 <= v_ms v <= t1) vs → entries (serverKey route client) vs <= 2 + (t1 - t0) / 1000.
Proof.
  intros Hnew Hnone Hrun. destruct (example_built w m m' h1 l1 h2 l2 Hnew Hnone) as [Hd Hserve]. split_and!.
  - intros w1 route env c Hkeep Hc.
    destruct (run_history m m' h1 h2 Hserve _ _ _ _ w Hrun Hd (serverKey_ours TestRoute "") eq_refl) as [Hd' _].
    destruct (serve_effect m m' h1 h2 Hserve route env (at_server w1 d) c (at_server_ok w1 d Hkeep Hd') Hc)
      as (out & _ & d2 & -> & _). by eexists.
  - by eapply run_answers.
  - by eapply demo_quota.
Qed.

End Facts.

(** ** A witness on the simulated server *)

Import Sim.

Section Witness.
#[local] Existing Instance amd64.

Definition simTest : Redis.TokenBucket state :=
  Redis.mkTokenBucket (Redis.newLimiter empty (Redis.NewScript "token_bucket" tokenSrc) []) (F64.of_int 2) (F64.of_int 1).
Definition simLayered : Layered.layered Memory.TokenBucket (Redis.TokenBucket state) :=
  Layered.mkLayered MemoryProps.exampleTokenBucket
    (Redis.mkTokenBucket (Redis.newLimiter empty (Redis.NewScript "token_bucket" tokenSrc)
      [Redis.WithKeyPrefix "kaka:layered:"]) (F64.of_int 2) (F64.of_int 1)) None [].

Definition simConfig {S} (l : S) : Config S exchange :=
  mkConfig (Some l) (Some (fun c => clientHost (RemoteAddr c))) None None false.

(** Serve a request some microseconds after the last one. *)
Definition later (w : state) (us : Z) : state := mkState (now_us w + us) (data w) (expiry w) (scripts w).
Definition simServe (d : demo) (us : Z) (route : demoRoute) (addr : string) : option ((exchange * unit) * demo) :=
  serveDemo (serve httpAdapter (simConfig simTest) testRoute) (serve (Limiter0 := Layered.Layered_Allow) httpAdapter (simConfig simLayered) layeredRoute)
    route (0, MemoryProps.anyOrder) (at_server (later (d_server d) us) d) (mkExchange addr "/" (mkResponse ∅ None [])).

(** The visits that such requests make, and the program after them. *)
Fixpoint simVisits (d : demo) (reqs : list (Z * demoRoute * string)) : option (list visit * demo) :=
  match reqs with
  | [] => Some ([], d)
  | (us, route, addr) :: reqs =>
      match simServe d us route addr with
      | None => None
      | Some (out, d') =>
          match simVisits d' reqs with
          | None => None
          | Some (vs, d'') =>
              Some (mkVisit route (mkExchange addr "/" (mkResponse ∅ None [])) (ms (later (d_server d) us)) out :: vs, d'')
          end
      end
  end.

(** Three requests of one client at once, one of them over the other route,
    then two more, and one a second later. *)
Definition simRequests : list (Z * demoRoute * string) :=
  [(0, TestRoute, "10.0.0.1:4000"); (0, LayeredRoute, "10.0.0.1:4001"); (0, TestRoute, "10.0.0.1:4002");
   (0, TestRoute, "10.0.0.1:4003"); (1000000, TestRoute, "10.0.0.1:4004")]%string.

Lemma simVisits_run d reqs vs d' :
  simVisits d reqs = Some (vs, d') → Forall (fun v => 0 <= v_ms v < 2 ^ 50) vs →
  demoRun (serve httpAdapter (simConfig simTest) testRoute)
    (serve (Limiter0 := Layered.Layered_Allow) httpAdapter (simConfig simLayered) layeredRoute) d vs d'.
Proof.
  revert d vs. induction reqs as [|[[us route] addr] reqs IH]; intros d vs; cbn [simVisits].
  { intros [= <- <-] _. constructor. }
  destruct (simServe d us route addr) as [[out d1]|] eqn:Es; [|done].
  destruct (simVisits d1 reqs) as [[vs1 d2]|] eqn:Ev; [|done]. intros [= <- <-] [Ht Hvs]%Forall_cons.
  apply (demoRun_cons _ _ d (later (d_server d) us) route (0, MemoryProps.anyOrder) _ out d1); [done| |done|exact Es|by apply IH].
  cbn [v_ms] in Ht. unfold ms in Ht. unfold clock_ok. pose proof (Z.div_mod (clock (later (d_server d) us)) 1000 ltac:(lia)).
  pose proof (Z.mod_pos_bound (clock (later (d_server d) us)) 1000 ltac:(lia)). lia.
Qed.

Lemma redis_example_quota_witness :
  ∃ vs d, simVisits (mkDemo empty simTest simLayered) simRequests = Some (vs, d) ∧
    (fun v => Status (resp (v_answer v).1)) <$> vs = [Some 200; Some 200; Some 200; Some 429; Some 200] ∧
    entries (serverKey TestRoute "10.0.0.1") vs <= 3.
Proof.
  destruct (simVisits _ simRequests) as [[vs d]|] eqn:E; [|vm_compute in E; discriminate].
  assert ((fun v => (v_ms v, Status (resp (v_answer v).1))) <$> vs =
    [(1000, Some 200); (1000, Some 200); (1000, Some 200); (1000, Some 429); (2000, Some 200)]) as Hvs.
  { apply (f_equal (fun o => match o with Some (vs, _) => (fun v => (v_ms v, Status (resp (v_answer v).1))) <$> vs | None => [] end)) in E.
    rewrite <- E. vm_compute. reflexivity. }
  assert (Forall (fun v => 1000 <= v_ms v <= 2000) vs) as Ht.
  { apply (Forall_fmap (fun v => (v_ms v, Status (resp (v_answer v).1))) (fun p => 1000 <= p.1 <= 2000)).
    rewrite Hvs. rewrite !Forall_cons, Forall_nil. simpl. lia. }
  exists vs, d. split_and!; [done| |].
  - apply (f_equal (fmap snd)) in Hvs. rewrite <- list_fmap_compose in Hvs. exact Hvs.
  - destruct (redis_example_quota empty testRoute layeredRoute _ simTest _ simLayered vs d eq_refl) as (_ & _ & Hq).
    + intros k _. reflexivity.
    + apply (simVisits_run _ _ _ _ E). eapply Forall_impl; [exact Ht|]. simpl. lia.
    + apply (Hq TestRoute "10.0.0.1"%string 1000 2000); [lia| |exact Ht].
      apply (f_equal length) in Hvs. rewrite length_fmap in Hvs. simpl in Hvs. lia.
Defined.
End Witness.

End RedisDemo.
